(* ===== verification/_CoqProject ===== *)
-Q . S2P
Prelude.v
Queue.v
QueueRep.v
QueueSpec.v
QueueConc.v
QueueConcInv.v
Types.v
TypesSpec.v
Bus.v
BusSpec.v
Wal.v
WalSpec.v
Wire.v
WireSpec.v
Groups.v
GroupsSpec.v
Assign.v
AssignSpec.v
ConsumerGroups.v
ConsumerGroupsSpec.v
Txn.v
TxnSpec.v
Amqp.v
AmqpSpec.v
Offsets.v
OffsetsSpec.v
Ids.v
IdsSpec.v
Processor.v
ProcessorSpec.v
Batch.v
BatchSpec.v
KafkaStore.v
KafkaStoreSpec.v
Kafka.v
KafkaSpec.v
Float64.v
Limiter.v
LimiterSpec.v
Auth.v
AuthSpec.v
Rq.v
RqSpec.v
Pool.v
PoolSpec.v
Stores.v
StoresSpec.v
Adapters.v
AdaptersSpec.v
Api.v
ApiSpec.v
ApiTopics.v
ApiTopicsSpec.v
ApiMessages.v
ApiMessagesSpec.v
Hub.v
HubSpec.v
