(* ===== verification/Prelude.v ===== *)
(** * Portask: a verification development

    Portask is a message broker written in Go.  Clients reach it over its own
    binary protocol and over Kafka and AMQP emulations; messages are routed by
    a message bus over lock-free ring buffers to worker goroutines; a
    write-ahead log and pluggable stores keep them.  This library models the
    parts that carry its own logic and proves what they guarantee, and where
    a guarantee the code suggests does not hold, it proves that too.

    ** Files, sources and theorems

    - [Prelude]: Go's fixed-width integers as wrapped [Z], results ([res]),
      panics and fuel ([exec]), byte orders, Go map loops, tactics, hints.
    - [Queue], [QueueRep], [QueueSpec]: [LockFreeQueue] of
      [src/pkg/queue/lockfree.go], called by one goroutine at a time.  The
      record [LockFreeQueue] has the struct's fields; [Enqueue], [Dequeue] and
      the rest are the methods with their retry loops.  [queue_rep] relates a
      ring to the list it holds, with unbounded ghost tickets behind the
      wrapping 64-bit counters.  Theorems: the ring refines a bounded FIFO
      queue ([queue_refines_fifo]), its statistics are exact, [nextPowerOf2] is
      the least power of two, and two defects: an overflow under the
      [DropOldest] policy jams the ring for good, and a ring of capacity 1
      overwrites.
    - [QueueConc], [QueueConcInv]: the same two methods as atomic actions of
      many goroutines under every interleaving ([step], [reach]), for the
      policies that do not drop.  The invariant says which goroutine owns which
      slot; theorems: every delivered ticket carries the item enqueued under
      it, none is delivered twice, and the backlog stays within the capacity.
    - [Types], [TypesSpec]: [src/pkg/types/message.go] and [errors.go].
      Theorems: pool reset, retry budget, expiry, batch sizes.
    - [Bus], [BusSpec]: [MessageBus], [WorkerPool] and [Worker] of
      [lockfree.go].  [Bus] models start, stop, the publish operations, the
      statistics and the worker's batch loop; the processor is a parameter.
      [BusSpec] proves the workers against the interface [Drainable], which the
      ring buffer implements, the publish operations on every branch, and the
      path from publisher to processor.
    - [Wal], [WalSpec]: [src/pkg/storage/wal.go] over a directory with failing
      writes and fsynced prefixes.  Theorems: an entry written to a new log
      before any failure can be read back at its offset after any later calls,
      batches, detection of every one-byte
      corruption by the CRC; defects: offsets after a restart, durability
      across a rotation.
    - [Wire], [WireSpec]: [src/pkg/network/protocol.go] over an abstract
      [MessageStore] (class), codec, gzip and JSON.  Theorems: the frame
      decoder accepts exactly the encodings, pipelined publishes are stored in
      order, damaged frames are skipped; defects: disconnects are not noticed,
      uncompressed fetches fail.
    - [Groups], [GroupsSpec]: [GroupCoordinator] of
      [src/pkg/kafka/group_coordinator.go].  Theorems: the group invariant over
      all runs, fencing by generation, session expiry, delivery of assignments;
      a follower that syncs early gets the wrong answer.
    - [Assign], [AssignSpec]: the four partition assignors of
      [group_coordinator.go] and [consumer_groups.go]: every partition that is
      asked for goes to exactly one member, and the shares are balanced.
    - [ConsumerGroups], [ConsumerGroupsSpec]: [ConsumerGroupCoordinator] of
      [consumer_groups.go] over the class [PartitionAssignmentStrategy] with its
      instance [RoundRobinAssignor]: rebalancing is exact; offsets, fencing.
    - [Txn], [TxnSpec]: [src/pkg/kafka/transactions.go].  Theorems: contiguous
      sequence numbers in every run; defects: a failed abort is fatal, an abort
      does not drop the batched messages.
    - [Amqp], [AmqpSpec]: [EnhancedAMQPServer] of [src/pkg/amqp/server.go]:
      frame reading over TCP segments, the connection state machine, method
      parsing, queues, publishing, consuming, acknowledgements, and every frame
      written.  Theorems: handlers return and do not panic on sane frames,
      a client's publish is reassembled and goes to the channel's queue whatever
      it names, a queue is delivered in order, the acknowledgement bookkeeping is
      invariant, the handshake gate; defects: a content header can crash the
      process, a requeue duplicates, the reserved fields of publishes and queue
      declarations are taken for names.
    - [Offsets], [OffsetsSpec]: both managers of
      [src/pkg/kafka/offset_manager.go], as nested maps.  Theorem: they refine
      one flat map under commits, deletions and retention sweeps; defect: an
      expired offset can stay fetchable.
    - [Ids], [IdsSpec]: [src/pkg/common/idgen.go] and [src/pkg/types/ulid.go]:
      when numbered identifiers coincide, both decimal printers, ULIDs sort by
      time.
    - [Processor], [ProcessorSpec]: the workers of
      [src/pkg/processor/processor.go] and [metrics.go] with the pooled
      messages of [src/pkg/memory/pool.go]: what processing keeps of a message,
      batches are all or nothing; defects: lost fields, results that go astray.
    - [Batch], [BatchSpec]: the batch writers of [src/pkg/processor/]
      ([batch_writer.go], [parallel_batch_writer.go], [async_batch_writer.go],
      [config_tiers.go]) over a class [StorageBackend], goroutines and channels
      as events, every attempt of a shard's flush an event of its own.  Theorems
      against the interface [AtomicStore]: exactly once and in order for the
      single writer, conservation for the shards; defects at shutdown.
    - [KafkaStore], [KafkaStoreSpec]: the class [MessageStore] and its
      in-memory instance of [src/pkg/kafka/protocol.go], the adapter of
      [processor_bridge.go] as an instance of [StorageBackend], the global
      consumer groups, [errors.go].  Theorems: dense offsets, bounded reads; a
      batch with a bad message is stored over and over.
    - [Kafka], [KafkaSpec]: the Kafka server: [protocol.go], [handlers.go],
      [handlers_extended.go], [translator.go], [processor_bridge.go].  A state
      monad [H] carries the unread request, the response and the server, which
      is composed of [Groups], [Offsets], [Ids], [Processor] and [Batch];
      [runs] is its logic for requests built from encodings.  Theorems:
      requests are answered in order, handlers do not panic, what a Produce
      request does; defects: an OffsetCommit request of version 0 commits
      nothing, negative counts, acknowledged offsets, undispatched requests.
    - [Float64]: the float64 operations used by limiters and pools, as
      correctly rounded multiples of 2^-1074.
    - [Limiter], [LimiterSpec]: [src/pkg/auth/ratelimiter.go] and
      [ratelimiter_middleware.go]: the rate is kept in every window of a
      limiter in use; a client that keeps asking the advanced limiter starves.
    - [Auth], [AuthSpec]: [src/pkg/auth/] ([authenticator.go], [helpers.go],
      [middleware.go], [audit.go]) over a class for the JWT package with its
      laws: the life of a key, a deleted user is locked out, role permissions;
      defects: a token renews itself, passwords are not checked.
    - [Rq], [RqSpec]: the job queues of [src/pkg/rq/] over a class
      [PriorityBus], which [Bus] implements: counters, bounded retries;
      defects: scheduled jobs, and with them all retries, vanish, workers are
      idle.
    - [Pool], [PoolSpec]: [src/pkg/memory/pool.go]: [FastBuffer] refines a list
      of bytes, buffers up to the largest allocation are handed out zeroed, the
      next power of two; defects of resizing and of [BufferPool].
    - [Stores], [StoresSpec]: the in-memory stores of [src/pkg/storage/]
      ([in_memory.go] over a heap of shared message objects,
      [memory_store.go]) and [src/cmd/server/inmemory_store.go], and
      [CompositeStore] of [interface.go] with its replication goroutines as
      steps that share the message objects.  Theorems: the storage refines a
      map, replicas receive every pointer accepted; defects of offsets, keys and
      generated identifiers.
    - [Adapters], [AdaptersSpec]: [src/pkg/amqp/translator.go] and
      [processor_bridge.go], and the Kafka and AMQP storage adapters of
      [src/cmd/server/] over its store and the message bus.  Theorems:
      properties round-trip, one protocol reads what the other wrote; defects:
      offsets are ignored, properties are lost in the bridge.
    - [Api], [ApiSpec]: the server state of [src/pkg/api/fiber.go] and the
      handlers of [consumer_groups_native.go] over a class [MessageStore],
      which the server's store implements; a handler maps the parsed request
      and the state to the new state and a reply.  Theorems: groups refine a
      map of abstract groups; offsets round-trip and a reset clears the lag,
      against the interface [OffsetStore].
    - [ApiTopics], [ApiTopicsSpec]: [topics_management.go]: cache and store
      together refine a map of topics, through decimal strings.
    - [ApiMessages], [ApiMessagesSpec]: publishing, fetching, batches and
      acknowledgements of [fiber.go] and [batch_operations.go], the handlers
      of [transactions.go].  Theorems: batches are accounted for and read
      back; defects of limits, requeues and transactions.
    - [Hub], [HubSpec]: the WebSocket hub of [websocket.go] and the connection
      handler of [fiber.go] as interleaved events ([hub_step], [fiber_step]).
      Theorems: the subscription tables agree in every run, a broadcast reaches
      the subscribers; one slow client stops the hub, a disconnect crashes.

    ** Conventions

    A struct is a record, a Go map a [gmap] (or an association list where the
    iteration order matters), a method a function from the state to the new
    state and the results.  Methods that hold a mutex throughout are one step;
    where one that takes locks in turn is modelled as one step, its comment says
    so.
    Times and durations are nanoseconds; the clock, generated identifiers and
    map iteration orders are arguments.  A 64-bit counter wraps where the code
    can make it wrap; lengths of slices and files do not.

    ** Fuel and bounds

    The retry loops of the ring take [loop_fuel] = 1001 iterations: each
    uninterrupted iteration leaves the loop or increments a counter that stops
    at 1000, and [queue_refines_fifo] and the other theorems show that the
    calls return.  Queue capacities are assumed between 2 and 2^62; Go's [make]
    fails far below the upper bound.  The concurrent theorems are about runs with
    fewer than 2^63 enqueues, so that tickets compare correctly as int64.
    Both [HandleConnection]s take as much fuel as the number of requests plus
    one; theorems about them state the result for that fuel.  The AMQP frame
    loop takes more fuel than bytes received, since a frame is at least 8
    bytes.  The decimal printers take 20 steps, the digits of 2^64; the doubling
    loop of the buffer pools takes 64, enough up to 2^62.  [maxAlloc] (2^48) is
    where [make] panics, in [Amqp] and [Pool]; memory that runs out below it is
    not modelled.

    ** Not modelled

    Sockets, TLS, HTTP routes and middleware, the external storage backends,
    serialization and compression libraries, configuration, metrics and
    monitoring handlers, clients, examples and benchmarks: they are input and
    output around the components above.  Not modelled either: the
    ultra-performance variants of queue and workers, the TCP server's connection
    accounting, and the cluster node's life cycle. *)
From stdpp Require Import base gmap strings list fin_maps numbers.
From Stdlib Require Import ZArith Lia.

#[global] Open Scope Z_scope.

(** ** Go's fixed-width integers

    A Go integer of width [w] is a [Z] in range; every arithmetic operation of
    the source that can leave the range is followed by one of these wraps. *)

Definition wrapu (w z : Z) : Z := z mod 2 ^ w.
Definition wraps (w z : Z) : Z := (z + 2 ^ (w - 1)) mod 2 ^ w - 2 ^ (w - 1).

#[global] Arguments wrapu : simpl never.
#[global] Arguments wraps : simpl never.

Abbreviation u8 := (wrapu 8).
Abbreviation u16 := (wrapu 16).
Abbreviation u32 := (wrapu 32).
Abbreviation u64 := (wrapu 64).
Abbreviation s16 := (wraps 16).
Abbreviation s32 := (wraps 32).
Abbreviation s64 := (wraps 64).

Create HintDb portask discriminated.

Lemma wrapu_range w z : 0 <= w -> 0 <= wrapu w z < 2 ^ w.
Proof. intros. unfold wrapu. apply Z.mod_pos_bound. lia. Qed.

Lemma wrapu_small w z : 0 <= z < 2 ^ w -> wrapu w z = z.
Proof. intros. unfold wrapu. by apply Z.mod_small. Qed.

Lemma wraps_small w z : 0 < w -> - 2 ^ (w - 1) <= z < 2 ^ (w - 1) -> wraps w z = z.
Proof.
  intros Hw Hz. unfold wraps.
  assert (2 ^ w = 2 * 2 ^ (w - 1)) as E.
  { rewrite <-Z.pow_succ_r by lia. f_equal; lia. }
  rewrite Z.mod_small by lia. lia.
Qed.

Lemma wraps_range w z : 0 < w -> - 2 ^ (w - 1) <= wraps w z < 2 ^ (w - 1).
Proof.
  intros Hw. unfold wraps.
  assert (2 ^ w = 2 * 2 ^ (w - 1)) as E.
  { rewrite <-Z.pow_succ_r by lia. f_equal; lia. }
  pose proof (Z.mod_pos_bound (z + 2 ^ (w - 1)) (2 ^ w)). lia.
Qed.

Lemma wrapu_idemp w z : 0 <= w -> wrapu w (wrapu w z) = wrapu w z.
Proof. intros. apply wrapu_small, wrapu_range; lia. Qed.

Lemma wrapu_add_l w a b : 0 <= w -> wrapu w (wrapu w a + b) = wrapu w (a + b).
Proof. intros. unfold wrapu. by rewrite Zplus_mod_idemp_l. Qed.

Lemma wrapu_sub_l w a b : 0 <= w -> wrapu w (wrapu w a - b) = wrapu w (a - b).
Proof. intros. unfold wrapu. by rewrite Zminus_mod_idemp_l. Qed.

(** Signed reinterpretation only looks at the residue. *)
Lemma wraps_congr w a b : 0 < w -> a mod 2 ^ w = b mod 2 ^ w -> wraps w a = wraps w b.
Proof.
  intros Hw E. unfold wraps. f_equal.
  by rewrite (Zplus_mod a), (Zplus_mod b), E.
Qed.

Lemma wraps_mod w z : 0 < w -> wraps w z mod 2 ^ w = z mod 2 ^ w.
Proof.
  intros Hw. unfold wraps.
  rewrite Zminus_mod_idemp_l. f_equal. lia.
Qed.

(** The idiom [int64(a) - int64(b)] of two unsigned counters: the difference of
    the ghost values, as long as it fits. *)
Lemma signed_diff w a b :
  0 < w -> - 2 ^ (w - 1) <= a - b < 2 ^ (w - 1) ->
  wraps w (wraps w (wrapu w a) - wraps w (wrapu w b)) = a - b.
Proof.
  intros Hw Hr.
  transitivity (wraps w (a - b)); [|by apply wraps_small].
  apply wraps_congr; [done|].
  rewrite Zminus_mod, !wraps_mod by done.
  unfold wrapu. rewrite !Zmod_mod. by rewrite <-Zminus_mod.
Qed.

(** Two ghost counters with the same residue that are close are equal. *)
Lemma wrapu_inj w a b : 0 < w -> - 2 ^ w < a - b < 2 ^ w -> wrapu w a = wrapu w b -> a = b.
Proof.
  unfold wrapu. intros Hw Hr E.
  assert ((a - b) mod 2 ^ w = 0) as E0.
  { rewrite Zminus_mod, E, <-Zminus_mod, Z.sub_diag. apply Z.mod_0_l. lia. }
  apply Z.mod_divide in E0; [|lia]. destruct E0 as [k Hk].
  assert (k = 0) by nia. lia.
Qed.

#[export] Hint Resolve wrapu_range wraps_range : portask.

(** ** Results of Go calls that return [(value, error)] *)

Inductive res (E A : Type) : Type :=
| Ok (a : A)
| Err (e : E).
Arguments Ok {E A} a.
Arguments Err {E A} e.

Definition is_ok {E A} (r : res E A) : bool :=
  match r with Ok _ => true | Err _ => false end.

(** Outcome of a Go function that may panic (index out of range, nil map) or,
    for a loop modelled with fuel, not finish within the fuel. *)
Inductive exec (A : Type) : Type :=
| Ret (a : A)
| Panic
| OutOfFuel.
Arguments Ret {A} a.
Arguments Panic {A}.
Arguments OutOfFuel {A}.

Declare Scope portask_scope.
Delimit Scope portask_scope with portask.
Notation "'let!' x := e 'in' k" :=
  (match e with Ok x => k | Err err => Err err end)
  (at level 10, x pattern, e at level 200, k at level 200)
  : portask_scope.
Notation "'do!' x := e 'in' k" :=
  (match e with Ret x => k | Panic => Panic | OutOfFuel => OutOfFuel end)
  (at level 10, x pattern, e at level 200, k at level 200)
  : portask_scope.
#[global] Open Scope portask_scope.

(** The largest allocation of the Go runtime (48-bit addresses on 64-bit
    platforms): [make] panics above it.  Running out of memory below it is not
    modelled. *)
Definition maxAlloc : Z := 2 ^ 48.

(** ** Tactics *)

(** Case analysis on the innermost scrutinee of a [match] in the goal or in a
    hypothesis, keeping the equation. *)
Ltac destruct_scrut :=
  match goal with
  | |- context [match ?x with _ => _ end] =>
      lazymatch x with
      | context [match _ with _ => _ end] => fail
      | _ => destruct x eqn:?
      end
  | H : context [match ?x with _ => _ end] |- _ =>
      lazymatch x with
      | context [match _ with _ => _ end] => fail
      | _ => destruct x eqn:?
      end
  end.

Ltac crush := repeat (simplify_eq/=; try done; try lia; destruct_scrut).

(** Reflect the boolean comparisons of the context into propositions. *)
Ltac zb :=
  repeat match goal with
  | H : (_ =? _) = true |- _ => apply Z.eqb_eq in H
  | H : (_ =? _) = false |- _ => apply Z.eqb_neq in H
  | H : (_ <? _) = true |- _ => apply Z.ltb_lt in H
  | H : (_ <? _) = false |- _ => apply Z.ltb_ge in H
  | H : (_ <=? _) = true |- _ => apply Z.leb_le in H
  | H : (_ <=? _) = false |- _ => apply Z.leb_gt in H
  | H : (_ >? _) = true |- _ => rewrite Z.gtb_ltb in H; apply Z.ltb_lt in H
  | H : (_ >? _) = false |- _ => rewrite Z.gtb_ltb in H; apply Z.ltb_ge in H
  | H : (_ >=? _) = true |- _ => rewrite Z.geb_leb in H; apply Z.leb_le in H
  | H : (_ >=? _) = false |- _ => rewrite Z.geb_leb in H; apply Z.leb_gt in H
  | H : _ && _ = true |- _ => apply andb_true_iff in H as [? ?]
  | H : _ || _ = false |- _ => apply orb_false_iff in H as [? ?]
  | H : negb _ = true |- _ => apply negb_true_iff in H
  | H : negb _ = false |- _ => apply negb_false_iff in H
  end.

(** ** Bytes and the byte orders of [encoding/binary]

    A Go byte is a [Z] in [0, 256). *)

Definition byte_ok (b : Z) : Prop := 0 <= b < 256.
Abbreviation bytes := (list Z).
Definition bytes_ok (bs : bytes) : Prop := Forall byte_ok bs.

(** [binary.LittleEndian.PutUintN] and [UintN] for [8 * n]-bit integers. *)
Fixpoint le_put (n : nat) (z : Z) : bytes :=
  match n with
  | O => []
  | S n => z mod 256 :: le_put n (z / 256)
  end.

Fixpoint le_get (bs : bytes) : Z :=
  match bs with
  | [] => 0
  | b :: bs => b + 256 * le_get bs
  end.

(** [binary.BigEndian] is the mirror image. *)
Definition be_put (n : nat) (z : Z) : bytes := rev (le_put n z).
Definition be_get (bs : bytes) : Z := le_get (rev bs).

Lemma le_put_length n z : length (le_put n z) = n.
Proof. revert z; induction n; intros; simpl; auto. Qed.

Lemma be_put_length n z : length (be_put n z) = n.
Proof. unfold be_put. by rewrite length_rev, le_put_length. Qed.

Lemma le_put_ok n z : bytes_ok (le_put n z).
Proof.
  revert z; induction n; intros z; simpl; constructor; [|apply IHn].
  unfold byte_ok. by apply Z.mod_pos_bound.
Qed.

Lemma be_put_ok n z : bytes_ok (be_put n z).
Proof. apply Forall_rev, le_put_ok. Qed.

Lemma le_get_put n z : le_get (le_put n z) = z mod 2 ^ (8 * Z.of_nat n).
Proof.
  revert z; induction n as [|n IH]; intros z.
  - simpl. by rewrite Z.mod_1_r.
  - cbn [le_put le_get]. rewrite IH.
    replace (8 * Z.of_nat (S n)) with (8 + 8 * Z.of_nat n) by lia.
    rewrite Z.pow_add_r by lia. change (2 ^ 8) with 256.
    rewrite Z.rem_mul_r by lia. lia.
Qed.

Lemma be_get_put n z : be_get (be_put n z) = z mod 2 ^ (8 * Z.of_nat n).
Proof. unfold be_get, be_put. by rewrite rev_involutive, le_get_put. Qed.

Lemma le_put_get bs : bytes_ok bs -> le_put (length bs) (le_get bs) = bs.
Proof.
  induction 1 as [|b bs Hb _ IH]; [done|]. unfold byte_ok in Hb.
  cbn [le_get le_put length]. f_equal.
  - rewrite (Z.mul_comm 256), Z.mod_add, Z.mod_small by lia. done.
  - replace ((b + 256 * le_get bs) / 256) with (le_get bs); [done|].
    rewrite (Z.mul_comm 256), Z.div_add, Z.div_small by lia. lia.
Qed.

Lemma be_put_get bs : bytes_ok bs -> be_put (length bs) (be_get bs) = bs.
Proof.
  intros H. unfold be_get, be_put.
  rewrite <-(length_rev bs), le_put_get by by apply Forall_rev.
  apply rev_involutive.
Qed.

Lemma le_get_range bs : bytes_ok bs -> 0 <= le_get bs < 2 ^ (8 * Z.of_nat (length bs)).
Proof.
  intros H. rewrite <-(le_put_get bs H) at 1 2. rewrite le_get_put.
  apply Z.mod_pos_bound. lia.
Qed.

Lemma be_get_range bs : bytes_ok bs -> 0 <= be_get bs < 2 ^ (8 * Z.of_nat (length bs)).
Proof.
  intros H. unfold be_get. rewrite <-(length_rev bs).
  by apply le_get_range, Forall_rev.
Qed.

(** Slicing off an encoded field. *)
Lemma take_app_len {A} n (l k : list A) : length l = n -> take n (l ++ k) = l.
Proof. intros <-. apply take_app_length. Qed.

Lemma drop_app_len {A} n (l k : list A) : length l = n -> drop n (l ++ k) = k.
Proof. intros <-. apply drop_app_length. Qed.

Lemma Forall_Forall2_and {A B} (P : A -> Prop) (R : A -> B -> Prop) l k :
  Forall P l -> Forall2 R l k -> Forall2 (fun a b => P a /\ R a b) l k.
Proof. intros Hl H. induction H; inversion Hl; subst; auto. Qed.

#[export] Hint Resolve le_put_ok be_put_ok : portask.
#[export] Hint Rewrite @length_app le_put_length be_put_length : portask.

(** ** Go map loops *)

(** [for k := range h { delete(h0, k) }] *)
Lemma map_fold_delete {K} `{Countable K} {V} (h h0 : gmap K V) :
  map_fold (fun k _ acc => delete k acc) h0 h = h0 ∖ h.
Proof.
  induction h as [|k v h Hk Hfst IH] using map_first_key_ind.
  - rewrite map_fold_empty. by rewrite map_difference_empty.
  - rewrite map_fold_insert_first_key by done. rewrite IH.
    apply map_eq. intros i. rewrite lookup_delete, !lookup_difference, lookup_insert.
    repeat case_decide; congruence.
Qed.

(** [for k, v := range h { update h0[k] with v, if present }] *)
Lemma lookup_map_fold_alter {K} `{Countable K} {V W} (f : V -> W -> W) (h : gmap K V)
  (h0 : gmap K W) i :
  map_fold (fun k v acc => alter (f v) k acc) h0 h !! i
  = match h !! i with Some v => f v <$> h0 !! i | None => h0 !! i end.
Proof.
  induction h as [|k v h Hk Hfst IH] using map_first_key_ind.
  - by rewrite map_fold_empty, lookup_empty.
  - rewrite map_fold_insert_first_key by done.
    destruct (decide (k = i)) as [->|Hne].
    + rewrite lookup_alter_eq, lookup_insert_eq, IH, Hk. done.
    + by rewrite lookup_alter_ne, lookup_insert_ne, IH.
Qed.

(** A map loop that rewrites the entry it visits and no other: what a
    projection [proj] of its state holds afterwards. *)
Lemma lookup_map_fold_pointwise {K} `{Countable K} {V W A} (proj : A -> gmap K W)
  (step : K -> V -> A -> A) (f : K -> V -> option W) (a0 : A) (m : gmap K V) :
  (forall k v a j, m !! k = Some v -> proj a !! k = proj a0 !! k ->
     proj (step k v a) !! j = if decide (j = k) then f k v else proj a !! j) ->
  forall j, proj (map_fold step a0 m) !! j
            = match m !! j with Some v => f j v | None => proj a0 !! j end.
Proof.
  induction m as [|k v m Hk Hfst IH] using map_first_key_ind; intros Hstep j.
  - by rewrite map_fold_empty, lookup_empty.
  - rewrite map_fold_insert_first_key by done.
    assert (forall j, proj (map_fold step a0 m) !! j
                      = match m !! j with Some v => f j v | None => proj a0 !! j end) as IH'.
    { apply IH. intros k' v' a j' Hk' Ha. apply Hstep; [|done].
      rewrite lookup_insert_ne; [done|]. intros ->. congruence. }
    rewrite (Hstep k v); [|apply lookup_insert_eq|by rewrite IH', Hk].
    case_decide as Hj; [subst; by rewrite lookup_insert_eq|]. by rewrite lookup_insert_ne, IH'.
Qed.

(** The loop that deletes the entries a test selects from the map it runs over. *)
Lemma lookup_map_fold_purge {K} `{Countable K} {V} (P : K -> V -> bool) (step : K -> V -> gmap K V -> gmap K V)
  (m : gmap K V) j :
  (forall k v acc, step k v acc = if P k v then delete k acc else acc) ->
  map_fold step m m !! j = match m !! j with Some v => if P j v then None else Some v | None => None end.
Proof.
  intros Hstep.
  rewrite (lookup_map_fold_pointwise id step (fun k v => if P k v then None else Some v) m m).
  - unfold id; by destruct (m !! j).
  - intros k v acc i Hk Hacc. cbn in *. rewrite Hstep. case_decide as Hi; [subst i|].
    + destruct (P k v); [by rewrite lookup_delete_eq|by rewrite Hacc].
    + destruct (P k v); [by rewrite lookup_delete_ne|done].
Qed.

(** A counter in a map loop adds up. *)
Lemma map_fold_sum {K} `{Countable K} {V A} (proj : A -> Z) (step : K -> V -> A -> A)
  (g : K -> V -> Z) (a0 : A) (m : gmap K V) :
  (forall k v a, proj (step k v a) = proj a + g k v) ->
  proj (map_fold step a0 m) = proj a0 + map_fold (fun k v n => n + g k v) 0 m.
Proof.
  intros Hstep. induction m as [|k v m Hk Hfst IH] using map_first_key_ind.
  - rewrite !map_fold_empty. lia.
  - rewrite !map_fold_insert_first_key by done. rewrite Hstep, IH. lia.
Qed.

(** Invariant rule for a loop over a map that may rewrite the entry it visits
    ([proj] is that map in the loop's state): each entry is met as it was. *)
Lemma map_fold_visit {K} `{Countable K} {V A} (proj : A -> gmap K V) (Q : A -> Prop)
  (step : K -> V -> A -> A) (a0 : A) :
  Q a0 ->
  (forall k v a, proj a0 !! k = Some v -> proj a !! k = Some v -> Q a ->
     Q (step k v a) /\ forall j, j <> k -> proj (step k v a) !! j = proj a !! j) ->
  Q (map_fold step a0 (proj a0)).
Proof.
  intros H0 Hstep.
  enough (forall m, m ⊆ proj a0 -> Q (map_fold step a0 m)
    /\ forall j, m !! j = None -> proj (map_fold step a0 m) !! j = proj a0 !! j) as Hm
    by (by apply Hm).
  intros m. induction m as [|k v m Hk Hfst IH] using map_first_key_ind; intros Hsub.
  - rewrite map_fold_empty. done.
  - rewrite map_fold_insert_first_key by done.
    assert (m ⊆ proj a0) as Hsub' by (etrans; [by apply insert_subseteq|done]).
    destruct (IH Hsub') as [HQ Hrest].
    assert (proj a0 !! k = Some v) as Hv.
    { apply (lookup_weaken (<[k := v]> m)); [apply lookup_insert_eq|done]. }
    destruct (Hstep k v (map_fold step a0 m)) as [HQ' Hj]; [done|by rewrite Hrest|done|].
    split; [done|]. intros j [Hjm Hne]%lookup_insert_None. rewrite Hj by done. by apply Hrest.
Qed.

(** Sum of a measure over the values of a map. *)
Definition map_sum {K} `{Countable K} {V} (g : V -> Z) (m : gmap K V) : Z :=
  map_fold (fun _ v n => n + g v) 0 m.

Section map_sum.
Context {K} `{Countable K} {V : Type} (g : V -> Z).
Implicit Types m : gmap K V.

Lemma map_sum_insert m k v : m !! k = None -> map_sum g (<[k := v]> m) = map_sum g m + g v.
Proof. intros Hk. unfold map_sum. rewrite map_fold_insert_L by (done || (intros; lia)). done. Qed.

Lemma map_sum_delete m k v : m !! k = Some v -> map_sum g (delete k m) = map_sum g m - g v.
Proof.
  intros Hk. rewrite <-(insert_delete_id m k v) at 2 by done.
  rewrite map_sum_insert by apply lookup_delete_eq. lia.
Qed.

Lemma map_sum_replace m k v w :
  m !! k = Some v -> map_sum g (<[k := w]> m) = map_sum g m - g v + g w.
Proof.
  intros Hk. rewrite <-insert_delete_eq, map_sum_insert by apply lookup_delete_eq.
  by rewrite (map_sum_delete _ _ v).
Qed.
End map_sum.

Lemma lookup_filter_if {K} `{Countable K} {V} (P : K * V -> Prop) `{!forall kv, Decision (P kv)}
  (m : gmap K V) i :
  filter P m !! i = match m !! i with
                    | Some x => if decide (P (i, x)) then Some x else None
                    | None => None
                    end.
Proof.
  destruct (m !! i) as [x|] eqn:E; [case_decide|]; [..|by apply map_lookup_filter_None_2; left].
  - by apply map_lookup_filter_Some_2.
  - apply map_lookup_filter_None_2. right. intros y Hy. by simplify_eq.
Qed.
