(* ===== verification/Queue.v ===== *)
(** * The lock-free ring buffer of [src/pkg/queue/lockfree.go], run by one goroutine

    [LockFreeQueue] with [NewLockFreeQueue], [Enqueue], [Dequeue],
    [tryForceEnqueueDropOldest], [Size], [IsEmpty], [IsFull] and [Stats],
    executed without interference (file [QueueConc] interleaves the atomic
    steps of several goroutines).  The sequence counters are 64-bit and wrap. *)
From stdpp Require Import base gmap strings list numbers.
From Stdlib Require Import ZArith Lia.
From S2P Require Import Prelude.

Module Queue.

Inductive DropPolicy := DropOldest | DropNewest | Block.

#[export] Instance DropPolicy_eq_dec : EqDecision DropPolicy.
Proof. solve_decision. Defined.

(** [nextPowerOf2]: bit smearing on a [uint64]. *)
Definition nextPowerOf2 (n : Z) : Z :=
  if n =? 0 then 1 else
  let n := n - 1 in
  let n := Z.lor n (Z.shiftr n 1) in
  let n := Z.lor n (Z.shiftr n 2) in
  let n := Z.lor n (Z.shiftr n 4) in
  let n := Z.lor n (Z.shiftr n 8) in
  let n := Z.lor n (Z.shiftr n 16) in
  let n := Z.lor n (Z.shiftr n 32) in
  u64 (n + 1).

(** The power of two the constructor rounds the requested capacity to. *)
Definition round_capacity (capacity : Z) : Z :=
  if Z.land capacity (s64 (capacity - 1)) =? 0 then capacity
  else s64 (nextPowerOf2 (u64 capacity)).

Definition maxRetries : Z := 1000.

Section lockfree.
Context {A : Type}.

(** A slot: its sequence number and an [unsafe.Pointer] to a message. *)
Record queueNode := mkNode { sequence : Z; data : option A }.

Record LockFreeQueue := mkQueue {
  mask : Z;
  buffer : list queueNode;
  enqueuePos : Z;
  dequeuePos : Z;
  enqueueCount : Z;
  dequeueCount : Z;
  dropCount : Z;
  name : string;
  capacity : Z;
  dropPolicy : DropPolicy
}.

Definition with_buffer (q : LockFreeQueue) (b : list queueNode) : LockFreeQueue :=
  mkQueue (mask q) b (enqueuePos q) (dequeuePos q) (enqueueCount q)
          (dequeueCount q) (dropCount q) (name q) (capacity q) (dropPolicy q).

Definition with_pos (q : LockFreeQueue) (enq deq : Z) : LockFreeQueue :=
  mkQueue (mask q) (buffer q) enq deq (enqueueCount q)
          (dequeueCount q) (dropCount q) (name q) (capacity q) (dropPolicy q).

Definition with_counts (q : LockFreeQueue) (enq deq drop : Z) : LockFreeQueue :=
  mkQueue (mask q) (buffer q) (enqueuePos q) (dequeuePos q) enq deq drop
          (name q) (capacity q) (dropPolicy q).

(** [NewLockFreeQueue]; [make] panics on a negative length. *)
Definition NewLockFreeQueue (nm : string) (cap : Z) (policy : DropPolicy) : exec LockFreeQueue :=
  let cap := round_capacity cap in
  if cap <? 0 then Panic else
  Ret (mkQueue (u64 (cap - 1))
         ((fun i => mkNode (Z.of_nat i) None) <$> seq 0 (Z.to_nat cap))
         0 0 0 0 0 nm cap policy).

(** [&q.buffer[pos&q.mask]] *)
Definition slot (q : LockFreeQueue) (pos : Z) : nat := Z.to_nat (Z.land pos (mask q)).

Definition cas_enqueuePos (q : LockFreeQueue) (old new : Z) : LockFreeQueue * bool :=
  if enqueuePos q =? old then (with_pos q new (dequeuePos q), true) else (q, false).

Definition cas_dequeuePos (q : LockFreeQueue) (old new : Z) : LockFreeQueue * bool :=
  if dequeuePos q =? old then (with_pos q (enqueuePos q) new, true) else (q, false).

Definition addEnqueue (q : LockFreeQueue) : LockFreeQueue :=
  with_counts q (u64 (enqueueCount q + 1)) (dequeueCount q) (dropCount q).
Definition addDequeue (q : LockFreeQueue) : LockFreeQueue :=
  with_counts q (enqueueCount q) (u64 (dequeueCount q + 1)) (dropCount q).
Definition addDrop (q : LockFreeQueue) : LockFreeQueue :=
  with_counts q (enqueueCount q) (dequeueCount q) (u64 (dropCount q + 1)).

(** How a retry loop ends: [LExit pos retryCount] falls out of the loop (by
    [break] or by its condition), [LReturn] is an early [return]. *)
Inductive loop_exit :=
| LExit (pos retryCount : Z)
| LReturn.

Fixpoint enqueue_loop (fuel : nat) (pos retryCount : Z) (q : LockFreeQueue)
  : exec (LockFreeQueue * loop_exit) :=
  match fuel with
  | O => OutOfFuel
  | S fuel =>
    if retryCount <? maxRetries then
      let pos := enqueuePos q in
      match buffer q !! slot q pos with
      | None => Panic
      | Some node =>
        let dif := s64 (s64 (sequence node) - s64 pos) in
        if dif =? 0 then
          let '(q, ok) := cas_enqueuePos q pos (u64 (pos + 1)) in
          if ok then Ret (q, LExit pos retryCount)
          else enqueue_loop fuel pos retryCount q
        else if dif <? 0 then
          match dropPolicy q with
          | DropNewest => Ret (addDrop q, LReturn)
          | DropOldest =>
            let '(q, _) := cas_dequeuePos q (dequeuePos q)
                             (u64 (pos - u64 (capacity q) + 1)) in
            enqueue_loop fuel pos (retryCount + 1) q
          | Block => enqueue_loop fuel pos (retryCount + 1) q
          end
        else enqueue_loop fuel pos (retryCount + 1) q
      end
    else Ret (q, LExit pos retryCount)
  end.

(** Every iteration of an uninterrupted loop leaves it or increments
    [retryCount], so [maxRetries + 1] tests of the condition are enough. *)
Definition loop_fuel : nat := 1001.

Definition Enqueue (item : option A) (q : LockFreeQueue) : exec (LockFreeQueue * bool) :=
  do! (q, ex) := enqueue_loop loop_fuel 0 0 q in
  match ex with
  | LReturn => Ret (q, false)
  | LExit pos retryCount =>
    if retryCount >=? maxRetries then Ret (addDrop q, false)
    else
      let i := slot q pos in
      match buffer q !! i with
      | None => Panic
      | Some node =>
        let q := with_buffer q (<[i := mkNode (sequence node) item]> (buffer q)) in
        let q := with_buffer q (<[i := mkNode (u64 (pos + 1)) item]> (buffer q)) in
        Ret (addEnqueue q, true)
      end
  end.

Fixpoint dequeue_loop (fuel : nat) (pos retryCount : Z) (q : LockFreeQueue)
  : exec (LockFreeQueue * loop_exit) :=
  match fuel with
  | O => OutOfFuel
  | S fuel =>
    if retryCount <? maxRetries then
      let pos := dequeuePos q in
      match buffer q !! slot q pos with
      | None => Panic
      | Some node =>
        let dif := s64 (s64 (sequence node) - s64 (u64 (pos + 1))) in
        if dif =? 0 then
          let '(q, ok) := cas_dequeuePos q pos (u64 (pos + 1)) in
          if ok then Ret (q, LExit pos retryCount)
          else dequeue_loop fuel pos retryCount q
        else if dif <? 0 then Ret (q, LReturn)
        else dequeue_loop fuel pos (retryCount + 1) q
      end
    else Ret (q, LExit pos retryCount)
  end.

(** [Dequeue] returns the pointer and whether there was one. *)
Definition Dequeue (q : LockFreeQueue) : exec (LockFreeQueue * (option A * bool)) :=
  do! (q, ex) := dequeue_loop loop_fuel 0 0 q in
  match ex with
  | LReturn => Ret (q, (None, false))
  | LExit pos retryCount =>
    if retryCount >=? maxRetries then Ret (q, (None, false))
    else
      let i := slot q pos in
      match buffer q !! i with
      | None => Panic
      | Some node =>
        let q := with_buffer q (<[i := mkNode (sequence node) None]> (buffer q)) in
        let q := with_buffer q (<[i := mkNode (u64 (u64 (pos + mask q) + 1)) None]> (buffer q)) in
        Ret (addDequeue q, (data node, true))
      end
  end.

Definition TryDequeue (q : LockFreeQueue) : exec (LockFreeQueue * (option A * bool)) := Dequeue q.

Definition Size (q : LockFreeQueue) : Z := s64 (u64 (enqueuePos q - dequeuePos q)).
Definition IsEmpty (q : LockFreeQueue) : bool := Size q <=? 0.
Definition IsFull (q : LockFreeQueue) : bool := Size q >=? capacity q.

Record QueueStats := mkStats {
  st_Name : string;
  st_Capacity : Z;
  st_Size : Z;
  st_EnqueueCount : Z;
  st_DequeueCount : Z;
  st_DropCount : Z
}.

Definition Stats (q : LockFreeQueue) : QueueStats :=
  mkStats (name q) (capacity q) (Size q) (enqueueCount q) (dequeueCount q) (dropCount q).

Definition tryForceEnqueueDropOldest (item : option A) (q : LockFreeQueue)
  : exec (LockFreeQueue * bool) :=
  if decide (dropPolicy q = DropOldest) then
    do! (q, _) := Dequeue q in
    Enqueue item q
  else Ret (q, false).

End lockfree.

#[global] Arguments Enqueue : simpl never.
#[global] Arguments Dequeue : simpl never.
#[global] Arguments loop_fuel : simpl never.
Arguments queueNode : clear implicits.
Arguments LockFreeQueue : clear implicits.

(** A smoke test: a queue of requested capacity 3 has 4 slots and is FIFO. *)
Example enqueue_dequeue_smoke :
  (do! q := NewLockFreeQueue (A:=nat) "t" 3 DropNewest in
   do! (q, _) := Enqueue (Some 7%nat) q in
   do! (q, _) := Enqueue (Some 8%nat) q in
   do! (q, r) := Dequeue q in
   Ret (capacity q, r, Size q)) = Ret (4, (Some 7%nat, true), 1).
Proof. vm_compute. reflexivity. Qed.

End Queue.
