(* ===== verification/QueueRep.v ===== *)
(** * Representation of the ring buffer as a bounded FIFO

    The ghost view of a [Queue.LockFreeQueue]: an unbounded ticket [d] of the
    next dequeue and the list of pending items; the invariant [queue_rep] ties
    them to the wrapping counters and to every slot of the buffer. *)
From stdpp Require Import base gmap strings list numbers.
From Stdlib Require Import ZArith Lia.
From S2P Require Import Prelude Queue.

Module QueueRep.
Import Queue.

(** ** Capacity rounding *)

(** [r] has bit [i] exactly when [n] has one of the bits [i .. i+m-1]. *)
Definition smeared (m n r : Z) : Prop :=
  forall i, 0 <= i -> Z.testbit r i = true <-> exists j, i <= j < i + m /\ Z.testbit n j = true.

Lemma smeared_1 n : smeared 1 n n.
Proof.
  intros i Hi. split.
  - intros. exists i. split; [lia|done].
  - intros (j & Hj & Hb). by replace i with j by lia.
Qed.

Lemma smeared_double m n r :
  0 < m -> smeared m n r -> smeared (2 * m) n (Z.lor r (Z.shiftr r m)).
Proof.
  intros Hm H i Hi.
  rewrite Z.lor_spec, Z.shiftr_spec, orb_true_iff, (H i), (H (i + m)) by lia.
  split.
  - intros [(j & Hj & Hb)|(j & Hj & Hb)]; exists j; (split; [lia|done]).
  - intros (j & Hj & Hb). destruct (Z_lt_dec j (i + m)).
    + left. exists j. split; [lia|done].
    + right. exists j. split; [lia|done].
Qed.

Lemma smeared_full n r :
  0 < n < 2 ^ 64 -> 0 <= r -> smeared 64 n r -> r = 2 ^ (Z.log2 n + 1) - 1.
Proof.
  intros Hn Hr H.
  assert (Z.log2 n < 64) by (apply Z.log2_lt_pow2; lia).
  pose proof (Z.log2_nonneg n).
  replace (2 ^ (Z.log2 n + 1) - 1) with (Z.ones (Z.log2 n + 1))
    by (rewrite Z.ones_equiv; lia).
  apply Z.bits_inj'. intros i Hi.
  destruct (Z_lt_dec i (Z.log2 n + 1)).
  - rewrite Z.ones_spec_low by lia. apply H; [lia|].
    exists (Z.log2 n). split; [lia|]. apply Z.bit_log2. lia.
  - rewrite Z.ones_spec_high by lia.
    apply not_true_is_false. intros Hb. apply H in Hb as (j & Hj & Hb); [|lia].
    rewrite Z.bits_above_log2 in Hb; [done|lia|lia].
Qed.

Lemma lor_shiftr_nonneg n k : 0 <= n -> 0 <= Z.lor n (Z.shiftr n k).
Proof. intros. apply Z.lor_nonneg. split; [done|]. by apply Z.shiftr_nonneg. Qed.

Lemma nextPowerOf2_log2_up n : 1 <= n <= 2 ^ 63 -> nextPowerOf2 n = 2 ^ Z.log2_up n.
Proof.
  intros Hn. unfold nextPowerOf2.
  destruct (Z.eqb_spec n 0); [lia|].
  destruct (Z.eq_dec n 1) as [->|]; [done|].
  pose proof (smeared_1 (n - 1)) as H.
  do 6 (apply smeared_double in H; [|lia];
        match type of H with smeared ?m _ _ => let m' := eval compute in m in change m with m' in H end).
  apply smeared_full in H; [|lia|repeat apply lor_shiftr_nonneg; lia].
  cbv zeta. rewrite H.
  rewrite Z.log2_up_eqn, <-Z.sub_1_r by lia.
  assert (Z.log2 (n - 1) < 63) by (apply Z.log2_lt_pow2; lia).
  pose proof (Z.log2_nonneg (n - 1)).
  assert (2 ^ (Z.log2 (n - 1) + 1) <= 2 ^ 63) by (apply Z.pow_le_mono_r; lia).
  rewrite <-Z.add_1_r, wrapu_small; lia.
Qed.

(** [c & (c-1) == 0] singles out the powers of two. *)
Lemma land_pred_pow2 c : 1 <= c -> Z.land c (c - 1) = 0 -> c = 2 ^ Z.log2 c.
Proof.
  intros Hc H. pose proof (Z.log2_spec c). pose proof (Z.log2_nonneg c).
  destruct (Z.eq_dec c (2 ^ Z.log2 c)) as [|Hne]; [done|exfalso].
  assert (Z.log2 (c - 1) = Z.log2 c) as E by (apply Z.log2_unique; lia).
  assert (Z.testbit (Z.land c (c - 1)) (Z.log2 c) = true) as Hb.
  { rewrite Z.land_spec, Z.bit_log2 by lia.
    rewrite <-E at 1. rewrite E, <-E. rewrite Z.bit_log2 by lia. done. }
  rewrite H, Z.testbit_0_l in Hb. done.
Qed.

Lemma round_capacity_pow2 c : 1 <= c <= 2 ^ 62 -> round_capacity c = 2 ^ Z.log2_up c.
Proof.
  intros Hc. unfold round_capacity.
  rewrite (wraps_small 64) by lia.
  destruct (Z.eqb_spec (Z.land c (c - 1)) 0) as [H|H].
  - apply land_pred_pow2 in H; [|lia].
    rewrite H at 2. rewrite Z.log2_up_pow2; [done|apply Z.log2_nonneg].
  - rewrite (wrapu_small 64), nextPowerOf2_log2_up by lia.
    apply wraps_small; [lia|].
    assert (Z.log2_up c <= 62) by (apply Z.log2_up_le_pow2; lia).
    pose proof (Z.log2_up_nonneg c).
    assert (2 ^ Z.log2_up c <= 2 ^ 62) by (apply Z.pow_le_mono_r; lia). lia.
Qed.

(** ** The representation invariant *)

Section rep.
Context {A : Type}.
Implicit Types q : LockFreeQueue A.
Implicit Types xs : list (option A).

(** What the slot of ticket [p] holds when the pending tickets are
    [d .. d + length xs - 1]. *)
Definition expected (d : Z) xs (p : Z) : queueNode A :=
  match xs !! Z.to_nat (p - d) with
  | Some x => mkNode (u64 (p + 1)) x
  | None => mkNode (u64 p) None
  end.

Record queue_rep q (d : Z) xs : Prop := {
  rep_cap : exists k, 1 <= k <= 62 /\ capacity q = 2 ^ k;
  rep_mask : mask q = capacity q - 1;
  rep_len : length (buffer q) = Z.to_nat (capacity q);
  rep_room : Z.of_nat (length xs) <= capacity q;
  rep_pos : 0 <= d;
  rep_deq : dequeuePos q = u64 d;
  rep_enq : enqueuePos q = u64 (d + Z.of_nat (length xs));
  rep_slots : forall p, d <= p < d + capacity q ->
    buffer q !! Z.to_nat (p mod capacity q) = Some (expected d xs p)
}.

Lemma rep_cap_bounds q d xs : queue_rep q d xs -> 2 <= capacity q <= 2 ^ 62.
Proof.
  intros H. destruct (rep_cap _ _ _ H) as (k & Hk & ->).
  split.
  - change 2 with (2 ^ 1) at 1. apply Z.pow_le_mono_r; lia.
  - apply Z.pow_le_mono_r; lia.
Qed.

(** Masking the wrapped counter finds the slot of the ticket. *)
Lemma slot_mod q k p :
  0 <= k <= 64 -> capacity q = 2 ^ k -> mask q = capacity q - 1 ->
  slot q (u64 p) = Z.to_nat (p mod capacity q).
Proof.
  intros Hk Hc Hm. unfold slot. rewrite Hm, Hc. f_equal.
  replace (2 ^ k - 1) with (Z.ones k) by (rewrite Z.ones_equiv; lia).
  rewrite Z.land_ones by lia. unfold wrapu.
  apply Z.mod_mod_divide.
  exists (2 ^ (64 - k)). rewrite <-Z.pow_add_r by lia. f_equal. lia.
Qed.

Lemma rep_slot q d xs p :
  queue_rep q d xs -> slot q (u64 p) = Z.to_nat (p mod capacity q).
Proof.
  intros H. destruct (rep_cap _ _ _ H) as (k & Hk & E).
  eapply slot_mod; [|exact E|by apply (rep_mask _ _ _ H)]. lia.
Qed.

(** Tickets of one lap of the ring use different slots. *)
Lemma lap_slot_inj c p p' :
  0 < c -> - c < p - p' < c -> Z.to_nat (p mod c) = Z.to_nat (p' mod c) -> p = p'.
Proof.
  intros Hc Hr E.
  pose proof (Z.mod_pos_bound p c). pose proof (Z.mod_pos_bound p' c).
  apply Z2Nat.inj in E; [|lia..].
  assert ((p - p') mod c = 0) as E0.
  { rewrite Zminus_mod, E, <-Zminus_mod, Z.sub_diag. apply Z.mod_0_l. lia. }
  apply Z.mod_divide in E0; [|lia]. destruct E0 as [j Hj].
  assert (j = 0) by nia. lia.
Qed.

Lemma lap_slot_lt {B} c (buf : list B) p :
  0 < c -> length buf = Z.to_nat c -> (Z.to_nat (p mod c) < length buf)%nat.
Proof. intros Hc ->. pose proof (Z.mod_pos_bound p c). lia. Qed.

(** Writing the slot of one ticket leaves the other tickets of the lap alone. *)
Lemma lookup_lap_insert {B} c (buf : list B) p p' n :
  0 < c -> length buf = Z.to_nat c -> - c < p - p' < c ->
  <[Z.to_nat (p mod c) := n]> buf !! Z.to_nat (p' mod c)
  = if decide (p = p') then Some n else buf !! Z.to_nat (p' mod c).
Proof.
  intros Hc Hl Hr. case_decide as Hd.
  - subst. apply list_lookup_insert_eq. by apply lap_slot_lt.
  - apply list_lookup_insert_ne. intros E. apply Hd.
    eapply lap_slot_inj; [|exact Hr|exact E]. lia.
Qed.

Lemma lap_mod c p : 0 < c -> (p + c) mod c = p mod c.
Proof. intros. rewrite <-(Z.mul_1_l c) at 1. by rewrite Z.mod_add by lia. Qed.

Lemma NewLockFreeQueue_rep nm c policy q :
  2 <= c <= 2 ^ 62 -> NewLockFreeQueue nm c policy = Ret q -> queue_rep q 0 [].
Proof.
  intros Hc. unfold NewLockFreeQueue. rewrite round_capacity_pow2 by lia.
  assert (1 <= Z.log2_up c <= 62) as Hk.
  { split.
    - replace 1 with (Z.log2_up 2) by done. apply Z.log2_up_le_mono. lia.
    - apply Z.log2_up_le_pow2; lia. }
  set (k := Z.log2_up c) in *.
  assert (2 ^ k <= 2 ^ 62) by (apply Z.pow_le_mono_r; lia).
  destruct (Z.ltb_spec (2 ^ k) 0); [lia|]. intros [= <-].
  split; simpl; [by exists k|apply wrapu_small; lia| |lia|lia|done|done|].
  - by rewrite length_fmap, length_seq.
  - intros p Hp. rewrite Z.mod_small by lia.
    rewrite list_lookup_fmap, lookup_seq_lt by lia. simpl.
    unfold expected. rewrite lookup_nil, wrapu_small by lia.
    by rewrite Z2Nat.id by lia.
Qed.

Lemma NewLockFreeQueue_total nm c policy :
  1 <= c <= 2 ^ 62 -> exists q, NewLockFreeQueue (A:=A) nm c policy = Ret q
    /\ capacity q = 2 ^ Z.log2_up c /\ dropPolicy q = policy /\ name q = nm
    /\ dropCount q = 0.
Proof.
  intros Hc. unfold NewLockFreeQueue. rewrite round_capacity_pow2 by lia.
  pose proof (Z.log2_up_nonneg c).
  destruct (Z.ltb_spec (2 ^ Z.log2_up c) 0); [lia|]. eauto 10.
Qed.

End rep.
End QueueRep.
