(* ===== verification/QueueSpec.v ===== *)
(** * What the ring buffer promises

    [Enqueue] and [Dequeue] against the representation of [QueueRep]; the
    abstract bounded FIFO and the refinement of every run of operations; the
    behaviour of the [DropOldest] policy once the buffer has overflowed. *)
From stdpp Require Import base gmap strings list numbers.
From Stdlib Require Import ZArith Lia.
From S2P Require Import Prelude Queue QueueRep.

Module QueueSpec.
Import Queue QueueRep.

Section ops.
Context {A : Type}.
Implicit Types q : LockFreeQueue A.
Implicit Types xs : list (option A).

(** The configuration an operation never changes. *)
Definition same_config q q' : Prop :=
  capacity q' = capacity q /\ mask q' = mask q /\ name q' = name q
  /\ dropPolicy q' = dropPolicy q.

Lemma same_config_refl q : same_config q q.
Proof. done. Qed.

Lemma same_config_trans q1 q2 q3 :
  same_config q1 q2 -> same_config q2 q3 -> same_config q1 q3.
Proof. intros (?&?&?&?) (?&?&?&?). repeat split; congruence. Qed.

(** The differences the two loops compute from a slot's sequence number. *)
Definition enq_dif (node : queueNode A) (pos : Z) : Z :=
  s64 (s64 (sequence node) - s64 pos).
Definition deq_dif (node : queueNode A) (pos : Z) : Z :=
  s64 (s64 (sequence node) - s64 (u64 (pos + 1))).

Lemma enq_dif_eq s x p :
  - 2 ^ 63 <= s - p < 2 ^ 63 -> enq_dif (mkNode (u64 s) x) (u64 p) = s - p.
Proof. intros. unfold enq_dif; simpl. by rewrite signed_diff. Qed.

Lemma deq_dif_eq s x p :
  - 2 ^ 63 <= s - (p + 1) < 2 ^ 63 ->
  deq_dif (mkNode (u64 s) x) (u64 p) = s - (p + 1).
Proof.
  intros. unfold deq_dif; simpl. by rewrite wrapu_add_l, signed_diff.
Qed.

Lemma retries_pos : 0 < maxRetries.
Proof. reflexivity. Qed.

Lemma fuel_enough : (Z.to_nat (maxRetries - 0) < loop_fuel)%nat.
Proof. apply Nat.ltb_lt. vm_compute. reflexivity. Qed.

(** ** One iteration of each loop *)

Lemma enqueue_loop_free fuel pos0 r q node :
  r < maxRetries -> buffer q !! slot q (enqueuePos q) = Some node ->
  enq_dif node (enqueuePos q) = 0 ->
  enqueue_loop (S fuel) pos0 r q
  = Ret (with_pos q (u64 (enqueuePos q + 1)) (dequeuePos q), LExit (enqueuePos q) r).
Proof.
  intros Hr Hn Hd. cbn [enqueue_loop].
  destruct (Z.ltb_spec r maxRetries); [|lia].
  rewrite Hn. fold (enq_dif node (enqueuePos q)). rewrite Hd. simpl.
  unfold cas_enqueuePos. by rewrite Z.eqb_refl.
Qed.

Lemma enqueue_loop_newest fuel pos0 r q node :
  r < maxRetries -> buffer q !! slot q (enqueuePos q) = Some node ->
  enq_dif node (enqueuePos q) < 0 -> dropPolicy q = DropNewest ->
  enqueue_loop (S fuel) pos0 r q = Ret (addDrop q, LReturn).
Proof.
  intros Hr Hn Hd Hp. cbn [enqueue_loop].
  destruct (Z.ltb_spec r maxRetries); [|lia].
  rewrite Hn. fold (enq_dif node (enqueuePos q)).
  destruct (Z.eqb_spec (enq_dif node (enqueuePos q)) 0); [lia|].
  destruct (Z.ltb_spec (enq_dif node (enqueuePos q)) 0); [|lia].
  by rewrite Hp.
Qed.

Lemma enqueue_loop_block fuel q node :
  buffer q !! slot q (enqueuePos q) = Some node ->
  enq_dif node (enqueuePos q) < 0 -> dropPolicy q = Block ->
  forall pos0 r, r <= maxRetries -> (Z.to_nat (maxRetries - r) < fuel)%nat ->
  exists pos, enqueue_loop fuel pos0 r q = Ret (q, LExit pos maxRetries).
Proof.
  intros Hn Hd Hp. induction fuel as [|fuel IH]; intros pos0 r Hr Hf; [lia|].
  cbn [enqueue_loop]. destruct (Z.ltb_spec r maxRetries).
  - rewrite Hn. fold (enq_dif node (enqueuePos q)).
    destruct (Z.eqb_spec (enq_dif node (enqueuePos q)) 0); [lia|].
    destruct (Z.ltb_spec (enq_dif node (enqueuePos q)) 0); [|lia].
    rewrite Hp. apply IH; lia.
  - exists pos0. by replace r with maxRetries by lia.
Qed.

(** A full [DropOldest] loop only moves [dequeuePos], to the same place on
    every iteration: the occupied slot never becomes free. *)
Lemma enqueue_loop_oldest fuel node :
  forall q pos0 r, r < maxRetries -> (Z.to_nat (maxRetries - r) < fuel)%nat ->
  buffer q !! slot q (enqueuePos q) = Some node ->
  enq_dif node (enqueuePos q) < 0 -> dropPolicy q = DropOldest ->
  exists pos, enqueue_loop fuel pos0 r q
    = Ret (with_pos q (enqueuePos q) (u64 (enqueuePos q - u64 (capacity q) + 1)),
           LExit pos maxRetries).
Proof.
  induction fuel as [|fuel IH]; intros q pos0 r Hr Hf Hn Hd Hp; [lia|].
  cbn [enqueue_loop]. destruct (Z.ltb_spec r maxRetries); [|lia].
  rewrite Hn. fold (enq_dif node (enqueuePos q)).
  destruct (Z.eqb_spec (enq_dif node (enqueuePos q)) 0); [lia|].
  destruct (Z.ltb_spec (enq_dif node (enqueuePos q)) 0); [|lia].
  rewrite Hp. unfold cas_dequeuePos. rewrite Z.eqb_refl.
  set (q1 := with_pos q (enqueuePos q) (u64 (enqueuePos q - u64 (capacity q) + 1))).
  destruct (Z.eq_dec (r + 1) maxRetries) as [E|].
  - destruct fuel; [lia|]. cbn [enqueue_loop].
    destruct (Z.ltb_spec (r + 1) maxRetries); [lia|]. rewrite E. eauto.
  - apply (IH q1); try done; lia.
Qed.

Lemma dequeue_loop_item fuel pos0 r q node :
  r < maxRetries -> buffer q !! slot q (dequeuePos q) = Some node ->
  deq_dif node (dequeuePos q) = 0 ->
  dequeue_loop (S fuel) pos0 r q
  = Ret (with_pos q (enqueuePos q) (u64 (dequeuePos q + 1)), LExit (dequeuePos q) r).
Proof.
  intros Hr Hn Hd. cbn [dequeue_loop].
  destruct (Z.ltb_spec r maxRetries); [|lia].
  rewrite Hn. fold (deq_dif node (dequeuePos q)). rewrite Hd. simpl.
  unfold cas_dequeuePos. by rewrite Z.eqb_refl.
Qed.

Lemma dequeue_loop_empty fuel pos0 r q node :
  r < maxRetries -> buffer q !! slot q (dequeuePos q) = Some node ->
  deq_dif node (dequeuePos q) < 0 ->
  dequeue_loop (S fuel) pos0 r q = Ret (q, LReturn).
Proof.
  intros Hr Hn Hd. cbn [dequeue_loop].
  destruct (Z.ltb_spec r maxRetries); [|lia].
  rewrite Hn. fold (deq_dif node (dequeuePos q)).
  destruct (Z.eqb_spec (deq_dif node (dequeuePos q)) 0); [lia|].
  destruct (Z.ltb_spec (deq_dif node (dequeuePos q)) 0); [done|lia].
Qed.

Lemma dequeue_loop_busy fuel q node :
  buffer q !! slot q (dequeuePos q) = Some node ->
  deq_dif node (dequeuePos q) > 0 ->
  forall pos0 r, r <= maxRetries -> (Z.to_nat (maxRetries - r) < fuel)%nat ->
  exists pos, dequeue_loop fuel pos0 r q = Ret (q, LExit pos maxRetries).
Proof.
  intros Hn Hd. induction fuel as [|fuel IH]; intros pos0 r Hr Hf; [lia|].
  cbn [dequeue_loop]. destruct (Z.ltb_spec r maxRetries).
  - rewrite Hn. fold (deq_dif node (dequeuePos q)).
    destruct (Z.eqb_spec (deq_dif node (dequeuePos q)) 0); [lia|].
    destruct (Z.ltb_spec (deq_dif node (dequeuePos q)) 0); [lia|].
    apply IH; lia.
  - exists pos0. by replace r with maxRetries by lia.
Qed.

(** ** Whole operations, from what the loop sees *)

Lemma Enqueue_free x q node :
  buffer q !! slot q (enqueuePos q) = Some node ->
  enq_dif node (enqueuePos q) = 0 ->
  Enqueue x q = Ret (addEnqueue (with_pos
      (with_buffer q (<[slot q (enqueuePos q) := mkNode (u64 (enqueuePos q + 1)) x]> (buffer q)))
      (u64 (enqueuePos q + 1)) (dequeuePos q)), true).
Proof.
  intros Hn Hd. unfold Enqueue. change loop_fuel with (S 1000).
  rewrite (enqueue_loop_free _ _ _ _ _ retries_pos Hn Hd).
  cbn -[Z.geb]. change (0 >=? maxRetries) with false. cbn.
  unfold slot in *. cbn. rewrite Hn. by rewrite list_insert_insert_eq.
Qed.

Lemma Enqueue_full x q node :
  buffer q !! slot q (enqueuePos q) = Some node ->
  enq_dif node (enqueuePos q) < 0 ->
  Enqueue x q = Ret (addDrop (match dropPolicy q with
    | DropOldest => with_pos q (enqueuePos q) (u64 (enqueuePos q - u64 (capacity q) + 1))
    | _ => q end), false).
Proof.
  intros Hn Hd. unfold Enqueue. destruct (dropPolicy q) eqn:Hp.
  - destruct (enqueue_loop_oldest loop_fuel node q 0 0) as [pos ->]; eauto using retries_pos, fuel_enough, Z.lt_le_incl.
  - change loop_fuel with (S 1000).
    by rewrite (enqueue_loop_newest _ _ _ _ _ retries_pos Hn Hd Hp).
  - destruct (enqueue_loop_block loop_fuel q node Hn Hd Hp 0 0) as [pos ->]; eauto using retries_pos, fuel_enough, Z.lt_le_incl.
Qed.

Lemma Dequeue_item q node :
  buffer q !! slot q (dequeuePos q) = Some node ->
  deq_dif node (dequeuePos q) = 0 ->
  Dequeue q = Ret (addDequeue (with_pos
      (with_buffer q (<[slot q (dequeuePos q) :=
          mkNode (u64 (u64 (dequeuePos q + mask q) + 1)) None]> (buffer q)))
      (enqueuePos q) (u64 (dequeuePos q + 1))), (data node, true)).
Proof.
  intros Hn Hd. unfold Dequeue. change loop_fuel with (S 1000).
  rewrite (dequeue_loop_item _ _ _ _ _ retries_pos Hn Hd).
  cbn -[Z.geb]. change (0 >=? maxRetries) with false. cbn.
  unfold slot in *. cbn. rewrite Hn. by rewrite list_insert_insert_eq.
Qed.

Lemma Dequeue_none q node :
  buffer q !! slot q (dequeuePos q) = Some node ->
  deq_dif node (dequeuePos q) <> 0 ->
  Dequeue q = Ret (q, (None, false)).
Proof.
  intros Hn Hd. unfold Dequeue.
  destruct (Z_lt_dec (deq_dif node (dequeuePos q)) 0).
  - change loop_fuel with (S 1000).
    by rewrite (dequeue_loop_empty _ _ _ _ _ retries_pos Hn ltac:(done)).
  - destruct (dequeue_loop_busy loop_fuel q node Hn ltac:(lia) 0 0) as [pos ->]; eauto using retries_pos, fuel_enough, Z.lt_le_incl.
Qed.

(** ** Against the representation *)

(** The slot the next enqueue looks at. *)
Lemma rep_enqueue_slot q d xs :
  queue_rep q d xs ->
  exists node, buffer q !! slot q (enqueuePos q) = Some node
    /\ (Z.of_nat (length xs) < capacity q -> enq_dif node (enqueuePos q) = 0)
    /\ (Z.of_nat (length xs) = capacity q -> enq_dif node (enqueuePos q) < 0).
Proof.
  intros H. pose proof (rep_cap_bounds _ _ _ H) as Hc.
  pose proof (rep_room _ _ _ H). rewrite (rep_enq _ _ _ H), (rep_slot _ _ _ _ H).
  set (e := d + Z.of_nat (length xs)).
  destruct (Z_lt_dec (Z.of_nat (length xs)) (capacity q)).
  - exists (mkNode (u64 e) None). split_and!; [|intros _; rewrite enq_dif_eq; lia|lia].
    rewrite (rep_slots _ _ _ H) by lia. unfold expected.
    by rewrite lookup_ge_None_2 by lia.
  - destruct xs as [|x xs]; [simpl in *; lia|].
    exists (mkNode (u64 (d + 1)) x). split_and!; [|lia|].
    + replace (e mod capacity q) with (d mod capacity q).
      * rewrite (rep_slots _ _ _ H) by lia. unfold expected.
        by rewrite Z.sub_diag.
      * replace e with (d + capacity q) by lia. by rewrite lap_mod by lia.
    + intros. rewrite enq_dif_eq; lia.
Qed.

Lemma rep_dequeue_slot q d xs :
  queue_rep q d xs ->
  buffer q !! slot q (dequeuePos q) = Some (expected d xs d).
Proof.
  intros H. pose proof (rep_cap_bounds _ _ _ H).
  rewrite (rep_deq _ _ _ H), (rep_slot _ _ _ _ H). apply (rep_slots _ _ _ H). lia.
Qed.

Lemma expected_app d xs x p :
  0 <= p - d -> p <> d + Z.of_nat (length xs) -> expected d (xs ++ [x]) p = expected d xs p.
Proof.
  intros. unfold expected. destruct (Z_lt_dec (p - d) (Z.of_nat (length xs))).
  - by rewrite lookup_app_l by lia.
  - by rewrite !lookup_ge_None_2 by (rewrite ?length_app; simpl; lia).
Qed.

Lemma Enqueue_room x q d xs :
  queue_rep q d xs -> Z.of_nat (length xs) < capacity q ->
  exists q', Enqueue x q = Ret (q', true) /\ queue_rep q' d (xs ++ [x])
    /\ same_config q q' /\ dropCount q' = dropCount q
    /\ enqueueCount q' = u64 (enqueueCount q + 1) /\ dequeueCount q' = dequeueCount q.
Proof.
  intros H Hroom. pose proof (rep_cap_bounds _ _ _ H).
  destruct (rep_enqueue_slot _ _ _ H) as (node & Hn & Hd & _).
  rewrite (Enqueue_free _ _ _ Hn (Hd Hroom)).
  eexists. split; [done|]. split; [|done].
  rewrite (rep_enq _ _ _ H), (rep_slot _ _ _ _ H), wrapu_add_l by lia.
  set (e := d + Z.of_nat (length xs)).
  split; cbn; [apply (rep_cap _ _ _ H)|apply (rep_mask _ _ _ H)| | |
               apply (rep_pos _ _ _ H)|apply (rep_deq _ _ _ H)| |].
  - by rewrite length_insert, (rep_len _ _ _ H).
  - rewrite length_app. simpl. lia.
  - rewrite length_app. simpl. f_equal. lia.
  - intros p Hp. rewrite lookup_lap_insert by (apply (rep_len _ _ _ H) || lia).
    case_decide as Hpe; [subst p|].
    + unfold expected. replace (Z.to_nat (e - d)) with (length xs) by lia.
      by rewrite list_lookup_middle.
    + rewrite expected_app by lia. by apply (rep_slots _ _ _ H).
Qed.

Lemma Enqueue_overflow x q d xs :
  queue_rep q d xs -> Z.of_nat (length xs) = capacity q -> dropPolicy q <> DropOldest ->
  Enqueue x q = Ret (addDrop q, false).
Proof.
  intros H Hfull Hp. destruct (rep_enqueue_slot _ _ _ H) as (node & Hn & _ & Hd).
  rewrite (Enqueue_full _ _ _ Hn (Hd Hfull)). by destruct (dropPolicy q).
Qed.

Lemma addDrop_rep q d xs : queue_rep q d xs -> queue_rep (addDrop q) d xs.
Proof. by intros []; split. Qed.

Lemma Dequeue_cons q d x xs :
  queue_rep q d (x :: xs) ->
  exists q', Dequeue q = Ret (q', (x, true)) /\ queue_rep q' (d + 1) xs
    /\ same_config q q' /\ dropCount q' = dropCount q
    /\ dequeueCount q' = u64 (dequeueCount q + 1) /\ enqueueCount q' = enqueueCount q.
Proof.
  intros H. pose proof (rep_cap_bounds _ _ _ H). pose proof (rep_room _ _ _ H) as Hroom.
  pose proof (rep_dequeue_slot _ _ _ H) as Hn.
  assert (expected d (x :: xs) d = mkNode (u64 (d + 1)) x) as Ex.
  { unfold expected. by rewrite Z.sub_diag. }
  rewrite Ex in Hn. rewrite (Dequeue_item _ _ Hn)
    by (rewrite (rep_deq _ _ _ H), deq_dif_eq; lia).
  eexists. split; [done|]. split; [|done].
  rewrite (rep_deq _ _ _ H), (rep_slot _ _ _ _ H), !wrapu_add_l, (rep_mask _ _ _ H) by lia.
  simpl length in Hroom.
  split; cbn; [apply (rep_cap _ _ _ H)|apply (rep_mask _ _ _ H)| |lia| |done| |].
  - by rewrite length_insert, (rep_len _ _ _ H).
  - pose proof (rep_pos _ _ _ H). lia.
  - rewrite (rep_enq _ _ _ H). simpl. f_equal. lia.
  - intros p Hp. destruct (Z.eq_dec p (d + capacity q)) as [->|].
    + rewrite lap_mod by lia.
      rewrite list_lookup_insert_eq by (apply lap_slot_lt; [lia|apply (rep_len _ _ _ H)]).
      unfold expected. rewrite lookup_ge_None_2 by lia.
      rewrite <-Z.add_assoc, wrapu_add_l by lia.
      by replace (d + (capacity q - 1 + 1)) with (d + capacity q) by lia.
    + rewrite lookup_lap_insert by (apply (rep_len _ _ _ H) || lia). case_decide; [lia|].
      rewrite (rep_slots _ _ _ H) by lia. unfold expected.
      by replace (Z.to_nat (p - d)) with (S (Z.to_nat (p - (d + 1)))) by lia.
Qed.

Lemma Dequeue_nil q d :
  queue_rep q d [] -> Dequeue q = Ret (q, (None, false)).
Proof.
  intros H. pose proof (rep_dequeue_slot _ _ _ H) as Hn.
  eapply Dequeue_none; [exact Hn|].
  unfold expected. rewrite lookup_nil, (rep_deq _ _ _ H), deq_dif_eq; lia.
Qed.

(** [Size], [IsEmpty] and [IsFull] are exact on a quiescent queue. *)
Lemma Size_rep q d xs : queue_rep q d xs -> Size q = Z.of_nat (length xs).
Proof.
  intros H. pose proof (rep_cap_bounds _ _ _ H). pose proof (rep_room _ _ _ H).
  unfold Size. rewrite (rep_enq _ _ _ H), (rep_deq _ _ _ H), wrapu_sub_l by lia.
  assert (u64 (d + Z.of_nat (length xs) - u64 d) = Z.of_nat (length xs)) as ->.
  { unfold wrapu. rewrite Zminus_mod_idemp_r, Z.mod_small by lia. lia. }
  apply wraps_small; lia.
Qed.

(** ** The abstract queue and runs of operations *)

Inductive op := OEnqueue (x : option A) | ODequeue.
Inductive out := REnqueue (ok : bool) | RDequeue (x : option A) (ok : bool).

Definition run_op (o : op) q : exec (LockFreeQueue A * out) :=
  match o with
  | OEnqueue x => do! (q, ok) := Enqueue x q in Ret (q, REnqueue ok)
  | ODequeue => do! (q, (x, ok)) := Dequeue q in Ret (q, RDequeue x ok)
  end.

Fixpoint run_ops (os : list op) q : exec (LockFreeQueue A * list out) :=
  match os with
  | [] => Ret (q, [])
  | o :: os =>
    do! (q, r) := run_op o q in
    do! (q, rs) := run_ops os q in
    Ret (q, r :: rs)
  end.

(** A bounded FIFO that refuses an item when it holds [c] of them. *)
Definition fifo_op (c : Z) (o : op) xs : list (option A) * out :=
  match o with
  | OEnqueue x => if Z.of_nat (length xs) <? c then (xs ++ [x], REnqueue true)
                  else (xs, REnqueue false)
  | ODequeue => match xs with
                | [] => ([], RDequeue None false)
                | x :: xs => (xs, RDequeue x true)
                end
  end.

Fixpoint fifo_ops (c : Z) (os : list op) xs : list (option A) * list out :=
  match os with
  | [] => (xs, [])
  | o :: os => let '(xs, r) := fifo_op c o xs in
               let '(xs, rs) := fifo_ops c os xs in (xs, r :: rs)
  end.

Lemma run_op_overflow x q d xs :
  queue_rep q d xs -> dropPolicy q <> DropOldest -> Z.of_nat (length xs) = capacity q ->
  run_op (OEnqueue x) q = Ret (addDrop q, REnqueue false).
Proof. intros H Hp Hf. cbn [run_op]. by rewrite (Enqueue_overflow x _ _ _ H). Qed.

Lemma run_op_refines o q d xs :
  queue_rep q d xs -> dropPolicy q <> DropOldest ->
  exists q' d', run_op o q = Ret (q', snd (fifo_op (capacity q) o xs))
    /\ queue_rep q' d' (fst (fifo_op (capacity q) o xs)) /\ same_config q q'.
Proof.
  intros H Hp. destruct o as [x|]; simpl.
  - destruct (Z.ltb_spec (Z.of_nat (length xs)) (capacity q)).
    + destruct (Enqueue_room x _ _ _ H) as (q' & -> & H' & Hc & _); eauto.
    + pose proof (rep_room _ _ _ H).
      rewrite (Enqueue_overflow x _ _ _ H) by (done || lia).
      exists (addDrop q), d. split_and!; [done|by apply addDrop_rep|done].
  - destruct xs as [|x xs].
    + rewrite (Dequeue_nil _ _ H). eauto using same_config_refl.
    + destruct (Dequeue_cons _ _ _ _ H) as (q' & -> & H' & Hc & _); eauto.
Qed.

Lemma run_ops_refines os : forall q d xs,
  queue_rep q d xs -> dropPolicy q <> DropOldest ->
  exists q' d', run_ops os q = Ret (q', snd (fifo_ops (capacity q) os xs))
    /\ queue_rep q' d' (fst (fifo_ops (capacity q) os xs)) /\ same_config q q'.
Proof.
  induction os as [|o os IH]; intros q d xs H Hp; simpl.
  - eauto using same_config_refl.
  - destruct (run_op_refines o _ _ _ H Hp) as (q1 & d1 & -> & H1 & Hc1).
    pose proof Hc1 as (Ec & _ & _ & Ep).
    destruct (IH q1 d1 _ H1 ltac:(congruence)) as (q2 & d2 & E2 & H2 & Hc2).
    rewrite Ec in E2, H2.
    destruct (fifo_op (capacity q) o xs) as [xs1 r1]; simpl in *. rewrite E2.
    destruct (fifo_ops (capacity q) os xs1) as [xs2 r2]; simpl in *.
    exists q2, d2. split_and!; [done|done|by eapply same_config_trans].
Qed.

(** ** Statistics *)

Definition accepted (r : out) : Z := match r with REnqueue true => 1 | _ => 0 end.
Definition rejected (r : out) : Z := match r with REnqueue false => 1 | _ => 0 end.
Definition delivered (r : out) : Z := match r with RDequeue _ true => 1 | _ => 0 end.
Definition total (f : out -> Z) (rs : list out) : Z := foldr (fun r n => f r + n) 0 rs.

(** The counters, with the unbounded numbers they wrap. *)
Definition counts q (a b c : Z) : Prop :=
  enqueueCount q = u64 a /\ dequeueCount q = u64 b /\ dropCount q = u64 c.

Lemma counts_drop q a b c : counts q a b c -> counts (addDrop q) (a + 0) (b + 0) (c + 1).
Proof.
  intros (Ha & Hb & Hc).
  split_and!; cbn [addDrop with_counts enqueueCount dequeueCount dropCount];
    rewrite ?Hc, ?Z.add_0_r, ?wrapu_add_l; done.
Qed.

Lemma run_op_counts o q d xs a b c :
  queue_rep q d xs -> dropPolicy q <> DropOldest -> counts q a b c ->
  exists q' r, run_op o q = Ret (q', r)
    /\ counts q' (a + accepted r) (b + delivered r) (c + rejected r).
Proof.
  intros H Hp Hcs. pose proof Hcs as (Ha & Hb & Hc). destruct o as [x|].
  - destruct (Z_lt_dec (Z.of_nat (length xs)) (capacity q)).
    + destruct (Enqueue_room x _ _ _ H) as (q1 & Eq & _ & _ & E1 & E2 & E3); [done|].
      exists q1, (REnqueue true). cbn [run_op]. rewrite Eq. split; [done|].
      unfold counts. rewrite E1, E2, E3, Ha, wrapu_add_l by lia. simpl. by rewrite !Z.add_0_r.
    + pose proof (rep_room _ _ _ H). eexists _, _.
      split; [apply (run_op_overflow x _ _ _ H Hp); lia|]. by apply counts_drop.
  - destruct xs as [|x xs].
    + exists q, (RDequeue None false). cbn [run_op]. rewrite (Dequeue_nil _ _ H).
      split; [done|]. simpl. by rewrite !Z.add_0_r.
    + destruct (Dequeue_cons _ _ _ _ H) as (q1 & Eq & _ & _ & E1 & E2 & E3).
      exists q1, (RDequeue x true). cbn [run_op]. rewrite Eq. split; [done|].
      unfold counts. rewrite E1, E2, E3, Hb, wrapu_add_l by lia. simpl. by rewrite !Z.add_0_r.
Qed.

Lemma run_ops_counts os : forall q d xs a b c,
  queue_rep q d xs -> dropPolicy q <> DropOldest -> counts q a b c ->
  forall q' rs, run_ops os q = Ret (q', rs) ->
  counts q' (a + total accepted rs) (b + total delivered rs) (c + total rejected rs).
Proof.
  induction os as [|o os IH]; intros q d xs a b c H Hp Hc q' rs E; simpl in E.
  - injection E as <- <-. simpl. by rewrite !Z.add_0_r.
  - destruct (run_op_refines o _ _ _ H Hp) as (q1 & d1 & E1 & H1 & Hc1).
    rewrite E1 in E.
    destruct (run_op_counts o _ _ _ _ _ _ H Hp Hc) as (q1' & r' & E1' & Hn).
    rewrite E1' in E1. simplify_eq.
    destruct (run_ops os q1) as [[q2 rs2]| |] eqn:E2; simplify_eq.
    destruct Hc1 as (_ & _ & _ & Ep).
    pose proof (IH _ _ _ _ _ _ H1 ltac:(congruence) Hn _ _ E2) as Hf.
    simpl. by rewrite !Z.add_assoc.
Qed.

(** ** [DropOldest] after an overflow

    The policy moves [dequeuePos] past the oldest ticket [d] but leaves that
    ticket's slot occupied, so the enqueue side can never pass it. *)

Record stuck q (d : Z) : Prop := {
  stuck_cap : exists k, 1 <= k <= 62 /\ capacity q = 2 ^ k;
  stuck_mask : mask q = capacity q - 1;
  stuck_len : length (buffer q) = Z.to_nat (capacity q);
  stuck_policy : dropPolicy q = DropOldest;
  stuck_enq : enqueuePos q = u64 (d + capacity q);
  stuck_deq : exists p, d < p <= d + capacity q /\ dequeuePos q = u64 p;
  stuck_oldest : exists x, buffer q !! Z.to_nat (d mod capacity q)
                           = Some (mkNode (u64 (d + 1)) x);
  stuck_slots : forall p, d < p < d + capacity q -> exists x,
    buffer q !! Z.to_nat (p mod capacity q) = Some (mkNode (u64 (p + 1)) x)
    \/ buffer q !! Z.to_nat (p mod capacity q) = Some (mkNode (u64 (p + capacity q)) x)
}.

(** Stuck with the consumer side on a slot of the next lap. *)
Definition dead q (d : Z) : Prop :=
  stuck q d /\ dequeuePos q = u64 (d + 1)
  /\ exists x, buffer q !! Z.to_nat ((d + 1) mod capacity q)
               = Some (mkNode (u64 (d + 1 + capacity q)) x).

Lemma stuck_bounds q d : stuck q d -> 2 <= capacity q <= 2 ^ 62.
Proof.
  intros H. destruct (stuck_cap _ _ H) as (k & Hk & ->). split.
  - change 2 with (2 ^ 1) at 1. apply Z.pow_le_mono_r; lia.
  - apply Z.pow_le_mono_r; lia.
Qed.

Lemma stuck_slot q d p : stuck q d -> slot q (u64 p) = Z.to_nat (p mod capacity q).
Proof.
  intros H. destruct (stuck_cap _ _ H) as (k & Hk & E).
  eapply slot_mod; [|exact E|by apply (stuck_mask _ _ H)]. lia.
Qed.

Lemma oldest_pos e c : 0 <= c < 2 ^ 64 -> u64 (u64 (e + c) - u64 c + 1) = u64 (e + 1).
Proof.
  intros. rewrite (wrapu_small 64 c) by lia. rewrite <-Z.add_sub_swap, <-Z.add_sub_assoc.
  rewrite wrapu_add_l by lia. f_equal. lia.
Qed.

Lemma full_Enqueue_stuck x q d xs :
  queue_rep q d xs -> Z.of_nat (length xs) = capacity q -> dropPolicy q = DropOldest ->
  exists q', Enqueue x q = Ret (q', false) /\ stuck q' d /\ dequeuePos q' = u64 (d + 1)
    /\ buffer q' = buffer q /\ same_config q q'.
Proof.
  intros H Hfull Hp. pose proof (rep_cap_bounds _ _ _ H) as Hc.
  destruct (rep_enqueue_slot _ _ _ H) as (node & Hn & _ & Hd).
  rewrite (Enqueue_full _ _ _ Hn (Hd Hfull)), Hp.
  rewrite (rep_enq _ _ _ H), Hfull, oldest_pos by lia.
  eexists. split; [done|]. split; [|done].
  split; cbn; [apply (rep_cap _ _ _ H)|apply (rep_mask _ _ _ H)|apply (rep_len _ _ _ H)
              |done|done|exists (d + 1); split; [lia|done]| |].
  - rewrite (rep_slots _ _ _ H) by lia. unfold expected. rewrite Z.sub_diag.
    destruct xs as [|y xs]; [simpl in *; lia|]. by exists y.
  - intros p Hpr. rewrite (rep_slots _ _ _ H) by lia. unfold expected.
    destruct (lookup_lt_is_Some_2 xs (Z.to_nat (p - d))) as [y ->]; [lia|]. eauto.
Qed.

Lemma stuck_Enqueue x q d :
  stuck q d ->
  Enqueue x q = Ret (addDrop (with_pos q (enqueuePos q) (u64 (d + 1))), false)
  /\ stuck (addDrop (with_pos q (enqueuePos q) (u64 (d + 1)))) d.
Proof.
  intros H. pose proof (stuck_bounds _ _ H). destruct (stuck_oldest _ _ H) as [y Hy].
  split.
  - rewrite (Enqueue_full x q (mkNode (u64 (d + 1)) y)).
    + by rewrite (stuck_policy _ _ H), (stuck_enq _ _ H), oldest_pos by lia.
    + rewrite (stuck_enq _ _ H), (stuck_slot _ _ _ H), lap_mod by lia. done.
    + rewrite (stuck_enq _ _ H), enq_dif_eq; lia.
  - destruct H; split; cbn; try done. exists (d + 1). split; [lia|done].
Qed.

Lemma stuck_Dequeue q d :
  stuck q d -> exists q' r, Dequeue q = Ret (q', r) /\ stuck q' d.
Proof.
  intros H. pose proof (stuck_bounds _ _ H).
  destruct (stuck_deq _ _ H) as (p & Hp & Edeq).
  pose proof (stuck_slot _ _ p H) as Hs. rewrite <-Edeq in Hs.
  destruct (Z.eq_dec p (d + capacity q)) as [Hpe|].
  - destruct (stuck_oldest _ _ H) as [y Hy].
    exists q, (None, false). split; [|done].
    eapply Dequeue_none; [rewrite Hs, Hpe, lap_mod by lia; exact Hy|].
    rewrite Edeq, deq_dif_eq; lia.
  - destruct (stuck_slots _ _ H p ltac:(lia)) as (y & [Hy|Hy]); rewrite <-Hs in Hy.
    + rewrite (Dequeue_item _ _ Hy) by (rewrite Edeq, deq_dif_eq; lia).
      eexists _, _. split; [done|]. rewrite Hs, Edeq, (stuck_mask _ _ H).
      assert (u64 (u64 (u64 p + (capacity q - 1)) + 1) = u64 (p + capacity q)) as ->.
      { rewrite !wrapu_add_l by lia. rewrite <-Z.add_assoc, wrapu_add_l by lia. f_equal. lia. }
      destruct H as [Hk Hm Hl Hpol He _ [z Hz] Hsl]. split; cbn; try done.
      * by rewrite length_insert.
      * exists (p + 1). split; [lia|]. by rewrite wrapu_add_l by lia.
      * exists z. rewrite lookup_lap_insert by (done || lia). case_decide; [lia|done].
      * intros p' Hp'. rewrite lookup_lap_insert by (done || lia). case_decide; [|by eauto].
        subst. eauto.
    + exists q, (None, false). split; [|done].
      eapply Dequeue_none; [exact Hy|]. rewrite Edeq, deq_dif_eq; lia.
Qed.

Lemma dead_Enqueue x q d :
  dead q d -> exists q', Enqueue x q = Ret (q', false) /\ dead q' d.
Proof.
  intros (H & Hd & y & Hy). destruct (stuck_Enqueue x _ _ H) as [-> H'].
  eexists. split; [done|]. split; [done|]. split; [done|]. by exists y.
Qed.

Lemma addDrop_dead q d : dead q d -> dead (addDrop q) d.
Proof.
  intros (H & Hd & Hx). split; [|split; [exact Hd|exact Hx]].
  destruct H; split; cbn; assumption.
Qed.

Lemma dead_Dequeue q d : dead q d -> Dequeue q = Ret (q, (None, false)).
Proof.
  intros (H & Hd & y & Hy). pose proof (stuck_bounds _ _ H).
  eapply Dequeue_none; [rewrite Hd, (stuck_slot _ _ _ H); exact Hy|].
  rewrite Hd, deq_dif_eq; lia.
Qed.

(** The second step of a publish to a full [DropOldest] queue. *)
Lemma force_dead x q d y :
  stuck q d -> dequeuePos q = u64 (d + 1) ->
  buffer q !! Z.to_nat ((d + 1) mod capacity q) = Some (mkNode (u64 (d + 2)) y) ->
  exists q', tryForceEnqueueDropOldest x q = Ret (q', false) /\ dead q' d.
Proof.
  intros H Hd Hy. pose proof (stuck_bounds _ _ H).
  unfold tryForceEnqueueDropOldest. rewrite decide_True by apply (stuck_policy _ _ H).
  pose proof (stuck_slot _ _ (d + 1) H) as Hs. rewrite <-Hd in Hs.
  destruct (stuck_Dequeue _ _ H) as (q1 & r & E1 & H1).
  rewrite E1. rewrite (Dequeue_item q (mkNode (u64 (d + 2)) y)) in E1.
  2: { by rewrite Hs. }
  2: { rewrite Hd, deq_dif_eq; lia. }
  injection E1 as <- _. destruct (stuck_Enqueue x _ _ H1) as [-> H2].
  eexists. split; [done|]. split; [done|]. split; [done|].
  exists None. cbn. rewrite Hs, lookup_lap_insert by (apply (stuck_len _ _ H) || lia).
  rewrite decide_True by done. rewrite Hd, (stuck_mask _ _ H). do 2 f_equal.
  rewrite !wrapu_add_l by lia. rewrite <-Z.add_assoc, wrapu_add_l by lia. f_equal. lia.
Qed.

Lemma stuck_run_ops os : forall q d,
  stuck q d -> exists q' rs, run_ops os q = Ret (q', rs) /\ Forall (fun r => accepted r = 0) rs.
Proof.
  induction os as [|o os IH]; intros q d H; simpl; [by eauto|].
  assert (exists q1 r, run_op o q = Ret (q1, r) /\ stuck q1 d /\ accepted r = 0)
    as (q1 & r & -> & H1 & Hr).
  { destruct o as [x|]; simpl.
    - destruct (stuck_Enqueue x _ _ H) as [-> H1]. eauto.
    - destruct (stuck_Dequeue _ _ H) as (q1 & [y b] & -> & H1). eauto. }
  destruct (IH q1 d H1) as (q2 & rs & -> & Hrs). eauto.
Qed.

Lemma dead_run_ops os : forall q d,
  dead q d -> exists q' rs, run_ops os q = Ret (q', rs)
    /\ Forall (fun r => accepted r = 0 /\ delivered r = 0) rs.
Proof.
  induction os as [|o os IH]; intros q d H; simpl; [by eauto|].
  assert (exists q1 r, run_op o q = Ret (q1, r) /\ dead q1 d /\ accepted r = 0 /\ delivered r = 0)
    as (q1 & r & -> & H1 & Hr).
  { destruct o as [x|]; simpl.
    - destruct (dead_Enqueue x _ _ H) as (q1 & -> & H1). eauto 10.
    - rewrite (dead_Dequeue _ _ H). eauto 10. }
  destruct (IH q1 d H1) as (q2 & rs & -> & Hrs). eauto.
Qed.

End ops.

Arguments op : clear implicits.
Arguments out : clear implicits.

(** ** Properties *)

(** The bit-smearing [nextPowerOf2] computes the least power of two that is
    not below its argument, for every argument up to [2^63]. *)
Theorem nextPowerOf2_least n :
  1 <= n <= 2 ^ 63 ->
  nextPowerOf2 n = 2 ^ Z.log2_up n /\ n <= nextPowerOf2 n < 2 * n.
Proof.
  intros Hn. rewrite nextPowerOf2_log2_up by done. split; [done|].
  destruct (Z.eq_dec n 1) as [->|]; [done|].
  pose proof (Z.log2_up_spec n ltac:(lia)) as [Hlo Hhi]. split; [done|].
  rewrite <-Z.sub_1_r in Hlo. pose proof (Z.log2_up_pos n ltac:(lia)).
  replace (Z.log2_up n) with (Z.succ (Z.log2_up n - 1)) by lia.
  rewrite Z.pow_succ_r by lia. lia.
Qed.

Lemma nextPowerOf2_least_witness : nextPowerOf2 1000 = 2 ^ Z.log2_up 1000 /\ 1000 <= nextPowerOf2 1000 < 2 * 1000.
Proof. apply (nextPowerOf2_least 1000). lia. Defined.

(** C2: a queue of requested capacity 2 to [2^62] whose policy is [DropNewest]
    or [Block] implements a bounded FIFO of the rounded capacity: every run of
    enqueues and dequeues terminates without panic and returns exactly what
    the abstract FIFO returns, whatever the wrap-around of the counters. *)
Theorem queue_refines_fifo {A} nm c policy (os : list (op A)) :
  2 <= c <= 2 ^ 62 -> policy <> DropOldest ->
  exists q q', NewLockFreeQueue nm c policy = Ret q
    /\ run_ops os q = Ret (q', snd (fifo_ops (2 ^ Z.log2_up c) os []))
    /\ Size q' = Z.of_nat (length (fst (fifo_ops (2 ^ Z.log2_up c) os []))).
Proof.
  intros Hc Hp. destruct (NewLockFreeQueue_total (A:=A) nm c policy) as (q & E & Ec & Ep & _); [lia|].
  pose proof (NewLockFreeQueue_rep _ _ _ _ Hc E) as H.
  destruct (run_ops_refines os _ _ _ H) as (q' & d' & Er & H' & _); [congruence|].
  rewrite Ec in Er, H'. exists q, q'. split; [done|]. split; [done|]. by eapply Size_rep.
Qed.

Lemma queue_refines_fifo_witness :
  exists q q', NewLockFreeQueue "w" 2 Block = Ret q
    /\ run_ops [OEnqueue (Some 1%nat); OEnqueue (Some 2%nat); OEnqueue (Some 3%nat); ODequeue] q
       = Ret (q', [REnqueue true; REnqueue true; REnqueue false; RDequeue (Some 1%nat) true])
    /\ Size q' = 1.
Proof.
  apply (queue_refines_fifo "w" 2 Block
    [OEnqueue (Some 1%nat); OEnqueue (Some 2%nat); OEnqueue (Some 3%nat); ODequeue]).
  - lia.
  - discriminate.
Defined.

(** [Stats] is exact on a quiescent queue: after any run from a fresh queue
    (policy [DropNewest] or [Block]) the counters are the numbers of accepted,
    delivered and rejected operations modulo [2^64], and the size is the
    number of items the abstract FIFO still holds. *)
Theorem queue_stats_exact {A} nm c policy (os : list (op A)) :
  2 <= c <= 2 ^ 62 -> policy <> DropOldest ->
  exists q q' rs, NewLockFreeQueue nm c policy = Ret q /\ run_ops os q = Ret (q', rs)
    /\ Stats q' = mkStats nm (2 ^ Z.log2_up c)
         (Z.of_nat (length (fst (fifo_ops (2 ^ Z.log2_up c) os []))))
         (u64 (total accepted rs)) (u64 (total delivered rs)) (u64 (total rejected rs)).
Proof.
  intros Hc Hp.
  destruct (NewLockFreeQueue_total (A:=A) nm c policy) as (q & E & Ec & Ep & En & Ed); [lia|].
  pose proof (NewLockFreeQueue_rep _ _ _ _ Hc E) as H.
  destruct (run_ops_refines os _ _ _ H) as (q' & d' & Er & H' & Hcfg); [congruence|].
  assert (counts q 0 0 0) as H0.
  { unfold NewLockFreeQueue in E. destruct (_ <? 0); [done|]. by injection E as <-. }
  destruct (run_ops_counts os _ _ _ _ _ _ H ltac:(congruence) H0 _ _ Er) as (E1 & E2 & E3).
  exists q, q', (snd (fifo_ops (capacity q) os [])).
  split; [done|]. split; [done|]. unfold Stats.
  rewrite (Size_rep _ _ _ H'), E1, E2, E3. destruct Hcfg as (-> & _ & -> & _).
  by rewrite Ec, En.
Qed.

Lemma queue_stats_exact_witness :
  exists q q' rs, NewLockFreeQueue "w" 2 DropNewest = Ret q
    /\ run_ops [OEnqueue (Some 1%nat); OEnqueue (Some 2%nat); OEnqueue (Some 3%nat); ODequeue] q = Ret (q', rs)
    /\ Stats q' = mkStats "w" 2 1 (u64 (total accepted rs)) (u64 (total delivered rs)) (u64 (total rejected rs)).
Proof.
  apply (queue_stats_exact "w" 2 DropNewest
    [OEnqueue (Some 1%nat); OEnqueue (Some 2%nat); OEnqueue (Some 3%nat); ODequeue]).
  - lia.
  - discriminate.
Defined.

(** Under [DropOldest] the first overflow is final for producers: the
    [Enqueue] on the full queue fails, and in every later run of operations,
    dequeues included, no [Enqueue] succeeds again. *)
Theorem drop_oldest_overflow_stuck {A} (x : option A) q d xs (os : list (op A)) :
  queue_rep q d xs -> Z.of_nat (length xs) = capacity q -> dropPolicy q = DropOldest ->
  exists q1 q2 rs, Enqueue x q = Ret (q1, false) /\ run_ops os q1 = Ret (q2, rs)
    /\ Forall (fun r => accepted r = 0) rs.
Proof.
  intros H Hfull Hp. destruct (full_Enqueue_stuck x _ _ _ H Hfull Hp) as (q1 & -> & Hs & _).
  destruct (stuck_run_ops os _ _ Hs) as (q2 & rs & E & Hrs). eauto 10.
Qed.

(** A [DropOldest] queue of two slots, filled. *)
Definition full_two : LockFreeQueue nat :=
  mkQueue 1 [mkNode 1 (Some 10%nat); mkNode 2 (Some 11%nat)] 2 0 2 0 0 "w" 2 DropOldest.

Lemma full_two_rep : queue_rep full_two 0 [Some 10%nat; Some 11%nat].
Proof.
  split; try done.
  - exists 1. split; [lia|done].
  - intros p Hp. simpl in Hp.
    assert (p = 0 \/ p = 1) as [-> | ->] by lia; reflexivity.
Qed.

Lemma drop_oldest_overflow_stuck_witness :
  exists q1 q2 rs, Enqueue (Some 12%nat) full_two = Ret (q1, false)
    /\ run_ops [ODequeue; ODequeue; OEnqueue (Some 13%nat)] q1 = Ret (q2, rs)
    /\ Forall (fun r => accepted r = 0) rs.
Proof.
  apply (drop_oldest_overflow_stuck (Some 12%nat) full_two 0 [Some 10%nat; Some 11%nat]).
  - apply full_two_rep.
  - reflexivity.
  - reflexivity.
Defined.

(** A queue of capacity 1 does not tell a full slot from a free one: two
    enqueues both report success, the first item is overwritten, and the
    queue then reports itself empty to [Dequeue]. *)
Theorem capacity_one_overwrites {A} nm policy (x y : option A) :
  exists q q1 q2, NewLockFreeQueue nm 1 policy = Ret q
    /\ Enqueue x q = Ret (q1, true) /\ Enqueue y q1 = Ret (q2, true)
    /\ Dequeue q2 = Ret (q2, (None, false)) /\ Size q2 = 2.
Proof.
  eexists _, _, _. split; [reflexivity|]. split; [reflexivity|]. split; [reflexivity|].
  split; [|reflexivity].
  eapply Dequeue_none; [reflexivity|]. vm_compute. discriminate.
Qed.

End QueueSpec.
