(* ===== verification/QueueConc.v ===== *)
(** * The ring buffer under interleaving

    [Enqueue] and [Dequeue] of [src/pkg/queue/lockfree.go] split into their
    atomic actions ([sync/atomic] operations are sequentially consistent in
    Go), run by any number of goroutines in any order.  The history of a run
    records when an enqueuer claims its ticket and which ticket and pointer
    each dequeue returns. *)
From stdpp Require Import base gmap strings list numbers.
From Stdlib Require Import ZArith Lia.
From S2P Require Import Prelude Queue QueueRep.

Module QueueConc.
Import Queue QueueRep.

Section conc.
Context {A : Type}.

(** Where a goroutine is.  [x] is the item, [r] is [retryCount], [pos] the
    local variable of the same name. *)
Inductive pc :=
| Idle
| E_load (x : option A) (r : Z)              (* pos = Load(enqueuePos) *)
| E_seq (x : option A) (r pos : Z)           (* seq = Load(node.sequence) *)
| E_cas (x : option A) (r pos : Z)           (* CAS(enqueuePos, pos, pos+1) *)
| E_old_load (x : option A) (r pos : Z)      (* DropOldest: Load(dequeuePos) *)
| E_old_cas (x : option A) (r pos old : Z)   (* DropOldest: CAS(dequeuePos, ..) *)
| E_drop                                     (* Add(dropCount, 1) *)
| E_data (x : option A) (pos : Z)            (* StorePointer(node.data) *)
| E_pub (x : option A) (pos : Z)             (* Store(node.sequence, pos+1) *)
| E_cnt                                      (* Add(enqueueCount, 1) *)
| E_ret (ok : bool)
| D_load (r : Z)
| D_seq (r pos : Z)
| D_cas (r pos : Z)
| D_data (pos : Z)                           (* LoadPointer(node.data) *)
| D_nil (pos : Z) (x : option A)             (* StorePointer(node.data, nil) *)
| D_pub (pos : Z) (x : option A)             (* Store(node.sequence, pos+mask+1) *)
| D_cnt (pos : Z) (x : option A)             (* Add(dequeueCount, 1) *)
| D_ret (x : option A) (ok : bool).

(** What the history remembers. *)
Inductive label :=
| Claimed (x : option A)
| Delivered (pos : Z) (x : option A).

(** The head of each loop. *)
Definition e_again (x : option A) (r : Z) : pc :=
  if r <? maxRetries then E_load x r else E_drop.
Definition d_again (r : Z) : pc :=
  if r <? maxRetries then D_load r else D_ret None false.

Definition set_data (q : LockFreeQueue A) (pos : Z) (x : option A) : LockFreeQueue A :=
  with_buffer q (alter (fun n => mkNode (sequence n) x) (slot q pos) (buffer q)).
Definition set_seq (q : LockFreeQueue A) (pos s : Z) : LockFreeQueue A :=
  with_buffer q (alter (fun n => mkNode s (data n)) (slot q pos) (buffer q)).

(** One atomic action of a goroutine inside a call; [None] when it is outside
    a call or would panic. *)
Definition enq_step (q : LockFreeQueue A) (p : pc) : option (LockFreeQueue A * pc * list label) :=
  match p with
  | E_load x r => Some (q, E_seq x r (enqueuePos q), [])
  | E_seq x r pos =>
    match buffer q !! slot q pos with
    | None => None
    | Some n =>
      let dif := s64 (s64 (sequence n) - s64 pos) in
      if dif =? 0 then Some (q, E_cas x r pos, [])
      else if dif <? 0 then
        match dropPolicy q with
        | DropNewest => Some (q, E_drop, [])
        | DropOldest => Some (q, E_old_load x r pos, [])
        | Block => Some (q, e_again x (r + 1), [])
        end
      else Some (q, e_again x (r + 1), [])
    end
  | E_cas x r pos =>
    let '(q, ok) := cas_enqueuePos q pos (u64 (pos + 1)) in
    if ok then Some (q, E_data x pos, [Claimed x]) else Some (q, e_again x r, [])
  | E_old_load x r pos => Some (q, E_old_cas x r pos (dequeuePos q), [])
  | E_old_cas x r pos old =>
    let '(q, _) := cas_dequeuePos q old (u64 (pos - u64 (capacity q) + 1)) in
    Some (q, e_again x (r + 1), [])
  | E_drop => Some (addDrop q, E_ret false, [])
  | E_data x pos => Some (set_data q pos x, E_pub x pos, [])
  | E_pub x pos => Some (set_seq q pos (u64 (pos + 1)), E_cnt, [])
  | E_cnt => Some (addEnqueue q, E_ret true, [])
  | _ => None
  end.

Definition deq_step (q : LockFreeQueue A) (p : pc) : option (LockFreeQueue A * pc * list label) :=
  match p with
  | D_load r => Some (q, D_seq r (dequeuePos q), [])
  | D_seq r pos =>
    match buffer q !! slot q pos with
    | None => None
    | Some n =>
      let dif := s64 (s64 (sequence n) - s64 (u64 (pos + 1))) in
      if dif =? 0 then Some (q, D_cas r pos, [])
      else if dif <? 0 then Some (q, D_ret None false, [])
      else Some (q, d_again (r + 1), [])
    end
  | D_cas r pos =>
    let '(q, ok) := cas_dequeuePos q pos (u64 (pos + 1)) in
    if ok then Some (q, D_data pos, []) else Some (q, d_again r, [])
  | D_data pos =>
    match buffer q !! slot q pos with
    | None => None
    | Some n => Some (q, D_nil pos (data n), [])
    end
  | D_nil pos x => Some (set_data q pos None, D_pub pos x, [])
  | D_pub pos x => Some (set_seq q pos (u64 (u64 (pos + mask q) + 1)), D_cnt pos x, [])
  | D_cnt pos x => Some (addDequeue q, D_ret x true, [Delivered pos x])
  | _ => None
  end.

Definition tstep (q : LockFreeQueue A) (p : pc) : option (LockFreeQueue A * pc * list label) :=
  match enq_step q p with
  | Some r => Some r
  | None => deq_step q p
  end.

(** The shared queue and the goroutines. *)
Record sys := mkSys { shared : LockFreeQueue A; threads : list pc }.

Inductive step : sys -> list label -> sys -> Prop :=
| step_call_enq q ts t x :
    ts !! t = Some Idle -> step (mkSys q ts) [] (mkSys q (<[t := E_load x 0]> ts))
| step_call_deq q ts t :
    ts !! t = Some Idle -> step (mkSys q ts) [] (mkSys q (<[t := D_load 0]> ts))
| step_atomic q ts t p q' p' l :
    ts !! t = Some p -> tstep q p = Some (q', p', l) ->
    step (mkSys q ts) l (mkSys q' (<[t := p']> ts))
| step_ret_enq q ts t ok :
    ts !! t = Some (E_ret ok) -> step (mkSys q ts) [] (mkSys q (<[t := Idle]> ts))
| step_ret_deq q ts t x ok :
    ts !! t = Some (D_ret x ok) -> step (mkSys q ts) [] (mkSys q (<[t := Idle]> ts)).

(** [n] idle goroutines on a fresh queue, and what they can reach. *)
Inductive reach (nm : string) (c : Z) (policy : DropPolicy) (n : nat) : list label -> sys -> Prop :=
| reach_init q :
    NewLockFreeQueue nm c policy = Ret q ->
    reach nm c policy n [] (mkSys q (replicate n Idle))
| reach_step tr s l s' :
    reach nm c policy n tr s -> step s l s' -> reach nm c policy n (tr ++ l) s'.

(** Items in the order their tickets were claimed, and the dequeues that
    returned, with their tickets. *)
Definition claims (tr : list label) : list (option A) :=
  omap (fun l => match l with Claimed x => Some x | _ => None end) tr.
Definition deliveries (tr : list label) : list (Z * option A) :=
  omap (fun l => match l with Delivered p x => Some (p, x) | _ => None end) tr.

(** A scheduler, to run the model: each entry picks a goroutine and, when it is
    idle, the call it makes; finished calls are collected. *)
Inductive call := CEnq (x : option A) | CDeq.

Definition sched_step (s : sys) (t : nat) (c : call) : option (sys * list label) :=
  match threads s !! t with
  | None => None
  | Some Idle =>
    let p := match c with CEnq x => E_load x 0 | CDeq => D_load 0 end in
    Some (mkSys (shared s) (<[t := p]> (threads s)), [])
  | Some (E_ret _) | Some (D_ret _ _) => Some (mkSys (shared s) (<[t := Idle]> (threads s)), [])
  | Some p =>
    match tstep (shared s) p with
    | Some (q', p', l) => Some (mkSys q' (<[t := p']> (threads s)), l)
    | None => None
    end
  end.

Fixpoint sched_run (s : sys) (sc : list (nat * call)) : option (sys * list label) :=
  match sc with
  | [] => Some (s, [])
  | (t, c) :: sc =>
    match sched_step s t c with
    | None => None
    | Some (s', l) =>
      match sched_run s' sc with
      | None => None
      | Some (s'', tr) => Some (s'', l ++ tr)
      end
    end
  end.

Lemma sched_step_sound s t c s' l : sched_step s t c = Some (s', l) -> step s l s'.
Proof.
  unfold sched_step. destruct s as [q ts]; simpl.
  destruct (ts !! t) as [p|] eqn:E; [|done].
  destruct p; intros H; try (destruct (tstep q _) as [[[? ?] ?]|] eqn:Ht; [|done]);
    simplify_eq; try by econstructor.
  destruct c; by econstructor.
Qed.

Lemma sched_run_reach nm cap policy n sc : forall tr s s' tr',
  reach nm cap policy n tr s -> sched_run s sc = Some (s', tr') ->
  reach nm cap policy n (tr ++ tr') s'.
Proof.
  induction sc as [|[t c] sc IH]; intros tr s s' tr' H E; simpl in E.
  - simplify_eq. by rewrite app_nil_r.
  - destruct (sched_step s t c) as [[s1 l]|] eqn:E1; [|done].
    destruct (sched_run s1 sc) as [[s2 tr2]|] eqn:E2; [|done]. simplify_eq.
    rewrite app_assoc. eapply IH; [|exact E2].
    econstructor; [exact H|]. by eapply sched_step_sound.
Qed.

End conc.
Arguments sys : clear implicits.
Arguments pc : clear implicits.
Arguments label : clear implicits.
Arguments call : clear implicits.
End QueueConc.
