(* ===== verification/QueueConcInv.v ===== *)
(** * Safety of the interleaved ring buffer

    The ownership invariant of the ticket protocol and its consequence for
    histories: every dequeue returns the item whose enqueue claimed the same
    ticket, and no ticket is delivered twice. *)
From stdpp Require Import base gmap strings list numbers.
From Stdlib Require Import ZArith Lia.
From S2P Require Import Prelude Queue QueueRep QueueConc.

Module QueueConcInv.
Import Queue QueueRep QueueConc.

Section inv.
Context {A : Type}.
Implicit Types q : LockFreeQueue A.
Implicit Types p : pc A.
Implicit Types items : list (option A).

Definition at_pos q (z : Z) : option (queueNode A) := buffer q !! Z.to_nat (z mod capacity q).
Definition seq_at q (z s : Z) : Prop := exists x, at_pos q z = Some (mkNode s x).

(** A slot is free for a ticket of the current lap, or published. *)
Definition slot_ok q items (i : Z) (n : queueNode A) : Prop :=
  0 <= sequence n < dequeuePos q + capacity q /\ sequence n mod capacity q = i
  \/ exists z, sequence n = z + 1 /\ 0 <= z < enqueuePos q /\ z mod capacity q = i
     /\ (dequeuePos q <= z -> items !! Z.to_nat z = Some (data n)).

Record ginv q items : Prop := {
  g_cap : exists k, 1 <= k <= 62 /\ capacity q = 2 ^ k;
  g_mask : mask q = capacity q - 1;
  g_len : length (buffer q) = Z.to_nat (capacity q);
  g_policy : dropPolicy q <> DropOldest;
  g_enq : enqueuePos q = Z.of_nat (length items);
  g_deq : 0 <= dequeuePos q <= enqueuePos q;
  g_small : enqueuePos q + capacity q < 2 ^ 63;
  g_room : enqueuePos q <= dequeuePos q + capacity q;
  g_slot : forall i, 0 <= i < capacity q ->
    exists n, buffer q !! Z.to_nat i = Some n /\ slot_ok q items i n
}.

(** What a goroutine knows at each of its program points. *)
Definition thread_ok q items p : Prop :=
  match p with
  | E_seq _ _ z => 0 <= z <= enqueuePos q
  | E_cas _ _ z => 0 <= z <= enqueuePos q /\ (z < enqueuePos q \/ seq_at q z z)
  | E_old_load _ _ _ | E_old_cas _ _ _ _ => False
  | E_data x z => 0 <= z < enqueuePos q /\ items !! Z.to_nat z = Some x /\ seq_at q z z
  | E_pub x z => 0 <= z < enqueuePos q /\ items !! Z.to_nat z = Some x
                 /\ at_pos q z = Some (mkNode z x)
  | D_seq _ z => 0 <= z <= dequeuePos q
  | D_cas _ z => 0 <= z <= dequeuePos q /\ (z < dequeuePos q \/ seq_at q z (z + 1))
  | D_data z => 0 <= z < dequeuePos q /\ exists x, items !! Z.to_nat z = Some x
                /\ at_pos q z = Some (mkNode (z + 1) x)
  | D_nil z x | D_pub z x => 0 <= z < dequeuePos q /\ items !! Z.to_nat z = Some x
                             /\ seq_at q z (z + 1)
  | D_cnt z x => 0 <= z < dequeuePos q /\ items !! Z.to_nat z = Some x
  | _ => True
  end.

(** The ticket a goroutine holds, and the slot it owns. *)
Definition etok p : option Z :=
  match p with E_data _ z | E_pub _ z => Some z | _ => None end.
Definition dtok p : option Z :=
  match p with D_data z | D_nil z _ | D_pub z _ | D_cnt z _ => Some z | _ => None end.
Definition sown p : option Z :=
  match p with
  | E_data _ z | E_pub _ z | D_data z | D_nil z _ | D_pub z _ => Some z
  | _ => None
  end.

Definition unique (tok : pc A -> option Z) (ts : list (pc A)) : Prop :=
  forall t t' p p' z, ts !! t = Some p -> ts !! t' = Some p' ->
    tok p = Some z -> tok p' = Some z -> t = t'.

Record inv (s : sys A) items (dl : list (Z * option A)) : Prop := {
  i_g : ginv (shared s) items;
  i_t : forall t p, threads s !! t = Some p -> thread_ok (shared s) items p;
  i_e : unique etok (threads s);
  i_d : unique dtok (threads s);
  i_nodup : NoDup dl.*1;
  i_log : forall z x, (z, x) ∈ dl -> 0 <= z < dequeuePos (shared s)
          /\ items !! Z.to_nat z = Some x;
  i_fresh : forall t p z, threads s !! t = Some p -> dtok p = Some z -> z ∉ dl.*1
}.

Lemma g_bounds q items : ginv q items -> 2 <= capacity q <= 2 ^ 62.
Proof.
  intros H. destruct (g_cap _ _ H) as (k & Hk & ->). split.
  - change 2 with (2 ^ 1) at 1. apply Z.pow_le_mono_r; lia.
  - apply Z.pow_le_mono_r; lia.
Qed.

Lemma g_slot_at q items z :
  ginv q items -> 0 <= z < 2 ^ 64 -> slot q z = Z.to_nat (z mod capacity q).
Proof.
  intros H Hz. destruct (g_cap _ _ H) as (k & Hk & E).
  rewrite <-(wrapu_small 64 z) at 1 by done.
  eapply slot_mod; [|exact E|by apply (g_mask _ _ H)]. lia.
Qed.

Lemma g_at q items z :
  ginv q items -> exists n, at_pos q z = Some n /\ slot_ok q items (z mod capacity q) n.
Proof.
  intros H. pose proof (g_bounds _ _ H). apply (g_slot _ _ H).
  apply Z.mod_pos_bound. lia.
Qed.

(** Consecutive tickets use different slots. *)
Lemma succ_slot c z : 2 <= c -> (z + 1) mod c <> z mod c.
Proof.
  intros Hc E. assert ((z + 1 - z) mod c = 0) as E0.
  { rewrite Zminus_mod, E, <-Zminus_mod, Z.sub_diag. apply Z.mod_0_l. lia. }
  replace (z + 1 - z) with 1 in E0 by lia. rewrite Z.mod_small in E0; lia.
Qed.

Lemma slot_seq_range q items i n :
  ginv q items -> slot_ok q items i n -> 0 <= sequence n < 2 ^ 63.
Proof.
  intros H. pose proof (g_deq _ _ H). pose proof (g_small _ _ H). pose proof (g_bounds _ _ H).
  intros [[? ?]|(z & ? & ? & ?)]; lia.
Qed.

(** A slot a goroutine owns: which sequence number it carries. *)
Lemma sown_seq q items p z :
  thread_ok q items p -> sown p = Some z ->
  etok p = Some z /\ seq_at q z z \/ dtok p = Some z /\ seq_at q z (z + 1).
Proof.
  destruct p; simpl; intros Hok [= <-]; unfold seq_at;
    [left|left|right; destruct Hok as (? & y & ? & ?)|right|right]; (split; [done|]);
    try (by exists y); destruct Hok as (? & ? & Hs); (exact Hs || by exists x).
Qed.

Lemma seq_at_inj q z z' s s' :
  seq_at q z s -> seq_at q z' s' -> z mod capacity q = z' mod capacity q -> s = s'.
Proof. unfold seq_at, at_pos. intros (x & Hx) (x' & Hx') E. rewrite E in Hx. congruence. Qed.

(** Two goroutines never own the same slot. *)
Lemma sown_excl s items dl t t' p p' z z' :
  inv s items dl -> threads s !! t = Some p -> threads s !! t' = Some p' -> t <> t' ->
  sown p = Some z -> sown p' = Some z' ->
  z mod capacity (shared s) <> z' mod capacity (shared s).
Proof.
  intros H Ht Ht' Hne Hz Hz' E. pose proof (g_bounds _ _ (i_g _ _ _ H)).
  destruct (sown_seq _ _ _ _ (i_t _ _ _ H _ _ Ht) Hz) as [[T S]|[T S]];
  destruct (sown_seq _ _ _ _ (i_t _ _ _ H _ _ Ht') Hz') as [[T' S']|[T' S']];
  pose proof (seq_at_inj _ _ _ _ _ S S' E) as Es.
  - subst z'. apply Hne. by eapply (i_e _ _ _ H).
  - subst z. by apply (succ_slot (capacity (shared s)) z'); [lia|].
  - subst z'. by apply (succ_slot (capacity (shared s)) z); [lia|symmetry].
  - assert (z = z') as <- by lia. apply Hne. by eapply (i_d _ _ _ H).
Qed.

(** ** Replacing one goroutine *)

Lemma inv_update q ts items dl t p q' p' items' dl' :
  inv (mkSys q ts) items dl -> ts !! t = Some p ->
  ginv q' items' -> thread_ok q' items' p' ->
  (forall t' p'', t <> t' -> ts !! t' = Some p'' -> thread_ok q' items' p'') ->
  (forall z, etok p' = Some z -> etok p = Some z \/
     forall t' p'', ts !! t' = Some p'' -> etok p'' <> Some z) ->
  (forall z, dtok p' = Some z -> (dtok p = Some z \/
     (forall t' p'', ts !! t' = Some p'' -> dtok p'' <> Some z)) /\ z ∉ dl'.*1) ->
  (forall t' p'' z, t <> t' -> ts !! t' = Some p'' -> dtok p'' = Some z -> z ∉ dl'.*1) ->
  NoDup dl'.*1 ->
  (forall z x, (z, x) ∈ dl' -> 0 <= z < dequeuePos q' /\ items' !! Z.to_nat z = Some x) ->
  inv (mkSys q' (<[t := p']> ts)) items' dl'.
Proof.
  intros H Ht Hg Hp' Hoth He Hd Hfr Hnd Hlog.
  assert (t < length ts)%nat as Hlt by by eapply lookup_lt_Some.
  assert (forall tok : pc A -> option Z, unique tok ts ->
    (forall z, tok p' = Some z -> tok p = Some z \/
       forall t' p'', ts !! t' = Some p'' -> tok p'' <> Some z) ->
    unique tok (<[t := p']> ts)) as Hu.
  { intros tok U Hf t1 t2 p1 p2 z H1 H2 T1 T2.
    apply list_lookup_insert_Some in H1, H2.
    destruct H1 as [(<- & <- & _)|[Hn1 H1]], H2 as [(<- & <- & _)|[Hn2 H2]]; [done| | |].
    - destruct (Hf z T1) as [T|Hf1]; [by eapply U|by exfalso; eapply Hf1].
    - destruct (Hf z T2) as [T|Hf2]; [by eapply U|by exfalso; eapply Hf2].
    - by eapply U. }
  split; simpl; try done.
  - intros t1 p1 H1. apply list_lookup_insert_Some in H1 as [(<- & <- & _)|[Hn1 H1]]; eauto.
  - apply Hu; [apply (i_e _ _ _ H)|done].
  - apply Hu; [apply (i_d _ _ _ H)|]. intros z T. by apply Hd.
  - intros t1 p1 z H1 T1.
    apply list_lookup_insert_Some in H1 as [(<- & <- & _)|[Hn1 H1]]; [by apply Hd|eauto].
Qed.

(** A local step: nothing shared that the invariant mentions changes. *)
Definition same_view q q' : Prop :=
  capacity q' = capacity q /\ mask q' = mask q /\ dropPolicy q' = dropPolicy q
  /\ buffer q' = buffer q /\ enqueuePos q' = enqueuePos q /\ dequeuePos q' = dequeuePos q.

Lemma ginv_view q q' items : same_view q q' -> ginv q items -> ginv q' items.
Proof.
  destruct q, q'; unfold same_view; simpl. intros (-> & -> & -> & -> & -> & ->) []. by split.
Qed.

Lemma thread_ok_view q q' items p :
  same_view q q' -> thread_ok q items p -> thread_ok q' items p.
Proof.
  destruct q, q'; unfold same_view; simpl. intros (-> & -> & -> & -> & -> & ->).
  by destruct p.
Qed.

Lemma inv_local q ts items dl t p q' p' :
  inv (mkSys q ts) items dl -> ts !! t = Some p -> same_view q q' ->
  thread_ok q items p' ->
  (forall z, etok p' = Some z -> etok p = Some z) ->
  (forall z, dtok p' = Some z -> dtok p = Some z) ->
  inv (mkSys q' (<[t := p']> ts)) items dl.
Proof.
  intros H Ht Hv Hp' He Hd.
  eapply inv_update; [exact H|exact Ht|..].
  - eapply ginv_view; [done|apply (i_g _ _ _ H)].
  - by eapply thread_ok_view.
  - intros t' p'' _ Ht'. eapply thread_ok_view; [done|]. by eapply (i_t _ _ _ H).
  - intros z T. left. auto.
  - intros z T. split; [left; auto|]. apply (i_fresh _ _ _ H t p z Ht). auto.
  - intros t' p'' z _. by eapply (i_fresh _ _ _ H).
  - apply (i_nodup _ _ _ H).
  - destruct Hv as (_ & _ & _ & _ & _ & ->). apply (i_log _ _ _ H).
Qed.

(** ** Writing a slot *)

Definition upd_slot q (pos : Z) (f : queueNode A -> queueNode A) : LockFreeQueue A :=
  with_buffer q (alter f (slot q pos) (buffer q)).

Lemma at_upd q items pos f z :
  ginv q items -> 0 <= pos < 2 ^ 64 ->
  at_pos (upd_slot q pos f) z
  = if decide (z mod capacity q = pos mod capacity q) then f <$> at_pos q z else at_pos q z.
Proof.
  intros H Hpos. pose proof (g_bounds _ _ H). unfold at_pos, upd_slot. cbn.
  rewrite (g_slot_at _ _ _ H Hpos). case_decide as E.
  - rewrite E. by rewrite list_lookup_alter_eq.
  - rewrite list_lookup_alter_ne; [done|]. intros E'.
    pose proof (Z.mod_pos_bound z (capacity q)). pose proof (Z.mod_pos_bound pos (capacity q)).
    apply Z2Nat.inj in E'; lia.
Qed.

Lemma ginv_upd q items pos f :
  ginv q items -> 0 <= pos < 2 ^ 64 ->
  (forall n, at_pos q pos = Some n -> slot_ok q items (pos mod capacity q) (f n)) ->
  ginv (upd_slot q pos f) items.
Proof.
  intros H Hpos Hf. pose proof (g_bounds _ _ H) as Hb.
  split; cbn; try apply H.
  - rewrite length_alter. apply H.
  - intros i Hi. pose proof (at_upd q items pos f i H Hpos) as Ea.
    destruct (g_at _ _ i H) as (n & Hn & Hok).
    unfold at_pos in Ea, Hn. cbn in Ea. rewrite Z.mod_small in Ea, Hn, Hok by lia.
    rewrite Ea, Hn. case_decide as E; [|eauto].
    exists (f n). split; [done|]. rewrite E. apply Hf.
    unfold at_pos. by rewrite <-E.
Qed.

(** The other goroutines do not notice a write by the owner of a slot. *)
Lemma thread_ok_upd q items pos f p :
  ginv q items -> 0 <= pos < 2 ^ 64 ->
  (forall z, sown p = Some z -> z mod capacity q <> pos mod capacity q) ->
  (forall z n, at_pos q z = Some n -> z mod capacity q = pos mod capacity q ->
     (sequence n = z -> z < enqueuePos q \/ sequence (f n) = z)
     /\ (sequence n = z + 1 -> z < dequeuePos q \/ sequence (f n) = z + 1)) ->
  thread_ok q items p -> thread_ok (upd_slot q pos f) items p.
Proof.
  intros H Hpos Hs Hf Hok.
  assert (forall z, sown p = Some z -> at_pos (upd_slot q pos f) z = at_pos q z) as Hown.
  { intros z Hz. rewrite (at_upd _ _ _ _ _ H Hpos). case_decide; [|done]. by destruct (Hs z). }
  assert (forall z s, seq_at q z s -> exists n, at_pos (upd_slot q pos f) z = Some n
    /\ (sequence n = s \/ exists n0, at_pos q z = Some n0 /\ n = f n0 /\ sequence n0 = s
        /\ z mod capacity q = pos mod capacity q)) as Hseq.
  { intros z s (x & Hx). rewrite (at_upd _ _ _ _ _ H Hpos). case_decide as E.
    - rewrite Hx. simpl. eauto 10.
    - eauto. }
  destruct p; simpl in *; try done; unfold seq_at in *; try by rewrite Hown.
  - destruct Hok as [Hr [Hlt|Hsq]]; [by auto|]. split; [done|].
    destruct (Hseq _ _ Hsq) as (n & Hn & [<-|(n0 & Hn0 & -> & E0 & Em)]).
    + right. exists (data n). rewrite Hn. by destruct n.
    + destruct (proj1 (Hf _ _ Hn0 Em) E0) as [?|Es]; [by left|right].
      exists (data (f n0)). rewrite Hn. f_equal. destruct (f n0); simpl in *. congruence.
  - destruct Hok as [Hr [Hlt|Hsq]]; [by auto|]. split; [done|].
    destruct (Hseq _ _ Hsq) as (n & Hn & [<-|(n0 & Hn0 & -> & E0 & Em)]).
    + right. exists (data n). rewrite Hn. by destruct n.
    + destruct (proj2 (Hf _ _ Hn0 Em) E0) as [?|Es]; [by left|right].
      exists (data (f n0)). rewrite Hn. f_equal. destruct (f n0); simpl in *. congruence.
Qed.

(** The owner of a slot writes it. *)
Lemma inv_write q ts items dl t p pos f p' :
  inv (mkSys q ts) items dl -> ts !! t = Some p -> sown p = Some pos -> 0 <= pos < 2 ^ 64 ->
  (forall n, at_pos q pos = Some n -> slot_ok q items (pos mod capacity q) (f n)) ->
  (forall z n, at_pos q z = Some n -> z mod capacity q = pos mod capacity q ->
     (sequence n = z -> z < enqueuePos q \/ sequence (f n) = z)
     /\ (sequence n = z + 1 -> z < dequeuePos q \/ sequence (f n) = z + 1)) ->
  thread_ok (upd_slot q pos f) items p' ->
  (forall z, etok p' = Some z -> etok p = Some z) ->
  (forall z, dtok p' = Some z -> dtok p = Some z) ->
  inv (mkSys (upd_slot q pos f) (<[t := p']> ts)) items dl.
Proof.
  intros H Ht Hp Hpos Hslot Hseq Hp' He Hd. pose proof (i_g _ _ _ H) as Hg. simpl in Hg.
  eapply inv_update; [exact H|exact Ht|..].
  - by apply ginv_upd.
  - done.
  - intros t' p'' Hne Ht'. apply thread_ok_upd; try done; [|by eapply (i_t _ _ _ H)].
    intros z Hz. apply not_eq_sym. eapply (sown_excl _ _ _ t t' p p'' pos z H); done.
  - intros z T. left. auto.
  - intros z T. split; [left; auto|]. apply (i_fresh _ _ _ H t p z Ht). auto.
  - intros t' p'' z _. by eapply (i_fresh _ _ _ H).
  - apply (i_nodup _ _ _ H).
  - apply (i_log _ _ _ H).
Qed.

(** ** Each atomic action *)

(** Reading a sequence number: the three-way comparison of both loops. *)
Lemma read_dif s z : 0 <= s < 2 ^ 63 -> 0 <= z < 2 ^ 63 -> s64 (s64 s - s64 z) = s - z.
Proof. intros. rewrite (wraps_small 64 s), (wraps_small 64 z), wraps_small; lia. Qed.

(** Program points that hold no ticket and know nothing. *)
Definition quiet p : Prop :=
  etok p = None /\ dtok p = None /\ forall q items, thread_ok q items p.

Lemma quiet_e_again x r : quiet (e_again x r).
Proof. unfold e_again. by destruct (_ <? _). Qed.
Lemma quiet_d_again r : quiet (d_again r).
Proof. unfold d_again. by destruct (_ <? _). Qed.
Hint Resolve quiet_e_again quiet_d_again : core.

(** A goroutine goes back to the head of its loop, or returns. *)
Lemma inv_restart q ts items dl t p q' p' :
  inv (mkSys q ts) items dl -> ts !! t = Some p -> same_view q q' -> quiet p' ->
  inv (mkSys q' (<[t := p']> ts)) items dl.
Proof.
  intros H Ht Hv (He & Hd & Hok). eapply inv_local; [exact H|exact Ht|done|done|..].
  - intros z T. congruence.
  - intros z T. congruence.
Qed.

Lemma inv_enq_seq q ts items dl t x r pos q' p' l :
  inv (mkSys q ts) items dl -> ts !! t = Some (E_seq x r pos) ->
  enq_step q (E_seq x r pos) = Some (q', p', l) ->
  inv (mkSys q' (<[t := p']> ts)) items dl /\ l = [].
Proof.
  intros H Ht E. pose proof (i_g _ _ _ H) as Hg. simpl in Hg.
  pose proof (i_t _ _ _ H _ _ Ht) as Hok. simpl in Hok.
  pose proof (g_small _ _ Hg). pose proof (g_bounds _ _ Hg).
  cbn [enq_step] in E. rewrite (g_slot_at _ _ _ Hg) in E by lia.
  destruct (g_at _ _ pos Hg) as (n & Hn & Hs). unfold at_pos in Hn. rewrite Hn in E.
  rewrite read_dif in E by (eapply slot_seq_range in Hs; [|done]; lia).
  destruct (Z.eqb_spec (sequence n - pos) 0) as [E0|].
  - injection E as <- <- <-. split; [|done].
    eapply inv_local; [exact H|exact Ht|done| |done|done].
    split; [done|]. right. exists (data n). unfold at_pos. rewrite Hn.
    destruct n; simpl in *. do 2 f_equal. lia.
  - assert (q' = q /\ l = [] /\ quiet p') as (-> & -> & Hp').
    { pose proof (g_policy _ _ Hg).
      destruct (_ <? 0); [destruct (dropPolicy q)|]; simplify_eq; (split_and!; [done|done|]);
        auto; done. }
    split; [|done]. by eapply inv_restart.
Qed.

Lemma inv_deq_seq q ts items dl t r pos q' p' l :
  inv (mkSys q ts) items dl -> ts !! t = Some (D_seq r pos) ->
  deq_step q (D_seq r pos) = Some (q', p', l) ->
  inv (mkSys q' (<[t := p']> ts)) items dl /\ l = [].
Proof.
  intros H Ht E. pose proof (i_g _ _ _ H) as Hg. simpl in Hg.
  pose proof (i_t _ _ _ H _ _ Ht) as Hok. simpl in Hok.
  pose proof (g_small _ _ Hg). pose proof (g_bounds _ _ Hg). pose proof (g_deq _ _ Hg).
  cbn [deq_step] in E. rewrite (g_slot_at _ _ _ Hg) in E by lia.
  destruct (g_at _ _ pos Hg) as (n & Hn & Hs). unfold at_pos in Hn. rewrite Hn in E.
  rewrite wrapu_small in E by lia.
  rewrite read_dif in E by (eapply slot_seq_range in Hs; [|done]; lia).
  destruct (Z.eqb_spec (sequence n - (pos + 1)) 0) as [E0|].
  - injection E as <- <- <-. split; [|done].
    eapply inv_local; [exact H|exact Ht|done| |done|done].
    split; [done|]. right. exists (data n). unfold at_pos. rewrite Hn.
    destruct n; simpl in *. do 2 f_equal. lia.
  - assert (q' = q /\ l = [] /\ quiet p') as (-> & -> & Hp').
    { destruct (_ <? 0); simplify_eq; (split_and!; [done|done|]); auto; done. }
    split; [|done]. by eapply inv_restart.
Qed.

(** Claiming an enqueue ticket. *)
Lemma inv_claim q ts items dl t x r :
  inv (mkSys q ts) items dl -> ts !! t = Some (E_cas x r (enqueuePos q)) ->
  enqueuePos q + 1 + capacity q < 2 ^ 63 ->
  inv (mkSys (with_pos q (enqueuePos q + 1) (dequeuePos q))
             (<[t := E_data x (enqueuePos q)]> ts)) (items ++ [x]) dl.
Proof.
  intros H Ht Hroom. pose proof (i_g _ _ _ H) as Hg. simpl in Hg.
  pose proof (i_t _ _ _ H _ _ Ht) as [_ [?|Hsq]]; [simpl in *; lia|].
  pose proof (g_enq _ _ Hg). pose proof (g_deq _ _ Hg).
  assert (enqueuePos q < dequeuePos q + capacity q) as Hfree.
  { pose proof (g_bounds _ _ Hg). destruct Hsq as (y & Hy).
    destruct (g_at _ _ (enqueuePos q) Hg) as (n & Hn & Hs). simpl in Hy. rewrite Hn in Hy.
    injection Hy as ->. destruct Hs as [[? _]|(z & Ez & _ & Hm & _)]; simpl in *; [lia|].
    rewrite Ez in Hm. exfalso. by apply (succ_slot (capacity q) z); [lia|symmetry]. }
  assert (forall z y, items !! z = Some y -> (items ++ [x]) !! z = Some y) as Hpre.
  { intros z y Hy. by apply lookup_app_l_Some. }
  eapply inv_update; [exact H|exact Ht|..].
  - destruct Hg as [? ? ? ? ? ? ? ? Hsl]. split; cbn; try done; try lia.
    { rewrite length_app. simpl. lia. }
    intros i Hi. destruct (Hsl i Hi) as (n & Hn & Hs). exists n. split; [done|].
    destruct Hs as [?|(z & ? & ? & ? & Hz)]; [by left|right].
    exists z. cbn. split_and!; [done|lia|lia|done|]. auto.
  - cbn. split_and!; [lia|lia| |exact Hsq].
    rewrite lookup_app_r by lia. by replace (_ - _)%nat with 0%nat by lia.
  - intros t' p'' _ Ht'. pose proof (i_t _ _ _ H _ _ Ht') as Hok. simpl in Hok.
    destruct p''; cbn in *; unfold seq_at in *; naive_solver (eauto; lia).
  - intros z [= <-]. right. intros t' p'' Ht' T.
    pose proof (i_t _ _ _ H _ _ Ht') as Hok. destruct p''; simplify_eq/=; lia.
  - done.
  - intros t' p'' z _. by eapply (i_fresh _ _ _ H).
  - apply (i_nodup _ _ _ H).
  - intros z y Hz. apply (i_log _ _ _ H) in Hz as [? ?]. auto.
Qed.

(** Claiming a dequeue ticket. *)
Lemma inv_take q ts items dl t r :
  inv (mkSys q ts) items dl -> ts !! t = Some (D_cas r (dequeuePos q)) ->
  inv (mkSys (with_pos q (enqueuePos q) (dequeuePos q + 1))
             (<[t := D_data (dequeuePos q)]> ts)) items dl.
Proof.
  intros H Ht. pose proof (i_g _ _ _ H) as Hg. simpl in Hg.
  pose proof (i_t _ _ _ H _ _ Ht) as [_ [?|(y & Hy)]]; [simpl in *; lia|]. simpl in Hy.
  pose proof (g_enq _ _ Hg). pose proof (g_deq _ _ Hg). pose proof (g_bounds _ _ Hg).
  set (d := dequeuePos q) in *.
  assert (d < enqueuePos q /\ items !! Z.to_nat d = Some y) as [Hlt Hit].
  { destruct (g_at _ _ d Hg) as (n & Hn & Hs). rewrite Hn in Hy. injection Hy as ->.
    destruct Hs as [[_ Hm]|(z & Ez & Hr & Hm & Hz)]; simpl in *.
    - exfalso. by apply (succ_slot (capacity q) d); [lia|].
    - assert (z = d) as -> by lia. split; [lia|]. apply Hz. lia. }
  eapply inv_update; [exact H|exact Ht|..].
  - destruct Hg as [? ? ? ? ? ? ? ? Hsl]. split; cbn; try done; try lia.
    intros i Hi. destruct (Hsl i Hi) as (n & Hn & Hs). exists n. split; [done|].
    destruct Hs as [?|(z & ? & ? & ? & Hz)]; [left; cbn; lia|right].
    exists z. cbn. split_and!; [done|lia|lia|done|]. intros. apply Hz. lia.
  - cbn. split; [lia|]. exists y. split; [done|exact Hy].
  - intros t' p'' _ Ht'. pose proof (i_t _ _ _ H _ _ Ht') as Hok. simpl in Hok.
    destruct p''; cbn in *; unfold seq_at in *; naive_solver (eauto; lia).
  - done.
  - intros z [= <-]. split; [right|].
    + intros t' p'' Ht' T. pose proof (i_t _ _ _ H _ _ Ht') as Hok.
      destruct p''; simplify_eq/=; lia.
    + intros (zx & E & Hin)%list_elem_of_fmap. destruct zx as [z0 x0]. simpl in E. subst z0.
      apply (i_log _ _ _ H) in Hin as [? _]. simpl in *. lia.
  - intros t' p'' z _. by eapply (i_fresh _ _ _ H).
  - apply (i_nodup _ _ _ H).
  - intros z x Hz. apply (i_log _ _ _ H) in Hz as [? ?]. simpl in *. split; [cbn; lia|done].
Qed.

(** Publishing: the data, then the sequence number. *)
Lemma inv_enq_data q ts items dl t x pos :
  inv (mkSys q ts) items dl -> ts !! t = Some (E_data x pos) ->
  inv (mkSys (set_data q pos x) (<[t := E_pub x pos]> ts)) items dl.
Proof.
  intros H Ht. pose proof (i_g _ _ _ H) as Hg. simpl in Hg.
  destruct (i_t _ _ _ H _ _ Ht) as (Hr & Hi & y & Hy). simpl in *.
  pose proof (g_small _ _ Hg). pose proof (g_bounds _ _ Hg). pose proof (g_deq _ _ Hg).
  eapply (inv_write q ts items dl t _ pos (fun n => mkNode (sequence n) x));
    [exact H|exact Ht|done|lia| | | |by intros z|by intros z].
  - intros n Hn. rewrite Hy in Hn. injection Hn as <-. simpl.
    destruct (g_at _ _ pos Hg) as (n & Hn & Hs). rewrite Hy in Hn. injection Hn as <-.
    destruct Hs as [Hs|(z & Ez & ? & Hm & _)]; [by left|simpl in Ez].
    subst pos. exfalso. by apply (succ_slot (capacity q) z); [lia|symmetry].
  - intros z n _ _. simpl. auto.
  - simpl. split_and!; try lia; [done|].
    pose proof (at_upd q items pos (fun n => mkNode (sequence n) x) pos Hg ltac:(lia)) as Ea.
    unfold upd_slot in Ea. rewrite decide_True, Hy in Ea by done. exact Ea.
Qed.

Lemma inv_enq_pub q ts items dl t x pos :
  inv (mkSys q ts) items dl -> ts !! t = Some (E_pub x pos) ->
  inv (mkSys (set_seq q pos (u64 (pos + 1))) (<[t := E_cnt]> ts)) items dl.
Proof.
  intros H Ht. pose proof (i_g _ _ _ H) as Hg. simpl in Hg.
  destruct (i_t _ _ _ H _ _ Ht) as (Hr & Hi & Hy). simpl in *.
  pose proof (g_small _ _ Hg). pose proof (g_bounds _ _ Hg). pose proof (g_deq _ _ Hg).
  rewrite wrapu_small by lia.
  eapply (inv_write q ts items dl t _ pos (fun n => mkNode (pos + 1) (data n)));
    [exact H|exact Ht|done|lia| | |done|by intros z|by intros z].
  - intros n Hn. rewrite Hy in Hn. injection Hn as <-. right. exists pos.
    split_and!; try done; lia.
  - intros z n Hn Em. unfold at_pos in Hn, Hy. rewrite Em, Hy in Hn. injection Hn as <-. simpl.
    split; [intros <-; left; lia|]. intros E. exfalso. rewrite E in Em.
    by apply (succ_slot (capacity q) z); [lia|].
Qed.

(** Releasing a slot: nil the data, then move the sequence to the next lap. *)
Lemma inv_deq_nil q ts items dl t x pos :
  inv (mkSys q ts) items dl -> ts !! t = Some (D_nil pos x) ->
  inv (mkSys (set_data q pos None) (<[t := D_pub pos x]> ts)) items dl.
Proof.
  intros H Ht. pose proof (i_g _ _ _ H) as Hg. simpl in Hg.
  destruct (i_t _ _ _ H _ _ Ht) as (Hr & Hi & y & Hy). simpl in *.
  pose proof (g_small _ _ Hg). pose proof (g_bounds _ _ Hg). pose proof (g_deq _ _ Hg).
  eapply (inv_write q ts items dl t _ pos (fun n => mkNode (sequence n) None));
    [exact H|exact Ht|done|lia| | | |by intros z|by intros z].
  - intros n Hn. rewrite Hy in Hn. injection Hn as <-. right. exists pos. simpl.
    split_and!; try done; lia.
  - intros z n _ _. simpl. auto.
  - simpl. split_and!; try lia; [done|]. exists None.
    pose proof (at_upd q items pos (fun n => mkNode (sequence n) None) pos Hg ltac:(lia)) as Ea.
    unfold upd_slot in Ea. rewrite decide_True, Hy in Ea by done. exact Ea.
Qed.

Lemma inv_deq_pub q ts items dl t x pos :
  inv (mkSys q ts) items dl -> ts !! t = Some (D_pub pos x) ->
  inv (mkSys (set_seq q pos (u64 (u64 (pos + mask q) + 1))) (<[t := D_cnt pos x]> ts)) items dl.
Proof.
  intros H Ht. pose proof (i_g _ _ _ H) as Hg. simpl in Hg.
  destruct (i_t _ _ _ H _ _ Ht) as (Hr & Hi & y & Hy). simpl in *.
  pose proof (g_small _ _ Hg). pose proof (g_bounds _ _ Hg). pose proof (g_deq _ _ Hg).
  rewrite (g_mask _ _ Hg), wrapu_add_l, wrapu_small by lia.
  replace (pos + (capacity q - 1) + 1) with (pos + capacity q) by lia.
  eapply (inv_write q ts items dl t _ pos (fun n => mkNode (pos + capacity q) (data n)));
    [exact H|exact Ht|done|lia| | |done|by intros z|by intros z].
  - intros n Hn. left. cbn. split; [lia|]. by rewrite lap_mod by lia.
  - intros z n Hn Em. unfold at_pos in Hn, Hy. rewrite Em, Hy in Hn. injection Hn as <-. simpl.
    split; [|intros E; left; lia]. intros E. exfalso. rewrite <-E in Em.
    by apply (succ_slot (capacity q) pos); [lia|].
Qed.

Lemma inv_deliver q ts items dl t x pos :
  inv (mkSys q ts) items dl -> ts !! t = Some (D_cnt pos x) ->
  inv (mkSys (addDequeue q) (<[t := D_ret x true]> ts)) items (dl ++ [(pos, x)]).
Proof.
  intros H Ht. pose proof (i_g _ _ _ H) as Hg. simpl in Hg.
  destruct (i_t _ _ _ H _ _ Ht) as (Hr & Hi). simpl in *.
  pose proof (i_fresh _ _ _ H _ _ pos Ht eq_refl) as Hfr.
  assert (same_view q (addDequeue q)) as Hv by done.
  eapply inv_update; [exact H|exact Ht|by eapply ginv_view|done| |done|done| | |].
  - intros t' p'' _ Ht'. eapply thread_ok_view; [done|]. by eapply (i_t _ _ _ H).
  - intros t' p'' z Hne Ht' T. rewrite fmap_app, not_elem_of_app. split.
    + by eapply (i_fresh _ _ _ H).
    + simpl. intros ->%list_elem_of_singleton. apply Hne.
      by eapply (i_d _ _ _ H t t' _ p'' pos Ht Ht').
  - rewrite fmap_app. apply list.NoDup_app. split_and!; [apply (i_nodup _ _ _ H)| |].
    + simpl. intros z Hz ->%list_elem_of_singleton. done.
    + apply NoDup_singleton.
  - intros z y [Hz|Hz%list_elem_of_singleton]%elem_of_app; [by apply (i_log _ _ _ H)|].
    by simplify_eq.
Qed.

Lemma tstep_inv q ts items dl t p q' p' l :
  inv (mkSys q ts) items dl -> ts !! t = Some p -> tstep q p = Some (q', p', l) ->
  Z.of_nat (length (items ++ claims l)) + capacity q < 2 ^ 63 ->
  inv (mkSys q' (<[t := p']> ts)) (items ++ claims l) (dl ++ deliveries l).
Proof.
  intros H Ht E Hroom. pose proof (i_g _ _ _ H) as Hg. simpl in Hg.
  pose proof (g_enq _ _ Hg) as He. pose proof (g_deq _ _ Hg). pose proof (g_small _ _ Hg).
  pose proof (g_bounds _ _ Hg). pose proof (i_t _ _ _ H _ _ Ht) as Hok. simpl in Hok.
  assert (forall q1 p1, inv (mkSys q1 (<[t := p1]> ts)) items dl ->
          Some (q1, p1, []) = Some (q', p', l) ->
          inv (mkSys q' (<[t := p']> ts)) (items ++ claims l) (dl ++ deliveries l)) as Hsilent.
  { intros q1 p1 Hi1 [= <- <- <-]. simpl. by rewrite !app_nil_r. }
  assert (forall q1 p1, same_view q q1 -> quiet p1 -> Some (q1, p1, []) = Some (q', p', l) ->
          inv (mkSys q' (<[t := p']> ts)) (items ++ claims l) (dl ++ deliveries l)) as Hquiet.
  { intros q1 p1 Hv Hq. apply Hsilent. by eapply inv_restart. }
  unfold tstep in E. destruct p; try done; cbn [enq_step deq_step] in E.
  - eapply Hsilent; [|exact E]. eapply inv_local; [exact H|exact Ht|done| |done|done]. simpl. lia.
  - destruct (enq_step q (E_seq x r pos)) as [[[q1 p1] l1]|] eqn:E1; cbn [enq_step] in E1;
      rewrite E1 in E; [|done].
    destruct (inv_enq_seq _ _ _ _ _ _ _ _ _ _ _ H Ht E1) as [Hi1 ->]. by eapply Hsilent.
  - unfold cas_enqueuePos in E. destruct (Z.eqb_spec (enqueuePos q) pos) as [<-|].
    + injection E as <- <- <-. simpl. rewrite app_nil_r, wrapu_small by lia.
      apply (inv_claim _ _ _ _ _ _ r); [done|done|].
      rewrite length_app in Hroom. simpl in Hroom. lia.
    + by eapply Hquiet; [| |exact E].
  - by eapply Hquiet; [| |exact E].
  - eapply Hsilent; [|exact E]. by apply inv_enq_data.
  - eapply Hsilent; [|exact E]. by apply inv_enq_pub with x.
  - by eapply Hquiet; [| |exact E].
  - eapply Hsilent; [|exact E]. eapply inv_local; [exact H|exact Ht|done| |done|done]. simpl. lia.
  - destruct (deq_step q (D_seq r pos)) as [[[q1 p1] l1]|] eqn:E1; cbn [deq_step] in E1;
      rewrite E1 in E; [|done].
    destruct (inv_deq_seq _ _ _ _ _ _ _ _ _ _ H Ht E1) as [Hi1 ->]. by eapply Hsilent.
  - unfold cas_dequeuePos in E. destruct (Z.eqb_spec (dequeuePos q) pos) as [<-|].
    + eapply Hsilent; [|exact E]. rewrite wrapu_small by lia. by apply (inv_take _ _ _ _ _ r).
    + by eapply Hquiet; [| |exact E].
  - destruct Hok as (Hr & y & Hi & Hy). rewrite (g_slot_at _ _ _ Hg) in E by lia.
    unfold at_pos in Hy. rewrite Hy in E. eapply Hsilent; [|exact E].
    eapply inv_local; [exact H|exact Ht|done| |done|done].
    simpl. split_and!; try lia; [done|]. by exists y.
  - eapply Hsilent; [|exact E]. by apply inv_deq_nil.
  - eapply Hsilent; [|exact E]. by apply inv_deq_pub.
  - injection E as <- <- <-. simpl. rewrite app_nil_r. by apply inv_deliver.
Qed.

Lemma claims_app (tr l : list (label A)) : claims (tr ++ l) = claims tr ++ claims l.
Proof. apply omap_app. Qed.
Lemma deliveries_app (tr l : list (label A)) : deliveries (tr ++ l) = deliveries tr ++ deliveries l.
Proof. apply omap_app. Qed.

Lemma step_inv s l s' items dl :
  inv s items dl -> step s l s' ->
  Z.of_nat (length (items ++ claims l)) + capacity (shared s) < 2 ^ 63 ->
  inv s' (items ++ claims l) (dl ++ deliveries l).
Proof.
  intros H Hs Hroom. destruct Hs; simpl in *; rewrite ?app_nil_r; try by eapply inv_restart.
  by eapply tstep_inv.
Qed.

Lemma step_capacity (s : sys A) l s' : step s l s' -> capacity (shared s') = capacity (shared s).
Proof.
  destruct 1 as [| |q ts t p q' p' l Ht E| |]; simpl; try done.
  unfold tstep in E. destruct p; cbn [enq_step deq_step] in E;
    unfold cas_enqueuePos, cas_dequeuePos in E; crush.
Qed.

Lemma init_inv nm c policy n q :
  2 <= c <= 2 ^ 62 -> policy <> DropOldest -> NewLockFreeQueue nm c policy = Ret q ->
  inv (mkSys q (replicate n Idle)) [] [].
Proof.
  intros Hc Hp E. pose proof (NewLockFreeQueue_rep _ _ _ _ Hc E) as H.
  destruct (NewLockFreeQueue_total (A:=A) nm c policy) as (q0 & E0 & _ & Ep & _); [lia|].
  rewrite E0 in E. injection E as ->. pose proof (rep_cap_bounds _ _ _ H).
  pose proof (rep_deq _ _ _ H) as Hd. pose proof (rep_enq _ _ _ H) as He.
  change (u64 0) with 0 in Hd. change (u64 (0 + Z.of_nat (length []))) with 0 in He.
  split; simpl.
  - split; [apply H|apply H|apply H|congruence|done|lia|lia|lia|].
    intros i Hi. pose proof (rep_slots _ _ _ H i ltac:(lia)) as Hs.
    rewrite Z.mod_small in Hs by lia. exists (mkNode (u64 i) None). split; [exact Hs|].
    left. simpl. rewrite wrapu_small, Z.mod_small by lia. lia.
  - intros t p Ht. apply lookup_replicate in Ht as [-> _]. done.
  - intros t t' p p' z Ht _ T. apply lookup_replicate in Ht as [-> _]. done.
  - intros t t' p p' z Ht _ T. apply lookup_replicate in Ht as [-> _]. done.
  - constructor.
  - intros z x Hz. by apply elem_of_nil in Hz.
  - intros t p z Ht T. apply lookup_replicate in Ht as [-> _]. done.
Qed.

Lemma reach_inv nm c policy n tr s :
  2 <= c <= 2 ^ 62 -> policy <> DropOldest -> reach (A:=A) nm c policy n tr s ->
  capacity (shared s) = 2 ^ Z.log2_up c
  /\ (Z.of_nat (length (claims tr)) + 2 ^ Z.log2_up c < 2 ^ 63 ->
      inv s (claims tr) (deliveries tr)).
Proof.
  intros Hc Hp. induction 1 as [q E|tr s l s' Hr [IHc IH] Hs].
  - destruct (NewLockFreeQueue_total (A:=A) nm c policy) as (q0 & E0 & Ec & _); [lia|].
    rewrite E0 in E. injection E as ->. split; [done|]. intros _. by eapply init_inv.
  - split; [by rewrite (step_capacity _ _ _ Hs)|]. intros Hsm.
    rewrite claims_app, deliveries_app. rewrite claims_app in Hsm.
    eapply step_inv; [apply IH|done|by rewrite IHc].
    rewrite length_app in Hsm. lia.
Qed.

End inv.

(** ** Properties *)

(** C1: linearization of the concurrent queue.  In every interleaving of any
    number of enqueuers and dequeuers on a [DropNewest] or [Block] queue, a
    dequeue that returns the ticket [z] returns exactly the item of the [z]-th
    successful claim, and no ticket is returned twice: nothing is lost in
    transit, duplicated, invented or reordered.  The number of claims is
    bounded so that the 64-bit counters do not wrap. *)
Theorem concurrent_queue_fifo {A} nm c policy n tr (s : sys A) :
  2 <= c <= 2 ^ 62 -> policy <> DropOldest -> reach nm c policy n tr s ->
  Z.of_nat (length (claims tr)) + 2 ^ Z.log2_up c < 2 ^ 63 ->
  NoDup (deliveries tr).*1
  /\ forall z x, (z, x) ∈ deliveries tr ->
       0 <= z /\ claims tr !! Z.to_nat z = Some x.
Proof.
  intros Hc Hp Hr Hsm. destruct (reach_inv _ _ _ _ _ _ Hc Hp Hr) as [_ H].
  specialize (H Hsm). split; [apply H|]. intros z x Hz.
  apply (i_log _ _ _ H) in Hz. split; [lia|apply Hz].
Qed.

(** A run of two goroutines in which the enqueues overlap: both read ticket 0,
    the slower one retries, publishes ticket 1 first, and a dequeuer takes
    both items in ticket order. *)
Definition overlap_schedule : list (nat * call nat) :=
  [(0, CEnq (Some 7)); (1, CEnq (Some 8)); (0, CDeq); (1, CDeq); (0, CDeq); (1, CDeq);
   (0, CDeq); (1, CDeq); (1, CDeq); (1, CDeq); (1, CDeq);
   (1, CDeq); (1, CDeq); (1, CDeq); (1, CDeq); (0, CDeq); (0, CDeq); (0, CDeq); (0, CDeq);
   (0, CDeq); (0, CDeq); (0, CDeq); (0, CDeq); (0, CDeq); (0, CDeq); (0, CDeq); (0, CDeq);
   (0, CDeq); (0, CDeq); (0, CDeq); (0, CDeq); (0, CDeq); (0, CDeq); (0, CDeq); (0, CDeq); (0, CDeq)]%nat.

Definition fresh_two : sys nat :=
  mkSys (mkQueue 1 [mkNode 0 None; mkNode 1 None] 0 0 0 0 0 "w" 2 Block) [Idle; Idle].

Definition overlap_trace : list (label nat) :=
  match sched_run fresh_two overlap_schedule with Some (_, tr) => tr | None => [] end.
Definition overlap_end : sys nat :=
  match sched_run fresh_two overlap_schedule with Some (s, _) => s | None => fresh_two end.

Lemma overlap_reach : reach "w" 2 Block 2 overlap_trace overlap_end.
Proof.
  change overlap_trace with ([] ++ overlap_trace).
  eapply (sched_run_reach _ _ _ _ overlap_schedule []).
  - apply (reach_init "w" 2 Block 2 (shared fresh_two)). reflexivity.
  - vm_compute. reflexivity.
Qed.

Lemma concurrent_queue_fifo_witness :
  NoDup (deliveries overlap_trace).*1
  /\ forall z x, (z, x) ∈ deliveries overlap_trace ->
       0 <= z /\ claims overlap_trace !! Z.to_nat z = Some x.
Proof.
  apply (concurrent_queue_fifo "w" 2 Block 2 overlap_trace overlap_end).
  - lia.
  - discriminate.
  - exact overlap_reach.
  - reflexivity.
Defined.

(** In every interleaving the tickets in flight fit the ring: claimed
    enqueue tickets never run ahead of claimed dequeue tickets by more than
    the capacity, and dequeue tickets never run ahead of enqueue tickets. *)
Theorem concurrent_queue_bounded {A} nm c policy n tr (s : sys A) :
  2 <= c <= 2 ^ 62 -> policy <> DropOldest -> reach nm c policy n tr s ->
  Z.of_nat (length (claims tr)) + 2 ^ Z.log2_up c < 2 ^ 63 ->
  enqueuePos (shared s) = Z.of_nat (length (claims tr))
  /\ 0 <= Size (shared s) <= 2 ^ Z.log2_up c.
Proof.
  intros Hc Hp Hr Hsm. destruct (reach_inv _ _ _ _ _ _ Hc Hp Hr) as [Hcap H].
  pose proof (i_g _ _ _ (H Hsm)) as Hg. split; [apply Hg|].
  pose proof (g_deq _ _ Hg). pose proof (g_room _ _ Hg). pose proof (g_bounds _ _ Hg).
  unfold Size. rewrite wrapu_small, wraps_small; lia.
Qed.

Lemma concurrent_queue_bounded_witness :
  enqueuePos (shared overlap_end) = Z.of_nat (length (claims overlap_trace))
  /\ 0 <= Size (shared overlap_end) <= 2 ^ Z.log2_up 2.
Proof.
  apply (concurrent_queue_bounded "w" 2 Block 2 overlap_trace overlap_end).
  - lia.
  - discriminate.
  - exact overlap_reach.
  - reflexivity.
Defined.

End QueueConcInv.
