(* ===== verification/Types.v ===== *)
(** * Messages, batches and errors of [src/pkg/types]

    [PortaskMessage] and its methods ([message.go]), [MessageBatch], and the
    structured errors of [errors.go].  The clock is an argument [now]
    (nanoseconds); a [time.Time] is [None] when it is the zero time.  A [nil]
    Go map is [None]. *)
From stdpp Require Import base gmap strings list numbers fin_maps pretty.
From Stdlib Require Import ZArith Lia.
From S2P Require Import Prelude.

Module Types.

Abbreviation MessageID := string.
Abbreviation TopicName := string.
Abbreviation ConsumerID := string.

Definition PriorityLow : Z := 1.
Definition PriorityNormal : Z := 5.
Definition PriorityHigh : Z := 9.

Inductive MessageStatus :=
| StatusPending | StatusProcessing | StatusAcknowledged | StatusFailed | StatusExpired.

(** The dynamic values a header can carry, as [estimateValueSize] tells them apart. *)
Inductive GoValue :=
| VString (s : string)
| VBytes (b : bytes)
| VInt (z : Z)
| VUint (z : Z)
| VFloat32
| VFloat64
| VBool (b : bool)
| VOther.

Record internal := mkInternal {
  ReceivedAt : option Z;
  ProcessedAt : option Z;
  AcknowledgedAt : option Z;
  SizeCache : Z;
  CompressedSize : Z;
  SerializedData : option bytes
}.

Record PortaskMessage := mkMessage {
  ID : MessageID;
  Topic : TopicName;
  Payload : bytes;
  Timestamp : Z;
  Headers : option (gmap string GoValue);
  Metadata : option (gmap string string);
  Priority : Z;
  Status : MessageStatus;
  Partition : Z;
  Key : string;
  PartitionKey : string;
  ReplyTo : TopicName;
  ExpiresAt : Z;
  TTL : Z;
  Offset : Z;
  Attempts : Z;
  MaxRetry : Z;
  CorrelationID : string;
  TraceID : string;
  _internal : internal
}.

Definition zero_internal : internal := mkInternal None None None 0 0 None.

(** The zero value of the struct. *)
Definition zero_message : PortaskMessage :=
  mkMessage "" "" [] 0 None None 0 StatusPending 0 "" "" "" 0 0 0 0 0 "" "" zero_internal.

(** Field assignments [m.F = v] of the source. *)
Definition set_Headers (h : option (gmap string GoValue)) (m : PortaskMessage) : PortaskMessage :=
  mkMessage (ID m) (Topic m) (Payload m) (Timestamp m) h (Metadata m) (Priority m) (Status m)
    (Partition m) (Key m) (PartitionKey m) (ReplyTo m) (ExpiresAt m) (TTL m) (Offset m)
    (Attempts m) (MaxRetry m) (CorrelationID m) (TraceID m) (_internal m).
Definition set_Priority (p : Z) (m : PortaskMessage) : PortaskMessage :=
  mkMessage (ID m) (Topic m) (Payload m) (Timestamp m) (Headers m) (Metadata m) p (Status m)
    (Partition m) (Key m) (PartitionKey m) (ReplyTo m) (ExpiresAt m) (TTL m) (Offset m)
    (Attempts m) (MaxRetry m) (CorrelationID m) (TraceID m) (_internal m).
Definition set_Status (st : MessageStatus) (m : PortaskMessage) : PortaskMessage :=
  mkMessage (ID m) (Topic m) (Payload m) (Timestamp m) (Headers m) (Metadata m) (Priority m) st
    (Partition m) (Key m) (PartitionKey m) (ReplyTo m) (ExpiresAt m) (TTL m) (Offset m)
    (Attempts m) (MaxRetry m) (CorrelationID m) (TraceID m) (_internal m).
Definition set_routing (pk : string) (rt : TopicName) (cid tid : string) (m : PortaskMessage)
  : PortaskMessage :=
  mkMessage (ID m) (Topic m) (Payload m) (Timestamp m) (Headers m) (Metadata m) (Priority m)
    (Status m) (Partition m) (Key m) pk rt (ExpiresAt m) (TTL m) (Offset m)
    (Attempts m) (MaxRetry m) cid tid (_internal m).
Definition set_expiry (expires ttl : Z) (m : PortaskMessage) : PortaskMessage :=
  mkMessage (ID m) (Topic m) (Payload m) (Timestamp m) (Headers m) (Metadata m) (Priority m)
    (Status m) (Partition m) (Key m) (PartitionKey m) (ReplyTo m) expires ttl (Offset m)
    (Attempts m) (MaxRetry m) (CorrelationID m) (TraceID m) (_internal m).
Definition set_Offset (o : Z) (m : PortaskMessage) : PortaskMessage :=
  mkMessage (ID m) (Topic m) (Payload m) (Timestamp m) (Headers m) (Metadata m) (Priority m)
    (Status m) (Partition m) (Key m) (PartitionKey m) (ReplyTo m) (ExpiresAt m) (TTL m) o
    (Attempts m) (MaxRetry m) (CorrelationID m) (TraceID m) (_internal m).
Definition set_Attempts (a : Z) (m : PortaskMessage) : PortaskMessage :=
  mkMessage (ID m) (Topic m) (Payload m) (Timestamp m) (Headers m) (Metadata m) (Priority m)
    (Status m) (Partition m) (Key m) (PartitionKey m) (ReplyTo m) (ExpiresAt m) (TTL m) (Offset m)
    a (MaxRetry m) (CorrelationID m) (TraceID m) (_internal m).
Definition set_internal (i : internal) (m : PortaskMessage) : PortaskMessage :=
  mkMessage (ID m) (Topic m) (Payload m) (Timestamp m) (Headers m) (Metadata m) (Priority m)
    (Status m) (Partition m) (Key m) (PartitionKey m) (ReplyTo m) (ExpiresAt m) (TTL m) (Offset m)
    (Attempts m) (MaxRetry m) (CorrelationID m) (TraceID m) i.

Definition hour : Z := 3600000000000.

(** [NewMessage]; the generated identifier and the clock are inputs. *)
Definition NewMessage (id : MessageID) (now : Z) (topic : TopicName) (payload : bytes)
  : PortaskMessage :=
  mkMessage id topic payload now (Some ∅) None PriorityNormal StatusPending 0 "" "" ""
    0 (24 * hour) 0 0 0 "" "" zero_internal.

Definition WithHeader (key : string) (v : GoValue) (m : PortaskMessage) : PortaskMessage :=
  let m := match Headers m with None => set_Headers (Some ∅) m | Some _ => m end in
  match Headers m with
  | None => m
  | Some h => set_Headers (Some (<[key := v]> h)) m
  end.

Definition WithPriority (p : Z) (m : PortaskMessage) : PortaskMessage := set_Priority p m.

Definition WithTTL (ttl : Z) (m : PortaskMessage) : PortaskMessage :=
  set_expiry (s64 (Timestamp m + ttl)) ttl m.

Definition WithPartitionKey (key : string) (m : PortaskMessage) : PortaskMessage :=
  set_routing key (ReplyTo m) (CorrelationID m) (TraceID m) m.
Definition WithReplyTo (topic : TopicName) (m : PortaskMessage) : PortaskMessage :=
  set_routing (PartitionKey m) topic (CorrelationID m) (TraceID m) m.
Definition WithCorrelationID (id : string) (m : PortaskMessage) : PortaskMessage :=
  set_routing (PartitionKey m) (ReplyTo m) id (TraceID m) m.
Definition WithTraceID (id : string) (m : PortaskMessage) : PortaskMessage :=
  set_routing (PartitionKey m) (ReplyTo m) (CorrelationID m) id m.

(** [delete(h, k)] for every key of the map: the same map object, emptied. *)
Definition clear_map {V} (h : gmap string V) : gmap string V :=
  map_fold (fun k _ acc => delete k acc) h h.

Definition Reset (m : PortaskMessage) : PortaskMessage :=
  let headers := match Headers m with None => ∅ | Some h => clear_map h end in
  let metadata := match Metadata m with None => ∅ | Some h => clear_map h end in
  mkMessage "" "" (take 0 (Payload m)) 0 (Some headers) (Some metadata)
    PriorityNormal StatusPending 0 "" "" "" 0 0 0 0 0 "" ""
    (mkInternal None None None 0 0 None).

Definition IsExpired (now : Z) (m : PortaskMessage) : bool :=
  if ExpiresAt m =? 0 then false else now >? ExpiresAt m.

Definition CanRetry (m : PortaskMessage) : bool := Attempts m <? MaxRetry m.

Definition IncrementAttempts (m : PortaskMessage) : PortaskMessage :=
  set_Attempts (u8 (Attempts m + 1)) m.

Definition GetHeader (key : string) (m : PortaskMessage) : option GoValue :=
  match Headers m with None => None | Some h => h !! key end.

Definition GetStringHeader (key : string) (m : PortaskMessage) : string * bool :=
  match GetHeader key m with
  | Some (VString s) => (s, true)
  | _ => ("", false)
  end.

Definition slen (s : string) : Z := Z.of_nat (String.length s).

Definition estimateValueSize (v : GoValue) : Z :=
  match v with
  | VString s => slen s
  | VBytes b => Z.of_nat (length b)
  | VInt _ => 8
  | VUint _ => 8
  | VFloat32 => 4
  | VFloat64 => 8
  | VBool _ => 1
  | VOther => 16
  end.

(** The estimate [GetSize] computes when nothing is cached. *)
Definition estimate (m : PortaskMessage) : Z :=
  let size := Z.of_nat (length (Payload m)) + slen (ID m) + slen (Topic m)
              + slen (PartitionKey m) + slen (ReplyTo m) + slen (CorrelationID m)
              + slen (TraceID m) in
  let size := match Headers m with
              | None => size
              | Some h => map_fold (fun k v acc => acc + (slen k + estimateValueSize v)) size h
              end in
  size + 128.

(** [GetSize] returns the cached size or computes and caches it. *)
Definition GetSize (m : PortaskMessage) : PortaskMessage * Z :=
  let i := _internal m in
  if SizeCache i >? 0 then (m, SizeCache i) else
  let size := estimate m in
  (set_internal (mkInternal (ReceivedAt i) (ProcessedAt i) (AcknowledgedAt i) size
                   (CompressedSize i) (SerializedData i)) m, size).

Definition GetCompressedSize (m : PortaskMessage) : Z := CompressedSize (_internal m).
Definition SetCompressedSize (size : Z) (m : PortaskMessage) : PortaskMessage :=
  let i := _internal m in
  set_internal (mkInternal (ReceivedAt i) (ProcessedAt i) (AcknowledgedAt i) (SizeCache i)
                  size (SerializedData i)) m.
Definition SetSerializedData (data : option bytes) (m : PortaskMessage) : PortaskMessage :=
  let i := _internal m in
  set_internal (mkInternal (ReceivedAt i) (ProcessedAt i) (AcknowledgedAt i) (SizeCache i)
                  (CompressedSize i) data) m.
Definition GetSerializedData (m : PortaskMessage) : option bytes := SerializedData (_internal m).
Definition ClearSerializedData (m : PortaskMessage) : PortaskMessage := SetSerializedData None m.

Definition markReceived (now : Z) (m : PortaskMessage) : PortaskMessage :=
  let i := _internal m in
  set_internal (mkInternal (Some now) (ProcessedAt i) (AcknowledgedAt i) (SizeCache i)
                  (CompressedSize i) (SerializedData i)) m.
Definition markProcessed (now : Z) (m : PortaskMessage) : PortaskMessage :=
  let i := _internal m in
  set_Status StatusProcessing
    (set_internal (mkInternal (ReceivedAt i) (Some now) (AcknowledgedAt i) (SizeCache i)
                     (CompressedSize i) (SerializedData i)) m).
Definition markAcknowledged (now : Z) (m : PortaskMessage) : PortaskMessage :=
  let i := _internal m in
  set_Status StatusAcknowledged
    (set_internal (mkInternal (ReceivedAt i) (ProcessedAt i) (Some now) (SizeCache i)
                     (CompressedSize i) (SerializedData i)) m).
Definition markFailed (m : PortaskMessage) : PortaskMessage := set_Status StatusFailed m.

Definition elapsed (a b : option Z) : Z :=
  match a, b with Some a, Some b => b - a | _, _ => 0 end.
Definition GetProcessingTime (m : PortaskMessage) : Z :=
  elapsed (ReceivedAt (_internal m)) (ProcessedAt (_internal m)).
Definition GetTotalTime (m : PortaskMessage) : Z :=
  elapsed (ReceivedAt (_internal m)) (AcknowledgedAt (_internal m)).

(** ** Batches *)

Record MessageBatch := mkBatch {
  Messages : list PortaskMessage;
  BatchID : string;
  CreatedAt : Z;
  TotalSize : Z;
  b_CompressedSize : Z;
  b_SerializedData : option bytes
}.

Definition NewMessageBatch (id : string) (now : Z) (ms : list PortaskMessage) : MessageBatch :=
  mkBatch ms id now 0 0 None.

Definition Add (message : PortaskMessage) (b : MessageBatch) : MessageBatch :=
  let '(message, size) := GetSize message in
  mkBatch (Messages b ++ [message]) (BatchID b) (CreatedAt b) (TotalSize b + size)
    (b_CompressedSize b) (b_SerializedData b).

Definition Len (b : MessageBatch) : Z := Z.of_nat (length (Messages b)).

(** The loop over the messages also fills their size caches. *)
Definition GetTotalSize (b : MessageBatch) : MessageBatch * Z :=
  if TotalSize b >? 0 then (b, TotalSize b) else
  let ms := fst <$> (GetSize <$> Messages b) in
  let total := foldr Z.add 0 (snd <$> (GetSize <$> Messages b)) in
  (mkBatch ms (BatchID b) (CreatedAt b) total (b_CompressedSize b) (b_SerializedData b), total).

Definition Batch_GetCompressedSize (b : MessageBatch) : Z := b_CompressedSize b.
Definition Batch_SetCompressedSize (size : Z) (b : MessageBatch) : MessageBatch :=
  mkBatch (Messages b) (BatchID b) (CreatedAt b) (TotalSize b) size (b_SerializedData b).

(** ** Errors *)

Inductive ErrorCode :=
| ErrCodeInvalidMessage | ErrCodeMessageExpired | ErrCodeMessageTooLarge
| ErrCodeMessageNotFound | ErrCodeDuplicateMessage
| ErrCodeTopicNotFound | ErrCodeTopicExists | ErrCodeInvalidTopic | ErrCodePartitionNotFound
| ErrCodeConsumerNotFound | ErrCodeConsumerExists | ErrCodeInvalidConsumer | ErrCodeConsumerTimeout
| ErrCodeStorageError | ErrCodeStorageTimeout | ErrCodeStorageFull | ErrCodeStorageCorrupted
| ErrCodeNetworkError | ErrCodeConnectionLost | ErrCodeTimeout | ErrCodeInvalidProtocol
| ErrCodeSerializationError | ErrCodeDeserializationError
| ErrCodeCompressionError | ErrCodeDecompressionError
| ErrCodeInvalidConfig | ErrCodeConfigNotFound
| ErrCodeUnauthorized | ErrCodeForbidden | ErrCodeInvalidCredentials
| ErrCodeSystemError | ErrCodeMemoryError | ErrCodeResourceExhausted
| ErrCodeInvalidULID | ErrCodeInvalidID.

#[export] Instance ErrorCode_eq_dec : EqDecision ErrorCode.
Proof. solve_decision. Defined.

Definition code_string (c : ErrorCode) : string :=
  match c with
  | ErrCodeInvalidMessage => "INVALID_MESSAGE"
  | ErrCodeMessageExpired => "MESSAGE_EXPIRED"
  | ErrCodeMessageTooLarge => "MESSAGE_TOO_LARGE"
  | ErrCodeMessageNotFound => "MESSAGE_NOT_FOUND"
  | ErrCodeDuplicateMessage => "DUPLICATE_MESSAGE"
  | ErrCodeTopicNotFound => "TOPIC_NOT_FOUND"
  | ErrCodeTopicExists => "TOPIC_EXISTS"
  | ErrCodeInvalidTopic => "INVALID_TOPIC"
  | ErrCodePartitionNotFound => "PARTITION_NOT_FOUND"
  | ErrCodeConsumerNotFound => "CONSUMER_NOT_FOUND"
  | ErrCodeConsumerExists => "CONSUMER_EXISTS"
  | ErrCodeInvalidConsumer => "INVALID_CONSUMER"
  | ErrCodeConsumerTimeout => "CONSUMER_TIMEOUT"
  | ErrCodeStorageError => "STORAGE_ERROR"
  | ErrCodeStorageTimeout => "STORAGE_TIMEOUT"
  | ErrCodeStorageFull => "STORAGE_FULL"
  | ErrCodeStorageCorrupted => "STORAGE_CORRUPTED"
  | ErrCodeNetworkError => "NETWORK_ERROR"
  | ErrCodeConnectionLost => "CONNECTION_LOST"
  | ErrCodeTimeout => "TIMEOUT"
  | ErrCodeInvalidProtocol => "INVALID_PROTOCOL"
  | ErrCodeSerializationError => "SERIALIZATION_ERROR"
  | ErrCodeDeserializationError => "DESERIALIZATION_ERROR"
  | ErrCodeCompressionError => "COMPRESSION_ERROR"
  | ErrCodeDecompressionError => "DECOMPRESSION_ERROR"
  | ErrCodeInvalidConfig => "INVALID_CONFIG"
  | ErrCodeConfigNotFound => "CONFIG_NOT_FOUND"
  | ErrCodeUnauthorized => "UNAUTHORIZED"
  | ErrCodeForbidden => "FORBIDDEN"
  | ErrCodeInvalidCredentials => "INVALID_CREDENTIALS"
  | ErrCodeSystemError => "SYSTEM_ERROR"
  | ErrCodeMemoryError => "MEMORY_ERROR"
  | ErrCodeResourceExhausted => "RESOURCE_EXHAUSTED"
  | ErrCodeInvalidULID => "INVALID_ULID"
  | ErrCodeInvalidID => "INVALID_ID"
  end.

(** [Cause] is the text of the wrapped error; the time stamp and the captured
    stack are diagnostics and left out. *)
Record PortaskError := mkError {
  Code : ErrorCode;
  Message : string;
  Details : gmap string GoValue;
  Cause : option string
}.

Definition NewPortaskError (code : ErrorCode) (message : string) : PortaskError :=
  mkError code message ∅ None.

Definition NewPortaskErrorWithCause (code : ErrorCode) (message : string) (cause : option string)
  : PortaskError :=
  let err := NewPortaskError code message in
  mkError (Code err) (Message err) (Details err) cause.

Definition WithDetail (key : string) (v : GoValue) (e : PortaskError) : PortaskError :=
  mkError (Code e) (Message e) (<[key := v]> (Details e)) (Cause e).

Definition Error (e : PortaskError) : string :=
  let head := "[" +:+ code_string (Code e) +:+ "] " +:+ Message e in
  match Cause e with
  | Some cause => head +:+ ": " +:+ cause
  | None => head
  end.

Definition Unwrap (e : PortaskError) : option string := Cause e.

Definition IsCode (code : ErrorCode) (e : PortaskError) : bool := bool_decide (Code e = code).

Definition IsRetryable (e : PortaskError) : bool :=
  match Code e with
  | ErrCodeStorageTimeout | ErrCodeNetworkError | ErrCodeConnectionLost | ErrCodeTimeout => true
  | _ => false
  end.

Definition IsPermanent (e : PortaskError) : bool :=
  match Code e with
  | ErrCodeInvalidMessage | ErrCodeInvalidTopic | ErrCodeInvalidConsumer
  | ErrCodeInvalidProtocol | ErrCodeInvalidConfig | ErrCodeUnauthorized
  | ErrCodeForbidden | ErrCodeInvalidCredentials | ErrCodeInvalidULID | ErrCodeInvalidID => true
  | _ => false
  end.

(** [Is] on a target that is a [PortaskError]; on any other error it is false. *)
Definition Is (target e : PortaskError) : bool := bool_decide (Code e = Code target).

Definition ErrInvalidMessage (details : string) : PortaskError :=
  WithDetail "details" (VString details) (NewPortaskError ErrCodeInvalidMessage "invalid message").
Definition ErrMessageExpired (messageID : MessageID) : PortaskError :=
  WithDetail "message_id" (VString messageID)
    (NewPortaskError ErrCodeMessageExpired "message has expired").
Definition ErrMessageTooLarge (size maxSize : Z) : PortaskError :=
  WithDetail "max_size" (VInt maxSize) (WithDetail "size" (VInt size)
    (NewPortaskError ErrCodeMessageTooLarge "message size exceeds limit")).
Definition ErrTopicNotFound (topic : TopicName) : PortaskError :=
  WithDetail "topic" (VString topic) (NewPortaskError ErrCodeTopicNotFound "topic not found").
Definition ErrConsumerNotFound (consumerID : ConsumerID) : PortaskError :=
  WithDetail "consumer_id" (VString consumerID)
    (NewPortaskError ErrCodeConsumerNotFound "consumer not found").
Definition ErrStorageError (operation : string) (cause : option string) : PortaskError :=
  NewPortaskErrorWithCause ErrCodeStorageError ("storage operation failed: " +:+ operation) cause.
Definition ErrSerializationError (format : string) (cause : option string) : PortaskError :=
  WithDetail "format" (VString format) (NewPortaskErrorWithCause ErrCodeSerializationError
    ("serialization failed for format: " +:+ format) cause).
Definition ErrDeserializationError (format : string) (cause : option string) : PortaskError :=
  WithDetail "format" (VString format) (NewPortaskErrorWithCause ErrCodeDeserializationError
    ("deserialization failed for format: " +:+ format) cause).
Definition ErrCompressionError (algorithm : string) (cause : option string) : PortaskError :=
  WithDetail "algorithm" (VString algorithm) (NewPortaskErrorWithCause ErrCodeCompressionError
    ("compression failed for algorithm: " +:+ algorithm) cause).
Definition ErrDecompressionError (algorithm : string) (cause : option string) : PortaskError :=
  WithDetail "algorithm" (VString algorithm) (NewPortaskErrorWithCause ErrCodeDecompressionError
    ("decompression failed for algorithm: " +:+ algorithm) cause).
Definition ErrNetworkError (operation : string) (cause : option string) : PortaskError :=
  WithDetail "operation" (VString operation) (NewPortaskErrorWithCause ErrCodeNetworkError
    ("network operation failed: " +:+ operation) cause).
(** The printed duration is an input. *)
Definition ErrTimeout (operation timeout : string) : PortaskError :=
  WithDetail "timeout" (VString timeout) (WithDetail "operation" (VString operation)
    (NewPortaskError ErrCodeTimeout ("operation timed out: " +:+ operation))).
Definition ErrUnauthorized (resource : string) : PortaskError :=
  WithDetail "resource" (VString resource) (NewPortaskError ErrCodeUnauthorized "access denied").
Definition ErrResourceExhausted (resource : string) (limit : GoValue) : PortaskError :=
  WithDetail "limit" limit (WithDetail "resource" (VString resource)
    (NewPortaskError ErrCodeResourceExhausted ("resource exhausted: " +:+ resource))).

(** ** Collecting errors (by their texts) *)

Definition ErrorCollector : Type := list string.
Definition NewErrorCollector : ErrorCollector := [].
Definition Collect (err : option string) (ec : ErrorCollector) : ErrorCollector :=
  match err with Some e => ec ++ [e] | None => ec end.
Definition HasErrors (ec : ErrorCollector) : bool := bool_decide (0 < Z.of_nat (length ec)).
Definition newline : string := String (Ascii.ascii_of_nat 10) EmptyString.
Definition Collector_Error (ec : ErrorCollector) : string :=
  match ec with
  | [] => ""
  | [e] => e
  | _ => foldl String.append ("multiple errors (" +:+ pretty (Z.of_nat (length ec)) +:+ "):")
           (imap (fun i e => newline +:+ "  " +:+ pretty (Z.of_nat i + 1) +:+ ": " +:+ e) ec)
  end.
Definition ToError (ec : ErrorCollector) : option string :=
  if HasErrors ec then Some (Collector_Error ec) else None.
Definition Collector_Clear (ec : ErrorCollector) : ErrorCollector := take 0 ec.

End Types.
