(* ===== verification/TypesSpec.v ===== *)
(** * Properties of messages and batches

    Pool reuse, expiry, the retry counter, size caching and the running total
    of a batch. *)
From stdpp Require Import base gmap strings list numbers fin_maps.
From Stdlib Require Import ZArith Lia.
From S2P Require Import Prelude Types.

Module TypesSpec.
Import Types.

Lemma clear_map_empty {V} (h : gmap string V) : clear_map h = ∅.
Proof. unfold clear_map. rewrite map_fold_delete. apply map_difference_diag. Qed.

Lemma slen_nonneg s : 0 <= slen s.
Proof. unfold slen. lia. Qed.

Lemma estimateValueSize_nonneg v : 0 <= estimateValueSize v.
Proof. destruct v; simpl; auto using slen_nonneg with zarith; lia. Qed.

Lemma estimate_pos m : 128 <= estimate m.
Proof.
  unfold estimate.
  pose proof (slen_nonneg (ID m)). pose proof (slen_nonneg (Topic m)).
  pose proof (slen_nonneg (PartitionKey m)). pose proof (slen_nonneg (ReplyTo m)).
  pose proof (slen_nonneg (CorrelationID m)). pose proof (slen_nonneg (TraceID m)).
  set (base := _ + slen (TraceID m)). assert (0 <= base) by lia. clearbody base.
  destruct (Headers m) as [h|]; [|lia].
  cut (0 <= map_fold (fun k v acc => acc + (slen k + estimateValueSize v)) base h); [lia|].
  apply (map_fold_weak_ind (fun r _ => 0 <= r)); [done|].
  intros k v m' r _ Hr. pose proof (slen_nonneg k). pose proof (estimateValueSize_nonneg v). lia.
Qed.

Lemma GetSize_pos m : 0 < snd (GetSize m).
Proof.
  unfold GetSize. destruct (Z.gtb_spec (SizeCache (_internal m)) 0); simpl; [lia|].
  pose proof (estimate_pos m). lia.
Qed.

Lemma GetSize_idem m : GetSize (fst (GetSize m)) = GetSize m.
Proof.
  unfold GetSize. destruct (SizeCache (_internal m) >? 0) eqn:E; simpl; [by rewrite E|].
  pose proof (estimate_pos m). by destruct (Z.gtb_spec (estimate m) 0); [|lia].
Qed.

Definition total_size (ms : list PortaskMessage) : Z := foldr Z.add 0 (snd ∘ GetSize <$> ms).

Lemma total_size_cons m l : total_size (m :: l) = snd (GetSize m) + total_size l.
Proof. done. Qed.

Lemma total_size_app l k : total_size (l ++ k) = total_size l + total_size k.
Proof.
  induction l as [|m l IH]; [done|]. rewrite <-app_comm_cons, !total_size_cons, IH. lia.
Qed.

Lemma Add_TotalSize m b : TotalSize (Add m b) = TotalSize b + snd (GetSize m).
Proof. unfold Add. by destruct (GetSize m). Qed.

Lemma Add_Messages m b : Messages (Add m b) = Messages b ++ [fst (GetSize m)].
Proof. unfold Add. by destruct (GetSize m). Qed.

Lemma adds_total ms : forall b,
  TotalSize b = total_size (Messages b) ->
  TotalSize (foldl (flip Add) b ms) = total_size (Messages (foldl (flip Add) b ms)).
Proof.
  induction ms as [|m ms IH]; intros b Hb; simpl; [done|]. apply IH. unfold flip.
  rewrite Add_TotalSize, Add_Messages, total_size_app, Hb.
  rewrite total_size_cons, GetSize_idem. change (total_size []) with 0. lia.
Qed.

Fixpoint retries (n : nat) (m : PortaskMessage) : PortaskMessage :=
  match n with O => m | S n => IncrementAttempts (retries n m) end.

Lemma retries_MaxRetry n m : MaxRetry (retries n m) = MaxRetry m.
Proof. induction n; simpl; auto. Qed.

Lemma retries_Attempts n m :
  0 <= Attempts m -> Attempts m + Z.of_nat n < 256 ->
  Attempts (retries n m) = Attempts m + Z.of_nat n.
Proof.
  intros H0. induction n as [|n IH]; intros Hn; cbn -[Z.of_nat]; [lia|].
  rewrite IH, wrapu_small by lia. lia.
Qed.

(** [Reset] leaves no trace of the message that used the pooled object:
    whatever the message was, the result is the same blank message, with
    empty but non-nil header and metadata maps. *)
Theorem reset_erases m :
  Reset m = mkMessage "" "" [] 0 (Some ∅) (Some ∅) PriorityNormal StatusPending 0 "" "" ""
              0 0 0 0 0 "" "" zero_internal.
Proof.
  unfold Reset. destruct (Headers m), (Metadata m); by rewrite ?clear_map_empty.
Qed.

(** Retries are bounded by [MaxRetry]: for the 8-bit counters, a message is
    allowed another attempt after [n] increments exactly while [n] is below
    the remaining budget, so a retry loop runs [MaxRetry - Attempts] times
    and the counter never wraps. *)
Theorem retry_budget m n :
  0 <= Attempts m <= MaxRetry m -> MaxRetry m < 256 -> Z.of_nat n <= MaxRetry m - Attempts m ->
  CanRetry (retries n m) = (Z.of_nat n <? MaxRetry m - Attempts m).
Proof.
  intros Ha Hm Hn. unfold CanRetry. rewrite retries_MaxRetry, retries_Attempts by lia.
  destruct (Z.ltb_spec (Attempts m + Z.of_nat n) (MaxRetry m)),
    (Z.ltb_spec (Z.of_nat n) (MaxRetry m - Attempts m)); lia.
Qed.

Lemma retry_budget_witness :
  CanRetry (retries 3 (mkMessage "" "" [] 0 None None 5 StatusPending 0 "" "" "" 0 0 0 0 3 "" "" zero_internal)) = false.
Proof.
  apply (retry_budget (mkMessage "" "" [] 0 None None 5 StatusPending 0 "" "" "" 0 0 0 0 3 "" "" zero_internal) 3);
    simpl; lia.
Defined.

(** A batch created from messages and then extended reports only the size
    of what was added: the first [Add] makes the cached total positive and
    [GetTotalSize] then ignores the initial messages. *)
Lemma batch_forgets id now ms m :
  snd (GetTotalSize (Add m (NewMessageBatch id now ms))) = snd (GetSize m).
Proof.
  pose proof (GetSize_pos m). unfold GetTotalSize.
  rewrite Add_TotalSize. cbn [NewMessageBatch TotalSize]. rewrite Z.add_0_l.
  by destruct (Z.gtb_spec (snd (GetSize m)) 0); [|lia].
Qed.

(** A batch filled only through [Add] knows the sum of the (cached) sizes
    of its messages without recomputing it; but a batch created from messages
    and then extended reports only the size of what was added. *)
Theorem batch_total_size id now ms ms' m :
  let b := foldl (flip Add) (NewMessageBatch id now []) ms in
  snd (GetTotalSize b) = total_size (Messages b)
  /\ Len b = Z.of_nat (length ms)
  /\ snd (GetTotalSize (Add m (NewMessageBatch id now ms'))) = snd (GetSize m).
Proof.
  intros b.
  assert (TotalSize b = total_size (Messages b)) as Ht by by apply adds_total.
  split.
  - unfold GetTotalSize. destruct (TotalSize b >? 0); simpl; [done|].
    unfold total_size. f_equal. rewrite <-list_fmap_compose. done.
  - split; [|apply batch_forgets]. unfold Len, b. f_equal. clear.
    assert (forall b, length (Messages (foldl (flip Add) b ms)) = (length (Messages b) + length ms)%nat)
      as -> by (induction ms as [|m ms IH]; intros b; simpl; [lia|];
                rewrite IH; unfold flip; rewrite Add_Messages, length_app; simpl; lia).
    done.
Qed.

(** Expiry.  A message given a TTL expires exactly when the clock passes
    its timestamp plus the TTL; a message from [NewMessage] carries a TTL of
    24 hours but no expiry instant, so it is never expired. *)
Theorem expiry_instant now id t topic payload m ttl :
  - 2 ^ 63 <= Timestamp m + ttl < 2 ^ 63 -> Timestamp m + ttl <> 0 ->
  (IsExpired now (WithTTL ttl m) = true <-> Timestamp m + ttl < now)
  /\ TTL (NewMessage id t topic payload) = 24 * hour
  /\ IsExpired now (NewMessage id t topic payload) = false.
Proof.
  intros Hr Hz. split; [|done]. unfold IsExpired, WithTTL. simpl.
  rewrite wraps_small by lia.
  destruct (Z.eqb_spec (Timestamp m + ttl) 0); [done|].
  rewrite Z.gtb_ltb. apply Z.ltb_lt.
Qed.

Lemma expiry_instant_witness :
  (IsExpired 200 (WithTTL 50 (NewMessage "a" 100 "t" [])) = true <-> 100 + 50 < 200)
  /\ TTL (NewMessage "b" 0 "t" []) = 24 * hour
  /\ IsExpired 200 (NewMessage "b" 0 "t" []) = false.
Proof.
  apply (expiry_instant 200 "b" 0 "t" [] (NewMessage "a" 100 "t" []) 50).
  - simpl. lia.
  - discriminate.
Defined.

End TypesSpec.
