(* ===== verification/Bus.v ===== *)
(** * The message bus and its workers ([src/pkg/queue/lockfree.go])

    [MessageBus] with [Start], [Stop], [Publish], [PublishToPriority],
    [PublishToTopic], [notifyWorkers] and [GetStats]; [WorkerPool] and [Worker]
    with the batch loop [megaProcessAllAvailableMessages].  The bus is used by
    one goroutine at a time here; the interleaving of queue operations is the
    subject of [QueueConc].  The [MessageProcessor] is a parameter: for a
    message, how long it takes and whether it fails. *)
From stdpp Require Import base gmap strings list numbers fin_maps.
From Stdlib Require Import ZArith Lia.
From S2P Require Import Prelude Queue Types.

Module Bus.
Import Queue Types.

Abbreviation MQueue := (LockFreeQueue PortaskMessage).

Record WorkerStats := mkWorkerStats {
  ws_ID : Z;
  MessagesProcessed : Z;
  ErrorCount : Z;
  AvgProcessingTime : Z;
  LastActivity : option Z;
  ws_Status : string
}.

(** [notify] is a channel of capacity 1: its number of buffered signals. *)
Record Worker := mkWorker {
  w_id : Z;
  w_stats : WorkerStats;
  w_running : Z;
  notify : Z
}.

Record WorkerPool := mkPool { wp_workers : list Worker; wp_running : Z }.

Record BusStats := mkBusStats {
  TotalMessages : Z;
  TotalBytes : Z;
  TopicStats : gmap string Z
}.

(** [workers] is the field [mb.workers] that [notifyWorkers] walks; the pool
    has its own list.  [ctx_done] records that [mb.cancel] was called;
    [workerNotify] counts the buffered signals of a channel of capacity 1000. *)
Record MessageBus := mkBus {
  highPriorityQueue : MQueue;
  normalPriorityQueue : MQueue;
  lowPriorityQueue : MQueue;
  workers : list Worker;
  workerPool : WorkerPool;
  topicQueues : gmap TopicName MQueue;
  stats : BusStats;
  ctx_done : bool;
  running : Z;
  workerNotify : Z
}.

Record MessageBusConfig := mkConfig {
  HighPriorityQueueSize : Z;
  NormalPriorityQueueSize : Z;
  LowPriorityQueueSize : Z;
  cfg_DropPolicy : DropPolicy;
  WorkerCount : nat
}.

Definition NewWorkerPool (count : nat) : WorkerPool :=
  mkPool ((fun i => mkWorker (Z.of_nat i)
                      (mkWorkerStats (Z.of_nat i) 0 0 0 None "created") 0 0) <$> seq 0 count) 0.

Definition NewMessageBus (cfg : MessageBusConfig) : exec MessageBus :=
  do! h := NewLockFreeQueue "high-priority" (HighPriorityQueueSize cfg) (cfg_DropPolicy cfg) in
  do! n := NewLockFreeQueue "normal-priority" (NormalPriorityQueueSize cfg) (cfg_DropPolicy cfg) in
  do! l := NewLockFreeQueue "low-priority" (LowPriorityQueueSize cfg) (cfg_DropPolicy cfg) in
  Ret (mkBus h n l [] (NewWorkerPool (WorkerCount cfg)) ∅ (mkBusStats 0 0 ∅) false 0 0).

Definition set_running (r : Z) (mb : MessageBus) : MessageBus :=
  mkBus (highPriorityQueue mb) (normalPriorityQueue mb) (lowPriorityQueue mb) (workers mb)
    (workerPool mb) (topicQueues mb) (stats mb) (ctx_done mb) r (workerNotify mb).
Definition set_pool (wp : WorkerPool) (mb : MessageBus) : MessageBus :=
  mkBus (highPriorityQueue mb) (normalPriorityQueue mb) (lowPriorityQueue mb) (workers mb)
    wp (topicQueues mb) (stats mb) (ctx_done mb) (running mb) (workerNotify mb).
Definition set_stats (s : BusStats) (mb : MessageBus) : MessageBus :=
  mkBus (highPriorityQueue mb) (normalPriorityQueue mb) (lowPriorityQueue mb) (workers mb)
    (workerPool mb) (topicQueues mb) s (ctx_done mb) (running mb) (workerNotify mb).
Definition set_topicQueues (t : gmap TopicName MQueue) (mb : MessageBus) : MessageBus :=
  mkBus (highPriorityQueue mb) (normalPriorityQueue mb) (lowPriorityQueue mb) (workers mb)
    (workerPool mb) t (stats mb) (ctx_done mb) (running mb) (workerNotify mb).
Definition cancel (mb : MessageBus) : MessageBus :=
  mkBus (highPriorityQueue mb) (normalPriorityQueue mb) (lowPriorityQueue mb) (workers mb)
    (workerPool mb) (topicQueues mb) (stats mb) true (running mb) (workerNotify mb).

(** ** Lifecycle *)

Definition sysErr (msg : string) : PortaskError := NewPortaskError ErrCodeSystemError msg.

Definition with_ws_Status (st : string) (s : WorkerStats) : WorkerStats :=
  mkWorkerStats (ws_ID s) (MessagesProcessed s) (ErrorCount s) (AvgProcessingTime s)
    (LastActivity s) st.

Definition Worker_Start (w : Worker) : Worker * option PortaskError :=
  if w_running w =? 0 then
    (mkWorker (w_id w) (with_ws_Status "running" (w_stats w)) 1 (notify w), None)
  else (w, Some (sysErr "worker already running")).

Definition Worker_Stop (w : Worker) : Worker :=
  if w_running w =? 1 then
    mkWorker (w_id w) (with_ws_Status "stopped" (w_stats w)) 0 (notify w)
  else w.

(** The loop of [WorkerPool.Start] stops at the first worker that fails. *)
Fixpoint start_workers (ws : list Worker) : list Worker * option PortaskError :=
  match ws with
  | [] => ([], None)
  | w :: ws =>
    match Worker_Start w with
    | (w, Some err) => (w :: ws, Some err)
    | (w, None) => let '(ws, err) := start_workers ws in (w :: ws, err)
    end
  end.

Definition WorkerPool_Start (wp : WorkerPool) : WorkerPool * option PortaskError :=
  if wp_running wp =? 0 then
    let '(ws, err) := start_workers (wp_workers wp) in (mkPool ws 1, err)
  else (wp, Some (sysErr "worker pool already running")).

Definition WorkerPool_Stop (wp : WorkerPool) : WorkerPool :=
  if wp_running wp =? 1 then mkPool (Worker_Stop <$> wp_workers wp) 0 else wp.

Definition WorkerPool_GetStats (wp : WorkerPool) : list WorkerStats := w_stats <$> wp_workers wp.

Definition Start (mb : MessageBus) : MessageBus * option PortaskError :=
  if running mb =? 0 then
    let mb := set_running 1 mb in
    let '(wp, err) := WorkerPool_Start (workerPool mb) in
    (set_pool wp mb, err)
  else (mb, Some (sysErr "message bus already running")).

Definition Stop (mb : MessageBus) : MessageBus :=
  if running mb =? 1 then
    let mb := cancel (set_running 0 mb) in
    set_pool (WorkerPool_Stop (workerPool mb)) mb
  else mb.

(** ** Publishing *)

Inductive qsel := High | Normal | Low.

(** The [switch] on the priority. *)
Definition route (priority : Z) : qsel :=
  if priority =? PriorityHigh then High
  else if priority =? PriorityLow then Low
  else Normal.

Definition get_queue (s : qsel) (mb : MessageBus) : MQueue :=
  match s with
  | High => highPriorityQueue mb
  | Normal => normalPriorityQueue mb
  | Low => lowPriorityQueue mb
  end.

Definition set_queue (s : qsel) (q : MQueue) (mb : MessageBus) : MessageBus :=
  mkBus (match s with High => q | _ => highPriorityQueue mb end)
    (match s with Normal => q | _ => normalPriorityQueue mb end)
    (match s with Low => q | _ => lowPriorityQueue mb end)
    (workers mb) (workerPool mb) (topicQueues mb) (stats mb) (ctx_done mb) (running mb)
    (workerNotify mb).

(** [select { case ch <- struct{}{}: default: }] on a channel of capacity [c]. *)
Definition try_signal (c n : Z) : Z := if n <? c then n + 1 else n.

Definition notifyWorkers (mb : MessageBus) : MessageBus :=
  let ws := (fun w => mkWorker (w_id w) (w_stats w) (w_running w) (try_signal 1 (notify w)))
            <$> workers mb in
  mkBus (highPriorityQueue mb) (normalPriorityQueue mb) (lowPriorityQueue mb) ws
    (workerPool mb) (topicQueues mb) (stats mb) (ctx_done mb) (running mb)
    (try_signal 1000 (workerNotify mb)).

Definition count_message (size : Z) (mb : MessageBus) : MessageBus :=
  set_stats (mkBusStats (u64 (TotalMessages (stats mb) + 1))
               (u64 (TotalBytes (stats mb) + u64 size)) (TopicStats (stats mb))) mb.

(** Enqueue, with the fallback of the [DropOldest] policy.  The second
    component of the result tells whether the plain [Enqueue] accepted the
    message (only then [Publish] notifies the workers). *)
Definition enqueue_or_drop (s : qsel) (message : PortaskMessage) (mb : MessageBus)
  : exec (MessageBus * bool * option PortaskError) :=
  do! (q, ok) := Enqueue (Some message) (get_queue s mb) in
  if ok then Ret (set_queue s q mb, true, None)
  else if decide (dropPolicy q = DropOldest) then
    do! (q, ok) := tryForceEnqueueDropOldest (Some message) q in
    if ok then Ret (set_queue s q mb, false, None)
    else Ret (set_queue s (addDrop q) mb, false, None)
  else Ret (set_queue s q mb, false,
            Some (WithDetail "priority" (VUint (Priority message))
                   (WithDetail "queue" (VString (name q))
                      (NewPortaskError ErrCodeResourceExhausted "queue full")))).

Definition notRunning : PortaskError := sysErr "message bus not running".

Definition Publish (message : PortaskMessage) (mb : MessageBus)
  : exec (MessageBus * option PortaskError) :=
  if running mb =? 0 then Ret (mb, Some notRunning) else
  let '(message, size) := GetSize message in
  let mb := count_message size mb in
  do! (mb, accepted, err) := enqueue_or_drop (route (Priority message)) message mb in
  if accepted : bool then Ret (notifyWorkers mb, None) else Ret (mb, err).

Definition PublishToPriority (message : PortaskMessage) (priority : Z) (mb : MessageBus)
  : exec (MessageBus * option PortaskError) :=
  if running mb =? 0 then Ret (mb, Some notRunning) else
  let message := set_Priority priority message in
  let '(message, size) := GetSize message in
  let mb := count_message size mb in
  do! (mb, accepted, err) := enqueue_or_drop (route priority) message mb in
  Ret (mb, err).

Definition getOrCreateTopicQueue (topic : TopicName) (mb : MessageBus) : exec (MessageBus * MQueue) :=
  match topicQueues mb !! topic with
  | Some q => Ret (mb, q)
  | None =>
    do! q := NewLockFreeQueue topic 1000 DropOldest in
    Ret (set_topicQueues (<[topic := q]> (topicQueues mb)) mb, q)
  end.

Definition PublishToTopic (message : PortaskMessage) (mb : MessageBus)
  : exec (MessageBus * option PortaskError) :=
  if running mb =? 0 then Ret (mb, Some notRunning) else
  do! (mb, q) := getOrCreateTopicQueue (Topic message) mb in
  let '(message, size) := GetSize message in
  let mb := count_message size mb in
  let count := match TopicStats (stats mb) !! Topic message with
               | Some count => u64 (count + 1)
               | None => 1
               end in
  let mb := set_stats (mkBusStats (TotalMessages (stats mb)) (TotalBytes (stats mb))
                         (<[Topic message := count]> (TopicStats (stats mb)))) mb in
  do! (q, ok) := Enqueue (Some message) q in
  let mb := set_topicQueues (<[Topic message := q]> (topicQueues mb)) mb in
  if ok : bool then Ret (mb, None)
  else Ret (mb, Some (WithDetail "topic" (VString (Topic message))
                        (NewPortaskError ErrCodeResourceExhausted "topic queue full"))).

(** [GetStats]: counters, per-queue statistics (a topic queue overwrites the
    entry of a priority queue of the same name) and worker statistics. *)
Record StatsReport := mkReport {
  r_TotalMessages : Z;
  r_TotalBytes : Z;
  r_QueueStats : gmap string QueueStats;
  r_WorkerStats : list WorkerStats;
  r_TopicStats : gmap string Z
}.

Definition GetStats (mb : MessageBus) : StatsReport :=
  let base := <["low-priority" := Stats (lowPriorityQueue mb)]>
             (<["normal-priority" := Stats (normalPriorityQueue mb)]>
             (<["high-priority" := Stats (highPriorityQueue mb)]> ∅)) in
  mkReport (TotalMessages (stats mb)) (TotalBytes (stats mb))
    ((Stats <$> topicQueues mb) ∪ base) (WorkerPool_GetStats (workerPool mb))
    (TopicStats (stats mb)).

(** ** Processing *)

Section worker.
(** The [MessageProcessor] interface: duration and failure of one call, and the
    clock after it. *)
Context (process : option PortaskMessage -> Z * bool) (clock : Z).

Definition update_stats (s : WorkerStats) (duration : Z) (failed : bool) : WorkerStats :=
  mkWorkerStats (ws_ID s) (u64 (MessagesProcessed s + 1))
    (if failed then u64 (ErrorCount s + 1) else ErrorCount s)
    (if AvgProcessingTime s =? 0 then duration
     else Z.quot (AvgProcessingTime s + duration) 2)
    (Some clock) (ws_Status s).

(** Worker statistics and the messages handed to the processor, oldest first. *)
Definition wstate : Type := WorkerStats * list (option PortaskMessage).

Definition processFromQueue (q : MQueue) (w : wstate) : exec (MQueue * wstate * bool) :=
  do! (q, (message, ok)) := TryDequeue q in
  if ok then
    let '(duration, failed) := process message in
    Ret (q, (update_stats (fst w) duration failed, snd w ++ [message]), true)
  else Ret (q, w, false).

(** [for i := 0; i < n; i++ { if processFromQueue(q) {..} else {break} }];
    the result counts the processed messages. *)
Fixpoint process_up_to (n : nat) (q : MQueue) (w : wstate) : exec (MQueue * wstate * Z) :=
  match n with
  | O => Ret (q, w, 0)
  | S n =>
    do! (q, w, ok) := processFromQueue q w in
    if ok : bool then
      do! (q, w, k) := process_up_to n q w in Ret (q, w, k + 1)
    else Ret (q, w, 0)
  end.

(** [for _, queue := range topicQueues], in the iteration order [topics]. *)
Fixpoint process_topics (topics : list TopicName) (tq : gmap TopicName MQueue) (w : wstate)
  : exec (gmap TopicName MQueue * wstate * Z) :=
  match topics with
  | [] => Ret (tq, w, 0)
  | t :: topics =>
    match tq !! t with
    | None => process_topics topics tq w
    | Some q =>
      do! (q, w, k) := process_up_to 50 q w in
      do! (tq, w, k') := process_topics topics (<[t := q]> tq) w in
      Ret (tq, w, k + k')
    end
  end.

(** One batch: the messages processed in it. *)
Definition process_batch (topics : list TopicName) (mb : MessageBus) (w : wstate)
  : exec (MessageBus * wstate * Z) :=
  do! (h, w, k1) := process_up_to 50 (highPriorityQueue mb) w in
  let mb := set_queue High h mb in
  do! (n, w, k2) := process_up_to 100 (normalPriorityQueue mb) w in
  let mb := set_queue Normal n mb in
  do! (l, w, k3) := process_up_to 25 (lowPriorityQueue mb) w in
  let mb := set_queue Low l mb in
  do! (tq, w, k4) := process_topics topics (topicQueues mb) w in
  Ret (set_topicQueues tq mb, w, k1 + k2 + k3 + k4).

(** Up to [batches] batches; [order i] is the map iteration order when [i]
    batches are left. *)
Fixpoint process_batches (batches : nat) (order : nat -> list TopicName) (mb : MessageBus)
  (w : wstate) (processedAny : bool) : exec (MessageBus * wstate * bool) :=
  match batches with
  | O => Ret (mb, w, processedAny)
  | S b =>
    do! (mb, w, k) := process_batch (order b) mb w in
    if 0 <? k then process_batches b order mb w true
    else Ret (mb, w, processedAny)
  end.

Definition megaProcessAllAvailableMessages (order : nat -> list TopicName) (mb : MessageBus)
  (w : wstate) : exec (MessageBus * wstate * bool) :=
  process_batches 100 order mb w false.

End worker.

End Bus.
