(* ===== verification/BusSpec.v ===== *)
(** * What the bus promises its publishers and its workers

    The consumer side is proved against the interface [Drainable] (what a
    worker relies on when it polls a queue); the ring buffer discharges it.
    Then publishing, on every branch, and the batch loop of a worker. *)
From stdpp Require Import base gmap strings list numbers fin_maps.
From Stdlib Require Import ZArith Lia.
From S2P Require Import Prelude Queue QueueRep QueueSpec Types TypesSpec Bus.

Module BusSpec.
Import Queue QueueRep QueueSpec Types TypesSpec Bus.

(** ** The interface a worker polls *)

Class Drainable {Q X : Type} (deq : Q -> exec (Q * (option X * bool))) := {
  pending : Q -> list (option X) -> Prop;
  drain_cons q x xs :
    pending q (x :: xs) -> exists q', deq q = Ret (q', (x, true)) /\ pending q' xs;
  drain_nil q : pending q [] -> deq q = Ret (q, (None, false))
}.

#[export] Instance ring_drainable {A} : Drainable (TryDequeue (A:=A)).
Proof.
  refine {| pending q xs := exists d, queue_rep q d xs |}.
  - intros q x xs [d H]. destruct (Dequeue_cons _ _ _ _ H) as (q' & E & H' & _). eauto.
  - intros q [d H]. by apply (Dequeue_nil _ d).
Defined.

Lemma pending_rep {A} (q : LockFreeQueue A) d xs : queue_rep q d xs -> pending q xs.
Proof. intros. by exists d. Qed.

(** ** Processing *)

Section processing.
Context (process : option PortaskMessage -> Z * bool) (clock : Z).
Implicit Types h n l xs : list (option PortaskMessage).
Implicit Types T : gmap TopicName (list (option PortaskMessage)).

(** The effect of handing messages to the processor one after the other. *)
Definition feed1 (w : wstate) (m : option PortaskMessage) : wstate :=
  let '(d, f) := process m in (update_stats clock (fst w) d f, snd w ++ [m]).
Definition feed (w : wstate) (ms : list (option PortaskMessage)) : wstate := foldl feed1 w ms.

Lemma feed_log w ms : snd (feed w ms) = snd w ++ ms.
Proof.
  revert w. induction ms as [|m ms IH]; intros w; simpl; [by rewrite app_nil_r|].
  unfold feed in IH. rewrite IH. unfold feed1. destruct (process m). simpl.
  by rewrite <-app_assoc.
Qed.

Lemma feed_app w ms ms' : feed w (ms ++ ms') = feed (feed w ms) ms'.
Proof. apply foldl_app. Qed.

Lemma process_up_to_spec k : forall q w xs,
  pending q xs -> exists q',
  process_up_to process clock k q w = Ret (q', feed w (take k xs), Z.of_nat (length (take k xs)))
  /\ pending q' (drop k xs).
Proof.
  induction k as [|k IH]; intros q w xs H; [by exists q|].
  cbn [process_up_to]. unfold processFromQueue.
  destruct xs as [|x xs].
  - rewrite (drain_nil _ H). by exists q.
  - destruct (drain_cons _ _ _ H) as (q1 & -> & H1).
    destruct (process x) as [d f] eqn:Ep.
    replace (update_stats clock (fst w) d f, snd w ++ [x]) with (feed1 w x)
      by (unfold feed1; by rewrite Ep).
    destruct (IH q1 (feed1 w x) xs H1) as (q2 & E2 & H2). rewrite E2.
    exists q2. split; [|done]. cbn [take length]. do 2 f_equal. lia.
Qed.

(** Topic queues and the lists they hold. *)
Definition topics_rep (tq : gmap TopicName MQueue) T : Prop :=
  forall t, match tq !! t, T !! t with
            | Some q, Some xs => pending q xs
            | None, None => True
            | _, _ => False
            end.

(** One pass over the topic queues, on lists. *)
Fixpoint abs_topics (order : list TopicName) T
  : list (option PortaskMessage) * gmap TopicName (list (option PortaskMessage)) :=
  match order with
  | [] => ([], T)
  | t :: order =>
    match T !! t with
    | None => abs_topics order T
    | Some xs => let '(log, T') := abs_topics order (<[t := drop 50 xs]> T) in
                 (take 50 xs ++ log, T')
    end
  end.

Lemma topics_rep_insert tq T t q xs :
  topics_rep tq T -> pending q xs -> topics_rep (<[t := q]> tq) (<[t := xs]> T).
Proof.
  intros H Hq t'. destruct (decide (t = t')) as [->|].
  - by rewrite !lookup_insert_eq.
  - rewrite !lookup_insert_ne by done. apply H.
Qed.

Lemma process_topics_spec order : forall tq T w,
  topics_rep tq T -> exists tq',
  process_topics process clock order tq w
  = Ret (tq', feed w (fst (abs_topics order T)), Z.of_nat (length (fst (abs_topics order T))))
  /\ topics_rep tq' (snd (abs_topics order T)).
Proof.
  induction order as [|t order IH]; intros tq T w H; cbn [process_topics abs_topics].
  - by exists tq.
  - specialize (H t) as Ht. destruct (tq !! t) as [q|], (T !! t) as [xs|]; try done; [|by apply IH].
    destruct (process_up_to_spec 50 q w xs Ht) as (q' & -> & Hq').
    destruct (IH _ _ (feed w (take 50 xs)) (topics_rep_insert _ _ t _ _ H Hq')) as (tq' & -> & H').
    exists tq'. destruct (abs_topics order _) as [log T']. cbn [fst snd].
    split; [|done]. rewrite feed_app, length_app. do 2 f_equal. lia.
Qed.

Definition bus_rep (mb : MessageBus) h n l T : Prop :=
  pending (highPriorityQueue mb) h /\ pending (normalPriorityQueue mb) n
  /\ pending (lowPriorityQueue mb) l /\ topics_rep (topicQueues mb) T.

(** What one batch processes, in order. *)
Definition batch_log (order : list TopicName) h n l T : list (option PortaskMessage) :=
  take 50 h ++ take 100 n ++ take 25 l ++ fst (abs_topics order T).

Lemma process_batch_spec order mb w h n l T :
  bus_rep mb h n l T -> exists mb',
  process_batch process clock order mb w
  = Ret (mb', feed w (batch_log order h n l T), Z.of_nat (length (batch_log order h n l T)))
  /\ bus_rep mb' (drop 50 h) (drop 100 n) (drop 25 l) (snd (abs_topics order T)).
Proof.
  intros (Hh & Hn & Hl & HT). unfold process_batch, batch_log.
  destruct (process_up_to_spec 50 _ w _ Hh) as (qh & -> & Hh').
  destruct (process_up_to_spec 100 _ (feed w (take 50 h)) _ Hn) as (qn & En & Hn').
  cbn [set_queue highPriorityQueue normalPriorityQueue lowPriorityQueue topicQueues]. rewrite En.
  destruct (process_up_to_spec 25 _ (feed (feed w (take 50 h)) (take 100 n)) _ Hl) as (ql & El & Hl').
  cbn [set_queue highPriorityQueue normalPriorityQueue lowPriorityQueue topicQueues]. rewrite El.
  cbn [set_queue highPriorityQueue normalPriorityQueue lowPriorityQueue topicQueues].
  destruct (process_topics_spec order _ _
    (feed (feed (feed w (take 50 h)) (take 100 n)) (take 25 l)) HT) as (tq & -> & HT').
  eexists. split.
  - rewrite !feed_app, !length_app. do 2 f_equal. lia.
  - repeat split; assumption.
Qed.

(** Everything pending in topic queues. *)
Definition all_topics T : list (option PortaskMessage) := map_to_list T ≫= snd.

Lemma all_topics_insert T t xs : all_topics (<[t := xs]> T) ≡ₚ xs ++ all_topics (delete t T).
Proof.
  unfold all_topics. rewrite <-insert_delete_eq.
  rewrite map_to_list_insert by apply lookup_delete_eq. done.
Qed.

Lemma all_topics_lookup T t xs :
  T !! t = Some xs -> all_topics T ≡ₚ xs ++ all_topics (delete t T).
Proof. intros H. rewrite <-(insert_id T t xs H) at 1. apply all_topics_insert. Qed.

Lemma abs_topics_perm order : forall T,
  all_topics T ≡ₚ fst (abs_topics order T) ++ all_topics (snd (abs_topics order T)).
Proof.
  induction order as [|t order IH]; intros T; simpl; [done|].
  destruct (T !! t) as [xs|] eqn:E; [|apply IH].
  specialize (IH (<[t := drop 50 xs]> T)). destruct (abs_topics order _) as [log T'].
  cbn [fst snd] in *. rewrite <-app_assoc, <-IH, all_topics_insert, (all_topics_lookup _ _ _ E).
  by rewrite app_assoc, take_drop.
Qed.

(** A pass shortens every queue it visits. *)
Lemma abs_topics_shrink order (b : nat) : forall T,
  (forall t xs, T !! t = Some xs ->
     (length xs <= 50 * b)%nat \/ t ∈ order /\ (length xs <= 50 * S b)%nat) ->
  forall t xs, snd (abs_topics order T) !! t = Some xs -> (length xs <= 50 * b)%nat.
Proof.
  induction order as [|t0 order IH]; intros T H t xs E; simpl in E.
  - destruct (H _ _ E) as [?|[Hin _]]; [done|by apply elem_of_nil in Hin].
  - destruct (T !! t0) as [ys|] eqn:E0.
    + destruct (abs_topics order (<[t0 := drop 50 ys]> T)) as [log T'] eqn:Ea.
      eapply (IH (<[t0 := drop 50 ys]> T)); [|by rewrite Ea].
      intros t1 zs [[<- <-]|[Hne Hz]]%lookup_insert_Some.
      * left. rewrite length_drop. destruct (H _ _ E0) as [?|[_ ?]]; lia.
      * destruct (H _ _ Hz) as [?|[Hin ?]]; [by left|right].
        split; [|done]. apply elem_of_cons in Hin as [->|]; done.
    + eapply IH; [|exact E]. intros t1 zs Hz. destruct (H _ _ Hz) as [?|[Hin ?]]; [by left|right].
      split; [|done]. apply elem_of_cons in Hin as [->|]; [congruence|done].
Qed.

Lemma abs_topics_idle order : forall T,
  fst (abs_topics order T) = [] ->
  (forall t xs, T !! t = Some xs -> t ∈ order -> xs = []) /\ snd (abs_topics order T) = T.
Proof.
  induction order as [|t0 order IH]; intros T E; simpl in *.
  - split; [|done]. intros t xs _ Hin. by apply elem_of_nil in Hin.
  - destruct (T !! t0) as [ys|] eqn:E0.
    + destruct (abs_topics order (<[t0 := drop 50 ys]> T)) as [log T'] eqn:Ea. simpl in *.
      destruct ys as [|y ys]; [|done]. simpl in *. rewrite insert_id in Ea by done.
      specialize (IH T). rewrite Ea in IH. destruct (IH E) as [Hi Hs]. split; [|done].
      intros t xs Ht [->|Hin]%elem_of_cons; [congruence|by eapply Hi].
    + destruct (IH T E) as [Hi Hs]. split; [|done].
      intros t xs Ht [->|Hin]%elem_of_cons; [congruence|by eapply Hi].
Qed.

(** The backlog that [b] batches are enough for. *)
Definition fits (b : nat) h n l T : Prop :=
  (length h <= 50 * b)%nat /\ (length n <= 100 * b)%nat /\ (length l <= 25 * b)%nat
  /\ forall t xs, T !! t = Some xs -> (length xs <= 50 * b)%nat.

Definition covers (order : list TopicName) (tq : gmap TopicName MQueue) : Prop :=
  forall t, is_Some (tq !! t) -> t ∈ order.

Definition drained (mb : MessageBus) : Prop :=
  pending (highPriorityQueue mb) [] /\ pending (normalPriorityQueue mb) []
  /\ pending (lowPriorityQueue mb) []
  /\ forall t q, topicQueues mb !! t = Some q -> pending q [].

Lemma topics_rep_dom tq T t : topics_rep tq T -> is_Some (tq !! t) <-> is_Some (T !! t).
Proof. intros H. specialize (H t). destruct (tq !! t), (T !! t); naive_solver. Qed.

Lemma fits_O_drained mb h n l T : bus_rep mb h n l T -> fits 0 h n l T -> drained mb.
Proof.
  intros (Hh & Hn & Hl & HT) (Fh & Fn & Fl & FT).
  assert (forall xs : list (option PortaskMessage), (length xs <= 0)%nat -> xs = []) as Hnil.
  { intros [|? ?]; simpl; [done|lia]. }
  apply Hnil in Fh as ->; apply Hnil in Fn as ->; apply Hnil in Fl as ->.
  split_and!; try done. intros t q Ht. specialize (HT t). rewrite Ht in HT.
  destruct (T !! t) as [xs|] eqn:E; [|done]. by apply FT, Hnil in E as ->.
Qed.

Lemma abs_topics_dom order : forall T t,
  is_Some (snd (abs_topics order T) !! t) <-> is_Some (T !! t).
Proof.
  induction order as [|t0 order IH]; intros T t; simpl; [done|].
  destruct (T !! t0) as [ys|] eqn:E0; [|apply IH].
  specialize (IH (<[t0 := drop 50 ys]> T) t).
  destruct (abs_topics order _) as [log T']. simpl in *. rewrite IH.
  destruct (decide (t0 = t)) as [->|].
  - rewrite lookup_insert_eq, E0. naive_solver.
  - by rewrite lookup_insert_ne.
Qed.

Lemma fits_batch b order h n l T :
  fits (S b) h n l T -> (forall t, is_Some (T !! t) -> t ∈ order) ->
  fits b (drop 50 h) (drop 100 n) (drop 25 l) (snd (abs_topics order T)).
Proof.
  intros (Fh & Fn & Fl & FT) Hc. unfold fits. rewrite !length_drop.
  split_and!; [lia|lia|lia|]. apply abs_topics_shrink. intros t xs Ht. right.
  split; [apply Hc; eauto|by eapply FT].
Qed.

Lemma batch_idle_drained order mb h n l T :
  bus_rep mb h n l T -> (forall t, is_Some (T !! t) -> t ∈ order) ->
  batch_log order h n l T = [] -> fits 0 h n l T.
Proof.
  intros Hr Hc E. unfold batch_log in E.
  apply app_nil in E as [Eh E]. apply app_nil in E as [En E]. apply app_nil in E as [El Et].
  destruct h; [|done]. destruct n; [|done]. destruct l; [|done].
  destruct (abs_topics_idle order T Et) as [Hi _].
  split_and!; try done. intros t xs Ht. rewrite (Hi t xs Ht); [done|]. apply Hc. eauto.
Qed.

Lemma all_topics_empty T :
  (forall t xs, T !! t = Some xs -> (length xs <= 0)%nat) -> all_topics T = [].
Proof.
  intros FT. unfold all_topics.
  assert (forall L : list (TopicName * list (option PortaskMessage)),
    (forall p, p ∈ L -> p.2 = []) -> L ≫= snd = []) as Hemp.
  { induction L as [|p L IHL]; intros HL; [done|]. cbn. rewrite (HL p) by set_solver.
    apply IHL. set_solver. }
  apply Hemp. intros [t xs] Hin. apply elem_of_map_to_list in Hin. simpl.
  apply FT in Hin. destruct xs; [done|simpl in Hin; lia].
Qed.

(** Backlogs that zero batches are enough for are empty. *)
Lemma fits_O_nil h n l T : fits 0 h n l T -> h ++ n ++ l ++ all_topics T = [].
Proof.
  intros (Fh & Fn & Fl & FT). rewrite (all_topics_empty T) by done.
  destruct h; [|simpl in Fh; lia]. destruct n; [|simpl in Fn; lia].
  destruct l; [done|simpl in Fl; lia].
Qed.

Lemma fits_O_batch order h n l T :
  batch_log order h n l T = [] -> fits 0 h n l T ->
  fits 0 (drop 50 h) (drop 100 n) (drop 25 l) (snd (abs_topics order T)).
Proof.
  intros E (Fh & Fn & Fl & FT). unfold batch_log in E.
  do 3 apply app_nil in E as [_ E]. destruct (abs_topics_idle _ _ E) as [_ ->].
  unfold fits. rewrite !length_drop. split_and!; try lia. done.
Qed.

Lemma batch_perm order h n l T :
  batch_log order h n l T ++ (drop 50 h ++ drop 100 n ++ drop 25 l
      ++ all_topics (snd (abs_topics order T))) ≡ₚ h ++ n ++ l ++ all_topics T.
Proof.
  unfold batch_log. rewrite (abs_topics_perm order T).
  rewrite <-(take_drop 50 h) at 3. rewrite <-(take_drop 100 n) at 3.
  rewrite <-(take_drop 25 l) at 3. solve_Permutation.
Qed.

Lemma process_batches_spec b order : forall mb w h n l T any,
  bus_rep mb h n l T -> fits b h n l T ->
  (forall i t, is_Some (T !! t) -> t ∈ order i) ->
  exists mb' log any', process_batches process clock b order mb w any = Ret (mb', feed w log, any')
    /\ drained mb' /\ log ≡ₚ h ++ n ++ l ++ all_topics T
    /\ (any' = any || bool_decide (log <> [])).
Proof.
  induction b as [|b IH]; intros mb w h n l T any Hr Hf Hc; cbn [process_batches].
  - exists mb, [], any. split; [done|]. split; [by eapply fits_O_drained|].
    rewrite bool_decide_eq_false_2, orb_false_r by naive_solver.
    by rewrite (fits_O_nil _ _ _ _ Hf).
  - destruct (process_batch_spec (order b) mb w h n l T Hr) as (mb1 & -> & Hr1).
    pose proof (batch_perm (order b) h n l T) as Hperm.
    set (bl := batch_log (order b) h n l T) in *.
    destruct (Z.ltb_spec 0 (Z.of_nat (length bl))) as [Hpos|Hz].
    + destruct (IH mb1 (feed w bl) _ _ _ _ true Hr1) as (mb2 & log & any' & E2 & Hd & Hp & Ha).
      { apply fits_batch; [done|apply Hc]. }
      { intros i t Ht. apply (Hc i). by apply (abs_topics_dom (order b)). }
      exists mb2, (bl ++ log), any'. rewrite E2, feed_app. split_and!; [done|done| |].
      * by rewrite Hp.
      * rewrite Ha. simpl. destruct bl; [simpl in Hpos; lia|].
        by rewrite bool_decide_eq_true_2, orb_true_r.
    + assert (bl = []) as Ebl by (destruct bl; [done|simpl in Hz; lia]).
      exists mb1, [], any. rewrite Ebl. split; [done|].
      assert (fits 0 h n l T) as F0 by (eapply batch_idle_drained; [exact Hr|apply Hc|exact Ebl]).
      split; [eapply fits_O_drained; [exact Hr1|by apply fits_O_batch]|].
      rewrite bool_decide_eq_false_2, orb_false_r by naive_solver.
      by rewrite (fits_O_nil _ _ _ _ F0).
Qed.

End processing.

(** ** Publishing *)

(** The message as it is enqueued: with its size cached. *)
Definition sized (m : PortaskMessage) : PortaskMessage := fst (GetSize m).

Lemma sized_Priority m : Priority (sized m) = Priority m.
Proof. unfold sized, GetSize. by destruct (_ >? _). Qed.

#[export] Instance qsel_eq_dec : EqDecision qsel.
Proof. solve_decision. Defined.

(** The class a priority belongs to: 9 is high, 1 is low, all others normal. *)
Definition in_class (s : qsel) (p : Z) : Prop :=
  match s with High => p = 9 | Low => p = 1 | Normal => p <> 9 /\ p <> 1 end.

#[export] Instance in_class_dec s p : Decision (in_class s p).
Proof. destruct s; cbn; apply _. Defined.

Lemma in_class_route s p : in_class s p <-> route p = s.
Proof.
  unfold route, PriorityHigh, PriorityLow.
  destruct (Z.eqb_spec p 9), (Z.eqb_spec p 1), s; cbn; split; intros; try done; lia.
Qed.

(** What every publish does to the counters, accepted or not. *)
Definition counted (m : PortaskMessage) (mb mb' : MessageBus) : Prop :=
  TotalMessages (stats mb') = u64 (TotalMessages (stats mb) + 1)
  /\ TotalBytes (stats mb') = u64 (TotalBytes (stats mb) + u64 (snd (GetSize m)))
  /\ TopicStats (stats mb') = TopicStats (stats mb).

(** Publishing touches one priority queue, the counters and the wake-up
    channel only. *)
Definition only_queue (s : qsel) (mb mb' : MessageBus) : Prop :=
  (forall s', s' <> s -> get_queue s' mb' = get_queue s' mb)
  /\ topicQueues mb' = topicQueues mb /\ running mb' = running mb
  /\ workerPool mb' = workerPool mb /\ ctx_done mb' = ctx_done mb.

Lemma get_set_queue s q mb : get_queue s (set_queue s q mb) = q.
Proof. by destruct s. Qed.

Lemma get_set_queue_ne s s' q mb : s' <> s -> get_queue s' (set_queue s q mb) = get_queue s' mb.
Proof. by destruct s, s'. Qed.

Lemma get_queue_count s z mb : get_queue s (count_message z mb) = get_queue s mb.
Proof. by destruct s. Qed.

Lemma get_queue_notify s mb : get_queue s (notifyWorkers mb) = get_queue s mb.
Proof. by destruct s. Qed.

(** [Publish] on a running bus, as one enqueue on the routed queue. *)
Lemma Publish_running m mb :
  running mb <> 0 ->
  Publish m mb =
  (do! (mb, acc, err) := enqueue_or_drop (route (Priority m)) (sized m)
                           (count_message (snd (GetSize m)) mb) in
   if acc : bool then Ret (notifyWorkers mb, None) else Ret (mb, err)).
Proof.
  intros Hr. unfold Publish. rewrite (proj2 (Z.eqb_neq _ _) Hr).
  pose proof (sized_Priority m) as E. unfold sized in *. destruct (GetSize m) as [m' z].
  simpl in *. by rewrite E.
Qed.

Lemma publish_room m mb d xs :
  running mb <> 0 -> queue_rep (get_queue (route (Priority m)) mb) d xs ->
  Z.of_nat (length xs) < capacity (get_queue (route (Priority m)) mb) ->
  exists mb', Publish m mb = Ret (mb', None)
    /\ queue_rep (get_queue (route (Priority m)) mb') d (xs ++ [Some (sized m)])
    /\ capacity (get_queue (route (Priority m)) mb') = capacity (get_queue (route (Priority m)) mb)
    /\ counted m mb mb' /\ only_queue (route (Priority m)) mb mb'.
Proof.
  intros Hr Hq Hc. rewrite Publish_running by done. set (s := route (Priority m)) in *.
  unfold enqueue_or_drop. rewrite get_queue_count.
  destruct (Enqueue_room (Some (sized m)) _ _ _ Hq Hc) as (q' & -> & Hq' & Hcfg & _).
  eexists. split; [done|]. rewrite get_queue_notify, get_set_queue.
  split; [done|]. split; [apply Hcfg|]. split; [done|].
  split; [|done]. intros s' Hs. rewrite get_queue_notify, get_set_queue_ne by done. apply get_queue_count.
Qed.

(** Publishing to a running bus whose routed priority queue has room
    returns nil and appends the message at the end of exactly the queue of its
    priority class; the
    other queues are untouched and the counters grow by one message and its
    size. *)
Theorem publish_accepts s m mb d xs :
  running mb <> 0 -> in_class s (Priority m) -> queue_rep (get_queue s mb) d xs ->
  Z.of_nat (length xs) < capacity (get_queue s mb) ->
  exists mb', Publish m mb = Ret (mb', None)
    /\ queue_rep (get_queue s mb') d (xs ++ [Some (sized m)])
    /\ counted m mb mb' /\ only_queue s mb mb'.
Proof.
  intros Hr Hs Hq Hc. apply in_class_route in Hs as <-.
  destruct (publish_room m mb d xs Hr Hq Hc) as (mb' & ? & ? & _ & ?). eauto.
Qed.


(** Concrete buses: two-slot queues, fresh or full. *)
Definition two_slots (policy : DropPolicy) (nm : string) : MQueue :=
  mkQueue 1 [mkNode 0 None; mkNode 1 None] 0 0 0 0 0 nm 2 policy.
Definition two_full (policy : DropPolicy) (nm : string) (a b : PortaskMessage) : MQueue :=
  mkQueue 1 [mkNode 1 (Some a); mkNode 2 (Some b)] 2 0 2 0 0 nm 2 policy.
Definition small_cfg (policy : DropPolicy) : MessageBusConfig := mkConfig 2 2 2 policy 1.
Definition small_bus (policy : DropPolicy) : MessageBus :=
  mkBus (two_slots policy "high-priority") (two_slots policy "normal-priority")
    (two_slots policy "low-priority") [] (NewWorkerPool 1) ∅ (mkBusStats 0 0 ∅) false 0 0.

Example small_bus_new policy : NewMessageBus (small_cfg policy) = Ret (small_bus policy).
Proof. reflexivity. Qed.

Lemma two_slots_rep policy nm : queue_rep (two_slots policy nm) 0 [].
Proof.
  split; try done; [exists 1; split; [lia|done]|].
  intros p Hp. cbn in Hp. assert (p = 0 \/ p = 1) as [-> | ->] by lia; reflexivity.
Qed.

Lemma two_full_rep policy nm a b : queue_rep (two_full policy nm a b) 0 [Some a; Some b].
Proof.
  split; try done; [exists 1; split; [lia|done]|].
  intros p Hp. cbn in Hp. assert (p = 0 \/ p = 1) as [-> | ->] by lia; reflexivity.
Qed.

Definition urgent (id : string) : PortaskMessage :=
  WithPriority PriorityHigh (NewMessage id 0 "orders" [1; 2; 3]).

Lemma publish_accepts_witness :
  exists mb', Publish (urgent "a") (fst (Start (small_bus DropNewest))) = Ret (mb', None)
    /\ queue_rep (get_queue High mb') 0 [Some (sized (urgent "a"))].
Proof.
  destruct (publish_accepts High (urgent "a") (fst (Start (small_bus DropNewest))) 0 [])
    as (mb' & E & Hq & _).
  - discriminate.
  - reflexivity.
  - apply two_slots_rep.
  - reflexivity.
  - exists mb'. exact (conj E Hq).
Defined.

(** Publishing to a full priority queue whose policy is not [DropOldest]
    returns the error RESOURCE_EXHAUSTED naming the queue, and no queue loses
    or gains a message; the message is nevertheless counted in
    [TotalMessages] and [TotalBytes]. *)
Theorem publish_rejects_full s m mb d xs :
  running mb <> 0 -> in_class s (Priority m) -> queue_rep (get_queue s mb) d xs ->
  Z.of_nat (length xs) = capacity (get_queue s mb) ->
  dropPolicy (get_queue s mb) <> DropOldest ->
  exists mb' err, Publish m mb = Ret (mb', Some err) /\ Code err = ErrCodeResourceExhausted
    /\ queue_rep (get_queue s mb') d xs
    /\ dropCount (get_queue s mb')
       = u64 (dropCount (get_queue s mb) + 1)
    /\ counted m mb mb' /\ only_queue s mb mb'.
Proof.
  intros Hr Hs Hq Hc Hp. rewrite Publish_running by done. apply in_class_route in Hs.
  rewrite Hs.
  unfold enqueue_or_drop. rewrite get_queue_count, (Enqueue_overflow _ _ _ _ Hq Hc Hp).
  rewrite decide_False by done. eexists _, _. split; [done|]. rewrite get_set_queue.
  split; [done|]. split; [by apply addDrop_rep|]. split; [done|]. split; [done|].
  split; [|done]. intros s' Hs'. rewrite get_set_queue_ne by done. apply get_queue_count.
Qed.

Definition full_bus (policy : DropPolicy) : MessageBus :=
  set_queue High (two_full policy "high-priority" (urgent "a") (urgent "b"))
    (fst (Start (small_bus policy))).

Lemma publish_rejects_full_witness :
  exists mb' err, Publish (urgent "c") (full_bus Block) = Ret (mb', Some err)
    /\ Code err = ErrCodeResourceExhausted.
Proof.
  destruct (publish_rejects_full High (urgent "c") (full_bus Block) 0 [Some (urgent "a"); Some (urgent "b")])
    as (mb' & err & E & Hc & _).
  - discriminate.
  - reflexivity.
  - apply two_full_rep.
  - reflexivity.
  - discriminate.
  - exists mb', err. exact (conj E Hc).
Defined.

(** Publishing to a full [DropOldest] priority queue returns nil although
    the message is not stored, and from then on no operation on that queue
    ever succeeds: nothing can be enqueued and none of the stored messages can
    be dequeued. *)
Theorem publish_drop_oldest_kills_queue s m mb d xs (os : list (op PortaskMessage)) :
  running mb <> 0 -> in_class s (Priority m) -> queue_rep (get_queue s mb) d xs ->
  Z.of_nat (length xs) = capacity (get_queue s mb) ->
  dropPolicy (get_queue s mb) = DropOldest ->
  exists mb' q' rs, Publish m mb = Ret (mb', None)
    /\ run_ops os (get_queue s mb') = Ret (q', rs)
    /\ Forall (fun r => accepted r = 0 /\ delivered r = 0) rs.
Proof.
  intros Hr Hs Hq Hc Hp. rewrite Publish_running by done. apply in_class_route in Hs.
  rewrite Hs.
  unfold enqueue_or_drop. rewrite get_queue_count.
  destruct (full_Enqueue_stuck (Some (sized m)) _ _ _ Hq Hc Hp)
    as (q1 & -> & Hst & Hd & Hb & Hcap & _ & _ & Hpol).
  rewrite decide_True by congruence.
  pose proof (rep_cap_bounds _ _ _ Hq) as Hcb.
  destruct (lookup_lt_is_Some_2 xs 1) as [y Hy]; [lia|].
  destruct (force_dead (Some (sized m)) q1 d y Hst Hd) as (q2 & -> & Hdead).
  { rewrite Hb, Hcap, (rep_slots _ _ _ Hq) by lia. unfold expected.
    replace (Z.to_nat (d + 1 - d)) with 1%nat by lia. rewrite Hy. do 2 f_equal. f_equal. lia. }
  destruct (dead_run_ops os (addDrop q2) d (addDrop_dead _ _ Hdead)) as (q' & rs & E & Hrs).
  eexists _, q', rs. split; [done|]. rewrite get_set_queue. done.
Qed.

Lemma publish_drop_oldest_kills_queue_witness :
  exists mb' q' rs, Publish (urgent "c") (full_bus DropOldest) = Ret (mb', None)
    /\ run_ops [ODequeue; OEnqueue (Some (urgent "d")); ODequeue] (get_queue High mb') = Ret (q', rs)
    /\ Forall (fun r => accepted r = 0 /\ delivered r = 0) rs.
Proof.
  apply (publish_drop_oldest_kills_queue High (urgent "c") (full_bus DropOldest) 0
           [Some (urgent "a"); Some (urgent "b")]).
  - discriminate.
  - reflexivity.
  - apply two_full_rep.
  - reflexivity.
  - reflexivity.
Defined.

(** ** Worker theorems *)

(** C8: one call of [megaProcessAllAvailableMessages] empties every queue of a
    backlog of at most 5000 high, 10000 normal and 2500 low priority messages
    and 5000 messages per topic, whatever the map iteration orders: every
    pending message reaches the processor exactly once, the statistics are
    those of processing that log, and the flag tells whether there was any
    message. *)
Theorem mega_drains process clock order mb w h n l T :
  bus_rep mb h n l T ->
  Z.of_nat (length h) <= 5000 -> Z.of_nat (length n) <= 10000 -> Z.of_nat (length l) <= 2500 ->
  (forall t xs, T !! t = Some xs -> Z.of_nat (length xs) <= 5000) ->
  (forall i t, is_Some (T !! t) -> t ∈ order i) ->
  exists mb' log, megaProcessAllAvailableMessages process clock order mb w
    = Ret (mb', feed process clock w log, bool_decide (log <> []))
    /\ drained mb' /\ log ≡ₚ h ++ n ++ l ++ all_topics T.
Proof.
  intros Hr Hh Hn Hl HT Hc. unfold megaProcessAllAvailableMessages.
  destruct (process_batches_spec process clock 100 order mb w h n l T false Hr)
    as (mb' & log & any & E & Hd & Hp & ->); [|done|].
  - unfold fits. split_and!; [lia|lia|lia|]. intros t xs Ht. specialize (HT t xs Ht). lia.
  - exists mb', log. by rewrite E.
Qed.

Lemma full_bus_rep policy : bus_rep (full_bus policy) [Some (urgent "a"); Some (urgent "b")] [] [] ∅.
Proof.
  split; [|split; [|split]].
  - apply (pending_rep _ 0), two_full_rep.
  - apply (pending_rep _ 0), two_slots_rep.
  - apply (pending_rep _ 0), two_slots_rep.
  - intros t. reflexivity || exact I.
Qed.

Definition idle_stats : WorkerStats := mkWorkerStats 0 0 0 0 None "running".

Lemma mega_drains_witness :
  exists mb' log, megaProcessAllAvailableMessages (fun _ => (5, false)) 7 (fun _ => [])
      (full_bus DropNewest) (idle_stats, [])
    = Ret (mb', feed (fun _ => (5, false)) 7 (idle_stats, []) log, bool_decide (log <> []))
    /\ drained mb'
    /\ log ≡ₚ [Some (urgent "a"); Some (urgent "b")] ++ [] ++ [] ++ all_topics ∅.
Proof.
  apply (mega_drains (fun _ => (5, false)) 7 (fun _ => []) (full_bus DropNewest) (idle_stats, [])
    [Some (urgent "a"); Some (urgent "b")] [] [] ∅).
  - apply full_bus_rep.
  - cbn [length]. lia.
  - cbn [length]. lia.
  - cbn [length]. lia.
  - intros t xs Ht. by rewrite lookup_empty in Ht.
  - intros i t Ht. rewrite lookup_empty in Ht. by destruct Ht.
Defined.

(** ** From the publisher to the processor *)

(** Publishing a list of messages, keeping the errors. *)
Fixpoint publish_all (ms : list PortaskMessage) (mb : MessageBus)
  : exec (MessageBus * list (option PortaskError)) :=
  match ms with
  | [] => Ret (mb, [])
  | m :: ms => do! (mb, e) := Publish m mb in
               do! (mb, es) := publish_all ms mb in Ret (mb, e :: es)
  end.

Definition routed (s : qsel) (ms : list PortaskMessage) : list PortaskMessage :=
  filter (fun m => in_class s (Priority m)) ms.

(** The three priority queues hold the given lists. *)
Definition holds (mb : MessageBus) (f : qsel -> list (option PortaskMessage)) : Prop :=
  forall s, exists d, queue_rep (get_queue s mb) d (f s).

Lemma publish_all_spec ms : forall mb f,
  running mb <> 0 -> holds mb f ->
  (forall s, Z.of_nat (length (f s ++ (Some <$> routed s ms))) <= capacity (get_queue s mb)) ->
  exists mb', publish_all ms mb = Ret (mb', (fun _ => None) <$> ms)
    /\ holds mb' (fun s => f s ++ (Some <$> (sized <$> routed s ms)))
    /\ topicQueues mb' = topicQueues mb.
Proof.
  induction ms as [|m ms IH]; intros mb f Hr Hf Hcap; cbn [publish_all].
  - exists mb. split; [done|]. split; [|done]. intros s. cbn. rewrite app_nil_r. apply Hf.
  - set (s0 := route (Priority m)) in *. destruct (Hf s0) as [d Hd].
    assert (forall s, routed s (m :: ms)
      = if decide (s0 = s) then m :: routed s ms else routed s ms) as Hrt.
    { intros s. unfold routed. rewrite filter_cons. pose proof (in_class_route s (Priority m)) as Hi.
      fold s0 in Hi. repeat case_decide; naive_solver. }
    destruct (publish_room m mb d (f s0)) as (mb1 & -> & Hq & Hc1 & _ & Ho & Htq & Hrun & _);
      [done|exact Hd| |].
    { specialize (Hcap s0). rewrite Hrt, decide_True, fmap_cons, length_app in Hcap by done.
      simpl in Hcap. fold s0. lia. }
    fold s0 in Hq, Hc1, Ho.
    destruct (IH mb1 (fun s => f s ++ (if decide (s0 = s) then [Some (sized m)] else [])))
      as (mb2 & -> & Hh & Htq2).
    + congruence.
    + intros s. destruct (decide (s0 = s)) as [<-|Hne]; [by exists d|].
      rewrite app_nil_r, Ho by done. apply Hf.
    + intros s. specialize (Hcap s). rewrite Hrt in Hcap.
      destruct (decide (s0 = s)) as [<-|Hne].
      * rewrite Hc1. rewrite fmap_cons in Hcap. rewrite !length_app in *. simpl in *. lia.
      * by rewrite app_nil_r, Ho by done.
    + exists mb2. split; [done|]. split; [|congruence].
      intros s. destruct (Hh s) as [d2 Hd2]. exists d2. rewrite Hrt.
      destruct (decide (s0 = s)); [|by rewrite app_nil_r in Hd2].
      by rewrite <-app_assoc in Hd2.
Qed.

Lemma NewMessageBus_holds cfg :
  2 <= HighPriorityQueueSize cfg <= 2 ^ 62 -> 2 <= NormalPriorityQueueSize cfg <= 2 ^ 62 ->
  2 <= LowPriorityQueueSize cfg <= 2 ^ 62 ->
  exists mb, NewMessageBus cfg = Ret mb /\ holds mb (fun _ => []) /\ topicQueues mb = ∅
    /\ running mb = 0 /\ forall s, capacity (get_queue s mb) = 2 ^ Z.log2_up (match s with
         | High => HighPriorityQueueSize cfg | Normal => NormalPriorityQueueSize cfg
         | Low => LowPriorityQueueSize cfg end).
Proof.
  intros Hh Hn Hl. unfold NewMessageBus.
  destruct (NewLockFreeQueue_total (A:=PortaskMessage) "high-priority"
    (HighPriorityQueueSize cfg) (cfg_DropPolicy cfg)) as (q1 & E1 & C1 & _); [lia|].
  destruct (NewLockFreeQueue_total (A:=PortaskMessage) "normal-priority"
    (NormalPriorityQueueSize cfg) (cfg_DropPolicy cfg)) as (q2 & E2 & C2 & _); [lia|].
  destruct (NewLockFreeQueue_total (A:=PortaskMessage) "low-priority"
    (LowPriorityQueueSize cfg) (cfg_DropPolicy cfg)) as (q3 & E3 & C3 & _); [lia|].
  rewrite E1, E2, E3. eexists. split; [done|]. split; [|split; [done|split; [done|by intros []]]].
  intros []; exists 0; cbn;
    [eapply (NewLockFreeQueue_rep _ _ _ _ Hh E1)|eapply (NewLockFreeQueue_rep _ _ _ _ Hn E2)
    |eapply (NewLockFreeQueue_rep _ _ _ _ Hl E3)].
Qed.

Lemma Start_fresh mb s :
  running mb = 0 -> running (fst (Start mb)) = 1
  /\ get_queue s (fst (Start mb)) = get_queue s mb /\ topicQueues (fst (Start mb)) = topicQueues mb.
Proof.
  intros H. unfold Start. rewrite H. cbn. destruct (WorkerPool_Start _). by destruct s.
Qed.

Lemma holds_bus_rep mb f :
  holds mb f -> topicQueues mb = ∅ -> bus_rep mb (f High) (f Normal) (f Low) ∅.
Proof.
  intros H Ht. split; [|split; [|split]].
  - destruct (H High) as [d ?]. by apply (pending_rep _ d).
  - destruct (H Normal) as [d ?]. by apply (pending_rep _ d).
  - destruct (H Low) as [d ?]. by apply (pending_rep _ d).
  - intros t. by rewrite Ht, lookup_empty.
Qed.

Lemma process_batches_S process clock b order mb w any :
  process_batches process clock (S b) order mb w any =
  (do! (mb, w, k) := process_batch process clock (order b) mb w in
   if 0 <? k then process_batches process clock b order mb w true else Ret (mb, w, any)).
Proof. reflexivity. Qed.

(** One worker call on a backlog that fits the quotas of a batch. *)
Lemma mega_one_batch process clock order mb w h n l :
  bus_rep mb h n l ∅ -> (length h <= 50)%nat -> (length n <= 100)%nat -> (length l <= 25)%nat ->
  exists mb', megaProcessAllAvailableMessages process clock order mb w
    = Ret (mb', feed process clock w (h ++ n ++ l), bool_decide (h ++ n ++ l <> []))
    /\ drained mb'.
Proof.
  intros Hr Hh Hn Hl. unfold megaProcessAllAvailableMessages.
  rewrite (process_batches_S process clock 99).
  destruct (process_batch_spec process clock (order 99%nat) mb w h n l ∅ Hr) as (mb1 & -> & Hr1).
  assert (forall o, abs_topics o ∅ = ([], ∅)) as Ht.
  { induction o as [|t o IH]; [done|]. cbn [abs_topics]. by rewrite lookup_empty. }
  unfold batch_log in *. rewrite Ht in *. cbn [fst snd] in *. rewrite app_nil_r.
  rewrite !take_ge by lia. rewrite !drop_ge in Hr1 by lia.
  destruct (process_batches_spec process clock 99 order mb1 (feed process clock w (h ++ n ++ l))
    [] [] [] ∅ true Hr1) as (mb2 & log & any & E & Hd & Hp & Ha).
  { unfold fits. cbn [length]. split_and!; try lia. intros t xs Hx. by rewrite lookup_empty in Hx. }
  { intros i t Hx. rewrite lookup_empty in Hx. by destruct Hx. }
  destruct (h ++ n ++ l) as [|m ms] eqn:El.
  - cbn. exists mb1. split; [done|]. destruct Hr1 as (? & ? & ? & HT). split_and!; try done.
    intros t q Hq. specialize (HT t). by rewrite Hq, lookup_empty in HT.
  - rewrite (proj2 (Z.ltb_lt 0 _)) by (cbn [length]; lia). rewrite E.
    assert (log = []) as ->.
    { apply Permutation_nil. rewrite Hp. cbn. unfold all_topics. by rewrite map_to_list_empty. }
    exists mb2. split; [|done]. rewrite Ha, (bool_decide_eq_true_2 (m :: ms <> [])) by done.
    reflexivity.
Qed.

(** C3: from publisher to processor.  On a fresh, started bus, publishing
    messages that fit the configured queue sizes and the quotas of one batch
    returns nil for each, and the next call of the worker loop hands the
    processor exactly those messages: first the high, then the normal, then
    the low priority ones, each class in the order it was published, and
    leaves the bus empty. *)
Theorem publish_process_end_to_end process clock order cfg ms w :
  2 <= HighPriorityQueueSize cfg <= 2 ^ 62 -> 2 <= NormalPriorityQueueSize cfg <= 2 ^ 62 ->
  2 <= LowPriorityQueueSize cfg <= 2 ^ 62 ->
  Z.of_nat (length (routed High ms)) <= Z.min 50 (HighPriorityQueueSize cfg) ->
  Z.of_nat (length (routed Normal ms)) <= Z.min 100 (NormalPriorityQueueSize cfg) ->
  Z.of_nat (length (routed Low ms)) <= Z.min 25 (LowPriorityQueueSize cfg) ->
  exists mb0 mb1 mb2, NewMessageBus cfg = Ret mb0
    /\ publish_all ms (fst (Start mb0)) = Ret (mb1, (fun _ => None) <$> ms)
    /\ megaProcessAllAvailableMessages process clock order mb1 w
       = Ret (mb2, feed process clock w
                (Some <$> (sized <$> (routed High ms ++ routed Normal ms ++ routed Low ms))),
              bool_decide (routed High ms ++ routed Normal ms ++ routed Low ms <> []))
    /\ drained mb2.
Proof.
  intros Bh Bn Bl Lh Ln Ll.
  destruct (NewMessageBus_holds cfg Bh Bn Bl) as (mb0 & E0 & Hh & Ht & Hrun & Hcap).
  exists mb0. rewrite E0.
  destruct (publish_all_spec ms (fst (Start mb0)) (fun _ => [])) as (mb1 & E1 & Hh1 & Ht1).
  { destruct (Start_fresh mb0 High Hrun) as [-> _]. done. }
  { intros s. destruct (Start_fresh mb0 s Hrun) as (_ & -> & _). apply Hh. }
  { intros s. destruct (Start_fresh mb0 s Hrun) as (_ & -> & _). rewrite Hcap. cbn [app].
    rewrite length_fmap. destruct s.
    all: etransitivity; [|apply Z.log2_log2_up_spec; lia]; lia. }
  exists mb1. rewrite E1.
  destruct (Start_fresh mb0 High Hrun) as (_ & _ & Hts).
  pose proof (holds_bus_rep _ _ Hh1 ltac:(congruence)) as Hr. cbn [app] in Hr.
  destruct (mega_one_batch process clock order mb1 w _ _ _ Hr) as (mb2 & E2 & Hd);
    [rewrite !length_fmap; lia..|].
  exists mb2. split; [done|]. split; [done|]. rewrite E2. split; [|done].
  rewrite !fmap_app. do 2 f_equal. apply bool_decide_ext.
  destruct (routed High ms), (routed Normal ms), (routed Low ms); naive_solver.
Qed.

Definition bulk (id : string) : PortaskMessage :=
  WithPriority PriorityLow (NewMessage id 0 "logs" [9]).

Lemma publish_process_end_to_end_witness :
  exists mb0 mb1 mb2, NewMessageBus (small_cfg DropNewest) = Ret mb0
    /\ publish_all [bulk "x"; urgent "a"; urgent "b"] (fst (Start mb0))
       = Ret (mb1, [None; None; None])
    /\ megaProcessAllAvailableMessages (fun _ => (5, false)) 7 (fun _ => []) mb1 (idle_stats, [])
       = Ret (mb2, feed (fun _ => (5, false)) 7 (idle_stats, [])
                (Some <$> (sized <$> (routed High [bulk "x"; urgent "a"; urgent "b"]
                   ++ routed Normal [bulk "x"; urgent "a"; urgent "b"]
                   ++ routed Low [bulk "x"; urgent "a"; urgent "b"]))),
              bool_decide (routed High [bulk "x"; urgent "a"; urgent "b"]
                   ++ routed Normal [bulk "x"; urgent "a"; urgent "b"]
                   ++ routed Low [bulk "x"; urgent "a"; urgent "b"] <> []))
    /\ drained mb2.
Proof.
  apply (publish_process_end_to_end (fun _ => (5, false)) 7 (fun _ => []) (small_cfg DropNewest)
    [bulk "x"; urgent "a"; urgent "b"] (idle_stats, [])); vm_compute; intuition discriminate.
Defined.

End BusSpec.
