(* ===== verification/Wal.v ===== *)
(** * The write-ahead log ([src/pkg/storage/wal.go])

    [WALWriter] with [NewWALWriter], [Write], [WriteBatch], [Sync], [Close] and
    [rotateSegment]; [WALReader] with [loadSegments] and [ReadEntry]; the
    CRC-32 of [crc32Checksum].

    The directory is a map from segment number to file content; next to it,
    how long a prefix of every file has been fsynced.  Files can fail: opening
    is given a flag, and every [File.Write] how many bytes it stored if it
    failed.  [currentSegment] is the number of the segment, whose record lives
    in [segments] (in the source both are the same pointer).  Sizes and segment
    numbers are 64-bit counters bounded by the disk and do not overflow. *)
From stdpp Require Import base gmap strings list numbers fin_maps.
From Stdlib Require Import ZArith Lia.
From S2P Require Import Prelude.

Module Wal.

(** ** CRC-32 *)

Definition poly : Z := 0xEDB88320.

(** One iteration of the inner loop. *)
Definition crc_bit (crc : Z) : Z :=
  if Z.land crc 1 =? 1 then Z.lxor (Z.shiftr crc 1) poly else Z.shiftr crc 1.

Definition crc_byte (crc b : Z) : Z := Nat.iter 8 crc_bit (Z.lxor crc b).

(** [^crc] of a 32-bit word is [0xFFFFFFFF - crc]. *)
Definition crc32Checksum (data : bytes) : Z :=
  0xFFFFFFFF - foldl crc_byte 0xFFFFFFFF data.

(** The check value of the CRC-32 standard: the bytes of 123456789. *)
Example crc_check : crc32Checksum [49; 50; 51; 52; 53; 54; 55; 56; 57] = 0xCBF43926.
Proof. vm_compute. reflexivity. Qed.

(** ** Data *)

Record WALEntry := mkEntry {
  Timestamp : Z;
  Size : Z;
  Checksum : Z;
  Data : bytes
}.

#[export] Instance WALEntry_eq_dec : EqDecision WALEntry.
Proof. solve_decision. Defined.

Record WALSegment := mkSegment { seg_ID : Z; seg_Size : Z; Synced : bool }.

Record WALWriter := mkWriter {
  maxSegmentSize : Z;
  currentSegment : Z;
  segments : gmap Z WALSegment;
  nextSegmentID : Z
}.

Record disk := mkDisk { files : gmap Z bytes; durable : gmap Z nat }.

Definition empty_disk : disk := mkDisk ∅ ∅.

(** How the calls of one write end: whether opening a new segment succeeds,
    and for the two [File.Write] calls the number of bytes stored before an
    error ([None]: no error). *)
Record env := mkEnv { open_ok : bool; header_fault : option nat; data_fault : option nat }.
Definition no_fault : env := mkEnv true None None.

(** [O_CREATE|O_WRONLY|O_APPEND] *)
Definition open_append (id : Z) (d : disk) : disk :=
  match files d !! id with
  | Some _ => d
  | None => mkDisk (<[id := []]> (files d)) (durable d)
  end.

(** [File.Write] on an append-only handle; the flag reports an error. *)
Definition file_write (fault : option nat) (id : Z) (bs : bytes) (d : disk) : disk * bool :=
  match files d !! id with
  | None => (d, true)
  | Some f =>
    match fault with
    | None => (mkDisk (<[id := f ++ bs]> (files d)) (durable d), false)
    | Some k => (mkDisk (<[id := f ++ take k bs]> (files d)) (durable d), true)
    end
  end.

Definition fsync (id : Z) (d : disk) : disk :=
  match files d !! id with
  | None => d
  | Some f => mkDisk (files d) (<[id := length f]> (durable d))
  end.

(** ** Writing *)

Definition header (now : Z) (data : bytes) : bytes :=
  le_put 8 (u64 now) ++ le_put 4 (u32 (Z.of_nat (length data))) ++ le_put 4 (crc32Checksum data).

#[global] Arguments header : simpl never.
#[global] Arguments crc32Checksum : simpl never.

Definition state : Type := WALWriter * disk.

(** The counter advances even when the file cannot be opened. *)
Definition rotateSegment (ok : bool) (s : state) : state * option string :=
  let '(w, d) := s in
  let segmentID := nextSegmentID w in
  let w := mkWriter (maxSegmentSize w) (currentSegment w) (segments w) (nextSegmentID w + 1) in
  if ok then
    let d := open_append segmentID d in
    let segment := mkSegment segmentID 0 true in
    (mkWriter (maxSegmentSize w) segmentID (<[segmentID := segment]> (segments w))
       (nextSegmentID w), d, None)
  else (w, d, Some "failed to create segment file").

Definition upd_segment (f : WALSegment -> WALSegment) (w : WALWriter) : WALWriter :=
  mkWriter (maxSegmentSize w) (currentSegment w)
    (alter f (currentSegment w) (segments w)) (nextSegmentID w).

(** The two [File.Write] calls of one entry and the new size. *)
Definition append_entry (e : env) (now : Z) (data : bytes) (s : state)
  : exec (state * res string Z) :=
  let '(w, d) := s in
  match segments w !! currentSegment w with
  | None => Panic
  | Some seg =>
    let offset := seg_Size seg in
    let '(d, err) := file_write (header_fault e) (seg_ID seg) (header now data) d in
    if err : bool then Ret ((w, d), Err "failed to write entry header") else
    let '(d, err) := file_write (data_fault e) (seg_ID seg) data d in
    if err : bool then Ret ((w, d), Err "failed to write entry data") else
    Ret ((upd_segment (fun seg => mkSegment (seg_ID seg)
            (seg_Size seg + (16 + Z.of_nat (length data))) (Synced seg)) w, d), Ok offset)
  end.

Definition mark_unsynced (w : WALWriter) : WALWriter :=
  upd_segment (fun seg => mkSegment (seg_ID seg) (seg_Size seg) false) w.

Definition Write (e : env) (now : Z) (data : bytes) (s : state) : exec (state * res string Z) :=
  match segments (fst s) !! currentSegment (fst s) with
  | None => Panic
  | Some seg =>
    let '(s, err) := if seg_Size seg >=? maxSegmentSize (fst s)
                     then rotateSegment (open_ok e) s else (s, None) in
    match err with
    | Some _ => Ret (s, Err "failed to rotate segment")
    | None =>
      do! (s, r) := append_entry e now data s in
      match r with
      | Ok offset => Ret ((mark_unsynced (fst s), snd s), Ok offset)
      | Err err => Ret (s, Err err)
      end
    end
  end.

(** The loop over the entries: clock, faults and data of each. *)
Fixpoint write_entries (es : list (env * Z * bytes)) (s : state)
  : exec (state * res string (list Z)) :=
  match es with
  | [] => Ret (s, Ok [])
  | (e, now, data) :: es =>
    do! (s, r) := append_entry e now data s in
    match r with
    | Err err => Ret (s, Err err)
    | Ok offset =>
      do! (s, r) := write_entries es s in
      match r with
      | Err err => Ret (s, Err err)
      | Ok offsets => Ret (s, Ok (offset :: offsets))
      end
    end
  end.

Definition batch_size (es : list (env * Z * bytes)) : Z :=
  foldl (fun total e => total + (16 + Z.of_nat (length (snd e)))) 0 es.

Definition WriteBatch (rotate_ok : bool) (es : list (env * Z * bytes)) (s : state)
  : exec (state * res string (list Z)) :=
  match segments (fst s) !! currentSegment (fst s) with
  | None => Panic
  | Some seg =>
    let '(s, err) := if seg_Size seg + batch_size es >=? maxSegmentSize (fst s)
                     then rotateSegment rotate_ok s else (s, None) in
    match err with
    | Some _ => Ret (s, Err "failed to rotate segment")
    | None =>
      do! (s, r) := write_entries es s in
      match r with
      | Ok offsets => Ret ((mark_unsynced (fst s), snd s), Ok offsets)
      | Err err => Ret (s, Err err)
      end
    end
  end.

(** [Sync] of the current segment; also the body of [syncLoop]. *)
Definition Sync (ok : bool) (s : state) : state * option string :=
  let '(w, d) := s in
  match segments w !! currentSegment w with
  | None => (s, None)
  | Some seg =>
    if ok then
      (upd_segment (fun seg => mkSegment (seg_ID seg) (seg_Size seg) true) w,
       fsync (seg_ID seg) d, None)
    else (s, Some "failed to sync segment")
  end.

(** [Close] fsyncs every segment not marked as synced. *)
Definition Close (s : state) : disk :=
  map_fold (fun id seg d => if Synced seg then d else fsync (seg_ID seg) d) (snd s) (segments (fst s)).

Definition NewWALWriter (maxSize : Z) (ok : bool) (d : disk) : res string state :=
  match rotateSegment ok (mkWriter maxSize 0 ∅ 0, d) with
  | (s, None) => Ok s
  | (_, Some _) => Err "failed to create initial segment"
  end.

(** ** Reading *)

(** [Sscanf] with [%06d] reads at most six digits, so the name of a segment
    number of seven digits does not match. *)
Definition parsable (id : Z) : bool := id <? 1000000.

Definition loadSegments (d : disk) : gmap Z WALSegment :=
  map_imap (fun id f => if parsable id then Some (mkSegment id (Z.of_nat (length f)) true) else None)
    (files d).

Definition ReadEntry (segs : gmap Z WALSegment) (d : disk) (segmentID offset : Z)
  : res string WALEntry :=
  match segs !! segmentID with
  | None => Err "segment not found"
  | Some seg =>
    match files d !! seg_ID seg with
    | None => Err "failed to seek to offset"
    | Some f =>
      if offset <? 0 then Err "failed to seek to offset" else
      let rest := drop (Z.to_nat offset) f in
      if Z.of_nat (length rest) <? 16 then Err "failed to read entry header" else
      let header := take 16 rest in
      let timestamp := s64 (le_get (take 8 header)) in
      let size := le_get (take 4 (drop 8 header)) in
      let checksum := le_get (take 4 (drop 12 header)) in
      let body := drop 16 rest in
      if Z.of_nat (length body) <? size then Err "failed to read entry data" else
      let data := take (Z.to_nat size) body in
      if negb (crc32Checksum data =? checksum) then Err "checksum mismatch"
      else Ok (mkEntry timestamp size checksum data)
    end
  end.

End Wal.
