(* ===== verification/WalSpec.v ===== *)
(** * Guarantees and limits of the write-ahead log

    The CRC detects every single-byte change; what was written can be read
    back at the returned offset and stays readable through all later calls,
    failing ones included; a batch is the sequence of its entries; and three
    places where the log loses this: restart, failed writes, rotation. *)
From stdpp Require Import base gmap strings list numbers fin_maps.
From Stdlib Require Import ZArith Lia.
From S2P Require Import Prelude Wal.

Module WalSpec.
Import Wal.

(** ** CRC-32 *)

Definition word (z : Z) : Prop := 0 <= z < 2 ^ 32.

Lemma word_testbit z : 0 <= z -> (forall i, 32 <= i -> Z.testbit z i = false) -> word z.
Proof.
  intros Hz Hb. split; [done|].
  destruct (Z.eq_dec z 0) as [->|]; [lia|].
  apply Z.log2_lt_pow2; [lia|].
  destruct (Z.lt_ge_cases (Z.log2 z) 32) as [|Hge]; [done|].
  specialize (Hb _ Hge). rewrite Z.bit_log2 in Hb by lia. done.
Qed.

Lemma word_high z i : word z -> 32 <= i -> Z.testbit z i = false.
Proof.
  intros [H0 H1] Hi. destruct (Z.eq_dec z 0) as [->|]; [apply Z.bits_0|].
  apply Z.bits_above_log2; [lia|]. enough (Z.log2 z < 32) by lia. apply Z.log2_lt_pow2; lia.
Qed.

Lemma word_lxor a b : word a -> word b -> word (Z.lxor a b).
Proof.
  intros Ha Hb. apply word_testbit.
  - apply Z.lxor_nonneg. split; intros; [apply Hb|apply Ha].
  - intros i Hi. by rewrite Z.lxor_spec, !word_high.
Qed.

Lemma word_half a : word a -> 0 <= Z.shiftr a 1 < 2 ^ 31.
Proof.
  intros [H0 H1]. rewrite Z.shiftr_div_pow2 by lia. change (2 ^ 1) with 2. split.
  - apply Z.div_pos; lia.
  - apply Z.div_lt_upper_bound; lia.
Qed.

Lemma crc_bit_word a : word a -> word (crc_bit a).
Proof.
  intros Ha. pose proof (word_half a Ha). unfold crc_bit.
  destruct (Z.land a 1 =? 1); [|split; lia].
  apply word_lxor; [split; lia|]. unfold word, poly. lia.
Qed.

(** Bit 31 of the result tells the bit that was shifted out. *)
Lemma crc_bit_top a : word a -> Z.testbit (crc_bit a) 31 = Z.testbit a 0.
Proof.
  intros Ha. pose proof (word_half a Ha) as Hh.
  assert (Z.testbit (Z.shiftr a 1) 31 = false) as Ht.
  { rewrite Z.shiftr_spec by lia. by apply word_high. }
  assert (Z.land a 1 = Z.b2z (Z.testbit a 0)) as El.
  { change 1 with (Z.ones 1) at 1. rewrite Z.land_ones by lia. change (2 ^ 1) with 2.
    by rewrite Z.bit0_mod. }
  unfold crc_bit. rewrite El. destruct (Z.testbit a 0); cbn [Z.b2z Z.eqb Pos.eqb].
  - rewrite Z.lxor_spec, Ht. reflexivity.
  - exact Ht.
Qed.

Lemma crc_bit_inj a b : word a -> word b -> crc_bit a = crc_bit b -> a = b.
Proof.
  intros Ha Hb E.
  assert (Z.testbit a 0 = Z.testbit b 0) as E0 by (by rewrite <-!crc_bit_top, E).
  assert (forall z, Z.land z 1 = Z.b2z (Z.testbit z 0)) as El.
  { intros z. change 1 with (Z.ones 1) at 1. rewrite Z.land_ones by lia. change (2 ^ 1) with 2.
    by rewrite Z.bit0_mod. }
  unfold crc_bit in E. rewrite !El, <-E0 in E.
  assert (Z.shiftr a 1 = Z.shiftr b 1) as Es.
  { destruct (Z.testbit a 0); cbn [Z.b2z Z.eqb Pos.eqb] in E; [|done].
    apply (f_equal (fun z => Z.lxor z poly)) in E.
    by rewrite !Z.lxor_assoc, Z.lxor_nilpotent, !Z.lxor_0_r in E. }
  apply Z.bits_inj'. intros n Hn. destruct (Z.eq_dec n 0) as [->|]; [done|].
  apply (f_equal (fun z => Z.testbit z (n - 1))) in Es.
  rewrite !Z.shiftr_spec in Es by lia. by replace (n - 1 + 1) with n in Es by lia.
Qed.

Lemma crc_iter_word n a : word a -> word (Nat.iter n crc_bit a).
Proof. intros. induction n; simpl; [done|by apply crc_bit_word]. Qed.

Lemma crc_iter_inj n a b :
  word a -> word b -> Nat.iter n crc_bit a = Nat.iter n crc_bit b -> a = b.
Proof.
  intros Ha Hb. induction n as [|n IH]; simpl; [done|].
  intros E%crc_bit_inj; [by apply IH|by apply crc_iter_word..].
Qed.

Lemma byte_word b : byte_ok b -> word b.
Proof. unfold byte_ok, word. lia. Qed.

Lemma crc_byte_word a b : word a -> byte_ok b -> word (crc_byte a b).
Proof. intros. by apply crc_iter_word, word_lxor, byte_word. Qed.

Lemma crc_byte_inj a a' b b' : word a -> word a' -> byte_ok b -> byte_ok b' ->
  crc_byte a b = crc_byte a' b' -> Z.lxor a b = Z.lxor a' b'.
Proof. intros ????. by apply crc_iter_inj; apply word_lxor; auto using byte_word. Qed.

Lemma lxor_cancel_r a b c : Z.lxor a c = Z.lxor b c -> a = b.
Proof.
  intros E. apply (f_equal (fun z => Z.lxor z c)) in E.
  by rewrite !Z.lxor_assoc, Z.lxor_nilpotent, !Z.lxor_0_r in E.
Qed.

Lemma crc_fold_word data : forall a, word a -> bytes_ok data -> word (foldl crc_byte a data).
Proof.
  induction data as [|b data IH]; intros a Ha Hd; simpl; [done|].
  inversion Hd; subst. apply IH; [by apply crc_byte_word|done].
Qed.

Lemma crc_fold_inj data : forall a b, word a -> word b -> bytes_ok data ->
  foldl crc_byte a data = foldl crc_byte b data -> a = b.
Proof.
  induction data as [|x data IH]; intros a b Ha Hb Hd E; simpl in *; [done|].
  inversion Hd; subst. apply IH in E; [|by apply crc_byte_word..|done].
  apply crc_byte_inj in E; [|done..]. by eapply lxor_cancel_r.
Qed.

Lemma word_ones : word 0xFFFFFFFF.
Proof. unfold word. lia. Qed.

Lemma crc_word data : bytes_ok data -> word (crc32Checksum data).
Proof.
  intros H. pose proof (crc_fold_word data _ word_ones H). unfold crc32Checksum, word in *. lia.
Qed.

Lemma crc_differs p b b' s :
  bytes_ok p -> bytes_ok s -> byte_ok b -> byte_ok b' -> b <> b' ->
  crc32Checksum (p ++ b :: s) <> crc32Checksum (p ++ b' :: s).
Proof.
  intros Hp Hs Hb Hb' Hne E. unfold crc32Checksum in E. rewrite !foldl_app in E.
  assert (forall a c n : Z, n - a = n - c -> a = c) as Hsub by (intros; lia).
  apply Hsub in E. simpl in E. pose proof (crc_fold_word p _ word_ones Hp) as Hw.
  apply crc_fold_inj in E; [|by apply crc_byte_word..|done].
  apply crc_byte_inj in E; [|done..].
  rewrite !(Z.lxor_comm (foldl _ _ _)) in E. by apply lxor_cancel_r in E.
Qed.

(** ** What stays true whatever fails *)

Definition live (s : state) : Prop :=
  exists seg, segments (fst s) !! currentSegment (fst s) = Some seg
    /\ seg_ID seg = currentSegment (fst s) /\ is_Some (files (snd s) !! currentSegment (fst s)).

(** Files only grow at their end. *)
Definition extends (d d' : disk) : Prop :=
  forall id f, files d !! id = Some f -> exists g, files d' !! id = Some (f ++ g).

#[export] Instance extends_po : PreOrder extends.
Proof.
  split.
  - intros d id f Hf. exists []. by rewrite app_nil_r.
  - intros d1 d2 d3 H12 H23 id f Hf. destruct (H12 _ _ Hf) as [g Hg].
    destruct (H23 _ _ Hg) as [k Hk]. exists (g ++ k). by rewrite app_assoc.
Qed.

Lemma insert_extends d dur id f g :
  files d !! id = Some f -> extends d (mkDisk (<[id := f ++ g]> (files d)) dur).
Proof.
  intros Hf id' f' Hf'. cbn. destruct (decide (id = id')) as [<-|].
  - rewrite lookup_insert_eq. exists g. congruence.
  - rewrite lookup_insert_ne by done. exists []. by rewrite app_nil_r.
Qed.

Lemma open_append_extends id d : extends d (open_append id d).
Proof.
  unfold open_append. destruct (files d !! id) eqn:E; [done|].
  intros id' f Hf. cbn. rewrite lookup_insert_ne by congruence. exists []. by rewrite app_nil_r.
Qed.

Lemma file_write_extends fault id bs d : extends d (fst (file_write fault id bs d)).
Proof.
  unfold file_write. destruct (files d !! id) eqn:E; [|done].
  destruct fault; by apply insert_extends.
Qed.

Lemma fsync_extends id d : extends d (fsync id d).
Proof.
  unfold fsync. destruct (files d !! id); [|done]. intros id' f Hf. exists []. by rewrite app_nil_r.
Qed.

Lemma extends_some d d' id : extends d d' -> is_Some (files d !! id) -> is_Some (files d' !! id).
Proof. intros H [f Hf]. destruct (H _ _ Hf) as [g ->]. eauto. Qed.

Lemma live_upd f w d :
  (forall seg, seg_ID (f seg) = seg_ID seg) -> live (w, d) -> live (upd_segment f w, d).
Proof.
  intros Hf (seg & Hs & Hi & Hfile). exists (f seg). cbn in *.
  rewrite lookup_alter_eq, Hs, Hf. done.
Qed.

Lemma live_extends w d d' : extends d d' -> live (w, d) -> live (w, d').
Proof. intros He (seg & Hs & Hi & Hf). exists seg. eauto using extends_some. Qed.

Lemma rotate_live ok s : live s -> live (fst (rotateSegment ok s))
  /\ extends (snd s) (snd (fst (rotateSegment ok s))).
Proof.
  destruct s as [w d]. intros H. unfold rotateSegment. destruct ok; [|done]. split.
  - eexists. cbn. rewrite lookup_insert_eq. split; [done|]. split; [done|].
    unfold open_append. destruct (files d !! nextSegmentID w) eqn:E; cbn; [rewrite E; eauto|].
    rewrite lookup_insert_eq. eauto.
  - apply open_append_extends.
Qed.

Lemma append_entry_live e now data s :
  live s -> exists s' r, append_entry e now data s = Ret (s', r) /\ live s'
    /\ extends (snd s) (snd s').
Proof.
  destruct s as [w d]. intros H. pose proof H as (seg & Hs & Hi & Hf). cbn in Hs.
  unfold append_entry. rewrite Hs.
  pose proof (file_write_extends (header_fault e) (seg_ID seg) (header now data) d) as E1.
  destruct (file_write _ _ (header now data) d) as [d1 []]; cbn in E1.
  { eexists _, _. split; [done|]. split; [by eapply live_extends|done]. }
  pose proof (file_write_extends (data_fault e) (seg_ID seg) data d1) as E2.
  destruct (file_write _ _ data d1) as [d2 []]; cbn in E2.
  all: eexists _, _; split; [done|]; split; [|by etransitivity].
  - eapply live_extends; [|done]. by etransitivity.
  - apply live_upd; [done|]. eapply live_extends; [|done]. by etransitivity.
Qed.

Lemma write_entries_live es : forall s,
  live s -> exists s' r, write_entries es s = Ret (s', r) /\ live s' /\ extends (snd s) (snd s').
Proof.
  induction es as [|[[e now] data] es IH]; intros s H; cbn [write_entries];
    [by eexists _, _|].
  destruct (append_entry_live e now data s H) as (s1 & r & -> & H1 & E1).
  destruct r as [off|err]; [|by eauto].
  destruct (IH s1 H1) as (s2 & r2 & -> & H2 & E2).
  destruct r2; eexists _, _; (split; [done|]; split; [done|by etransitivity]).
Qed.

(** ** Calls of the log *)

Inductive call :=
| CWrite (e : env) (now : Z) (data : bytes)
| CBatch (rotate_ok : bool) (es : list (env * Z * bytes))
| CSync (ok : bool).

Definition run_call (c : call) (s : state) : exec state :=
  match c with
  | CWrite e now data => do! (s, _) := Write e now data s in Ret s
  | CBatch ok es => do! (s, _) := WriteBatch ok es s in Ret s
  | CSync ok => Ret (fst (Sync ok s))
  end.

Fixpoint run_calls (cs : list call) (s : state) : exec state :=
  match cs with
  | [] => Ret s
  | c :: cs => do! s := run_call c s in run_calls cs s
  end.

Lemma maybe_rotate_live (b ok : bool) s :
  live s -> let '(s', err) := if b then rotateSegment ok s else (s, None) in
  live s' /\ extends (snd s) (snd s').
Proof.
  intros H. destruct b; [|done]. pose proof (rotate_live ok s H) as Hr.
  destruct (rotateSegment ok s) as [s' err]. done.
Qed.

Lemma Write_live e now data s :
  live s -> exists s' r, Write e now data s = Ret (s', r) /\ live s' /\ extends (snd s) (snd s').
Proof.
  intros H. pose proof H as (seg & Hs & _). unfold Write. rewrite Hs.
  pose proof (maybe_rotate_live (seg_Size seg >=? maxSegmentSize (fst s)) (open_ok e) s H) as Hr.
  destruct (if _ >=? _ then _ else _) as [s1 [err|]]; destruct Hr as [H1 E1]; [by eauto|].
  destruct (append_entry_live e now data s1 H1) as (s2 & r & -> & H2 & E2).
  destruct r; eexists _, _; (split; [done|]; split; [|by etransitivity]); [|done].
  destruct s2. by apply live_upd.
Qed.

Lemma WriteBatch_live ok es s :
  live s -> exists s' r, WriteBatch ok es s = Ret (s', r) /\ live s' /\ extends (snd s) (snd s').
Proof.
  intros H. pose proof H as (seg & Hs & _). unfold WriteBatch. rewrite Hs.
  pose proof (maybe_rotate_live
    (seg_Size seg + batch_size es >=? maxSegmentSize (fst s)) ok s H) as Hr.
  destruct (if _ >=? _ then _ else _) as [s1 [err|]]; destruct Hr as [H1 E1]; [by eauto|].
  destruct (write_entries_live es s1 H1) as (s2 & r & -> & H2 & E2).
  destruct r; eexists _, _; (split; [done|]; split; [|by etransitivity]); [|done].
  destruct s2. by apply live_upd.
Qed.

Lemma Sync_live ok s : live s -> live (fst (Sync ok s)) /\ extends (snd s) (snd (fst (Sync ok s))).
Proof.
  destruct s as [w d]. intros H. pose proof H as (seg & Hs & _). cbn in Hs. unfold Sync. rewrite Hs.
  destruct ok; [|done]. split; [|apply fsync_extends].
  apply live_upd; [done|]. eapply live_extends; [apply fsync_extends|done].
Qed.

Lemma run_calls_live cs : forall s,
  live s -> exists s', run_calls cs s = Ret s' /\ live s' /\ extends (snd s) (snd s').
Proof.
  induction cs as [|c cs IH]; intros s H; cbn [run_calls]; [by exists s|].
  assert (exists s1, run_call c s = Ret s1 /\ live s1 /\ extends (snd s) (snd s1))
    as (s1 & -> & H1 & E1).
  { destruct c as [e now data|ok es|ok]; cbn [run_call].
    - destruct (Write_live e now data s H) as (s1 & r & -> & ?). eauto.
    - destruct (WriteBatch_live ok es s H) as (s1 & r & -> & ?). eauto.
    - eexists. split; [done|]. by apply Sync_live. }
  destruct (IH s1 H1) as (s2 & -> & H2 & E2). exists s2. split; [done|].
  split; [done|by etransitivity].
Qed.

(** ** Entries in files *)

Definition entry_of (now : Z) (data : bytes) : WALEntry :=
  mkEntry now (Z.of_nat (length data)) (crc32Checksum data) data.

(** The entry starts at byte [off] of file [id]. *)
Definition entry_in (d : disk) (id off now : Z) (data : bytes) : Prop :=
  exists pre post, files d !! id = Some (pre ++ header now data ++ data ++ post)
    /\ off = Z.of_nat (length pre).

(** What fits an entry: bytes, a 32-bit length, a 64-bit time. *)
Definition storable (now : Z) (data : bytes) : Prop :=
  bytes_ok data /\ Z.of_nat (length data) < 2 ^ 32 /\ - 2 ^ 63 <= now < 2 ^ 63.

Lemma entry_in_extends d d' id off now data :
  extends d d' -> entry_in d id off now data -> entry_in d' id off now data.
Proof.
  intros He (pre & post & Hf & Ho). destruct (He _ _ Hf) as [g Hg].
  exists pre, (post ++ g). split; [|done]. rewrite Hg. by rewrite <-!app_assoc.
Qed.

Lemma header_length now data : length (header now data) = 16%nat.
Proof. unfold header. by autorewrite with portask. Qed.

Lemma header_fields now data :
  take 8 (header now data) = le_put 8 (u64 now)
  /\ take 4 (drop 8 (header now data)) = le_put 4 (u32 (Z.of_nat (length data)))
  /\ take 4 (drop 12 (header now data)) = le_put 4 (crc32Checksum data).
Proof.
  unfold header. split; [by apply take_app_len, le_put_length|]. split.
  - rewrite drop_app_len by apply le_put_length. by apply take_app_len, le_put_length.
  - rewrite app_assoc, drop_app_len by (by autorewrite with portask).
    apply take_ge. by rewrite le_put_length.
Qed.

Lemma s64_u64 now : - 2 ^ 63 <= now < 2 ^ 63 -> s64 (u64 now) = now.
Proof.
  intros H. transitivity (s64 now); [|apply wraps_small; lia].
  apply wraps_congr; [lia|]. unfold wrapu. by rewrite Zmod_mod.
Qed.

(** Reading the bytes of an entry, whatever its data part became. *)
Lemma ReadEntry_bytes d id pre now data data' post :
  files d !! id = Some (pre ++ header now data ++ data' ++ post) -> parsable id = true ->
  storable now data -> length data' = length data ->
  ReadEntry (loadSegments d) d id (Z.of_nat (length pre)) =
  if crc32Checksum data' =? crc32Checksum data
  then Ok (mkEntry now (Z.of_nat (length data)) (crc32Checksum data) data')
  else Err "checksum mismatch".
Proof.
  intros Hf Hp (Hb & Hl & Hn) Hlen. unfold ReadEntry, loadSegments.
  rewrite map_lookup_imap, Hf. cbn. rewrite Hp. cbn [seg_ID]. rewrite Hf.
  destruct (Z.ltb_spec (Z.of_nat (length pre)) 0); [lia|].
  rewrite Nat2Z.id, drop_app_length.
  rewrite (take_app_len 16 (header now data)), (drop_app_len 16 (header now data))
    by apply header_length.
  destruct (header_fields now data) as (-> & -> & ->).
  rewrite !le_get_put, !length_app, header_length.
  destruct (Z.ltb_spec (Z.of_nat (16 + (length data' + length post))) 16); [lia|].
  change (2 ^ (8 * Z.of_nat 8)) with (2 ^ 64). change (2 ^ (8 * Z.of_nat 4)) with (2 ^ 32).
  pose proof (crc_word data Hb). unfold word in *.
  rewrite (wrapu_small 32) by lia. rewrite !(Z.mod_small _ (2 ^ 32)) by lia.
  fold (wrapu 64 (u64 now)). rewrite wrapu_idemp, s64_u64 by lia.
  destruct (Z.ltb_spec (Z.of_nat (length data' + length post)) (Z.of_nat (length data))); [lia|].
  rewrite Nat2Z.id, take_app_len by done. by destruct (_ =? _).
Qed.

Lemma ReadEntry_in d id off now data :
  entry_in d id off now data -> parsable id = true -> storable now data ->
  ReadEntry (loadSegments d) d id off = Ok (entry_of now data).
Proof.
  intros (pre & post & Hf & ->) Hp Hs.
  rewrite (ReadEntry_bytes d id pre now data data post) by done. by rewrite Z.eqb_refl.
Qed.

(** ** Writing without faults *)

Definition clean (e : env) : Prop := open_ok e = true /\ header_fault e = None /\ data_fault e = None.

(** The recorded size is the length of the file, and numbers from
    [nextSegmentID] on are unused. *)
Definition accurate (s : state) : Prop :=
  exists seg f, segments (fst s) !! currentSegment (fst s) = Some seg
    /\ seg_ID seg = currentSegment (fst s)
    /\ files (snd s) !! currentSegment (fst s) = Some f /\ seg_Size seg = Z.of_nat (length f)
    /\ currentSegment (fst s) < nextSegmentID (fst s)
    /\ forall id, nextSegmentID (fst s) <= id -> files (snd s) !! id = None.

Lemma accurate_live s : accurate s -> live s.
Proof. intros (seg & f & Hs & Hi & Hf & _). exists seg. rewrite Hf. eauto. Qed.

Lemma rotate_accurate s : accurate s -> exists s', rotateSegment true s = (s', None) /\ accurate s'.
Proof.
  destruct s as [w d]. intros (seg & f & _ & _ & _ & _ & _ & Hfresh). cbn in Hfresh.
  eexists. split; [done|]. unfold open_append. rewrite Hfresh by lia.
  eexists _, []. cbn. rewrite !lookup_insert_eq. split_and!; try done; [lia|].
  intros id Hid. rewrite lookup_insert_ne by lia. apply Hfresh. lia.
Qed.

Lemma append_entry_accurate e now data s :
  accurate s -> header_fault e = None -> data_fault e = None ->
  exists s' off, append_entry e now data s = Ret (s', Ok off) /\ accurate s'
    /\ currentSegment (fst s') = currentSegment (fst s)
    /\ maxSegmentSize (fst s') = maxSegmentSize (fst s)
    /\ entry_in (snd s') (currentSegment (fst s)) off now data /\ extends (snd s) (snd s').
Proof.
  intros H Eh Ed. destruct (append_entry_live e now data s (accurate_live s H)) as (s1 & r1 & E1 & _ & X1).
  destruct s as [w d]. destruct H as (seg & f & Hs & Hi & Hf & Hsz & Hlt & Hfresh). cbn in *.
  rewrite Hs, Hi in E1. unfold append_entry. rewrite Hs, Hi. unfold file_write in *.
  rewrite Eh, Ed, Hf in *. cbn [files durable] in *. rewrite lookup_insert_eq in *.
  injection E1 as <- <-. eexists _, _. split; [done|]. cbn in *.
  split_and!; [|done|done| |done].
  - eexists _, _. cbn. rewrite lookup_alter_eq, Hs. rewrite lookup_insert_eq.
    split_and!; try done.
    + cbn. rewrite Hsz, !length_app, header_length. lia.
    + intros id Hid. rewrite !lookup_insert_ne by lia. by apply Hfresh.
  - exists f, []. cbn. rewrite lookup_insert_eq, app_nil_r, app_assoc. done.
Qed.

Lemma accurate_unsynced s : accurate s -> accurate (mark_unsynced (fst s), snd s).
Proof.
  intros (seg & f & Hs & Hi & Hf & Hsz & Hlt & Hfresh).
  eexists _, f. cbn. rewrite lookup_alter_eq, Hs. split_and!; try done.
Qed.

Lemma maybe_rotate_accurate (b : bool) s :
  accurate s -> exists s', (if b then rotateSegment true s else (s, None)) = (s', None) /\ accurate s'.
Proof. intros H. destruct b; [by apply rotate_accurate|by exists s]. Qed.

Lemma Write_accurate e now data s :
  accurate s -> clean e ->
  exists s' off, Write e now data s = Ret (s', Ok off) /\ accurate s'
    /\ entry_in (snd s') (currentSegment (fst s')) off now data.
Proof.
  intros H (Eo & Eh & Ed). pose proof H as (seg & f & Hs & _). unfold Write. rewrite Hs, Eo.
  destruct (maybe_rotate_accurate (seg_Size seg >=? maxSegmentSize (fst s)) s H) as (s1 & -> & H1).
  destruct (append_entry_accurate e now data s1 H1 Eh Ed)
    as (s2 & off & -> & H2 & Hc & _ & Hin & _).
  eexists _, off. split; [done|]. split; [by apply accurate_unsynced|]. cbn. by rewrite Hc.
Qed.

Lemma write_entries_accurate es : forall s,
  accurate s -> Forall (fun e => clean (fst (fst e))) es ->
  exists s' offs, write_entries es s = Ret (s', Ok offs) /\ accurate s'
    /\ currentSegment (fst s') = currentSegment (fst s) /\ extends (snd s) (snd s')
    /\ Forall2 (fun e off => entry_in (snd s') (currentSegment (fst s')) off (snd (fst e)) (snd e))
         es offs.
Proof.
  induction es as [|[[e now] data] es IH]; intros s H Hc; cbn [write_entries].
  - exists s, []. split_and!; done.
  - inversion Hc as [|? ? [_ [Eh Ed]] Hc']; subst. cbn in Eh, Ed.
    destruct (append_entry_accurate e now data s H Eh Ed)
      as (s1 & off & -> & H1 & Hcur & _ & Hin & X1).
    destruct (IH s1 H1 Hc') as (s2 & offs & -> & H2 & Hcur2 & X2 & Hall).
    exists s2, (off :: offs). split_and!; try done; [congruence|by etransitivity|].
    constructor; [|done]. cbn. rewrite Hcur2, Hcur. by eapply entry_in_extends.
Qed.

Lemma NewWALWriter_accurate maxSize :
  exists s, NewWALWriter maxSize true empty_disk = Ok s /\ accurate s.
Proof.
  eexists. split; [done|]. eexists _, []. split; [done|]. split; [done|]. split; [done|].
  split; [done|]. split; [done|].
  intros id Hid. change (<[0 := ([] : bytes)]> (∅ : gmap Z bytes) !! id = None).
  cbn in Hid. by rewrite lookup_insert_ne by lia.
Qed.

(** ** Theorems *)

(** Calls during which the disk does its work. *)
Definition clean_call (c : call) : Prop :=
  match c with
  | CWrite e _ _ => clean e
  | CBatch ok es => ok = true /\ Forall (fun e => clean (fst (fst e))) es
  | CSync _ => True
  end.

Lemma append_entry_next e now data (s s' : state) r : append_entry e now data s = Ret (s', r) -> nextSegmentID (fst s') = nextSegmentID (fst s).
Proof. destruct s as [w d]. unfold append_entry. intros H. repeat case_match; simplify_eq; done. Qed.
Lemma write_entries_next es : forall (s s' : state) r, write_entries es s = Ret (s', r) -> nextSegmentID (fst s') = nextSegmentID (fst s).
Proof.
  induction es as [|[[e now] data] es IH]; intros s s' r; cbn [write_entries]; [by intros [= <- <-]|].
  destruct (append_entry e now data s) as [[s1 r1]| |] eqn:E; [|done..]. apply append_entry_next in E.
  destruct r1 as [off|err]; [|by intros [= <- <-]]. destruct (write_entries es s1) as [[s2 r2]| |] eqn:E2; [|done..].
  apply IH in E2. destruct r2; intros [= <- <-]; congruence.
Qed.
Lemma rotate_next (b ok : bool) (s : state) : nextSegmentID (fst (fst (if b then rotateSegment ok s else (s, None)))) <= nextSegmentID (fst s) + 1.
Proof. destruct b; [|cbn; lia]. destruct s as [w d]. unfold rotateSegment. destruct ok; cbn; lia. Qed.
(** A call opens at most one segment. *)
Lemma run_call_next c (s s' : state) : run_call c s = Ret s' -> nextSegmentID (fst s') <= nextSegmentID (fst s) + 1.
Proof.
  destruct c as [e now data|ok es|ok]; cbn [run_call].
  - unfold Write. destruct (segments _ !! _) as [seg|]; [|done].
    pose proof (rotate_next (seg_Size seg >=? maxSegmentSize (fst s)) (open_ok e) s) as Hr.
    match type of Hr with context [fst (fst ?x)] => destruct x as [s1 [err|]] end; cbn [fst] in Hr; [by intros [= <-]|].
    destruct (append_entry e now data s1) as [[s2 r]| |] eqn:E; [|done..]. apply append_entry_next in E.
    destruct r; intros [= <-]; cbn; lia.
  - unfold WriteBatch. destruct (segments _ !! _) as [seg|]; [|done].
    pose proof (rotate_next (seg_Size seg + batch_size es >=? maxSegmentSize (fst s)) ok s) as Hr.
    match type of Hr with context [fst (fst ?x)] => destruct x as [s1 [err|]] end; cbn [fst] in Hr; [by intros [= <-]|].
    destruct (write_entries es s1) as [[s2 r]| |] eqn:E; [|done..]. apply write_entries_next in E.
    destruct r; intros [= <-]; cbn; lia.
  - intros [= <-]. destruct s as [w d]. unfold Sync. destruct (segments w !! _); [|cbn; lia]. destruct ok; cbn; lia.
Qed.

Lemma clean_call_accurate c s : accurate s -> clean_call c -> exists s', run_call c s = Ret s' /\ accurate s'.
Proof.
  intros H. destruct c as [e now data|ok es|ok]; cbn [run_call clean_call].
  - intros Hc. destruct (Write_accurate e now data s H Hc) as (s' & off & -> & H' & _). by exists s'.
  - intros [-> Hes]. pose proof H as (seg & f & Hs & _). unfold WriteBatch. rewrite Hs.
    destruct (maybe_rotate_accurate (seg_Size seg + batch_size es >=? maxSegmentSize (fst s)) s H) as (s1 & -> & H1).
    destruct (write_entries_accurate es s1 H1 Hes) as (s2 & offs & -> & H2 & _).
    eexists. split; [done|]. by apply accurate_unsynced.
  - intros _. eexists. split; [done|]. destruct H as (seg & f & Hs & Hi & Hf & Hsz & Hlt & Hfresh). destruct s as [w d]. cbn in *.
    rewrite Hs. destruct ok; cbn.
    + eexists _, f. cbn. rewrite lookup_alter_eq, Hs. assert (files (fsync (seg_ID seg) d) = files d) as E by (unfold fsync; by destruct (files d !! seg_ID seg)). rewrite E. by split_and!.
    + by exists seg, f.
Qed.
Lemma run_calls_accurate cs : forall s, accurate s -> Forall clean_call cs -> exists s', run_calls cs s = Ret s' /\ accurate s'
  /\ nextSegmentID (fst s') <= nextSegmentID (fst s) + Z.of_nat (length cs).
Proof.
  induction cs as [|c cs IH]; intros s H Hcs; cbn [run_calls]; [exists s; split_and!; [done..|cbn; lia]|].
  apply Forall_cons in Hcs as [Hc Hcs]. destruct (clean_call_accurate c s H Hc) as (s1 & E & H1). rewrite E. apply run_call_next in E.
  destruct (IH s1 H1 Hcs) as (s2 & E2 & H2 & Hn). exists s2. split_and!; [done..|]. cbn [length]. lia.
Qed.

(** C4: what is written can be read back, for good.  A new log in an empty
    directory, used for fewer than 999999 calls without a failure of the disk,
    then writes an entry, again without a failure: the [Write] succeeds and
    returns an offset at which [ReadEntry] of the current segment finds exactly
    the time, length, checksum and data, and still finds them after any further
    calls of [Write], [WriteBatch] and [Sync], whatever fails during those.
    The data are bytes, fewer than 2^32, and the time fits 64 bits. *)
Theorem wal_write_read_forever maxSize before e now data after :
  Forall clean_call before -> Z.of_nat (length before) < 999999 -> clean e -> storable now data ->
  exists s0 s s1 off s2, NewWALWriter maxSize true empty_disk = Ok s0 /\ run_calls before s0 = Ret s
    /\ Write e now data s = Ret (s1, Ok off)
    /\ run_calls after s1 = Ret s2
    /\ ReadEntry (loadSegments (snd s2)) (snd s2) (currentSegment (fst s1)) off = Ok (entry_of now data).
Proof.
  intros Hb Hlen He Hs. destruct (NewWALWriter_accurate maxSize) as (s0 & E0 & H0).
  destruct (run_calls_accurate before s0 H0 Hb) as (s & E & H & Hn).
  destruct (Write_accurate e now data s H He) as (s1 & off & E1 & H1 & Hin).
  destruct (run_calls_live after s1 (accurate_live _ H1)) as (s2 & E2 & _ & X).
  exists s0, s, s1, off, s2. split_and!; try done. apply ReadEntry_in; [by eapply entry_in_extends| |done].
  assert (nextSegmentID (fst s0) = 1) as Hn0 by (by injection E0 as <-).
  assert (run_call (CWrite e now data) s = Ret s1) as Ew by (cbn [run_call]; by rewrite E1). apply run_call_next in Ew.
  destruct H1 as (? & ? & _ & _ & _ & _ & Hlt & _). unfold parsable. apply Z.ltb_lt. lia.
Qed.

(** A fresh log with segments of 100 bytes. *)
Definition fresh_log : state :=
  (mkWriter 100 0 {[0 := mkSegment 0 0 true]} 1, mkDisk {[0 := []]} ∅).

Lemma fresh_log_new : NewWALWriter 100 true empty_disk = Ok fresh_log.
Proof. reflexivity. Qed.

Lemma fresh_log_accurate : accurate fresh_log.
Proof.
  destruct (NewWALWriter_accurate 100) as (s & E & H). rewrite fresh_log_new in E. by injection E as <-.
Qed.

Lemma storable_small now data :
  bytes_ok data -> (length data <= 100)%nat -> 0 <= now < 2 ^ 63 -> storable now data.
Proof. intros. split_and!; [done|lia|lia|lia]. Qed.

Lemma wal_write_read_forever_witness :
  exists s0 s s1 off s2, NewWALWriter 20 true empty_disk = Ok s0
    /\ run_calls [CWrite no_fault 40 [1; 2; 3; 4; 5]; CBatch true [(no_fault, 41, [6])]; CSync true] s0 = Ret s
    /\ Write no_fault 42 [7; 8] s = Ret (s1, Ok off)
    /\ run_calls [CWrite (mkEnv true (Some 3%nat) None) 43 [1]; CSync true; CBatch false []] s1 = Ret s2
    /\ ReadEntry (loadSegments (snd s2)) (snd s2) (currentSegment (fst s1)) off = Ok (entry_of 42 [7; 8]).
Proof.
  apply (wal_write_read_forever 20 [CWrite no_fault 40 [1; 2; 3; 4; 5]; CBatch true [(no_fault, 41, [6])]; CSync true] no_fault 42 [7; 8]).
  - repeat constructor.
  - cbn. lia.
  - split_and!; reflexivity.
  - apply storable_small; [repeat constructor; lia|simpl; lia|lia].
Defined.

(** A batch stores its entries.  An undisturbed [WriteBatch] succeeds,
    keeps the whole batch in one segment and returns one offset per entry, at
    each of which [ReadEntry] finds that entry. *)
Theorem wal_batch_read es s :
  accurate s -> Forall (fun e => clean (fst (fst e)) /\ storable (snd (fst e)) (snd e)) es ->
  exists s' offs, WriteBatch true es s = Ret (s', Ok offs) /\ accurate s'
    /\ (parsable (currentSegment (fst s')) = true ->
        Forall2 (fun e off =>
          ReadEntry (loadSegments (snd s')) (snd s') (currentSegment (fst s')) off
          = Ok (entry_of (snd (fst e)) (snd e))) es offs).
Proof.
  intros H Hes. pose proof H as (seg & f & Hs & _). unfold WriteBatch. rewrite Hs.
  destruct (maybe_rotate_accurate (seg_Size seg + batch_size es >=? maxSegmentSize (fst s)) s H)
    as (s1 & -> & H1).
  destruct (write_entries_accurate es s1 H1) as (s2 & offs & -> & H2 & Hcur & _ & Hall).
  { by eapply Forall_impl; [exact Hes|intros ? []]. }
  eexists _, offs. split; [done|]. split; [by apply accurate_unsynced|]. cbn. intros Hp.
  eapply Forall2_impl; [apply (Forall_Forall2_and _ _ _ _ Hes Hall)|].
  intros [[e now] data] off [[_ Hst] Hin]. by apply ReadEntry_in.
Qed.

Lemma wal_batch_read_witness :
  exists s' offs, WriteBatch true [(no_fault, 1, [7]); (no_fault, 2, [8; 9])] fresh_log
      = Ret (s', Ok offs) /\ accurate s'
    /\ (parsable (currentSegment (fst s')) = true ->
        Forall2 (fun e off =>
          ReadEntry (loadSegments (snd s')) (snd s') (currentSegment (fst s')) off
          = Ok (entry_of (snd (fst e)) (snd e))) [(no_fault, 1, [7]); (no_fault, 2, [8; 9])] offs).
Proof.
  apply (wal_batch_read [(no_fault, 1, [7]); (no_fault, 2, [8; 9])] fresh_log).
  - apply fresh_log_accurate.
  - repeat constructor; simpl; lia.
Defined.

(** C39: corruption is detected.  If one byte of the data of a stored entry
    changes on disk, to any other value, [ReadEntry] reports a checksum
    mismatch instead of returning data. *)
Theorem wal_detects_corruption d id pre now p b b' s post :
  files d !! id = Some (pre ++ header now (p ++ b :: s) ++ (p ++ b' :: s) ++ post) ->
  parsable id = true -> storable now (p ++ b :: s) -> byte_ok b' -> b <> b' ->
  ReadEntry (loadSegments d) d id (Z.of_nat (length pre)) = Err "checksum mismatch".
Proof.
  intros Hf Hp Hs Hb' Hne.
  rewrite (ReadEntry_bytes d id pre now (p ++ b :: s) (p ++ b' :: s) post);
    [|done..|by rewrite !length_app].
  destruct Hs as (Hb & _). apply Forall_app in Hb as [Hbp Hbs].
  inversion Hbs as [|? ? Hb Hbs']; subst.
  by rewrite (proj2 (Z.eqb_neq _ _) (crc_differs p b' b s Hbp Hbs' Hb' Hb (not_eq_sym Hne))).
Qed.

Lemma wal_detects_corruption_witness :
  ReadEntry (loadSegments (mkDisk {[0 := header 5 [1; 2; 3] ++ [1; 9; 3]]} ∅))
    (mkDisk {[0 := header 5 [1; 2; 3] ++ [1; 9; 3]]} ∅) 0 0 = Err "checksum mismatch".
Proof.
  apply (wal_detects_corruption (mkDisk {[0 := header 5 [1; 2; 3] ++ [1; 9; 3]]} ∅) 0 [] 5
    [1] 2 9 [3] []).
  - reflexivity.
  - reflexivity.
  - apply storable_small; [repeat constructor; lia|simpl; lia|lia].
  - unfold byte_ok. lia.
  - lia.
Defined.

(** ** Where the guarantees end *)

(** Restarting a writer on an existing directory breaks its offsets.  The
    new writer reopens segment 0 for appending but starts its size at 0, so
    its first [Write] returns offset 0, where the first entry of the previous
    run still is. *)
Theorem wal_restart_offset maxSize d now data now' data' :
  0 < maxSize -> entry_in d 0 0 now data -> storable now data ->
  exists s s', NewWALWriter maxSize true d = Ok s
    /\ Write no_fault now' data' s = Ret (s', Ok 0)
    /\ ReadEntry (loadSegments (snd s')) (snd s') 0 0 = Ok (entry_of now data).
Proof.
  intros Hm Hin Hs. pose proof Hin as (pre & post & Hf & _).
  set (w := mkWriter maxSize 0 (<[0 := mkSegment 0 0 true]> ∅) (0 + 1)).
  assert (NewWALWriter maxSize true d = Ok (w, d)) as E.
  { unfold NewWALWriter, rotateSegment, open_append. cbn [nextSegmentID]. by rewrite Hf. }
  assert (live (w, d)) as Hl by (exists (mkSegment 0 0 true); cbn; rewrite Hf; eauto).
  destruct (Write_live no_fault now' data' _ Hl) as (s' & r & EW & _ & X).
  exists (w, d), s'. split; [done|].
  assert (r = Ok 0) as ->.
  { unfold Write in EW. change (segments (fst (w, d)) !! _) with (Some (mkSegment 0 0 true)) in EW.
    cbn [seg_Size fst] in EW. destruct (Z.geb_spec 0 (maxSegmentSize w)) as [Hge|_];
      [cbn in Hge; lia|].
    unfold append_entry, file_write in EW.
    change (segments w !! _) with (Some (mkSegment 0 0 true)) in EW. cbn [seg_ID] in EW.
    rewrite Hf in EW. cbn [no_fault header_fault data_fault files] in EW.
    rewrite lookup_insert_eq in EW. by injection EW as _ <-. }
  split; [done|]. apply ReadEntry_in; [by eapply entry_in_extends|done|done].
Qed.

Lemma wal_restart_offset_witness :
  exists s s', NewWALWriter 100 true (mkDisk {[0 := header 5 [1; 2] ++ [1; 2]]} ∅) = Ok s
    /\ Write no_fault 6 [3] s = Ret (s', Ok 0)
    /\ ReadEntry (loadSegments (snd s')) (snd s') 0 0 = Ok (entry_of 5 [1; 2]).
Proof.
  apply (wal_restart_offset 100 (mkDisk {[0 := header 5 [1; 2] ++ [1; 2]]} ∅) 5 [1; 2] 6 [3]).
  - lia.
  - exists [], []. split; reflexivity.
  - apply storable_small; [repeat constructor; lia|simpl; lia|lia].
Defined.

(** Segments the writer has left behind: no call fsyncs them any more. *)
Definition left_behind (id : Z) (s s' : state) : Prop :=
  id < currentSegment (fst s) < nextSegmentID (fst s) ->
  id < currentSegment (fst s') < nextSegmentID (fst s')
  /\ durable (snd s') !! id = durable (snd s) !! id.

Lemma left_behind_trans id s1 s2 s3 :
  left_behind id s1 s2 -> left_behind id s2 s3 -> left_behind id s1 s3.
Proof. unfold left_behind. intros H12 H23 H. destruct (H12 H) as [H' <-]. auto. Qed.

Lemma file_write_durable fault id bs d : durable (fst (file_write fault id bs d)) = durable d.
Proof. unfold file_write. destruct (files d !! id); [|done]. by destruct fault. Qed.

Lemma rotate_left_behind id ok s : left_behind id s (fst (rotateSegment ok s)).
Proof.
  destruct s as [w d]. intros H. cbn in H. unfold rotateSegment. destruct ok; cbn; [|split; [lia|done]].
  split; [lia|]. unfold open_append. by destruct (files d !! _).
Qed.

Lemma append_entry_left_behind id e now data s s' r :
  append_entry e now data s = Ret (s', r) -> left_behind id s s'.
Proof.
  destruct s as [w d]. intros E H. unfold append_entry in E.
  destruct (segments w !! currentSegment w) as [seg|]; [|done].
  pose proof (file_write_durable (header_fault e) (seg_ID seg) (header now data) d) as E1.
  destruct (file_write _ _ (header now data) d) as [d1 []]; cbn in E1.
  { injection E as <- _. cbn in *. split; [lia|congruence]. }
  pose proof (file_write_durable (data_fault e) (seg_ID seg) data d1) as E2.
  destruct (file_write _ _ data d1) as [d2 []]; cbn in E2; injection E as <- _; cbn in *;
    (split; [lia|congruence]).
Qed.

Lemma write_entries_left_behind id es : forall s s' r,
  write_entries es s = Ret (s', r) -> left_behind id s s'.
Proof.
  induction es as [|[[e now] data] es IH]; intros s s' r E; cbn [write_entries] in E.
  - injection E as <- _. done.
  - destruct (append_entry e now data s) as [[s1 [off|err]]| |] eqn:E1; [| |done..];
      apply append_entry_left_behind with (id := id) in E1.
    + destruct (write_entries es s1) as [[s2 r2]| |] eqn:E2; [|done..].
      assert (s' = s2) as -> by (destruct r2; congruence).
      eapply left_behind_trans; [exact E1|by eapply IH].
    + injection E as <- _. done.
Qed.

Lemma maybe_rotate_left_behind id (b ok : bool) s :
  left_behind id s (fst (if b then rotateSegment ok s else (s, None))).
Proof. destruct b; [apply rotate_left_behind|done]. Qed.

Lemma run_call_left_behind id c s s' : live s -> run_call c s = Ret s' -> left_behind id s s'.
Proof.
  intros Hl E. destruct c as [e now data|ok es|ok]; cbn [run_call] in E.
  - unfold Write in E. destruct (segments (fst s) !! currentSegment (fst s)) as [seg|]; [|done].
    pose proof (maybe_rotate_left_behind id (seg_Size seg >=? maxSegmentSize (fst s)) (open_ok e) s) as H1.
    destruct (if _ >=? _ then _ else _) as [s1 [err|]]; [by injection E as <-|].
    destruct (append_entry e now data s1) as [[s2 r]| |] eqn:E2; [|done..].
    apply append_entry_left_behind with (id := id) in E2.
    eapply left_behind_trans; [exact H1|]. cbn [fst] in *.
    destruct r; injection E as <-; exact E2.
  - unfold WriteBatch in E. destruct (segments (fst s) !! currentSegment (fst s)) as [seg|]; [|done].
    pose proof (maybe_rotate_left_behind id
      (seg_Size seg + batch_size es >=? maxSegmentSize (fst s)) ok s) as H1.
    destruct (if _ >=? _ then _ else _) as [s1 [err|]]; [by injection E as <-|].
    destruct (write_entries es s1) as [[s2 r]| |] eqn:E2; [|done..].
    apply write_entries_left_behind with (id := id) in E2.
    eapply left_behind_trans; [exact H1|]. cbn [fst] in *.
    destruct r; injection E as <-; exact E2.
  - injection E as <-. destruct s as [w d]. destruct Hl as (seg & Hs & Hi & _). cbn in Hs, Hi.
    unfold Sync. rewrite Hs. destruct ok; [|done]. intros H. cbn in *. split; [done|].
    unfold fsync. destruct (files d !! seg_ID seg); [|done]. cbn. by rewrite lookup_insert_ne by lia.
Qed.

Lemma run_calls_left_behind id cs : forall s s',
  live s -> run_calls cs s = Ret s' -> left_behind id s s'.
Proof.
  induction cs as [|c cs IH]; intros s s' Hl E; cbn [run_calls] in E; [by injection E as <-|].
  destruct (run_calls_live [c] s Hl) as (s1 & E1 & H1 & _). cbn [run_calls] in E1.
  destruct (run_call c s) as [s2| |] eqn:Ec; [|done..]. injection E1 as ->.
  eapply left_behind_trans; [by eapply run_call_left_behind|by eapply IH].
Qed.

(** Rotation leaves data behind unsynced.  Once a write has moved on to a
    new segment, no later call of [Write], [WriteBatch] or [Sync] makes any
    further byte of the old segment durable: [Sync] covers the current
    segment only, whatever was written before the rotation. *)
Theorem wal_rotation_unsynced e now data s cs :
  accurate s -> clean e ->
  (forall seg, segments (fst s) !! currentSegment (fst s) = Some seg ->
     maxSegmentSize (fst s) <= seg_Size seg) ->
  exists s1 off s2, Write e now data s = Ret (s1, Ok off)
    /\ currentSegment (fst s1) <> currentSegment (fst s)
    /\ run_calls cs s1 = Ret s2
    /\ durable (snd s2) !! currentSegment (fst s) = durable (snd s) !! currentSegment (fst s).
Proof.
  intros H (Eo & Eh & Ed) Hfull. pose proof H as (seg & f & Hs & _ & _ & _ & Hlt & _).
  specialize (Hfull seg Hs). unfold Write. rewrite Hs, Eo.
  destruct (Z.geb_spec (seg_Size seg) (maxSegmentSize (fst s))) as [_|]; [|lia].
  destruct (rotate_accurate s H) as (s1 & Er & H1). rewrite Er.
  assert (currentSegment (fst s1) = nextSegmentID (fst s) /\ durable (snd s1) = durable (snd s))
    as [Hcur Hdur].
  { destruct s as [w d]. cbn in Er. injection Er as <-. split; [done|]. cbn. unfold open_append.
    by destruct (files d !! _). }
  destruct (append_entry_accurate e now data s1 H1 Eh Ed) as (s2 & off & E2 & H2 & Hc2 & _).
  rewrite E2. apply append_entry_left_behind with (id := currentSegment (fst s)) in E2.
  pose proof (accurate_unsynced _ H2) as H2'.
  destruct (run_calls_live cs _ (accurate_live _ H2')) as (s3 & E3 & _).
  exists (mark_unsynced (fst s2), snd s2), off, s3. split; [done|]. cbn [fst snd].
  split; [cbn; lia|]. split; [done|].
  apply run_calls_left_behind with (id := currentSegment (fst s)) in E3; [|by apply accurate_live].
  destruct E2 as [Hr2 Hd2]; [destruct H1 as (? & ? & _ & _ & _ & _ & ? & _); lia|].
  destruct E3 as [_ ->]; [cbn in *; lia|]. cbn. congruence.
Qed.

(** A log whose only segment is over its limit of 10 bytes. *)
Definition over_limit : state :=
  (mkWriter 10 0 {[0 := mkSegment 0 18 false]} 1, mkDisk {[0 := header 5 [1; 2] ++ [1; 2]]} ∅).

Lemma over_limit_accurate : accurate over_limit.
Proof.
  exists (mkSegment 0 18 false), (header 5 [1; 2] ++ [1; 2]). split_and!; try done.
  intros id Hid. cbn [over_limit fst snd nextSegmentID files] in *. by rewrite lookup_singleton_ne by lia.
Qed.

Lemma wal_rotation_unsynced_witness :
  exists s1 off s2, Write no_fault 6 [3] over_limit = Ret (s1, Ok off)
    /\ currentSegment (fst s1) <> 0
    /\ run_calls [CSync true; CSync true] s1 = Ret s2
    /\ durable (snd s2) !! 0 = durable (snd over_limit) !! 0.
Proof.
  apply (wal_rotation_unsynced no_fault 6 [3] over_limit [CSync true; CSync true]).
  - apply over_limit_accurate.
  - split_and!; reflexivity.
  - intros seg Hseg. vm_compute in Hseg. injection Hseg as <-. vm_compute. discriminate.
Defined.

End WalSpec.
