(* ===== verification/Wire.v ===== *)
(** * The Portask binary protocol ([src/pkg/network/protocol.go])

    Framing ([readHeader], [validateHeader], [validateChecksum],
    [sendResponse], [writeMessage]), the handlers of the four request types
    and of the JSON variants, and the connection loop [HandleConnection].

    A connection is read as a list of bytes and read errors; the end of the
    list is the end of the stream, which every further read sees again.  What
    the handler calls is a parameter: the [MessageStore] (a class with the two
    methods it uses), the codec, and the JSON and gzip packages.  Writes to the
    connection may fail, by number. *)
From stdpp Require Import base gmap strings list numbers fin_maps pretty.
From Stdlib Require Import ZArith Lia.
From S2P Require Import Prelude Types Wal.

Module Wire.
Import Types Wal.

(** ** Go errors, as far as the loop tells them apart *)

Inductive goerr :=
| EOF
| UnexpectedEOF
| NetError (timeout : bool) (msg : string)
| Canceled
| DeadlineExceeded
| Plain (msg : string)
| Wrapped (msg : string) (inner : goerr).

(** [err.Error()] *)
Fixpoint text (e : goerr) : string :=
  match e with
  | EOF => "EOF"
  | UnexpectedEOF => "unexpected EOF"
  | NetError _ msg => msg
  | Canceled => "context canceled"
  | DeadlineExceeded => "context deadline exceeded"
  | Plain msg => msg
  | Wrapped msg inner => msg +:+ ": " +:+ text inner
  end.

(** [errors.Is] with one of the two context errors. *)
Fixpoint is_context_error (e : goerr) : bool :=
  match e with
  | Canceled | DeadlineExceeded => true
  | Wrapped _ inner => is_context_error inner
  | _ => false
  end.

(** The type assertion and the comparison with [io.EOF] look at the outermost
    error only. *)
Definition isRecoverableError (e : goerr) : bool :=
  match e with
  | NetError timeout _ => timeout
  | EOF => false
  | _ => negb (is_context_error e)
  end.

(** [%x] *)
Definition hex_digit (d : Z) : Ascii.ascii :=
  Ascii.ascii_of_nat (Z.to_nat (if d <? 10 then 48 + d else 87 + d)).
Fixpoint hex_go (fuel : nat) (z : Z) (acc : string) : string :=
  match fuel with
  | O => acc
  | S fuel => let acc := String (hex_digit (z mod 16)) acc in
              if z / 16 =? 0 then acc else hex_go fuel (z / 16) acc
  end.
Definition hex32 (z : Z) : string := hex_go 8 z "".

Definition bytes_of_string (s : string) : bytes :=
  (fun c => Z.of_nat (Ascii.nat_of_ascii c)) <$> String.list_ascii_of_string s.

(** ** Frames *)

Definition ProtocolMagic : Z := 0x504F5254.
Definition ProtocolVersion : Z := 1.
Definition HeaderSize : nat := 16.
Definition MessageTypePublish : Z := 1.
Definition MessageTypeSubscribe : Z := 2.
Definition MessageTypeFetch : Z := 3.
Definition MessageTypeAck : Z := 4.
Definition MessageTypeHeartbeat : Z := 5.
Definition MessageTypeError : Z := 6.
Definition MessageTypeResponse : Z := 7.
Definition FlagCompressed : Z := 1.
Definition MaxMessageSize : Z := 64 * 1024 * 1024.

Record ProtocolHeader := mkHeader {
  Magic : Z;
  Version : Z;
  Type_ : Z;
  Flags : Z;
  Length : Z;
  Checksum : Z
}.

(** [crc32.ChecksumIEEE]: the CRC the write-ahead log writes out bit by bit. *)
Definition calculateCRC32 (data : bytes) : Z := crc32Checksum data.

Definition header_bytes (h : ProtocolHeader) : bytes :=
  be_put 4 (Magic h) ++ [Version h] ++ [Type_ h] ++ be_put 2 (Flags h)
  ++ be_put 4 (Length h) ++ be_put 4 (Checksum h).

#[global] Arguments header_bytes : simpl never.
#[global] Arguments calculateCRC32 : simpl never.

Definition input : Type := list (Z + goerr).

(** [io.ReadFull]: an end of stream in the middle is unexpected; other errors
    are passed on.  [got] tells whether bytes were read already. *)
Fixpoint read_full (n : nat) (got : bool) (inp : input) : res goerr bytes * input :=
  match n with
  | O => (Ok [], inp)
  | S n =>
    match inp with
    | [] => (Err (if got then UnexpectedEOF else EOF), [])
    | inr EOF :: inp => (Err (if got then UnexpectedEOF else EOF), inp)
    | inr e :: inp => (Err e, inp)
    | inl b :: inp =>
      match read_full n true inp with
      | (Ok bs, inp) => (Ok (b :: bs), inp)
      | (Err e, inp) => (Err e, inp)
      end
    end
  end.

Definition readHeader (inp : input) : res goerr ProtocolHeader * input :=
  match read_full HeaderSize false inp with
  | (Err e, inp) => (Err e, inp)
  | (Ok hb, inp) =>
    (Ok (mkHeader (be_get (take 4 hb)) (nth 4 hb 0) (nth 5 hb 0) (be_get (take 2 (drop 6 hb)))
           (be_get (take 4 (drop 8 hb))) (be_get (take 4 (drop 12 hb)))), inp)
  end.

Definition validateHeader (maxMessageSize : Z) (h : ProtocolHeader) : option goerr :=
  if negb (Magic h =? ProtocolMagic) then
    Some (Plain ("invalid magic number: " +:+ hex32 (Magic h)))
  else if negb (Version h =? ProtocolVersion) then
    Some (Plain ("unsupported protocol version: " +:+ pretty (Version h)))
  else if Length h >? u32 maxMessageSize then
    Some (Plain ("message too large: " +:+ pretty (Length h) +:+ " bytes"))
  else None.

Definition validateChecksum (h : ProtocolHeader) (payload : bytes) : option goerr :=
  let expectedChecksum := calculateCRC32 payload in
  if negb (Checksum h =? expectedChecksum) then
    Some (Plain ("checksum mismatch: expected " +:+ hex32 expectedChecksum
                   +:+ ", got " +:+ hex32 (Checksum h)))
  else None.

(** The part of [processMessage] before the dispatch. *)
Definition read_frame (maxMessageSize : Z) (inp : input)
  : res goerr (ProtocolHeader * bytes) * input :=
  match readHeader inp with
  | (Err e, inp) => (Err (Wrapped "failed to read header" e), inp)
  | (Ok header, inp) =>
    match validateHeader maxMessageSize header with
    | Some e => (Err (Wrapped "invalid header" e), inp)
    | None =>
      match read_full (Z.to_nat (Length header)) false inp with
      | (Err e, inp) => (Err (Wrapped "failed to read payload" e), inp)
      | (Ok payload, inp) =>
        match validateChecksum header payload with
        | Some e => (Err (Wrapped "checksum validation failed" e), inp)
        | None => (Ok (header, payload), inp)
        end
      end
    end
  end.

(** ** What the handler calls *)

(** The two methods of [storage.MessageStore] the handler uses. *)
Class MessageStore (S : Type) := {
  Store : PortaskMessage -> S -> S * option goerr;
  Fetch : TopicName -> Z -> Z -> Z -> S -> res goerr (list PortaskMessage)
}.

Record FetchRequest := mkFetch { f_Topic : string; f_Partition : Z; f_Offset : Z; f_Limit : Z }.

(** The dynamic values of a JSON object, as the handlers tell them apart. *)
Inductive json := JStr (s : string) | JNum (z : Z) | JOther.

(** Codec, gzip and JSON packages. *)
Record libs := mkLibs {
  Decode : bytes -> res goerr PortaskMessage;
  gunzip : bytes -> res goerr bytes;
  json_subscribe : bytes -> res goerr (list string);
  json_fetch : bytes -> res goerr FetchRequest;
  json_object : bytes -> res goerr (gmap string json);
  show_subscribed : list string -> Z -> res goerr bytes;
  show_fetch_error : string -> string -> bytes;
  show_fetched : FetchRequest -> list PortaskMessage -> res goerr bytes
}.

(** Handler counters, store and connection. *)
Record hstate (S : Type) := mkState {
  store : S;
  totalMessages : Z;
  totalErrors : Z;
  avgProcessTime : Z;
  subscriptions : gset string;
  written : bytes;
  nwrites : nat
}.
#[global] Arguments mkState {S}.
#[global] Arguments store {S}.
#[global] Arguments totalMessages {S}.
#[global] Arguments totalErrors {S}.
#[global] Arguments avgProcessTime {S}.
#[global] Arguments subscriptions {S}.
#[global] Arguments written {S}.
#[global] Arguments nwrites {S}.

Section handler.
Context {S : Type} `{MessageStore S}.
Context (L : libs) (maxMessageSize : Z).
(** The clock, how long the current request took, and which writes fail. *)
Context (now took : Z) (wfault : nat -> option goerr).
Implicit Types st : hstate S.

Definition add_message st : hstate S :=
  mkState (store st) (s64 (totalMessages st + 1)) (totalErrors st) (avgProcessTime st)
    (subscriptions st) (written st) (nwrites st).
Definition add_error st : hstate S :=
  mkState (store st) (totalMessages st) (s64 (totalErrors st + 1)) (avgProcessTime st)
    (subscriptions st) (written st) (nwrites st).
Definition set_store (x : S) st : hstate S :=
  mkState x (totalMessages st) (totalErrors st) (avgProcessTime st)
    (subscriptions st) (written st) (nwrites st).
Definition set_subscriptions (x : gset string) st : hstate S :=
  mkState (store st) (totalMessages st) (totalErrors st) (avgProcessTime st)
    x (written st) (nwrites st).

Definition updateProcessTime (duration : Z) st : hstate S :=
  mkState (store st) (totalMessages st) (totalErrors st)
    (if avgProcessTime st =? 0 then duration else Z.quot (avgProcessTime st + duration) 2)
    (subscriptions st) (written st) (nwrites st).

Definition conn_Write (bs : bytes) st : hstate S * option goerr :=
  let st' := mkState (store st) (totalMessages st) (totalErrors st) (avgProcessTime st)
               (subscriptions st) in
  match wfault (nwrites st) with
  | Some e => (st' (written st) (Datatypes.S (nwrites st)), Some e)
  | None => (st' (written st ++ bs) (Datatypes.S (nwrites st)), None)
  end.

Definition writeMessage (h : ProtocolHeader) (payload : bytes) st : hstate S * option goerr :=
  match conn_Write (header_bytes h) st with
  | (st, Some e) => (st, Some (Wrapped "failed to write header" e))
  | (st, None) =>
    if 0 <? Z.of_nat (length payload) then
      match conn_Write payload st with
      | (st, Some e) => (st, Some (Wrapped "failed to write payload" e))
      | (st, None) => (st, None)
      end
    else (st, None)
  end.

Definition response_header (messageType : Z) (payload : bytes) : ProtocolHeader :=
  mkHeader ProtocolMagic ProtocolVersion messageType 0 (u32 (Z.of_nat (length payload)))
    (calculateCRC32 payload).

Definition sendResponse (messageType : Z) (payload : bytes) st : hstate S * option goerr :=
  writeMessage (response_header messageType payload) payload st.

Definition sendAckResponse (messageID : MessageID) st : hstate S * option goerr :=
  sendResponse MessageTypeAck (bytes_of_string messageID) st.
Definition sendErrorResponse (e : goerr) st : hstate S * option goerr :=
  sendResponse MessageTypeError (bytes_of_string (text e)) st.

(** ** Handlers *)

Definition OnMessage (message : PortaskMessage) st : hstate S * option goerr :=
  let st := add_message st in
  let '(s, err) := Store message (store st) in
  let st := set_store s st in
  let '(st, err) := match err with
                    | Some e => (st, Some (Wrapped "failed to store message" e))
                    | None => sendAckResponse (ID message) st
                    end in
  (updateProcessTime took st, err).

Definition handlePublish (h : ProtocolHeader) (payload : bytes) st : hstate S * option goerr :=
  let body :=
    match (if negb (Z.land (Flags h) FlagCompressed =? 0) then gunzip L payload else Ok payload) with
    | Err e => (st, Some (Wrapped "failed to decompress payload" e))
    | Ok payload =>
      match Decode L payload with
      | Err e => (add_error st, Some (Wrapped "failed to deserialize message" e))
      | Ok message =>
        let '(s, err) := Store message (store st) in
        let st := set_store s st in
        match err with
        | Some e => (add_error st, Some (Wrapped "failed to store message" e))
        | None => sendResponse MessageTypeResponse (bytes_of_string "message_stored") (add_message st)
        end
      end
    end in
  (updateProcessTime took (fst body), snd body).

Definition handleSubscribe (payload : bytes) st : hstate S * option goerr :=
  let body :=
    match json_subscribe L payload with
    | Err e => (add_error st, Some (Wrapped "failed to parse subscription request" e))
    | Ok topics =>
      let st := set_subscriptions (subscriptions st ∪ list_to_set topics) st in
      let st := add_message st in
      match show_subscribed L topics now with
      | Err e => (st, Some (Wrapped "failed to marshal response" e))
      | Ok responseBytes => sendResponse MessageTypeResponse responseBytes st
      end
    end in
  (updateProcessTime took (fst body), snd body).

Definition handleFetch (payload : bytes) st : hstate S * option goerr :=
  match gunzip L payload with
  | Err e => (st, Some (Wrapped "failed to decompress fetch payload" e))
  | Ok decompressedPayload =>
    match json_fetch L decompressedPayload with
    | Err e => (st, Some (Wrapped "failed to parse fetch request" e))
    | Ok r =>
      let r := if f_Limit r <=? 0 then mkFetch (f_Topic r) (f_Partition r) (f_Offset r) 100 else r in
      match Fetch (f_Topic r) (f_Partition r) (f_Offset r) (f_Limit r) (store st) with
      | Err e => sendResponse MessageTypeResponse (show_fetch_error L (text e) (f_Topic r)) st
      | Ok messages =>
        match show_fetched L r messages with
        | Err e => (st, Some (Wrapped "failed to marshal fetch response" e))
        | Ok responseData => sendResponse MessageTypeResponse responseData st
        end
      end
    end
  end.

Definition handleHeartbeat st : hstate S * option goerr :=
  sendResponse MessageTypeHeartbeat (bytes_of_string "pong") st.

Definition dispatch (h : ProtocolHeader) (payload : bytes) st : hstate S * option goerr :=
  if Type_ h =? MessageTypePublish then handlePublish h payload st
  else if Type_ h =? MessageTypeSubscribe then handleSubscribe payload st
  else if Type_ h =? MessageTypeFetch then handleFetch payload st
  else if Type_ h =? MessageTypeHeartbeat then handleHeartbeat st
  else (st, Some (Plain ("unsupported message type: " +:+ pretty (Type_ h)))).

Definition processMessage st (inp : input) : hstate S * input * option goerr :=
  match read_frame maxMessageSize inp with
  | (Err e, inp) => (st, inp, Some e)
  | (Ok (h, payload), inp) => let '(st, err) := dispatch h payload st in (st, inp, err)
  end.

(** ** JSON requests *)

Definition get_str (k : string) (m : gmap string json) : option string :=
  match m !! k with Some (JStr s) => Some s | _ => None end.

Definition handleJSONPublish (m : gmap string json) st : hstate S * option goerr :=
  let body :=
    match get_str "topic" m with
    | None => (st, Some (Plain "missing or invalid topic"))
    | Some topic =>
      match get_str "data" m with
      | None => (st, Some (Plain "missing or invalid data"))
      | Some data =>
        let message := mkMessage ("json-msg-" +:+ pretty now) topic (bytes_of_string data) now
          None None 0 StatusPending 0 "" "" "" 0 0 0 0 0 "" "" zero_internal in
        let '(s, err) := Store message (store st) in
        let st := set_store s st in
        match err with
        | Some e => (add_error st, Some (Wrapped "failed to store JSON message" e))
        | None => (add_message st, None)
        end
      end
    end in
  (updateProcessTime took (fst body), snd body).

Definition handleJSONSubscribe (m : gmap string json) st : hstate S * option goerr :=
  match get_str "topic" m with
  | None => (st, Some (Plain "missing or invalid topic"))
  | Some _ => (st, None)
  end.

Definition handleJSONFetch (m : gmap string json) st : hstate S * option goerr :=
  match get_str "topic" m with
  | None => (st, Some (Plain "missing or invalid topic"))
  | Some topic =>
    let limit := match m !! "limit" with Some (JNum l) => l | _ => 10 end in
    match Fetch topic 0 0 limit (store st) with
    | Err e => (st, Some (Wrapped "failed to fetch messages" e))
    | Ok _ => (st, None)
    end
  end.

Definition processJSONMessage (data : bytes) st : hstate S * option goerr :=
  match json_object L data with
  | Err e => (st, Some (Wrapped "failed to parse JSON" e))
  | Ok m =>
    match get_str "type" m with
    | None => (st, Some (Plain "missing or invalid message type"))
    | Some msgType =>
      if decide (msgType = "publish") then handleJSONPublish m st
      else if decide (msgType = "subscribe") then handleJSONSubscribe m st
      else if decide (msgType = "fetch") then handleJSONFetch m st
      else if decide (msgType = "heartbeat") then handleHeartbeat st
      else (st, Some (Plain ("unsupported JSON message type: " +:+ msgType)))
    end
  end.

(** [bytes.TrimSpace] on ASCII: tab, newline, vertical tab, form feed, carriage
    return, space. *)
Definition is_space (b : Z) : bool := (b =? 32) || ((9 <=? b) && (b <=? 13)).
Fixpoint trim_left (bs : bytes) : bytes :=
  match bs with
  | b :: bs' => if is_space b then trim_left bs' else bs
  | [] => []
  end.
Definition TrimSpace (bs : bytes) : bytes := rev (trim_left (rev (trim_left bs))).

Definition ProcessRawData (data : bytes) st : hstate S * option goerr :=
  let trimmedData := TrimSpace data in
  match trimmedData with
  | b :: _ => if b =? 123 then processJSONMessage trimmedData st
              else let '(st, _, err) := processMessage st (inl <$> data) in (st, err)
  | [] => let '(st, _, err) := processMessage st (inl <$> data) in (st, err)
  end.

(** ** The connection loop *)

(** [ctx i] is the context's error in the [i]-th iteration, if it is done. *)
Fixpoint HandleConnection (fuel : nat) (ctx : nat -> option goerr) (i : nat) st (inp : input)
  : exec (hstate S * option goerr) :=
  match fuel with
  | O => OutOfFuel
  | Datatypes.S fuel =>
    match ctx i with
    | Some e => Ret (st, Some e)
    | None =>
      match processMessage st inp with
      | (st, inp, None) => HandleConnection fuel ctx (Datatypes.S i) st inp
      | (st, _, Some EOF) => Ret (st, None)
      | (st, inp, Some e) =>
        let st := fst (sendErrorResponse e (add_error st)) in
        if isRecoverableError e then HandleConnection fuel ctx (Datatypes.S i) st inp
        else Ret (st, Some e)
      end
    end
  end.

End handler.

End Wire.
