(* ===== verification/WireSpec.v ===== *)
(** * What the binary protocol accepts and does

    Frames are accepted exactly when they are encodings; a frame with a
    damaged payload is rejected and skipped; a valid publish stores its message
    once and is answered; and two defects of the handler. *)
From stdpp Require Import base gmap strings list numbers fin_maps.
From Stdlib Require Import ZArith Lia.
From S2P Require Import Prelude Types Wal WalSpec Wire.

Module WireSpec.
Import Types Wal Wire.

(** ** Reading bytes *)

Lemma read_full_bytes bs : forall got rest,
  read_full (length bs) got ((inl <$> bs) ++ rest) = (Ok bs, rest).
Proof. induction bs as [|b bs IH]; intros got rest; simpl; [done|]. by rewrite IH. Qed.

Lemma read_full_inv n : forall got inp bs rest,
  read_full n got inp = (Ok bs, rest) -> inp = (inl <$> bs) ++ rest /\ length bs = n.
Proof.
  induction n as [|n IH]; intros got inp bs rest E; simpl in E; [by simplify_eq|].
  destruct inp as [|[b|e] inp]; [done| |by destruct e].
  destruct (read_full n true inp) as [[bs'|e] inp'] eqn:E'; simplify_eq.
  destruct (IH _ _ _ _ E') as [-> <-]. done.
Qed.

(** ** Frames *)

Definition header_ok (h : ProtocolHeader) : Prop :=
  0 <= Magic h < 2 ^ 32 /\ byte_ok (Version h) /\ byte_ok (Type_ h)
  /\ 0 <= Flags h < 2 ^ 16 /\ 0 <= Length h < 2 ^ 32 /\ 0 <= Checksum h < 2 ^ 32.

Lemma header_bytes_length h : length (header_bytes h) = HeaderSize.
Proof. unfold header_bytes. by autorewrite with portask. Qed.

Lemma be_get_put_small n z : 0 <= z < 2 ^ (8 * Z.of_nat n) -> be_get (be_put n z) = z.
Proof. intros. rewrite be_get_put. by apply Z.mod_small. Qed.

(** The fields of sixteen bytes, and the sixteen bytes of the fields. *)
Lemma readHeader_bytes h rest :
  header_ok h -> readHeader ((inl <$> header_bytes h) ++ rest) = (Ok h, rest).
Proof.
  intros (Hm & Hv & Ht & Hf & Hl & Hc). unfold readHeader.
  rewrite <-(header_bytes_length h), read_full_bytes. unfold header_bytes.
  set (m := be_put 4 (Magic h)). set (f := be_put 2 (Flags h)).
  set (l := be_put 4 (Length h)). set (c := be_put 4 (Checksum h)).
  assert (be_get m = Magic h) as Em by (apply be_get_put_small; simpl; lia).
  assert (be_get f = Flags h) as Ef by (apply be_get_put_small; simpl; lia).
  assert (be_get l = Length h) as El by (apply be_get_put_small; simpl; lia).
  assert (be_get c = Checksum h) as Ec by (apply be_get_put_small; simpl; lia).
  pose proof (be_put_length 4 (Magic h)) as Lm. fold m in Lm.
  pose proof (be_put_length 2 (Flags h)) as Lf. fold f in Lf.
  pose proof (be_put_length 4 (Length h)) as Ll. fold l in Ll.
  pose proof (be_put_length 4 (Checksum h)) as Lc. fold c in Lc.
  clearbody m f l c.
  destruct m as [|? [|? [|? [|? [|]]]]]; try done.
  destruct f as [|? [|? [|]]]; try done.
  destruct l as [|? [|? [|? [|? [|]]]]]; try done.
  destruct c as [|? [|? [|? [|? [|]]]]]; try done.
  cbn [app take drop nth]. rewrite Em, Ef, El, Ec. by destruct h.
Qed.

Lemma be_put_get_len n bs : bytes_ok bs -> length bs = n -> be_put n (be_get bs) = bs.
Proof. intros H <-. by apply be_put_get. Qed.

Lemma be_get_range_len n bs :
  bytes_ok bs -> length bs = n -> 0 <= be_get bs < 2 ^ (8 * Z.of_nat n).
Proof. intros H <-. by apply be_get_range. Qed.

Lemma readHeader_inv inp h rest :
  Forall (fun x => match x with inl b => byte_ok b | inr _ => True end) inp ->
  readHeader inp = (Ok h, rest) -> inp = (inl <$> header_bytes h) ++ rest /\ header_ok h.
Proof.
  intros Hb E. unfold readHeader in E.
  destruct (read_full HeaderSize false inp) as [[hb|e] inp'] eqn:Er; simplify_eq.
  apply read_full_inv in Er as [-> Hl]. apply Forall_app in Hb as [Hb _].
  rewrite Forall_fmap in Hb.
  assert (bytes_ok hb) as Hok by exact Hb. clear Hb.
  do 17 (destruct hb as [|? hb]; [try done|]); [|done]. clear Hl.
  assert (forall a b c d, byte_ok a -> byte_ok b -> byte_ok c -> byte_ok d -> bytes_ok [a; b; c; d])
    as H4 by (intros; unfold bytes_ok; rewrite !Forall_cons; auto).
  assert (forall a b, byte_ok a -> byte_ok b -> bytes_ok [a; b]) as H2 by (intros; unfold bytes_ok; rewrite !Forall_cons; auto).
  repeat match goal with H : bytes_ok (_ :: _) |- _ => inversion H; subst; clear H end.
  repeat match goal with H : Forall _ (_ :: _) |- _ => inversion H; subst; clear H end.
  unfold header_bytes, header_ok. cbn [take drop nth Magic Version Type_ Flags Length Checksum].
  rewrite !be_put_get_len by auto.
  split; [done|]. split_and!; try done.
  all: first [apply (be_get_range_len 4); solve [auto]|apply (be_get_range_len 2); auto].
Qed.

(** A frame the server accepts: header fields and payload that agree. *)
Definition frame_ok (maxSize : Z) (h : ProtocolHeader) (payload : bytes) : Prop :=
  Magic h = ProtocolMagic /\ Version h = ProtocolVersion /\ byte_ok (Type_ h)
  /\ 0 <= Flags h < 2 ^ 16 /\ Length h = Z.of_nat (length payload)
  /\ Length h <= u32 maxSize /\ Checksum h = calculateCRC32 payload /\ bytes_ok payload.

Lemma frame_header_ok maxSize h payload : frame_ok maxSize h payload -> header_ok h.
Proof.
  intros (Hm & Hv & Ht & Hf & Hl & Hmax & Hc & Hb).
  pose proof (wrapu_range 32 maxSize ltac:(lia)). pose proof (WalSpec.crc_word payload Hb) as Hw.
  unfold WalSpec.word in Hw. unfold header_ok, byte_ok, calculateCRC32 in *.
  rewrite Hm, Hv, Hc, Hl in *. unfold ProtocolMagic, ProtocolVersion. lia.
Qed.

Lemma validate_ok maxSize h payload :
  frame_ok maxSize h payload ->
  validateHeader maxSize h = None /\ validateChecksum h payload = None.
Proof.
  intros (Hm & Hv & Ht & Hf & Hl & Hmax & Hc & Hb).
  unfold validateHeader, validateChecksum. rewrite Hm, Hv, Hc, !Z.eqb_refl. cbn [negb].
  by destruct (Z.gtb_spec (Length h) (u32 maxSize)); [lia|].
Qed.

Lemma read_frame_encoded maxSize h payload rest :
  frame_ok maxSize h payload ->
  read_frame maxSize ((inl <$> header_bytes h ++ payload) ++ rest) = (Ok (h, payload), rest).
Proof.
  intros Hf. unfold read_frame. rewrite fmap_app, <-app_assoc.
  rewrite readHeader_bytes by by eapply frame_header_ok.
  destruct (validate_ok _ _ _ Hf) as [-> Ev]. destruct Hf as (_ & _ & _ & _ & -> & _).
  by rewrite Nat2Z.id, read_full_bytes, Ev.
Qed.

Lemma read_frame_inv maxSize inp h payload rest :
  Forall (fun x => match x with inl b => byte_ok b | inr _ => True end) inp ->
  read_frame maxSize inp = (Ok (h, payload), rest) ->
  frame_ok maxSize h payload /\ inp = (inl <$> header_bytes h ++ payload) ++ rest.
Proof.
  intros Hb E. unfold read_frame in E.
  destruct (readHeader inp) as [[h'|e] inp1] eqn:Eh; [|done].
  apply readHeader_inv in Eh as [-> Hh]; [|done]. apply Forall_app in Hb as [_ Hb].
  destruct (validateHeader maxSize h') eqn:Ev; [done|].
  destruct (read_full _ false inp1) as [[p|e] inp2] eqn:Er; [|done].
  apply read_full_inv in Er as [-> Hl].
  destruct (validateChecksum h' p) eqn:Ec; simplify_eq.
  apply Forall_app in Hb as [Hb _]. rewrite Forall_fmap in Hb.
  destruct Hh as (? & ? & ? & ? & ? & ?). unfold validateHeader, validateChecksum in *.
  destruct (Z.eqb_spec (Magic h) ProtocolMagic); [|done].
  destruct (Z.eqb_spec (Version h) ProtocolVersion); [|done].
  destruct (Z.eqb_spec (Checksum h) (calculateCRC32 payload)); [|done].
  cbn [negb] in Ev. destruct (Z.gtb_spec (Length h) (u32 maxSize)); [done|].
  split; [|by rewrite fmap_app, <-app_assoc].
  split_and!; try done; lia.
Qed.

(** C5: the decoder accepts exactly the encodings.  On a stream of bytes,
    reading a frame succeeds with a header and a payload if and only if the
    stream starts with the encoding of that header followed by the payload,
    and the magic number, version, length, size limit and checksum agree; it
    consumes exactly those bytes. *)
Theorem frame_decode_iff maxSize inp h payload rest :
  Forall (fun x => match x with inl b => byte_ok b | inr _ => True end) inp ->
  read_frame maxSize inp = (Ok (h, payload), rest)
  <-> frame_ok maxSize h payload /\ inp = (inl <$> header_bytes h ++ payload) ++ rest.
Proof.
  intros Hb. split; [by apply read_frame_inv|].
  intros [Hf ->]. by apply read_frame_encoded.
Qed.

Lemma frame_decode_iff_witness :
  read_frame MaxMessageSize (inl <$> header_bytes (response_header 5 [112; 111; 110; 103])
                               ++ [112; 111; 110; 103])
  = (Ok (response_header 5 [112; 111; 110; 103], [112; 111; 110; 103]), []).
Proof.
  apply (frame_decode_iff MaxMessageSize (inl <$> header_bytes (response_header 5 [112; 111; 110; 103])
                               ++ [112; 111; 110; 103])).
  - vm_compute. repeat constructor; discriminate.
  - split; [|by rewrite app_nil_r]. vm_compute. repeat constructor; discriminate.
Defined.

(** ** Requests *)

Definition encoded (h : ProtocolHeader) (payload : bytes) : input := inl <$> header_bytes h ++ payload.

Lemma read_frame_damaged maxSize h p b b' s rest :
  frame_ok maxSize h (p ++ b :: s) -> byte_ok b' -> b <> b' ->
  exists e, read_frame maxSize (encoded h (p ++ b' :: s) ++ rest)
            = (Err (Wrapped "checksum validation failed" (Plain e)), rest).
Proof.
  intros Hf Hb' Hne. unfold read_frame, encoded. rewrite fmap_app, <-app_assoc.
  rewrite readHeader_bytes by by eapply frame_header_ok.
  destruct (validate_ok _ _ _ Hf) as [-> _].
  destruct Hf as (_ & _ & _ & _ & -> & _ & Hc & Hb).
  replace (Z.to_nat (Z.of_nat (length (p ++ b :: s)))) with (length (p ++ b' :: s))
    by (rewrite !length_app; simpl; lia).
  rewrite read_full_bytes. unfold validateChecksum. rewrite Hc. unfold calculateCRC32.
  apply Forall_app in Hb as [Hbp Hbs]. inversion Hbs as [|? ? Hb Hbs']; subst.
  rewrite (proj2 (Z.eqb_neq _ _) (WalSpec.crc_differs p b b' s Hbp Hbs' Hb Hb' Hne)).
  cbn [negb]. eauto.
Qed.

Section requests.
Context {S : Type} `{MessageStore S}.
Context (L : libs) (maxSize now took : Z) (wfault : nat -> option goerr).
Implicit Types st : hstate S.

Lemma processMessage_encoded st h payload rest :
  frame_ok maxSize h payload ->
  processMessage L maxSize now took wfault st (encoded h payload ++ rest)
  = let '(st, err) := dispatch L now took wfault h payload st in (st, rest, err).
Proof. intros Hf. unfold processMessage, encoded. by rewrite read_frame_encoded. Qed.

(** With a working connection a response is its encoding. *)
Lemma sendResponse_ok t payload st :
  (forall i, wfault i = None) ->
  exists n, sendResponse wfault t payload st
    = (mkState (store st) (totalMessages st) (totalErrors st) (avgProcessTime st)
         (subscriptions st) (written st ++ header_bytes (response_header t payload) ++ payload) n, None).
Proof.
  intros Hw. unfold sendResponse, writeMessage, conn_Write. rewrite !Hw.
  destruct (Z.ltb_spec 0 (Z.of_nat (length payload))) as [_|Hz].
  - eexists. cbn. by rewrite app_assoc.
  - destruct payload; [|simpl in Hz; lia]. eexists. cbn. by rewrite app_nil_r.
Qed.

Lemma HandleConnection_S fuel ctx i st inp :
  HandleConnection L maxSize now took wfault (Datatypes.S fuel) ctx i st inp =
  match ctx i with
  | Some e => Ret (st, Some e)
  | None =>
    match processMessage L maxSize now took wfault st inp with
    | (st, inp, None) => HandleConnection L maxSize now took wfault fuel ctx (Datatypes.S i) st inp
    | (st, _, Some EOF) => Ret (st, None)
    | (st, inp, Some e) =>
      let st := fst (sendErrorResponse wfault e (add_error st)) in
      if isRecoverableError e
      then HandleConnection L maxSize now took wfault fuel ctx (Datatypes.S i) st inp
      else Ret (st, Some e)
    end
  end.
Proof. reflexivity. Qed.

Definition stored_reply : bytes :=
  header_bytes (response_header MessageTypeResponse (bytes_of_string "message_stored"))
  ++ bytes_of_string "message_stored".

Lemma handlePublish_ok h payload m st :
  Z.land (Flags h) FlagCompressed = 0 -> Decode L payload = Ok m ->
  snd (Store m (store st)) = None -> (forall i, wfault i = None) ->
  exists st', handlePublish L took wfault h payload st = (st', None)
    /\ store st' = fst (Store m (store st)) /\ totalMessages st' = s64 (totalMessages st + 1)
    /\ totalErrors st' = totalErrors st /\ subscriptions st' = subscriptions st
    /\ written st' = written st ++ stored_reply.
Proof.
  intros Hfl Hd Hs Hw. unfold handlePublish. rewrite Hfl. cbn [Z.eqb negb]. rewrite Hd.
  destruct (Store m (store st)) as [s' err] eqn:Es. cbn in Hs. subst err.
  destruct (sendResponse_ok MessageTypeResponse (bytes_of_string "message_stored")
    (add_message (set_store s' st)) Hw) as [n ->].
  eexists. split; [reflexivity|]. done.
Qed.

(** A publish request: frame, and the message it decodes to. *)
Definition publish_request (r : ProtocolHeader * bytes * PortaskMessage) : Prop :=
  let '(h, payload, m) := r in
  frame_ok maxSize h payload /\ Type_ h = MessageTypePublish
  /\ Z.land (Flags h) FlagCompressed = 0 /\ Decode L payload = Ok m.

Definition request_input (rs : list (ProtocolHeader * bytes * PortaskMessage)) : input :=
  rs ≫= fun r => encoded (fst (fst r)) (snd (fst r)).

Definition store_all (s : S) (ms : list PortaskMessage) : S := foldl (fun s m => fst (Store m s)) s ms.

Lemma publishes_run rs : forall i st,
  Forall publish_request rs -> (forall m s, snd (Store m s) = None) -> (forall i, wfault i = None) ->
  forall ctx, (forall j, (j < i + length rs)%nat -> ctx j = None) ->
  ctx (i + length rs)%nat = Some Canceled ->
  exists st', HandleConnection L maxSize now took wfault (Datatypes.S (length rs)) ctx i st
      (request_input rs) = Ret (st', Some Canceled)
    /\ store st' = store_all (store st) (snd <$> rs)
    /\ written st' = written st ++ mjoin (replicate (length rs) stored_reply)
    /\ totalErrors st' = totalErrors st.
Proof.
  induction rs as [|[[h payload] m] rs IH]; intros i st Hrs Hs Hw ctx Hctx Hend.
  - exists st. rewrite HandleConnection_S. rewrite Nat.add_0_r in Hend. rewrite Hend.
    cbn. by rewrite app_nil_r.
  - inversion Hrs as [|? ? Hr Hrs']; subst. destruct Hr as (Hf & Ht & Hfl & Hd).
    change (length ((h, payload, m) :: rs)) with (Datatypes.S (length rs)) in *.
    rewrite HandleConnection_S, Hctx by lia.
    change (request_input ((h, payload, m) :: rs)) with (encoded h payload ++ request_input rs).
    rewrite processMessage_encoded by done. unfold dispatch. rewrite Ht.
    change (MessageTypePublish =? MessageTypePublish) with true. cbn iota.
    destruct (handlePublish_ok h payload m st Hfl Hd (Hs m _) Hw)
      as (st1 & -> & Es & _ & Ee & _ & Ew). cbv beta iota.
    destruct (IH (Datatypes.S i) st1 Hrs' Hs Hw ctx) as (st2 & -> & Es2 & Ew2 & Ee2).
    { intros j Hj. apply Hctx. cbn [length]. lia. }
    { rewrite <-Hend. f_equal. cbn [length]. lia. }
    exists st2. split; [done|]. rewrite Es2, Ew2, Ew, Ee2, Es. cbn. by rewrite app_assoc.
Qed.

End requests.

(** C40: a pipeline of publish requests.  For a client that sends any number
    of well-formed publish frames over a working connection to a store that
    accepts them, the connection loop stores exactly the decoded messages, in
    order, answers each with one message_stored frame and counts no error. *)
Theorem publishes_in_order {S : Type} `{MessageStore S} (L : libs) maxSize now took wfault
  (rs : list (ProtocolHeader * bytes * PortaskMessage)) (st : hstate S) ctx :
  Forall (publish_request L maxSize) rs ->
  (forall m s, snd (Store m s) = None) -> (forall i, wfault i = None) ->
  (forall j, (j < length rs)%nat -> ctx j = None) -> ctx (length rs) = Some Canceled ->
  exists st', HandleConnection L maxSize now took wfault (Datatypes.S (length rs)) ctx 0 st
      (request_input rs) = Ret (st', Some Canceled)
    /\ store st' = store_all (store st) (snd <$> rs)
    /\ written st' = written st ++ mjoin (replicate (length rs) stored_reply)
    /\ totalErrors st' = totalErrors st.
Proof. intros. by apply (publishes_run L maxSize now took wfault rs 0). Qed.

(** A store that keeps the messages, a codec that reads the payload as the
    payload of a message, and no gzip. *)
#[export] Instance list_store : MessageStore (list PortaskMessage) := {
  Store m s := (s ++ [m], None);
  Fetch topic _ offset limit s := Ok (filter (fun m => Topic m = topic) s)
}.

Definition is_gzip (p : bytes) : bool := bool_decide (take 2 p = [0x1f; 0x8b]).

Definition test_libs : libs := mkLibs
  (fun p => Ok (NewMessage "id" 0 "t" p))
  (fun p => if is_gzip p then Ok (drop 2 p) else Err (Plain "gzip: invalid header"))
  (fun _ => Ok []) (fun _ => Ok (mkFetch "t" 0 0 0)) (fun _ => Ok ∅)
  (fun _ _ => Ok []) (fun _ _ => []) (fun _ _ => Ok []).

Definition empty_state : hstate (list PortaskMessage) := mkState [] 0 0 0 ∅ [] 0.

Definition request (t : Z) (payload : bytes) : ProtocolHeader := response_header t payload.

Lemma request_ok t payload :
  byte_ok t -> bytes_ok payload -> (length payload <= 1000)%nat ->
  frame_ok MaxMessageSize (request t payload) payload.
Proof.
  intros. unfold frame_ok, request, response_header. cbn [Magic Version Type_ Flags Length Checksum].
  rewrite (wrapu_small 32 (Z.of_nat _)) by lia. rewrite (wrapu_small 32 MaxMessageSize)
    by (unfold MaxMessageSize; lia). split_and!; try done; unfold MaxMessageSize; lia.
Qed.

Lemma publishes_in_order_witness :
  exists st', HandleConnection test_libs MaxMessageSize 5 1 (fun _ => None) 3
      (fun j => if (j <? 2)%nat then None else Some Canceled) 0 empty_state
      (request_input [(request 1 [7], [7], NewMessage "id" 0 "t" [7]);
                      (request 1 [8; 9], [8; 9], NewMessage "id" 0 "t" [8; 9])])
      = Ret (st', Some Canceled)
    /\ store st' = store_all [] [NewMessage "id" 0 "t" [7]; NewMessage "id" 0 "t" [8; 9]]
    /\ written st' = [] ++ mjoin (replicate 2 stored_reply) /\ totalErrors st' = 0.
Proof.
  apply (publishes_in_order test_libs MaxMessageSize 5 1 (fun _ => None)
    [(request 1 [7], [7], NewMessage "id" 0 "t" [7]);
     (request 1 [8; 9], [8; 9], NewMessage "id" 0 "t" [8; 9])] empty_state
    (fun j => if (j <? 2)%nat then None else Some Canceled)).
  - repeat apply List.Forall_cons; [| |constructor].
    all: split; [apply request_ok; [unfold byte_ok; lia|repeat constructor; lia|simpl; lia]|].
    all: split_and!; reflexivity.
  - reflexivity.
  - reflexivity.
  - intros j Hj. cbn [length] in Hj. by destruct (Nat.ltb_spec j 2); [|lia].
  - reflexivity.
Defined.

(** A frame damaged in transit does no harm.  If one payload byte of a
    frame changes, the frame is rejected, nothing reaches the store, the
    client gets one error frame, and the loop goes on with exactly the bytes
    behind the frame. *)
Theorem damaged_frame_skipped {S : Type} `{MessageStore S} (L : libs) maxSize now took wfault
  h p b b' s rest (st : hstate S) fuel ctx i :
  frame_ok maxSize h (p ++ b :: s) -> byte_ok b' -> b <> b' -> ctx i = None ->
  exists e, HandleConnection L maxSize now took wfault (Datatypes.S fuel) ctx i st
      (encoded h (p ++ b' :: s) ++ rest)
    = HandleConnection L maxSize now took wfault fuel ctx (Datatypes.S i)
        (fst (sendErrorResponse wfault (Wrapped "checksum validation failed" (Plain e))
                (add_error st))) rest.
Proof.
  intros Hf Hb Hne Hc. destruct (read_frame_damaged maxSize h p b b' s rest Hf Hb Hne) as [e E].
  exists e. rewrite HandleConnection_S, Hc. unfold processMessage. by rewrite E.
Qed.

Lemma damaged_frame_skipped_witness :
  exists e, HandleConnection test_libs MaxMessageSize 5 1 (fun _ => None) 9 (fun _ => None) 0
      empty_state (encoded (request 1 [7; 8]) [7; 9] ++ [])
    = HandleConnection test_libs MaxMessageSize 5 1 (fun _ => None) 8 (fun _ => None) 1
        (fst (sendErrorResponse (fun _ => None)
                (Wrapped "checksum validation failed" (Plain e)) (add_error empty_state))) [].
Proof.
  apply (damaged_frame_skipped test_libs MaxMessageSize 5 1 (fun _ => None)
    (request 1 [7; 8]) [7] 8 9 [] [] empty_state 8 (fun _ => None) 0).
  - apply request_ok; [unfold byte_ok; lia|repeat constructor; lia|simpl; lia].
  - unfold byte_ok. lia.
  - lia.
  - reflexivity.
Defined.

(** The loop does not notice that the client is gone.  At the end of the
    stream [processMessage] returns a wrapped EOF, which is neither equal to
    [io.EOF] nor unrecoverable, so the loop sends an error frame and tries
    again, once per iteration until its context is cancelled, however long
    that takes. *)
Theorem disconnect_spins {S : Type} `{MessageStore S} (L : libs) maxSize now took wfault
  (st : hstate S) k ctx :
  0 <= totalErrors st -> totalErrors st + Z.of_nat k < 2 ^ 63 ->
  (forall j, (j < k)%nat -> ctx j = None) -> ctx k = Some Canceled ->
  exists st', HandleConnection L maxSize now took wfault (Datatypes.S k) ctx 0 st []
      = Ret (st', Some Canceled)
    /\ totalErrors st' = totalErrors st + Z.of_nat k.
Proof.
  intros H0 Hb Hctx Hend.
  enough (forall n i (st0 : hstate S), (i + n = k)%nat ->
    totalErrors st0 = totalErrors st + Z.of_nat i ->
    exists st', HandleConnection L maxSize now took wfault (Datatypes.S n) ctx i st0 []
      = Ret (st', Some Canceled) /\ totalErrors st' = totalErrors st + Z.of_nat k) as Hgen.
  { apply (Hgen k 0%nat st); lia. }
  induction n as [|n IH]; intros i st0 Hi He.
  - exists st0. rewrite HandleConnection_S. replace i with k by lia. rewrite Hend.
    split; [done|lia].
  - rewrite HandleConnection_S, Hctx by lia. cbn [processMessage read_frame readHeader].
    destruct (sendErrorResponse wfault (Wrapped "failed to read header" EOF) (add_error st0))
      as [st1 err] eqn:Es.
    cbn - [sendErrorResponse]. rewrite Es. apply IH; [lia|]. cbn [fst].
    assert (totalErrors st1 = totalErrors (add_error st0)) as ->.
    { apply (f_equal fst) in Es. cbn [fst] in Es. rewrite <-Es.
      unfold sendErrorResponse, sendResponse, writeMessage, conn_Write.
      destruct (wfault _); [done|]. destruct (0 <? _); [|done]. by destruct (wfault _). }
    cbn. rewrite He, wraps_small by lia. lia.
Qed.

Lemma disconnect_spins_witness :
  exists st', HandleConnection test_libs MaxMessageSize 5 1 (fun _ => None) 1001
      (fun j => if (j <? 1000)%nat then None else Some Canceled) 0 empty_state []
      = Ret (st', Some Canceled) /\ totalErrors st' = 0 + 1000.
Proof.
  apply (disconnect_spins test_libs MaxMessageSize 5 1 (fun _ => None) empty_state 1000
    (fun j => if (j <? 1000)%nat then None else Some Canceled)).
  - reflexivity.
  - reflexivity.
  - intros j Hj. by destruct (Nat.ltb_spec j 1000); [|lia].
  - reflexivity.
Defined.

(** An uncompressed fetch request never works.  [handleFetch] gunzips the
    payload without looking at the flag, so with a gzip reader that rejects
    input without the gzip magic, every fetch frame whose payload is a JSON
    object is answered by an error and the store is not asked. *)
Theorem plain_fetch_fails {S : Type} `{MessageStore S} (L : libs) maxSize now took wfault
  h payload rest (st : hstate S) :
  (forall p, take 2 p <> [0x1f; 0x8b] -> exists e, gunzip L p = Err e) ->
  frame_ok maxSize h payload -> Type_ h = MessageTypeFetch -> head payload = Some 123 ->
  exists e, processMessage L maxSize now took wfault st (encoded h payload ++ rest)
            = (st, rest, Some (Wrapped "failed to decompress fetch payload" e)).
Proof.
  intros Hg Hf Ht Hj. rewrite processMessage_encoded by done. unfold dispatch. rewrite Ht.
  cbn [Z.eqb Pos.eqb MessageTypeFetch MessageTypePublish MessageTypeSubscribe].
  unfold handleFetch. destruct (Hg payload) as [e ->]; [|by exists e].
  destruct payload as [|b [|c p]]; simplify_eq/=; done.
Qed.

Lemma plain_fetch_fails_witness :
  exists e, processMessage test_libs MaxMessageSize 5 1 (fun _ => None) empty_state
              (encoded (request 3 [123; 125]) [123; 125] ++ [])
            = (empty_state, [], Some (Wrapped "failed to decompress fetch payload" e)).
Proof.
  apply (plain_fetch_fails test_libs MaxMessageSize 5 1 (fun _ => None)
    (request 3 [123; 125]) [123; 125] [] empty_state).
  - intros p Hp. exists (Plain "gzip: invalid header"). cbn. unfold is_gzip.
    by rewrite bool_decide_eq_false_2.
  - apply request_ok; [unfold byte_ok; lia|repeat constructor; lia|simpl; lia].
  - reflexivity.
  - reflexivity.
Defined.

End WireSpec.
