(* ===== verification/Groups.v ===== *)
(** * Kafka consumer groups: the group coordinator
      ([src/pkg/kafka/group_coordinator.go], types of [consumer_groups.go])

    [GroupCoordinator] with [JoinGroup], [SyncGroup], [Heartbeat],
    [LeaveGroup], [DescribeGroups], [ListGroups] and one tick of
    [checkHeartbeats].  Every operation runs under the coordinator's and the
    group's mutex, so it is one step on the map of groups.  The clock is an
    argument; which member a Go map iteration meets first (the election of a new
    leader) is the parameter [pick]. *)
From stdpp Require Import base gmap strings list numbers fin_maps pretty.
From Stdlib Require Import ZArith Lia.
From S2P Require Import Prelude.

Module Groups.

(** A Go byte slice: [None] is the nil slice. *)
Abbreviation slice := (option bytes).

Record TopicPartition := mkTP { tp_Topic : string; tp_Partition : Z }.

#[export] Instance TopicPartition_eq_dec : EqDecision TopicPartition.
Proof. solve_decision. Defined.
#[export] Instance TopicPartition_countable : Countable TopicPartition.
Proof.
  refine (inj_countable' (fun tp => (tp_Topic tp, tp_Partition tp)) (fun p => mkTP (fst p) (snd p)) _).
  by intros [].
Defined.

Inductive GroupState :=
| Unknown | PreparingRebalance | CompletingRebalance | Stable | Dead | Empty.

#[export] Instance GroupState_eq_dec : EqDecision GroupState.
Proof. solve_decision. Defined.

Definition state_string (s : GroupState) : string :=
  match s with
  | PreparingRebalance => "PreparingRebalance"
  | CompletingRebalance => "CompletingRebalance"
  | Stable => "Stable"
  | Dead => "Dead"
  | Empty => "Empty"
  | Unknown => "Unknown"
  end.

(** The helper constants: the completing state is used as awaiting sync. *)
Definition StateAwaitingSync : GroupState := CompletingRebalance.

Record GroupMember := mkMember {
  m_ID : string;
  ClientID : string;
  ClientHost : string;
  SessionTimeout : Z;
  RebalanceTimeout : Z;
  Subscription : list string;
  Assignment : list TopicPartition;
  Metadata : slice;
  JoinedAt : Z;
  LastHeartbeat : Z
}.

(** The group's own [LastHeartbeat] is the zero time until it is first set. *)
Record ConsumerGroup := mkGroup {
  g_ID : string;
  Members : gmap string GroupMember;
  State : GroupState;
  Protocol : string;
  Leader : string;
  Generation : Z;
  ProtocolMetadata : gmap string bytes;
  Assignments : gmap string (list TopicPartition);
  Offsets : gmap TopicPartition Z;
  g_SessionTimeout : Z;
  g_RebalanceTimeout : Z;
  CreatedAt : Z;
  g_LastHeartbeat : option Z
}.

Definition set_members (ms : gmap string GroupMember) (g : ConsumerGroup) : ConsumerGroup :=
  mkGroup (g_ID g) ms (State g) (Protocol g) (Leader g) (Generation g) (ProtocolMetadata g)
    (Assignments g) (Offsets g) (g_SessionTimeout g) (g_RebalanceTimeout g) (CreatedAt g)
    (g_LastHeartbeat g).
Definition set_state (s : GroupState) (g : ConsumerGroup) : ConsumerGroup :=
  mkGroup (g_ID g) (Members g) s (Protocol g) (Leader g) (Generation g) (ProtocolMetadata g)
    (Assignments g) (Offsets g) (g_SessionTimeout g) (g_RebalanceTimeout g) (CreatedAt g)
    (g_LastHeartbeat g).
Definition set_leader (l : string) (g : ConsumerGroup) : ConsumerGroup :=
  mkGroup (g_ID g) (Members g) (State g) (Protocol g) l (Generation g) (ProtocolMetadata g)
    (Assignments g) (Offsets g) (g_SessionTimeout g) (g_RebalanceTimeout g) (CreatedAt g)
    (g_LastHeartbeat g).
(** [Generation] is an int32. *)
Definition set_generation (n : Z) (g : ConsumerGroup) : ConsumerGroup :=
  mkGroup (g_ID g) (Members g) (State g) (Protocol g) (Leader g) (s32 n) (ProtocolMetadata g)
    (Assignments g) (Offsets g) (g_SessionTimeout g) (g_RebalanceTimeout g) (CreatedAt g)
    (g_LastHeartbeat g).
Definition set_assignments (a : gmap string (list TopicPartition)) (g : ConsumerGroup) : ConsumerGroup :=
  mkGroup (g_ID g) (Members g) (State g) (Protocol g) (Leader g) (Generation g) (ProtocolMetadata g)
    a (Offsets g) (g_SessionTimeout g) (g_RebalanceTimeout g) (CreatedAt g) (g_LastHeartbeat g).
Definition set_offsets (o : gmap TopicPartition Z) (g : ConsumerGroup) : ConsumerGroup :=
  mkGroup (g_ID g) (Members g) (State g) (Protocol g) (Leader g) (Generation g) (ProtocolMetadata g)
    (Assignments g) o (g_SessionTimeout g) (g_RebalanceTimeout g) (CreatedAt g) (g_LastHeartbeat g).
Definition set_g_heartbeat (t : Z) (g : ConsumerGroup) : ConsumerGroup :=
  mkGroup (g_ID g) (Members g) (State g) (Protocol g) (Leader g) (Generation g) (ProtocolMetadata g)
    (Assignments g) (Offsets g) (g_SessionTimeout g) (g_RebalanceTimeout g) (CreatedAt g) (Some t).

Definition set_heartbeat (t : Z) (m : GroupMember) : GroupMember :=
  mkMember (m_ID m) (ClientID m) (ClientHost m) (SessionTimeout m) (RebalanceTimeout m)
    (Subscription m) (Assignment m) (Metadata m) (JoinedAt m) t.
Definition set_metadata (b : slice) (m : GroupMember) : GroupMember :=
  mkMember (m_ID m) (ClientID m) (ClientHost m) (SessionTimeout m) (RebalanceTimeout m)
    (Subscription m) (Assignment m) b (JoinedAt m) (LastHeartbeat m).

Abbreviation groups := (gmap string ConsumerGroup).

Definition second : Z := 1000000000.

Record JoinGroupResponse := mkJoinResponse {
  GenerationID : Z;
  ProtocolName : string;
  LeaderID : string;
  MemberID : string;
  r_Members : list (string * slice)
}.

Record MemberDescription := mkMemberDesc {
  d_MemberID : string;
  d_ClientID : string;
  d_ClientHost : string;
  d_Metadata : slice;
  d_Assignment : slice
}.

Record GroupDescription := mkGroupDesc {
  d_GroupID : string;
  d_State : string;
  d_ProtocolType : string;
  d_Protocol : string;
  d_Members : list MemberDescription;
  d_Generation : Z
}.

Definition new_group (now : Z) (groupID : string) : ConsumerGroup :=
  mkGroup groupID ∅ Empty "" "" 0 ∅ ∅ ∅ 0 0 now None.

Definition getOrCreateGroup (now : Z) (groupID : string) (gs : groups) : groups * ConsumerGroup :=
  match gs !! groupID with
  | Some group => (gs, group)
  | None => let group := new_group now groupID in (<[groupID := group]> gs, group)
  end.

Definition JoinGroup (now : Z) (groupID memberID clientID clientHost protocolType : string)
  (sessionTimeout rebalanceTimeout : Z) (protocols : list string) (metadata : slice) (gs : groups)
  : groups * JoinGroupResponse :=
  let '(gs, group) := getOrCreateGroup now groupID gs in
  let memberID := if decide (memberID = "")
                  then clientID +:+ "-" +:+ clientHost +:+ "-" +:+ pretty now else memberID in
  let group :=
    match Members group !! memberID with
    | Some existing =>
      set_members (<[memberID := mkMember (m_ID existing) (ClientID existing) (ClientHost existing)
        sessionTimeout rebalanceTimeout (Subscription existing) (Assignment existing) metadata
        (JoinedAt existing) now]> (Members group)) group
    | None =>
      let member := mkMember memberID clientID clientHost sessionTimeout rebalanceTimeout
                      [] [] metadata now now in
      let group := if decide (size (Members group) = 0%nat) then set_leader memberID group else group in
      set_members (<[memberID := member]> (Members group)) group
    end in
  let group := if decide (State group = Stable)
               then set_generation (Generation group + 1) (set_state PreparingRebalance group)
               else group in
  let response := mkJoinResponse (Generation group) (Protocol group) (Leader group) memberID
    (if decide (memberID = Leader group)
     then (fun p => (fst p, Metadata (snd p))) <$> map_to_list (Members group) else []) in
  (<[groupID := set_state StateAwaitingSync group]> gs, response).

(** The leader's loop over the assignments: members that left are skipped. *)
Definition store_assignments (assignments : gmap string slice) (ms : gmap string GroupMember)
  : gmap string GroupMember :=
  map_fold (fun id a ms => alter (set_metadata a) id ms) ms assignments.

Definition SyncGroup (now : Z) (groupID memberID : string) (generationID : Z)
  (assignments : gmap string slice) (gs : groups) : groups * res string slice :=
  match gs !! groupID with
  | None => (gs, Err ("group not found: " +:+ groupID))
  | Some group =>
    if negb (Generation group =? generationID) then (gs, Err "generation mismatch") else
    match Members group !! memberID with
    | None => (gs, Err ("member not found: " +:+ memberID))
    | Some member =>
      let group :=
        if decide (memberID = Leader group /\ (0 < size assignments)%nat)
        then set_g_heartbeat now (set_state Stable
               (set_members (store_assignments assignments (Members group)) group))
        else group in
      (<[groupID := group]> gs,
       match Members group !! memberID with
       | Some member => Ok (Metadata member)
       | None => Ok (Metadata member)
       end)
    end
  end.

Definition Heartbeat (now : Z) (groupID memberID : string) (generationID : Z) (gs : groups)
  : groups * option string :=
  match gs !! groupID with
  | None => (gs, Some ("group not found: " +:+ groupID))
  | Some group =>
    if negb (Generation group =? generationID) then
      (gs, Some ("generation mismatch: expected " +:+ pretty (Generation group)
                   +:+ ", got " +:+ pretty generationID))
    else
    match Members group !! memberID with
    | None => (gs, Some ("member not found: " +:+ memberID))
    | Some _ =>
      (<[groupID := set_members (alter (set_heartbeat now) memberID (Members group)) group]> gs, None)
    end
  end.

Definition DescribeGroup (groupID : string) (group : ConsumerGroup) : GroupDescription :=
  mkGroupDesc groupID (state_string (State group)) (Protocol group) (Protocol group)
    ((fun p => mkMemberDesc (fst p) (ClientID (snd p)) (ClientHost (snd p)) (Metadata (snd p))
                 (Metadata (snd p))) <$> map_to_list (Members group))
    (Generation group).

Definition DescribeGroups (groupIDs : list string) (gs : groups) : gmap string GroupDescription :=
  foldl (fun result groupID =>
    match gs !! groupID with
    | Some group => <[groupID := DescribeGroup groupID group]> result
    | None => result
    end) ∅ groupIDs.

Definition ListGroups (gs : groups) : list (string * string * string) :=
  (fun p => (fst p, Protocol (snd p), state_string (State (snd p)))) <$> map_to_list gs.

Section coordinator.
(** The member a map iteration meets first. *)
Context (pick : gmap string GroupMember -> string).

Definition LeaveGroup (groupID memberID : string) (gs : groups) : groups * option string :=
  match gs !! groupID with
  | None => (gs, Some ("group not found: " +:+ groupID))
  | Some group =>
    let group := set_members (delete memberID (Members group)) group in
    let group :=
      if decide (size (Members group) = 0%nat)
      then set_generation 0 (set_leader "" (set_state Empty group))
      else
        let group := set_generation (Generation group + 1) (set_state PreparingRebalance group) in
        if decide (memberID = Leader group) then set_leader (pick (Members group)) group else group in
    (<[groupID := group]> gs, None)
  end.

Definition expired (now : Z) (m : GroupMember) : bool := now - LastHeartbeat m >? SessionTimeout m.

(** One group of one tick of [checkHeartbeats]. *)
Definition check_group (now : Z) (group : ConsumerGroup) : ConsumerGroup :=
  let expiredMembers := filter (fun p => expired now (snd p) = true) (Members group) in
  if decide (size expiredMembers = 0%nat) then group else
  let group := set_members
    (map_fold (fun id _ ms => delete id ms) (Members group) expiredMembers) group in
  if decide (size (Members group) = 0%nat)
  then set_generation 0 (set_leader "" (set_state Empty group))
  else
    let group := set_generation (Generation group + 1) (set_state PreparingRebalance group) in
    let leaderExists := bool_decide (Leader group <> "") &&
                        bool_decide (is_Some (Members group !! Leader group)) in
    if leaderExists then group else set_leader (pick (Members group)) group.

Definition checkHeartbeats (now : Z) (gs : groups) : groups := check_group now <$> gs.

End coordinator.

End Groups.
