(* ===== verification/GroupsSpec.v ===== *)
(** * What the group coordinator guarantees

    The invariant of every group (its leader is a member, it is in state Empty
    exactly when it has no member), fencing of stale generations, the session
    timeout, and what a member learns from [SyncGroup]. *)
From stdpp Require Import base gmap strings list numbers fin_maps.
From Stdlib Require Import ZArith Lia.
From S2P Require Import Prelude Groups.

Module GroupsSpec.
Import Groups.

(** ** The invariant *)

Record group_ok (g : ConsumerGroup) : Prop := {
  ok_leader : Members g <> ∅ -> is_Some (Members g !! Leader g);
  ok_state : State g = Empty <-> Members g = ∅;
  ok_ids : forall id m, Members g !! id = Some m -> m_ID m = id /\ id <> ""
}.

Lemma ok_id g id m : group_ok g -> Members g !! id = Some m -> m_ID m = id.
Proof. intros H Hm. by apply (ok_ids _ H). Qed.

Definition groups_ok (gs : groups) : Prop := map_Forall (fun _ g => group_ok g) gs.

Lemma group_ok_insert gs groupID g : groups_ok gs -> group_ok g -> groups_ok (<[groupID := g]> gs).
Proof. intros. by apply map_Forall_insert_2. Qed.

Lemma size_0_iff (ms : gmap string GroupMember) : size ms = 0%nat <-> ms = ∅.
Proof. apply map_size_empty_iff. Qed.

Lemma new_group_ok now groupID : group_ok (new_group now groupID).
Proof. split; cbn; [done|done|]. intros id m Hm. by rewrite lookup_empty in Hm. Qed.

Lemma getOrCreateGroup_ok now groupID gs :
  groups_ok gs -> groups_ok (fst (getOrCreateGroup now groupID gs))
    /\ group_ok (snd (getOrCreateGroup now groupID gs)).
Proof.
  intros H. unfold getOrCreateGroup. destruct (gs !! groupID) as [g|] eqn:E.
  - split; [done|]. by apply (H groupID).
  - split; [apply group_ok_insert; [done|]|]; apply new_group_ok.
Qed.

Lemma string_app_dash (a b : string) : a +:+ "-" +:+ b <> "".
Proof. by destruct a. Qed.

Lemma insert_not_empty (ms : gmap string GroupMember) id m : <[id := m]> ms <> ∅.
Proof. apply insert_non_empty. Qed.

(** The member table after a join: a fresh table makes the member leader. *)
Definition joined (g : ConsumerGroup) (id : string) (m : GroupMember) : ConsumerGroup :=
  set_members (<[id := m]> (Members g))
    (match Members g !! id with
     | Some _ => g
     | None => if decide (size (Members g) = 0%nat) then set_leader id g else g
     end).

Lemma joined_ok g id m s n :
  group_ok g -> m_ID m = id -> id <> "" -> s <> Empty ->
  group_ok (set_state s (set_generation n (joined g id m)))
  /\ group_ok (set_state s (joined g id m)).
Proof.
  intros [Hl Hs Hi] Em Hid Hst. unfold joined.
  assert (forall id0 m0, <[id := m]> (Members g) !! id0 = Some m0 -> m_ID m0 = id0 /\ id0 <> "") as Hi'.
  { intros id0 m0 [[<- <-]|[_ H0]]%lookup_insert_Some; [done|by apply Hi]. }
  assert (is_Some (<[id := m]> (Members g) !!
    Leader (match Members g !! id with
            | Some _ => g
            | None => if decide (size (Members g) = 0%nat) then set_leader id g else g end))) as Hl'.
  { destruct (Members g !! id) eqn:E; [|case_decide as Hsz].
    - destruct (decide (id = Leader g)) as [->|]; [rewrite lookup_insert_eq; eauto|].
      rewrite lookup_insert_ne by done. apply Hl. intros H0. by rewrite H0, lookup_empty in E.
    - cbn. rewrite lookup_insert_eq. eauto.
    - destruct (decide (id = Leader g)) as [->|]; [rewrite lookup_insert_eq; eauto|].
      rewrite lookup_insert_ne by done. apply Hl. by rewrite <-size_0_iff. }
  split; split; cbn; auto.
  all: split; [done|]; intros H0; by apply insert_not_empty in H0.
Qed.

Lemma JoinGroup_ok now gid mid cid host pt st rt ps md gs :
  groups_ok gs -> groups_ok (fst (JoinGroup now gid mid cid host pt st rt ps md gs)).
Proof.
  intros H. unfold JoinGroup.
  destruct (getOrCreateGroup_ok now gid gs H) as [H1 Hg].
  destruct (getOrCreateGroup now gid gs) as [gs1 g]. cbn [fst snd] in *.
  set (id := if decide (mid = "") then _ else mid).
  assert (id <> "") as Hid by (unfold id; case_decide; [by destruct cid|done]).
  set (g1 := match Members g !! id with Some _ => _ | None => _ end).
  assert (exists m, m_ID m = id /\ g1 = joined g id m) as (m & Hm & E).
  { unfold g1, joined. destruct (Members g !! id) as [m|] eqn:E.
    - eexists. split; [|reflexivity]. by apply (ok_ids _ Hg id m).
    - eexists (mkMember id _ _ _ _ _ _ _ _ _). split; [done|]. by case_decide. }
  apply group_ok_insert; [done|].
  destruct (joined_ok g id m StateAwaitingSync (Generation g1 + 1) Hg Hm Hid) as [Ha Hb]; [done|].
  rewrite E in *. case_decide; [exact Ha|exact Hb].
Qed.

Lemma store_assignments_lookup a ms id :
  store_assignments a ms !! id
  = match a !! id with Some b => set_metadata b <$> ms !! id | None => ms !! id end.
Proof. apply lookup_map_fold_alter. Qed.

Lemma store_assignments_some a ms id : is_Some (store_assignments a ms !! id) <-> is_Some (ms !! id).
Proof.
  rewrite store_assignments_lookup. destruct (a !! id); [|done].
  destruct (ms !! id); cbn; split; intros []; eauto; done.
Qed.

Lemma same_keys_empty (ms ms' : gmap string GroupMember) :
  (forall id, is_Some (ms !! id) <-> is_Some (ms' !! id)) -> ms = ∅ <-> ms' = ∅.
Proof.
  intros H. rewrite !map_empty. split; intros E id; specialize (H id); specialize (E id);
    rewrite E in H; apply eq_None_not_Some; intros Hs; by apply H in Hs as [].
Qed.

(** Updating the members in place keeps the invariant. *)
Lemma update_members_ok g ms s :
  group_ok g -> Members g <> ∅ -> s <> Empty ->
  (forall id, is_Some (ms !! id) <-> is_Some (Members g !! id)) ->
  (forall id m, ms !! id = Some m -> m_ID m = id) ->
  group_ok (set_state s (set_members ms g)).
Proof.
  intros [Hl Hs Hi] Hne Hst Hk Hid. pose proof (same_keys_empty _ _ Hk) as He. split; cbn.
  - intros _. apply Hk, Hl, Hne.
  - split; [done|]. intros H0. apply He in H0. done.
  - intros id m Hm. split; [by apply Hid|]. destruct (proj1 (Hk id)) as [m' Hm']; [eauto|].
    by apply (Hi id m').
Qed.

Lemma set_same_state g : set_state (State g) g = g.
Proof. by destruct g. Qed.

Lemma member_nonempty g id m : Members g !! id = Some m -> Members g <> ∅.
Proof. intros H E. by rewrite E, lookup_empty in H. Qed.

Lemma SyncGroup_ok now gid mid gen a gs :
  groups_ok gs -> groups_ok (fst (SyncGroup now gid mid gen a gs)).
Proof.
  intros H. unfold SyncGroup. destruct (gs !! gid) as [g|] eqn:E; [|done].
  pose proof (H gid g E) as Hg. destruct (negb _); [done|].
  destruct (Members g !! mid) as [m|] eqn:Em; [|done]. cbn [fst].
  apply group_ok_insert; [done|]. case_decide; [|done].
  pose proof (update_members_ok g (store_assignments a (Members g)) Stable Hg
    (member_nonempty _ _ _ Em) ltac:(done) (store_assignments_some a (Members g))) as Hu.
  assert (group_ok (set_state Stable (set_members (store_assignments a (Members g)) g))) as [? ? ?].
  { apply Hu. intros id m' Hm'. rewrite store_assignments_lookup in Hm'.
    destruct (a !! id); [apply fmap_Some in Hm' as (m0 & Hm0 & ->); cbn|]; by eapply (ok_id g). }
  by split.
Qed.

Lemma alter_some {V} (f : V -> V) (ms : gmap string V) k id :
  is_Some (alter f k ms !! id) <-> is_Some (ms !! id).
Proof.
  destruct (decide (k = id)) as [->|]; [rewrite lookup_alter_eq|by rewrite lookup_alter_ne].
  destruct (ms !! id); cbn; split; intros []; eauto; done.
Qed.

Lemma Heartbeat_ok now gid mid gen gs :
  groups_ok gs -> groups_ok (fst (Heartbeat now gid mid gen gs)).
Proof.
  intros H. unfold Heartbeat. destruct (gs !! gid) as [g|] eqn:E; [|done].
  pose proof (H gid g E) as Hg. destruct (negb _); [done|].
  destruct (Members g !! mid) as [m|] eqn:Em; [|done]. cbn [fst].
  apply group_ok_insert; [done|]. pose proof (member_nonempty _ _ _ Em) as Hne.
  rewrite <-(set_same_state (set_members _ g)). apply update_members_ok; try done.
  - intros Hs. by apply (ok_state _ Hg) in Hs.
  - apply alter_some.
  - intros id m' Hm'. apply lookup_alter_Some in Hm' as [(-> & m0 & Hm0 & ->)|[_ Hm']];
      cbn; by eapply (ok_id g).
Qed.

Section leader.
Context (pick : gmap string GroupMember -> string).
Hypothesis pick_in : forall ms, ms <> ∅ -> is_Some (ms !! pick ms).

(** Removing members: what [LeaveGroup] and [checkHeartbeats] share. *)
Lemma removed_ok g ms :
  group_ok g -> ms ⊆ Members g ->
  group_ok (if decide (size ms = 0%nat)
            then set_generation 0 (set_leader "" (set_state Empty (set_members ms g)))
            else set_generation (Generation g + 1) (set_state PreparingRebalance
                   (set_leader (if decide (is_Some (ms !! Leader g)) then Leader g else pick ms)
                      (set_members ms g)))).
Proof.
  intros Hg Hsub.
  assert (forall id m, ms !! id = Some m -> m_ID m = id /\ id <> "") as Hi.
  { intros id m Hm. apply (ok_ids _ Hg). by eapply lookup_weaken. }
  case_decide as Hsz.
  - apply size_0_iff in Hsz as ->. by split.
  - rewrite size_0_iff in Hsz. split; cbn; [|done|done]. intros _. case_decide; auto.
Qed.

Lemma leave_group_ok g mid :
  group_ok g -> group_ok (
    let group := set_members (delete mid (Members g)) g in
    if decide (size (Members group) = 0%nat)
    then set_generation 0 (set_leader "" (set_state Empty group))
    else let group := set_generation (Generation group + 1) (set_state PreparingRebalance group) in
         if decide (mid = Leader group) then set_leader (pick (Members group)) group else group).
Proof.
  intros Hg. pose proof (removed_ok g (delete mid (Members g)) Hg (delete_subseteq _ _)) as Hr.
  cbn. case_decide as Hsz; [done|]. rewrite size_0_iff in Hsz. revert Hr. cbn.
  case_decide as Hl; destruct (decide (mid = Leader g)) as [->|Hne]; try (intros Hr; exact Hr).
  - rewrite lookup_delete_eq in Hl. by destruct Hl.
  - exfalso. apply Hl. rewrite lookup_delete_ne by done. apply (ok_leader _ Hg).
    intros E. rewrite E, delete_empty in Hsz. done.
Qed.

Lemma LeaveGroup_ok gid mid gs : groups_ok gs -> groups_ok (fst (LeaveGroup pick gid mid gs)).
Proof.
  intros H. unfold LeaveGroup. destruct (gs !! gid) as [g|] eqn:E; [|done].
  apply group_ok_insert; [done|]. apply leave_group_ok. by apply (H gid).
Qed.

(** The members a tick keeps. *)
Definition alive (now : Z) (ms : gmap string GroupMember) : gmap string GroupMember :=
  filter (fun p => expired now (snd p) = false) ms.

Lemma tick_members now (ms : gmap string GroupMember) :
  map_fold (fun id _ acc => delete id acc) ms (filter (fun p => expired now (snd p) = true) ms)
  = alive now ms.
Proof.
  rewrite map_fold_delete. apply map_eq. intros id. unfold alive.
  rewrite lookup_difference, !map_lookup_filter.
  destruct (ms !! id) as [m|]; [|done]. cbn. destruct (expired now m) eqn:E; cbn.
  - by rewrite option_guard_True, option_guard_False by (cbn; congruence).
  - by rewrite option_guard_False, option_guard_True by (cbn; congruence).
Qed.

(** What a tick does to a group that has expired members. *)
Definition pruned (now : Z) (g : ConsumerGroup) : ConsumerGroup :=
  let ms := alive now (Members g) in
  if decide (size ms = 0%nat)
  then set_generation 0 (set_leader "" (set_state Empty (set_members ms g)))
  else set_generation (Generation g + 1) (set_state PreparingRebalance
         (set_leader (if decide (is_Some (ms !! Leader g)) then Leader g else pick ms)
            (set_members ms g))).

Lemma check_group_cases now g :
  group_ok g ->
  (check_group pick now g = g /\ alive now (Members g) = Members g)
  \/ check_group pick now g = pruned now g.
Proof.
  intros Hg. unfold check_group. case_decide as Hsz.
  - left. split; [done|]. apply map_size_empty_iff in Hsz. rewrite <-tick_members, Hsz.
    apply map_fold_empty.
  - right. unfold pruned. cbn [Members set_members]. rewrite tick_members.
    case_decide as Hs; [done|]. cbn.
    destruct (decide (is_Some (alive now (Members g) !! Leader g))) as [[m Hm]|Hn].
    + rewrite !bool_decide_eq_true_2; [done|eauto|].
      unfold alive in Hm. apply map_lookup_filter_Some in Hm as [Hm _]. by eapply (ok_ids _ Hg).
    + rewrite (bool_decide_eq_false_2 (is_Some _)) by done. by rewrite andb_false_r.
Qed.

Lemma check_group_ok now g : group_ok g -> group_ok (check_group pick now g).
Proof.
  intros Hg. destruct (check_group_cases now g Hg) as [[-> _]| ->]; [done|].
  apply removed_ok; [done|]. apply map_filter_subseteq.
Qed.

Lemma check_group_members now g : group_ok g -> Members (check_group pick now g) = alive now (Members g).
Proof.
  intros Hg. destruct (check_group_cases now g Hg) as [[-> ->]| ->]; [done|].
  unfold pruned. by case_decide.
Qed.

Lemma checkHeartbeats_ok now gs : groups_ok gs -> groups_ok (checkHeartbeats pick now gs).
Proof.
  intros H gid g Hg. unfold checkHeartbeats in Hg. rewrite lookup_fmap in Hg.
  apply fmap_Some in Hg as (g0 & Hg0 & ->). apply check_group_ok. by apply (H gid).
Qed.

(** ** Runs *)

Inductive gop :=
| OJoin (now : Z) (gid mid cid host pt : string) (st rt : Z) (ps : list string) (md : slice)
| OSync (now : Z) (gid mid : string) (gen : Z) (a : gmap string slice)
| OHeartbeat (now : Z) (gid mid : string) (gen : Z)
| OLeave (gid mid : string)
| OTick (now : Z).

Definition run_gop (gs : groups) (o : gop) : groups :=
  match o with
  | OJoin now gid mid cid host pt st rt ps md => fst (JoinGroup now gid mid cid host pt st rt ps md gs)
  | OSync now gid mid gen a => fst (SyncGroup now gid mid gen a gs)
  | OHeartbeat now gid mid gen => fst (Heartbeat now gid mid gen gs)
  | OLeave gid mid => fst (LeaveGroup pick gid mid gs)
  | OTick now => checkHeartbeats pick now gs
  end.

Lemma run_gop_ok gs o : groups_ok gs -> groups_ok (run_gop gs o).
Proof.
  intros H. destruct o; cbn [run_gop]; auto using JoinGroup_ok, SyncGroup_ok, Heartbeat_ok,
    LeaveGroup_ok, checkHeartbeats_ok.
Qed.

End leader.

(** C6: the coordinator's invariant.  After any sequence of joins, syncs,
    heartbeats, departures and heartbeat ticks, every group with members has a
    leader that is one of them, a group is in state Empty exactly when it has
    no members, and every member is filed under its own non-empty id. *)
Theorem coordinator_invariant pick os gid g :
  (forall ms, ms <> ∅ -> is_Some (ms !! pick ms)) ->
  foldl (run_gop pick) ∅ os !! gid = Some g -> group_ok g.
Proof.
  intros Hp. revert gid g. change (groups_ok (foldl (run_gop pick) ∅ os)).
  assert (groups_ok ∅) as H0 by apply map_Forall_empty. revert H0. generalize (∅ : groups).
  induction os as [|o os IH]; intros gs H; [done|]. cbn. apply IH. by apply run_gop_ok.
Qed.

(** A concrete iteration order. *)
Definition first_member (ms : gmap string GroupMember) : string :=
  match map_to_list ms with p :: _ => fst p | [] => "" end.

Lemma first_member_in ms : ms <> ∅ -> is_Some (ms !! first_member ms).
Proof.
  intros H. unfold first_member. destruct (map_to_list ms) as [|[k m] l] eqn:E.
  - by apply map_to_list_empty_iff in E.
  - exists m. apply elem_of_map_to_list. rewrite E. apply list_elem_of_here || left.
Qed.

Definition two_members : list gop :=
  [OJoin 0 "g" "a" "ca" "h" "consumer" 10 60 [] (Some [1]); OJoin 1 "g" "b" "cb" "h" "consumer" 10 60 [] (Some [2]);
   OSync 2 "g" "a" 0 {["a" := Some [7]; "b" := Some [8]]}].

Lemma coordinator_invariant_witness :
  match foldl (run_gop first_member) ∅ (two_members ++ [OLeave "g" "a"]) !! "g" with
  | Some g => group_ok g
  | None => False
  end.
Proof.
  destruct (foldl (run_gop first_member) ∅ (two_members ++ [OLeave "g" "a"]) !! "g") as [g|] eqn:E.
  - apply (coordinator_invariant first_member (two_members ++ [OLeave "g" "a"]) "g" g).
    + apply first_member_in.
    + exact E.
  - vm_compute in E. discriminate.
Defined.

(** ** Fencing *)

Lemma s32_succ_ne n : s32 (n + 1) <> n.
Proof.
  intros E. assert (s32 (n + 1) mod 2 ^ 32 = (n + 1) mod 2 ^ 32) as Em by (apply wraps_mod; lia).
  rewrite E in Em.
  assert ((n + 1 - n) mod 2 ^ 32 = 0) as E0.
  { rewrite Zminus_mod, <-Em, Z.sub_diag. done. }
  replace (n + 1 - n) with 1 in E0 by lia. done.
Qed.

Lemma stale_generation_rejected now gid mid gen a gs g :
  gs !! gid = Some g -> Generation g <> gen ->
  SyncGroup now gid mid gen a gs = (gs, Err "generation mismatch")
  /\ exists e, Heartbeat now gid mid gen gs = (gs, Some e).
Proof.
  intros Hg Hne. unfold SyncGroup, Heartbeat. rewrite Hg.
  rewrite (proj2 (Z.eqb_neq _ _) Hne). cbn [negb]. eauto.
Qed.

(** Departures fence the old generation.  When a member leaves a group in
    which others remain, the generation changes, and every [SyncGroup] and
    [Heartbeat] call that still carries the previous generation is refused
    and changes nothing. *)
Theorem leave_fences pick gid mid gs g other m now who a :
  gs !! gid = Some g -> Members g !! other = Some m -> other <> mid ->
  let gs' := fst (LeaveGroup pick gid mid gs) in
  SyncGroup now gid who (Generation g) a gs' = (gs', Err "generation mismatch")
  /\ exists e, Heartbeat now gid who (Generation g) gs' = (gs', Some e).
Proof.
  intros Hg Hm Hne gs'.
  assert (exists g', gs' !! gid = Some g' /\ Generation g' = s32 (Generation g + 1)) as (g' & Hg' & Hgen).
  { unfold gs', LeaveGroup. rewrite Hg. cbn [fst]. rewrite lookup_insert_eq.
    eexists. split; [done|]. cbn. rewrite decide_False; [by case_decide|].
    rewrite size_0_iff. intros E. apply (f_equal (lookup other)) in E.
    by rewrite lookup_delete_ne, Hm, lookup_empty in E. }
  eapply stale_generation_rejected; [exact Hg'|]. rewrite Hgen. apply s32_succ_ne.
Qed.

Definition pair_groups : groups := foldl (run_gop first_member) ∅ two_members.
Definition pair_group : ConsumerGroup :=
  match pair_groups !! "g" with Some g => g | None => new_group 0 "g" end.
Definition member_b : GroupMember := mkMember "b" "cb" "h" 10 60 [] [] (Some [8]) 1 1.

Lemma leave_fences_witness :
  SyncGroup 5 "g" "b" 0 ∅ (fst (LeaveGroup first_member "g" "a" pair_groups))
    = (fst (LeaveGroup first_member "g" "a" pair_groups), Err "generation mismatch")
  /\ exists e, Heartbeat 5 "g" "b" 0 (fst (LeaveGroup first_member "g" "a" pair_groups))
    = (fst (LeaveGroup first_member "g" "a" pair_groups), Some e).
Proof.
  apply (leave_fences first_member "g" "a" pair_groups pair_group "b" member_b 5 "b" ∅).
  - vm_compute. reflexivity.
  - vm_compute. reflexivity.
  - discriminate.
Defined.

(** ** Sessions *)

(** Sessions.  A heartbeat tick keeps exactly the members whose last
    heartbeat is not older than their session timeout, unchanged; so a member
    that heartbeats successfully at time [t] survives every tick up to [t]
    plus its session timeout. *)
Theorem session_expiry pick t t' gid mid gen gs gs1 m g :
  groups_ok gs -> gs !! gid = Some g -> Members g !! mid = Some m ->
  Heartbeat t gid mid gen gs = (gs1, None) ->
  exists g1 g2, gs1 !! gid = Some g1 /\ checkHeartbeats pick t' gs1 !! gid = Some g2
    /\ (forall id m', Members g2 !! id = Some m' <->
          Members g1 !! id = Some m' /\ t' - LastHeartbeat m' <= SessionTimeout m')
    /\ (t' - t <= SessionTimeout m -> Members g2 !! mid = Some (set_heartbeat t m)).
Proof.
  intros Hok Hg Hm Hh. pose proof (Heartbeat_ok t gid mid gen gs Hok) as Hok1. rewrite Hh in Hok1.
  unfold Heartbeat in Hh. rewrite Hg in Hh. destruct (negb _); [done|]. rewrite Hm in Hh.
  injection Hh as <-. cbn [fst] in Hok1.
  eexists _, _. split; [apply lookup_insert_eq|]. unfold checkHeartbeats.
  rewrite lookup_fmap, lookup_insert_eq. split; [done|].
  rewrite check_group_members by (apply (Hok1 gid), lookup_insert_eq).
  assert (forall id m', alive t' (alter (set_heartbeat t) mid (Members g)) !! id = Some m' <->
    alter (set_heartbeat t) mid (Members g) !! id = Some m'
    /\ t' - LastHeartbeat m' <= SessionTimeout m') as Hal.
  { intros id m'. unfold alive. rewrite map_lookup_filter_Some. unfold expired.
    cbn [snd]. rewrite Z.gtb_ltb, Z.ltb_ge. done. }
  split; [exact Hal|]. intros Ht. apply Hal. by rewrite lookup_alter_eq, Hm.
Qed.

Lemma pair_groups_ok : groups_ok pair_groups.
Proof.
  intros gid g Hg. unfold pair_groups in Hg. cbn [two_members foldl] in Hg.
  revert gid g Hg. change (groups_ok (run_gop first_member (run_gop first_member
    (run_gop first_member ∅ (OJoin 0 "g" "a" "ca" "h" "consumer" 10 60 [] (Some [1])))
    (OJoin 1 "g" "b" "cb" "h" "consumer" 10 60 [] (Some [2])))
    (OSync 2 "g" "a" 0 {["a" := Some [7]; "b" := Some [8]]}))).
  do 3 (apply run_gop_ok; [apply first_member_in|]). apply map_Forall_empty.
Qed.

Lemma session_expiry_witness :
  exists g1 g2, fst (Heartbeat 20 "g" "b" 0 pair_groups) !! "g" = Some g1
    /\ checkHeartbeats first_member 25 (fst (Heartbeat 20 "g" "b" 0 pair_groups)) !! "g" = Some g2
    /\ (forall id m', Members g2 !! id = Some m' <->
          Members g1 !! id = Some m' /\ 25 - LastHeartbeat m' <= SessionTimeout m')
    /\ (25 - 20 <= SessionTimeout member_b -> Members g2 !! "b" = Some (set_heartbeat 20 member_b)).
Proof.
  apply (session_expiry first_member 20 25 "g" "b" 0 pair_groups _ member_b pair_group).
  - apply pair_groups_ok.
  - vm_compute. reflexivity.
  - vm_compute. reflexivity.
  - vm_compute. reflexivity.
Defined.

(** ** What a member learns from [SyncGroup] *)

(** Assignments reach their members.  Once the leader has synced with
    assignments for the current generation, the group is stable and a
    follower that syncs gets exactly the bytes the leader assigned to it. *)
Theorem sync_delivers t t' gid lead mid asg gs g ml m a asg' :
  gs !! gid = Some g -> Leader g = lead -> Members g !! lead = Some ml ->
  Members g !! mid = Some m -> mid <> lead -> asg !! mid = Some a ->
  exists gs1 r gs2 g1, SyncGroup t gid lead (Generation g) asg gs = (gs1, Ok r)
    /\ gs1 !! gid = Some g1 /\ State g1 = Stable /\ Generation g1 = Generation g
    /\ SyncGroup t' gid mid (Generation g) asg' gs1 = (gs2, Ok a).
Proof.
  intros Hg Hl Hml Hm Hne Ha.
  assert ((0 < size asg)%nat) as Hsz.
  { destruct (decide (size asg = 0%nat)) as [E|]; [|lia]. apply map_size_empty_iff in E.
    by rewrite E, lookup_empty in Ha. }
  unfold SyncGroup at 1. rewrite Hg, Z.eqb_refl. cbn [negb]. rewrite Hml.
  rewrite decide_True by done. cbn [Members set_members set_state set_g_heartbeat].
  set (g1 := set_g_heartbeat t (set_state Stable
    (set_members (store_assignments asg (Members g)) g))).
  assert (exists r, store_assignments asg (Members g) !! lead = Some r) as [r Hr].
  { apply store_assignments_some. eauto. }
  rewrite Hr. eexists _, _, _, g1. split; [done|]. split; [apply lookup_insert_eq|].
  split; [done|]. split; [done|].
  unfold SyncGroup. rewrite lookup_insert_eq. cbn [Generation g1 set_g_heartbeat set_state set_members].
  rewrite Z.eqb_refl. cbn [negb Members g1 set_g_heartbeat set_state set_members].
  assert (store_assignments asg (Members g) !! mid = Some (set_metadata a m)) as Hmid.
  { by rewrite store_assignments_lookup, Ha, Hm. }
  rewrite Hmid. rewrite decide_False by (cbn; naive_solver).
  cbn [Members g1 set_g_heartbeat set_state set_members]. by rewrite Hmid.
Qed.

Definition rebalancing : groups := foldl (run_gop first_member) ∅ (take 2 two_members).
Definition rebalancing_group : ConsumerGroup :=
  match rebalancing !! "g" with Some g => g | None => new_group 0 "g" end.
Definition joined_a : GroupMember := mkMember "a" "ca" "h" 10 60 [] [] (Some [1]) 0 0.
Definition joined_b : GroupMember := mkMember "b" "cb" "h" 10 60 [] [] (Some [2]) 1 1.

Lemma sync_delivers_witness :
  exists gs1 r gs2 g1, SyncGroup 3 "g" "a" 0 {["a" := Some [7]; "b" := Some [8]]} rebalancing = (gs1, Ok r)
    /\ gs1 !! "g" = Some g1 /\ State g1 = Stable /\ Generation g1 = 0
    /\ SyncGroup 4 "g" "b" 0 ∅ gs1 = (gs2, Ok (Some [8])).
Proof.
  apply (sync_delivers 3 4 "g" "a" "b" {["a" := Some [7]; "b" := Some [8]]} rebalancing rebalancing_group
    joined_a joined_b (Some [8]) ∅).
  - vm_compute. reflexivity.
  - vm_compute. reflexivity.
  - vm_compute. reflexivity.
  - vm_compute. reflexivity.
  - discriminate.
  - reflexivity.
Defined.

(** A follower that syncs before the leader is not made to wait: it is
    answered with the metadata it joined with, as if that were its
    assignment. *)
Theorem early_sync_answers_metadata t gid mid asg gs g m :
  gs !! gid = Some g -> Members g !! mid = Some m -> mid <> Leader g ->
  SyncGroup t gid mid (Generation g) asg gs = (gs, Ok (Metadata m)).
Proof.
  intros Hg Hm Hne. unfold SyncGroup. rewrite Hg, Z.eqb_refl. cbn [negb]. rewrite Hm.
  rewrite decide_False by naive_solver. rewrite Hm. by rewrite insert_id.
Qed.

Lemma early_sync_answers_metadata_witness :
  SyncGroup 3 "g" "b" 0 ∅ rebalancing = (rebalancing, Ok (Some [2])).
Proof.
  apply (early_sync_answers_metadata 3 "g" "b" ∅ rebalancing rebalancing_group joined_b).
  - vm_compute. reflexivity.
  - vm_compute. reflexivity.
  - vm_compute. discriminate.
Defined.

End GroupsSpec.
