(* ===== verification/Assign.v ===== *)
(** * Partition assignment ([src/pkg/kafka/group_coordinator.go] and
      [src/pkg/kafka/consumer_groups.go])

    The round-robin and range policies of the group coordinator, and the
    round-robin and range assignors of the consumer group coordinator.
    [members] is the list the code walks (for the assignors, the member ids in
    the order of the map iteration); [topics] lists the map of topics in its
    iteration order.  Division by a zero number of members and slicing out of
    range panic. *)
From stdpp Require Import base gmap strings list numbers fin_maps.
From Stdlib Require Import ZArith Lia.
From S2P Require Import Prelude Groups.

Module Assign.
Import Groups.

Abbreviation topic_map := (list (string * list Z)).

(** The flattened topic-partitions. *)
Definition allPartitions (topics : topic_map) : list TopicPartition :=
  topics ≫= fun t => mkTP (fst t) <$> snd t.

Definition init_assignments {A} (members : list string) : gmap string (list A) :=
  foldl (fun asg m => <[m := []]> asg) ∅ members.

(** The round-robin loop, for a way to add a partition to a member's list. *)
Fixpoint rr_loop {A} (add : TopicPartition -> list A -> list A) (members : list string) (i : nat)
  (tps : list TopicPartition) (asg : gmap string (list A)) : exec (gmap string (list A)) :=
  match tps with
  | [] => Ret asg
  | tp :: tps =>
    if decide (length members = 0%nat) then Panic else
    match members !! (i mod length members)%nat with
    | None => Panic
    | Some member =>
      rr_loop add members (S i) tps (<[member := add tp (default [] (asg !! member))]> asg)
    end
  end.

(** ** The policies of [group_coordinator.go] *)

Record PartitionAssignment := mkPA { pa_Topic : string; pa_Partitions : list Z }.

(** Find the topic's entry or append a new one. *)
Fixpoint add_partition (tp : TopicPartition) (l : list PartitionAssignment) : list PartitionAssignment :=
  match l with
  | [] => [mkPA (tp_Topic tp) [tp_Partition tp]]
  | pa :: l =>
    if decide (pa_Topic pa = tp_Topic tp)
    then mkPA (pa_Topic pa) (pa_Partitions pa ++ [tp_Partition tp]) :: l
    else pa :: add_partition tp l
  end.

Definition RoundRobinRebalancePolicy_Assign (members : list string) (topics : topic_map)
  : exec (gmap string (list PartitionAssignment)) :=
  rr_loop add_partition members 0 (allPartitions topics) (init_assignments members).

(** [parts[lo : lo+count]] *)
Definition slice (parts : list Z) (lo count : nat) : exec (list Z) :=
  if decide (lo + count <= length parts)%nat then Ret (take count (drop lo parts)) else Panic.

(** The loop over the members for one topic. *)
Fixpoint range_policy_members (topic : string) (parts : list Z) (per rem : nat)
  (members : list string) (i partIdx : nat) (asg : gmap string (list PartitionAssignment))
  : exec (gmap string (list PartitionAssignment)) :=
  match members with
  | [] => Ret asg
  | member :: members =>
    let count := if (i <? rem)%nat then S per else per in
    if (0 <? count)%nat then
      do! assigned := slice parts partIdx count in
      range_policy_members topic parts per rem members (S i) (partIdx + count)
        (<[member := default [] (asg !! member) ++ [mkPA topic assigned]]> asg)
    else range_policy_members topic parts per rem members (S i) partIdx asg
  end.

Fixpoint range_policy_topics (members : list string) (topics : topic_map)
  (asg : gmap string (list PartitionAssignment)) : exec (gmap string (list PartitionAssignment)) :=
  match topics with
  | [] => Ret asg
  | (topic, parts) :: topics =>
    if decide (length members = 0%nat) then Panic else
    do! asg := range_policy_members topic parts (length parts / length members)
                 (length parts mod length members) members 0 0 asg in
    range_policy_topics members topics asg
  end.

Definition RangeRebalancePolicy_Assign (members : list string) (topics : topic_map)
  : exec (gmap string (list PartitionAssignment)) :=
  range_policy_topics members topics (init_assignments members).

(** ** The assignors of [consumer_groups.go] *)

Definition RoundRobinAssignor_Assign (memberIDs : list string) (topics : topic_map)
  : exec (gmap string (list TopicPartition)) :=
  let assignments := init_assignments memberIDs in
  if decide (length memberIDs = 0%nat) then Ret assignments else
  rr_loop (fun tp l => l ++ [tp]) memberIDs 0 (allPartitions topics) assignments.

(** [for j := 0; j < num && current < len(partitions); j++] *)
Fixpoint range_inner (topic : string) (parts : list Z) (num current : nat) (l : list TopicPartition)
  : list TopicPartition * nat :=
  match num with
  | O => (l, current)
  | S num =>
    match parts !! current with
    | Some p => range_inner topic parts num (S current) (l ++ [mkTP topic p])
    | None => (l, current)
    end
  end.

Fixpoint range_assignor_members (topic : string) (parts : list Z) (per rem : nat)
  (members : list string) (i current : nat) (asg : gmap string (list TopicPartition))
  : gmap string (list TopicPartition) :=
  match members with
  | [] => asg
  | member :: members =>
    let num := if (i <? rem)%nat then S per else per in
    let '(l, current) := range_inner topic parts num current (default [] (asg !! member)) in
    range_assignor_members topic parts per rem members (S i) current (<[member := l]> asg)
  end.

Definition RangeAssignor_Assign (memberIDs : list string) (topics : topic_map)
  : gmap string (list TopicPartition) :=
  let assignments := init_assignments memberIDs in
  if decide (length memberIDs = 0%nat) then assignments else
  foldl (fun asg t =>
    range_assignor_members (fst t) (snd t) (length (snd t) / length memberIDs)
      (length (snd t) mod length memberIDs) memberIDs 0 0 asg) assignments topics.

Example range_smoke :
  RangeAssignor_Assign ["a"; "b"] [("t", [0; 1; 2])] !! "a" = Some [mkTP "t" 0; mkTP "t" 1].
Proof. reflexivity. Qed.

End Assign.
