(* ===== verification/AssignSpec.v ===== *)
(** * Assignments are exact and balanced

    For each of the four assignors: every topic-partition is given to exactly
    one member, and the members' shares differ by at most one. *)
From stdpp Require Import base gmap strings list numbers fin_maps.
From Stdlib Require Import ZArith Lia.
From S2P Require Import Prelude Groups Assign.

Module AssignSpec.
Import Groups Assign.

(** ** Shares by index *)

(** What member number [j] of [n] is dealt of [tps], dealing from number [i] on. *)
Fixpoint share (n i j : nat) (tps : list TopicPartition) : list TopicPartition :=
  match tps with
  | [] => []
  | tp :: tps => (if decide (i mod n = j)%nat then [tp] else []) ++ share n (S i) j tps
  end.

Lemma bind_pick {A} (js : list nat) k (x : A) f :
  NoDup js -> k ∈ js ->
  (js ≫= fun j => (if decide (k = j) then [x] else []) ++ f j) ≡ₚ x :: (js ≫= f).
Proof.
  intros Hnd Hk. induction js as [|j js IH]; [by apply elem_of_nil in Hk|].
  apply NoDup_cons in Hnd as [Hj Hnd]. cbn. case_decide as Hd.
  - subst j. cbn. apply Permutation_cons; [done|]. f_equiv.
    clear IH Hk Hnd. induction js as [|j js IH]; [done|]. cbn.
    rewrite decide_False by (intros ->; apply Hj; left). cbn.
    f_equiv. apply IH. intros ?. apply Hj. by right.
  - apply elem_of_cons in Hk as [?|Hk]; [done|]. cbn. rewrite IH by done.
    by rewrite Permutation_middle.
Qed.

Lemma share_all n tps : forall i, (0 < n)%nat -> (seq 0 n ≫= fun j => share n i j tps) ≡ₚ tps.
Proof.
  induction tps as [|tp tps IH]; intros i Hn; cbn [share].
  - by induction (seq 0 n).
  - rewrite bind_pick; [by rewrite IH|apply NoDup_seq|].
    apply elem_of_seq. pose proof (Nat.mod_upper_bound i n). lia.
Qed.

Lemma deal_step n i j :
  (j < n)%nat ->
  ((S i + (n - 1 - j)) / n = (i + (n - 1 - j)) / n + (if decide (i mod n = j)%nat then 1 else 0))%nat.
Proof.
  intros Hj. pose proof (Nat.div_mod_eq i n) as Hi. pose proof (Nat.mod_upper_bound i n) as Hb.
  set (q := (i / n)%nat) in *. set (r := (i mod n)%nat) in *.
  case_decide as Hd.
  - replace (S i + (n - 1 - j))%nat with ((q + 1) * n)%nat by nia.
    replace (i + (n - 1 - j))%nat with (n - 1 + q * n)%nat by nia.
    rewrite Nat.div_mul, Nat.div_add, (Nat.div_small (n - 1)) by lia. lia.
  - rewrite Nat.add_0_r. destruct (Nat.lt_ge_cases r j) as [Hlt|Hge].
    + replace (S i + (n - 1 - j))%nat with (r + n - j + q * n)%nat by nia.
      replace (i + (n - 1 - j))%nat with (r + n - 1 - j + q * n)%nat by nia.
      rewrite !Nat.div_add, !Nat.div_small by lia. done.
    + replace (S i + (n - 1 - j))%nat with (r - j + (q + 1) * n)%nat by nia.
      replace (i + (n - 1 - j))%nat with (r - 1 - j + (q + 1) * n)%nat by nia.
      rewrite !Nat.div_add, !Nat.div_small by lia. done.
Qed.

Lemma share_length n j tps : forall i, (j < n)%nat ->
  (length (share n i j tps) + (i + (n - 1 - j)) / n = (i + length tps + (n - 1 - j)) / n)%nat.
Proof.
  induction tps as [|tp tps IH]; intros i Hj; cbn [share length].
  - rewrite (Nat.add_0_r i). lia.
  - specialize (IH (S i) Hj). rewrite deal_step in IH by done. rewrite length_app.
    replace (i + S (length tps) + (n - 1 - j))%nat with (S i + length tps + (n - 1 - j))%nat by lia.
    destruct (decide (i mod n = j)%nat); cbn [length]; lia.
Qed.

(** ** Members of an assignment *)

Definition given {A} (flat : list A -> list TopicPartition) (asg : gmap string (list A)) (m : string)
  : list TopicPartition := flat (default [] (asg !! m)).

Lemma bind_index {A} (f : string -> list A) (g : nat -> list A) members : forall k,
  (forall j m, members !! j = Some m -> f m ≡ₚ g (k + j)%nat) ->
  members ≫= f ≡ₚ seq k (length members) ≫= g.
Proof.
  induction members as [|m members IH]; intros k H; [done|]. cbn.
  f_equiv; [|apply IH].
  - rewrite (H 0%nat m) by done. by rewrite Nat.add_0_r.
  - intros j m' Hj. rewrite (H (S j) m') by done. by rewrite Nat.add_succ_r.
Qed.

Lemma init_lookup {A} members m :
  m ∈ members -> init_assignments (A:=A) members !! m = Some [].
Proof.
  intros H. unfold init_assignments. revert H. generalize (∅ : gmap string (list A)) as acc.
  assert (forall ms (acc : gmap string (list A)), acc !! m = Some [] ->
    foldl (fun asg m => <[m := []]> asg) acc ms !! m = Some []) as Hkeep.
  { induction ms as [|m' ms IH]; intros acc H; [done|]. cbn. apply IH.
    destruct (decide (m' = m)) as [->|]; [apply lookup_insert_eq|by rewrite lookup_insert_ne]. }
  induction members as [|m' members IH]; intros acc H; [by apply elem_of_nil in H|].
  cbn. apply elem_of_cons in H as [->|H]; [|by apply IH].
  apply Hkeep, lookup_insert_eq.
Qed.

Section round_robin.
Context {A : Type} (add : TopicPartition -> list A -> list A) (flat : list A -> list TopicPartition).
Hypothesis flat_add : forall tp l, flat (add tp l) ≡ₚ flat l ++ [tp].

Lemma rr_loop_spec members : members <> [] -> NoDup members -> forall tps i asg,
  exists asg', rr_loop add members i tps asg = Ret asg'
    /\ forall j m, members !! j = Some m ->
         given flat asg' m ≡ₚ given flat asg m ++ share (length members) i j tps.
Proof.
  intros Hne Hnd. assert (0 < length members)%nat as Hlen by (destruct members; [done|simpl; lia]).
  induction tps as [|tp tps IH]; intros i asg; cbn [rr_loop share].
  - exists asg. split; [done|]. intros. by rewrite app_nil_r.
  - rewrite decide_False by lia.
    destruct (lookup_lt_is_Some_2 members (i mod length members)%nat) as [m0 Hm0].
    { apply Nat.mod_upper_bound. lia. }
    rewrite Hm0. destruct (IH (S i) (<[m0 := add tp (default [] (asg !! m0))]> asg))
      as (asg' & -> & H).
    exists asg'. split; [done|]. intros j m Hj. rewrite (H j m Hj). unfold given at 1.
    case_decide as Hd.
    + subst j. rewrite Hm0 in Hj. injection Hj as <-. rewrite lookup_insert_eq. cbn [from_option]. unfold id at 1.
      rewrite flat_add. unfold given. by rewrite <-app_assoc.
    + rewrite lookup_insert_ne; [done|]. intros ->. apply Hd. by eapply NoDup_lookup.
Qed.

(** Exact and balanced, for either representation of a member's list. *)
Lemma rr_exact members tps :
  flat [] = [] -> members <> [] -> NoDup members ->
  exists asg, rr_loop add members 0 tps (init_assignments members) = Ret asg
    /\ members ≫= given flat asg ≡ₚ tps
    /\ forall j m, members !! j = Some m ->
         length (given flat asg m) = ((length tps + (length members - 1 - j)) / length members)%nat.
Proof.
  intros Hf Hne Hnd. destruct (rr_loop_spec members Hne Hnd tps 0 (init_assignments members))
    as (asg & E & H).
  assert (0 < length members)%nat as Hlen by (destruct members; [done|simpl; lia]).
  assert (forall j m, members !! j = Some m -> given flat asg m ≡ₚ share (length members) 0 j tps) as H'.
  { intros j m Hj. rewrite (H j m Hj). unfold given.
    rewrite (init_lookup members m) by (by eapply list_elem_of_lookup_2). cbn. by rewrite Hf. }
  exists asg. split; [done|]. split.
  - rewrite (bind_index _ (fun j => share (length members) 0 j tps) members 0) by exact H'.
    by apply share_all.
  - intros j m Hj. rewrite (H' j m Hj). pose proof (lookup_lt_Some _ _ _ Hj) as Hlt.
    pose proof (share_length (length members) j tps 0 Hlt) as Hs.
    rewrite (Nat.div_small (0 + _)) in Hs by lia. cbn in Hs. lia.
Qed.
End round_robin.

(** The flat content of a list of [PartitionAssignment]s. *)
Definition flat_pa (l : list PartitionAssignment) : list TopicPartition :=
  l ≫= fun pa => mkTP (pa_Topic pa) <$> pa_Partitions pa.

Lemma flat_add_partition tp l : flat_pa (add_partition tp l) ≡ₚ flat_pa l ++ [tp].
Proof.
  induction l as [|pa l IH]; cbn; [by destruct tp|]. case_decide as Hd; cbn.
  - assert (mkTP (pa_Topic pa) (tp_Partition tp) = tp) as Etp by (rewrite Hd; by destruct tp).
    rewrite fmap_app. cbn. rewrite Etp, <-!app_assoc. f_equiv. apply Permutation_app_comm.
  - rewrite IH. by rewrite app_assoc.
Qed.

(** Members keep their entries. *)
Lemma rr_loop_keys {A} (add : TopicPartition -> list A -> list A) members tps : forall i asg asg',
  rr_loop add members i tps asg = Ret asg' -> forall m, is_Some (asg !! m) -> is_Some (asg' !! m).
Proof.
  induction tps as [|tp tps IH]; intros i asg asg' E m Hm; cbn [rr_loop] in E; [by injection E as <-|].
  case_decide; [done|]. destruct (members !! _) as [m0|]; [|done]. eapply IH; [exact E|].
  destruct (decide (m0 = m)) as [->|]; [rewrite lookup_insert_eq; by eexists|by rewrite lookup_insert_ne].
Qed.
(** A share rounded up for the first members. *)
Lemma ceil_share N n j : (j < n)%nat -> ((N + (n - 1 - j)) / n = N / n + (if (j <? N mod n) then 1 else 0))%nat.
Proof.
  intros Hj. pose proof (Nat.div_mod N n ltac:(lia)) as E. pose proof (Nat.mod_upper_bound N n ltac:(lia)) as Hr.
  set (q := (N / n)%nat) in *. set (r := (N mod n)%nat) in *.
  destruct (Nat.ltb_spec j r) as [H|H]; symmetry.
  - apply (Nat.div_unique _ _ _ (r - 1 - j)); nia.
  - apply (Nat.div_unique _ _ _ (r + (n - 1 - j))); nia.
Qed.

(** ** Every partition once *)

(** Partition [p] of topic [t] is to be assigned. *)
Definition listed (topics : topic_map) (t : string) (p : Z) : Prop := exists ps, (t, ps) ∈ topics /\ p ∈ ps.
(** The topics are the keys of a map, and no partition is listed twice. *)
Definition distinct (topics : topic_map) : Prop := NoDup topics.*1 /\ Forall (fun e => NoDup e.2) topics.
(** A member of either kind of assignment has partition [p] of topic [t]. *)
Definition has_pa (asg : gmap string (list PartitionAssignment)) (m t : string) (p : Z) : Prop :=
  exists l ps, asg !! m = Some l /\ mkPA t ps ∈ l /\ p ∈ ps.
Definition has_tp (asg : gmap string (list TopicPartition)) (m t : string) (p : Z) : Prop :=
  exists l, asg !! m = Some l /\ mkTP t p ∈ l.
(** Each listed partition is with exactly one member, and nothing else is. *)
Definition each_once (members : list string) (topics : topic_map) (has : string -> string -> Z -> Prop) : Prop :=
  forall t p, (listed topics t p -> exists m, m ∈ members /\ has m t p /\ forall m', m' ∈ members -> has m' t p -> m' = m)
    /\ forall m, m ∈ members -> has m t p -> listed topics t p.

Lemma NoDup_bind_unique {A B} (f : A -> list B) l x a b :
  NoDup (l ≫= f) -> a ∈ l -> b ∈ l -> x ∈ f a -> x ∈ f b -> a = b.
Proof.
  induction l as [|c l IH]; intros Hnd Ha Hb Hxa Hxb; [by apply elem_of_nil in Ha|]. cbn in Hnd.
  apply NoDup_app in Hnd as (_ & Hd & Hnd). apply elem_of_cons in Ha as [->|Ha], Hb as [->|Hb]; [done|..].
  - destruct (Hd x Hxa). apply list_elem_of_bind. by exists b.
  - destruct (Hd x Hxb). apply list_elem_of_bind. by exists a.
  - by apply IH.
Qed.
Lemma elem_of_allPartitions topics t p : mkTP t p ∈ allPartitions topics <-> listed topics t p.
Proof.
  unfold allPartitions, listed. rewrite list_elem_of_bind. split.
  - intros ([t' ps] & (q & [= -> ->] & Hq)%list_elem_of_fmap & He). by exists ps.
  - intros (ps & He & Hp). exists (t, ps). split; [|done]. apply list_elem_of_fmap. by exists p.
Qed.
Lemma NoDup_allPartitions topics : distinct topics -> NoDup (allPartitions topics).
Proof.
  induction topics as [|[t ps] topics IH]; [constructor|]. intros [Ht Hp]. cbn in Ht. apply NoDup_cons in Ht as [Ht Hts].
  apply Forall_cons in Hp as [Hp Hps]. change (allPartitions ((t, ps) :: topics)) with ((mkTP t <$> ps) ++ allPartitions topics).
  apply NoDup_app. split_and!.
  - apply NoDup_fmap_2; [|done]. by intros ?? [=].
  - intros tp (p & -> & _)%list_elem_of_fmap (qs & Hq & _)%elem_of_allPartitions. apply Ht, list_elem_of_fmap. by exists (t, qs).
  - by apply IH.
Qed.
Lemma length_allPartitions topics : length (allPartitions topics) = sum_list (length ∘ snd <$> topics).
Proof.
  induction topics as [|[t ps] topics IH]; [done|]. change (allPartitions ((t, ps) :: topics)) with ((mkTP t <$> ps) ++ allPartitions topics).
  rewrite length_app, length_fmap, IH. done.
Qed.
Lemma exact_each_once {A} (flat : list A -> list TopicPartition) (asg : gmap string (list A)) members topics has :
  distinct topics -> flat [] = [] -> members ≫= given flat asg ≡ₚ allPartitions topics ->
  (forall m t p, has m t p <-> exists l, asg !! m = Some l /\ mkTP t p ∈ flat l) -> each_once members topics has.
Proof.
  intros Hd Hf Hp Hhas. assert (forall m t p, has m t p <-> mkTP t p ∈ given flat asg m) as Hg.
  { intros m t p. rewrite Hhas. unfold given. destruct (asg !! m) as [l|]; cbn.
    - split; [by intros (? & [= <-] & ?)|eauto].
    - rewrite Hf. split; [by intros (? & ? & _)|by intros ?%elem_of_nil]. }
  intros t p. split.
  - intros Hl%elem_of_allPartitions. rewrite <-Hp in Hl. apply list_elem_of_bind in Hl as (m & Hm & Hin). exists m. split; [done|].
    split; [by apply Hg|]. intros m' Hin' Hm'%Hg. eapply (NoDup_bind_unique (given flat asg) members (mkTP t p)); try done.
    rewrite Hp. by apply NoDup_allPartitions.
  - intros m Hin Hm%Hg. apply elem_of_allPartitions. rewrite <-Hp. apply list_elem_of_bind. by exists m.
Qed.
Lemma flat_pa_has (asg : gmap string (list PartitionAssignment)) m t p :
  has_pa asg m t p <-> exists l, asg !! m = Some l /\ mkTP t p ∈ flat_pa l.
Proof.
  unfold has_pa, flat_pa. split.
  - intros (l & ps & Hl & Hin & Hp). exists l. split; [done|]. apply list_elem_of_bind. exists (mkPA t ps). split; [|done].
    apply list_elem_of_fmap. by exists p.
  - intros (l & Hl & ([t' ps] & (q & [= -> ->] & Hq)%list_elem_of_fmap & Hin)%list_elem_of_bind). by exists l, ps.
Qed.
Lemma length_flat_pa l : length (flat_pa l) = sum_list (length ∘ pa_Partitions <$> l).
Proof. unfold flat_pa. induction l as [|pa l IH]; [done|]. cbn. rewrite length_app, length_fmap. cbn in IH. by rewrite IH. Qed.

(** C9: the round-robin policy of the group coordinator is exact and balanced.
    For at least one member, distinct members, and topics that are distinct and
    list no partition twice: it does not panic, every listed partition of every
    topic is with exactly one member, no member has any other, and of [N]
    listed partitions the member at position [j] of [n] has [N / n], one more
    for the first [N mod n] members. *)
Theorem round_robin_policy_exact members topics :
  members <> [] -> NoDup members -> distinct topics ->
  exists asg, RoundRobinRebalancePolicy_Assign members topics = Ret asg
    /\ each_once members topics (has_pa asg)
    /\ forall j m, members !! j = Some m -> exists l, asg !! m = Some l
         /\ sum_list (length ∘ pa_Partitions <$> l)
            = (let N := sum_list (length ∘ snd <$> topics) in
               N / length members + (if (j <? N mod length members)%nat then 1 else 0))%nat.
Proof.
  intros Hne Hnd Hd. destruct (rr_exact add_partition flat_pa flat_add_partition members (allPartitions topics)) as (asg & E & Hp & Hl); [done..|].
  exists asg. split; [exact E|]. split; [apply (exact_each_once flat_pa asg); [done..|apply flat_pa_has]|].
  intros j m Hj. destruct (rr_loop_keys add_partition members (allPartitions topics) 0 (init_assignments members) asg E m) as [l El].
  { rewrite init_lookup; [by eexists|]. by eapply list_elem_of_lookup_2. }
  exists l. split; [done|]. specialize (Hl j m Hj). unfold given in Hl. rewrite El in Hl. cbn [from_option] in Hl. unfold id in Hl.
  rewrite length_flat_pa, length_allPartitions in Hl. rewrite Hl. apply lookup_lt_Some in Hj. cbv zeta.
  generalize (sum_list (length ∘ snd <$> topics)) as N. intros N. apply ceil_share. done.
Qed.

Lemma round_robin_policy_exact_witness :
  exists asg, RoundRobinRebalancePolicy_Assign ["a"; "b"] [("t", [0; 1; 2]); ("u", [0; 5])] = Ret asg
    /\ each_once ["a"; "b"] [("t", [0; 1; 2]); ("u", [0; 5])] (has_pa asg)
    /\ forall j m, ["a"; "b"] !! j = Some m -> exists l, asg !! m = Some l
         /\ sum_list (length ∘ pa_Partitions <$> l) = (5 / 2 + (if (j <? 5 mod 2)%nat then 1 else 0))%nat.
Proof.
  apply (round_robin_policy_exact ["a"; "b"] [("t", [0; 1; 2]); ("u", [0; 5])]).
  - discriminate.
  - apply (bool_decide_unpack _). reflexivity.
  - split; apply (bool_decide_unpack _); reflexivity.
Defined.

(** The round-robin assignor of the consumer group coordinator is exact
    and balanced in the same way. *)
Theorem round_robin_assignor_exact memberIDs topics :
  memberIDs <> [] -> NoDup memberIDs ->
  exists asg, RoundRobinAssignor_Assign memberIDs topics = Ret asg
    /\ memberIDs ≫= given id asg ≡ₚ allPartitions topics
    /\ forall j m, memberIDs !! j = Some m ->
         length (given id asg m)
         = ((length (allPartitions topics) + (length memberIDs - 1 - j)) / length memberIDs)%nat.
Proof.
  intros Hne Hnd. unfold RoundRobinAssignor_Assign.
  rewrite decide_False by (by destruct memberIDs). by apply rr_exact.
Qed.

Lemma round_robin_assignor_exact_witness :
  exists asg, RoundRobinAssignor_Assign ["a"; "b"] [("t", [0; 1; 2])] = Ret asg
    /\ ["a"; "b"] ≫= given id asg ≡ₚ allPartitions [("t", [0; 1; 2])]
    /\ forall j m, ["a"; "b"] !! j = Some m -> length (given id asg m) = ((3 + (2 - 1 - j)) / 2)%nat.
Proof.
  apply (round_robin_assignor_exact ["a"; "b"] [("t", [0; 1; 2])]).
  - discriminate.
  - apply (bool_decide_unpack _). reflexivity.
Defined.

(** ** Ranges *)

Implicit Types ps : list Z.

(** Where the range of member [j] starts, and the range, for [n] members. *)
Definition range_start (per rem j : nat) : nat := j * per + min j rem.
Definition range_of (n j : nat) (ps : list Z) : list Z :=
  let per := (length ps / n)%nat in
  let rem := (length ps mod n)%nat in
  take (if (j <? rem)%nat then S per else per) (drop (range_start per rem j) ps).

Definition range_share (n j : nat) (topics : topic_map) : list TopicPartition :=
  topics ≫= fun t => mkTP (fst t) <$> range_of n j (snd t).

Lemma range_start_S per rem j :
  (range_start per rem j + (if (j <? rem)%nat then S per else per) = range_start per rem (S j))%nat.
Proof. unfold range_start. destruct (Nat.ltb_spec j rem); lia. Qed.

Lemma range_start_all n ps : (0 < n)%nat ->
  range_start (length ps / n) (length ps mod n) n = length ps.
Proof.
  intros Hn. unfold range_start. pose proof (Nat.div_mod_eq (length ps) n).
  pose proof (Nat.mod_upper_bound (length ps) n). lia.
Qed.

Lemma range_start_le per rem n j : (j <= n)%nat -> (range_start per rem j <= range_start per rem n)%nat.
Proof. intros H. unfold range_start. nia. Qed.

Lemma take_plus {A} (l : list A) a b : take (a + b) l = take a l ++ take b (drop a l).
Proof. rewrite <-(take_drop a (take (a + b) l)). rewrite take_take, skipn_firstn_comm. do 2 f_equal; lia. Qed.

Lemma ranges_all n ps : (0 < n)%nat -> seq 0 n ≫= (fun j => range_of n j ps) = ps.
Proof.
  intros Hn. enough (forall k, (k <= n)%nat -> seq 0 k ≫= (fun j => range_of n j ps)
    = take (range_start (length ps / n) (length ps mod n) k) ps) as H.
  { rewrite H, range_start_all by lia. by apply take_ge. }
  induction k as [|k IH]; intros Hk; [done|].
  rewrite seq_S, bind_app, IH by lia. cbn [mbind list_bind]. change (0 + k)%nat with k.
  rewrite app_nil_r.
  by rewrite <-range_start_S, take_plus.
Qed.

Lemma range_of_length n j ps : (j < n)%nat ->
  length (range_of n j ps)
  = (length ps / n + (if (j <? length ps mod n)%nat then 1 else 0))%nat.
Proof.
  intros Hj. unfold range_of. rewrite length_take, length_drop.
  pose proof (range_start_S (length ps / n) (length ps mod n) j) as Hs.
  pose proof (range_start_le (length ps / n) (length ps mod n) n (S j) ltac:(lia)) as Hle.
  rewrite range_start_all in Hle by lia. destruct (Nat.ltb_spec j (length ps mod n)); lia.
Qed.

Lemma bind_app_fun {A B} (l : list A) (f g : A -> list B) :
  l ≫= (fun a => f a ++ g a) ≡ₚ (l ≫= f) ++ (l ≫= g).
Proof.
  induction l as [|a l IH]; [done|]. cbn. rewrite IH. solve_Permutation.
Qed.

Lemma bind_swap {A B C} (l : list A) (k : list B) (f : A -> B -> list C) :
  (l ≫= fun a => k ≫= fun b => f a b) ≡ₚ (k ≫= fun b => l ≫= fun a => f a b).
Proof.
  induction l as [|a l IH]; cbn.
  - by induction k.
  - rewrite IH. by rewrite bind_app_fun.
Qed.

Lemma range_shares_all n topics : (0 < n)%nat ->
  seq 0 n ≫= (fun j => range_share n j topics) ≡ₚ allPartitions topics.
Proof.
  intros Hn. unfold range_share, allPartitions. rewrite bind_swap.
  induction topics as [|[t ps] topics IH]; [done|]. cbn. f_equiv; [|exact IH].
  transitivity (mkTP t <$> (seq 0 n ≫= fun j => range_of n j ps)); [|by rewrite ranges_all].
  generalize (seq 0 n) as js.
  induction js as [|j js IHj]; [done|]. cbn. by rewrite IHj, fmap_app.
Qed.

Lemma range_inner_spec topic ps num : forall cur l,
  (cur + num <= length ps)%nat ->
  range_inner topic ps num cur l = (l ++ (mkTP topic <$> take num (drop cur ps)), (cur + num)%nat).
Proof.
  induction num as [|num IH]; intros cur l Hl; cbn [range_inner].
  - cbn. by rewrite app_nil_r, Nat.add_0_r.
  - destruct (lookup_lt_is_Some_2 ps cur) as [p Hp]; [lia|]. rewrite Hp, IH by lia.
    rewrite (drop_S ps p cur Hp). cbn. rewrite <-app_assoc. cbn. f_equal. lia.
Qed.

Lemma range_assignor_topic n topic ps members : forall i asg,
  NoDup members -> (i + length members = n)%nat ->
  let asg' := range_assignor_members topic ps (length ps / n) (length ps mod n) members i
                (range_start (length ps / n) (length ps mod n) i) asg in
  (forall j m, members !! j = Some m ->
     given id asg' m = given id asg m ++ (mkTP topic <$> range_of n (i + j) ps))
  /\ (forall m, m ∉ members -> asg' !! m = asg !! m).
Proof.
  induction members as [|m0 members IH]; intros i asg Hnd Hi; cbn [range_assignor_members].
  - split; [|done]. by intros j m Hj.
  - apply NoDup_cons in Hnd as [Hm0 Hnd]. cbn [length] in Hi.
    rewrite range_inner_spec.
    2:{ rewrite range_start_S. etransitivity; [apply (range_start_le _ _ n); lia|].
        rewrite range_start_all; lia. }
    rewrite range_start_S. change (take _ (drop _ ps)) with (range_of n i ps).
    destruct (IH (S i) (<[m0 := default [] (asg !! m0) ++ (mkTP topic <$> range_of n i ps)]> asg) Hnd)
      as [Ha Hb]; [lia|].
    split.
    + intros [|j] m Hj; cbn in Hj.
      * injection Hj as <-. unfold given at 1. rewrite Hb by done. rewrite lookup_insert_eq.
        by rewrite Nat.add_0_r.
      * rewrite (Ha j m Hj). unfold given at 1. rewrite lookup_insert_ne.
        -- by rewrite Nat.add_succ_r.
        -- intros ->. apply Hm0. by eapply list_elem_of_lookup_2.
    + intros m Hm. rewrite Hb by set_solver. apply lookup_insert_ne. set_solver.
Qed.

(** The range assignor is exact and balanced: in every topic, the members
    get consecutive ranges that together are exactly the topic's partitions,
    and the sizes of the ranges differ by at most one. *)
Theorem range_assignor_exact memberIDs topics :
  memberIDs <> [] -> NoDup memberIDs ->
  memberIDs ≫= given id (RangeAssignor_Assign memberIDs topics) ≡ₚ allPartitions topics
  /\ forall j m, memberIDs !! j = Some m ->
       given id (RangeAssignor_Assign memberIDs topics) m = range_share (length memberIDs) j topics
       /\ forall ps, length (range_of (length memberIDs) j ps)
            = (length ps / length memberIDs
               + (if (j <? length ps mod length memberIDs)%nat then 1 else 0))%nat.
Proof.
  intros Hne Hnd. assert (0 < length memberIDs)%nat as Hn by (destruct memberIDs; [done|simpl; lia]).
  assert (forall j m, memberIDs !! j = Some m ->
    given id (RangeAssignor_Assign memberIDs topics) m = range_share (length memberIDs) j topics) as H.
  { intros j m Hj. unfold RangeAssignor_Assign. rewrite decide_False by lia.
    assert (given id (init_assignments memberIDs) m = []) as E0.
    { unfold given. by rewrite init_lookup by (by eapply list_elem_of_lookup_2). }
    change (range_share (length memberIDs) j topics) with ([] ++ range_share (length memberIDs) j topics).
    rewrite <-E0. generalize (init_assignments (A:=TopicPartition) memberIDs) as asg. clear E0.
    induction topics as [|[t ps] topics IH]; intros asg; cbn [foldl]; [by rewrite app_nil_r|].
    rewrite IH. destruct (range_assignor_topic (length memberIDs) t ps memberIDs 0 asg Hnd) as [Ha _];
      [done|]. cbn [fst snd].
    change (range_start (length ps / length memberIDs) (length ps mod length memberIDs) 0)
      with 0%nat in Ha.
    rewrite (Ha j m Hj). by rewrite <-app_assoc. }
  split.
  - rewrite (bind_index _ (fun j => range_share (length memberIDs) j topics) memberIDs 0).
    + by apply range_shares_all.
    + intros j m Hj. by rewrite (H j m Hj).
  - intros j m Hj. split; [by apply H|]. intros ps. apply range_of_length. by eapply lookup_lt_Some.
Qed.

Lemma range_assignor_exact_witness :
  ["a"; "b"] ≫= given id (RangeAssignor_Assign ["a"; "b"] [("t", [0; 1; 2])])
    ≡ₚ allPartitions [("t", [0; 1; 2])]
  /\ forall j m, ["a"; "b"] !! j = Some m ->
       given id (RangeAssignor_Assign ["a"; "b"] [("t", [0; 1; 2])]) m
       = range_share 2 j [("t", [0; 1; 2])]
       /\ forall ps, length (range_of 2 j ps)
            = (length ps / 2 + (if (j <? length ps mod 2)%nat then 1 else 0))%nat.
Proof.
  apply (range_assignor_exact ["a"; "b"] [("t", [0; 1; 2])]).
  - discriminate.
  - apply (bool_decide_unpack _). reflexivity.
Defined.

Lemma range_policy_topic n topic ps members : forall i asg,
  NoDup members -> (i + length members = n)%nat ->
  exists asg', range_policy_members topic ps (length ps / n) (length ps mod n) members i
                (range_start (length ps / n) (length ps mod n) i) asg = Ret asg'
  /\ (forall j m, members !! j = Some m ->
     given flat_pa asg' m = given flat_pa asg m ++ (mkTP topic <$> range_of n (i + j) ps))
  /\ (forall m, m ∉ members -> asg' !! m = asg !! m).
Proof.
  induction members as [|m0 members IH]; intros i asg Hnd Hi; cbn [range_policy_members].
  - exists asg. split; [done|]. split; [|done]. by intros j m Hj.
  - apply NoDup_cons in Hnd as [Hm0 Hnd]. cbn [length] in Hi.
    set (count := if (i <? length ps mod n)%nat then S (length ps / n) else (length ps / n)%nat).
    assert (range_start (length ps / n) (length ps mod n) i + count <= length ps)%nat as Hle.
    { unfold count. rewrite range_start_S. etransitivity; [apply (range_start_le _ _ n); lia|].
      rewrite range_start_all; lia. }
    set (asg1 := if (0 <? count)%nat
      then <[m0 := default [] (asg !! m0) ++ [mkPA topic (range_of n i ps)]]> asg else asg).
    assert (given flat_pa asg1 m0 = given flat_pa asg m0 ++ (mkTP topic <$> range_of n i ps)) as H0.
    { unfold asg1, given. destruct (Nat.ltb_spec 0 count) as [_|Hz].
      - rewrite lookup_insert_eq. cbn [from_option]. unfold flat_pa, id.
        rewrite bind_app. cbn. by rewrite app_nil_r.
      - unfold range_of. fold count. replace count with 0%nat by lia. cbn. by rewrite app_nil_r. }
    assert (forall m, m <> m0 -> asg1 !! m = asg !! m) as H1.
    { intros m Hm. unfold asg1. destruct (0 <? count)%nat; [by rewrite lookup_insert_ne|done]. }
    destruct (IH (S i) asg1 Hnd) as (asg' & E & Ha & Hb); [lia|].
    exists asg'. split; [|split].
    + rewrite <-E, <-range_start_S. fold count. unfold asg1.
      destruct (Nat.ltb_spec 0 count) as [_|Hz]; [|by replace count with 0%nat by lia; rewrite Nat.add_0_r].
      unfold slice. rewrite decide_True by done. done.
    + intros [|j] m Hj; cbn in Hj.
      * injection Hj as <-. unfold given at 1. rewrite Hb by done. rewrite Nat.add_0_r. exact H0.
      * rewrite (Ha j m Hj). unfold given at 1. rewrite H1; [by rewrite Nat.add_succ_r|].
        intros ->. apply Hm0. by eapply list_elem_of_lookup_2.
    + intros m Hm. rewrite Hb by set_solver. apply H1. set_solver.
Qed.

Lemma range_policy_topics_spec members topics :
  NoDup members -> members <> [] -> forall asg,
  exists asg', range_policy_topics members topics asg = Ret asg'
  /\ forall j m, members !! j = Some m ->
     given flat_pa asg' m = given flat_pa asg m ++ range_share (length members) j topics.
Proof.
  intros Hnd Hne. induction topics as [|[t ps] topics IH]; intros asg; cbn [range_policy_topics].
  - exists asg. split; [done|]. intros. by rewrite app_nil_r.
  - rewrite decide_False by (by destruct members).
    destruct (range_policy_topic (length members) t ps members 0 asg Hnd) as (asg1 & E & Ha & _); [done|].
    change (range_start (length ps / length members) (length ps mod length members) 0) with 0%nat in E.
    rewrite E. destruct (IH asg1) as (asg' & -> & H). exists asg'. split; [done|].
    intros j m Hj. rewrite (H j m Hj), (Ha j m Hj). by rewrite <-app_assoc.
Qed.

(** The range policy of the group coordinator is exact and balanced: it
    does not panic, no slice is out of range, and in every topic the members
    get the same consecutive ranges as with the range assignor. *)
Theorem range_policy_exact members topics :
  members <> [] -> NoDup members ->
  exists asg, RangeRebalancePolicy_Assign members topics = Ret asg
    /\ members ≫= given flat_pa asg ≡ₚ allPartitions topics
    /\ forall j m, members !! j = Some m ->
         given flat_pa asg m = range_share (length members) j topics.
Proof.
  intros Hne Hnd. assert (0 < length members)%nat as Hn by (destruct members; [done|simpl; lia]).
  destruct (range_policy_topics_spec members topics Hnd Hne (init_assignments members))
    as (asg & E & H).
  assert (forall j m, members !! j = Some m -> given flat_pa asg m = range_share (length members) j topics)
    as H'.
  { intros j m Hj. rewrite (H j m Hj). unfold given.
    by rewrite (init_lookup members m) by (by eapply list_elem_of_lookup_2). }
  exists asg. split; [done|]. split; [|done].
  rewrite (bind_index _ (fun j => range_share (length members) j topics) members 0).
  - by apply range_shares_all.
  - intros j m Hj. by rewrite (H' j m Hj).
Qed.

Lemma range_policy_exact_witness :
  exists asg, RangeRebalancePolicy_Assign ["a"; "b"] [("t", [0; 1; 2])] = Ret asg
    /\ ["a"; "b"] ≫= given flat_pa asg ≡ₚ allPartitions [("t", [0; 1; 2])]
    /\ forall j m, ["a"; "b"] !! j = Some m -> given flat_pa asg m = range_share 2 j [("t", [0; 1; 2])].
Proof.
  apply (range_policy_exact ["a"; "b"] [("t", [0; 1; 2])]).
  - discriminate.
  - apply (bool_decide_unpack _). reflexivity.
Defined.

End AssignSpec.
