(* ===== verification/ConsumerGroups.v ===== *)
(** * Kafka consumer groups: the consumer group coordinator
      ([src/pkg/kafka/consumer_groups.go])

    [ConsumerGroupCoordinator] with [JoinGroup], [SyncGroup], [Heartbeat],
    [LeaveGroup], [CommitOffset], [FetchOffsets], [StartRebalance] and
    [CleanupExpiredGroups].  Its [PartitionAssignmentStrategy] is a class, which
    [RoundRobinAssignor], the strategy of every coordinator, implements
    ([RangeAssignor] has another type of members and does not).
    [order] is the order in which Go ranges over the members. *)
From stdpp Require Import base gmap strings list numbers fin_maps pretty.
From Stdlib Require Import ZArith Lia.
From S2P Require Import Prelude Groups Assign AssignSpec.

Module ConsumerGroups.
Import Groups Assign.

(** ** The strategy interface *)

Class PartitionAssignmentStrategy := {
  Strategy_Name : string;
  Strategy_Assign : list string -> topic_map -> exec (res string (gmap string (list TopicPartition)))
}.

(** The strategy of a new coordinator. *)
#[export] Instance RoundRobinAssignor : PartitionAssignmentStrategy := {|
  Strategy_Name := "RoundRobin";
  Strategy_Assign members topics := do! asg := RoundRobinAssignor_Assign members topics in Ret (Ok asg)
|}.

Section coordinator.
Context `{PartitionAssignmentStrategy}.

Definition CG_JoinGroup (now : Z) (groupID memberID clientID protocolType : string)
  (sessionTimeout rebalanceTimeout : Z) (protocols : gmap string bytes) (gs : groups)
  : groups * (ConsumerGroup * string) :=
  let group := match gs !! groupID with
               | Some group => group
               | None => mkGroup groupID ∅ Empty protocolType "" 0 ∅ ∅ ∅ sessionTimeout
                           rebalanceTimeout now None
               end in
  let memberID := if decide (memberID = "") then clientID +:+ "-" +:+ pretty now else memberID in
  let member := mkMember memberID clientID "" sessionTimeout rebalanceTimeout [] [] None now now in
  let group := set_generation (Generation group + 1) (set_state PreparingRebalance
                 (set_members (<[memberID := member]> (Members group)) group)) in
  (<[groupID := group]> gs, (group, memberID)).

Definition group_not_found (groupID : string) : string := "group not found: " +:+ groupID.

Definition invalid_generation (group : ConsumerGroup) (generation : Z) : string :=
  "invalid generation: expected " +:+ pretty (Generation group) +:+ ", got " +:+ pretty generation.

Definition CG_SyncGroup (groupID memberID : string) (generation : Z)
  (assignments : gmap string (list TopicPartition)) (gs : groups) : groups * option string :=
  match gs !! groupID with
  | None => (gs, Some (group_not_found groupID))
  | Some group =>
    if negb (Generation group =? generation) then (gs, Some (invalid_generation group generation))
    else (<[groupID := set_state Stable (set_assignments assignments group)]> gs, None)
  end.

Definition CG_Heartbeat (now : Z) (groupID memberID : string) (generation : Z) (gs : groups)
  : groups * option string :=
  match gs !! groupID with
  | None => (gs, Some (group_not_found groupID))
  | Some group =>
    match Members group !! memberID with
    | None => (gs, Some ("member not found: " +:+ memberID))
    | Some member =>
      if negb (Generation group =? generation) then (gs, Some (invalid_generation group generation))
      else (<[groupID := set_g_heartbeat now
                (set_members (<[memberID := set_heartbeat now member]> (Members group)) group)]> gs, None)
    end
  end.

Definition CG_LeaveGroup (groupID memberID : string) (gs : groups) : groups * option string :=
  match gs !! groupID with
  | None => (gs, Some (group_not_found groupID))
  | Some group =>
    let group := set_members (delete memberID (Members group)) group in
    let group := if decide (size (Members group) = 0%nat) then set_state Empty group
                 else set_generation (Generation group + 1) (set_state PreparingRebalance group) in
    (<[groupID := group]> gs, None)
  end.

Definition CommitOffset (groupID : string) (commits : gmap TopicPartition Z) (gs : groups)
  : groups * option string :=
  match gs !! groupID with
  | None => (gs, Some (group_not_found groupID))
  | Some group =>
    (<[groupID := set_offsets (map_fold (fun tp offset os => <[tp := offset]> os)
                                 (Offsets group) commits) group]> gs, None)
  end.

Definition FetchOffsets (groupID : string) (partitions : list TopicPartition) (gs : groups)
  : res string (gmap TopicPartition Z) :=
  match gs !! groupID with
  | None => Err (group_not_found groupID)
  | Some group =>
    Ok (foldl (fun offsets tp =>
      <[tp := match Offsets group !! tp with Some offset => offset | None => -1 end]> offsets)
      ∅ partitions)
  end.

Definition CG_DescribeGroups (groupIDs : list string) (gs : groups) : groups :=
  foldl (fun result groupID =>
    match gs !! groupID with Some group => <[groupID := group]> result | None => result end)
    ∅ groupIDs.

Definition StartRebalance (order : list string) (groupID : string) (topics : topic_map) (gs : groups)
  : exec (groups * option string) :=
  match gs !! groupID with
  | None => Ret (gs, Some (group_not_found groupID))
  | Some group =>
    if decide (State group <> Stable) then
      Ret (gs, Some ("group not in stable state: " +:+ state_string (State group)))
    else
    let group := set_generation (Generation group + 1) (set_state PreparingRebalance group) in
    do! r := Strategy_Assign order topics in
    match r with
    | Err e => Ret (<[groupID := group]> gs, Some ("failed to assign partitions: " +:+ e))
    | Ok assignments =>
      Ret (<[groupID := set_state Stable (set_assignments assignments group)]> gs, None)
    end
  end.

Definition minute : Z := 60 * second.

(** [now.Sub(t) > d]; the zero time is always longer ago. *)
Definition older (now : Z) (t : option Z) (d : Z) : bool :=
  match t with Some t => now - t >? d | None => true end.

Definition cleanup_group (now : Z) (group : ConsumerGroup) : option ConsumerGroup :=
  let kept := filter (fun p => (now - LastHeartbeat (snd p) >? g_SessionTimeout group) = false)
                (Members group) in
  let gone := filter (fun p => (now - LastHeartbeat (snd p) >? g_SessionTimeout group) = true)
                (Members group) in
  let hasExpiredMembers := bool_decide (size gone <> 0%nat) in
  let group := set_members kept group in
  let group :=
    if hasExpiredMembers then
      if decide (size (Members group) = 0%nat) then set_state Empty group
      else set_generation (Generation group + 1) (set_state PreparingRebalance group)
    else group in
  if bool_decide (size (Members group) = 0%nat) && older now (g_LastHeartbeat group) (5 * minute)
  then None else Some group.

Definition CleanupExpiredGroups (now : Z) (gs : groups) : groups := omap (cleanup_group now) gs.

End coordinator.
End ConsumerGroups.
