(* ===== verification/ConsumerGroupsSpec.v ===== *)
(** * What the consumer group coordinator guarantees

    Rebalancing with the round-robin strategy, committed offsets, and fencing of calls from a previous generation. *)
From stdpp Require Import base gmap strings list numbers fin_maps.
From Stdlib Require Import ZArith Lia.
From S2P Require Import Prelude Groups GroupsSpec Assign AssignSpec ConsumerGroups.

Module ConsumerGroupsSpec.
Import Groups Assign ConsumerGroups.

(** The strategy gives every partition to exactly one member. *)
Lemma round_robin_strategy_exact members topics :
  members <> [] -> NoDup members -> AssignSpec.distinct topics ->
  exists asg, Strategy_Assign members topics = Ret (Ok asg) /\ AssignSpec.each_once members topics (AssignSpec.has_tp asg).
Proof.
  intros Hne Hnd Hd. cbn. unfold RoundRobinAssignor_Assign. rewrite decide_False by (by destruct members).
  destruct (AssignSpec.rr_exact (fun tp l => l ++ [tp]) id (fun tp l => reflexivity (l ++ [tp]))
    members (allPartitions topics) eq_refl Hne Hnd) as (asg & -> & Hp & _).
  exists asg. split; [done|]. by apply (AssignSpec.exact_each_once id asg).
Qed.

(** C10: a rebalance of a stable group with members, with the strategy every
    coordinator has, [RoundRobinAssignor], succeeds: the group is stable again in
    the next generation, its members are unchanged, and its assignments give
    every listed partition of every topic to exactly one of them, and nothing
    else.  The topics are distinct and list no partition twice; the order is the
    one in which the map of members is iterated. *)
Theorem rebalance_exact order gid topics gs g :
  AssignSpec.distinct topics ->
  gs !! gid = Some g -> State g = Stable -> Members g <> ∅ ->
  order ≡ₚ (map_to_list (Members g)).*1 ->
  exists gs' g', StartRebalance (H := RoundRobinAssignor) order gid topics gs = Ret (gs', None)
    /\ gs' !! gid = Some g' /\ State g' = Stable /\ Generation g' = s32 (Generation g + 1)
    /\ Members g' = Members g
    /\ AssignSpec.each_once (map_to_list (Members g)).*1 topics (AssignSpec.has_tp (Assignments g')).
Proof.
  intros Hd Hg Hs Hne Ho. unfold StartRebalance. rewrite Hg, decide_False by (by intros []).
  destruct (round_robin_strategy_exact order topics) as (asg & -> & Hp); [| |done|].
  - intros ->. apply Permutation_nil, fmap_nil_inv, map_to_list_empty_iff in Ho. done.
  - rewrite Ho. apply NoDup_fst_map_to_list.
  - eexists _, _. split; [done|]. split; [apply lookup_insert_eq|]. split_and!; [done..|]. cbn.
    intros t p. destruct (Hp t p) as [H1 H2]. split.
    + intros (m & Hm & Hh & Hu)%H1. exists m. rewrite Ho in Hm. split; [done|]. split; [done|]. intros m' Hm'. rewrite <-Ho in Hm'. by apply Hu.
    + intros m Hm. rewrite <-Ho in Hm. by apply H2.
Qed.

Definition joined_once : groups :=
  fst (CG_JoinGroup 0 "g" "a" "ca" "consumer" 30 60 ∅ ∅).
Definition joined_twice : groups :=
  fst (CG_JoinGroup 1 "g" "b" "cb" "consumer" 30 60 ∅ joined_once).
Definition stable_pair : groups := fst (CG_SyncGroup "g" "a" 2 ∅ joined_twice).
Definition stable_group : ConsumerGroup :=
  match stable_pair !! "g" with Some g => g | None => new_group 0 "g" end.

Lemma rebalance_exact_witness :
  exists gs' g', StartRebalance (H := RoundRobinAssignor) ["a"; "b"] "g" [("t", [0; 1; 2])] stable_pair = Ret (gs', None)
    /\ gs' !! "g" = Some g' /\ State g' = Stable /\ Generation g' = s32 (Generation stable_group + 1)
    /\ Members g' = Members stable_group
    /\ AssignSpec.each_once (map_to_list (Members stable_group)).*1 [("t", [0; 1; 2])] (AssignSpec.has_tp (Assignments g')).
Proof.
  apply (rebalance_exact ["a"; "b"] "g" [("t", [0; 1; 2])] stable_pair stable_group).
  - split; apply (bool_decide_unpack _); reflexivity.
  - vm_compute. reflexivity.
  - vm_compute. reflexivity.
  - intros E. apply (f_equal (lookup "a")) in E. vm_compute in E. discriminate.
  - apply (bool_decide_unpack _). vm_compute. reflexivity.
Defined.

(** ** Offsets *)

Lemma fetched_lookup (os : gmap TopicPartition Z) ps : forall (acc : gmap TopicPartition Z) tp,
  foldl (fun offsets tp =>
    <[tp := match os !! tp with Some offset => offset | None => -1 end]> offsets) acc ps !! tp
  = if decide (tp ∈ ps) then Some (default (-1) (os !! tp)) else acc !! tp.
Proof.
  induction ps as [|p ps IH]; intros acc tp; cbn [foldl].
  - by rewrite decide_False by apply not_elem_of_nil.
  - rewrite IH. destruct (decide (tp ∈ ps)) as [Hin|Hin].
    + by rewrite decide_True by (by right).
    + destruct (decide (tp = p)) as [->|Hne].
      * rewrite decide_True by left. rewrite lookup_insert_eq. by destruct (os !! p).
      * rewrite decide_False by (rewrite elem_of_cons; naive_solver). by rewrite lookup_insert_ne.
Qed.

Lemma committed_lookup (commits os : gmap TopicPartition Z) :
  map_fold (fun tp offset os => <[tp := offset]> os) os commits = commits ∪ os.
Proof.
  induction commits as [|k v commits Hk Hfst IH] using map_first_key_ind.
  - rewrite map_fold_empty. by rewrite map_empty_union.
  - rewrite map_fold_insert_first_key, IH by done. by rewrite insert_union_l.
Qed.

(** Committed offsets come back.  After a commit, fetching any list of
    partitions returns for each of them the offset just committed, or else the
    one committed before, or -1 if there is none, and nothing else. *)
Theorem commit_fetch_roundtrip gid commits partitions gs g :
  gs !! gid = Some g ->
  exists gs' offs, CommitOffset gid commits gs = (gs', None)
    /\ FetchOffsets gid partitions gs' = Ok offs
    /\ forall tp, offs !! tp = if decide (tp ∈ partitions)
         then Some (default (default (-1) (Offsets g !! tp)) (commits !! tp)) else None.
Proof.
  intros Hg. unfold CommitOffset. rewrite Hg. eexists _, _. split; [done|].
  unfold FetchOffsets. rewrite lookup_insert_eq. split; [done|]. intros tp.
  rewrite fetched_lookup. cbn [Offsets set_offsets]. rewrite committed_lookup, lookup_empty.
  case_decide; [|done]. rewrite lookup_union. by destruct (commits !! tp), (Offsets g !! tp).
Qed.

Lemma commit_fetch_roundtrip_witness :
  exists gs' offs, CommitOffset "g" {[mkTP "t" 0 := 42]} stable_pair = (gs', None)
    /\ FetchOffsets "g" [mkTP "t" 0; mkTP "t" 1] gs' = Ok offs
    /\ forall tp, offs !! tp = if decide (tp ∈ [mkTP "t" 0; mkTP "t" 1])
         then Some (default (default (-1) (Offsets stable_group !! tp))
                      (({[mkTP "t" 0 := 42]} : gmap TopicPartition Z) !! tp)) else None.
Proof.
  apply (commit_fetch_roundtrip "g" {[mkTP "t" 0 := 42]} [mkTP "t" 0; mkTP "t" 1] stable_pair
    stable_group).
  vm_compute. reflexivity.
Defined.

(** ** Fencing *)

(** Every join starts a new generation: a sync or heartbeat of any
    member that still uses the generation from before the join is refused and
    changes nothing. *)
Theorem join_fences now gid mid cid pt st rt ps gs g who asg t :
  gs !! gid = Some g ->
  let gs' := fst (CG_JoinGroup now gid mid cid pt st rt ps gs) in
  (exists e, CG_SyncGroup gid who (Generation g) asg gs' = (gs', Some e))
  /\ exists e, CG_Heartbeat t gid who (Generation g) gs' = (gs', Some e).
Proof.
  intros Hg gs'. unfold gs', CG_JoinGroup. rewrite Hg. cbn [fst].
  unfold CG_SyncGroup, CG_Heartbeat. rewrite !lookup_insert_eq. cbn [Generation set_generation].
  rewrite (proj2 (Z.eqb_neq _ _) (GroupsSpec.s32_succ_ne (Generation g))). cbn [negb].
  split; [by eauto|]. destruct (_ !! who); eauto.
Qed.

Lemma join_fences_witness :
  (exists e, CG_SyncGroup "g" "a" 2 ∅ (fst (CG_JoinGroup 5 "g" "c" "cc" "consumer" 30 60 ∅ stable_pair))
     = (fst (CG_JoinGroup 5 "g" "c" "cc" "consumer" 30 60 ∅ stable_pair), Some e))
  /\ exists e, CG_Heartbeat 6 "g" "a" 2 (fst (CG_JoinGroup 5 "g" "c" "cc" "consumer" 30 60 ∅ stable_pair))
     = (fst (CG_JoinGroup 5 "g" "c" "cc" "consumer" 30 60 ∅ stable_pair), Some e).
Proof.
  apply (join_fences 5 "g" "c" "cc" "consumer" 30 60 ∅ stable_pair stable_group "a" ∅ 6).
  vm_compute. reflexivity.
Defined.

End ConsumerGroupsSpec.
