(* ===== verification/Txn.v ===== *)
(** * Kafka transactions ([src/pkg/kafka/transactions.go])

    [TransactionManager] with its own [TransactionCoordinator], and the
    [TransactionalProducer] that batches messages per topic-partition.  Every
    method holds its object's mutex, so it is one step.  The clock is an
    argument.  [FlushTransaction] also returns the batches it handed to
    [sendBatch], which in the source accepts everything. *)
From stdpp Require Import base gmap strings list numbers fin_maps pretty.
From Stdlib Require Import ZArith Lia.
From S2P Require Import Prelude Groups.

Module Txn.
Import Groups.

Inductive TransactionState :=
| TxnEmpty | TxnOngoing | TxnCompleteCommit | TxnCompleteAbort | TxnPreparingRebalance
| TxnPreparingCommit | TxnCommittingTxn | TxnPreparingAbort | TxnCompletingAbort
| TxnPrepareCommit | TxnPrepareAbort | TxnDead.

#[export] Instance TransactionState_eq_dec : EqDecision TransactionState.
Proof. solve_decision. Defined.

(** The type has no [String] method: [%v] prints its number. *)
Definition state_code (s : TransactionState) : Z :=
  match s with
  | TxnEmpty => 0 | TxnOngoing => 1 | TxnCompleteCommit => 2 | TxnCompleteAbort => 3
  | TxnPreparingRebalance => 4 | TxnPreparingCommit => 5 | TxnCommittingTxn => 6
  | TxnPreparingAbort => 7 | TxnCompletingAbort => 8 | TxnPrepareCommit => 9
  | TxnPrepareAbort => 10 | TxnDead => 11
  end.

Record TransactionMetadata := mkMetadata {
  TransactionalID : string;
  ProducerID : Z;
  ProducerEpoch : Z;
  t_State : TransactionState;
  TopicPartitions : gmap string (list Z);
  TxnStartTimestamp : Z;
  TxnTimeoutMs : Z;
  LastUpdateTime : Z
}.

(** The coordinator's map of transactions. *)
Abbreviation TransactionCoordinator := (gmap string TransactionMetadata).

Record TransactionManager := mkTM {
  transactionalID : string;
  producerID : Z;
  producerEpoch : Z;
  timeout : Z;
  state : TransactionState;
  coordinator : TransactionCoordinator
}.

Record TransactionalMessage := mkTxnMessage {
  Key : bytes;
  Value : bytes;
  Headers : gmap string bytes;
  Timestamp : Z;
  Sequence : Z
}.

Record ProducerBatch := mkPBatch {
  pb_TopicPartition : TopicPartition;
  pb_Messages : list TransactionalMessage;
  FirstSequence : Z;
  LastSequence : Z;
  pb_ProducerID : Z;
  pb_ProducerEpoch : Z
}.

Record TransactionalProducer := mkProducer {
  transactionManager : TransactionManager;
  batches : gmap TopicPartition ProducerBatch;
  sequenceNumbers : gmap TopicPartition Z
}.

Definition NewTransactionManager (id : string) (timeout : Z) : TransactionManager :=
  mkTM id 0 0 timeout TxnEmpty ∅.

Definition NewTransactionalProducer (id : string) (timeout : Z) : TransactionalProducer :=
  mkProducer (NewTransactionManager id timeout) ∅ ∅.

Definition set_tm_state (s : TransactionState) (tm : TransactionManager) : TransactionManager :=
  mkTM (transactionalID tm) (producerID tm) (producerEpoch tm) (timeout tm) s (coordinator tm).
Definition set_coordinator (tc : TransactionCoordinator) (tm : TransactionManager) : TransactionManager :=
  mkTM (transactionalID tm) (producerID tm) (producerEpoch tm) (timeout tm) (state tm) tc.

(** ** Coordinator *)

Definition InitProducerID (now : Z) (id : string) (tc : TransactionCoordinator) : Z * Z :=
  (now, match tc !! id with Some existing => s16 (ProducerEpoch existing + 1) | None => 0 end).

Definition AddTransaction (m : TransactionMetadata) (tc : TransactionCoordinator)
  : TransactionCoordinator := <[TransactionalID m := m]> tc.

(** The loop that keeps the first occurrence of every partition. *)
Fixpoint unique (seen : gset Z) (ps : list Z) : list Z :=
  match ps with
  | [] => []
  | p :: ps => if decide (p ∈ seen) then unique seen ps else p :: unique ({[p]} ∪ seen) ps
  end.

Definition merge_partitions (partitions : gmap string (list Z)) (tps : gmap string (list Z))
  : gmap string (list Z) :=
  map_fold (fun topic partitionList tps =>
    match tps !! topic with
    | Some existing => <[topic := unique ∅ (existing ++ partitionList)]> tps
    | None => <[topic := partitionList]> tps
    end) tps partitions.

Definition txn_not_found (id : string) : string := "transaction not found: " +:+ id.

Definition AddPartitionsToTransaction (now : Z) (id : string) (partitions : gmap string (list Z))
  (tc : TransactionCoordinator) : TransactionCoordinator * option string :=
  match tc !! id with
  | None => (tc, Some (txn_not_found id))
  | Some m =>
    (<[id := mkMetadata (TransactionalID m) (ProducerID m) (ProducerEpoch m) (t_State m)
               (merge_partitions partitions (TopicPartitions m)) (TxnStartTimestamp m)
               (TxnTimeoutMs m) now]> tc, None)
  end.

Definition EndTransaction (now : Z) (id : string) (commit : bool) (tc : TransactionCoordinator)
  : TransactionCoordinator * option string :=
  match tc !! id with
  | None => (tc, Some (txn_not_found id))
  | Some m =>
    (<[id := mkMetadata (TransactionalID m) (ProducerID m) (ProducerEpoch m)
               (if commit then TxnCompleteCommit else TxnCompleteAbort)
               (TopicPartitions m) (TxnStartTimestamp m) (TxnTimeoutMs m) now]> tc, None)
  end.

Definition GetTransactionState (id : string) (tc : TransactionCoordinator)
  : TransactionState * option string :=
  match tc !! id with
  | None => (TxnDead, Some (txn_not_found id))
  | Some m => (t_State m, None)
  end.

Definition CleanupExpiredTransactions (now maxAge : Z) (tc : TransactionCoordinator)
  : TransactionCoordinator :=
  filter (fun p => (now - LastUpdateTime (snd p) >? maxAge) = false) tc.

(** ** Manager *)

Definition InitTransactions (now : Z) (tm : TransactionManager) : TransactionManager * option string :=
  if decide (state tm <> TxnEmpty) then (tm, Some "transaction manager already initialized") else
  let '(pid, epoch) := InitProducerID now (transactionalID tm) (coordinator tm) in
  (mkTM (transactionalID tm) pid epoch (timeout tm) TxnEmpty (coordinator tm), None).

Definition BeginTransaction (now : Z) (tm : TransactionManager) : TransactionManager * option string :=
  if decide (state tm <> TxnEmpty) then
    (tm, Some ("transaction already in progress, state: " +:+ pretty (state_code (state tm))))
  else
  let metadata := mkMetadata (transactionalID tm) (producerID tm) (producerEpoch tm) TxnOngoing ∅
                    now (s32 (Z.quot (timeout tm) 1000000)) now in
  (set_tm_state TxnOngoing (set_coordinator (AddTransaction metadata (coordinator tm)) tm), None).

Definition AddPartitionsToTxn (now : Z) (partitions : gmap string (list Z)) (tm : TransactionManager)
  : TransactionManager * option string :=
  if decide (state tm <> TxnOngoing) then
    (tm, Some ("no ongoing transaction, state: " +:+ pretty (state_code (state tm))))
  else
  let '(tc, err) := AddPartitionsToTransaction now (transactionalID tm) partitions (coordinator tm) in
  (set_coordinator tc tm, err).

Definition CommitTransaction (now : Z) (tm : TransactionManager) : TransactionManager * option string :=
  if decide (state tm <> TxnOngoing) then
    (tm, Some ("no ongoing transaction to commit, state: " +:+ pretty (state_code (state tm))))
  else
  let tm := set_tm_state TxnPrepareCommit tm in
  let '(tc, err) := EndTransaction now (transactionalID tm) true (coordinator tm) in
  let tm := set_coordinator tc tm in
  match err with
  | Some e => (set_tm_state TxnOngoing tm, Some ("failed to commit transaction: " +:+ e))
  | None => (set_tm_state TxnEmpty (set_tm_state TxnCompleteCommit tm), None)
  end.

Definition AbortTransaction (now : Z) (tm : TransactionManager) : TransactionManager * option string :=
  if decide (state tm <> TxnOngoing /\ state tm <> TxnPrepareCommit) then
    (tm, Some ("no transaction to abort, state: " +:+ pretty (state_code (state tm))))
  else
  let tm := set_tm_state TxnPrepareAbort tm in
  let '(tc, err) := EndTransaction now (transactionalID tm) false (coordinator tm) in
  let tm := set_coordinator tc tm in
  match err with
  | Some e => (tm, Some ("failed to abort transaction: " +:+ e))
  | None => (set_tm_state TxnEmpty (set_tm_state TxnCompleteAbort tm), None)
  end.

(** ** Producer *)

Definition set_tm (tm : TransactionManager) (p : TransactionalProducer) : TransactionalProducer :=
  mkProducer tm (batches p) (sequenceNumbers p).

Definition next_sequence (tp : TopicPartition) (p : TransactionalProducer) : Z :=
  default 0 (sequenceNumbers p !! tp).

Definition SendToTransaction (now : Z) (topic : string) (partition : Z) (message : TransactionalMessage)
  (p : TransactionalProducer) : TransactionalProducer * option string :=
  let tm := transactionManager p in
  if decide (state tm <> TxnOngoing) then (p, Some "no ongoing transaction") else
  let tp := mkTP topic partition in
  let batch := match batches p !! tp with
               | Some batch => batch
               | None => mkPBatch tp [] (next_sequence tp p) 0 (producerID tm) (producerEpoch tm)
               end in
  let sequence := next_sequence tp p in
  let message := mkTxnMessage (Key message) (Value message) (Headers message) (Timestamp message)
                   sequence in
  let batch := mkPBatch (pb_TopicPartition batch) (pb_Messages batch ++ [message])
                 (FirstSequence batch) (Sequence message) (pb_ProducerID batch)
                 (pb_ProducerEpoch batch) in
  let '(tm, err) := AddPartitionsToTxn now {[topic := [partition]]} tm in
  (mkProducer tm (<[tp := batch]> (batches p)) (<[tp := s32 (sequence + 1)]> (sequenceNumbers p)), err).

Definition FlushTransaction (p : TransactionalProducer)
  : TransactionalProducer * list ProducerBatch * option string :=
  (mkProducer (transactionManager p) ∅ (sequenceNumbers p), snd <$> map_to_list (batches p), None).

End Txn.
