(* ===== verification/TxnSpec.v ===== *)
(** * What the transactional producer guarantees, and what not

    Sequence numbers without gaps or repetition on every topic-partition; the
    states a manager can be in; and two ways in which an abort goes wrong. *)
From stdpp Require Import base gmap strings list numbers fin_maps.
From Stdlib Require Import ZArith Lia.
From S2P Require Import Prelude Groups Txn.

Module TxnSpec.
Import Groups Txn.

(** ** Runs of a producer *)

Inductive txn_op :=
| TInit (now : Z)
| TBegin (now : Z)
| TSend (now : Z) (topic : string) (partition : Z) (message : TransactionalMessage)
| TFlush
| TCommit (now : Z)
| TAbort (now : Z)
| TCleanup (now maxAge : Z).

Definition on_tm (f : TransactionManager -> TransactionManager * option string)
  (p : TransactionalProducer) : TransactionalProducer := set_tm (fst (f (transactionManager p))) p.

(** The producer and everything it has sent so far, oldest first. *)
Definition run_txn (s : TransactionalProducer * list ProducerBatch) (o : txn_op)
  : TransactionalProducer * list ProducerBatch :=
  let '(p, sent) := s in
  match o with
  | TInit now => (on_tm (InitTransactions now) p, sent)
  | TBegin now => (on_tm (BeginTransaction now) p, sent)
  | TSend now topic partition m => (fst (SendToTransaction now topic partition m p), sent)
  | TFlush => let '(p, bs, _) := FlushTransaction p in (p, sent ++ bs)
  | TCommit now => (on_tm (CommitTransaction now) p, sent)
  | TAbort now => (on_tm (AbortTransaction now) p, sent)
  | TCleanup now maxAge =>
    (set_tm (set_coordinator (CleanupExpiredTransactions now maxAge (coordinator (transactionManager p)))
       (transactionManager p)) p, sent)
  end.

(** Sequence numbers of the messages for [tp], sent and still batched. *)
Definition seqs (b : ProducerBatch) : list Z := Sequence <$> pb_Messages b.
Definition sent_seqs (tp : TopicPartition) (sent : list ProducerBatch) : list Z :=
  sent ≫= fun b => if decide (pb_TopicPartition b = tp) then seqs b else [].
Definition pending_seqs (tp : TopicPartition) (p : TransactionalProducer) : list Z :=
  match batches p !! tp with Some b => seqs b | None => [] end.

Definition numbers (n : nat) : list Z := (fun i => s32 (Z.of_nat i)) <$> seq 0 n.

Definition well_numbered (s : TransactionalProducer * list ProducerBatch) : Prop :=
  (forall tp b, batches (fst s) !! tp = Some b -> pb_TopicPartition b = tp)
  /\ forall tp, exists n, sent_seqs tp (snd s) ++ pending_seqs tp (fst s) = numbers n
       /\ next_sequence tp (fst s) = s32 (Z.of_nat n).

Lemma numbers_S n : numbers (S n) = numbers n ++ [s32 (Z.of_nat n)].
Proof. unfold numbers. by rewrite seq_S, fmap_app. Qed.

Lemma s32_s32_succ n : s32 (s32 (Z.of_nat n) + 1) = s32 (Z.of_nat (S n)).
Proof.
  apply wraps_congr; [lia|]. rewrite Zplus_mod, wraps_mod by lia. rewrite <-Zplus_mod. f_equal. lia.
Qed.

(** Only the producer's own fields matter. *)
Lemma well_numbered_tm tm p sent :
  well_numbered (p, sent) -> well_numbered (set_tm tm p, sent).
Proof. done. Qed.

Lemma SendToTransaction_fields now topic partition m p :
  let p' := fst (SendToTransaction now topic partition m p) in
  let tp := mkTP topic partition in
  p' = p \/
  exists b, (forall b0, batches p !! tp = Some b0 -> pb_TopicPartition b = pb_TopicPartition b0)
    /\ (batches p !! tp = None -> pb_TopicPartition b = tp)
    /\ seqs b = pending_seqs tp p ++ [next_sequence tp p]
    /\ batches p' = <[tp := b]> (batches p)
    /\ sequenceNumbers p' = <[tp := s32 (next_sequence tp p + 1)]> (sequenceNumbers p).
Proof.
  cbn zeta. unfold SendToTransaction. case_decide; [by left|]. right.
  destruct (AddPartitionsToTxn now _ (transactionManager p)) as [tm err]. cbn [fst].
  eexists. split_and!; [| | |done|done].
  - intros b0 Hb0. cbn. by rewrite Hb0.
  - intros Hn. cbn. by rewrite Hn.
  - unfold seqs, pending_seqs. cbn. rewrite fmap_app. cbn. f_equal. by destruct (batches p !! _).
Qed.

Lemma send_well_numbered now topic partition m p sent :
  well_numbered (p, sent) -> well_numbered (fst (SendToTransaction now topic partition m p), sent).
Proof.
  intros [Hk Hn]. destruct (SendToTransaction_fields now topic partition m p)
    as [->|(b & Hb1 & Hb2 & Hs & Eb & Es)]; [done|].
  set (p' := fst (SendToTransaction now topic partition m p)) in *.
  set (tp0 := mkTP topic partition) in *. cbn [fst snd] in *. split; cbn [fst snd].
  - intros tp b' Hb'. rewrite Eb in Hb'. apply lookup_insert_Some in Hb' as [[<- <-]|[_ Hb']].
    + destruct (batches p !! tp0) as [b0|] eqn:E0; [|by apply Hb2].
      rewrite (Hb1 b0) by done. by apply Hk.
    + by apply Hk.
  - intros tp. destruct (Hn tp) as (n & E & En). unfold pending_seqs, next_sequence in *.
    rewrite Eb, Es. destruct (decide (tp0 = tp)) as [<-|Hne].
    + exists (S n). rewrite !lookup_insert_eq. cbn [from_option].
      rewrite Hs, En, app_assoc, E, <-numbers_S.
      split; [done|]. apply s32_s32_succ.
    + exists n. by rewrite !lookup_insert_ne.
Qed.

(** Batches filed under their own topic-partition. *)
Definition filed (L : list (TopicPartition * ProducerBatch)) : Prop :=
  Forall (fun q => pb_TopicPartition (snd q) = fst q) L.

Lemma sent_seqs_cons tp b bs :
  sent_seqs tp (b :: bs) = (if decide (pb_TopicPartition b = tp) then seqs b else []) ++ sent_seqs tp bs.
Proof. reflexivity. Qed.

Lemma sent_none tp L : filed L -> tp ∉ L.*1 -> sent_seqs tp (L.*2) = [].
Proof.
  induction 1 as [|[k b] L Hb HL IH]; intros Hn; [done|].
  rewrite !fmap_cons in *. cbn [fst snd] in *. rewrite sent_seqs_cons, Hb.
  apply not_elem_of_cons in Hn as [Hne Hn]. rewrite decide_False by done. by apply IH.
Qed.

Lemma sent_some tp b L : filed L -> NoDup (L.*1) -> (tp, b) ∈ L -> sent_seqs tp (L.*2) = seqs b.
Proof.
  induction 1 as [|[k b'] L Hb HL IH]; intros Hnd Hin; [by apply elem_of_nil in Hin|].
  rewrite !fmap_cons in *. cbn [fst snd] in *. apply NoDup_cons in Hnd as [Hk Hnd].
  rewrite sent_seqs_cons, Hb. apply elem_of_cons in Hin as [[= -> ->]|Hin].
  - rewrite decide_True by done. rewrite sent_none by done. apply app_nil_r.
  - rewrite decide_False; [by apply IH|]. intros ->. apply Hk.
    apply list_elem_of_fmap. by exists (tp, b).
Qed.

Lemma sent_pending tp (bs : gmap TopicPartition ProducerBatch) :
  (forall tp b, bs !! tp = Some b -> pb_TopicPartition b = tp) ->
  sent_seqs tp ((map_to_list bs).*2) = match bs !! tp with Some b => seqs b | None => [] end.
Proof.
  intros Hk. assert (filed (map_to_list bs)) as Hf.
  { apply Forall_forall. intros [k b] Hin. apply elem_of_map_to_list in Hin. by apply Hk. }
  destruct (bs !! tp) as [b|] eqn:E.
  - apply sent_some; [done|apply NoDup_fst_map_to_list|by apply elem_of_map_to_list].
  - apply sent_none; [done|]. intros Hin. apply list_elem_of_fmap in Hin as ([k b] & -> & Hin).
    apply elem_of_map_to_list in Hin. cbn in E. congruence.
Qed.

Lemma sent_seqs_app tp l k : sent_seqs tp (l ++ k) = sent_seqs tp l ++ sent_seqs tp k.
Proof. apply bind_app. Qed.

Lemma run_txn_numbered s o : well_numbered s -> well_numbered (run_txn s o).
Proof.
  destruct s as [p sent]. intros H. destruct o; cbn [run_txn]; try exact H.
  - by apply send_well_numbered.
  - destruct H as [Hk Hn]. cbn. split; cbn [fst snd batches].
    + intros tp b Hb. by rewrite lookup_empty in Hb.
    + intros tp. destruct (Hn tp) as (n & E & En). exists n. split; [|exact En].
      rewrite sent_seqs_app, (sent_pending tp) by exact Hk.
      unfold pending_seqs. cbn [batches]. rewrite lookup_empty, app_nil_r. exact E.
Qed.

(** C7: sequence numbers.  Whatever a transactional producer does (begin,
    send, flush, commit, abort, expiry in the coordinator), the messages of
    every topic-partition, flushed and pending together, carry the sequence
    numbers 0, 1, 2, ... (as int32) without gap or repetition, and the next
    message gets the next number. *)
Theorem sequences_contiguous id timeout os tp :
  let s := foldl run_txn (NewTransactionalProducer id timeout, []) os in
  exists n, sent_seqs tp (snd s) ++ pending_seqs tp (fst s) = numbers n
    /\ next_sequence tp (fst s) = s32 (Z.of_nat n).
Proof.
  assert (well_numbered (NewTransactionalProducer id timeout, [])) as H0.
  { split.
    - intros tp' b Hb. cbn in Hb. by rewrite lookup_empty in Hb.
    - intros tp'. exists 0%nat. done. }
  intros s. unfold s. clear s. revert H0. generalize (NewTransactionalProducer id timeout, [] : list ProducerBatch).
  induction os as [|o os IH]; intros s H; [apply H|]. cbn [foldl]. apply IH, run_txn_numbered, H.
Qed.

(** ** Aborts *)

(** Only these states are seen between calls. *)
Definition stuck (p : TransactionalProducer) : Prop := state (transactionManager p) = TxnPrepareAbort.

Lemma stuck_run s o : stuck (fst s) -> stuck (fst (run_txn s o)).
Proof.
  destruct s as [p sent]. unfold stuck. cbn [fst]. intros H.
  destruct o; cbn [run_txn fst on_tm set_tm transactionManager]; try exact H.
  - unfold InitTransactions. by rewrite decide_True by (rewrite H; done).
  - unfold BeginTransaction. by rewrite decide_True by (rewrite H; done).
  - unfold SendToTransaction. by rewrite decide_True by (rewrite H; done).
  - unfold CommitTransaction. by rewrite decide_True by (rewrite H; done).
  - unfold AbortTransaction. by rewrite decide_True by (rewrite H; done).
Qed.

(** A failed abort is fatal.  If the coordinator has forgotten an ongoing
    transaction (its cleanup expired it), [AbortTransaction] fails and leaves
    the manager in PrepareAbort; from then on no sequence of calls ever lets
    it begin, commit, abort or send again. *)
Theorem failed_abort_stuck now p sent os :
  state (transactionManager p) = TxnOngoing ->
  coordinator (transactionManager p) !! transactionalID (transactionManager p) = None ->
  (exists tm e, AbortTransaction now (transactionManager p) = (tm, Some e))
  /\ let q := fst (foldl run_txn (run_txn (p, sent) (TAbort now)) os) in
     forall t m topic partition,
     (exists e, snd (BeginTransaction t (transactionManager q)) = Some e)
     /\ (exists e, snd (CommitTransaction t (transactionManager q)) = Some e)
     /\ (exists e, snd (AbortTransaction t (transactionManager q)) = Some e)
     /\ (exists e, snd (SendToTransaction t topic partition m q) = Some e).
Proof.
  intros Hs Hc.
  assert (AbortTransaction now (transactionManager p)
    = (set_coordinator (coordinator (transactionManager p))
         (set_tm_state TxnPrepareAbort (transactionManager p)),
       Some ("failed to abort transaction: " +:+ txn_not_found (transactionalID (transactionManager p)))))
    as Ea.
  { unfold AbortTransaction. rewrite decide_False by naive_solver.
    cbn [transactionalID set_tm_state coordinator]. unfold EndTransaction. by rewrite Hc. }
  split; [by rewrite Ea; eauto|]. intros q t m topic partition.
  assert (stuck q) as Hq.
  { assert (stuck (fst (run_txn (p, sent) (TAbort now)))) as H0.
    { unfold stuck. cbn [run_txn fst on_tm set_tm transactionManager]. by rewrite Ea. }
    unfold q. revert H0. generalize (run_txn (p, sent) (TAbort now)).
    induction os as [|o os IH]; intros s H; [exact H|]. cbn [foldl]. apply IH, stuck_run, H. }
  unfold stuck in Hq.
  unfold BeginTransaction, CommitTransaction, AbortTransaction, SendToTransaction.
  rewrite !decide_True by (rewrite Hq; done). cbn [snd]. eauto 10.
Qed.

Definition a_message : TransactionalMessage := mkTxnMessage [1] [2] ∅ 0 0.

(** A producer whose transaction the coordinator expired. *)
Definition expired_producer : TransactionalProducer :=
  fst (foldl run_txn (NewTransactionalProducer "tx" 60, [])
    [TInit 1; TBegin 2; TSend 3 "t" 0 a_message; TCleanup 100 10]).

Lemma failed_abort_stuck_witness :
  (exists tm e, AbortTransaction 101 (transactionManager expired_producer) = (tm, Some e))
  /\ let q := fst (foldl run_txn (run_txn (expired_producer, []) (TAbort 101)) [TInit 102; TBegin 103]) in
     forall t m topic partition,
     (exists e, snd (BeginTransaction t (transactionManager q)) = Some e)
     /\ (exists e, snd (CommitTransaction t (transactionManager q)) = Some e)
     /\ (exists e, snd (AbortTransaction t (transactionManager q)) = Some e)
     /\ (exists e, snd (SendToTransaction t topic partition m q) = Some e).
Proof.
  apply (failed_abort_stuck 101 expired_producer [] [TInit 102; TBegin 103]).
  - vm_compute. reflexivity.
  - vm_compute. reflexivity.
Defined.

(** An abort does not drop messages.  [AbortTransaction] leaves the
    producer's batches as they are, so after aborting and beginning the next
    transaction, a flush sends the messages of the aborted one. *)
Theorem abort_keeps_messages now now' p sent tp b :
  state (transactionManager p) = TxnOngoing ->
  is_Some (coordinator (transactionManager p) !! transactionalID (transactionManager p)) ->
  batches p !! tp = Some b ->
  let s := foldl run_txn (p, sent) [TAbort now; TBegin now'; TFlush] in
  state (transactionManager (fst s)) = TxnOngoing /\ b ∈ snd s.
Proof.
  intros Hs [m Hm] Hb. cbn [foldl run_txn on_tm set_tm fst snd transactionManager FlushTransaction batches].
  assert (exists tc, fst (AbortTransaction now (transactionManager p))
    = set_coordinator tc (set_tm_state TxnEmpty (transactionManager p))) as [tc ->].
  { unfold AbortTransaction. rewrite decide_False by naive_solver.
    cbn [transactionalID set_tm_state coordinator]. unfold EndTransaction. rewrite Hm. eauto. }
  split.
  - unfold BeginTransaction. by rewrite decide_False by (cbn; naive_solver).
  - apply elem_of_app. right. apply list_elem_of_fmap. exists (tp, b).
    split; [done|]. by apply elem_of_map_to_list.
Qed.

Definition sending_producer : TransactionalProducer :=
  fst (foldl run_txn (NewTransactionalProducer "tx" 60, []) [TInit 1; TBegin 2; TSend 3 "t" 0 a_message]).
Definition pending_batch : ProducerBatch := mkPBatch (mkTP "t" 0) [a_message] 0 0 1 0.

Lemma abort_keeps_messages_witness :
  let s := foldl run_txn (sending_producer, []) [TAbort 4; TBegin 5; TFlush] in
  state (transactionManager (fst s)) = TxnOngoing /\ pending_batch ∈ snd s.
Proof.
  apply (abort_keeps_messages 4 5 sending_producer [] (mkTP "t" 0) pending_batch).
  - vm_compute. reflexivity.
  - vm_compute. eexists. reflexivity.
  - vm_compute. reflexivity.
Defined.

End TxnSpec.
