(* ===== verification/Amqp.v ===== *)
(** * The AMQP 0-9-1 server ([src/pkg/amqp/server.go])

    [EnhancedAMQPServer]: reading of frames, the connection state machine of
    [handleFrameWithState], the frame and method dispatch, and the handlers of
    Exchange.Declare, Queue.Declare, Basic.Publish, Basic.Qos, Basic.Consume,
    Basic.Ack and Basic.Nack, with every frame the server writes.

    Go strings taken from frames are byte lists.  A connection is named by its
    id, and [out] collects what was written to each connection (write errors
    are ignored by the source).  Index and slice expressions out of range
    panic, and so does an allocation that is too large.  A nil channel state is
    an absent key, a nil map an empty one; the consumer maps of a queue are
    never used by the source and left out. *)
From stdpp Require Import base gmap strings list numbers fin_maps pretty.
From Stdlib Require Import ZArith Lia.
From S2P Require Import Prelude Wire.

Module Amqp.

Inductive ConnectionState :=
| StateStart | StateStartOkReceived | StateTuneSent | StateTuneOkReceived
| StateOpenReceived | StateConnected.

#[export] Instance ConnectionState_eq_dec : EqDecision ConnectionState.
Proof. solve_decision. Defined.

Record UnackedMsg := mkUnacked {
  DeliveryTag : Z;
  QueueName : bytes;
  u_Body : bytes;
  Redelivered : bool
}.

Record PendingPublish := mkPending {
  p_Exchange : bytes;
  RoutingKey : bytes;
  BodySize : Z;
  p_Body : bytes
}.

Record ChannelState := mkChannel {
  Pending : option PendingPublish;
  BoundQueue : bytes;
  UnackedMessages : gmap Z UnackedMsg;
  QoSPrefetchCount : Z;
  QoSPrefetchSize : Z;
  CurrentlyUnacked : Z;
  NextDeliveryTag : Z;
  ConsumerTag : bytes;
  Conn : option string
}.

Definition empty_channel : ChannelState := mkChannel None [] ∅ 0 0 0 0 [] None.

Record Exchange := mkExchange { ex_Name : bytes; ex_Type : bytes }.

Record Queue := mkQueue {
  q_Name : bytes;
  q_Messages : list bytes;
  Durable : bool;
  AutoDelete : bool;
  Exclusive : bool
}.

Record EnhancedAMQPServer := mkServer {
  connections : gset string;
  connectionStates : gmap string ConnectionState;
  exchanges : gmap bytes Exchange;
  queues : gmap bytes Queue;
  channelStates : gmap Z ChannelState;
  out : gmap string bytes
}.

Inductive aerr :=
| InvalidFrame (what : string)
| NoTargetQueue
| QueueNotFound (name : bytes)
| ChannelNotFound (channelID : Z)
| ChannelNotAllowed (state : ConnectionState)
| NotReady (state : ConnectionState)
| UnknownFrameType (frameType : Z).

Definition set_connectionStates x (s : EnhancedAMQPServer) : EnhancedAMQPServer :=
  mkServer (connections s) x (exchanges s) (queues s) (channelStates s) (out s).
Definition set_connections x (s : EnhancedAMQPServer) : EnhancedAMQPServer :=
  mkServer x (connectionStates s) (exchanges s) (queues s) (channelStates s) (out s).
Definition set_exchanges x (s : EnhancedAMQPServer) : EnhancedAMQPServer :=
  mkServer (connections s) (connectionStates s) x (queues s) (channelStates s) (out s).
Definition set_queues x (s : EnhancedAMQPServer) : EnhancedAMQPServer :=
  mkServer (connections s) (connectionStates s) (exchanges s) x (channelStates s) (out s).
Definition set_channelStates x (s : EnhancedAMQPServer) : EnhancedAMQPServer :=
  mkServer (connections s) (connectionStates s) (exchanges s) (queues s) x (out s).
Definition set_out x (s : EnhancedAMQPServer) : EnhancedAMQPServer :=
  mkServer (connections s) (connectionStates s) (exchanges s) (queues s) (channelStates s) x.

Definition set_Pending x (c : ChannelState) : ChannelState :=
  mkChannel x (BoundQueue c) (UnackedMessages c) (QoSPrefetchCount c) (QoSPrefetchSize c)
    (CurrentlyUnacked c) (NextDeliveryTag c) (ConsumerTag c) (Conn c).
Definition set_BoundQueue x (c : ChannelState) : ChannelState :=
  mkChannel (Pending c) x (UnackedMessages c) (QoSPrefetchCount c) (QoSPrefetchSize c)
    (CurrentlyUnacked c) (NextDeliveryTag c) (ConsumerTag c) (Conn c).
Definition set_QoS count size (c : ChannelState) : ChannelState :=
  mkChannel (Pending c) (BoundQueue c) (UnackedMessages c) count size
    (CurrentlyUnacked c) (NextDeliveryTag c) (ConsumerTag c) (Conn c).
Definition set_unacked um n (c : ChannelState) : ChannelState :=
  mkChannel (Pending c) (BoundQueue c) um (QoSPrefetchCount c) (QoSPrefetchSize c)
    n (NextDeliveryTag c) (ConsumerTag c) (Conn c).
Definition set_NextDeliveryTag x (c : ChannelState) : ChannelState :=
  mkChannel (Pending c) (BoundQueue c) (UnackedMessages c) (QoSPrefetchCount c) (QoSPrefetchSize c)
    (CurrentlyUnacked c) x (ConsumerTag c) (Conn c).
Definition set_consumer tag conn (c : ChannelState) : ChannelState :=
  mkChannel (Pending c) (BoundQueue c) (UnackedMessages c) (QoSPrefetchCount c) (QoSPrefetchSize c)
    (CurrentlyUnacked c) (NextDeliveryTag c) tag (Some conn).
Definition set_Messages x (q : Queue) : Queue :=
  mkQueue (q_Name q) x (Durable q) (AutoDelete q) (Exclusive q).

(** Update the state of a channel, created empty if it is nil. *)
Definition with_channel (ch : Z) (f : ChannelState -> ChannelState) (s : EnhancedAMQPServer)
  : EnhancedAMQPServer :=
  set_channelStates (<[ch := f (default empty_channel (channelStates s !! ch))]> (channelStates s)) s.

(** ** Frames *)

Definition FrameMethod : Z := 1.
Definition FrameHeader : Z := 2.
Definition FrameBody : Z := 3.
Definition FrameHeartbeat : Z := 8.

Definition frame_bytes (channelID frameType : Z) (payload : bytes) : bytes :=
  [u8 frameType] ++ be_put 2 (u16 channelID) ++ be_put 4 (u32 (Z.of_nat (length payload)))
  ++ payload ++ [0xCE].

Definition sendAMQPFrame (channelID frameType : Z) (payload : bytes) (conn : string) (s : EnhancedAMQPServer)
  : EnhancedAMQPServer :=
  set_out (<[conn := default [] (out s !! conn) ++ frame_bytes channelID frameType payload]> (out s)) s.

(** The start of every method payload. *)
Definition method (class meth : Z) : bytes := be_put 2 class ++ be_put 2 meth.

(** A short string: one length byte and the bytes. *)
Definition short_string (b : bytes) : bytes := u8 (Z.of_nat (length b)) :: b.
Definition long_string (b : bytes) : bytes := be_put 4 (u32 (Z.of_nat (length b))) ++ b.
Definition str (x : string) : bytes := Wire.bytes_of_string x.

Definition sendConnectionStart (conn : string) (s : EnhancedAMQPServer) : EnhancedAMQPServer :=
  let field (k v : string) := short_string (str k) ++ [83] ++ long_string (str v) in
  let serverProps := field "product" "Portask" ++ field "version" "1.0.0" in
  sendAMQPFrame 0 FrameMethod
    (method 10 10 ++ [0; 9] ++ long_string serverProps ++ long_string (str "PLAIN AMQPLAIN")
       ++ long_string (str "en_US")) conn s.

Definition sendConnectionTune (connID : string) (s : EnhancedAMQPServer) : EnhancedAMQPServer :=
  let s := sendAMQPFrame 0 FrameMethod
             (method 10 30 ++ be_put 2 2047 ++ be_put 4 131072 ++ be_put 2 60) connID s in
  set_connectionStates (<[connID := StateTuneSent]> (connectionStates s)) s.

Definition sendConnectionOpenOk (connID : string) (s : EnhancedAMQPServer) : EnhancedAMQPServer :=
  let s := sendAMQPFrame 0 FrameMethod (method 10 41 ++ [0]) connID s in
  set_connectionStates (<[connID := StateConnected]> (connectionStates s)) s.

Definition sendConnectionCloseOk (conn : string) (s : EnhancedAMQPServer) : EnhancedAMQPServer :=
  sendAMQPFrame 0 FrameMethod (method 10 51) conn s.
Definition sendChannelOpenOk (conn : string) (channelID : Z) (s : EnhancedAMQPServer) : EnhancedAMQPServer :=
  sendAMQPFrame channelID FrameMethod (method 20 11 ++ be_put 4 0) conn s.
Definition sendChannelCloseOk (conn : string) (channelID : Z) (s : EnhancedAMQPServer) : EnhancedAMQPServer :=
  sendAMQPFrame channelID FrameMethod (method 20 41) conn s.

(** The three frames of a delivery. *)
Definition deliverMessage (conn : string) (channelID : Z) (queueName consumerTag : bytes)
  (deliveryTag : Z) (msg : bytes) (redelivered : bool) (s : EnhancedAMQPServer) : EnhancedAMQPServer :=
  let s := sendAMQPFrame channelID FrameMethod
    (method 60 60 ++ short_string consumerTag ++ be_put 8 deliveryTag
       ++ [if redelivered then 1 else 0] ++ [0] ++ short_string queueName) conn s in
  let s := sendAMQPFrame channelID FrameHeader
    (be_put 2 60 ++ be_put 2 0 ++ be_put 8 (Z.of_nat (length msg)) ++ be_put 2 0) conn s in
  sendAMQPFrame channelID FrameBody msg conn s.

(** ** Handlers *)

Definition handleQueueDeclare (now : Z) (conn : string) (channelID : Z) (name : bytes)
  (durable autoDelete : bool) (s : EnhancedAMQPServer) : EnhancedAMQPServer :=
  let name := if decide (name = []) then str ("amq.gen-" +:+ pretty now) else name in
  let '(s, messageCount) :=
    match queues s !! name with
    | Some q => (s, length (q_Messages q))
    | None => (set_queues (<[name := mkQueue name [] false false false]> (queues s)) s, 0%nat)
    end in
  let s := sendAMQPFrame channelID FrameMethod
    (method 50 11 ++ short_string name ++ be_put 4 (u32 (Z.of_nat messageCount)) ++ be_put 4 0) conn s in
  with_channel channelID (set_BoundQueue name) s.

Definition handleExchangeDeclare (conn : string) (channelID : Z) (name exchangeType : bytes)
  (s : EnhancedAMQPServer) : EnhancedAMQPServer :=
  let s := match exchanges s !! name with
           | Some _ => s
           | None => set_exchanges (<[name := mkExchange name exchangeType]> (exchanges s)) s
           end in
  sendAMQPFrame channelID FrameMethod (method 40 11) conn s.

Definition handleBasicPublish (channelID : Z) (exchange routingKey body : bytes) (s : EnhancedAMQPServer)
  : EnhancedAMQPServer * option aerr :=
  let bound := match channelStates s !! channelID with Some c => BoundQueue c | None => [] end in
  let target := if decide (routingKey <> []) then Some routingKey
                else if decide (bound <> []) then Some bound else None in
  match target with
  | None => (s, Some NoTargetQueue)
  | Some targetQueue =>
    match queues s !! targetQueue with
    | None => (s, Some (QueueNotFound targetQueue))
    | Some q => (set_queues (<[targetQueue := set_Messages (q_Messages q ++ [body]) q]> (queues s)) s, None)
    end
  end.

(** Assign the next delivery tag to a message and track it. *)
Definition track (queueName body : bytes) (redelivered : bool) (c : ChannelState) : ChannelState :=
  let tag := NextDeliveryTag c in
  let c := set_NextDeliveryTag (u64 (tag + 1)) c in
  set_unacked (<[tag := mkUnacked tag queueName body redelivered]> (UnackedMessages c))
    (s64 (CurrentlyUnacked c + 1)) c.

Fixpoint deliver_all (conn : string) (channelID : Z) (queueName consumerTag : bytes)
  (messages : list bytes) (s : EnhancedAMQPServer) : EnhancedAMQPServer :=
  match messages with
  | [] => s
  | msg :: messages =>
    let deliveryTag := NextDeliveryTag (default empty_channel (channelStates s !! channelID)) in
    let s := with_channel channelID (track queueName msg false) s in
    let s := deliverMessage conn channelID queueName consumerTag deliveryTag msg false s in
    deliver_all conn channelID queueName consumerTag messages s
  end.

(** One step: the code takes the mutex again for the registration, for emptying
    the queue and for each delivery tag, and writes to the connection without it,
    so that frames of other connections can come in between.  The steps model a
    server whose frames are handled one at a time. *)
Definition handleBasicConsume (channelID : Z) (queueName consumerTag : bytes) (conn : string)
  (s : EnhancedAMQPServer) : EnhancedAMQPServer * option aerr :=
  match queues s !! queueName with
  | None => (s, Some (QueueNotFound queueName))
  | Some queue =>
    let s := sendAMQPFrame channelID FrameMethod (method 60 21 ++ short_string consumerTag) conn s in
    let s := with_channel channelID (set_consumer consumerTag conn) s in
    let messages := q_Messages queue in
    let s := set_queues (<[queueName := set_Messages [] queue]> (queues s)) s in
    let s := with_channel channelID (fun c =>
      if NextDeliveryTag c =? 0 then set_NextDeliveryTag 1 c else c) s in
    (deliver_all conn channelID queueName consumerTag messages s, None)
  end.

Definition handleBasicAck (channelID deliveryTag : Z) (s : EnhancedAMQPServer)
  : EnhancedAMQPServer * option aerr :=
  match channelStates s !! channelID with
  | None => (s, Some (ChannelNotFound channelID))
  | Some c =>
    match UnackedMessages c !! deliveryTag with
    | Some _ =>
      (with_channel channelID
         (set_unacked (delete deliveryTag (UnackedMessages c)) (s64 (CurrentlyUnacked c - 1))) s, None)
    | None => (s, None)
    end
  end.

Definition handleBasicNack (channelID deliveryTag : Z) (s : EnhancedAMQPServer)
  : EnhancedAMQPServer * option aerr :=
  match channelStates s !! channelID with
  | None => (s, Some (ChannelNotFound channelID))
  | Some c =>
    match UnackedMessages c !! deliveryTag with
    | None => (s, None)
    | Some unacked =>
      let c := set_unacked (delete deliveryTag (UnackedMessages c)) (s64 (CurrentlyUnacked c - 1)) c in
      let s := with_channel channelID (fun _ => c) s in
      let queueName := QueueName unacked in
      let body := u_Body unacked in
      match queues s !! queueName with
      | None => (s, Some (QueueNotFound queueName))
      | Some queue =>
        let s := set_queues (<[queueName := set_Messages (q_Messages queue ++ [body]) queue]> (queues s)) s in
        let newDeliveryTag := NextDeliveryTag c in
        let s := with_channel channelID (track queueName body true) s in
        match Conn c with
        | Some conn =>
          if decide (ConsumerTag c <> [])
          then (deliverMessage conn channelID queueName (ConsumerTag c) newDeliveryTag body true s, None)
          else (s, None)
        | None => (s, None)
        end
      end
    end
  end.

(** ** Parsing of method frames *)

(** [payload[i]] and [payload[a:b]] *)
Definition idx (payload : bytes) (i : nat) : exec Z :=
  match payload !! i with Some b => Ret b | None => Panic end.
Definition sub (payload : bytes) (a b : nat) : exec bytes :=
  if decide (a <= b <= length payload)%nat then Ret (take (b - a) (drop a payload)) else Panic.

Definition result : Type := EnhancedAMQPServer * option aerr.

(** A short string at [pos]: the checks of the source, with the messages for a
    missing length byte and for missing bytes. *)
Definition read_short (payload : bytes) (pos : nat) : exec (option (bytes * nat)) :=
  do! n := idx payload pos in
  let n := Z.to_nat n in
  if decide (length payload < pos + 1 + n)%nat then Ret None else
  do! x := sub payload (pos + 1) (pos + 1 + n) in
  Ret (Some (x, (pos + 1 + n)%nat)).

Definition method_exchange_declare (conn : string) (ch : Z) (payload : bytes) (s : EnhancedAMQPServer)
  : exec result :=
  if decide (length payload < 7)%nat then Ret (s, Some (InvalidFrame "ExchangeDeclare")) else
  do! r := read_short payload 6 in
  match r with
  | None => Ret (s, Some (InvalidFrame "ExchangeDeclare (exchange)"))
  | Some (name, pos) =>
    if decide (length payload < pos + 1)%nat
    then Ret (s, Some (InvalidFrame "ExchangeDeclare (type length)")) else
    do! r := read_short payload pos in
    match r with
    | None => Ret (s, Some (InvalidFrame "ExchangeDeclare (type)"))
    | Some (exchangeType, _) => Ret (handleExchangeDeclare conn ch name exchangeType s, None)
    end
  end.

Definition method_queue_declare (now : Z) (conn : string) (ch : Z) (payload : bytes) (s : EnhancedAMQPServer)
  : exec result :=
  if decide (length payload < 8)%nat then Ret (s, Some (InvalidFrame "QueueDeclare")) else
  do! n := idx payload 4 in
  let nameLen := Z.to_nat n in
  if decide (length payload < 5 + nameLen + 4)%nat
  then Ret (s, Some (InvalidFrame "QueueDeclare (name)")) else
  do! queueName := sub payload 5 (5 + nameLen) in
  do! flags := idx payload (5 + nameLen) in
  let durable := negb (Z.land flags 2 =? 0) in
  let autoDelete := negb (Z.land flags 4 =? 0) in
  Ret (handleQueueDeclare now conn ch queueName durable autoDelete s, None).

Definition method_basic_publish (ch : Z) (payload : bytes) (s : EnhancedAMQPServer) : exec result :=
  if decide (length payload < 6)%nat then Ret (s, Some (InvalidFrame "BasicPublish")) else
  do! r := read_short payload 4 in
  match r with
  | None => Ret (s, Some (InvalidFrame "BasicPublish (exchange)"))
  | Some (exchange, pos) =>
    if decide (length payload < pos + 1)%nat
    then Ret (s, Some (InvalidFrame "BasicPublish (routing key length)")) else
    do! r := read_short payload pos in
    match r with
    | None => Ret (s, Some (InvalidFrame "BasicPublish (routing key)"))
    | Some (routingKey, _) =>
      Ret (with_channel ch (set_Pending (Some (mkPending exchange routingKey 0 []))) s, None)
    end
  end.

Definition method_basic_qos (conn : string) (ch : Z) (payload : bytes) (s : EnhancedAMQPServer)
  : exec result :=
  if decide (length payload < 11)%nat then Ret (s, Some (InvalidFrame "BasicQos")) else
  do! size := sub payload 4 8 in
  do! count := sub payload 8 10 in
  let s := with_channel ch (set_QoS (be_get count) (be_get size)) s in
  Ret (sendAMQPFrame ch FrameMethod (method 60 11) conn s, None).

Definition method_basic_consume (conn : string) (ch : Z) (payload : bytes) (s : EnhancedAMQPServer)
  : exec result :=
  if decide (length payload < 7)%nat then Ret (s, Some (InvalidFrame "BasicConsume")) else
  do! r := read_short payload 6 in
  match r with
  | None => Ret (s, Some (InvalidFrame "BasicConsume (queue)"))
  | Some (queueName, pos) =>
    if decide (length payload < pos + 1)%nat
    then Ret (s, Some (InvalidFrame "BasicConsume (consumer tag length)")) else
    do! r := read_short payload pos in
    match r with
    | None => Ret (s, Some (InvalidFrame "BasicConsume (consumer tag)"))
    | Some (consumerTag, _) => Ret (handleBasicConsume ch queueName consumerTag conn s)
    end
  end.

Definition method_basic_ack (ch : Z) (payload : bytes) (s : EnhancedAMQPServer) : exec result :=
  if decide (length payload < 12)%nat then Ret (s, Some (InvalidFrame "BasicAck")) else
  do! tag := sub payload 4 12 in
  Ret (handleBasicAck ch (be_get tag) s).

Definition method_basic_nack (ch : Z) (payload : bytes) (s : EnhancedAMQPServer) : exec result :=
  if decide (length payload < 13)%nat then Ret (s, Some (InvalidFrame "BasicNack")) else
  do! tag := sub payload 4 12 in
  do! flags := idx payload 12 in
  let requeue := negb (Z.land flags 2 =? 0) in
  Ret (if requeue then handleBasicNack ch (be_get tag) s else handleBasicAck ch (be_get tag) s).

Definition handleMethodFrameWithChannel (now : Z) (conn : string) (ch : Z) (payload : bytes)
  (s : EnhancedAMQPServer) : exec result :=
  if decide (length payload < 4)%nat then Ret (s, Some (InvalidFrame "method")) else
  do! class := sub payload 0 2 in
  do! meth := sub payload 2 4 in
  match be_get class, be_get meth with
  | 40, 10 => method_exchange_declare conn ch payload s
  | 50, 10 => method_queue_declare now conn ch payload s
  | 60, 40 => method_basic_publish ch payload s
  | 60, 10 => method_basic_qos conn ch payload s
  | 60, 20 => method_basic_consume conn ch payload s
  | 60, 80 => method_basic_ack ch payload s
  | 60, 120 => method_basic_nack ch payload s
  | _, _ => Ret (s, None)
  end.

(** ** Frames of a connection *)

(** [make([]byte, 0, n)]: a capacity above [maxAlloc] panics. *)
Definition make_cap (n : Z) : exec bytes := if n >? maxAlloc then Panic else Ret [].

Definition handle_header (ch : Z) (payload : bytes) (s : EnhancedAMQPServer) : exec result :=
  if decide (length payload < 12)%nat then Ret (s, Some (InvalidFrame "header")) else
  do! size := sub payload 4 12 in
  match channelStates s !! ch with
  | Some c =>
    match Pending c with
    | Some p =>
      do! body := make_cap (be_get size) in
      Ret (with_channel ch (set_Pending (Some
             (mkPending (p_Exchange p) (RoutingKey p) (be_get size) body))) s, None)
    | None => Ret (s, None)
    end
  | None => Ret (s, None)
  end.

Definition handle_body (ch : Z) (payload : bytes) (s : EnhancedAMQPServer) : result :=
  match channelStates s !! ch with
  | Some c =>
    match Pending c with
    | Some p =>
      let body := p_Body p ++ payload in
      if Z.of_nat (length body) >=? BodySize p then
        let s := with_channel ch (set_Pending None) s in
        handleBasicPublish ch (p_Exchange p) (RoutingKey p) body s
      else
        (with_channel ch (set_Pending (Some
           (mkPending (p_Exchange p) (RoutingKey p) (BodySize p) body))) s, None)
    | None => (s, None)
    end
  | None => (s, None)
  end.

Definition handleAMQPFrameWithChannel (now : Z) (conn : string) (ch frameType : Z) (payload : bytes)
  (s : EnhancedAMQPServer) : exec result :=
  if frameType =? FrameMethod then handleMethodFrameWithChannel now conn ch payload s
  else if frameType =? FrameHeader then handle_header ch payload s
  else if frameType =? FrameBody then Ret (handle_body ch payload s)
  else if frameType =? FrameHeartbeat then Ret (s, None)
  else Ret (s, Some (UnknownFrameType frameType)).

Definition set_conn_state (connID : string) (st : ConnectionState) (s : EnhancedAMQPServer) : EnhancedAMQPServer :=
  set_connectionStates (<[connID := st]> (connectionStates s)) s.

Definition handleFrameWithState (now : Z) (connID : string) (frameType ch : Z) (payload : bytes)
  (s : EnhancedAMQPServer) : exec result :=
  let state := default StateStart (connectionStates s !! connID) in
  if negb (frameType =? FrameMethod) then handleAMQPFrameWithChannel now connID ch frameType payload s
  else
  if decide (length payload < 4)%nat then Ret (s, Some (InvalidFrame "method")) else
  do! class := sub payload 0 2 in
  do! meth := sub payload 2 4 in
  let other := if decide (state <> StateConnected) then Ret (s, Some (NotReady state))
               else handleMethodFrameWithChannel now connID ch payload s in
  match be_get class, be_get meth with
  | 10, 11 => Ret (sendConnectionTune connID (set_conn_state connID StateStartOkReceived s), None)
  | 10, 31 => Ret (set_conn_state connID StateTuneOkReceived s, None)
  | 10, 40 => Ret (sendConnectionOpenOk connID (set_conn_state connID StateOpenReceived s), None)
  | 10, 50 => Ret (sendConnectionCloseOk connID s, None)
  | 20, m =>
    if decide (state <> StateConnected) then Ret (s, Some (ChannelNotAllowed state))
    else if m =? 10 then Ret (sendChannelOpenOk connID ch s, None)
    else if m =? 40 then Ret (sendChannelCloseOk connID ch s, None)
    else other
  | _, _ => other
  end.

(** ** The connection loop *)

(** What the network delivers, segment by segment: one [Read] returns at most
    the rest of one segment. *)
Definition Read (n : nat) (segs : list bytes) : option bytes * list bytes :=
  match segs with
  | [] => (None, [])
  | seg :: segs =>
    if decide (length seg <= n)%nat then (Some seg, segs) else (Some (take n seg), drop n seg :: segs)
  end.

(** A [Read] that must return exactly [n] bytes. *)
Definition read_exactly (n : nat) (segs : list bytes) : option bytes * list bytes :=
  match Read n segs with
  | (Some b, segs) => if decide (length b = n) then (Some b, segs) else (None, segs)
  | (None, segs) => (None, segs)
  end.

Definition read_frame (segs : list bytes) : option (Z * Z * bytes) * list bytes :=
  match read_exactly 7 segs with
  | (None, segs) => (None, segs)
  | (Some head, segs) =>
    let frameType := nth 0 head 0 in
    let channelID := be_get (take 2 (drop 1 head)) in
    let size := be_get (take 4 (drop 3 head)) in
    if size >? 1024 * 1024 then (None, segs) else
    match (if size >? 0 then read_exactly (Z.to_nat size) segs else (Some [], segs)) with
    | (None, segs) => (None, segs)
    | (Some payload, segs) =>
      match read_exactly 1 segs with
      | (Some [0xCE], segs) => (Some (frameType, channelID, payload), segs)
      | (_, segs) => (None, segs)
      end
    end
  end.

(** The frame loop, until a read fails; frame errors are only logged. *)
Fixpoint frame_loop (fuel : nat) (now : nat -> Z) (connID : string) (segs : list bytes)
  (s : EnhancedAMQPServer) : exec EnhancedAMQPServer :=
  match fuel with
  | O => OutOfFuel
  | S fuel =>
    match read_frame segs with
    | (None, _) => Ret s
    | (Some (frameType, channelID, payload), segs) =>
      do! (s, _) := handleFrameWithState (now fuel) connID frameType channelID payload s in
      frame_loop fuel now connID segs s
    end
  end.

Definition protocol_header : bytes := [65; 77; 81; 80; 0; 0; 9; 1].

(** The entry of [connections] is removed only after the frame loop. *)
Definition handleConnection (fuel : nat) (now : nat -> Z) (connID : string) (segs : list bytes)
  (s : EnhancedAMQPServer) : exec EnhancedAMQPServer :=
  let s := set_connections ({[connID]} ∪ connections s) s in
  match read_exactly 8 segs with
  | (Some h, segs) =>
    if decide (h = protocol_header) then
      let s := sendConnectionStart connID (set_conn_state connID StateStart s) in
      do! s := frame_loop fuel now connID segs s in
      let s := set_connectionStates (delete connID (connectionStates s)) s in
      Ret (set_connections (connections s ∖ {[connID]}) s)
    else Ret s
  | (None, _) => Ret s
  end.

End Amqp.
