(* ===== verification/AmqpSpec.v ===== *)
(** * What the AMQP server does with its clients

    A connection handler returns on every input but one kind of content header
    ([connection_total], [header_crash]); a published body is reassembled from
    its frames; consuming a queue delivers it in order; the bookkeeping of
    unacknowledged messages is invariant under every frame; nothing but the
    handshake is accepted before the connection is open, which one frame does;
    a requeued message is duplicated; and a queue declared by the protocol's
    grammar gets a generated name. *)
From stdpp Require Import base gmap strings list numbers fin_maps pretty.
From Stdlib Require Import ZArith Lia.
From S2P Require Import Prelude Wire Amqp.

Module AmqpSpec.
Import Amqp.

(** ** Totality *)

Definition returns {A} (e : exec A) : Prop := exists a, e = Ret a.

Lemma idx_ok payload i : (i < length payload)%nat -> returns (idx payload i).
Proof.
  intros H. unfold idx. destruct (lookup_lt_is_Some_2 payload i H) as [b ->]. by exists b.
Qed.

Lemma sub_ok payload a b : (a <= b <= length payload)%nat -> returns (sub payload a b).
Proof. intros H. unfold sub. rewrite decide_True by done. by eexists. Qed.

Lemma returns_bind {A B} (e : exec A) (k : A -> exec B) :
  returns e -> (forall a, e = Ret a -> returns (k a)) -> returns (do! a := e in k a).
Proof. intros [a ->] H. by apply H. Qed.

Lemma read_short_ok payload pos : (pos < length payload)%nat -> returns (read_short payload pos).
Proof.
  intros H. unfold read_short. apply returns_bind; [by apply idx_ok|]. intros n _.
  case_decide; [by eexists|]. apply returns_bind; [apply sub_ok; lia|]. intros x _. by eexists.
Qed.

Ltac total :=
  repeat first
    [ progress cbn beta iota
    | match goal with
      | |- returns (Ret _) => by eexists
      | |- returns (if decide ?P then _ else _) => case_decide
      | |- returns (match idx ?p ?i with _ => _ end) =>
          apply (returns_bind (idx p i)); [apply idx_ok; lia|intros ? _]
      | |- returns (match sub ?p ?a ?b with _ => _ end) =>
          apply (returns_bind (sub p a b)); [apply sub_ok; lia|intros ? _]
      | |- returns (match read_short ?p ?a with _ => _ end) =>
          apply (returns_bind (read_short p a)); [apply read_short_ok; lia|intros [[? ?]|] _]
      end ].

Lemma handleMethod_total now conn ch payload s :
  returns (handleMethodFrameWithChannel now conn ch payload s).
Proof.
  unfold handleMethodFrameWithChannel. total.
  repeat (match goal with |- returns (match ?z with _ => _ end) => destruct z end; try by eexists).
  all: unfold method_exchange_declare, method_queue_declare, method_basic_publish, method_basic_qos,
    method_basic_consume, method_basic_ack, method_basic_nack; total.
Qed.

(** A content header whose body size can be allocated. *)
Definition sane_frame (f : Z * Z * bytes) : Prop :=
  let '(ft, ch, payload) := f in ft = FrameHeader -> be_get (take 8 (drop 4 payload)) <= maxAlloc.

Lemma handle_header_total ch payload s :
  be_get (take 8 (drop 4 payload)) <= maxAlloc -> returns (handle_header ch payload s).
Proof.
  intros Hs. unfold handle_header. case_decide; [by eexists|]. unfold sub.
  rewrite decide_True by lia. replace (12 - 4)%nat with 8%nat by lia.
  destruct (channelStates s !! ch) as [c|]; [|by eexists]. destruct (Pending c); [|by eexists].
  unfold make_cap. destruct (Z.gtb_spec (be_get (take 8 (drop 4 payload))) maxAlloc); [lia|].
  by eexists.
Qed.

Lemma handleFrame_total now connID ft ch payload s :
  sane_frame (ft, ch, payload) -> returns (handleFrameWithState now connID ft ch payload s).
Proof.
  intros Hs. unfold handleFrameWithState. destruct (negb _).
  - unfold handleAMQPFrameWithChannel.
    destruct (ft =? FrameMethod); [apply handleMethod_total|].
    destruct (Z.eqb_spec ft FrameHeader) as [->|]; [by apply handle_header_total, Hs|].
    repeat (match goal with |- returns (if ?b then _ else _) => destruct b end; try by eexists).
  - total. set (other := if decide _ then _ else _).
    assert (returns other) as Ho by (unfold other; case_decide; [by eexists|apply handleMethod_total]).
    clearbody other.
    repeat (match goal with
            | |- returns (match ?z with _ => _ end) => destruct z
            end; try done; try by eexists).
Qed.

Fixpoint seg_len (segs : list bytes) : nat :=
  match segs with [] => 0 | seg :: segs => length seg + seg_len segs end.

Lemma read_exactly_len n segs b segs' :
  read_exactly n segs = (Some b, segs') -> seg_len segs = (n + seg_len segs')%nat.
Proof.
  unfold read_exactly, Read. intros E. destruct segs as [|seg segs]; [done|].
  case_decide; cbn in E; case_decide as Hb; [|done| |done]; injection E as <- <-; cbn [seg_len].
  - lia.
  - rewrite length_drop. rewrite length_take in Hb. lia.
Qed.

Lemma read_frame_len segs f segs' :
  read_frame segs = (Some f, segs') -> (seg_len segs' + 8 <= seg_len segs)%nat.
Proof.
  unfold read_frame. intros E. destruct (read_exactly 7 segs) as [[h|] s1] eqn:E1; [|done].
  apply read_exactly_len in E1. destruct (_ >? 1024 * 1024); [done|].
  assert (forall p s2, (if be_get (take 4 (drop 3 h)) >? 0
     then read_exactly (Z.to_nat (be_get (take 4 (drop 3 h)))) s1 else (Some [], s1)) = (Some p, s2) ->
     (seg_len s2 <= seg_len s1)%nat) as Hp.
  { intros p s2 Ep. destruct (_ >? 0); [|by injection Ep as _ <-].
    apply read_exactly_len in Ep. lia. }
  destruct (if be_get _ >? 0 then _ else _) as [[p|] s2]; [|done]. specialize (Hp p s2 eq_refl).
  destruct (read_exactly 1 s2) as [[b|] s3] eqn:E3; [|done]. apply read_exactly_len in E3.
  destruct b as [|b [|]]; try done;
    repeat (match goal with H : (match ?z with _ => _ end) = _ |- _ => destruct z end; try done).
  injection E as _ <-. lia.
Qed.

(** The frames the loop reads from what arrives. *)
Fixpoint frames_of (fuel : nat) (segs : list bytes) : list (Z * Z * bytes) :=
  match fuel with
  | O => []
  | S fuel => match read_frame segs with
              | (Some f, segs) => f :: frames_of fuel segs
              | (None, _) => []
              end
  end.

Lemma frame_loop_total fuel : forall now connID segs s,
  (seg_len segs < fuel)%nat -> Forall sane_frame (frames_of fuel segs) ->
  returns (frame_loop fuel now connID segs s).
Proof.
  induction fuel as [|fuel IH]; intros now connID segs s Hf Hs; [lia|]. cbn [frame_loop frames_of] in *.
  destruct (read_frame segs) as [[[[ft ch] payload]|] segs'] eqn:E; [|by eexists].
  apply read_frame_len in E. apply Forall_cons in Hs as [Hs Hs'].
  destruct (handleFrame_total (now fuel) connID ft ch payload s Hs) as [[s' err] ->].
  apply IH; [lia|done].
Qed.

(** C18: a handler neither crashes nor hangs.  Whatever bytes arrive, in
    whatever segments, and whatever the state of the server, provided that no
    content header announces a body above the largest allocation: the handler
    of the connection never indexes out of range and returns after at most as
    many frames as bytes were received; a connection that got past the
    protocol header leaves no entry in the connection tables. *)
Theorem connection_total fuel now connID segs s :
  (seg_len segs < fuel)%nat -> Forall sane_frame (frames_of fuel (snd (read_exactly 8 segs))) ->
  exists s', handleConnection fuel now connID segs s = Ret s'
    /\ (fst (read_exactly 8 segs) = Some protocol_header ->
        connID ∉ connections s' /\ connectionStates s' !! connID = None).
Proof.
  intros Hf Hsane. unfold handleConnection. set (s1 := set_connections _ s).
  destruct (read_exactly 8 segs) as [[h|] segs'] eqn:E; cbn [fst snd] in *.
  - pose proof (read_exactly_len _ _ _ _ E) as Hl. case_decide as Hp.
    + destruct (frame_loop_total fuel now connID segs'
        (sendConnectionStart connID (set_conn_state connID StateStart s1))) as [s2 ->]; [lia|done|].
      eexists. split; [done|]. intros _. cbn. split; [set_solver|apply lookup_delete_eq].
    + eexists. split; [done|]. congruence.
  - by eexists.
Qed.

Definition empty_server : EnhancedAMQPServer := mkServer ∅ ∅ ∅ ∅ ∅ ∅.

Definition some_segments : list bytes :=
  [protocol_header; [1; 0; 0; 0; 0; 0; 4]; [0; 10; 0; 40]; [0xCE]; [2; 0; 1; 0; 0; 0; 9]].

Lemma connection_total_witness :
  exists s', handleConnection 100 (fun _ => 0) "c" some_segments empty_server = Ret s'
    /\ (fst (read_exactly 8 some_segments) = Some protocol_header ->
        "c" ∉ connections s' /\ connectionStates s' !! "c" = None).
Proof.
  apply (connection_total 100 (fun _ => 0) "c" some_segments empty_server).
  - cbn. lia.
  - assert (frames_of 100 (snd (read_exactly 8 some_segments)) = [(1, 0, [0; 10; 0; 40])]) as ->
      by (vm_compute; reflexivity).
    apply Forall_singleton. intros H. discriminate H.
Defined.

(** ** Publishing *)

(** Frames of one channel, one after the other; errors are only logged. *)
Fixpoint feed_frames (now : Z) (connID : string) (ch : Z) (fs : list (Z * bytes)) (s : EnhancedAMQPServer)
  : exec EnhancedAMQPServer :=
  match fs with
  | [] => Ret s
  | (ft, payload) :: fs =>
    do! (s, _) := handleFrameWithState now connID ft ch payload s in feed_frames now connID ch fs s
  end.

(** The frames an AMQP 0-9-1 client sends to publish: method, content header,
    bodies.  The method's arguments are a reserved 16-bit zero, the exchange, the
    routing key and the flags. *)
Definition publish_method (exchange routingKey : bytes) : bytes :=
  method 60 40 ++ be_put 2 0 ++ short_string exchange ++ short_string routingKey ++ [0].
Definition content_header (size : Z) : bytes := be_put 2 60 ++ be_put 2 0 ++ be_put 8 size ++ be_put 2 0.
Definition publish_frames (exchange routingKey : bytes) (bodies : list bytes) : list (Z * bytes) :=
  (FrameMethod, publish_method exchange routingKey)
  :: (FrameHeader, content_header (Z.of_nat (length (mjoin bodies))))
  :: ((FrameBody,.) <$> bodies).

Lemma sub_app pre x post a b :
  length pre = a -> b = (a + length x)%nat -> sub (pre ++ x ++ post) a b = Ret x.
Proof.
  intros <- ->. unfold sub. rewrite decide_True by (rewrite !length_app; lia).
  rewrite drop_app_length, take_app_len; [done|lia].
Qed.

Lemma read_short_app pre x post :
  (length x < 256)%nat ->
  read_short (pre ++ short_string x ++ post) (length pre)
  = Ret (Some (x, (length pre + 1 + length x)%nat)).
Proof.
  intros Hx. unfold read_short, short_string. rewrite wrapu_small by (simpl; lia).
  change ((Z.of_nat (length x) :: x) ++ post) with (Z.of_nat (length x) :: x ++ post).
  unfold idx. rewrite list_lookup_middle by done. rewrite Nat2Z.id.
  rewrite decide_False by (rewrite length_app; simpl; rewrite length_app; lia).
  replace (pre ++ Z.of_nat (length x) :: x ++ post)
    with ((pre ++ [Z.of_nat (length x)]) ++ x ++ post) by (by rewrite <-app_assoc).
  rewrite (sub_app (pre ++ [Z.of_nat (length x)])); [done|rewrite length_app; simpl; lia|lia].
Qed.

Lemma method_prefix class meth rest :
  0 <= class < 2 ^ 16 -> 0 <= meth < 2 ^ 16 ->
  sub (method class meth ++ rest) 0 2 = Ret (be_put 2 class)
  /\ sub (method class meth ++ rest) 2 4 = Ret (be_put 2 meth)
  /\ be_get (be_put 2 class) = class /\ be_get (be_put 2 meth) = meth.
Proof.
  intros Hc Hm. unfold method. rewrite <-app_assoc. split_and!.
  - apply (sub_app [] (be_put 2 class)); [done|by rewrite be_put_length].
  - apply (sub_app (be_put 2 class) (be_put 2 meth)); [apply be_put_length|by rewrite be_put_length].
  - rewrite be_get_put. apply Z.mod_small. simpl. lia.
  - rewrite be_get_put. apply Z.mod_small. simpl. lia.
Qed.

Lemma method_length class meth rest : length (method class meth ++ rest) = (4 + length rest)%nat.
Proof. unfold method. by autorewrite with portask. Qed.

(** The server has no reserved field: it takes the two zero bytes for the
    lengths of the exchange and of the routing key. *)
Lemma publish_method_spec now connID ch exchange routingKey s :
  connectionStates s !! connID = Some StateConnected ->
  handleFrameWithState now connID FrameMethod ch (publish_method exchange routingKey) s
  = Ret (with_channel ch (set_Pending (Some (mkPending [] [] 0 []))) s, None).
Proof.
  intros Hs. unfold handleFrameWithState, publish_method. rewrite Hs.
  cbn [default negb Z.eqb Pos.eqb FrameMethod].
  set (args := short_string exchange ++ short_string routingKey ++ [0]).
  change (be_put 2 0) with (short_string [] ++ short_string []). rewrite <- app_assoc.
  set (rest := short_string [] ++ short_string [] ++ args).
  rewrite method_length, decide_False by lia.
  destruct (method_prefix 60 40 rest) as (E1 & E2 & E3 & E4); [lia..|].
  rewrite E1, E2, E3, ?E4. cbn [from_option]. unfold id at 1. rewrite decide_False by (by intros []).
  unfold handleMethodFrameWithChannel. rewrite method_length, decide_False, E1, E2, E3, E4 by lia.
  unfold method_basic_publish. rewrite method_length.
  assert (length rest = 2 + length args)%nat as Hl by done.
  rewrite decide_False by lia. unfold rest in *.
  rewrite (read_short_app (method 60 40) []) by (cbn; lia).
  change (length (method 60 40)) with 4%nat. cbn [length] in *.
  rewrite decide_False by (rewrite Hl; lia).
  pose proof (read_short_app (method 60 40 ++ short_string []) [] args ltac:(cbn; lia)) as E.
  change (length (method 60 40 ++ short_string [])) with (4 + 1 + 0)%nat in E. by rewrite <- app_assoc in E; rewrite E.
Qed.

(** What a content header does on a channel with a pending publish. *)
Lemma header_exec now connID ch n c p s :
  channelStates s !! ch = Some c -> Pending c = Some p -> 0 <= n < 2 ^ 64 ->
  handleFrameWithState now connID FrameHeader ch (content_header n) s
  = do! body := make_cap n in
    Ret (with_channel ch (set_Pending (Some (mkPending (p_Exchange p) (RoutingKey p) n body))) s, None).
Proof.
  intros Hc Hp Hn. unfold handleFrameWithState. cbn [negb Z.eqb Pos.eqb FrameHeader FrameMethod].
  unfold handleAMQPFrameWithChannel. cbn [Z.eqb Pos.eqb FrameHeader FrameMethod].
  unfold handle_header, content_header. rewrite decide_False by (autorewrite with portask; lia).
  rewrite app_assoc.
  rewrite (sub_app (be_put 2 60 ++ be_put 2 0) (be_put 8 n)) by (autorewrite with portask; done).
  rewrite Hc, Hp, be_get_put, Z.mod_small by (simpl; lia). done.
Qed.

Lemma header_spec now connID ch n c p s :
  channelStates s !! ch = Some c -> Pending c = Some p -> 0 <= n <= maxAlloc ->
  handleFrameWithState now connID FrameHeader ch (content_header n) s
  = Ret (with_channel ch (set_Pending (Some (mkPending (p_Exchange p) (RoutingKey p) n []))) s, None).
Proof.
  intros Hc Hp Hn. rewrite (header_exec _ _ _ _ c p) by (done || unfold maxAlloc in Hn; lia).
  unfold make_cap. destruct (Z.gtb_spec n maxAlloc); [lia|done].
Qed.

Lemma with_channel_lookup ch f s :
  channelStates (with_channel ch f s) !! ch = Some (f (default empty_channel (channelStates s !! ch))).
Proof. apply lookup_insert_eq. Qed.

Lemma handleFrame_body now connID ch b s :
  handleFrameWithState now connID FrameBody ch b s = Ret (handle_body ch b s).
Proof. reflexivity. Qed.

Lemma mjoin_cons (b : bytes) bs : mjoin (b :: bs) = b ++ mjoin bs.
Proof. reflexivity. Qed.

(** Where a message without a routing key goes: the queue bound to the channel,
    and nowhere when there is none. *)
Definition to_bound (bound msg : bytes) (qs : gmap bytes Queue) : gmap bytes Queue :=
  match qs !! bound with
  | Some q => if decide (bound = []) then qs else <[bound := set_Messages (q_Messages q ++ [msg]) q]> qs
  | None => qs
  end.

Lemma publish_unrouted ch exchange body s c :
  channelStates s !! ch = Some c ->
  queues (fst (handleBasicPublish ch exchange [] body s)) = to_bound (BoundQueue c) body (queues s)
  /\ channelStates (fst (handleBasicPublish ch exchange [] body s)) = channelStates s
  /\ out (fst (handleBasicPublish ch exchange [] body s)) = out s.
Proof.
  intros Hc. unfold handleBasicPublish, to_bound. rewrite Hc. rewrite decide_False by (intros H; by apply H).
  destruct (decide (BoundQueue c = [])) as [Hb|Hb].
  - rewrite decide_False by (intros H; by apply H). by destruct (queues s !! _).
  - rewrite decide_True by done. destruct (queues s !! BoundQueue c); by cbn.
Qed.

Lemma bodies_spec now connID ch bs : forall s c p,
  channelStates s !! ch = Some c -> Pending c = Some p -> RoutingKey p = [] ->
  bs <> [] -> Forall (fun b => b <> []) bs ->
  Z.of_nat (length (p_Body p) + length (mjoin bs)) = BodySize p ->
  exists s', feed_frames now connID ch ((FrameBody,.) <$> bs) s = Ret s'
    /\ queues s' = to_bound (BoundQueue c) (p_Body p ++ mjoin bs) (queues s)
    /\ channelStates s' !! ch = Some (set_Pending None c) /\ out s' = out s.
Proof.
  induction bs as [|b bs IH]; intros s c p Hc Hp Hrk Hne Hbs Hsize; [done|].
  inversion Hbs as [|? ? Hb Hbs']; subst. rewrite fmap_cons. cbn [feed_frames].
  rewrite handleFrame_body. unfold handle_body. rewrite Hc, Hp. rewrite mjoin_cons, length_app in *.
  destruct bs as [|b' bs].
  - change (length (mjoin ([] : list bytes))) with 0%nat in Hsize.
    destruct (Z.geb_spec (Z.of_nat (length (p_Body p) + length b)) (BodySize p)) as [_|]; [|lia].
    change (mjoin []) with ([] : bytes). rewrite app_nil_r, Hrk. 
    destruct (publish_unrouted ch (p_Exchange p) (p_Body p ++ b) (with_channel ch (set_Pending None) s) (set_Pending None c))
      as (H1 & H2 & H3); [by rewrite with_channel_lookup, Hc|].
    destruct (handleBasicPublish _ _ _ _ _) as [s' err]. cbn [fst] in *. exists s'.
    split; [done|]. split; [exact H1|]. split; [by rewrite H2, with_channel_lookup, Hc|exact H3].
  - assert (0 < length (mjoin (b' :: bs)))%nat as Hpos.
    { inversion Hbs' as [|? ? Hb' ?]; subst. rewrite mjoin_cons, length_app.
      destruct b'; [done|simpl; lia]. }
    destruct (Z.geb_spec (Z.of_nat (length (p_Body p) + length b)) (BodySize p)) as [Hge|_]; [lia|].
    set (p' := mkPending (p_Exchange p) (RoutingKey p) (BodySize p) (p_Body p ++ b)).
    destruct (IH (with_channel ch (set_Pending (Some p')) s) (set_Pending (Some p') c) p')
      as (s' & E & Hqs & Hc' & Ho).
    + by rewrite with_channel_lookup, Hc.
    + reflexivity.
    + exact Hrk.
    + discriminate.
    + exact Hbs'.
    + cbn [p' p_Body BodySize]. rewrite length_app. lia.
    + exists s'. split; [exact E|]. split; [|exact (conj Hc' Ho)].
      rewrite Hqs. cbn [p' p_Body queues with_channel set_channelStates BoundQueue set_Pending].
      by rewrite <-app_assoc.
Qed.

(** C16: publishing over AMQP, as an AMQP 0-9-1 client sends it.  On a connected
    connection, the frames of a Basic.Publish whose body is split into any number
    of non-empty body frames of at most the largest allocation together append
    exactly one message, the whole body, to the queue bound to the channel; and
    that whatever exchange and routing key the client named, because the server
    takes the reserved field in front of them for two empty names.  Without a
    bound queue that exists the message is dropped.  Nothing is left pending, no
    other queue changes, and nothing is written to any connection. *)
Theorem publish_reassembled now connID ch exchange routingKey bodies s :
  connectionStates s !! connID = Some StateConnected ->
  bodies <> [] -> Forall (fun b => b <> []) bodies -> Z.of_nat (length (mjoin bodies)) <= maxAlloc ->
  exists s', feed_frames now connID ch (publish_frames exchange routingKey bodies) s = Ret s'
    /\ queues s' = to_bound (BoundQueue (default empty_channel (channelStates s !! ch))) (mjoin bodies) (queues s)
    /\ channelStates s' !! ch = Some (set_Pending None (default empty_channel (channelStates s !! ch)))
    /\ out s' = out s.
Proof.
  intros Hs Hne Hbs Hlen. unfold publish_frames. cbn [feed_frames].
  rewrite publish_method_spec by done.
  erewrite header_spec; [|apply with_channel_lookup|reflexivity|lia].
  cbn [p_Exchange RoutingKey].
  match goal with |- context [feed_frames _ _ _ _ (with_channel ch (set_Pending (Some ?p)) ?s1)] =>
    destruct (bodies_spec now connID ch bodies (with_channel ch (set_Pending (Some p)) s1)
      (set_Pending (Some p) (default empty_channel (channelStates s1 !! ch))) p) as (s' & E & Hq & Hc & Ho);
    [apply with_channel_lookup|reflexivity|reflexivity|done|done|reflexivity|] end.
  exists s'. split; [exact E|]. rewrite with_channel_lookup in Hq, Hc. exact (conj Hq (conj Hc Ho)).
Qed.

Definition one_queue : EnhancedAMQPServer :=
  mkServer {["c"]} {["c" := StateConnected]} ∅ {[ [113] := mkQueue [113] [[1]; [2]] false false false ]} ∅ ∅.
(** The same with the queue bound to channel 1. *)
Definition one_bound : EnhancedAMQPServer :=
  with_channel 1 (set_BoundQueue [113]) one_queue.

(** The client publishes to the queue [x] of the default exchange; the message
    goes to the queue [q] that is bound. *)
Lemma publish_reassembled_witness :
  exists s', feed_frames 0 "c" 1 (publish_frames [] [120] [[7; 8]; [9]]) one_bound = Ret s'
    /\ queues s' = {[ [113] := mkQueue [113] [[1]; [2]; [7; 8; 9]] false false false ]}
    /\ out s' = ∅.
Proof.
  destruct (publish_reassembled 0 "c" 1 [] [120] [[7; 8]; [9]] one_bound) as (s' & E & Hq & _ & Ho).
  - reflexivity.
  - discriminate.
  - repeat constructor; discriminate.
  - cbn. unfold maxAlloc. lia.
  - exists s'. split; [exact E|]. split; [rewrite Hq; vm_compute; reflexivity|exact Ho].
Defined.

(** A client can crash the server.  On a connected connection, a
    Basic.Publish followed by a content header that announces a body above the
    largest allocation makes the handler panic, and the process with it. *)
Theorem header_crash now connID ch exchange routingKey n s :
  connectionStates s !! connID = Some StateConnected ->
  maxAlloc < n < 2 ^ 64 ->
  feed_frames now connID ch
    [(FrameMethod, publish_method exchange routingKey); (FrameHeader, content_header n)] s = Panic.
Proof.
  intros Hs Hn. cbn [feed_frames]. rewrite publish_method_spec by done.
  erewrite header_exec; [|apply with_channel_lookup|reflexivity|unfold maxAlloc in Hn; lia].
  unfold make_cap. destruct (Z.gtb_spec n maxAlloc); [done|lia].
Qed.

Lemma header_crash_witness :
  feed_frames 0 "c" 1 [(FrameMethod, publish_method [] [113]); (FrameHeader, content_header (2 ^ 63))]
    one_queue = Panic.
Proof.
  apply (header_crash 0 "c" 1 [] [113] (2 ^ 63) one_queue);
    [reflexivity|unfold maxAlloc; lia].
Defined.

(** ** Consuming *)

(** Everything written to a connection so far. *)
Definition sent (conn : string) (s : EnhancedAMQPServer) : bytes := default [] (out s !! conn).

(** The frames of one delivery, and of a run of deliveries. *)
Definition delivery (ch : Z) (queueName consumerTag : bytes) (tag : Z) (msg : bytes) (redelivered : bool)
  : bytes :=
  frame_bytes ch FrameMethod (method 60 60 ++ short_string consumerTag ++ be_put 8 tag
     ++ [if redelivered then 1 else 0] ++ [0] ++ short_string queueName)
  ++ frame_bytes ch FrameHeader (content_header (Z.of_nat (length msg)))
  ++ frame_bytes ch FrameBody msg.

Fixpoint deliveries (ch : Z) (queueName consumerTag : bytes) (tag : Z) (msgs : list bytes) : bytes :=
  match msgs with
  | [] => []
  | msg :: msgs => delivery ch queueName consumerTag tag msg false
                   ++ deliveries ch queueName consumerTag (tag + 1) msgs
  end.

Lemma sendAMQPFrame_sent conn ch ft p s x :
  sent x (sendAMQPFrame ch ft p conn s)
  = if decide (x = conn) then sent conn s ++ frame_bytes ch ft p else sent x s.
Proof.
  unfold sent, sendAMQPFrame. cbn [out set_out]. case_decide as H; [subst; by rewrite lookup_insert_eq|].
  by rewrite lookup_insert_ne.
Qed.

Lemma deliverMessage_sent conn ch q ct tag msg r s x :
  sent x (deliverMessage conn ch q ct tag msg r s)
  = if decide (x = conn) then sent conn s ++ delivery ch q ct tag msg r else sent x s.
Proof.
  unfold deliverMessage. rewrite !sendAMQPFrame_sent. case_decide; [|done].
  rewrite !decide_True by done. unfold delivery, content_header. by rewrite <-!app_assoc.
Qed.

Lemma deliver_all_spec conn ch qn ct msgs : forall s c,
  channelStates s !! ch = Some c -> 0 <= NextDeliveryTag c ->
  NextDeliveryTag c + Z.of_nat (length msgs) < 2 ^ 64 ->
  let s' := deliver_all conn ch qn ct msgs s in
  queues s' = queues s
  /\ (forall x, sent x s' = if decide (x = conn)
                            then sent conn s ++ deliveries ch qn ct (NextDeliveryTag c) msgs else sent x s)
  /\ exists c', channelStates s' !! ch = Some c'
     /\ NextDeliveryTag c' = NextDeliveryTag c + Z.of_nat (length msgs)
     /\ (forall i m, msgs !! i = Some m ->
          UnackedMessages c' !! (NextDeliveryTag c + Z.of_nat i)
          = Some (mkUnacked (NextDeliveryTag c + Z.of_nat i) qn m false))
     /\ (forall t, t < NextDeliveryTag c -> UnackedMessages c' !! t = UnackedMessages c !! t).
Proof.
  induction msgs as [|m msgs IH]; intros s c Hc Hn Hb; cbn [deliver_all deliveries].
  - split; [done|]. split; [intros x; case_decide; [subst; by rewrite app_nil_r|done]|].
    exists c. split_and!; [done|cbn; lia|intros i m Hi; by rewrite lookup_nil in Hi|done].
  - cbn [length] in Hb. rewrite Hc. cbn [default from_option].
    set (s1 := with_channel ch (track qn m false) s).
    set (s2 := deliverMessage conn ch qn ct _ m false s1).
    assert (channelStates s2 !! ch = Some (track qn m false c)) as Hc2.
    { change (channelStates s2) with (channelStates s1). unfold s1. by rewrite with_channel_lookup, Hc. }
    assert (NextDeliveryTag (track qn m false c) = NextDeliveryTag c + 1) as Hn2.
    { cbn [track NextDeliveryTag set_unacked set_NextDeliveryTag]. apply wrapu_small. lia. }
    destruct (IH s2 _ Hc2) as (Hq & Hs & c' & Hc' & Hn' & Hu & Hold); [lia|lia|]. rewrite Hn2 in *.
    split; [exact Hq|]. split.
    { intros x. rewrite Hs. unfold s2. rewrite !deliverMessage_sent.
      case_decide; [subst; rewrite decide_True by done|done].
      change (sent conn s1) with (sent conn s). by rewrite <-app_assoc. }
    exists c'. split; [exact Hc'|]. split; [rewrite Hn'; cbn [length]; lia|].
    assert (UnackedMessages (track qn m false c)
      = <[NextDeliveryTag c := mkUnacked (NextDeliveryTag c) qn m false]> (UnackedMessages c)) as Hut by done.
    split.
    + intros [|i] m' Hi; cbn in Hi.
      * injection Hi as <-. rewrite Z.add_0_r, Hold by lia. by rewrite Hut, lookup_insert_eq.
      * specialize (Hu i m' Hi). by replace (NextDeliveryTag c + Z.of_nat (S i))
          with (NextDeliveryTag c + 1 + Z.of_nat i) by lia.
    + intros t Ht. rewrite Hold by lia. by rewrite Hut, lookup_insert_ne by lia.
Qed.

(** The tag of the first delivery on a channel. *)
Definition first_tag (c : ChannelState) : Z := if NextDeliveryTag c =? 0 then 1 else NextDeliveryTag c.

(** C15: consuming a queue.  Basic.Consume on an existing queue answers
    ConsumeOk, delivers every queued message once, in order, with consecutive
    delivery tags, to the consuming connection only, and empties that queue
    alone; each delivered message is tracked as unacknowledged under its tag,
    and what was tracked before stays. *)
Theorem consume_fifo ch qn ct conn q s :
  let c := default empty_channel (channelStates s !! ch) in
  let n := Z.of_nat (length (q_Messages q)) in
  queues s !! qn = Some q -> 0 <= NextDeliveryTag c -> first_tag c + n < 2 ^ 64 ->
  exists s' c', handleBasicConsume ch qn ct conn s = (s', None)
    /\ queues s' = <[qn := set_Messages [] q]> (queues s)
    /\ sent conn s' = sent conn s ++ frame_bytes ch FrameMethod (method 60 21 ++ short_string ct)
                      ++ deliveries ch qn ct (first_tag c) (q_Messages q)
    /\ (forall x, x <> conn -> sent x s' = sent x s)
    /\ channelStates s' !! ch = Some c' /\ NextDeliveryTag c' = first_tag c + n
    /\ (forall i m, q_Messages q !! i = Some m ->
         UnackedMessages c' !! (first_tag c + Z.of_nat i)
         = Some (mkUnacked (first_tag c + Z.of_nat i) qn m false))
    /\ (forall t, t < first_tag c -> UnackedMessages c' !! t = UnackedMessages c !! t).
Proof.
  intros c n Hq Hn Hb. unfold handleBasicConsume. rewrite Hq.
  set (s0 := sendAMQPFrame _ _ _ conn s). set (s1 := with_channel ch _ s0).
  set (s2 := set_queues _ s1). set (s3 := with_channel ch _ s2).
  set (c3 := set_NextDeliveryTag (first_tag c) (set_consumer ct conn c)).
  assert (channelStates s3 !! ch = Some c3) as Hc3.
  { unfold s3. rewrite with_channel_lookup. change (channelStates s2) with (channelStates s1).
    unfold s1. rewrite with_channel_lookup. cbn [default from_option].
    change (channelStates s0) with (channelStates s). fold c. unfold c3, first_tag, id.
    change (NextDeliveryTag (set_consumer ct conn c)) with (NextDeliveryTag c).
    by destruct (NextDeliveryTag c =? 0). }
  assert (0 <= first_tag c) by (unfold first_tag; destruct (NextDeliveryTag c =? 0); lia).
  destruct (deliver_all_spec conn ch qn ct (q_Messages q) s3 c3 Hc3)
    as (Hqs & Hs & c' & Hc' & Hn' & Hu & Hold); [exact H|exact Hb|].
  eexists _, c'. split; [reflexivity|]. split; [exact Hqs|].
  assert (forall x, sent x s3 = sent x s0) as Hs3 by done.
  split; [|split; [|exact (conj Hc' (conj Hn' (conj Hu Hold)))]].
  - rewrite Hs, decide_True, Hs3 by done. unfold s0. rewrite sendAMQPFrame_sent, decide_True by done.
    by rewrite <-app_assoc.
  - intros x Hx. rewrite Hs, decide_False, Hs3 by done. unfold s0.
    by rewrite sendAMQPFrame_sent, decide_False.
Qed.

Lemma consume_fifo_witness :
  exists s' c', handleBasicConsume 1 [113] [116] "c" one_queue = (s', None)
    /\ queues s' = <[ [113] := mkQueue [113] [] false false false ]> (queues one_queue)
    /\ sent "c" s' = [] ++ frame_bytes 1 FrameMethod (method 60 21 ++ short_string [116])
                      ++ deliveries 1 [113] [116] 1 [[1]; [2]]
    /\ (forall x, x <> "c" -> sent x s' = [])
    /\ channelStates s' !! 1 = Some c' /\ NextDeliveryTag c' = 3
    /\ UnackedMessages c' !! 2 = Some (mkUnacked 2 [113] [2] false).
Proof.
  destruct (consume_fifo 1 [113] [116] "c" (mkQueue [113] [[1]; [2]] false false false) one_queue)
    as (s' & c' & H1 & H2 & H3 & H4 & H5 & H6 & H7 & _); [reflexivity|vm_compute; discriminate|vm_compute; reflexivity|].
  exists s', c'. split; [exact H1|]. split; [exact H2|]. split; [exact H3|]. split; [exact H4|].
  split; [exact H5|]. split; [exact H6|]. exact (H7 1%nat [2] eq_refl).
Defined.

(** ** Acknowledgement bookkeeping *)

(** The counter is the number of tracked messages, each tracked under its own
    tag, which was handed out before. *)
Definition chan_wf (c : ChannelState) : Prop :=
  CurrentlyUnacked c = s64 (Z.of_nat (size (UnackedMessages c)))
  /\ forall t u, UnackedMessages c !! t = Some u -> DeliveryTag u = t /\ t < NextDeliveryTag c.
Definition unacked_wf (s : EnhancedAMQPServer) : Prop :=
  forall ch c, channelStates s !! ch = Some c -> chan_wf c.

(** Tags have not come near the end of 64 bits. *)
Definition tag_room (s : EnhancedAMQPServer) : Prop :=
  (forall ch c, channelStates s !! ch = Some c -> 0 <= NextDeliveryTag c < 2 ^ 63)
  /\ (forall qn q, queues s !! qn = Some q -> Z.of_nat (length (q_Messages q)) < 2 ^ 63 - 1).

Lemma empty_wf : chan_wf empty_channel.
Proof. split; [reflexivity|]. intros t u H. cbn in H. by rewrite lookup_empty in H. Qed.

Lemma default_wf s ch : unacked_wf s -> chan_wf (default empty_channel (channelStates s !! ch)).
Proof. intros H. destruct (channelStates s !! ch) eqn:E; [by eapply H|apply empty_wf]. Qed.

Lemma with_channel_wf ch f s :
  unacked_wf s -> (forall c, chan_wf c -> chan_wf (f c)) -> unacked_wf (with_channel ch f s).
Proof.
  intros H Hf ch' c'. unfold with_channel. cbn [channelStates set_channelStates].
  rewrite lookup_insert_Some. intros [[<- <-]|[_ E]]; [by apply Hf, default_wf|by eapply H].
Qed.

Lemma s64_step n d : s64 (s64 n + d) = s64 (n + d).
Proof.
  apply wraps_congr; [lia|]. rewrite <-Zplus_mod_idemp_l, wraps_mod by lia. by rewrite Zplus_mod_idemp_l.
Qed.

Lemma track_wf qn m r c :
  0 <= NextDeliveryTag c -> NextDeliveryTag c + 1 < 2 ^ 64 -> chan_wf c -> chan_wf (track qn m r c).
Proof.
  intros Hn Hb [Hc Hu]. unfold chan_wf, track.
  cbn [CurrentlyUnacked UnackedMessages NextDeliveryTag set_unacked set_NextDeliveryTag].
  rewrite wrapu_small by lia. split.
  - rewrite map_size_insert_None, Hc, s64_step; [f_equal; lia|].
    destruct (UnackedMessages c !! NextDeliveryTag c) eqn:E; [|done]. apply Hu in E. lia.
  - intros t u. rewrite lookup_insert_Some. intros [[<- <-]|[_ E]]; [cbn; lia|]. apply Hu in E. lia.
Qed.

Lemma untrack_wf t u c :
  UnackedMessages c !! t = Some u -> chan_wf c ->
  chan_wf (set_unacked (delete t (UnackedMessages c)) (s64 (CurrentlyUnacked c - 1)) c).
Proof.
  intros E [Hc Hu]. unfold chan_wf. cbn [CurrentlyUnacked UnackedMessages NextDeliveryTag set_unacked].
  split.
  - rewrite map_size_delete_Some, Hc by done.
    replace (s64 (Z.of_nat (size (UnackedMessages c))) - 1)
      with (s64 (Z.of_nat (size (UnackedMessages c))) + -1) by lia.
    rewrite s64_step. f_equal.
    assert (size (UnackedMessages c) <> 0%nat); [|lia].
    intros H0. apply map_size_empty_inv in H0. by rewrite H0, lookup_empty in E.
  - intros t' u'. rewrite lookup_delete_Some. intros [_ E']. by apply Hu.
Qed.

Lemma deliver_all_wf conn ch qn ct msgs : forall s c,
  channelStates s !! ch = Some c -> 0 <= NextDeliveryTag c ->
  NextDeliveryTag c + Z.of_nat (length msgs) < 2 ^ 64 ->
  unacked_wf s -> unacked_wf (deliver_all conn ch qn ct msgs s).
Proof.
  induction msgs as [|m msgs IH]; intros s c Hc Hn Hb Hw; [done|]. cbn [deliver_all length] in *.
  rewrite Hc. cbn [default from_option].
  set (s1 := with_channel ch (track qn m false) s).
  set (s2 := deliverMessage conn ch qn ct _ m false s1).
  apply (IH s2 (track qn m false c)).
  - change (channelStates s2) with (channelStates s1). unfold s1. by rewrite with_channel_lookup, Hc.
  - cbn [track NextDeliveryTag set_unacked set_NextDeliveryTag]. rewrite wrapu_small; lia.
  - cbn [track NextDeliveryTag set_unacked set_NextDeliveryTag]. rewrite wrapu_small; lia.
  - intros ch' c'. change (channelStates s2) with (channelStates s1).
    unfold s1, with_channel. cbn [channelStates set_channelStates]. rewrite Hc.
    rewrite lookup_insert_Some. intros [[<- <-]|[_ E]]; [|by eapply Hw].
    change (default empty_channel (Some c)) with c. apply track_wf; [done|lia|]. by eapply Hw.
Qed.

Lemma consume_wf ch qn ct conn s :
  unacked_wf s -> tag_room s -> unacked_wf (fst (handleBasicConsume ch qn ct conn s)).
Proof.
  intros Hw [Hr Hl]. unfold handleBasicConsume. destruct (queues s !! qn) as [q|] eqn:Hq; [|done].
  cbn [fst]. apply Hl in Hq.
  set (f := fun c => if NextDeliveryTag c =? 0 then set_NextDeliveryTag 1 c else c).
  set (s1 := with_channel ch (set_consumer ct conn) _). set (s2 := set_queues _ s1).
  assert (0 <= NextDeliveryTag (default empty_channel (channelStates s !! ch)) < 2 ^ 63) as Hd.
  { destruct (channelStates s !! ch) eqn:E; [by eapply Hr|cbn; lia]. }
  set (c1 := set_consumer ct conn (default empty_channel (channelStates s !! ch))).
  assert (channelStates s2 !! ch = Some c1) as Hc1.
  { change (channelStates s2) with (channelStates s1). apply with_channel_lookup. }
  assert (0 <= NextDeliveryTag (f c1) < 2 ^ 63) as Hf.
  { change (NextDeliveryTag (default empty_channel (channelStates s !! ch))) with (NextDeliveryTag c1) in Hd.
    unfold f. destruct (Z.eqb_spec (NextDeliveryTag c1) 0); [|done].
    cbn [NextDeliveryTag set_NextDeliveryTag]. lia. }
  apply (deliver_all_wf conn ch qn ct _ _ (f c1)).
  - rewrite with_channel_lookup, Hc1. done.
  - exact (proj1 Hf).
  - lia.
  - apply with_channel_wf.
    + change (unacked_wf s1). by apply with_channel_wf.
    + intros c [Hc Hu]. unfold f. destruct (Z.eqb_spec (NextDeliveryTag c) 0) as [E|]; [|done].
      split; [exact Hc|]. intros t u Ht. apply Hu in Ht. cbn. lia.
Qed.

Lemma ack_wf ch t s : unacked_wf s -> unacked_wf (fst (handleBasicAck ch t s)).
Proof.
  intros Hw. unfold handleBasicAck. destruct (channelStates s !! ch) as [c|] eqn:E; [|done].
  destruct (UnackedMessages c !! t) eqn:Et; [|done]. cbn [fst].
  intros ch' c'. unfold with_channel. cbn [channelStates set_channelStates]. rewrite E.
  rewrite lookup_insert_Some. intros [[<- <-]|[_ E']]; [|by eapply Hw].
  eapply untrack_wf; [done|]. by eapply Hw.
Qed.

Lemma nack_wf ch t s : unacked_wf s -> tag_room s -> unacked_wf (fst (handleBasicNack ch t s)).
Proof.
  intros Hw [Hr _]. unfold handleBasicNack. destruct (channelStates s !! ch) as [c|] eqn:E; [|done].
  destruct (UnackedMessages c !! t) as [u|] eqn:Et; [|done].
  set (c1 := set_unacked _ _ c). set (s1 := with_channel ch (fun _ => c1) s).
  assert (chan_wf c1) as Hc1 by (eapply untrack_wf; [done|by eapply Hw]).
  assert (unacked_wf s1) as Hw1 by (apply with_channel_wf; [done|intros; exact Hc1]).
  destruct (queues s1 !! QueueName u) as [q|]; [|exact Hw1].
  set (s2 := set_queues _ s1). set (s3 := with_channel ch _ s2).
  assert (unacked_wf s3) as Hw3.
  { intros ch' c'. unfold s3, with_channel. cbn [channelStates set_channelStates].
    rewrite lookup_insert_Some. intros [[<- <-]|[_ E']]; [|by eapply Hw1].
    change (channelStates s2) with (channelStates s1). unfold s1. rewrite with_channel_lookup.
    cbn [default from_option]. destruct (Hr _ _ E).
    apply track_wf; [done|cbn; lia|exact Hc1]. }
  destruct (Conn c1); [case_decide|]; exact Hw3.
Qed.

(** Whatever a step returns is well formed. *)
Definition keeps (e : exec result) : Prop := forall s' er, e = Ret (s', er) -> unacked_wf s'.

Lemma keeps_ret (r : result) : unacked_wf (fst r) -> keeps (Ret r).
Proof. intros H s' er [= ->]. exact H. Qed.

Lemma keeps_bind {A} (e : exec A) (k : A -> exec result) :
  (forall a, keeps (k a)) -> keeps (do! a := e in k a).
Proof. intros H. destruct e; [apply H|done|done]. Qed.

Ltac keep :=
  repeat first
    [ progress cbn beta iota
    | match goal with
      | |- keeps (if decide ?P then _ else _) => case_decide
      | |- keeps (match idx ?p ?i with _ => _ end) => apply (keeps_bind (idx p i)); intros ?
      | |- keeps (match sub ?p ?a ?b with _ => _ end) => apply (keeps_bind (sub p a b)); intros ?
      | |- keeps (match read_short ?p ?a with _ => _ end) =>
          apply (keeps_bind (read_short p a)); intros [[? ?]|]
      | |- keeps (match make_cap ?n with _ => _ end) => apply (keeps_bind (make_cap n)); intros ?
      | |- keeps (Ret _) => apply keeps_ret; cbn [fst]
      end ].

Lemma queueDeclare_wf now conn ch name d a s :
  unacked_wf s -> unacked_wf (handleQueueDeclare now conn ch name d a s).
Proof.
  intros Hw. unfold handleQueueDeclare. destruct (queues s !! _) as [q|].
  all: apply with_channel_wf; [exact Hw|done].
Qed.

Lemma handleMethod_wf now conn ch payload s :
  unacked_wf s -> tag_room s -> keeps (handleMethodFrameWithChannel now conn ch payload s).
Proof.
  intros Hw Hr. unfold handleMethodFrameWithChannel. keep; [exact Hw|].
  repeat (match goal with |- keeps (match ?z with _ => _ end) => destruct z end;
          try (apply keeps_ret; exact Hw)).
  all: unfold method_exchange_declare, method_queue_declare, method_basic_publish, method_basic_qos,
    method_basic_consume, method_basic_ack, method_basic_nack; keep; try exact Hw.
  all: try (by apply consume_wf); try (by apply ack_wf); try (by apply queueDeclare_wf).
  all: try (by apply (with_channel_wf ch)).
  - destruct (negb _); [by apply nack_wf|by apply ack_wf].
  - unfold handleExchangeDeclare. case_match; exact Hw.
Qed.

Lemma handle_body_wf ch payload s : unacked_wf s -> unacked_wf (fst (handle_body ch payload s)).
Proof.
  intros Hw. unfold handle_body. destruct (channelStates s !! ch) as [c|]; [|done].
  destruct (Pending c) as [p|]; [|done].
  destruct (_ >=? _); [|by apply with_channel_wf].
  unfold handleBasicPublish. set (s1 := with_channel ch _ s).
  assert (unacked_wf s1) as H by (by apply with_channel_wf).
  repeat case_match; exact H.
Qed.

(** C17: acknowledgement bookkeeping is invariant.  Whatever frame arrives, on
    whatever connection and channel, if before it every channel's counter of
    unacknowledged messages is the number it tracks and every message is
    tracked under its own tag below the next tag to hand out, then so it is
    after the frame: no tag of a tracked message is ever reused. *)
Theorem unacked_invariant now connID ft ch payload s s' er :
  unacked_wf s -> tag_room s ->
  handleFrameWithState now connID ft ch payload s = Ret (s', er) -> unacked_wf s'.
Proof.
  intros Hw Hr. cut (keeps (handleFrameWithState now connID ft ch payload s)); [by intros H; apply H|].
  unfold handleFrameWithState. destruct (negb _).
  - unfold handleAMQPFrameWithChannel. destruct (ft =? FrameMethod); [by apply handleMethod_wf|].
    destruct (ft =? FrameHeader).
    { unfold handle_header. keep; [exact Hw|]. destruct (channelStates s !! ch) as [c|]; [|by apply keeps_ret].
      destruct (Pending c); [|by apply keeps_ret]. keep. by apply with_channel_wf. }
    destruct (ft =? FrameBody); [by apply keeps_ret, handle_body_wf|].
    destruct (ft =? FrameHeartbeat); by apply keeps_ret.
  - keep; [exact Hw|]. set (other := if decide _ then _ else _).
    assert (keeps other) as Ho.
    { unfold other. case_decide; [by apply keeps_ret|by apply handleMethod_wf]. }
    clearbody other.
    repeat (match goal with |- keeps (match ?z with _ => _ end) => destruct z end;
            try exact Ho; try (apply keeps_ret; exact Hw)).
Qed.

(** A channel with a consumer and one unacknowledged message of queue "q". *)
Definition in_flight_channel : ChannelState :=
  mkChannel None [] {[ 1 := mkUnacked 1 [113] [5] false ]} 0 0 1 2 [116] (Some "c").
Definition in_flight : EnhancedAMQPServer :=
  mkServer {["c"]} {["c" := StateConnected]} ∅ {[ [113] := mkQueue [113] [] false false false ]}
    {[ 1 := in_flight_channel ]} ∅.

Definition nack_method (tag : Z) : bytes := method 60 120 ++ be_put 8 tag ++ [2].
Definition ack_method (tag : Z) : bytes := method 60 80 ++ be_put 8 tag ++ [0].

Lemma in_flight_wf : unacked_wf in_flight /\ tag_room in_flight.
Proof.
  split.
  - intros ch c H. cbn [in_flight channelStates] in H.
    apply lookup_singleton_Some in H as [<- <-]. split; [reflexivity|].
    intros t u H. cbn [in_flight_channel UnackedMessages] in H.
    apply lookup_singleton_Some in H as [<- <-]. cbn. lia.
  - split; intros k x H; cbn [in_flight channelStates queues] in H;
      apply lookup_singleton_Some in H as [<- <-]; cbn; lia.
Qed.

Lemma unacked_invariant_witness :
  match handleFrameWithState 0 "c" FrameMethod 1 (nack_method 1) in_flight with
  | Ret (s', _) => unacked_wf s'
  | _ => False
  end.
Proof.
  destruct (handleFrameWithState 0 "c" FrameMethod 1 (nack_method 1) in_flight) as [[s' er]| |] eqn:E.
  - apply (unacked_invariant 0 "c" FrameMethod 1 (nack_method 1) in_flight s' er);
      [apply in_flight_wf|apply in_flight_wf|exact E].
  - vm_compute in E. discriminate E.
  - vm_compute in E. discriminate E.
Defined.

(** A requeued message is duplicated.  Basic.Nack with requeue on a channel
    with a consumer puts the body back at the end of its queue and also
    delivers it again at once under a new tag; acknowledging that redelivery
    leaves the copy in the queue. *)
Theorem nack_duplicates ch t u c q conn s :
  channelStates s !! ch = Some c -> UnackedMessages c !! t = Some u ->
  queues s !! QueueName u = Some q -> Conn c = Some conn -> ConsumerTag c <> [] ->
  exists s1 s2, handleBasicNack ch t s = (s1, None)
    /\ sent conn s1 = sent conn s
         ++ delivery ch (QueueName u) (ConsumerTag c) (NextDeliveryTag c) (u_Body u) true
    /\ handleBasicAck ch (NextDeliveryTag c) s1 = (s2, None)
    /\ queues s2 = <[QueueName u := set_Messages (q_Messages q ++ [u_Body u]) q]> (queues s)
    /\ (exists c2, channelStates s2 !! ch = Some c2
         /\ UnackedMessages c2 = delete (NextDeliveryTag c) (delete t (UnackedMessages c))).
Proof.
  intros Hc Hu Hq Hconn Hct. unfold handleBasicNack. rewrite Hc, Hu.
  set (c1 := set_unacked _ _ c). set (s0 := with_channel ch (fun _ => c1) s).
  change (queues s0) with (queues s). rewrite Hq.
  change (Conn c1) with (Conn c). change (ConsumerTag c1) with (ConsumerTag c).
  rewrite Hconn, decide_True by done.
  set (qs := <[QueueName u := _]> (queues s)). set (s3 := with_channel ch _ (set_queues qs s0)).
  assert (channelStates s3 !! ch = Some (track (QueueName u) (u_Body u) true c1)) as H3.
  { unfold s3. rewrite with_channel_lookup. cbn [channelStates set_queues]. unfold s0.
    by rewrite with_channel_lookup. }
  eexists _, _. split; [reflexivity|]. split.
  { rewrite deliverMessage_sent, decide_True by done. reflexivity. }
  set (s4 := deliverMessage _ _ _ _ _ _ _ s3). unfold handleBasicAck.
  assert (channelStates s4 !! ch = Some (track (QueueName u) (u_Body u) true c1)) as H4 by exact H3.
  rewrite H4. unfold track at 1. cbn [UnackedMessages set_unacked set_NextDeliveryTag].
  change (NextDeliveryTag c1) with (NextDeliveryTag c). rewrite lookup_insert_eq.
  split; [reflexivity|]. split; [reflexivity|].
  eexists. split; [apply with_channel_lookup|].
  unfold track. cbn [UnackedMessages set_unacked set_NextDeliveryTag].
  change (NextDeliveryTag c1) with (NextDeliveryTag c). by rewrite delete_insert_eq.
Qed.

Lemma nack_duplicates_witness :
  exists s1 s2, handleBasicNack 1 1 in_flight = (s1, None)
    /\ sent "c" s1 = [] ++ delivery 1 [113] [116] 2 [5] true
    /\ handleBasicAck 1 2 s1 = (s2, None)
    /\ queues s2 = <[ [113] := mkQueue [113] [[5]] false false false ]> (queues in_flight)
    /\ (exists c2, channelStates s2 !! 1 = Some c2
         /\ UnackedMessages c2 = delete 2 (delete 1 (UnackedMessages in_flight_channel))).
Proof.
  apply (nack_duplicates 1 1 (mkUnacked 1 [113] [5] false) in_flight_channel
    (mkQueue [113] [] false false false) "c" in_flight); [reflexivity..|discriminate].
Defined.

(** ** The handshake *)

Definition handshake_method (payload : bytes) : Prop :=
  be_get (take 2 payload) = 10 /\ be_get (take 2 (drop 2 payload)) ∈ [11; 31; 40; 50].

(** Nothing but the handshake before the connection is open.  On a
    connection that is not in the connected state every method frame other
    than Connection.StartOk, TuneOk, Open and Close is refused with an error
    and changes nothing: no queue, exchange, channel or output. *)
Theorem handshake_gate now connID ch payload s :
  default StateStart (connectionStates s !! connID) <> StateConnected ->
  ~ handshake_method payload ->
  exists e, handleFrameWithState now connID FrameMethod ch payload s = Ret (s, Some e).
Proof.
  intros Hst Hm. unfold handleFrameWithState. cbn [negb Z.eqb Pos.eqb FrameMethod].
  case_decide as Hl; [by eexists|]. unfold sub. rewrite !decide_True by lia.
  rewrite drop_0. change (2 - 0)%nat with 2%nat. change (4 - 2)%nat with 2%nat.
  rewrite decide_True by exact Hst. unfold handshake_method in Hm.
  set (a := be_get (take 2 payload)) in *. set (b := be_get (take 2 (drop 2 payload))) in *.
  clearbody a b. destruct (decide (a = 10)) as [->|Ha].
  - assert (b ∉ [11; 31; 40; 50]) as Hb by (intros H; by apply Hm). clear Hm.
    repeat (match goal with |- exists e, match ?z with _ => _ end = _ => destruct z end; try by eexists).
    all: exfalso; apply Hb; set_solver.
  - clear Hm.
    repeat (match goal with |- exists e, match ?z with _ => _ end = _ => destruct z end;
            try (exfalso; first [lia|contradiction]); try by eexists).
Qed.

Lemma handshake_gate_witness :
  exists e, handleFrameWithState 0 "d" FrameMethod 1 (publish_method [] [113]) one_queue
            = Ret (one_queue, Some e).
Proof.
  apply (handshake_gate 0 "d" 1 (publish_method [] [113]) one_queue).
  - vm_compute. discriminate.
  - intros [H _]. vm_compute in H. discriminate H.
Defined.

(** One frame opens a connection.  Connection.Open is accepted in every
    state, without StartOk (that is, without credentials) or TuneOk: the
    connection is connected and OpenOk is sent. *)
Theorem open_without_auth now connID ch rest s :
  exists s', handleFrameWithState now connID FrameMethod ch (method 10 40 ++ rest) s = Ret (s', None)
    /\ connectionStates s' = <[connID := StateConnected]> (connectionStates s)
    /\ sent connID s' = sent connID s ++ frame_bytes 0 FrameMethod (method 10 41 ++ [0]).
Proof.
  unfold handleFrameWithState. cbn [negb Z.eqb Pos.eqb FrameMethod].
  rewrite method_length, decide_False by lia.
  destruct (method_prefix 10 40 rest) as (E1 & E2 & E3 & E4); [lia..|]. rewrite E1, E2, E3, E4.
  eexists. split; [reflexivity|]. split.
  - cbn [connectionStates sendConnectionOpenOk set_conn_state set_connectionStates sendAMQPFrame set_out].
    apply insert_insert_eq.
  - change (sent connID (sendConnectionOpenOk connID (set_conn_state connID StateOpenReceived s)))
      with (sent connID (sendAMQPFrame 0 FrameMethod (method 10 41 ++ [0]) connID
              (set_conn_state connID StateOpenReceived s))).
    by rewrite sendAMQPFrame_sent, decide_True.
Qed.

(** Queue.Declare as the AMQP 0-9-1 grammar lays it out: reserved short,
    queue name, flags, arguments table. *)
Definition queue_declare_0_9_1 (name : bytes) (flags : Z) : bytes :=
  method 50 10 ++ be_put 2 0 ++ short_string name ++ [flags] ++ be_put 4 0.

(** A queue declared by the protocol's grammar gets another name.  The
    handler takes the reserved field for the name's length, so the queue asked
    for is not created, one with a generated name is, and a later publish to
    the queue asked for fails. *)
Theorem declared_under_generated_name now connID ch name flags s :
  let generated := str ("amq.gen-" +:+ pretty now) in
  connectionStates s !! connID = Some StateConnected ->
  name <> [] -> name <> generated -> queues s !! name = None -> queues s !! generated = None ->
  exists s', handleFrameWithState now connID FrameMethod ch (queue_declare_0_9_1 name flags) s = Ret (s', None)
    /\ queues s' = <[generated := mkQueue generated [] false false false]> (queues s)
    /\ forall body, handleBasicPublish ch [] name body s' = (s', Some (QueueNotFound name)).
Proof.
  intros generated Hs Hne Hgen Hn Hg. unfold handleFrameWithState, queue_declare_0_9_1.
  rewrite Hs. cbn [negb Z.eqb Pos.eqb FrameMethod].
  set (rest := be_put 2 0 ++ short_string name ++ [flags] ++ be_put 4 0).
  assert (8 <= length rest)%nat as Hl.
  { unfold rest, short_string. rewrite !length_app, !be_put_length. cbn [length]. lia. }
  rewrite method_length, decide_False by lia.
  destruct (method_prefix 50 10 rest) as (E1 & E2 & E3 & E4); [lia..|]. rewrite E1, E2, E3, ?E4.
  cbn [default from_option]. unfold id at 1. rewrite decide_False by (by intros []).
  unfold handleMethodFrameWithChannel. rewrite method_length, decide_False, E1, E2, E3, E4 by lia.
  unfold method_queue_declare. rewrite method_length, decide_False by lia.
  change (idx (method 50 10 ++ rest) 4) with (Ret 0). cbn beta iota.
  change (Z.to_nat 0) with 0%nat. change (5 + 0 + 4)%nat with 9%nat. change (5 + 0)%nat with 5%nat.
  rewrite decide_False by lia. unfold sub. rewrite decide_True by (rewrite method_length; lia).
  change (take (5 - 5) (drop 5 (method 50 10 ++ rest))) with ([] : bytes).
  change (idx (method 50 10 ++ rest) 5) with (Ret 0). cbn beta iota.
  unfold handleQueueDeclare. rewrite decide_True by done. fold generated. rewrite Hg.
  eexists. split; [reflexivity|]. split; [reflexivity|].
  intros body. unfold handleBasicPublish. rewrite decide_True by done.
  match goal with |- context [queues ?x !! name] =>
    change (queues x) with (<[generated := mkQueue generated [] false false false]> (queues s)) end.
  by rewrite lookup_insert_ne, Hn.
Qed.

Lemma declared_under_generated_name_witness :
  exists s', handleFrameWithState 7 "c" FrameMethod 1 (queue_declare_0_9_1 [119] 0) one_queue = Ret (s', None)
    /\ queues s' = <[str "amq.gen-7" := mkQueue (str "amq.gen-7") [] false false false]> (queues one_queue)
    /\ forall body, handleBasicPublish 1 [] [119] body s' = (s', Some (QueueNotFound [119])).
Proof.
  apply (declared_under_generated_name 7 "c" 1 [119] 0 one_queue);
    [reflexivity|discriminate|discriminate|reflexivity|reflexivity].
Defined.

End AmqpSpec.
