(* ===== verification/Offsets.v ===== *)
(** * Committed consumer offsets ([src/pkg/kafka/offset_manager.go])

    [OffsetManager] and [OffsetManagerWithMetadata].  Every method holds the
    manager's mutex, so it is one step on the nested maps; the clock is an
    argument.  A nil inner map is an absent key: the source never stores one.
    Loops over Go maps are folds that visit every entry once. *)
From stdpp Require Import base gmap strings list numbers fin_maps.
From Stdlib Require Import ZArith Lia.
From S2P Require Import Prelude.

Module Offsets.

(** groupID -> topic -> partition -> offset *)
Abbreviation OffsetManager := (gmap string (gmap string (gmap Z Z))).

Record OffsetMetadata := mkOffsetMetadata {
  om_Offset : Z;
  om_Metadata : string;
  om_Timestamp : Z
}.

Record OffsetManagerWithMetadata := mkOMM {
  offsets : OffsetManager;
  metadata : gmap string (gmap string (gmap Z OffsetMetadata))
}.

Definition NewOffsetManager : OffsetManager := ∅.
Definition NewOffsetManagerWithMetadata : OffsetManagerWithMetadata := mkOMM NewOffsetManager ∅.

(** [m[a][b][c] = v], creating the inner maps that are missing. *)
Definition put3 {V} (a b : string) (c : Z) (v : V) (m : gmap string (gmap string (gmap Z V)))
  : gmap string (gmap string (gmap Z V)) :=
  let topics := default ∅ (m !! a) in
  let partitions := default ∅ (topics !! b) in
  <[a := <[b := <[c := v]> partitions]> topics]> m.

Inductive fetch_error :=
| GroupNotFound (groupID : string)
| TopicNotFound (topic : string)
| PartitionNotFound.

(** The three lookups of the fetch methods, with their errors. *)
Definition get3 {V} (a b : string) (c : Z) (m : gmap string (gmap string (gmap Z V)))
  : res fetch_error V :=
  match m !! a with
  | None => Err (GroupNotFound a)
  | Some topics =>
    match topics !! b with
    | None => Err (TopicNotFound b)
    | Some partitions =>
      match partitions !! c with
      | None => Err PartitionNotFound
      | Some v => Ok v
      end
    end
  end.

Definition CommitOffset (groupID topic : string) (partition offset : Z) (om : OffsetManager)
  : OffsetManager := put3 groupID topic partition offset om.

Definition FetchOffset (groupID topic : string) (partition : Z) (om : OffsetManager)
  : Z * option fetch_error :=
  match get3 groupID topic partition om with
  | Ok offset => (offset, None)
  | Err e => (-1, Some e)
  end.

(** The deep copy, entry by entry. *)
Definition FetchAllOffsets (groupID : string) (om : OffsetManager)
  : res fetch_error (gmap string (gmap Z Z)) :=
  match om !! groupID with
  | None => Err (GroupNotFound groupID)
  | Some topics =>
    Ok (map_fold (fun topic partitions result =>
          <[topic := map_fold (fun partition offset r => <[partition := offset]> r) ∅ partitions]> result)
        ∅ topics)
  end.

Definition DeleteGroup (groupID : string) (om : OffsetManager) : OffsetManager * option fetch_error :=
  match om !! groupID with
  | None => (om, Some (GroupNotFound groupID))
  | Some _ => (delete groupID om, None)
  end.

(** The order of a Go map iteration is not specified: any order of the keys. *)
Definition ListGroups (om : OffsetManager) : list string := (map_to_list om).*1.

Definition GetGroupTopics (groupID : string) (om : OffsetManager) : res fetch_error (list string) :=
  match om !! groupID with
  | None => Err (GroupNotFound groupID)
  | Some topics => Ok (map_to_list topics).*1
  end.

(** One step.  The code takes the lock of the offsets and then that of the
    metadata, so that of two commits of the same partition at the same time one may
    come last in the offsets and the other in the metadata; the steps model
    commits that take turns. *)
Definition CommitOffsetWithMetadata (now : Z) (groupID topic : string) (partition offset : Z)
  (meta : string) (omm : OffsetManagerWithMetadata) : OffsetManagerWithMetadata :=
  mkOMM (CommitOffset groupID topic partition offset (offsets omm))
        (put3 groupID topic partition (mkOffsetMetadata offset meta now) (metadata omm)).

Definition FetchOffsetMetadata (groupID topic : string) (partition : Z)
  (omm : OffsetManagerWithMetadata) : res fetch_error OffsetMetadata :=
  get3 groupID topic partition (metadata omm).

(** ** Retention *)

Definition expired (cutoff : Z) (meta : OffsetMetadata) : bool := om_Timestamp meta <? cutoff.

Definition clean_partitions (cutoff : Z) (partitions : gmap Z OffsetMetadata)
  : gmap Z OffsetMetadata * Z :=
  map_fold (fun partition meta '(ps, cleaned) =>
    if expired cutoff meta then (delete partition ps, cleaned + 1) else (ps, cleaned))
    (partitions, 0) partitions.

Definition clean_topics (cutoff : Z) (topics : gmap string (gmap Z OffsetMetadata))
  : gmap string (gmap Z OffsetMetadata) * Z :=
  map_fold (fun topic partitions '(ts, cleaned) =>
    let '(ps, n) := clean_partitions cutoff partitions in
    let ts := <[topic := ps]> ts in
    (if decide (size ps = 0%nat) then delete topic ts else ts, cleaned + n))
    (topics, 0) topics.

Definition CleanupExpiredOffsets (now retention : Z) (omm : OffsetManagerWithMetadata)
  : OffsetManagerWithMetadata * Z :=
  let cutoff := now - retention in
  map_fold (fun groupID topics '(omm, cleaned) =>
    let '(ts, n) := clean_topics cutoff topics in
    let md := <[groupID := ts]> (metadata omm) in
    (if decide (size ts = 0%nat)
     then mkOMM (fst (DeleteGroup groupID (offsets omm))) (delete groupID md)
     else mkOMM (offsets omm) md, cleaned + n))
    (omm, 0) (metadata omm).

Definition Stats (omm : OffsetManagerWithMetadata) : Z * Z :=
  (Z.of_nat (size (offsets omm)),
   map_fold (fun _ topics n =>
     map_fold (fun _ partitions n => n + Z.of_nat (size partitions)) n topics) 0 (offsets omm)).

End Offsets.
