(* ===== verification/OffsetsSpec.v ===== *)
(** * The offset manager refines a flat map

    Abstractly the manager is one map from (group, topic, partition) to
    offsets and one to offset metadata.  Every operation refines the obvious
    operation on them; the retention sweep keeps exactly the metadata that is
    young enough, counts what it drops, and drops the offsets of the groups
    that lose all their metadata, and only those. *)
From stdpp Require Import base gmap strings list numbers fin_maps.
From Stdlib Require Import ZArith Lia.
From S2P Require Import Prelude Offsets.

Module OffsetsSpec.
Import Offsets.

(** ** Nested maps as flat maps *)

Section nested.
Context {V : Type}.
Implicit Types m : gmap string (gmap string (gmap Z V)).

Definition lookup3 (a b : string) (c : Z) m : option V :=
  m !! a ≫= fun ts => ts !! b ≫= fun ps => ps !! c.

(** No inner map is empty. *)
Definition tight m : Prop :=
  forall a ts, m !! a = Some ts -> ts <> ∅ /\ forall b ps, ts !! b = Some ps -> ps <> ∅.

Lemma lookup3_put3 a b c v m a' b' c' :
  lookup3 a' b' c' (put3 a b c v m)
  = if decide ((a', b', c') = (a, b, c)) then Some v else lookup3 a' b' c' m.
Proof.
  unfold lookup3, put3. case_decide as E.
  - injection E as -> -> ->. rewrite lookup_insert_eq. cbn. rewrite lookup_insert_eq. cbn.
    apply lookup_insert_eq.
  - destruct (decide (a' = a)) as [->|]; [|by rewrite lookup_insert_ne].
    rewrite lookup_insert_eq. cbn.
    destruct (decide (b' = b)) as [->|].
    + rewrite lookup_insert_eq. cbn. rewrite lookup_insert_ne by congruence.
      destruct (m !! a) as [ts|]; cbn; [|by rewrite lookup_empty].
      destruct (ts !! b); cbn; [done|by rewrite lookup_empty].
    + rewrite lookup_insert_ne by congruence.
      destruct (m !! a) as [ts|]; cbn; [done|by rewrite lookup_empty].
Qed.

Lemma tight_put3 a b c v m : tight m -> tight (put3 a b c v m).
Proof.
  intros Ht a' ts. unfold put3. rewrite lookup_insert_Some. intros [[-> <-]|[_ E]]; [|exact (Ht a' ts E)].
  split; [apply insert_non_empty|]. intros b' ps. rewrite lookup_insert_Some.
  intros [[-> <-]|[_ E]]; [apply insert_non_empty|].
  destruct (m !! a') as [ts|] eqn:Ea; cbn in E; [|by rewrite lookup_empty in E].
  exact (proj2 (Ht a' ts Ea) b' ps E).
Qed.

Lemma get3_lookup3 a b c m v : get3 a b c m = Ok v <-> lookup3 a b c m = Some v.
Proof.
  unfold get3, lookup3. destruct (m !! a) as [ts|]; cbn; [|done].
  destruct (ts !! b) as [ps|]; cbn; [|done]. destruct (ps !! c); cbn; split; congruence.
Qed.

Lemma get3_None a b c m : lookup3 a b c m = None -> exists e, get3 a b c m = Err e.
Proof.
  unfold get3, lookup3. destruct (m !! a) as [ts|]; cbn; [|by eexists].
  destruct (ts !! b) as [ps|]; cbn; [|by eexists]. destruct (ps !! c); [done|by eexists].
Qed.

Lemma tight_entry a ts m : tight m -> m !! a = Some ts -> exists b c v, lookup3 a b c m = Some v.
Proof.
  intros Ht Ha. destruct (Ht a ts Ha) as [Hne Hps].
  apply map_choose in Hne as (b & ps & Hb).
  apply Hps in Hb as Hne. apply map_choose in Hne as (c & v & Hc).
  exists b, c, v. unfold lookup3. rewrite Ha. cbn. rewrite Hb. done.
Qed.

(** How many entries there are. *)
Definition total m : Z := map_sum (map_sum (fun ps : gmap Z V => Z.of_nat (size ps))) m.
End nested.

(** ** The retention sweep *)

Lemma clean_partitions_lookup cutoff ps c :
  fst (clean_partitions cutoff ps) !! c
  = match ps !! c with Some v => if expired cutoff v then None else Some v | None => None end.
Proof.
  unfold clean_partitions. rewrite (lookup_map_fold_pointwise fst _
    (fun _ v => if expired cutoff v then None else Some v)).
  - cbn [fst]. by destruct (ps !! c).
  - intros k v [a n] j Hk Ha. cbn [fst] in *. destruct (expired cutoff v); cbn [fst].
    + case_decide; [subst; apply lookup_delete_eq|by rewrite lookup_delete_ne].
    + case_decide; [subst; by rewrite Ha|done].
Qed.

Lemma clean_partitions_count cutoff ps :
  snd (clean_partitions cutoff ps)
  = Z.of_nat (size ps) - Z.of_nat (size (fst (clean_partitions cutoff ps))).
Proof.
  unfold clean_partitions.
  apply (map_fold_visit fst (fun r => snd r = Z.of_nat (size ps) - Z.of_nat (size (fst r))) _ (ps, 0));
    [cbn; lia|]. intros k v [a n] _ Ha HQ. cbn [fst snd] in *.
  destruct (expired cutoff v); cbn [fst snd]; [|done]. split.
  - rewrite map_size_delete_Some by done. assert (size a <> 0%nat); [|lia].
    intros E%map_size_empty_inv. by rewrite E, lookup_empty in Ha.
  - intros j Hj. by rewrite lookup_delete_ne.
Qed.

Definition keep_if_inhabited {W} `{Countable K} (m : gmap K W) : option (gmap K W) :=
  if decide (size m = 0%nat) then None else Some m.

Lemma clean_topics_lookup cutoff ts b :
  fst (clean_topics cutoff ts) !! b
  = match ts !! b with
    | Some ps => keep_if_inhabited (fst (clean_partitions cutoff ps))
    | None => None
    end.
Proof.
  unfold clean_topics. rewrite (lookup_map_fold_pointwise fst _
    (fun _ ps => keep_if_inhabited (fst (clean_partitions cutoff ps)))).
  - cbn [fst]. by destruct (ts !! b).
  - intros k v [a n] j _ _. destruct (clean_partitions cutoff v) as [ps c]. cbn [fst].
    unfold keep_if_inhabited. case_decide; case_decide; subst; simplify_map_eq; done.
Qed.

Lemma clean_topics_count cutoff ts :
  let size_of := fun ps : gmap Z OffsetMetadata => Z.of_nat (size ps) in
  snd (clean_topics cutoff ts) = map_sum size_of ts - map_sum size_of (fst (clean_topics cutoff ts)).
Proof.
  intros size_of. unfold clean_topics.
  apply (map_fold_visit fst (fun r => snd r = map_sum size_of ts - map_sum size_of (fst r)) _ (ts, 0));
    [cbn; lia|]. intros k v [a n] _ Ha HQ. cbn [fst snd] in *.
  pose proof (clean_partitions_count cutoff v) as Hc.
  destruct (clean_partitions cutoff v) as [ps c]. cbn [fst snd] in *. split.
  - pose proof (map_sum_replace size_of a k v ps Ha) as Hr. unfold size_of in *. case_decide as E.
    + rewrite (map_sum_delete _ _ k ps) by apply lookup_insert_eq. lia.
    + lia.
  - intros j Hj. by case_decide; simplify_map_eq.
Qed.

Section sweep.
Context (now retention : Z) (omm : OffsetManagerWithMetadata).
Let cutoff := now - retention.
Let swept := fst (CleanupExpiredOffsets now retention omm).

Lemma sweep_metadata a :
  metadata swept !! a
  = metadata omm !! a ≫= fun ts => keep_if_inhabited (fst (clean_topics cutoff ts)).
Proof.
  unfold swept, CleanupExpiredOffsets.
  rewrite (lookup_map_fold_pointwise (fun r => metadata (fst r)) _
    (fun _ ts => keep_if_inhabited (fst (clean_topics cutoff ts)))).
  - cbn [fst]. by destruct (metadata omm !! a).
  - intros k v [s n] j _ _. fold cutoff. destruct (clean_topics cutoff v) as [ts c]. cbn [fst].
    unfold keep_if_inhabited. do 2 case_decide; subst; cbn [fst metadata]; simplify_map_eq; done.
Qed.

Lemma sweep_count :
  snd (CleanupExpiredOffsets now retention omm) = total (metadata omm) - total (metadata swept).
Proof.
  unfold swept, CleanupExpiredOffsets. fold cutoff.
  apply (map_fold_visit (fun r => metadata (fst r))
    (fun r => snd r = total (metadata omm) - total (metadata (fst r))) _ (omm, 0)); [cbn; lia|].
  intros k v [s n] _ Ha HQ. cbn [fst snd] in *.
  pose proof (clean_topics_count cutoff v) as Hc. cbn zeta in Hc.
  destruct (clean_topics cutoff v) as [ts c]. cbn [fst snd] in *. unfold total in *.
  set (g := map_sum (fun ps : gmap Z OffsetMetadata => Z.of_nat (size ps))) in *. split.
  - pose proof (map_sum_replace g (metadata s) k v ts Ha) as Hr.
    case_decide as E; cbn [fst snd metadata].
    + apply map_size_empty_inv in E as ->.
      rewrite (map_sum_delete _ _ k ∅) by apply lookup_insert_eq.
      change (g ∅) with 0 in *. lia.
    + lia.
  - intros j Hj. by case_decide; cbn [fst metadata]; simplify_map_eq.
Qed.

Lemma sweep_lookup3 a b c :
  tight (metadata omm) ->
  lookup3 a b c (metadata swept)
  = lookup3 a b c (metadata omm) ≫= fun v => if expired cutoff v then None else Some v.
Proof.
  intros Ht. unfold lookup3. rewrite sweep_metadata.
  destruct (metadata omm !! a) as [ts|] eqn:Ea; cbn; [|done].
  pose proof (clean_topics_lookup cutoff ts b) as Hb.
  unfold keep_if_inhabited at 1. case_decide as E; cbn.
  - apply map_size_empty_inv in E. rewrite E, lookup_empty in Hb.
    destruct (ts !! b) as [ps|]; cbn; [|done]. unfold keep_if_inhabited in Hb.
    case_decide as E'; [|done]. apply map_size_empty_inv in E'.
    pose proof (clean_partitions_lookup cutoff ps c) as Hc. rewrite E', lookup_empty in Hc.
    by destruct (ps !! c).
  - rewrite Hb. destruct (ts !! b) as [ps|]; cbn; [|done]. unfold keep_if_inhabited.
    pose proof (clean_partitions_lookup cutoff ps c) as Hc.
    case_decide as E'; cbn; [|rewrite Hc; by destruct (ps !! c)].
    apply map_size_empty_inv in E'. rewrite E', lookup_empty in Hc. by destruct (ps !! c).
Qed.

Lemma sweep_tight : tight (metadata swept).
Proof.
  intros a ts. rewrite sweep_metadata. destruct (metadata omm !! a) as [ts0|]; cbn; [|done].
  unfold keep_if_inhabited at 1. case_decide as E; [done|]. intros [= <-].
  split; [by intros E0; rewrite E0, map_size_empty in E|].
  intros b ps. rewrite clean_topics_lookup. destruct (ts0 !! b); [|done].
  unfold keep_if_inhabited. case_decide as E'; [done|]. intros [= <-] E0. by rewrite E0, map_size_empty in E'.
Qed.

(** A group is forgotten when it had metadata and has none left. *)
Definition forgotten (a : string) : Prop :=
  is_Some (metadata omm !! a) /\ metadata swept !! a = None.

Lemma sweep_offsets a :
  offsets swept !! a = if decide (is_Some (metadata omm !! a) /\ metadata swept !! a = None)
                       then None else offsets omm !! a.
Proof.
  rewrite sweep_metadata. unfold swept, CleanupExpiredOffsets. fold cutoff.
  set (f := fun (_ : string) (ts : gmap string (gmap Z OffsetMetadata)) =>
    if decide (size (fst (clean_topics cutoff ts)) = 0%nat) then None else offsets omm !! a).
  rewrite (lookup_map_fold_pointwise (fun r => offsets (fst r)) _
    (fun k ts => if decide (size (fst (clean_topics cutoff ts)) = 0%nat) then None else offsets omm !! k)).
  - cbn [fst]. unfold keep_if_inhabited. destruct (metadata omm !! a) as [ts|]; cbn.
    + do 2 case_decide; try done; naive_solver.
    + case_decide as E; [|done]. by destruct E as [[] ].
  - intros k v [s n] j _ Hk. destruct (clean_topics cutoff v) as [ts c]. cbn [fst] in *.
    case_decide; cbn [fst offsets].
    + unfold DeleteGroup. destruct (offsets s !! k) eqn:Ek; cbn [fst].
      * case_decide; [subst; apply lookup_delete_eq|by rewrite lookup_delete_ne].
      * case_decide; [subst; done|done].
    + case_decide; [by subst|done].
Qed.
End sweep.

(** ** The abstract manager *)

Abbreviation key := (string * string * Z)%type.

Section flat.
Context {V : Type}.
Implicit Types m : gmap string (gmap string (gmap Z V)).

Definition flatten m : gmap key V :=
  map_uncurry (M12 := gmap key) (map_uncurry (M12 := gmap (string * string)) m).

Lemma lookup_flatten a b c m : flatten m !! (a, b, c) = lookup3 a b c m.
Proof.
  unfold flatten, lookup3. rewrite lookup_map_uncurry, lookup_map_uncurry.
  by destruct (m !! a).
Qed.

Lemma flatten_put3 a b c v m : flatten (put3 a b c v m) = <[(a, b, c) := v]> (flatten m).
Proof.
  apply map_eq. intros [[a' b'] c']. rewrite lookup_flatten, lookup3_put3, lookup_insert, lookup_flatten.
  repeat case_decide; congruence.
Qed.
End flat.

Lemma map_sum_uncurry {K1 K2} `{Countable K1} `{Countable K2} {V} (g : V -> Z)
  (m : gmap K1 (gmap K2 V)) :
  map_sum g (map_uncurry (M12 := gmap (K1 * K2)) m) = map_sum (map_sum g) m.
Proof.
  induction m as [|k x m Hk _ IH] using map_first_key_ind; [done|].
  rewrite map_sum_insert, <-IH by done. clear IH.
  induction x as [|j v x Hj _ IH] using map_first_key_ind.
  - change (map_sum g ∅) with 0. rewrite Z.add_0_r. f_equal. apply map_eq. intros [i j].
    rewrite !lookup_map_uncurry, lookup_insert. case_decide; [subst; by rewrite Hk|done].
  - rewrite (map_sum_insert g x) by done.
    assert (map_uncurry (M12 := gmap (K1 * K2)) (<[k := <[j := v]> x]> m)
      = <[(k, j) := v]> (map_uncurry (M12 := gmap (K1 * K2)) (<[k := x]> m))) as ->.
    { apply map_eq. intros [i' j']. rewrite lookup_insert, !lookup_map_uncurry, !(lookup_insert m).
      destruct (decide (i' = k)) as [->|]; [rewrite !(decide_True (P := k = k)) by done|].
      - cbn. rewrite lookup_insert. repeat case_decide; congruence.
      - rewrite !(decide_False (P := k = i')), decide_False by congruence. done. }
    rewrite map_sum_insert, IH; [lia|].
    rewrite lookup_map_uncurry, lookup_insert_eq. exact Hj.
Qed.

Lemma size_map_sum {K} `{Countable K} {V} (m : gmap K V) : Z.of_nat (size m) = map_sum (fun _ => 1) m.
Proof.
  induction m as [|k v m Hk _ IH] using map_first_key_ind; [done|].
  rewrite map_size_insert_None, map_sum_insert, <-IH by done. lia.
Qed.

Lemma map_sum_ext {K} `{Countable K} {V} (g h : V -> Z) (m : gmap K V) :
  (forall v, g v = h v) -> map_sum g m = map_sum h m.
Proof.
  intros E. induction m as [|k v m Hk _ IH] using map_first_key_ind; [done|].
  by rewrite !map_sum_insert, IH, E.
Qed.

Lemma total_size {V} (m : gmap string (gmap string (gmap Z V))) :
  total m = Z.of_nat (size (flatten m)).
Proof.
  rewrite size_map_sum. unfold flatten. rewrite !map_sum_uncurry. unfold total.
  apply map_sum_ext. intros ts. apply map_sum_ext. intros ps. apply size_map_sum.
Qed.

(** The groups a flat map mentions. *)
Definition groups_of {V} (m : gmap key V) : gset string :=
  set_map (fun k : key => fst (fst k)) (dom m).

Lemma elem_of_groups_of {V} (m : gmap key V) a :
  a ∈ groups_of m <-> exists b c v, m !! (a, b, c) = Some v.
Proof.
  unfold groups_of. rewrite elem_of_map. setoid_rewrite elem_of_dom. split.
  - intros ([[a' b] c] & -> & [v Hv]). by exists b, c, v.
  - intros (b & c & v & Hv). exists (a, b, c). split; [done|by eexists].
Qed.

Inductive op :=
| Commit (groupID topic : string) (partition offset : Z)
| CommitMeta (now : Z) (groupID topic : string) (partition offset : Z) (meta : string)
| Delete (groupID : string)
| Cleanup (now retention : Z).

(** One operation of the source; the number is what a sweep returns. *)
Definition run_op (o : op) (omm : OffsetManagerWithMetadata) : OffsetManagerWithMetadata * Z :=
  match o with
  | Commit g t p x => (mkOMM (CommitOffset g t p x (offsets omm)) (metadata omm), 0)
  | CommitMeta now g t p x md => (CommitOffsetWithMetadata now g t p x md omm, 0)
  | Delete g => (mkOMM (fst (DeleteGroup g (offsets omm))) (metadata omm), 0)
  | Cleanup now retention => CleanupExpiredOffsets now retention omm
  end.

Abbreviation flat_state := (gmap key Z * gmap key OffsetMetadata)%type.

Definition of_group (a : string) (k : key) : Prop := fst (fst k) = a.
#[local] Instance of_group_dec a k : Decision (of_group a k) := decide (fst (fst k) = a).

(** The same operation on the flat maps. *)
Definition run_flat (o : op) (f : flat_state) : flat_state * Z :=
  let '(offs, md) := f in
  match o with
  | Commit g t p x => ((<[(g, t, p) := x]> offs, md), 0)
  | CommitMeta now g t p x m => ((<[(g, t, p) := x]> offs, <[(g, t, p) := mkOffsetMetadata x m now]> md), 0)
  | Delete g => ((filter (fun kv : key * Z => ~ of_group g (fst kv)) offs, md), 0)
  | Cleanup now retention =>
    let young := filter (fun kv : key * OffsetMetadata => now - retention <= om_Timestamp (snd kv)) md in
    let gone := groups_of md ∖ groups_of young in
    ((filter (fun kv : key * Z => fst (fst (fst kv)) ∉ gone) offs, young),
     Z.of_nat (size md) - Z.of_nat (size young))
  end.

Definition abs (omm : OffsetManagerWithMetadata) : flat_state :=
  (flatten (offsets omm), flatten (metadata omm)).

Definition wf (omm : OffsetManagerWithMetadata) : Prop := tight (metadata omm).

Lemma groups_of_flatten a omm :
  wf omm ->
  a ∈ groups_of (flatten (metadata omm)) <-> is_Some (metadata omm !! a).
Proof.
  intros Hw. rewrite elem_of_groups_of. setoid_rewrite lookup_flatten. split.
  - intros (b & c & v & Hv). unfold lookup3 in Hv. destruct (metadata omm !! a); [by eexists|done].
  - intros [ts Hts]. by eapply tight_entry.
Qed.

Lemma run_op_wf o omm : wf omm -> wf (fst (run_op o omm)).
Proof.
  intros Hw. destruct o; cbn [run_op fst]; [exact Hw|by apply tight_put3|exact Hw|apply sweep_tight].
Qed.

Lemma delete_flat g om :
  flatten (fst (DeleteGroup g om)) = filter (fun kv : key * Z => ~ of_group g (fst kv)) (flatten om).
Proof.
  apply map_eq. intros [[a b] c]. rewrite lookup_flatten, lookup_filter_if, lookup_flatten.
  unfold DeleteGroup, of_group, lookup3. cbn [fst]. destruct (decide (a = g)) as [->|Hne].
  - destruct (om !! g) eqn:E; cbn [fst]; [rewrite lookup_delete_eq|by rewrite E].
    cbn. destruct (_ ≫= _) as [x|]; [|done]. by rewrite decide_False by (intros H; by apply H).
  - destruct (om !! g); cbn [fst]; [rewrite lookup_delete_ne by done|].
    all: destruct (om !! a ≫= _) as [x|]; [|done]; by rewrite decide_True.
Qed.

Lemma sweep_young now retention omm :
  wf omm ->
  flatten (metadata (fst (CleanupExpiredOffsets now retention omm)))
  = filter (fun kv : key * OffsetMetadata => now - retention <= om_Timestamp (snd kv))
      (flatten (metadata omm)).
Proof.
  intros Hw. apply map_eq. intros [[a b] c].
  rewrite lookup_flatten, lookup_filter_if, lookup_flatten, sweep_lookup3 by done.
  destruct (lookup3 a b c (metadata omm)) as [v|]; cbn; [|done]. unfold expired.
  destruct (Z.ltb_spec (om_Timestamp v) (now - retention)); case_decide; done || lia.
Qed.

Lemma run_op_abs o omm :
  wf omm -> let '(omm', n) := run_op o omm in run_flat o (abs omm) = (abs omm', n).
Proof.
  intros Hw. destruct o as [g t p x|now g t p x md|g|now retention]; cbn [run_op run_flat].
  - unfold abs, CommitOffset. cbn [offsets metadata]. by rewrite flatten_put3.
  - unfold abs, CommitOffsetWithMetadata, CommitOffset. cbn [offsets metadata]. by rewrite !flatten_put3.
  - unfold abs. cbn [offsets metadata]. by rewrite delete_flat.
  - pose proof (sweep_young now retention omm Hw) as Hy.
    pose proof (sweep_count now retention omm) as Hn. rewrite !total_size in Hn.
    pose proof (sweep_tight now retention omm) as Hw'.
    pose proof (sweep_offsets now retention omm) as Ho.
    destruct (CleanupExpiredOffsets now retention omm) as [omm' n]. cbn [fst snd] in *.
    unfold abs, run_flat. cbn zeta. rewrite <-Hy, <-Hn. do 2 f_equal.
    apply map_eq. intros [[a b] c]. rewrite lookup_filter_if, !lookup_flatten. unfold lookup3.
    rewrite Ho. cbn [fst].
    assert (a ∈ groups_of (flatten (metadata omm)) ∖ groups_of (flatten (metadata omm'))
      <-> is_Some (metadata omm !! a) /\ metadata omm' !! a = None) as Hgone.
    { rewrite elem_of_difference, groups_of_flatten, (groups_of_flatten a omm'), eq_None_not_Some; done. }
    destruct (decide (is_Some (metadata omm !! a) /\ metadata omm' !! a = None)) as [E|E]; cbn.
    + destruct (offsets omm !! a ≫= _) as [x|]; [|done].
      rewrite decide_False; [done|]. intros G. by apply G, Hgone.
    + destruct (offsets omm !! a ≫= _) as [x|]; [|done].
      rewrite decide_True; [done|]. intros G. by apply E, Hgone.
Qed.

Fixpoint run_ops (ops : list op) (omm : OffsetManagerWithMetadata) : OffsetManagerWithMetadata * list Z :=
  match ops with
  | [] => (omm, [])
  | o :: ops => let '(omm, n) := run_op o omm in
                let '(omm, ns) := run_ops ops omm in (omm, n :: ns)
  end.
Fixpoint run_flats (ops : list op) (f : flat_state) : flat_state * list Z :=
  match ops with
  | [] => (f, [])
  | o :: ops => let '(f, n) := run_flat o f in
                let '(f, ns) := run_flats ops f in (f, n :: ns)
  end.

Lemma run_ops_abs ops : forall omm, wf omm ->
  run_flats ops (abs omm) = (abs (fst (run_ops ops omm)), snd (run_ops ops omm)).
Proof.
  induction ops as [|o ops IH]; intros omm Hw; [done|]. cbn [run_ops run_flats].
  pose proof (run_op_abs o omm Hw) as E. pose proof (run_op_wf o omm Hw) as Hw'.
  destruct (run_op o omm) as [omm' n]. rewrite E. cbn [fst] in Hw'. rewrite IH by done.
  by destruct (run_ops ops omm').
Qed.

(** C14: the offset manager is a flat map.  For every sequence of commits,
    deletions and retention sweeps on a new manager, sweeps return the number
    of entries they drop, and afterwards a fetch of an offset or of its
    metadata returns what the flat maps keyed by group, topic and partition
    hold after the same operations, or an error if they hold nothing.  The
    flat sweep keeps exactly the metadata that is young enough, and forgets the
    offsets of exactly the groups it leaves without metadata. *)
Theorem offsets_refine_flat ops g t p :
  let '(omm, ns) := run_ops ops NewOffsetManagerWithMetadata in
  let '((offs, md), ns') := run_flats ops (∅, ∅) in
  ns = ns'
  /\ match offs !! (g, t, p) with
     | Some x => FetchOffset g t p (offsets omm) = (x, None)
     | None => exists e, FetchOffset g t p (offsets omm) = (-1, Some e)
     end
  /\ match md !! (g, t, p) with
     | Some m => FetchOffsetMetadata g t p omm = Ok m
     | None => exists e, FetchOffsetMetadata g t p omm = Err e
     end.
Proof.
  assert (wf NewOffsetManagerWithMetadata) as Hw by (intros a ts H; cbn [metadata NewOffsetManagerWithMetadata] in H; by rewrite lookup_empty in H).
  pose proof (run_ops_abs ops _ Hw) as E. change (abs NewOffsetManagerWithMetadata)
    with ((∅, ∅) : flat_state) in E. rewrite E.
  destruct (run_ops ops NewOffsetManagerWithMetadata) as [omm ns]. cbn [fst snd]. unfold abs.
  split; [done|]. unfold FetchOffset, FetchOffsetMetadata. rewrite !lookup_flatten. split.
  - destruct (lookup3 g t p (offsets omm)) eqn:El.
    + apply get3_lookup3 in El. by rewrite El.
    + apply get3_None in El as [e ->]. by eexists.
  - destruct (lookup3 g t p (metadata omm)) eqn:El; [by apply get3_lookup3|by apply get3_None].
Qed.

(** The deep copy of a group is the group. *)
Lemma FetchAllOffsets_copy g om :
  FetchAllOffsets g om = match om !! g with Some ts => Ok ts | None => Err (GroupNotFound g) end.
Proof.
  unfold FetchAllOffsets. destruct (om !! g) as [ts|]; [|done]. f_equal.
  assert (forall ps : gmap Z Z, map_fold (fun p o r => <[p := o]> r) ∅ ps = ps) as Hcopy.
  { intros ps. induction ps as [|k v ps Hk Hf IH] using map_first_key_ind; [done|].
    by rewrite map_fold_insert_first_key, IH. }
  induction ts as [|k v ts Hk Hf IH] using map_first_key_ind; [done|].
  by rewrite map_fold_insert_first_key, IH, Hcopy.
Qed.

(** An expired offset stays fetchable while its group has a younger one. *)
Example expired_offset_survives :
  let omm := fst (run_ops [CommitMeta 0 "g" "t" 0 7 ""; CommitMeta 100 "g" "t" 1 8 ""; Cleanup 150 100]
                    NewOffsetManagerWithMetadata) in
  FetchOffset "g" "t" 0 (offsets omm) = (7, None)
  /\ FetchOffsetMetadata "g" "t" 0 omm = Err PartitionNotFound.
Proof. split; vm_compute; reflexivity. Qed.

End OffsetsSpec.
