(* ===== verification/Ids.v ===== *)
(** * Identifiers ([src/pkg/common/idgen.go], [src/pkg/types/ulid.go])

    The counters behind Kafka and AMQP message ids, the two decimal printers,
    and ULIDs with their Base32 text.  The clock and the random bytes are
    arguments; the pools of byte buffers only save allocations.  Base32 is the
    encoding of [encoding/base32] for the alphabet of the source, without
    padding. *)
From stdpp Require Import base strings list numbers pretty.
From Stdlib Require Import ZArith Lia.
From S2P Require Import Prelude Types.

Module Ids.

Definition string_of_bytes (b : bytes) : string :=
  String.string_of_list_ascii ((fun z => Ascii.ascii_of_nat (Z.to_nat z)) <$> b).

(** ** Counters *)

Record IDGenerator := mkGen { counter : Z; prefix : Z }.

Definition prefix_number (name : string) : Z :=
  if decide (name = "kafka") then 1 else if decide (name = "amqp") then 2 else 0.

(** [unix] is the time of creation in seconds, an int64. *)
Definition NewIDGenerator (unix : Z) (name : string) : IDGenerator :=
  mkGen 0 (Z.lor (u64 (Z.shiftl (prefix_number name) 56)) (u64 (s64 (Z.shiftl unix 24)))).

Definition Next (g : IDGenerator) : IDGenerator * Z :=
  let c := u64 (counter g + 1) in
  (mkGen c (prefix g), Z.lor (prefix g) (Z.land c 0xFFFFFF)).

(** ** Decimal printers *)

Definition digit (n : Z) : Z := n mod 10 + 48.

(** [common.itoa]: digits are appended and then reversed in place. *)
Fixpoint push_digits (fuel : nat) (n : Z) (buf : bytes) : exec bytes :=
  if n >? 0 then
    match fuel with
    | O => OutOfFuel
    | S fuel => push_digits fuel (n / 10) (buf ++ [u8 (48 + n mod 10)])
    end
  else Ret buf.

(** [for i, j := 0, len-1; i < j; i, j = i+1, j-1 { buf[i], buf[j] = buf[j], buf[i] }] *)
Fixpoint swap_loop (fuel : nat) (i j : Z) (buf : bytes) : exec bytes :=
  if i <? j then
    match fuel with
    | O => OutOfFuel
    | S fuel =>
      match buf !! Z.to_nat i, buf !! Z.to_nat j with
      | Some x, Some y =>
        swap_loop fuel (i + 1) (j - 1) (<[Z.to_nat j := x]> (<[Z.to_nat i := y]> buf))
      | _, _ => Panic
      end
    end
  else Ret buf.

Definition common_itoa (n : Z) : exec string :=
  if n =? 0 then Ret "0" else
  do! buf := push_digits 20 n [] in
  do! buf := swap_loop 20 0 (Z.of_nat (length buf) - 1) buf in
  Ret (string_of_bytes buf).

(** [FormatID] *)
Definition FormatID (prefix : string) (id : Z) : exec string :=
  do! s := common_itoa id in Ret (prefix +:+ "-" +:+ s).

(** [types.itoa]: a buffer of 20 bytes filled from the end. *)
Fixpoint fill_digits (fuel : nat) (n i : Z) (buf : bytes) : exec (Z * bytes) :=
  if n >? 0 then
    match fuel with
    | O => OutOfFuel
    | S fuel =>
      let i := i - 1 in
      if (0 <=? i) && (i <? Z.of_nat (length buf))
      then fill_digits fuel (n / 10) i (<[Z.to_nat i := u8 (u8 (n mod 10) + 48)]> buf)
      else Panic
    end
  else Ret (i, buf).

Definition itoa (n : Z) : exec string :=
  if n =? 0 then Ret "0" else
  do! (i, buf) := fill_digits 21 n 20 (replicate 20 0) in
  Ret (string_of_bytes (drop (Z.to_nat i) buf)).

(** [NumericIDGenerator] *)
Definition NumericGenerate (counter : Z) : Z * exec string :=
  let c := u64 (counter + 1) in (c, itoa c).

(** ** Base32 and ULIDs *)

Definition alphabet : bytes :=
  [48; 49; 50; 51; 52; 53; 54; 55; 56; 57; 65; 66; 67; 68; 69; 70; 71; 72; 74; 75; 77; 78; 80; 81;
   82; 83; 84; 86; 87; 88; 89; 90].

(** The [k] 5-bit digits of [n], most significant first. *)
Fixpoint digits32 (k : nat) (n : Z) : list Z :=
  match k with
  | O => []
  | S k => (n / 32 ^ Z.of_nat k) mod 32 :: digits32 k n
  end.

(** The digits of a last, shorter group: bits padded with zeros to digits. *)
Definition tail_digits (b : bytes) : list Z :=
  match length b with
  | 1%nat => digits32 2 (Z.shiftl (be_get b) 2)
  | 2%nat => digits32 4 (Z.shiftl (be_get b) 4)
  | 3%nat => digits32 5 (Z.shiftl (be_get b) 1)
  | 4%nat => digits32 7 (Z.shiftl (be_get b) 3)
  | _ => []
  end.

Fixpoint encode_digits (b : bytes) : list Z :=
  match b with
  | b0 :: b1 :: b2 :: b3 :: b4 :: rest => digits32 8 (be_get [b0; b1; b2; b3; b4]) ++ encode_digits rest
  | tail => tail_digits tail
  end.

Definition encode_char (d : Z) : Z := nth (Z.to_nat d) alphabet 0.

Definition EncodeToString (b : bytes) : bytes := encode_char <$> encode_digits b.

(** The part of decoding that the source can reach: line breaks are dropped,
    and a character outside the alphabet is an error. *)
Definition line_break (c : Z) : bool := (c =? 10) || (c =? 13).
Definition corrupt (s : bytes) : bool :=
  existsb (fun c => negb (line_break c) && negb (bool_decide (c ∈ alphabet))) s.

(** The byte of a shifted int64. *)
Definition ms_bytes (ms : Z) : bytes :=
  [u8 (Z.shiftr ms 40); u8 (Z.shiftr ms 32); u8 (Z.shiftr ms 24); u8 (Z.shiftr ms 16);
   u8 (Z.shiftr ms 8); u8 ms].

(** [fastRand]: a linear congruential step on uint64. *)
Definition fastRand (state : Z) : Z := u64 (u64 (state * 1103515245) + 12345).

Fixpoint fallback_entropy (n : nat) (state : Z) : bytes * Z :=
  match n with
  | O => ([], state)
  | S n => let state := fastRand state in
           let '(bs, state) := fallback_entropy n state in (u8 state :: bs, state)
  end.

(** [rand.Read] fills the buffer or fails; [None] stands for the failure. *)
Definition entropy (n : nat) (random : option bytes) (state : Z) : bytes * Z :=
  match random with
  | Some bs => (bs, state)
  | None => fallback_entropy n state
  end.

Definition generateULID (ms : Z) (random : option bytes) (state : Z) : bytes * Z :=
  let '(e, state) := entropy 10 random state in
  (EncodeToString (ms_bytes ms ++ e), state).

(** [GenerateWithTimestamp] of [ULIDGenerator], for a time in nanoseconds. *)
Definition GenerateWithTimestamp (t : Z) (random : option bytes) (state : Z) : bytes * Z :=
  let ms := t / 1000000 in
  let '(e, state) := entropy 10 random state in
  (EncodeToString (ms_bytes ms ++ e), state).

Definition generateShortID (random : option bytes) (state : Z) : bytes * Z :=
  let '(e, state) := entropy 6 random state in (EncodeToString e, state).

Inductive ulid_error := InvalidULID | CorruptInput.

(** [decode] is the rest of [DecodeString], for input that is not corrupt. *)
Definition parseULIDTimestamp (decode : bytes -> bytes) (ulid : bytes) : res ulid_error Z :=
  if negb (Z.of_nat (length ulid) =? 26) then Err InvalidULID else
  let text := take 10 ulid ++ [61; 61; 61; 61; 61; 61] in
  if corrupt text then Err CorruptInput else
  let t := decode text in
  if Z.of_nat (length t) <? 6 then Err InvalidULID else
  Ok (be_get (take 6 t)).

End Ids.
