(* ===== verification/IdsSpec.v ===== *)
(** * Identifiers: uniqueness, printing and order

    When two generated ids coincide, both decimal printers are the standard
    one, ULIDs sort by their time as text, and their time cannot be read
    back. *)
From stdpp Require Import base strings list numbers pretty.
From Stdlib Require Import ZArith Lia.
From S2P Require Import Prelude Types Ids.

Module IdsSpec.
Import Ids.

(** ** Counters *)

(** [n] calls of [Next], the last id. *)
Definition nth_id (unix : Z) (name : string) (n : nat) : Z :=
  snd (Next (Nat.iter n (fun g => fst (Next g)) (NewIDGenerator unix name))).

Lemma iter_counter unix name n :
  Nat.iter n (fun g => fst (Next g)) (NewIDGenerator unix name)
  = mkGen (u64 (Z.of_nat n)) (prefix (NewIDGenerator unix name)).
Proof.
  induction n as [|n IH]; [done|]. rewrite Nat.iter_succ, IH. unfold Next. cbn [fst counter prefix].
  rewrite wrapu_add_l by lia. f_equal. f_equal. lia.
Qed.

Lemma lor_disjoint a b k : 0 <= k -> 0 <= b < 2 ^ k -> Z.lor (a * 2 ^ k) b = a * 2 ^ k + b.
Proof.
  intros Hk Hb. symmetry. rewrite <-Z.add_lor_land. replace (Z.land (a * 2 ^ k) b) with 0; [lia|].
  apply Z.bits_inj'. intros i Hi. rewrite Z.bits_0, Z.land_spec. symmetry.
  destruct (Z.lt_ge_cases i k).
  - rewrite Z.mul_pow2_bits_low by done. done.
  - rewrite <-(Z.mod_small b (2 ^ k)) by done. rewrite Z.mod_pow2_bits_high by lia. apply andb_false_r.
Qed.

Lemma nth_id_value unix name n :
  0 <= unix < 2 ^ 32 ->
  nth_id unix name n
  = (prefix_number name * 2 ^ 32 + unix) * 2 ^ 24 + Z.of_nat (S n) mod 2 ^ 24.
Proof.
  intros Hu. unfold nth_id. rewrite iter_counter. unfold Next. cbn [snd counter prefix].
  rewrite wrapu_add_l by lia. change 0xFFFFFF with (Z.ones 24). rewrite Z.land_ones by lia.
  assert (0 <= prefix_number name <= 2) as Hp by (unfold prefix_number; repeat case_decide; lia).
  unfold NewIDGenerator. cbn [prefix]. rewrite !Z.shiftl_mul_pow2 by lia.
  rewrite (wraps_small 64) by lia. rewrite !wrapu_small by lia.
  rewrite (lor_disjoint (prefix_number name) (unix * 2 ^ 24) 56) by lia.
  replace (prefix_number name * 2 ^ 56 + unix * 2 ^ 24)
    with ((prefix_number name * 2 ^ 32 + unix) * 2 ^ 24) by lia.
  assert (u64 (Z.of_nat n + 1) mod 2 ^ 24 = Z.of_nat (S n) mod 2 ^ 24) as ->.
  { unfold wrapu. replace (2 ^ 64) with (2 ^ 24 * 2 ^ 40) by done.
    rewrite Z.rem_mul_r by lia. rewrite (Z.mul_comm (2 ^ 24) ((_ / _) mod _)), Z.mod_add, Z.mod_mod by lia.
    f_equal. lia. }
  apply lor_disjoint; [lia|]. apply Z.mod_pos_bound. lia.
Qed.

(** When generated ids coincide.  For generators created at times below
    2^32 seconds, two ids are equal exactly if their generators are of the same
    kind and second and the calls are a multiple of 2^24 apart: Kafka and AMQP
    ids never meet, nor do ids of different seconds, and a generator repeats
    itself after 2^24 ids. *)
Theorem id_unique unix unix' name name' n n' :
  0 <= unix < 2 ^ 32 -> 0 <= unix' < 2 ^ 32 ->
  nth_id unix name n = nth_id unix' name' n'
  <-> prefix_number name = prefix_number name' /\ unix = unix'
      /\ Z.of_nat n mod 2 ^ 24 = Z.of_nat n' mod 2 ^ 24.
Proof.
  intros Hu Hu'. rewrite !nth_id_value by done.
  pose proof (Z.mod_pos_bound (Z.of_nat (S n)) (2 ^ 24)).
  pose proof (Z.mod_pos_bound (Z.of_nat (S n')) (2 ^ 24)).
  assert (Z.of_nat (S n) mod 2 ^ 24 = Z.of_nat (S n') mod 2 ^ 24
          <-> Z.of_nat n mod 2 ^ 24 = Z.of_nat n' mod 2 ^ 24) as <-.
  { rewrite !Nat2Z.inj_succ, <-!Z.add_1_r. split; intros E.
    - replace (Z.of_nat n) with (Z.of_nat n + 1 - 1) by lia.
      replace (Z.of_nat n') with (Z.of_nat n' + 1 - 1) by lia.
      by rewrite <-Zminus_mod_idemp_l, E, Zminus_mod_idemp_l.
    - by rewrite <-Zplus_mod_idemp_l, E, Zplus_mod_idemp_l. }
  split; [|intros (-> & -> & ->); done]. intros E. assert (2 ^ 24 > 0) by lia. nia.
Qed.

Lemma id_unique_witness :
  nth_id 1700000000 "kafka" 5 = nth_id 1700000000 "kafka" (5 + Z.to_nat (2 ^ 24)).
Proof.
  apply (id_unique 1700000000 1700000000 "kafka" "kafka" 5 (5 + Z.to_nat (2 ^ 24))); [lia|lia|].
  split; [reflexivity|]. split; [reflexivity|].
  rewrite Nat2Z.inj_add, Z2Nat.id by lia. reflexivity.
Defined.

(** ** Decimal printers *)

(** The digits of [n], most significant first, with enough fuel. *)
Fixpoint decimal (fuel : nat) (n : Z) : bytes :=
  match fuel with
  | O => []
  | S fuel => if n >? 0 then decimal fuel (n / 10) ++ [n mod 10 + 48] else []
  end.

Lemma decimal_step fuel n :
  0 < n -> decimal (S fuel) n = decimal fuel (n / 10) ++ [n mod 10 + 48].
Proof. intros. cbn [decimal]. destruct (Z.gtb_spec n 0); [done|lia]. Qed.

Lemma decimal_0 fuel : decimal fuel 0 = [].
Proof. by destruct fuel. Qed.

Lemma decimal_length fuel : forall n, (length (decimal fuel n) <= fuel)%nat.
Proof.
  induction fuel as [|fuel IH]; intros n; [done|]. cbn [decimal].
  destruct (n >? 0); [|cbn; lia]. rewrite length_app. specialize (IH (n / 10)). cbn. lia.
Qed.

Lemma div10_bound n fuel : 0 <= n < 10 ^ Z.of_nat (S fuel) -> 0 <= n / 10 < 10 ^ Z.of_nat fuel.
Proof.
  intros Hn. rewrite Nat2Z.inj_succ, Z.pow_succ_r in Hn by lia.
  split; [apply Z.div_pos; lia|apply Z.div_lt_upper_bound; lia].
Qed.

Lemma digit_byte n : u8 (48 + n mod 10) = n mod 10 + 48 /\ u8 (u8 (n mod 10) + 48) = n mod 10 + 48.
Proof.
  pose proof (Z.mod_pos_bound n 10). split; [rewrite wrapu_small; lia|].
  rewrite (wrapu_small 8 (n mod 10)), wrapu_small; lia.
Qed.

Lemma push_digits_spec fuel : forall n buf,
  0 <= n < 10 ^ Z.of_nat fuel -> push_digits fuel n buf = Ret (buf ++ rev (decimal fuel n)).
Proof.
  induction fuel as [|fuel IH]; intros n buf Hn.
  - cbn [push_digits]. destruct (Z.gtb_spec n 0); [cbn in Hn; lia|]. by rewrite app_nil_r.
  - cbn [push_digits decimal]. destruct (Z.gtb_spec n 0) as [H|H]; [|by rewrite app_nil_r].
    rewrite IH by by apply div10_bound. rewrite rev_app_distr, (proj1 (digit_byte n)). cbn [rev app].
    by rewrite <-app_assoc.
Qed.

Lemma fill_digits_spec fuel : forall n i buf,
  0 <= n < 10 ^ Z.of_nat fuel -> Z.of_nat (length (decimal fuel n)) <= i <= Z.of_nat (length buf) ->
  fill_digits fuel n i buf
  = Ret (i - Z.of_nat (length (decimal fuel n)),
         take (Z.to_nat (i - Z.of_nat (length (decimal fuel n)))) buf
         ++ decimal fuel n ++ drop (Z.to_nat i) buf).
Proof.
  induction fuel as [|fuel IH]; intros n i buf Hn Hi.
  - cbn [fill_digits]. destruct (Z.gtb_spec n 0); [cbn in Hn; lia|]. cbn [decimal length app].
    rewrite Z.sub_0_r. by rewrite take_drop.
  - cbn [fill_digits decimal] in *. destruct (Z.gtb_spec n 0) as [H|H].
    + rewrite length_app in Hi |- *. cbn [length] in *.
      replace ((0 <=? i - 1) && (i - 1 <? Z.of_nat (length buf))) with true
        by (symmetry; apply andb_true_iff; split; [apply Z.leb_le|apply Z.ltb_lt]; lia).
      rewrite IH; [|by apply div10_bound|rewrite length_insert; lia].
      rewrite (proj2 (digit_byte n)). f_equal. f_equal; [lia|].
      rewrite take_insert_ge by lia.
      rewrite drop_insert_ge, Nat.sub_diag by lia.
      replace (Z.to_nat (i - Z.of_nat (length (decimal fuel (n / 10)) + 1)))
        with (Z.to_nat (i - 1 - Z.of_nat (length (decimal fuel (n / 10))))) by lia.
      f_equal. rewrite <-app_assoc. f_equal.
      destruct (drop (Z.to_nat (i - 1)) buf) as [|x rest] eqn:E.
      { apply (f_equal length) in E. rewrite length_drop in E. cbn in E. lia. }
      cbn [insert list_insert app]. f_equal. apply (f_equal (drop 1)) in E. rewrite drop_drop in E.
      replace (Z.to_nat (i - 1) + 1)%nat with (Z.to_nat i) in E by lia. rewrite E. by destruct rest.
    + cbn [length app]. rewrite Z.sub_0_r. by rewrite take_drop.
Qed.

Lemma insert_middle (a : bytes) u v b n :
  n = length a -> <[n := v]> (a ++ u :: b) = a ++ v :: b.
Proof. intros ->. by rewrite insert_app_r_alt, Nat.sub_diag. Qed.

Lemma swap_loop_spec fuel : forall pre mid post,
  (length mid <= 2 * fuel)%nat ->
  swap_loop fuel (Z.of_nat (length pre)) (Z.of_nat (length pre) + Z.of_nat (length mid) - 1)
    (pre ++ mid ++ post) = Ret (pre ++ rev mid ++ post).
Proof.
  induction fuel as [|fuel IH]; intros pre mid post Hl.
  - destruct mid; [|cbn in Hl; lia]. cbn [swap_loop length].
    destruct (Z.ltb_spec (Z.of_nat (length pre)) (Z.of_nat (length pre) + Z.of_nat 0 - 1)); [lia|done].
  - cbn [swap_loop].
    destruct mid as [|x mid].
    { cbn [length]. destruct (Z.ltb_spec (Z.of_nat (length pre)) (Z.of_nat (length pre) + Z.of_nat 0 - 1));
        [lia|done]. }
    destruct (rev mid) as [|y r] eqn:E.
    { apply (f_equal length) in E. rewrite length_rev in E. destruct mid; [|done]. cbn [length].
      destruct (Z.ltb_spec (Z.of_nat (length pre)) (Z.of_nat (length pre) + Z.of_nat 1 - 1)); [lia|done]. }
    assert (mid = rev r ++ [y]) as -> by (rewrite <-(rev_involutive mid), E; done).
    set (m := rev r) in *. cbn [length]. rewrite length_app. cbn [length].
    destruct (Z.ltb_spec (Z.of_nat (length pre)) (Z.of_nat (length pre) + Z.of_nat (S (length m + 1)) - 1));
      [|lia].
    replace (Z.to_nat (Z.of_nat (length pre) + Z.of_nat (S (length m + 1)) - 1))
      with (length pre + S (length m))%nat by lia.
    rewrite Nat2Z.id. cbn [app]. rewrite <-app_assoc. cbn [app].
    rewrite list_lookup_middle by done.
    assert ((pre ++ x :: m ++ y :: post) !! (length pre + S (length m))%nat = Some y) as ->.
    { replace (pre ++ x :: m ++ y :: post) with ((pre ++ x :: m) ++ y :: post) by (by rewrite <-app_assoc).
      apply list_lookup_middle. rewrite length_app. done. }
    replace (<[(length pre + S (length m))%nat := x]> (<[length pre := y]> (pre ++ x :: m ++ y :: post)))
      with ((pre ++ [y]) ++ m ++ x :: post).
    2:{ rewrite (insert_middle pre x y) by done.
        replace (pre ++ y :: m ++ y :: post) with ((pre ++ y :: m) ++ y :: post) by (by rewrite <-app_assoc).
        rewrite insert_middle by (rewrite length_app; done). by rewrite <-!app_assoc. }
    replace (Z.of_nat (length pre) + 1) with (Z.of_nat (length (pre ++ [y])))
      by (rewrite length_app; cbn; lia).
    replace (Z.of_nat (length pre) + Z.of_nat (S (length m + 1)) - 1 - 1)
      with (Z.of_nat (length (pre ++ [y])) + Z.of_nat (length m) - 1)
      by (rewrite length_app; cbn; lia).
    rewrite IH by (cbn in Hl; rewrite length_app in Hl; cbn in Hl; lia).
    f_equal. rewrite <-app_assoc. cbn [app]. f_equal.
    change (rev (x :: m ++ [y])) with (rev (m ++ [y]) ++ [x]). rewrite rev_app_distr. cbn.
    by rewrite <-app_assoc.
Qed.

Lemma string_of_bytes_app a b :
  string_of_bytes (a ++ b) = string_of_bytes a +:+ string_of_bytes b.
Proof.
  unfold string_of_bytes. rewrite fmap_app. generalize ((fun z => Ascii.ascii_of_nat (Z.to_nat z)) <$> a).
  intros l. induction l as [|c l IH]; [done|]. exact (f_equal (String c) IH).
Qed.

Lemma string_app_assoc (a b c : string) : (a +:+ b) +:+ c = a +:+ b +:+ c.
Proof. induction a as [|x a IH]; [done|]. exact (f_equal (String x) IH). Qed.

Lemma string_app_nil_r (a : string) : a +:+ "" = a.
Proof. induction a as [|x a IH]; [done|]. exact (f_equal (String x) IH). Qed.

Lemma pretty_char_digit n : 0 <= n ->
  string_of_bytes [n mod 10 + 48] = String (pretty_N_char (Z.to_N n mod 10)) "".
Proof.
  intros Hn. replace (Z.to_N n mod 10)%N with (Z.to_N (n mod 10)) by (rewrite Z2N.inj_mod; lia || done).
  pose proof (Z.mod_pos_bound n 10). 
  assert (n mod 10 = 0 \/ n mod 10 = 1 \/ n mod 10 = 2 \/ n mod 10 = 3 \/ n mod 10 = 4 \/ n mod 10 = 5
    \/ n mod 10 = 6 \/ n mod 10 = 7 \/ n mod 10 = 8 \/ n mod 10 = 9) as Hd by lia.
  destruct Hd as [->|[->|[->|[->|[->|[->|[->|[->|[->| ->]]]]]]]]]; reflexivity.
Qed.

Lemma decimal_pretty fuel : forall n s, 0 <= n < 10 ^ Z.of_nat fuel ->
  string_of_bytes (decimal fuel n) +:+ s = pretty_N_go (Z.to_N n) s.
Proof.
  induction fuel as [|fuel IH]; intros n s Hn.
  - cbn in Hn. replace n with 0 by lia. by rewrite pretty_N_go_0.
  - cbn [decimal]. destruct (Z.gtb_spec n 0) as [H|H].
    + rewrite pretty_N_go_step by lia. rewrite string_of_bytes_app, string_app_assoc.
      rewrite IH by by apply div10_bound. rewrite pretty_char_digit by lia.
      rewrite Z2N.inj_div by lia. done.
    + replace n with 0 by lia. by rewrite pretty_N_go_0.
Qed.

(** C24: both printers are decimal notation.  For every uint64 the append-and-
    reverse printer of [common] and the fill-from-the-end printer of [types]
    finish within 20 digits, never index out of range, and return the standard
    decimal text of the number. *)
Theorem itoa_decimal n :
  0 <= n < 2 ^ 64 -> common_itoa n = Ret (pretty (Z.to_N n)) /\ itoa n = Ret (pretty (Z.to_N n)).
Proof.
  intros Hn. unfold common_itoa, itoa. destruct (Z.eqb_spec n 0) as [->|Hne]; [done|].
  assert (pretty (Z.to_N n) = string_of_bytes (decimal 20 n)) as Hp.
  { rewrite <-(string_app_nil_r (string_of_bytes _)), decimal_pretty by lia.
    unfold pretty, pretty_N. rewrite decide_False by lia. done. }
  assert (decimal 21 n = decimal 20 n) as H21.
  { assert (forall fuel k, 0 <= k < 10 ^ Z.of_nat fuel -> decimal (S fuel) k = decimal fuel k) as Hd.
    { induction fuel as [|fuel IH]; intros k Hk.
      - cbn in Hk. by replace k with 0 by lia.
      - cbn [decimal] in IH |- *. destruct (k >? 0); [|done]. f_equal. by apply IH, div10_bound. }
    apply Hd. lia. }
  split.
  - rewrite push_digits_spec by lia. cbn [app]. rewrite length_rev.
    pose proof (swap_loop_spec 20 [] (rev (decimal 20 n)) []) as E. cbn [app length] in E.
    rewrite !app_nil_r, rev_involutive, length_rev in E. change (Z.of_nat 0) with 0 in E.
    rewrite Z.add_0_l in E. rewrite E; [by rewrite Hp|].
    pose proof (decimal_length 20 n). lia.
  - rewrite fill_digits_spec.
    + rewrite H21, drop_app_length'.
      * by rewrite drop_ge, app_nil_r, Hp by (rewrite length_replicate; lia).
      * rewrite length_take, length_replicate. pose proof (decimal_length 20 n). lia.
    + lia.
    + rewrite H21. pose proof (decimal_length 20 n). rewrite length_replicate. lia.
Qed.

Lemma itoa_decimal_witness :
  common_itoa 18446744073709551615 = Ret "18446744073709551615"
  /\ itoa 18446744073709551615 = Ret "18446744073709551615".
Proof. apply (itoa_decimal 18446744073709551615). lia. Defined.

(** ** ULIDs *)

(** Go compares strings byte by byte. *)
Inductive lex_lt : bytes -> bytes -> Prop :=
| lex_nil y l : lex_lt [] (y :: l)
| lex_here x y l k : x < y -> lex_lt (x :: l) (y :: k)
| lex_there x l k : lex_lt l k -> lex_lt (x :: l) (x :: k).

Lemma lex_lt_prefix a l k : lex_lt l k -> lex_lt (a ++ l) (a ++ k).
Proof. intros H. induction a; [done|]. by apply lex_there. Qed.

Lemma lex_lt_app a b l k : length a = length b -> lex_lt a b -> lex_lt (a ++ l) (b ++ k).
Proof.
  intros Hl H. revert Hl. induction H; intros Hl; cbn in *; [done|by apply lex_here|].
  apply lex_there. apply IHlex_lt. lia.
Qed.

Lemma lex_lt_fmap (f : Z -> Z) (P : Z -> Prop) a b :
  (forall x y, P x -> P y -> x < y -> f x < f y) ->
  Forall P a -> Forall P b -> lex_lt a b -> lex_lt (f <$> a) (f <$> b).
Proof.
  intros Hf Ha Hb H. induction H; cbn.
  - apply lex_nil.
  - inversion Ha; inversion Hb; subst. apply lex_here. by apply Hf.
  - inversion Ha; inversion Hb; subst. apply lex_there. by apply IHlex_lt.
Qed.

Definition digit32 (d : Z) : Prop := 0 <= d < 32.

Lemma digits32_ok k n : Forall digit32 (digits32 k n).
Proof. induction k; constructor; [|done]. apply Z.mod_pos_bound. lia. Qed.

Lemma digits32_length k n : length (digits32 k n) = k.
Proof. induction k; cbn; auto. Qed.

(** Only the low digits matter. *)
Lemma digits32_mod k : forall n m, n mod 32 ^ Z.of_nat k = m mod 32 ^ Z.of_nat k ->
  digits32 k n = digits32 k m.
Proof.
  induction k as [|k IH]; intros n m E; [done|]. cbn [digits32].
  rewrite Nat2Z.inj_succ, Z.pow_succ_r in E by lia.
  assert (0 < 32 ^ Z.of_nat k) as Hp by lia.
  rewrite (Z.mul_comm 32), !Z.rem_mul_r in E by lia.
  pose proof (Z.mod_pos_bound n (32 ^ Z.of_nat k)). pose proof (Z.mod_pos_bound m (32 ^ Z.of_nat k)).
  pose proof (Z.mod_pos_bound (n / 32 ^ Z.of_nat k) 32).
  pose proof (Z.mod_pos_bound (m / 32 ^ Z.of_nat k) 32).
  assert ((n / 32 ^ Z.of_nat k) mod 32 = (m / 32 ^ Z.of_nat k) mod 32) as Eq by nia.
  rewrite Eq. f_equal. apply IH. nia.
Qed.

(** Fixed-width digits compare like the numbers. *)
Lemma digits32_lt k : forall n m, 0 <= n -> n < m -> m < 32 ^ Z.of_nat k ->
  lex_lt (digits32 k n) (digits32 k m).
Proof.
  induction k as [|k IH]; intros n m H0 Hlt Hm; [cbn in Hm; lia|]. cbn [digits32].
  rewrite Nat2Z.inj_succ, Z.pow_succ_r in Hm by lia. assert (0 < 32 ^ Z.of_nat k) as Hp by lia.
  set (b := 32 ^ Z.of_nat k) in *.
  assert (0 <= n / b /\ m / b < 32) as [? ?].
  { split; [apply Z.div_pos; lia|apply Z.div_lt_upper_bound; lia]. }
  pose proof (Z.div_le_mono n m b Hp ltac:(lia)) as Hle.
  rewrite !(Z.mod_small (_ / b)) by lia.
  destruct (Z.eq_dec (n / b) (m / b)) as [E|]; [|apply lex_here; lia].
  rewrite E. apply lex_there.
  rewrite (digits32_mod k n (n mod b)), (digits32_mod k m (m mod b)) by (by rewrite Z.mod_mod by lia).
  pose proof (Z.div_mod n b). pose proof (Z.div_mod m b).
  apply IH; [apply Z.mod_pos_bound; lia|nia|apply Z.mod_pos_bound; lia].
Qed.

Lemma encode_char_mono x y : digit32 x -> digit32 y -> x < y -> encode_char x < encode_char y.
Proof.
  intros Hx Hy Hlt. unfold encode_char.
  assert (forall i j, (i < j)%nat -> (j < 32)%nat -> nth i alphabet 0 < nth j alphabet 0) as Hm.
  { assert (forall i, (i < 31)%nat -> nth i alphabet 0 < nth (S i) alphabet 0) as Hs.
    { intros i Hi. do 31 (destruct i as [|i]; [cbn; lia|]). lia. }
    intros i j Hij Hj. induction j as [|j IHj]; [lia|].
    destruct (decide (i = j)) as [->|]; [apply Hs; lia|].
    etransitivity; [apply IHj; lia|apply Hs; lia]. }
  unfold digit32 in *. apply Hm; lia.
Qed.

Lemma ms_bytes_put ms : ms_bytes ms = be_put 5 (ms / 256) ++ [ms mod 256].
Proof.
  unfold ms_bytes, be_put. cbn [le_put rev app]. rewrite !Z.shiftr_div_pow2 by lia. unfold wrapu.
  rewrite !Z.div_div by lia. reflexivity.
Qed.

Lemma be_get_5 a b c d e : be_get [a; b; c; d; e] = (((a * 256 + b) * 256 + c) * 256 + d) * 256 + e.
Proof. unfold be_get. cbn [rev app le_get]. lia. Qed.

Lemma be_put_5 z : exists a b c d e,
  be_put 5 z = [a; b; c; d; e] /\ be_get [a; b; c; d; e] = z mod 2 ^ 40.
Proof.
  pose proof (be_put_length 5 z) as Hl. pose proof (be_get_put 5 z) as Hg.
  destruct (be_put 5 z) as [|a [|b [|c [|d [|e [|]]]]]]; try discriminate Hl.
  by exists a, b, c, d, e.
Qed.

(** The text of a ULID is 26 characters: the time, in two groups with the
    entropy behind it. *)
Lemma ulid_digits ms e : length e = 10%nat ->
  exists rest, length rest = 10%nat /\ Forall digit32 rest /\
    encode_digits (ms_bytes ms ++ e)
    = digits32 8 ((ms / 256) mod 2 ^ 40) ++ digits32 8 (be_get (ms mod 256 :: take 4 e)) ++ rest.
Proof.
  intros He. rewrite ms_bytes_put. destruct (be_put_5 (ms / 256)) as (a & b & c & d & x & -> & Hg).
  do 10 (destruct e as [|? e]; [discriminate He|]). destruct e; [|discriminate He].
  cbn [app encode_digits take]. rewrite Hg. eexists. split; [|split]; [..|reflexivity].
  - rewrite length_app, digits32_length. reflexivity.
  - apply Forall_app. split; apply digits32_ok.
Qed.

(** C25: ULIDs sort by time.  Of two ULIDs generated with different
    millisecond times below 2^48, the earlier one is the smaller string,
    whatever the entropy; both have 26 characters. *)
Theorem ulid_sorted ms1 ms2 e1 e2 state1 state2 :
  0 <= ms1 -> ms1 < ms2 -> ms2 < 2 ^ 48 ->
  length e1 = 10%nat -> length e2 = 10%nat -> bytes_ok e1 -> bytes_ok e2 ->
  let u1 := fst (generateULID ms1 (Some e1) state1) in
  let u2 := fst (generateULID ms2 (Some e2) state2) in
  lex_lt u1 u2 /\ length u1 = 26%nat /\ length u2 = 26%nat.
Proof.
  intros H0 Hlt H48 Hl1 Hl2 Hb1 Hb2 u1 u2. unfold u1, u2, generateULID. cbn [entropy fst].
  unfold EncodeToString.
  destruct (ulid_digits ms1 e1 Hl1) as (r1 & Hr1 & Hd1 & ->).
  destruct (ulid_digits ms2 e2 Hl2) as (r2 & Hr2 & Hd2 & ->).
  rewrite !length_fmap, !length_app, !digits32_length, Hr1, Hr2. split; [|done].
  apply (lex_lt_fmap encode_char digit32); [apply encode_char_mono|..].
  1, 2: repeat (apply Forall_app; split); done || apply digits32_ok.
  pose proof (Z.div_le_mono ms1 ms2 256 ltac:(lia) ltac:(lia)) as Hle.
  assert (ms2 / 256 < 2 ^ 40) by (apply Z.div_lt_upper_bound; lia).
  assert (0 <= ms1 / 256) by (apply Z.div_pos; lia).
  rewrite !(Z.mod_small (_ / 256)) by lia.
  destruct (Z.eq_dec (ms1 / 256) (ms2 / 256)) as [E|].
  - rewrite E. apply lex_lt_prefix, lex_lt_app; [by rewrite !digits32_length|].
    pose proof (Z.div_mod ms1 256). pose proof (Z.div_mod ms2 256).
    pose proof (Z.mod_pos_bound ms1 256). pose proof (Z.mod_pos_bound ms2 256).
    do 4 (destruct e1 as [|? e1]; [discriminate Hl1|]). do 4 (destruct e2 as [|? e2]; [discriminate Hl2|]).
    cbn [take]. rewrite !be_get_5. unfold bytes_ok in *. rewrite !Forall_cons in Hb1, Hb2.
    unfold byte_ok in *. change (32 ^ Z.of_nat 8) with (2 ^ 40).
    apply digits32_lt; [nia|nia|change (32 ^ Z.of_nat 8) with (2 ^ 40); nia].
  - apply lex_lt_app; [by rewrite !digits32_length|].
    apply digits32_lt; [lia|lia|change (32 ^ Z.of_nat 8) with (2 ^ 40); lia].
Qed.

Definition some_entropy : bytes := [255; 255; 255; 255; 255; 255; 255; 255; 255; 255].
Definition zero_entropy : bytes := [0; 0; 0; 0; 0; 0; 0; 0; 0; 0].

Lemma ulid_sorted_witness :
  lex_lt (fst (generateULID 1700000000255 (Some some_entropy) 0))
         (fst (generateULID 1700000000256 (Some zero_entropy) 0))
  /\ length (fst (generateULID 1700000000255 (Some some_entropy) 0)) = 26%nat
  /\ length (fst (generateULID 1700000000256 (Some zero_entropy) 0)) = 26%nat.
Proof.
  apply (ulid_sorted 1700000000255 1700000000256 some_entropy zero_entropy 0 0);
    [lia|lia|lia|reflexivity|reflexivity|..]; repeat constructor; unfold byte_ok; lia.
Defined.

(** No text can be read back: the padding characters the parser adds are
    not in the unpadded encoding's alphabet. *)
Lemma ulid_time_unreadable decode ulid : exists e, parseULIDTimestamp decode ulid = Err e.
Proof.
  unfold parseULIDTimestamp. destruct (negb _); [by eexists|].
  assert (corrupt (take 10 ulid ++ [61; 61; 61; 61; 61; 61]) = true) as ->; [|by eexists].
  unfold corrupt. rewrite existsb_app. apply orb_true_iff. right. reflexivity.
Qed.

End IdsSpec.
