(* ===== verification/Processor.v ===== *)
(** * The message processor ([src/pkg/processor/processor.go], [metrics.go])

    What a worker does with a task: validation, conversion to the pooled
    message of [src/pkg/memory/pool.go], compression, checksum and conversion
    back; the delivery of results; events and worker health.  The compressors
    of the source copy their input, so they are the identity.

    A Go slice is a byte list; where the source tells a nil slice from an empty
    one, a message comes with a flag.  Pointers to messages may be nil
    ([None]).  Latencies are measurements of the clock and left out.  Ranging
    over a string decodes UTF-8 ([runes]). *)
From stdpp Require Import base gmap strings list numbers fin_maps pretty.
From Stdlib Require Import ZArith Lia.
From S2P Require Import Prelude Types Wal Wire Ids.

Module Processor.
Import Types.

(** ** Runes of a string *)

(** The sequence length and the range of the second byte, by the first byte. *)
Definition lead (b : Z) : option (nat * Z * Z) :=
  if (0xC2 <=? b) && (b <=? 0xDF) then Some (2%nat, 0x80, 0xBF)
  else if b =? 0xE0 then Some (3%nat, 0xA0, 0xBF)
  else if b =? 0xED then Some (3%nat, 0x80, 0x9F)
  else if (0xE1 <=? b) && (b <=? 0xEF) then Some (3%nat, 0x80, 0xBF)
  else if b =? 0xF0 then Some (4%nat, 0x90, 0xBF)
  else if (0xF1 <=? b) && (b <=? 0xF3) then Some (4%nat, 0x80, 0xBF)
  else if b =? 0xF4 then Some (4%nat, 0x80, 0x8F)
  else None.

Definition within (lo hi b : Z) : bool := (lo <=? b) && (b <=? hi).
Definition RuneError : Z := 0xFFFD.

(** The first rune of a non-empty string and its width. *)
Definition decode_rune (b : Z) (rest : bytes) : Z * nat :=
  if b <? 0x80 then (b, 1%nat) else
  match lead b, rest with
  | Some (2%nat, lo, hi), b1 :: _ =>
    if within lo hi b1 then ((b mod 32) * 64 + b1 mod 64, 2%nat) else (RuneError, 1%nat)
  | Some (3%nat, lo, hi), b1 :: b2 :: _ =>
    if within lo hi b1 && within 0x80 0xBF b2
    then (((b mod 16) * 64 + b1 mod 64) * 64 + b2 mod 64, 3%nat) else (RuneError, 1%nat)
  | Some (4%nat, lo, hi), b1 :: b2 :: b3 :: _ =>
    if within lo hi b1 && within 0x80 0xBF b2 && within 0x80 0xBF b3
    then ((((b mod 8) * 64 + b1 mod 64) * 64 + b2 mod 64) * 64 + b3 mod 64, 4%nat) else (RuneError, 1%nat)
  | _, _ => (RuneError, 1%nat)
  end.

(** [skip] bytes belong to the rune decoded last. *)
Fixpoint runes_go (skip : nat) (s : bytes) : list Z :=
  match s with
  | [] => []
  | b :: s =>
    match skip with
    | S skip => runes_go skip s
    | O => let '(r, w) := decode_rune b s in r :: runes_go (w - 1) s
    end
  end.
Definition runes (s : string) : list Z := runes_go 0 (Wire.bytes_of_string s).

(** [hash]: a uint64 polynomial over the runes. *)
Definition hash (s : string) : Z := foldl (fun h c => u64 (u64 (h * 31) + c)) 0 (runes s).

(** ** Configuration and data *)

Record ProcessorConfig := mkConfig {
  WorkerCount : Z;
  QueueSize : Z;
  BatchSize : Z;
  EnableCompression : bool;
  CompressionLevel : Z;
  CompressionAlgorithm : string;
  EnableBackpressure : bool;
  EnableSIMD : bool;
  EnableZeroCopy : bool
}.

(** The threshold 0.8 of backpressure and the timeouts are left out. *)
Definition DefaultProcessorConfig : ProcessorConfig :=
  mkConfig 8 10000 100 true 6 "zstd" true true true.

(** The pooled message of the memory package. *)
Record Message := mkPooled {
  p_ID : Z;
  p_Topic : string;
  p_Partition : Z;
  p_Offset : Z;
  p_Key : bytes;
  p_Value : bytes;
  p_Headers : gmap string bytes;
  p_Timestamp : Z;
  p_Checksum : Z;
  pooled : bool
}.

(** A new message of the pool's [New]. *)
Definition new_pooled : Message := mkPooled 0 "" 0 0 [] [] ∅ 0 0 true.

Definition Message_Reset (m : Message) : Message :=
  mkPooled 0 "" 0 0 (take 0 (p_Key m)) (take 0 (p_Value m))
    (map_fold (fun k _ h => delete k h) (p_Headers m) (p_Headers m)) 0 0 (pooled m).

Definition set_pooled (b : bool) (m : Message) : Message :=
  mkPooled (p_ID m) (p_Topic m) (p_Partition m) (p_Offset m) (p_Key m) (p_Value m) (p_Headers m)
    (p_Timestamp m) (p_Checksum m) b.

(** [MessagePool]: the idle messages, with the counters. *)
Record MessagePool := mkPool {
  idle : list Message;
  gets : Z; puts : Z; hits : Z; misses : Z;
  capacity : Z
}.
Definition NewMessagePool (capacity : Z) : MessagePool := mkPool [] 0 0 0 0 capacity.

(** [sync.Pool.Get] may return any idle object or none ([choice]). *)
Definition Pool_Get (choice : option nat) (mp : MessagePool) : MessagePool * Message :=
  let taken := match choice with Some i => idle mp !! i | None => None end in
  let '(rest, m, miss) :=
    match choice, taken with
    | Some i, Some m => (take i (idle mp) ++ drop (S i) (idle mp), m, 0)
    | _, _ => (idle mp, new_pooled, 1)
    end in
  (mkPool rest (gets mp + 1) (puts mp) (hits mp + (if pooled m then 1 else 0)) (misses mp + miss)
     (capacity mp), set_pooled false m).

Definition Pool_Put (m : Message) (mp : MessagePool) : MessagePool :=
  mkPool (set_pooled true (Message_Reset m) :: idle mp) (gets mp) (puts mp + 1) (hits mp) (misses mp)
    (capacity mp).

Inductive perr :=
| ErrBackpressure | ErrProcessingPanic | ErrUnknownProcessType | ErrNilMessage | ErrEmptyTopic
| ErrNilValue | ErrCompressionFailed | ErrDecompressionFailed
| BackpressureDetected | ProcessingTimedOut | QueueIsFull | ContextDone.

(** A message and whether its payload is the nil slice. *)
Abbreviation input := (PortaskMessage * bool)%type.

Inductive ProcessType :=
| ProcessTypeSingle | ProcessTypeBatch | ProcessTypeCompress | ProcessTypeDecompress
| ProcessTypeOther (n : Z).

Record ProcessTask := mkTask {
  t_ID : Z;
  t_Message : option input;
  t_Batch : list (option input);
  t_Type : ProcessType;
  has_callback : bool
}.

Record ProcessResult := mkResult {
  r_TaskID : Z;
  Success : bool;
  r_Error : option perr;
  r_Message : option PortaskMessage;
  r_Batch : list PortaskMessage;
  BytesIn : Z;
  BytesOut : Z;
  Compressed : bool
}.

Definition failure (task : Z) (e : perr) : ProcessResult := mkResult task false (Some e) None [] 0 0 false.

(** ** Compressors *)

(** All of [ZstdCompressor], [LZ4Compressor] and [SnappyCompressor] copy their
    input, [NoOpCompressor] returns it; the algorithm only picks the type. *)
Inductive Compressor := ZstdCompressor (level : Z) | LZ4Compressor | SnappyCompressor | NoOpCompressor.

Definition NewCompressor (algorithm : string) : Compressor :=
  if decide (algorithm = "zstd") then ZstdCompressor 6
  else if decide (algorithm = "lz4") then LZ4Compressor
  else if decide (algorithm = "snappy") then SnappyCompressor
  else NoOpCompressor.

Definition Algorithm (c : Compressor) : string :=
  match c with
  | ZstdCompressor _ => "zstd" | LZ4Compressor => "lz4" | SnappyCompressor => "snappy"
  | NoOpCompressor => "none"
  end.

(** [make([]byte, len(data))] and [copy] *)
Definition make_copy (data : bytes) : bytes :=
  let dst := replicate (length data) 0 in take (length dst) data ++ drop (length data) dst.

Definition Compress (c : Compressor) (data : bytes) : res perr bytes :=
  match c with NoOpCompressor => Ok data | _ => Ok (make_copy data) end.
Definition Decompress (c : Compressor) (data : bytes) : res perr bytes :=
  match c with NoOpCompressor => Ok data | _ => Ok (make_copy data) end.

(** ** One message *)

Definition validateMessage (m : option input) : option perr :=
  match m with
  | None => Some ErrNilMessage
  | Some (m, payload_nil) =>
    if decide (Topic m = "") then Some ErrEmptyTopic
    else if (payload_nil : bool) then Some ErrNilValue else None
  end.

(** [BufferPool.Get] returns a slice of length 0. *)
Definition buffer_get (size : Z) : bytes := [].

(** [copy(dst, src)] copies [min(len(dst), len(src))] bytes. *)
Definition copy_into (dst src : bytes) : bytes := take (length dst) src ++ drop (length src) dst.

(** Header values that are not strings are dropped. *)
Definition string_headers (h : gmap string GoValue) : gmap string bytes :=
  omap (fun v => match v with VString s => Some (Wire.bytes_of_string s) | _ => None end) h.

Definition copyMessage (cfg : ProcessorConfig) (dst : Message) (src : input) : Message :=
  let '(m, payload_nil) := src in
  let value :=
    if EnableZeroCopy cfg then Payload m
    else if (payload_nil : bool) then p_Value dst
    else copy_into (buffer_get (Z.of_nat (length (Payload m)))) (Payload m) in
  let headers := match Headers m with Some h => string_headers h | None => p_Headers dst end in
  mkPooled (hash (ID m)) (Topic m) (p_Partition dst) (p_Offset dst) (p_Key dst) value headers
    (Timestamp m) (p_Checksum dst) (pooled dst).

Definition set_Value (v : bytes) (m : Message) : Message :=
  mkPooled (p_ID m) (p_Topic m) (p_Partition m) (p_Offset m) (p_Key m) v (p_Headers m)
    (p_Timestamp m) (p_Checksum m) (pooled m).

Definition compressMessageData (cfg : ProcessorConfig) (m : Message) : res perr Message :=
  if decide (p_Value m = []) then Ok m else
  match Compress (NewCompressor (CompressionAlgorithm cfg)) (p_Value m) with
  | Err e => Err e
  | Ok compressed =>
    if Z.of_nat (length compressed) <? Z.of_nat (length (p_Value m)) then Ok (set_Value compressed m)
    else Ok m
  end.

(** [standardCRC32]: the inner loop eight times per byte, and the complement. *)
Definition crc_loop (crc : Z) : Z :=
  if Z.land crc 1 =? 1 then Z.lxor (Z.shiftr crc 1) 0xEDB88320 else Z.shiftr crc 1.
Definition standardCRC32 (data : bytes) : Z :=
  Z.lxor (foldl (fun crc b => Nat.iter 8 crc_loop (Z.lxor crc b)) 0xFFFFFFFF data) 0xFFFFFFFF.
Definition simdCRC32 (data : bytes) : Z := standardCRC32 data.

Definition calculateChecksum (cfg : ProcessorConfig) (m : Message) : Message :=
  let crc := if EnableSIMD cfg then simdCRC32 (p_Value m) else standardCRC32 (p_Value m) in
  mkPooled (p_ID m) (p_Topic m) (p_Partition m) (p_Offset m) (p_Key m) (p_Value m) (p_Headers m)
    (p_Timestamp m) crc (pooled m).

(** Every field that is not assigned has its zero value. *)
Definition convertToPortaskMessage (m : Message) : PortaskMessage :=
  mkMessage (pretty (Z.to_N (p_ID m))) (p_Topic m) (p_Value m) (p_Timestamp m)
    (Some ((fun v => VString (Ids.string_of_bytes v)) <$> p_Headers m)) None 0 StatusPending 0 "" "" ""
    0 0 0 0 0 "" "" zero_internal.

(** The pipeline after validation, on a message of the pool. *)
Definition pipeline (cfg : ProcessorConfig) (m : Message) (src : input) : res perr PortaskMessage :=
  let m := copyMessage cfg m src in
  let! m := (if EnableCompression cfg then compressMessageData cfg m else Ok m) in
  Ok (convertToPortaskMessage (calculateChecksum cfg m)).

Definition processSingleMessage (cfg : ProcessorConfig) (m : Message) (task : ProcessTask) : ProcessResult :=
  match validateMessage (t_Message task), t_Message task with
  | Some e, _ => failure (t_ID task) e
  | None, None => failure (t_ID task) ErrNilMessage
  | None, Some src =>
    match pipeline cfg m src with
    | Err e => failure (t_ID task) e
    | Ok r => mkResult (t_ID task) true None (Some r) [] (Z.of_nat (length (Payload (fst src))))
                (Z.of_nat (length (Payload r))) (EnableCompression cfg)
    end
  end.

(** The loop over the batch: a nil message panics at [msg.Payload]. *)
Fixpoint process_each (cfg : ProcessorConfig) (pool : nat -> Message) (i : nat) (batch : list (option input))
  (done : list PortaskMessage) (bytesIn bytesOut : Z) : exec (res perr (list PortaskMessage * Z * Z)) :=
  match batch with
  | [] => Ret (Ok (done, bytesIn, bytesOut))
  | None :: _ => Panic
  | Some src :: batch =>
    let bytesIn := bytesIn + Z.of_nat (length (Payload (fst src))) in
    match validateMessage (Some src) with
    | Some e => Ret (Err e)
    | None =>
      match pipeline cfg (pool i) src with
      | Err e => Ret (Err e)
      | Ok r => process_each cfg pool (S i) batch (done ++ [r]) bytesIn
                  (bytesOut + Z.of_nat (length (Payload r)))
      end
    end
  end.

Definition processBatchMessages (cfg : ProcessorConfig) (pool : nat -> Message) (task : ProcessTask)
  : exec ProcessResult :=
  do! r := process_each cfg pool 0 (t_Batch task) [] 0 0 in
  match r with
  | Err e => Ret (failure (t_ID task) e)
  | Ok (batch, bytesIn, bytesOut) =>
    Ret (mkResult (t_ID task) true None None batch bytesIn bytesOut (EnableCompression cfg))
  end.

(** [compressMessage] and [decompressMessage]: a nil message panics. *)
Definition recode (f : bytes -> res perr bytes) (compressed : bool) (task : ProcessTask) : exec ProcessResult :=
  match t_Message task with
  | None => Panic
  | Some (m, _) =>
    match f (Payload m) with
    | Err e => Ret (failure (t_ID task) e)
    | Ok data =>
      let r := mkMessage (ID m) (Topic m) data (Timestamp m) (Headers m) None 0 StatusPending 0 "" "" ""
                 0 0 0 0 0 "" "" zero_internal in
      Ret (mkResult (t_ID task) true None (Some r) [] (Z.of_nat (length (Payload m)))
             (Z.of_nat (length data)) compressed)
    end
  end.

Definition compressMessage (cfg : ProcessorConfig) : ProcessTask -> exec ProcessResult :=
  recode (Compress (NewCompressor (CompressionAlgorithm cfg))) true.
Definition decompressMessage (cfg : ProcessorConfig) : ProcessTask -> exec ProcessResult :=
  recode (Decompress (NewCompressor (CompressionAlgorithm cfg))) false.

(** Where a result goes. *)
Inductive destination := Callback (r : ProcessResult) | ResultQueue (r : ProcessResult).

Record WorkerMetrics := mkWM { TasksProcessed : Z; SuccessCount : Z; ErrorCount : Z }.

(** [processTask]: a panic is recovered, and its result always goes to the
    result queue; the counters of success and error are only touched when there
    was no panic. *)
Definition processTask (cfg : ProcessorConfig) (pool : nat -> Message) (task : ProcessTask)
  (wm : WorkerMetrics) : WorkerMetrics * destination :=
  let wm := mkWM (u64 (TasksProcessed wm + 1)) (SuccessCount wm) (ErrorCount wm) in
  let r := match t_Type task with
           | ProcessTypeSingle => Ret (processSingleMessage cfg (pool 0%nat) task)
           | ProcessTypeBatch => processBatchMessages cfg pool task
           | ProcessTypeCompress => compressMessage cfg task
           | ProcessTypeDecompress => decompressMessage cfg task
           | ProcessTypeOther _ => Ret (failure (t_ID task) ErrUnknownProcessType)
           end in
  match r with
  | Ret result =>
    let wm := if Success result
              then mkWM (TasksProcessed wm) (u64 (SuccessCount wm + 1)) (ErrorCount wm)
              else mkWM (TasksProcessed wm) (SuccessCount wm) (u64 (ErrorCount wm + 1)) in
    (wm, if has_callback task then Callback result else ResultQueue result)
  | _ => (wm, ResultQueue (failure (t_ID task) ErrProcessingPanic))
  end.

(** [ProcessMessage]: what the caller is told, by what happens first. *)
Inductive wait := QueueTimeout | WaitCancelled | WaitTimeout | Answered (r : ProcessResult).

Definition ProcessMessage (cfg : ProcessorConfig) (backpressured : bool) (w : wait)
  : res perr (option PortaskMessage) :=
  if EnableBackpressure cfg && backpressured then Err BackpressureDetected else
  match w with
  | QueueTimeout => Err QueueIsFull
  | WaitCancelled => Err ContextDone
  | WaitTimeout => Err ProcessingTimedOut
  | Answered r => match r_Error r with Some e => Err e | None => Ok (r_Message r) end
  end.

Record ProcessorMetrics := mkPM {
  TotalTasks : Z; PM_SuccessCount : Z; PM_ErrorCount : Z; CompressedMessages : Z;
  TotalBytesIn : Z; TotalBytesOut : Z
}.

Definition updateMetrics (r : ProcessResult) (pm : ProcessorMetrics) : ProcessorMetrics :=
  mkPM (u64 (TotalTasks pm + 1))
    (if Success r then u64 (PM_SuccessCount pm + 1) else PM_SuccessCount pm)
    (if Success r then PM_ErrorCount pm else u64 (PM_ErrorCount pm + 1))
    (if Compressed r then u64 (CompressedMessages pm + 1) else CompressedMessages pm)
    (s64 (TotalBytesIn pm + BytesIn r)) (s64 (TotalBytesOut pm + BytesOut r)).

(** ** Events and worker health *)

Record ProcessorEvent := mkEvent {
  ev_Time : Z; ev_Type : string; ev_WorkerID : Z; ev_Message : string; ev_TaskID : Z;
  ev_Error : option perr
}.

Record WorkerHealth := mkHealth { LastError : option perr; Healthy : bool; LastEvent : Z }.

Record EventLog := mkLog { events : list ProcessorEvent; workerHealth : gmap Z WorkerHealth }.

Definition AddEvent (ev : ProcessorEvent) (log : EventLog) : EventLog :=
  let evs := (if (200 <? Z.of_nat (length (events log))) then drop 1 (events log) else events log) ++ [ev] in
  if ev_WorkerID ev >=? 0 then
    let h := default (mkHealth None false 0) (workerHealth log !! ev_WorkerID ev) in
    let h := mkHealth (LastError h) (Healthy h) (ev_Time ev) in
    let h := if decide (ev_Type ev = "panic" \/ ev_Type ev = "error")
             then mkHealth (ev_Error ev) false (LastEvent h)
             else if decide (ev_Type ev = "worker_start")
             then mkHealth (LastError h) true (LastEvent h) else h in
    mkLog evs (<[ev_WorkerID ev := h]> (workerHealth log))
  else mkLog evs (workerHealth log).

Definition GetEvents (log : EventLog) : list ProcessorEvent := events log.
Definition GetWorkerHealth (log : EventLog) : gmap Z WorkerHealth := workerHealth log.

End Processor.
