(* ===== verification/ProcessorSpec.v ===== *)
(** * What the processor keeps of a message

    The pool hands out blank messages; the pipeline keeps identifier hash,
    topic, payload, time and text headers and forgets the rest, except that
    without zero-copy it loses the payload; batches are all or nothing; the
    event log is bounded.  And the results of batches can go astray. *)
From stdpp Require Import base gmap strings list numbers fin_maps pretty.
From Stdlib Require Import ZArith Lia.
From S2P Require Import Prelude Types Wal WalSpec Wire Ids IdsSpec Processor.

Module ProcessorSpec.
Import Types Processor.

(** ** The pool *)

Definition blank (b : bool) : Message := set_pooled b new_pooled.

Lemma Message_Reset_blank m : Message_Reset m = blank (pooled m).
Proof.
  unfold Message_Reset, blank, set_pooled, new_pooled. cbn. f_equal.
  rewrite map_fold_delete. apply map_difference_diag.
Qed.

Definition pool_ok (mp : MessagePool) : Prop := Forall (fun m => m = blank true) (idle mp).

Lemma Pool_Get_ok choice mp :
  pool_ok mp -> pool_ok (fst (Pool_Get choice mp)) /\ snd (Pool_Get choice mp) = blank false.
Proof.
  unfold pool_ok, Pool_Get. intros H. destruct choice as [i|]; [|by split].
  destruct (idle mp !! i) as [m|] eqn:E; [|by split]. cbn [fst snd idle].
  split; [apply Forall_app; split; [by apply Forall_take|by apply Forall_drop]|].
  by rewrite (Forall_lookup_1 _ _ _ _ H E).
Qed.

Lemma Pool_Put_ok m mp : pool_ok mp -> pool_ok (Pool_Put m mp).
Proof. intros H. constructor; [|done]. by rewrite Message_Reset_blank. Qed.

(** The pool's counters: every get is a hit or comes from a put. *)
Inductive pool_run : MessagePool -> Prop :=
| run_new cap : pool_run (NewMessagePool cap)
| run_get choice mp : pool_run mp -> pool_run (fst (Pool_Get choice mp))
| run_put m mp : pool_run mp -> pool_run (Pool_Put m mp).

Lemma pool_run_ok mp : pool_run mp -> pool_ok mp.
Proof.
  induction 1; [constructor|by apply Pool_Get_ok|by apply Pool_Put_ok].
Qed.

(** ** Text *)

Lemma string_of_bytes_of_string s : Ids.string_of_bytes (Wire.bytes_of_string s) = s.
Proof.
  unfold Ids.string_of_bytes, Wire.bytes_of_string.
  rewrite <-list_fmap_compose.
  rewrite <-(String.string_of_list_ascii_of_string s) at 2. f_equal.
  rewrite <-(list_fmap_id (String.list_ascii_of_string s)) at 2. apply list_fmap_ext.
  intros i c _. cbn. rewrite Nat2Z.id. apply Ascii.ascii_nat_embedding.
Qed.

(** The headers that survive. *)
Definition text_headers (m : PortaskMessage) : gmap string GoValue :=
  match Headers m with
  | Some h => omap (fun v => match v with VString s => Some (VString s) | _ => None end) h
  | None => ∅
  end.

Lemma string_headers_text h :
  (fun v => VString (Ids.string_of_bytes v)) <$> string_headers h
  = omap (fun v => match v with VString s => Some (VString s) | _ => None end) h.
Proof.
  apply map_eq. intros k. rewrite lookup_fmap. unfold string_headers. rewrite !lookup_omap.
  destruct (h !! k) as [v|]; [|done]. destruct v; cbn; [|done..].
  by rewrite string_of_bytes_of_string.
Qed.

(** ** Compression and checksum *)

Lemma make_copy_id data : make_copy data = data.
Proof.
  unfold make_copy. rewrite length_replicate, firstn_all.
  rewrite drop_ge by (by rewrite length_replicate). apply app_nil_r.
Qed.

Lemma compressors_identity c data : Compress c data = Ok data /\ Decompress c data = Ok data.
Proof. destruct c; cbn; by rewrite ?make_copy_id. Qed.

Lemma compressMessageData_id cfg m : compressMessageData cfg m = Ok m.
Proof.
  unfold compressMessageData. case_decide; [done|].
  rewrite (proj1 (compressors_identity _ _)). destruct (Z.ltb_spec (Z.of_nat (length (p_Value m)))
    (Z.of_nat (length (p_Value m)))); [lia|done].
Qed.

Lemma complement_word w : WalSpec.word w -> Z.lxor w 0xFFFFFFFF = 0xFFFFFFFF - w.
Proof.
  intros Hw. assert (Z.ldiff w 0xFFFFFFFF = 0) as Hd.
  { change 0xFFFFFFFF with (Z.ones 32). rewrite Z.ldiff_ones_r by lia.
    rewrite Z.shiftr_div_pow2, Z.div_small by (lia || exact Hw). done. }
  rewrite Z.sub_nocarry_ldiff by done. apply Z.bits_inj'. intros i Hi.
  rewrite Z.lxor_spec, Z.ldiff_spec. change 0xFFFFFFFF with (Z.ones 32).
  destruct (Z.lt_ge_cases i 32).
  - rewrite Z.ones_spec_low by lia. by destruct (Z.testbit w i).
  - rewrite Z.ones_spec_high by lia. by rewrite WalSpec.word_high.
Qed.

(** The processor's checksums, with and without the SIMD flag, are the CRC-32
    of the write-ahead log and of the wire protocol. *)
Lemma checksums_agree data :
  bytes_ok data ->
  standardCRC32 data = Wal.crc32Checksum data /\ simdCRC32 data = Wire.calculateCRC32 data.
Proof.
  intros Hd. assert (standardCRC32 data = Wal.crc32Checksum data) as E; [|by split].
  unfold standardCRC32, Wal.crc32Checksum.
  change (fun crc b => Nat.iter 8 crc_loop (Z.lxor crc b)) with Wal.crc_byte.
  apply complement_word, WalSpec.crc_fold_word; [apply WalSpec.word_ones|done].
Qed.

(** ** What the pipeline returns *)

Definition kept (m : PortaskMessage) (payload : bytes) : PortaskMessage :=
  mkMessage (pretty (Z.to_N (hash (ID m)))) (Topic m) payload (Timestamp m) (Some (text_headers m)) None
    0 StatusPending 0 "" "" "" 0 0 0 0 0 "" "" zero_internal.

Definition processed_payload (cfg : ProcessorConfig) (src : input) : bytes :=
  if EnableZeroCopy cfg then Payload (fst src) else [].

Lemma pipeline_spec cfg src b :
  pipeline cfg (blank b) src = Ok (kept (fst src) (processed_payload cfg src)).
Proof.
  unfold pipeline. set (m := copyMessage cfg (blank b) src).
  assert ((if EnableCompression cfg then compressMessageData cfg m else Ok m) = Ok m) as ->
    by (destruct (EnableCompression cfg); [apply compressMessageData_id|done]).
  unfold m, copyMessage, calculateChecksum, convertToPortaskMessage, kept, processed_payload.
  destruct src as [x payload_nil]. cbn [fst p_ID p_Topic p_Value p_Headers p_Timestamp]. do 2 f_equal.
  - destruct (EnableZeroCopy cfg); [done|]. destruct payload_nil; [done|]. unfold copy_into, buffer_get.
    cbn. by rewrite drop_nil.
  - unfold text_headers. f_equal. destruct (Headers x); [apply string_headers_text|done].
Qed.

(** What processing keeps of a message.  With a message from the pool the
    worker accepts exactly the messages with a topic and a payload.  Of an
    accepted message it keeps the topic, the time stamp, the text headers, the
    hash of the identifier and, with zero-copy, the payload, which no
    compressor changes; partition, key, priority, metadata, expiry and retry
    settings are lost. *)
Theorem process_single_exact cfg b task :
  processSingleMessage cfg (blank b) task
  = match t_Message task with
    | None => failure (t_ID task) ErrNilMessage
    | Some (m, payload_nil) =>
      if decide (Topic m = "") then failure (t_ID task) ErrEmptyTopic
      else if payload_nil then failure (t_ID task) ErrNilValue
      else let p := processed_payload cfg (m, false) in
           mkResult (t_ID task) true None (Some (kept m p)) []
             (Z.of_nat (length (Payload m))) (Z.of_nat (length p)) (EnableCompression cfg)
    end.
Proof.
  unfold processSingleMessage, validateMessage. destruct (t_Message task) as [[m payload_nil]|]; [|done].
  case_decide; [done|]. destruct payload_nil; [done|]. by rewrite pipeline_spec.
Qed.

(** Without zero-copy the copy goes into a slice of length 0: every payload
    comes out empty. *)
Lemma deep_copy_loses_payload cfg b task m :
  EnableZeroCopy cfg = false -> t_Message task = Some (m, false) -> Topic m <> "" ->
  r_Message (processSingleMessage cfg (blank b) task) = Some (kept m []).
Proof.
  intros Hz Ht Hm. unfold processSingleMessage, validateMessage. rewrite Ht, decide_False by done.
  rewrite pipeline_spec. unfold processed_payload. by rewrite Hz.
Qed.

(** ** Batches *)

Definition acceptable (src : option input) : Prop := validateMessage src = None.

Lemma process_each_ok cfg pool batch : forall i done bi bo,
  (forall j, exists b, pool j = blank b) -> Forall acceptable batch ->
  exists bi' bo',
    process_each cfg pool i batch done bi bo
    = Ret (Ok (done ++ omap (fun s => (fun src => kept (fst src) (processed_payload cfg src)) <$> s) batch,
               bi', bo')).
Proof.
  induction batch as [|src batch IH]; intros i done bi bo Hp Ha; cbn [process_each].
  - rewrite app_nil_r. by eexists _, _.
  - apply Forall_cons in Ha as [Hs Ha]. destruct src as [src|]; [|done].
    unfold acceptable in Hs. rewrite Hs. destruct (Hp i) as [b ->]. rewrite pipeline_spec.
    edestruct (IH (S i) (done ++ [kept (fst src) (processed_payload cfg src)])) as (bi' & bo' & ->);
      [done|done|]. eexists _, _. by rewrite <-app_assoc.
Qed.

Lemma process_each_err cfg pool pre src rest e : forall i done bi bo,
  (forall j, exists b, pool j = blank b) -> Forall acceptable pre ->
  validateMessage (Some src) = Some e ->
  process_each cfg pool i (pre ++ Some src :: rest) done bi bo = Ret (Err e).
Proof.
  induction pre as [|x pre IH]; intros i done bi bo Hp Ha He.
  - cbn [app process_each]. by rewrite He.
  - apply Forall_cons in Ha as [Hs Ha]. destruct x as [x|]; [|done]. cbn [app process_each].
    unfold acceptable in Hs. rewrite Hs. destruct (Hp i) as [b ->]. rewrite pipeline_spec. by apply IH.
Qed.

(** C26: batches are all or nothing.  A batch of acceptable messages comes back
    complete and in order, each processed like a single message; the first
    message that fails validation fails the whole batch with its error, and
    nothing of the batch is returned. *)
Theorem process_batch_all_or_nothing cfg pool task :
  (forall j, exists b, pool j = blank b) ->
  (Forall acceptable (t_Batch task) ->
   exists r, processBatchMessages cfg pool task = Ret r /\ Success r = true /\ r_Error r = None
     /\ r_Batch r = omap (fun s => (fun src => kept (fst src) (processed_payload cfg src)) <$> s) (t_Batch task)
     /\ length (r_Batch r) = length (t_Batch task))
  /\ (forall pre src rest e, t_Batch task = pre ++ Some src :: rest -> Forall acceptable pre ->
       validateMessage (Some src) = Some e -> processBatchMessages cfg pool task = Ret (failure (t_ID task) e)).
Proof.
  intros Hp. unfold processBatchMessages. split.
  - intros Ha. destruct (process_each_ok cfg pool (t_Batch task) 0 [] 0 0 Hp Ha) as (bi & bo & ->).
    eexists. split; [reflexivity|]. do 3 (split; [reflexivity|]). cbn [r_Batch app].
    clear -Ha. induction Ha as [|s batch Hs _ IH]; [done|]. destruct s as [src|]; [|done].
    cbn. f_equal. exact IH.
  - intros pre src rest e Ht Ha He. rewrite Ht. by rewrite (process_each_err cfg pool pre src rest e).
Qed.

Definition plain (topic : string) (payload : bytes) : PortaskMessage :=
  mkMessage "id" topic payload 7 (Some {["k" := VString "v"]}) None 5 StatusPending 3 "key" "" "" 0 0 0 0 0 "" ""
    zero_internal.

Definition some_batch : ProcessTask :=
  mkTask 1 None [Some (plain "t" [1; 2], false); Some (plain "" [3], false)] ProcessTypeBatch false.

Lemma process_batch_all_or_nothing_witness :
  processBatchMessages DefaultProcessorConfig (fun _ => blank false) some_batch
  = Ret (failure 1 ErrEmptyTopic).
Proof.
  apply (proj2 (process_batch_all_or_nothing DefaultProcessorConfig (fun _ => blank false) some_batch
    (fun j => ex_intro _ false eq_refl)) [Some (plain "t" [1; 2], false)] (plain "" [3], false) [] ErrEmptyTopic);
    [reflexivity| |reflexivity].
  repeat constructor.
Defined.

(** ** Delivery of results *)

(** A panic is recovered, but a caller that waits on a callback is not told. *)
Lemma panic_not_called_back cfg pool n cb wm :
  snd (processTask cfg pool (mkTask n None [] ProcessTypeCompress cb) wm)
  = ResultQueue (failure n ErrProcessingPanic).
Proof. reflexivity. Qed.

(** Batches in flight: what waits in the result queue, which callers of
    [ProcessBatch] wait, what each was given, and what the metrics loop of
    [handleResults] took.  Both read the same channel. *)
Record flight := mkFlight {
  queue : list ProcessResult;
  waiting : gset Z;
  given : gmap Z ProcessResult;
  metered : list ProcessResult
}.

Inductive flight_step : flight -> flight -> Prop :=
| fl_submit id r fl : id ∉ waiting fl -> given fl !! id = None -> r_TaskID r = id ->
    flight_step fl (mkFlight (queue fl ++ [r]) ({[id]} ∪ waiting fl) (given fl) (metered fl))
| fl_receive id r q fl : queue fl = r :: q -> id ∈ waiting fl ->
    flight_step fl (mkFlight q (waiting fl ∖ {[id]}) (<[id := r]> (given fl)) (metered fl))
| fl_meter r q fl : queue fl = r :: q ->
    flight_step fl (mkFlight q (waiting fl) (given fl) (metered fl ++ [r])).

Inductive flights : flight -> flight -> Prop :=
| fls_refl fl : flights fl fl
| fls_step a b c : flight_step a b -> flights b c -> flights a c.

Definition no_flight : flight := mkFlight [] ∅ ∅ [].
Definition batch_result (id : Z) : ProcessResult := mkResult id true None None [] 0 0 false.

(** The results of [ProcessBatch] can go astray.  Callers take whatever
    result comes first from the one result queue, which the metrics loop also
    reads: a caller can be given the result of another caller's batch, and a
    caller's result can be consumed by the metrics loop, after which the caller
    waits with nothing left to receive. *)
Theorem batch_results_astray :
  (exists fl, flights no_flight fl /\ given fl !! 2 = Some (batch_result 1))
  /\ (exists fl, flights no_flight fl /\ 1 ∈ waiting fl /\ queue fl = []
       /\ metered fl = [batch_result 1]).
Proof.
  split.
  - eexists. split.
    { eapply fls_step; [apply (fl_submit 1 (batch_result 1)); done || set_solver|].
      eapply fls_step; [apply (fl_submit 2 (batch_result 2)); done || set_solver|].
      eapply fls_step; [eapply (fl_receive 2); [reflexivity|set_solver]|]. apply fls_refl. }
    reflexivity.
  - eexists. split.
    { eapply fls_step; [apply (fl_submit 1 (batch_result 1)); done || set_solver|].
      eapply fls_step; [eapply fl_meter; reflexivity|]. apply fls_refl. }
    split; [set_solver|done].
Qed.

(** ** Events *)

(** The log keeps the last events, never more than 201, and a worker is healthy
    exactly if it started after its last failure. *)
Lemma event_log_bounded evs log :
  Z.of_nat (length (events log)) <= 201 ->
  Z.of_nat (length (events (foldl (fun l e => AddEvent e l) log evs))) <= 201.
Proof.
  revert log. induction evs as [|e evs IH]; intros log Hl; [done|]. cbn [foldl]. apply IH.
  assert (events (AddEvent e log)
    = (if 200 <? Z.of_nat (length (events log)) then drop 1 (events log) else events log) ++ [e]) as ->
    by (unfold AddEvent; by destruct (_ >=? 0)).
  rewrite length_app. cbn [length].
  destruct (Z.ltb_spec 200 (Z.of_nat (length (events log)))); [rewrite length_drop|]; lia.
Qed.

End ProcessorSpec.
