(* ===== verification/Batch.v ===== *)
(** * Batch writers ([src/pkg/processor/batch_writer.go],
      [parallel_batch_writer.go], [async_batch_writer.go])

    [BatchWriter]: every method holds the mutex, so it is one step; the flush
    loop contributes ticks of the timer.  [ParallelBatchWriter] and
    [AsyncBatchWriter] run shards as goroutines: each step of a shard, of a
    writer or of the background confirmations is one transition.  The storage
    is the class [StorageBackend]; what a call does to it and whether it fails
    is the backend's.  Sleeps between retries and latencies are left out. *)
From stdpp Require Import base gmap strings list numbers fin_maps.
From Stdlib Require Import ZArith Lia.
From S2P Require Import Prelude Types Wire Processor.

Module Batch.
Import Types.

(** [StoreBatch]: the new state of the storage and the error, if any. *)
Class StorageBackend (St : Type) := StoreBatch : list PortaskMessage -> St -> St * option string.

Record BatchWriterConfig := mkBWConfig {
  FlushInterval : Z;
  BatchSize : Z;
  MaxRetries : Z
}.
Definition millisecond : Z := 1000000.
Definition DefaultBatchWriterConfig : BatchWriterConfig := mkBWConfig (10 * millisecond) 1000 3.

(** The retry loop of a flush: at most [attempts] calls, until one succeeds. *)
Fixpoint store_retry {St} `{StorageBackend St} (attempts : nat) (ms : list PortaskMessage) (st : St)
  (err : option string) : St * option string :=
  match attempts with
  | O => (st, err)
  | S attempts =>
    match StoreBatch ms st with
    | (st, None) => (st, None)
    | (st, Some e) => store_retry attempts ms st (Some e)
    end
  end.

Section writer.
Context {St : Type} `{!StorageBackend St}.

Record BatchWriter := mkBW {
  storage : St;
  config : BatchWriterConfig;
  buffer : list PortaskMessage;
  messageCount : Z;
  batchCount : Z;
  running : bool;
  stopClosed : bool
}.

Definition NewBatchWriter (st : St) (cfg : option BatchWriterConfig) : BatchWriter :=
  mkBW st (default DefaultBatchWriterConfig cfg) [] 0 0 false false.

Definition Start (bw : BatchWriter) : BatchWriter * option string :=
  if running bw then (bw, Some "batch writer already running")
  else (mkBW (storage bw) (config bw) (buffer bw) (messageCount bw) (batchCount bw) true
          (stopClosed bw), None).

Definition flushLocked (bw : BatchWriter) : BatchWriter * option string :=
  if decide (buffer bw = []) then (bw, None) else
  match store_retry (Z.to_nat (MaxRetries (config bw) + 1)) (buffer bw) (storage bw) None with
  | (st, Some e) =>
    (mkBW st (config bw) (buffer bw) (messageCount bw) (batchCount bw) (running bw) (stopClosed bw),
     Some ("batch write failed: " +:+ e))
  | (st, None) =>
    (mkBW st (config bw) [] (messageCount bw) (s64 (batchCount bw + 1)) (running bw) (stopClosed bw), None)
  end.

Definition Write (msg : PortaskMessage) (bw : BatchWriter) : BatchWriter * option string :=
  let bw := mkBW (storage bw) (config bw) (buffer bw ++ [msg]) (s64 (messageCount bw + 1))
              (batchCount bw) (running bw) (stopClosed bw) in
  if Z.of_nat (length (buffer bw)) >=? BatchSize (config bw) then flushLocked bw else (bw, None).

(** One tick of [flushLoop]; the error is dropped. *)
Definition tick (bw : BatchWriter) : BatchWriter :=
  if decide (buffer bw = []) then bw else fst (flushLocked bw).

Definition flush (bw : BatchWriter) : BatchWriter * option string := flushLocked bw.

(** [Stop] closes the stop channel, which panics if it is closed already,
    waits for the loop to end and flushes once more. *)
Definition Stop (bw : BatchWriter) : exec (BatchWriter * option string) :=
  if running bw then
    if stopClosed bw then Panic else
    Ret (flush (mkBW (storage bw) (config bw) (buffer bw) (messageCount bw) (batchCount bw) false true))
  else Ret (bw, None).

(** [GetStats], without the averages. *)
Definition GetStats (bw : BatchWriter) : Z * Z * Z * Z :=
  (messageCount bw, batchCount bw, Z.of_nat (length (buffer bw)), BatchSize (config bw)).

End writer.
Arguments BatchWriter : clear implicits.

(** ** Sharded writers *)

Record ParallelBatchWriterConfig := mkPBWConfig {
  NumShards : Z;
  p_FlushInterval : Z;
  p_BatchSize : Z;
  p_MaxRetries : Z;
  SubBatchSize : Z;
  EnableParallelWrites : bool
}.

Definition DefaultParallelBatchWriterConfig : ParallelBatchWriterConfig :=
  mkPBWConfig 32 (5 * millisecond) 100 3 0 false.
Definition HighThroughputConfig : ParallelBatchWriterConfig :=
  mkPBWConfig 32 (10 * millisecond) 5000 3 200 true.
Definition LowLatencyConfig : ParallelBatchWriterConfig :=
  mkPBWConfig 32 (10 * millisecond) 5000 3 200 true.
Definition BalancedConfig : ParallelBatchWriterConfig :=
  mkPBWConfig 48 (10 * millisecond) 8000 3 250 true.
Definition HighThroughputConfigV2 : ParallelBatchWriterConfig :=
  mkPBWConfig 64 (12 * millisecond) 10000 3 300 true.
Definition UltraConfig : ParallelBatchWriterConfig :=
  mkPBWConfig 128 (15 * millisecond) 15000 3 500 true.

Definition TierConfig (tier : string) : ParallelBatchWriterConfig :=
  if decide (tier = "low_latency") then LowLatencyConfig
  else if decide (tier = "balanced") then BalancedConfig
  else if decide (tier = "high_throughput") then HighThroughputConfigV2
  else if decide (tier = "ultra") then UltraConfig
  else BalancedConfig.

Definition EstimateMemoryUsage (cfg : ParallelBatchWriterConfig) : Z :=
  100 + (NumShards cfg * p_BatchSize cfg) `quot` 1024 + (50 + NumShards cfg * 2).

(** The shard of a topic: [ParallelBatchWriter] hashes the runes of the name,
    [AsyncBatchWriter] its bytes; both with uint32 arithmetic. *)
Definition hash32 (cs : list Z) : Z := foldl (fun h c => u32 (u32 (h * 31) + u32 c)) 0 cs.
Definition getShardID (numShards : Z) (topic : string) : Z :=
  hash32 (Processor.runes topic) mod u32 numShards.
Definition async_getShardID (numShards : Z) (topic : string) : Z :=
  hash32 (Wire.bytes_of_string topic) mod u32 numShards.

Section parallel.
Context {St : Type} `{!StorageBackend St}.

Record batchShard := mkShard {
  s_buffer : list PortaskMessage;
  bufferChan : list PortaskMessage;
  stopped : bool;
  exited : bool; (* no goroutine runs the shard *)
  flushing : option (nat * bool); (* a flush: the attempts left, and whether the goroutine ends with it *)
  localBatchCnt : Z;
  localMsgCnt : Z
}.
Definition new_shard : batchShard := mkShard [] [] false true None 0 0.

(** The capacity of a shard's channel. *)
Definition chan_cap (cfg : ParallelBatchWriterConfig) : Z := p_BatchSize cfg * 2.

Record ParallelBatchWriter := mkPBW {
  p_storage : St;
  p_config : ParallelBatchWriterConfig;
  shards : list batchShard;
  p_running : bool;
  p_messageCount : Z;
  p_batchCount : Z;
  errorCount : Z
}.

Definition NewParallelBatchWriter (st : St) (cfg : option ParallelBatchWriterConfig) : ParallelBatchWriter :=
  let cfg := default DefaultParallelBatchWriterConfig cfg in
  mkPBW st cfg (replicate (Z.to_nat (NumShards cfg)) new_shard) false 0 0 0.

(** One goroutine per shard.  A [Start] while goroutines of an earlier run are
    still ending (a concurrent [Stop] that has not returned) would give a shard two
    of them, which race on its buffer: that case is outside the model, and
    [p_startable] rules it out where [p_Start] is used. *)
Definition p_startable (w : ParallelBatchWriter) : bool := p_running w || forallb exited (shards w).
Definition p_Start (w : ParallelBatchWriter) : ParallelBatchWriter * option string :=
  if p_running w then (w, Some "parallel batch writer already running")
  else (mkPBW (p_storage w) (p_config w)
          ((fun sh => mkShard (s_buffer sh) (bufferChan sh) (stopped sh) false None (localBatchCnt sh) (localMsgCnt sh))
             <$> shards w) true (p_messageCount w) (p_batchCount w) (errorCount w), None).

(** A non-blocking send: [None] if the channel is full. *)
Definition try_send (cfg : ParallelBatchWriterConfig) (msg : PortaskMessage) (sh : batchShard)
  : option batchShard :=
  if Z.of_nat (length (bufferChan sh)) <? chan_cap cfg
  then Some (mkShard (s_buffer sh) (bufferChan sh ++ [msg]) (stopped sh) (exited sh) (flushing sh)
               (localBatchCnt sh) (localMsgCnt sh))
  else None.

(** Send to shard [i], an index panic if there is none. *)
Definition send_to (i : Z) (msg : PortaskMessage) (w : ParallelBatchWriter)
  : exec (option ParallelBatchWriter) :=
  match shards w !! Z.to_nat i with
  | None => Panic
  | Some sh =>
    match try_send (p_config w) msg sh with
    | Some sh => Ret (Some (mkPBW (p_storage w) (p_config w) (<[Z.to_nat i := sh]> (shards w)) (p_running w)
                       (s64 (p_messageCount w + 1)) (p_batchCount w) (errorCount w)))
    | None => Ret None
    end
  end.

Definition p_Write (msg : PortaskMessage) (w : ParallelBatchWriter)
  : exec (ParallelBatchWriter * option string) :=
  if negb (p_running w) then Ret (w, Some "parallel batch writer not running") else
  if u32 (NumShards (p_config w)) =? 0 then Panic else
  let shardID := getShardID (NumShards (p_config w)) (Topic msg) in
  do! r := send_to shardID msg w in
  match r with
  | Some w => Ret (w, None)
  | None =>
    let nextShardID := (shardID + 1) `rem` NumShards (p_config w) in
    do! r := send_to nextShardID msg w in
    match r with
    | Some w => Ret (w, None)
    | None => Ret (w, Some "all shards full")
    end
  end.

Definition set_shard (i : nat) (sh : batchShard) (w : ParallelBatchWriter) : ParallelBatchWriter :=
  mkPBW (p_storage w) (p_config w) (<[i := sh]> (shards w)) (p_running w) (p_messageCount w)
    (p_batchCount w) (errorCount w).
Definition set_exited (sh : batchShard) : batchShard :=
  mkShard (s_buffer sh) (bufferChan sh) (stopped sh) true None (localBatchCnt sh) (localMsgCnt sh).

(** The end of a flush, after which the goroutine returns if [ends]. *)
Definition flushed (ends : bool) (sh : batchShard) : batchShard :=
  if ends then set_exited sh
  else mkShard (s_buffer sh) (bufferChan sh) (stopped sh) (exited sh) None (localBatchCnt sh) (localMsgCnt sh).

(** The start of [flushShard]: [MaxRetries + 1] attempts, each a step of its
    own, so that other shards and writers run between them. *)
Definition flushShard (ends : bool) (sh : batchShard) (w : ParallelBatchWriter) : batchShard :=
  if decide (s_buffer sh = []) then flushed ends sh
  else mkShard (s_buffer sh) (bufferChan sh) (stopped sh) (exited sh)
         (Some (Z.to_nat (p_MaxRetries (p_config w) + 1), ends)) (localBatchCnt sh) (localMsgCnt sh).

(** One attempt.  The error is dropped by [runShard]. *)
Definition flush_attempt (i : nat) (n : nat) (ends : bool) (sh : batchShard) (w : ParallelBatchWriter)
  : ParallelBatchWriter :=
  let stored st :=
    let sh := mkShard [] (bufferChan sh) (stopped sh) (exited sh) (flushing sh) (s64 (localBatchCnt sh + 1))
                (localMsgCnt sh) in
    mkPBW st (p_config w) (<[i := flushed ends sh]> (shards w)) (p_running w) (p_messageCount w)
      (s64 (p_batchCount w + 1)) (errorCount w) in
  match n with
  | O => stored (p_storage w)
  | S n =>
    match StoreBatch (s_buffer sh) (p_storage w) with
    | (st, None) => stored st
    | (st, Some _) =>
      match n with
      | O => mkPBW st (p_config w) (<[i := flushed ends sh]> (shards w)) (p_running w) (p_messageCount w)
               (p_batchCount w) (s64 (errorCount w + 1))
      | S _ =>
        let sh := mkShard (s_buffer sh) (bufferChan sh) (stopped sh) (exited sh) (Some (n, ends))
                    (localBatchCnt sh) (localMsgCnt sh) in
        mkPBW st (p_config w) (<[i := sh]> (shards w)) (p_running w) (p_messageCount w) (p_batchCount w)
          (errorCount w)
      end
    end
  end.

(** A step of [runShard]: the case of the [select] that is taken, or the next
    attempt of the flush it is in. *)
Inductive shard_event := EvMessage | EvTick | EvStop | EvDone | EvAttempt.

Definition shard_step (i : nat) (ev : shard_event) (w : ParallelBatchWriter) : option ParallelBatchWriter :=
  match shards w !! i with
  | None => None
  | Some sh =>
    if exited sh then None else
    match flushing sh, ev with
    | Some (n, ends), EvAttempt => Some (flush_attempt i n ends sh w)
    | None, EvMessage =>
      match bufferChan sh with
      | [] => None
      | msg :: rest =>
        let sh := mkShard (s_buffer sh ++ [msg]) rest (stopped sh) (exited sh) None (localBatchCnt sh)
                    (s64 (localMsgCnt sh + 1)) in
        if Z.of_nat (length (s_buffer sh)) >=? p_BatchSize (p_config w)
        then Some (set_shard i (flushShard false sh w) w)
        else Some (set_shard i sh w)
      end
    | None, EvTick => Some (set_shard i (flushShard false sh w) w)
    | None, EvStop => if stopped sh then Some (set_shard i (flushShard true sh w) w) else None
    | None, EvDone => Some (set_shard i (set_exited sh) w)
    | _, _ => None
    end
  end.

(** [Stop] closes every stop channel, which panics if one is closed already;
    it then waits for the shards to exit. *)
Definition p_Stop (w : ParallelBatchWriter) : exec ParallelBatchWriter :=
  if p_running w then
    if existsb stopped (shards w) then Panic else
    Ret (mkPBW (p_storage w) (p_config w)
      ((fun sh => mkShard (s_buffer sh) (bufferChan sh) true (exited sh) (flushing sh) (localBatchCnt sh) (localMsgCnt sh))
         <$> shards w)
      false (p_messageCount w) (p_batchCount w) (errorCount w))
  else Ret w.

End parallel.
Arguments ParallelBatchWriter : clear implicits.

(** ** The asynchronous writer *)

Section async.
Context {St : Type} `{!StorageBackend St}.

Record asyncBatchShard := mkAsyncShard {
  a_input : list PortaskMessage;
  currentBatch : list PortaskMessage;
  a_stopped : bool;
  a_exited : bool;
  batchIDGen : Z
}.

(** A background write: before the store call, and after it with its error. *)
Inductive pending := Storing (id : Z) (ms : list PortaskMessage) | Confirming (id size : Z) (err : option string).

Record AsyncBatchMetrics := mkAM {
  TotalMessagesWritten : Z; TotalBatchesWritten : Z; TotalBatchesConfirmed : Z; FailedBatches : Z;
  PendingBatches : Z; MessagesQueued : Z; QueueFullErrors : Z
}.

Record AsyncBatchWriter := mkABW {
  a_storage : St;
  a_config : ParallelBatchWriterConfig;
  a_shards : list asyncBatchShard;
  a_running : bool;
  confirmChan : list (Z * Z * option string);
  chan_closed : bool;
  goroutines : list pending;
  metrics : AsyncBatchMetrics
}.

Definition NewAsyncBatchWriter (st : St) (cfg : option ParallelBatchWriterConfig) : AsyncBatchWriter :=
  let cfg := default HighThroughputConfig cfg in
  mkABW st cfg (replicate (Z.to_nat (NumShards cfg)) (mkAsyncShard [] [] false true 0)) false [] false []
    (mkAM 0 0 0 0 0 0 0).

Definition a_Start (w : AsyncBatchWriter) : AsyncBatchWriter :=
  if a_running w then w else
  mkABW (a_storage w) (a_config w)
    ((fun sh => mkAsyncShard (a_input sh) (currentBatch sh) (a_stopped sh) false (batchIDGen sh)) <$> a_shards w)
    true (confirmChan w) (chan_closed w) (goroutines w) (metrics w).

Definition a_set_shard (i : nat) (sh : asyncBatchShard) (w : AsyncBatchWriter) : AsyncBatchWriter :=
  mkABW (a_storage w) (a_config w) (<[i := sh]> (a_shards w)) (a_running w) (confirmChan w) (chan_closed w)
    (goroutines w) (metrics w).
Definition set_metrics (m : AsyncBatchMetrics) (w : AsyncBatchWriter) : AsyncBatchWriter :=
  mkABW (a_storage w) (a_config w) (a_shards w) (a_running w) (confirmChan w) (chan_closed w)
    (goroutines w) m.

(** [Write], when it returns: at once with room in the channel, and after
    waiting, with the error counted, when the channel was full. *)
Definition a_Write (waited : bool) (msg : PortaskMessage) (w : AsyncBatchWriter)
  : exec (option AsyncBatchWriter * option string) :=
  if negb (a_running w) then Ret (None, Some "AsyncBatchWriter is not running") else
  if u32 (NumShards (a_config w)) =? 0 then Panic else
  let i := Z.to_nat (async_getShardID (NumShards (a_config w)) (Topic msg)) in
  match a_shards w !! i with
  | None => Panic
  | Some sh =>
    if Z.of_nat (length (a_input sh)) <? p_BatchSize (a_config w) * 2 then
      let m := metrics w in
      let w := a_set_shard i (mkAsyncShard (a_input sh ++ [msg]) (currentBatch sh) (a_stopped sh) (a_exited sh)
                              (batchIDGen sh)) w in
      Ret (Some (set_metrics
        (mkAM (TotalMessagesWritten m) (TotalBatchesWritten m) (TotalBatchesConfirmed m) (FailedBatches m)
           (PendingBatches m) (if waited then MessagesQueued m else s64 (MessagesQueued m + 1))
           (if waited then s64 (QueueFullErrors m + 1) else QueueFullErrors m)) w), None)
    else Ret (None, None)
  end.

(** [flushAsync]: the batch moves to a background goroutine. *)
Definition flushAsync (i : nat) (sh : asyncBatchShard) (w : AsyncBatchWriter) : AsyncBatchWriter :=
  if decide (currentBatch sh = []) then a_set_shard i sh w else
  let id := u64 (batchIDGen sh + 1) in
  let m := metrics w in
  let w := a_set_shard i (mkAsyncShard (a_input sh) [] (a_stopped sh) (a_exited sh) id) w in
  let w := set_metrics
    (mkAM (TotalMessagesWritten m) (s64 (TotalBatchesWritten m + 1)) (TotalBatchesConfirmed m) (FailedBatches m)
       (s64 (PendingBatches m + 1)) (MessagesQueued m) (QueueFullErrors m)) w in
  mkABW (a_storage w) (a_config w) (a_shards w) (a_running w) (confirmChan w) (chan_closed w)
    (goroutines w ++ [Storing id (currentBatch sh)]) (metrics w).

Inductive async_event := AvMessage (i : nat) | AvTick (i : nat) | AvStop (i : nat)
| AvStore (k : nat) | AvConfirm (k : nat) | AvProcess | AvClose.

Definition replace_goroutine (k : nat) (p : option pending) (w : AsyncBatchWriter) : AsyncBatchWriter :=
  mkABW (a_storage w) (a_config w) (a_shards w) (a_running w) (confirmChan w) (chan_closed w)
    (match p with
     | Some p => <[k := p]> (goroutines w)
     | None => take k (goroutines w) ++ drop (S k) (goroutines w)
     end) (metrics w).

(** One transition: a case of a shard's [run], the store call of a background
    goroutine (the parallel store of the interface falls back to [StoreBatch]),
    its send to the confirmation channel, which panics once the channel is
    closed, the confirmation loop, and the closing in [Stop]. *)
Definition async_step (ev : async_event) (w : AsyncBatchWriter) : option (exec AsyncBatchWriter) :=
  match ev with
  | AvMessage i =>
    match a_shards w !! i with
    | Some sh =>
      if a_exited sh then None else
      match a_input sh with
      | [] => None
      | msg :: rest =>
        let sh := mkAsyncShard rest (currentBatch sh ++ [msg]) (a_stopped sh) (a_exited sh) (batchIDGen sh) in
        Some (Ret (if Z.of_nat (length (currentBatch sh)) >=? p_BatchSize (a_config w)
                   then flushAsync i sh w else a_set_shard i sh w))
      end
    | None => None
    end
  | AvTick i =>
    match a_shards w !! i with
    | Some sh => if a_exited sh then None else Some (Ret (flushAsync i sh w))
    | None => None
    end
  | AvStop i =>
    match a_shards w !! i with
    | Some sh =>
      if a_exited sh || negb (a_stopped sh) then None
      else Some (Ret (flushAsync i (mkAsyncShard (a_input sh) (currentBatch sh) (a_stopped sh) true
                                      (batchIDGen sh)) w))
    | None => None
    end
  | AvStore k =>
    match goroutines w !! k with
    | Some (Storing id ms) =>
      let '(st, err) := StoreBatch ms (a_storage w) in
      let w := replace_goroutine k (Some (Confirming id (Z.of_nat (length ms)) err)) w in
      Some (Ret (mkABW st (a_config w) (a_shards w) (a_running w) (confirmChan w) (chan_closed w)
                   (goroutines w) (metrics w)))
    | _ => None
    end
  | AvConfirm k =>
    match goroutines w !! k with
    | Some (Confirming id size err) =>
      if chan_closed w then Some Panic
      else if Z.of_nat (length (confirmChan w)) <? NumShards (a_config w) * 10 then
        let w := replace_goroutine k None w in
        Some (Ret (mkABW (a_storage w) (a_config w) (a_shards w) (a_running w)
                     (confirmChan w ++ [(id, size, err)]) (chan_closed w) (goroutines w) (metrics w)))
      else None
    | _ => None
    end
  | AvProcess =>
    match confirmChan w with
    | [] => None
    | (id, size, err) :: rest =>
      let m := metrics w in
      let m := match err with
               | Some _ => mkAM (TotalMessagesWritten m) (TotalBatchesWritten m) (TotalBatchesConfirmed m)
                             (s64 (FailedBatches m + 1)) (s64 (PendingBatches m - 1)) (MessagesQueued m)
                             (QueueFullErrors m)
               | None => mkAM (s64 (TotalMessagesWritten m + size)) (TotalBatchesWritten m)
                           (s64 (TotalBatchesConfirmed m + 1)) (FailedBatches m) (s64 (PendingBatches m - 1))
                           (MessagesQueued m) (QueueFullErrors m)
               end in
      Some (Ret (mkABW (a_storage w) (a_config w) (a_shards w) (a_running w) rest (chan_closed w)
                   (goroutines w) m))
    end
  | AvClose =>
    if a_running w then
      if chan_closed w then Some Panic else
      Some (Ret (mkABW (a_storage w) (a_config w)
        ((fun sh => mkAsyncShard (a_input sh) (currentBatch sh) true (a_exited sh) (batchIDGen sh)) <$> a_shards w)
        false (confirmChan w) true (goroutines w) (metrics w)))
    else None
  end.

End async.
Arguments AsyncBatchWriter : clear implicits.

End Batch.
