(* ===== verification/BatchSpec.v ===== *)
(** * Properties of the batch writers

    - the laws of a storage whose [StoreBatch] is all or nothing
      ([AtomicStore]) and a store with scripted failures as an instance;
    - [BatchWriter]: exactly once and in order, over every sequence of calls
      and timer ticks and every pattern of storage failures;
    - [ParallelBatchWriter]: no accepted message is lost or duplicated while
      the shards run, and what [Stop] leaves behind;
    - [AsyncBatchWriter]: what [Stop] and a failing storage do. *)
From stdpp Require Import base gmap strings list numbers fin_maps relations.
From Stdlib Require Import ZArith Lia.
From S2P Require Import Prelude Types Wire Processor Batch.

Module BatchSpec.
Import Types Batch.

(** A storage whose batch call appends everything or nothing. *)
Class AtomicStore (St : Type) `{StorageBackend St} := {
  contents : St -> list PortaskMessage;
  store_ok ms st st' : StoreBatch ms st = (st', None) -> contents st' = contents st ++ ms;
  store_err ms st st' e : StoreBatch ms st = (st', Some e) -> contents st' = contents st
}.

Section atomic.
Context {St : Type} `{AtomicStore St}.



(** ** [BatchWriter] *)

Inductive bw_event := BWrite (m : PortaskMessage) | BTick | BStart | BStop.

Definition bw_step (bw : BatchWriter St) (ev : bw_event) : exec (BatchWriter St) :=
  match ev with
  | BWrite m => Ret (fst (Write m bw))
  | BTick => Ret (tick bw)
  | BStart => Ret (fst (Start bw))
  | BStop => do! r := Stop bw in Ret (fst r)
  end.
Fixpoint bw_run (evs : list bw_event) (bw : BatchWriter St) : exec (BatchWriter St) :=
  match evs with
  | [] => Ret bw
  | ev :: evs => do! bw := bw_step bw ev in bw_run evs bw
  end.







(** ** [ParallelBatchWriter] *)

(** The runs of a parallel writer, with the messages [Write] accepted.  [Start]
    is not called while goroutines of an earlier run are still ending. *)
Inductive p_step : list PortaskMessage * ParallelBatchWriter St ->
                   list PortaskMessage * ParallelBatchWriter St -> Prop :=
| p_step_write acc m w w' err :
    p_Write m w = Ret (w', err) ->
    p_step (acc, w) (if err then acc else acc ++ [m], w')
| p_step_shard acc i ev w w' : shard_step i ev w = Some w' -> p_step (acc, w) (acc, w')
| p_step_start acc w : p_startable w = true -> p_step (acc, w) (acc, fst (p_Start w))
| p_step_stop acc w w' : p_Stop w = Ret w' -> p_step (acc, w) (acc, w').

(** What a shard still holds: its buffer, then its channel. *)
Definition held (sh : batchShard) : list PortaskMessage := s_buffer sh ++ bufferChan sh.
Definition all_held (shs : list batchShard) : list PortaskMessage := concat (held <$> shs).

Lemma all_held_insert shs i sh sh' ms :
  shs !! i = Some sh -> held sh' ≡ₚ held sh ++ ms ->
  all_held (<[i := sh']> shs) ≡ₚ all_held shs ++ ms.
Proof.
  intros Hi Hh. unfold all_held.
  rewrite <- (take_drop_middle _ _ _ Hi) at 2.
  rewrite insert_take_drop by (by eapply lookup_lt_Some).
  rewrite !fmap_app, !fmap_cons, !concat_app. cbn [concat]. rewrite Hh.
  rewrite <- !app_assoc. apply Permutation_app_head, Permutation_app_head. apply Permutation_app_comm.
Qed.

Lemma all_held_same shs i sh sh' :
  shs !! i = Some sh -> held sh' = held sh -> all_held (<[i := sh']> shs) ≡ₚ all_held shs.
Proof.
  intros Hi Hh. rewrite (all_held_insert _ _ _ _ [] Hi), app_nil_r; [done|]. by rewrite Hh, app_nil_r.
Qed.

Lemma all_held_drop shs i sh sh' ms :
  shs !! i = Some sh -> held sh = ms ++ held sh' ->
  ms ++ all_held (<[i := sh']> shs) ≡ₚ all_held shs.
Proof.
  intros Hi Hh. assert (i < length shs)%nat by (by eapply lookup_lt_Some).
  assert (shs = <[i := sh]> (<[i := sh']> shs)) as ->%(f_equal all_held).
  { by rewrite list_insert_insert_eq, list_insert_id. }
  rewrite (all_held_insert (<[i := sh']> shs) i sh' sh ms); [apply Permutation_app_comm| |].
  - by apply list_lookup_insert_eq.
  - rewrite Hh. apply Permutation_app_comm.
Qed.

Lemma all_held_map (g : batchShard -> batchShard) shs :
  (forall sh, held (g sh) = held sh) -> all_held (g <$> shs) = all_held shs.
Proof.
  intros Hg. unfold all_held. f_equal. rewrite <- list_fmap_compose. apply list_fmap_ext.
  intros; apply Hg.
Qed.

(** A flush in progress has an attempt left. *)
Definition attempts_left (sh : batchShard) : Prop :=
  match flushing sh with Some (n, _) => (0 < n)%nat | None => True end.
Definition p_inv (acc0 : list PortaskMessage) (s : list PortaskMessage * ParallelBatchWriter St) : Prop :=
  let '(acc, w) := s in
  0 <= p_MaxRetries (p_config w) /\ Forall attempts_left (shards w) /\
  acc0 ++ acc ≡ₚ contents (p_storage w) ++ all_held (shards w).

Lemma p_inv_store acc0 acc (w w' : ParallelBatchWriter St) i sh sh' ms :
  p_inv acc0 (acc, w) -> shards w !! i = Some sh -> p_config w' = p_config w ->
  shards w' = <[i := sh']> (shards w) -> attempts_left sh' ->
  contents (p_storage w') = contents (p_storage w) ++ ms -> held sh = ms ++ held sh' ->
  p_inv acc0 (acc, w').
Proof.
  intros (Hr & Ha & Hp) Hi Hc Hs Hs' Hst Hh. split_and!; [by rewrite Hc| |].
  - rewrite Hs. by apply Forall_insert.
  - rewrite Hp, Hst, Hs, <- app_assoc. apply Permutation_app_head. symmetry. by eapply all_held_drop.
Qed.

Lemma send_to_inv acc0 acc i m (w w' : ParallelBatchWriter St) :
  p_inv acc0 (acc, w) -> send_to i m w = Ret (Some w') -> p_inv acc0 (acc ++ [m], w').
Proof.
  intros (Hr & Ha & Hp). unfold send_to, try_send. destruct (shards w !! Z.to_nat i) as [sh|] eqn:Hi; [|done].
  case_match; [|done]. case_match; [|done]. intros [= <-]. simplify_eq. cbn. split_and!; [done| |].
  - apply Forall_insert; [done|]. by apply (Forall_lookup_1 _ _ _ _ Ha Hi).
  - rewrite app_assoc, Hp, <- app_assoc. apply Permutation_app_head. symmetry.
    apply (all_held_insert _ _ _ _ _ Hi). unfold held. cbn. by rewrite app_assoc.
Qed.

Lemma flushed_held ends sh : held (flushed ends sh) = held sh.
Proof. by destruct ends. Qed.
Lemma flushed_left ends sh : attempts_left (flushed ends sh).
Proof. by destruct ends. Qed.
Lemma flushShard_held ends sh (w : ParallelBatchWriter St) : held (flushShard ends sh w) = held sh.
Proof. unfold flushShard. case_decide; [apply flushed_held|done]. Qed.
Lemma flushShard_left ends sh (w : ParallelBatchWriter St) :
  0 <= p_MaxRetries (p_config w) -> attempts_left (flushShard ends sh w).
Proof. intros Hr. unfold flushShard. case_decide; [apply flushed_left|]. unfold attempts_left. cbn. lia. Qed.

Lemma flush_attempt_inv acc0 acc i n ends sh (w : ParallelBatchWriter St) :
  p_inv acc0 (acc, w) -> shards w !! i = Some sh -> (0 < n)%nat ->
  p_inv acc0 (acc, flush_attempt i n ends sh w).
Proof.
  intros Hinv Hi Hn. unfold flush_attempt. destruct n as [|n]; [lia|].
  destruct (StoreBatch (s_buffer sh) (p_storage w)) as [st [e|]] eqn:E; [destruct n|].
  - eapply (p_inv_store _ _ _ _ _ _ _ [] Hinv Hi); cbn; [done|done|apply flushed_left| |by rewrite flushed_held].
    rewrite app_nil_r. by eapply store_err.
  - eapply (p_inv_store _ _ _ _ _ _ _ [] Hinv Hi); cbn; [done|done|unfold attempts_left; cbn; lia| |done].
    rewrite app_nil_r. by eapply store_err.
  - eapply (p_inv_store _ _ _ _ _ _ _ (s_buffer sh) Hinv Hi); cbn; [done|done|apply flushed_left| |by rewrite flushed_held].
    by eapply store_ok.
Qed.

Lemma shard_step_inv acc0 acc i ev (w w' : ParallelBatchWriter St) :
  p_inv acc0 (acc, w) -> shard_step i ev w = Some w' -> p_inv acc0 (acc, w').
Proof.
  intros Hinv. unfold shard_step. destruct (shards w !! i) as [sh|] eqn:Hi; [|done]. destruct (exited sh); [done|].
  pose proof Hinv as (Hr & Ha & _). pose proof (Forall_lookup_1 _ _ _ _ Ha Hi) as Hl. unfold attempts_left in Hl.
  assert (forall sh', attempts_left sh' -> held sh' = held sh -> p_inv acc0 (acc, set_shard i sh' w)) as Hset.
  { intros sh' H1 H2. eapply (p_inv_store _ _ _ _ _ _ sh' [] Hinv Hi); try done. by rewrite app_nil_r. }
  destruct (flushing sh) as [[n ends]|].
  - destruct ev; try done. intros [= <-]. by apply flush_attempt_inv.
  - destruct ev; try done.
    + destruct (bufferChan sh) as [|msg rest] eqn:Hc; [done|]. cbv zeta. cbn [s_buffer].
      case_match; intros [= <-]; apply Hset; rewrite ?flushShard_held; try apply flushShard_left; try done;
        unfold held; cbn; by rewrite Hc, <- app_assoc.
    + intros [= <-]. apply Hset; [by apply flushShard_left|apply flushShard_held].
    + destruct (stopped sh); [|done]. intros [= <-]. apply Hset; [by apply flushShard_left|apply flushShard_held].
    + intros [= <-]. by apply Hset.
Qed.

Lemma p_step_inv acc0 s s' : p_step s s' -> p_inv acc0 s -> p_inv acc0 s'.
Proof.
  intros Hs Hinv. destruct Hs as [acc m w w' err Hw|acc i ev w w' Hs|acc w Hst|acc w w' Hs].
  - unfold p_Write in Hw. destruct (p_running w); [|by simplify_eq/=].
    cbn [negb] in Hw. destruct (u32 _ =? 0); [done|].
    cbv zeta in Hw. destruct (send_to _ m w) as [[w1|]| |] eqn:E1; simplify_eq; [by eapply send_to_inv|].
    destruct (send_to ((_ + 1) `rem` _) m w) as [[w2|]| |] eqn:E2; simplify_eq; [by eapply send_to_inv|done].
  - by eapply shard_step_inv.
  - unfold p_Start. destruct (p_running w); [done|]. destruct Hinv as (Hr & Ha & Hp).
    cbn [fst p_inv p_config shards p_storage]. split_and!; [done| |by rewrite all_held_map].
    apply Forall_fmap, Forall_true. by intros sh.
  - unfold p_Stop in Hs. destruct (p_running w); simplify_eq/=; [|done].
    destruct (existsb _ _); simplify_eq. destruct Hinv as (Hr & Ha & Hp). cbn [p_config shards p_storage].
    split_and!; [done| |by rewrite all_held_map]. apply Forall_fmap. eapply Forall_impl; [exact Ha|]. by intros sh.
Qed.

(** C13: over an all-or-nothing storage (a call that fails stores nothing, one
    that succeeds stores its batch, [AtomicStore]; the Kafka adapter is not one)
    and with a non-negative number of retries, the sharded writer neither loses
    nor duplicates a message while it runs: over any interleaving of writes, shard
    iterations, single attempts of their flushes, starts and stops, whatever calls
    fail, the messages accepted are, up to order, what the storage gained together
    with what the shards' buffers and channels hold. *)
Theorem parallel_conservation st cfg acc w :
  0 <= p_MaxRetries (default DefaultParallelBatchWriterConfig cfg) ->
  rtc p_step ([], NewParallelBatchWriter st cfg) (acc, w) ->
  contents st ++ acc ≡ₚ contents (p_storage w) ++ all_held (shards w).
Proof.
  intros Hr Hsteps.
  assert (p_inv (contents st) ([], NewParallelBatchWriter st cfg)) as H0'.
  { cbn. split_and!; [done|by apply Forall_replicate|]. apply Permutation_app_head. unfold all_held.
    induction (Z.to_nat _) as [|n IH]; [done|]. cbn. exact IH. }
  revert H0'. change (p_inv (contents st) ([], NewParallelBatchWriter st cfg) ->
    contents st ++ (acc, w).1 ≡ₚ contents (p_storage (acc, w).2) ++ all_held (shards (acc, w).2)).
  generalize dependent (acc, w). intros s Hsteps Hi.
  assert (p_inv (contents st) s) as Hs.
  { clear Hr. induction Hsteps as [|x y z Hxy _ IH]; [done|]. by apply IH, (p_step_inv _ x). }
  destruct s as [acc' w']. by destruct Hs as (_ & _ & ?).
Qed.

End atomic.

(** ** A storage with scripted failures *)

(** Each call takes the next entry of the script: [true] fails. *)
#[export] Instance ScriptedStore : StorageBackend (list PortaskMessage * list bool) := fun ms st =>
  match st with
  | (stored, true :: script) => ((stored, script), Some "connection refused")
  | (stored, false :: script) => ((stored ++ ms, script), None)
  | (stored, []) => ((stored ++ ms, []), None)
  end.

#[export] Program Instance ScriptedAtomic : AtomicStore (list PortaskMessage * list bool) :=
  {| contents := fst |}.
Next Obligation. intros ms [stored [|[] script]] st'; cbn; by intros [= <-]. Qed.
Next Obligation. intros ms [stored [|[] script]] st' e; cbn; by intros [= <- _]. Qed.

Definition msg (id : string) : PortaskMessage := NewMessage id 0 "orders" [].
Definition flaky_writer : BatchWriter (list PortaskMessage * list bool) :=
  NewBatchWriter ([], [true; true; true; false]) (Some (mkBWConfig 10 2 1)).


(** [Stop] closes the stop channel for good: a writer started again panics
    when it is stopped again. *)
Lemma restarted_stop_panics : bw_run [BStart; BStop; BStart; BStop] flaky_writer = Panic.
Proof. reflexivity. Qed.

Definition p_flaky : ParallelBatchWriter (list PortaskMessage * list bool) :=
  NewParallelBatchWriter ([], [true]) (Some (mkPBWConfig 1 5 2 1 0 false)).
Definition after {A} (r : exec (A * option string)) (d : A) : A := match r with Ret (a, _) => a | _ => d end.
Definition p_accepting := after (p_Write (msg "b") (after (p_Write (msg "a") (fst (p_Start p_flaky))) p_flaky)) p_flaky.

Lemma p_accepting_run : rtc p_step ([], p_flaky) ([msg "a"; msg "b"], p_accepting).
Proof.
  eapply rtc_l; [by apply p_step_start|].
  eapply rtc_l; [eapply (p_step_write _ (msg "a") _ _ None); vm_compute; reflexivity|].
  eapply rtc_l; [eapply (p_step_write _ (msg "b") _ _ None); vm_compute; reflexivity|].
  apply rtc_refl.
Qed.

(** Two shards, a script of two failed calls, two attempts to a flush. *)
Definition p_two : ParallelBatchWriter (list PortaskMessage * list bool) :=
  NewParallelBatchWriter ([], [true; false; true; true; false]) (Some (mkPBWConfig 2 5 2 1 0 false)).
Definition p_two_started := fst (p_Start p_two).
Definition p_write_all (ms : list PortaskMessage) (w : ParallelBatchWriter (list PortaskMessage * list bool)) := foldl (fun w m => after (p_Write m w) w) w ms.
Definition p_shard_run (evs : list (nat * shard_event)) (w : ParallelBatchWriter (list PortaskMessage * list bool)) :=
  foldl (fun w ev => w ≫= shard_step (fst ev) (snd ev)) (Some w) evs.

Lemma p_shard_run_steps acc evs : forall w w',
  p_shard_run evs w = Some w' -> rtc p_step (acc, w) (acc, w').
Proof.
  unfold p_shard_run. induction evs as [|[i ev] evs IH]; intros w w' Hr; cbn in Hr; [simplify_eq; apply rtc_refl|].
  destruct (shard_step i ev w) as [w1|] eqn:E.
  - eapply rtc_l; [by eapply p_step_shard|]. by apply IH.
  - exfalso. clear -Hr. induction evs as [|ev' evs IH]; cbn in Hr; [done|by apply IH].
Qed.

(** The messages of a batch are taken, a first attempt fails and the second
    stores them; a third message is taken, a tick flushes it, and both attempts
    fail. *)
Definition two_events : list (nat * shard_event) :=
  let i := Z.to_nat (getShardID 2 "orders") in
  [(i, EvMessage); (i, EvMessage); (i, EvAttempt); (1 - i, EvTick)%nat; (i, EvAttempt); (i, EvMessage); (i, EvTick);
   (i, EvAttempt); (i, EvAttempt)].
Definition p_two_end := default p_two (p_shard_run two_events (p_write_all [msg "a"; msg "b"; msg "c"] p_two_started)).

Lemma parallel_conservation_witness :
  contents ([] : list PortaskMessage, [true; false; true; true; false]) ++ [msg "a"; msg "b"; msg "c"]
    ≡ₚ contents (p_storage p_two_end) ++ all_held (shards p_two_end)
  /\ contents (p_storage p_two_end) = [msg "a"; msg "b"] /\ errorCount p_two_end = 1
  /\ p_batchCount p_two_end = 1.
Proof.
  split; [|vm_compute; auto].
  apply (parallel_conservation ([], [true; false; true; true; false]) (Some (mkPBWConfig 2 5 2 1 0 false))).
  - vm_compute. discriminate.
  - eapply rtc_l; [by apply p_step_start|].
    eapply rtc_l; [eapply (p_step_write _ (msg "a") _ _ None); vm_compute; reflexivity|].
    eapply rtc_l; [eapply (p_step_write _ (msg "b") _ _ None); vm_compute; reflexivity|].
    eapply rtc_l; [eapply (p_step_write _ (msg "c") _ _ None); vm_compute; reflexivity|].
    apply (p_shard_run_steps _ two_events). vm_compute. reflexivity.
Defined.

(** [Stop] is documented to flush the remaining messages, but a shard that
    takes the stop case flushes its buffer and leaves what is in its channel:
    the writer is stopped, both accepted messages are in no storage, and no
    shard runs that could store them. *)
Lemma stop_loses_queued : exists w,
  rtc p_step ([], p_flaky) ([msg "a"; msg "b"], w) /\
  p_running w = false /\ Forall (fun sh => exited sh = true) (shards w) /\
  contents (p_storage w) = [] /\ all_held (shards w) = [msg "a"; msg "b"] /\
  forall i ev, shard_step i ev w = None.
Proof.
  eexists. split_and!.
  - etrans; [apply p_accepting_run|].
    eapply rtc_l; [eapply p_step_stop; vm_compute; reflexivity|].
    eapply rtc_l; [eapply (p_step_shard _ 0 EvStop); vm_compute; reflexivity|]. apply rtc_refl.
  - reflexivity.
  - repeat constructor.
  - reflexivity.
  - reflexivity.
  - intros [|i] ev; reflexivity.
Qed.

(** ** [AsyncBatchWriter] *)

Fixpoint async_run {St} `{StorageBackend St} (evs : list async_event) (w : AsyncBatchWriter St)
  : option (exec (AsyncBatchWriter St)) :=
  match evs with
  | [] => Some (Ret w)
  | ev :: evs => match async_step ev w with
                 | Some (Ret w) => async_run evs w
                 | r => r
                 end
  end.

Definition async_of (script : list bool) : AsyncBatchWriter (list PortaskMessage * list bool) :=
  let w := a_Start (NewAsyncBatchWriter ([], script) (Some (mkPBWConfig 1 5 1 3 0 false))) in
  match a_Write false (msg "a") w with Ret (Some w, _) => w | _ => w end.

(** [Stop] closes the confirmation channel before the background writes are
    done: the write of a batch that is still out ends in a send on a closed
    channel, which panics the process. *)
Lemma async_stop_panics :
  async_run [AvMessage 0; AvStore 0; AvClose; AvConfirm 0] (async_of []) = Some Panic.
Proof. reflexivity. Qed.

(** A batch whose store call fails is counted and dropped, whatever the
    configured retries. *)
Lemma async_drops_failed : exists w,
  async_run [AvMessage 0; AvStore 0; AvConfirm 0; AvProcess] (async_of [true]) = Some (Ret w) /\
  p_MaxRetries (a_config w) = 3 /\ FailedBatches (metrics w) = 1 /\ PendingBatches (metrics w) = 0 /\
  contents (a_storage w) = [] /\ goroutines w = [] /\
  a_shards w = [mkAsyncShard [] [] false false 1].
Proof. eexists. split; [vm_compute; reflexivity|]. by vm_compute. Qed.

(** The two writers place a topic with non-ASCII letters in different shards. *)
Lemma shard_hashes_differ :
  getShardID 32 (String (Ascii.ascii_of_nat 195) (String (Ascii.ascii_of_nat 169) "")) = 9 /\
  async_getShardID 32 (String (Ascii.ascii_of_nat 195) (String (Ascii.ascii_of_nat 169) "")) = 6.
Proof. split; vm_compute; reflexivity. Qed.

(** Every shard number is in range, whatever the topic. *)
Lemma getShardID_range n topic :
  0 < n < 2 ^ 32 -> 0 <= getShardID n topic < n /\ 0 <= async_getShardID n topic < n.
Proof.
  intros Hn. unfold getShardID, async_getShardID.
  assert (u32 n = n) as -> by (unfold wrapu; apply Z.mod_small; lia).
  split; apply Z.mod_pos_bound; lia.
Qed.

End BatchSpec.
