(* ===== verification/KafkaStore.v ===== *)
(** * The Kafka message store ([src/pkg/kafka/protocol.go]), its adapter to the
      batch writer ([processor_bridge.go]) and the error values ([errors.go])

    [MessageStore] is the interface the request handlers use;
    [InMemoryMessageStore] is the implementation of the package.  Every method
    holds the store's mutex.  The arrival time a stored message records is left
    out: nothing reads it.  The package-wide consumer groups of the file are
    [consumerGroups]. *)
From stdpp Require Import base gmap strings list numbers fin_maps pretty.
From Stdlib Require Import ZArith Lia.
From S2P Require Import Prelude Types Wire Processor Batch.

Module KafkaStore.
Import Types.

Record Message := mkKMessage {
  k_Offset : Z;
  k_Key : bytes;
  k_Value : bytes
}.

Record PartitionMetadata := mkPartition {
  pm_ID : Z; pm_Leader : Z; pm_Replicas : list Z; pm_ISR : list Z; pm_Offline : list Z; pm_Error : Z
}.
Record TopicMetadata := mkTopicMetadata {
  tm_Name : string; tm_Partitions : list PartitionMetadata; tm_Error : Z
}.

(** The interface.  An error is its text; a call may panic. *)
Class MessageStore (St : Type) := {
  ProduceMessage : string -> Z -> bytes -> bytes -> St -> St * res string Z;
  ConsumeMessages : string -> Z -> Z -> Z -> St -> exec (res string (list Message));
  GetTopicMetadata : list string -> St -> St * res string (option TopicMetadata);
  CreateTopic : string -> Z -> Z -> St -> St * option string;
  DeleteTopic : string -> St -> St * option string
}.

(** ** The in-memory store *)

Record InMemoryTopic := mkTopic { Name : string; Partitions : gmap Z (list Message) }.
Abbreviation InMemoryMessageStore := (gmap string InMemoryTopic).
Definition NewInMemoryMessageStore : InMemoryMessageStore := ∅.

(** [for i := int32(0); i < partitions; i++] *)
Definition fresh_partitions (partitions : Z) : gmap Z (list Message) :=
  foldl (fun m i => <[Z.of_nat i := []]> m) ∅ (seq 0 (Z.to_nat partitions)).

Definition mem_CreateTopic (topic : string) (partitions replication : Z) (s : InMemoryMessageStore)
  : InMemoryMessageStore * option string :=
  match s !! topic with
  | Some _ => (s, None)
  | None => (<[topic := mkTopic topic (fresh_partitions partitions)]> s, None)
  end.

(** Reading an absent partition gives the nil slice. *)
Definition messages (t : InMemoryTopic) (partition : Z) : list Message :=
  default [] (Partitions t !! partition).

Definition mem_ProduceMessage (topic : string) (partition : Z) (key value : bytes) (s : InMemoryMessageStore)
  : InMemoryMessageStore * res string Z :=
  match s !! topic with
  | None => (s, Err ("topic not found: " +:+ topic))
  | Some t =>
    let msgs := messages t partition in
    let offset := Z.of_nat (length msgs) in
    (<[topic := mkTopic (Name t)
         (<[partition := msgs ++ [mkKMessage offset key value]]> (Partitions t))]> s, Ok offset)
  end.

(** The loop from [offset]: [size] is an int32, and an oversized message is
    only kept when it is the first. *)
Fixpoint take_fitting (maxBytes size : Z) (result msgs : list Message) : list Message :=
  match msgs with
  | [] => result
  | m :: msgs =>
    let size := s32 (size + s32 (Z.of_nat (length (k_Value m)))) in
    if (size >? maxBytes) && (0 <? Z.of_nat (length result)) then result
    else take_fitting maxBytes size (result ++ [m]) msgs
  end.

Definition mem_ConsumeMessages (topic : string) (partition offset maxBytes : Z) (s : InMemoryMessageStore)
  : exec (res string (list Message)) :=
  match s !! topic with
  | None => Ret (Err ("topic not found: " +:+ topic))
  | Some t =>
    let msgs := messages t partition in
    if offset >=? Z.of_nat (length msgs) then Ret (Ok [])
    else if offset <? 0 then Panic
    else Ret (Ok (take_fitting maxBytes 0 [] (drop (Z.to_nat offset) msgs)))
  end.

Definition partition_entry (pid : Z) : PartitionMetadata := mkPartition pid 1 [1] [1] [] 0.

(** A topic that does not exist is created with one partition.  The order of
    the partitions is that of a Go map iteration. *)
Definition mem_GetTopicMetadata (topics : list string) (s : InMemoryMessageStore)
  : InMemoryMessageStore * res string (option TopicMetadata) :=
  match topics with
  | [] => (s, Err "no topics requested")
  | topicName :: _ =>
    let '(s, t) := match s !! topicName with
                   | Some t => (s, t)
                   | None => let t := mkTopic topicName {[0 := []]} in (<[topicName := t]> s, t)
                   end in
    (s, Ok (Some (mkTopicMetadata (Name t) ((fun p => partition_entry (fst p)) <$> map_to_list (Partitions t)) 0)))
  end.

Definition mem_DeleteTopic (topic : string) (s : InMemoryMessageStore)
  : InMemoryMessageStore * option string := (delete topic s, None).

#[export] Instance InMemory_MessageStore : MessageStore InMemoryMessageStore := {|
  ProduceMessage := mem_ProduceMessage;
  ConsumeMessages := mem_ConsumeMessages;
  GetTopicMetadata := mem_GetTopicMetadata;
  CreateTopic := mem_CreateTopic;
  DeleteTopic := mem_DeleteTopic
|}.

(** ** The adapter of the batch writer *)

Section adapter.
Context {St : Type} `{!MessageStore St}.

Fixpoint StoreBatch (ms : list PortaskMessage) (st : St) : St * option string :=
  match ms with
  | [] => (st, None)
  | m :: ms =>
    match ProduceMessage (Topic m) (Partition m) (Wire.bytes_of_string (Key m)) (Payload m) st with
    | (st, Err e) => (st, Some ("failed to store message " +:+ ID m +:+ ": " +:+ e))
    | (st, Ok _) => StoreBatch ms st
    end
  end.

#[export] Instance KafkaStorageAdapter : Batch.StorageBackend St := StoreBatch.
End adapter.

(** ** The consumer groups of the package *)

Record ConsumerGroupMember := mkCGMember {
  cg_MemberID : string; cg_ClientID : string; cg_Assignments : gmap string (list Z)
}.
Record ConsumerGroupState := mkCG {
  cg_Members : gmap string ConsumerGroupMember;
  cg_Offsets : gmap string (gmap Z Z)
}.
Abbreviation consumerGroups := (gmap string ConsumerGroupState).

Definition cg_of (group : string) (cgs : consumerGroups) : ConsumerGroupState :=
  default (mkCG ∅ ∅) (cgs !! group).

Definition CommitOffset (group topic : string) (partition offset : Z) (cgs : consumerGroups) : consumerGroups :=
  let cg := cg_of group cgs in
  let ps := default ∅ (cg_Offsets cg !! topic) in
  <[group := mkCG (cg_Members cg) (<[topic := <[partition := offset]> ps]> (cg_Offsets cg))]> cgs.

(** Zero for everything that is absent. *)
Definition FetchOffset (group topic : string) (partition : Z) (cgs : consumerGroups) : Z :=
  match cgs !! group with
  | None => 0
  | Some cg => default 0 (default ∅ (cg_Offsets cg !! topic) !! partition)
  end.

Definition JoinConsumerGroup (group memberID clientID : string) (assignments : gmap string (list Z))
  (cgs : consumerGroups) : consumerGroups :=
  let cg := cg_of group cgs in
  <[group := mkCG (<[memberID := mkCGMember memberID clientID assignments]> (cg_Members cg)) (cg_Offsets cg)]> cgs.

(** ** Errors *)

Record KafkaError := mkKafkaError { Code : Z; ErrMessage : string }.

Definition Error (e : KafkaError) : string := "Kafka error " +:+ pretty (Code e) +:+ ": " +:+ ErrMessage e.

Definition NewNoError : KafkaError := mkKafkaError 0 "No error".
Definition NewOffsetOutOfRange : KafkaError :=
  mkKafkaError 1 "The requested offset is not within the range of offsets maintained by the server".
Definition NewUnknownTopicOrPartition (topic : string) : KafkaError :=
  mkKafkaError 3 ("Unknown topic or partition: " +:+ topic).
Definition NewInvalidRequest (msg : string) : KafkaError := mkKafkaError 42 msg.
Definition NewUnknownMemberId (memberID : string) : KafkaError :=
  mkKafkaError 25 ("Unknown member ID: " +:+ memberID).
Definition NewIllegalGeneration (expected actual : Z) : KafkaError :=
  mkKafkaError 22 ("Illegal generation: expected " +:+ pretty expected +:+ ", got " +:+ pretty actual).
Definition NewRebalanceInProgress : KafkaError :=
  mkKafkaError 27 "The group is rebalancing, so a rejoin is needed".
Definition NewInvalidGroupId (groupID : string) : KafkaError := mkKafkaError 24 ("Invalid group ID: " +:+ groupID).
Definition NewGroupIdNotFound (groupID : string) : KafkaError := mkKafkaError 69 ("Group not found: " +:+ groupID).
Definition NewInvalidSessionTimeout : KafkaError :=
  mkKafkaError 26 "The session timeout is not within the range allowed by the broker".
Definition NewCoordinatorNotAvailable : KafkaError := mkKafkaError 15 "The coordinator is not available".
Definition NewNotCoordinator : KafkaError := mkKafkaError 16 "This server is not the coordinator".
Definition NewTopicAuthorizationFailed (topic : string) : KafkaError :=
  mkKafkaError 29 ("Topic authorization failed: " +:+ topic).
Definition NewGroupAuthorizationFailed (groupID : string) : KafkaError :=
  mkKafkaError 30 ("Group authorization failed: " +:+ groupID).
Definition NewMessageTooLarge (sz max : Z) : KafkaError :=
  mkKafkaError 10 ("Message size " +:+ pretty sz +:+ " exceeds maximum " +:+ pretty max).
Definition NewRequestTimedOut : KafkaError := mkKafkaError 7 "The request timed out".
Definition NewUnsupportedVersion (version : Z) : KafkaError :=
  mkKafkaError 35 ("Unsupported version: " +:+ pretty version).
Definition NewTopicAlreadyExists (topic : string) : KafkaError :=
  mkKafkaError 36 ("Topic already exists: " +:+ topic).
Definition NewInvalidPartitions (partitions : Z) : KafkaError :=
  mkKafkaError 37 ("Invalid number of partitions: " +:+ pretty partitions).
Definition NewInvalidReplicationFactor (factor : Z) : KafkaError :=
  mkKafkaError 38 ("Invalid replication factor: " +:+ pretty factor).
Definition NewInvalidConfig (config : string) : KafkaError :=
  mkKafkaError 40 ("Invalid configuration: " +:+ config).
Definition NewNetworkException (msg : string) : KafkaError := mkKafkaError 13 msg.
Definition NewCorruptMessage : KafkaError := mkKafkaError 2 "Message is corrupt (crc mismatch)".

Definition IsRetriable (e : KafkaError) : bool := bool_decide (Code e ∈ [5; 6; 7; 13; 14; 15; 16; 27]).
Definition IsFatal (e : KafkaError) : bool := bool_decide (Code e ∈ [29; 30; 31; 24; 17; 35; 42]).

Definition GetErrorForCode (code : Z) : KafkaError :=
  if code =? 0 then NewNoError
  else if code =? 1 then NewOffsetOutOfRange
  else if code =? 25 then NewUnknownMemberId ""
  else if code =? 22 then NewIllegalGeneration 0 0
  else if code =? 27 then NewRebalanceInProgress
  else if code =? 26 then NewInvalidSessionTimeout
  else if code =? 7 then NewRequestTimedOut
  else if code =? 15 then NewCoordinatorNotAvailable
  else if code =? 16 then NewNotCoordinator
  else mkKafkaError code "Unknown error".

End KafkaStore.
