(* ===== verification/KafkaStoreSpec.v ===== *)
(** * Properties of the Kafka message store and of its batch adapter

    - dense offsets: over any sequence of store operations the message at
      position [i] of a partition carries offset [i], and a produced message is
      the first a consumer reads at its offset;
    - what a bounded read returns;
    - batches through the adapter: not atomic, so a failing batch is stored in
      part, again at every retry. *)
From stdpp Require Import base gmap strings list numbers fin_maps.
From Stdlib Require Import ZArith Lia.
From S2P Require Import Prelude Types Wire Processor Batch KafkaStore.

Module KafkaStoreSpec.
Import Types KafkaStore.

(** ** Bounded reads *)

Definition total (ms : list Message) : Z := foldr (fun m n => Z.of_nat (length (k_Value m)) + n) 0 ms.

Lemma total_nonneg ms : 0 <= total ms.
Proof. induction ms as [|m ms IH]; cbn [total foldr]; [lia|]. fold (total ms). lia. Qed.

Lemma total_app a b : total (a ++ b) = total a + total b.
Proof. induction a as [|m a IH]; [done|]. cbn [app total foldr]. fold (total (a ++ b)) (total a). lia. Qed.

Lemma take_fitting_spec maxBytes msgs : forall size result,
  size = total result -> total result + total msgs < 2 ^ 31 ->
  exists k, take_fitting maxBytes size result msgs = result ++ take k msgs /\
    (k <= length msgs)%nat /\
    (result = [] -> msgs <> [] -> (0 < k)%nat) /\
    ((0 < k)%nat -> total (result ++ take k msgs) <= maxBytes \/ (result = [] /\ k = 1%nat)) /\
    (forall m, msgs !! k = Some m -> maxBytes < total (result ++ take k msgs) + Z.of_nat (length (k_Value m))).
Proof.
  induction msgs as [|m msgs IH]; intros size result -> Hb; cbn [take_fitting].
  { exists 0%nat. cbn. rewrite app_nil_r. repeat split; [done..|lia|done]. }
  cbn [total foldr] in Hb. fold (total msgs) in Hb.
  pose proof (total_nonneg result). pose proof (total_nonneg msgs).
  assert (s32 (total result + s32 (Z.of_nat (length (k_Value m)))) = total (result ++ [m])) as ->.
  { rewrite total_app. cbn [total foldr]. rewrite (wraps_small 32 (Z.of_nat _)), wraps_small by lia. lia. }
  assert (total (result ++ [m]) + total msgs < 2 ^ 31) as Hb'.
  { rewrite total_app. cbn [total foldr]. lia. }
  destruct ((total (result ++ [m]) >? maxBytes) && (0 <? Z.of_nat (length result))) eqn:Hc.
  - apply andb_true_iff in Hc as [Hover Hne]. zb. exists 0%nat. cbn [take]. rewrite app_nil_r.
    split_and!; [done|lia|intros ->; cbn in Hne; lia|lia|].
    intros m' [= <-]. rewrite total_app in Hover. cbn [total foldr] in Hover. lia.
  - destruct (IH _ (result ++ [m]) eq_refl Hb') as (k & -> & Hk & _ & Hf & Hn).
    exists (S k). cbn [take length lookup]. rewrite <- app_assoc in *. cbn [app] in *.
    split_and!; [done|lia|lia| |exact Hn].
    intros _. destruct k as [|k].
    + cbn [take]. apply andb_false_iff in Hc as [Hc|Hc]; zb; [by left|].
      right. split; [|done]. destruct result; [done|cbn in Hc; lia].
    + destruct (Hf ltac:(lia)) as [?|[He _]]; [by left|]. by destruct result.
Qed.

(** A bounded read: at an offset inside the partition the store returns at
    least one message, the next ones in order, as many as fit: their values fit
    in [maxBytes] unless only one is returned, and the next would not have
    fitted. *)
Theorem consume_fitting s topic t partition offset maxBytes :
  s !! topic = Some t -> 0 <= offset < Z.of_nat (length (messages t partition)) ->
  total (messages t partition) < 2 ^ 31 ->
  exists k, ConsumeMessages topic partition offset maxBytes s
      = Ret (Ok (take k (drop (Z.to_nat offset) (messages t partition))))
    /\ (0 < k)%nat
    /\ (total (take k (drop (Z.to_nat offset) (messages t partition))) <= maxBytes \/ k = 1%nat)
    /\ (forall m, messages t partition !! (Z.to_nat offset + k)%nat = Some m ->
          maxBytes < total (take k (drop (Z.to_nat offset) (messages t partition)))
                     + Z.of_nat (length (k_Value m))).
Proof.
  intros Ht Ho Hb. cbn [ConsumeMessages InMemory_MessageStore]. unfold mem_ConsumeMessages. rewrite Ht.
  cbv zeta. set (ms := messages t partition) in *.
  destruct (Z.geb_spec offset (Z.of_nat (length ms))); [lia|].
  destruct (Z.ltb_spec offset 0); [lia|].
  assert (total (drop (Z.to_nat offset) ms) < 2 ^ 31) as Hd.
  { rewrite <- (take_drop (Z.to_nat offset) ms), total_app in Hb.
    pose proof (total_nonneg (take (Z.to_nat offset) ms)). lia. }
  destruct (take_fitting_spec maxBytes (drop (Z.to_nat offset) ms) 0 [] eq_refl Hd)
    as (k & -> & Hk & Hpos & Hf & Hn).
  assert (0 < k)%nat as Hk0.
  { apply Hpos; [done|]. intros E. apply (f_equal length) in E. rewrite length_drop in E. cbn in E. lia. }
  exists k. cbn [app] in *. split_and!; [done|done|naive_solver|].
  intros m Hm. apply Hn. by rewrite lookup_drop.
Qed.

Definition small_store : InMemoryMessageStore :=
  {["t" := mkTopic "t" {[0 := [mkKMessage 0 [] [1; 2]; mkKMessage 1 [] [3; 4; 5]; mkKMessage 2 [] [6]]]}]}.

Lemma consume_fitting_witness : exists k,
  ConsumeMessages "t" 0 0 5 small_store = Ret (Ok (take k [mkKMessage 0 [] [1; 2]; mkKMessage 1 [] [3; 4; 5];
    mkKMessage 2 [] [6]])) /\ (0 < k)%nat.
Proof.
  destruct (consume_fitting small_store "t" (mkTopic "t" {[0 := [mkKMessage 0 [] [1; 2];
    mkKMessage 1 [] [3; 4; 5]; mkKMessage 2 [] [6]]]}) 0 0 5) as (k & E & Hk & _).
  - vm_compute. reflexivity.
  - vm_compute. split; [discriminate|reflexivity].
  - vm_compute. reflexivity.
  - exists k. split; [exact E|exact Hk].
Defined.

(** A negative offset of an existing topic panics, and with it the server. *)
Lemma negative_offset_panics s topic t partition offset maxBytes :
  s !! topic = Some t -> offset < 0 -> ConsumeMessages topic partition offset maxBytes s = Panic.
Proof.
  intros Ht Ho. cbn. unfold mem_ConsumeMessages. rewrite Ht.
  destruct (Z.geb_spec offset (Z.of_nat (length (messages t partition)))); [lia|].
  by destruct (Z.ltb_spec offset 0); [|lia].
Qed.

(** ** Dense offsets *)

Definition dense (ms : list Message) : Prop := forall i m, ms !! i = Some m -> k_Offset m = Z.of_nat i.
Definition store_ok (s : InMemoryMessageStore) : Prop :=
  map_Forall (fun name t => Name t = name /\ map_Forall (fun _ ms => dense ms) (Partitions t)) s.

Lemma dense_snoc ms key value : dense ms -> dense (ms ++ [mkKMessage (Z.of_nat (length ms)) key value]).
Proof.
  intros Hd i m Hm. apply lookup_app_Some in Hm as [Hm|[Hi Hm]]; [by apply Hd|].
  apply list_lookup_singleton_Some in Hm as [Hi' <-]. cbn. lia.
Qed.

Lemma messages_dense t partition : map_Forall (fun _ ms => dense ms) (Partitions t) -> dense (messages t partition).
Proof.
  intros Ht. unfold messages. destruct (Partitions t !! partition) as [ms|] eqn:E; cbn; [by eapply Ht|].
  by intros i m.
Qed.

Lemma messages_insert name p ms ps : messages (mkTopic name (<[p := ms]> ps)) p = ms.
Proof. unfold messages. cbn [Partitions]. by rewrite lookup_insert_eq. Qed.

Lemma fresh_partitions_empty n p ms : fresh_partitions n !! p = Some ms -> ms = [].
Proof.
  unfold fresh_partitions. generalize (seq 0 (Z.to_nat n)). intros l.
  assert (forall m : gmap Z (list Message), (forall p ms, m !! p = Some ms -> ms = []) ->
    forall p ms, foldl (fun m i => <[Z.of_nat i := []]> m) m l !! p = Some ms -> ms = []) as Hgen.
  { induction l as [|i l IH]; intros m Hm; [done|]. cbn [foldl]. apply IH. intros p' ms'.
    rewrite lookup_insert_Some. naive_solver. }
  apply Hgen. intros p' ms'. by rewrite lookup_empty.
Qed.

Inductive store_op :=
| OpCreate (topic : string) (partitions replication : Z)
| OpProduce (topic : string) (partition : Z) (key value : bytes)
| OpMetadata (topics : list string)
| OpDelete (topic : string).

Definition run_store (s : InMemoryMessageStore) (op : store_op) : InMemoryMessageStore :=
  match op with
  | OpCreate topic partitions replication => fst (CreateTopic topic partitions replication s)
  | OpProduce topic partition key value => fst (ProduceMessage topic partition key value s)
  | OpMetadata topics => fst (GetTopicMetadata topics s)
  | OpDelete topic => fst (DeleteTopic topic s)
  end.

Lemma produce_ok topic partition key value s :
  store_ok s -> store_ok (fst (ProduceMessage topic partition key value s)).
Proof.
  intros Hs. cbn. unfold mem_ProduceMessage. destruct (s !! topic) as [t|] eqn:E; [|done]. cbn [fst].
  destruct (Hs _ _ E) as [Hn Ht]. apply map_Forall_insert_2; [|done]. split; [done|]. cbn.
  apply map_Forall_insert_2; [|done]. by apply dense_snoc, messages_dense.
Qed.

Lemma run_store_ok s op : store_ok s -> store_ok (run_store s op).
Proof.
  intros Hs. destruct op as [topic n r|topic partition key value|topics|topic]; cbn [run_store].
  - cbn. unfold mem_CreateTopic. destruct (s !! topic); [done|]. cbn.
    apply map_Forall_insert_2; [|done]. split; [done|]. cbn. intros p ms ->%fresh_partitions_empty.
    by intros i m.
  - by apply produce_ok.
  - cbn. unfold mem_GetTopicMetadata. destruct topics as [|name topics]; [done|].
    destruct (s !! name); [done|]. cbn. apply map_Forall_insert_2; [|done]. split; [done|]. cbn.
    apply map_Forall_singleton. by intros i m.
  - cbn. by apply map_Forall_delete.
Qed.

(** C21: dense offsets: in every store reached by creating, deleting, producing
    and asking for metadata, position [i] of a partition holds the message with
    offset [i]; and producing returns the offset at which a consumer then reads
    exactly that message first. *)
Theorem store_offsets_dense ops s topic t partition :
  s = foldl run_store NewInMemoryMessageStore ops -> s !! topic = Some t ->
  (forall i m, messages t partition !! i = Some m -> k_Offset m = Z.of_nat i) /\
  (forall key value maxBytes, exists s' o rest,
    ProduceMessage topic partition key value s = (s', Ok o)
    /\ ConsumeMessages topic partition o maxBytes s' = Ret (Ok (mkKMessage o key value :: rest))).
Proof.
  intros -> Ht. assert (store_ok (foldl run_store NewInMemoryMessageStore ops)) as Hs.
  { clear Ht. assert (store_ok NewInMemoryMessageStore) as H0 by apply map_Forall_empty. revert H0.
    generalize NewInMemoryMessageStore. induction ops as [|op ops IH]; intros s0 H0; [done|].
    cbn [foldl]. by apply IH, run_store_ok. }
  split; [by apply messages_dense, (Hs _ _ Ht)|].
  intros key value maxBytes. cbn. unfold mem_ProduceMessage. rewrite Ht.
  do 3 eexists. split; [reflexivity|]. unfold mem_ConsumeMessages. rewrite lookup_insert_eq.
  cbv zeta. rewrite messages_insert, length_app. cbn [length]. destruct (Z.geb_spec (Z.of_nat (length (messages t partition)))
    (Z.of_nat (length (messages t partition) + 1))); [lia|].
  destruct (Z.ltb_spec (Z.of_nat (length (messages t partition))) 0); [lia|].
  rewrite Nat2Z.id, drop_app_length. cbn [take_fitting app length].
  rewrite andb_false_r. reflexivity.
Qed.

Lemma store_offsets_dense_witness :
  exists s' o rest,
    ProduceMessage "t" 3 [] [9] (foldl run_store NewInMemoryMessageStore [OpCreate "t" 2 1; OpProduce "t" 3 [] [8]])
      = (s', Ok o)
    /\ ConsumeMessages "t" 3 o 10 s' = Ret (Ok (mkKMessage o [] [9] :: rest)).
Proof.
  eapply (proj2 (store_offsets_dense [OpCreate "t" 2 1; OpProduce "t" 3 [] [8]] _ "t" _ 3 eq_refl
    ltac:(vm_compute; reflexivity))).
Defined.

(** ** Batches through the adapter *)

(** The messages of a batch, produced one by one. *)
Definition put_all (ms : list PortaskMessage) (s : InMemoryMessageStore) : InMemoryMessageStore :=
  foldl (fun s m => fst (ProduceMessage (Topic m) (Partition m) (Wire.bytes_of_string (Key m)) (Payload m) s)) s ms.

Lemma produce_keeps topic' topic partition key value s :
  is_Some (s !! topic') <-> is_Some (fst (mem_ProduceMessage topic partition key value s) !! topic').
Proof.
  unfold mem_ProduceMessage. destruct (s !! topic) as [t|] eqn:E; [|done]. cbn.
  destruct (decide (topic' = topic)) as [->|Hne].
  - rewrite lookup_insert_eq, E. by split.
  - by rewrite lookup_insert_ne.
Qed.

Lemma put_all_keeps topic ms s : is_Some (s !! topic) <-> is_Some (put_all ms s !! topic).
Proof.
  revert s. induction ms as [|m ms IH]; intros s; [done|]. unfold put_all in *. cbn [foldl].
  rewrite <- IH. apply produce_keeps.
Qed.

Lemma StoreBatch_prefix pre rest s :
  Forall (fun m => is_Some (s !! Topic m)) pre ->
  StoreBatch (pre ++ rest) s = StoreBatch rest (put_all pre s).
Proof.
  revert s. induction pre as [|m pre IH]; intros s Hp; [done|].
  apply Forall_cons in Hp as [[t Ht] Hp]. cbn [app StoreBatch].
  unfold put_all. cbn [foldl]. fold (put_all pre (fst (ProduceMessage (Topic m) (Partition m)
    (Wire.bytes_of_string (Key m)) (Payload m) s))).
  cbn [ProduceMessage InMemory_MessageStore]. unfold mem_ProduceMessage at 1.
  rewrite Ht. rewrite IH; [unfold mem_ProduceMessage; by rewrite Ht|].
  eapply Forall_impl; [exact Hp|]. intros m' Hm'. cbn.
  pose proof (proj1 (produce_keeps (Topic m') (Topic m) (Partition m) (Wire.bytes_of_string (Key m))
    (Payload m) s) Hm') as Hk. unfold mem_ProduceMessage in Hk. by rewrite Ht in Hk.
Qed.

Lemma StoreBatch_poisoned pre bad rest s :
  Forall (fun m => is_Some (s !! Topic m)) pre -> s !! Topic bad = None ->
  exists e, StoreBatch (pre ++ bad :: rest) s = (put_all pre s, Some e).
Proof.
  intros Hp Hb. rewrite StoreBatch_prefix by done. cbn [StoreBatch ProduceMessage InMemory_MessageStore].
  unfold mem_ProduceMessage.
  assert (put_all pre s !! Topic bad = None) as ->.
  { apply eq_None_not_Some. rewrite <- put_all_keeps, Hb. by intros []. }
  by eexists.
Qed.

Lemma store_retry_poisoned n pre bad rest : forall s e,
  Forall (fun m => is_Some (s !! Topic m)) pre -> s !! Topic bad = None ->
  exists e', Batch.store_retry n (pre ++ bad :: rest) s (Some e) = (Nat.iter n (put_all pre) s, Some e').
Proof.
  induction n as [|n IH]; intros s e Hp Hb; [by eexists|].
  cbn [Batch.store_retry Nat.iter]. unfold Batch.StoreBatch, KafkaStorageAdapter.
  destruct (StoreBatch_poisoned pre bad rest s Hp Hb) as [e1 ->].
  destruct (IH (put_all pre s) e1) as [e2 E2].
  - eapply Forall_impl; [exact Hp|]. intros m. apply (proj1 (put_all_keeps _ _ _)).
  - apply eq_None_not_Some. rewrite <- put_all_keeps, Hb. by intros [].
  - exists e2. etrans; [exact E2|]. f_equal. clear.
    change (Nat.iter n (put_all pre) (put_all pre s) = Nat.iter (S n) (put_all pre) s).
    by rewrite Nat.iter_succ_r.
Qed.

(** A poisoned batch: when the buffer of the bridge's batch writer holds a
    message for a topic that does not exist, every flush fails, keeps the whole
    buffer, and stores the messages in front of it once more for each of the
    [MaxRetries + 1] attempts; messages behind it are never stored. *)
Theorem poisoned_flush_duplicates (bw : Batch.BatchWriter InMemoryMessageStore) pre bad rest :
  Batch.buffer bw = pre ++ bad :: rest -> 0 <= Batch.MaxRetries (Batch.config bw) ->
  Forall (fun m => is_Some (Batch.storage bw !! Topic m)) pre -> Batch.storage bw !! Topic bad = None ->
  exists e, Batch.flushLocked bw
    = (Batch.mkBW (Nat.iter (Z.to_nat (Batch.MaxRetries (Batch.config bw) + 1)) (put_all pre) (Batch.storage bw))
         (Batch.config bw) (pre ++ bad :: rest) (Batch.messageCount bw) (Batch.batchCount bw) (Batch.running bw)
         (Batch.stopClosed bw), Some e).
Proof.
  intros Hbuf Hr Hp Hb. unfold Batch.flushLocked. rewrite decide_False by (rewrite Hbuf; by destruct pre).
  rewrite Hbuf. destruct (Z.to_nat (Batch.MaxRetries (Batch.config bw) + 1)) as [|n] eqn:En; [lia|].
  cbn [Batch.store_retry]. unfold Batch.StoreBatch at 1, KafkaStorageAdapter at 1.
  destruct (StoreBatch_poisoned pre bad rest _ Hp Hb) as [e1 ->].
  destruct (store_retry_poisoned n pre bad rest (put_all pre (Batch.storage bw)) e1) as [e2 E2].
  - eapply Forall_impl; [exact Hp|]. intros m. apply (proj1 (put_all_keeps _ _ _)).
  - apply eq_None_not_Some. rewrite <- put_all_keeps, Hb. by intros [].
  - rewrite E2. eexists. do 2 f_equal. by rewrite Nat.iter_succ_r.
Qed.

Definition note (topic : string) (payload : bytes) : PortaskMessage := NewMessage "m" 0 topic payload.
Definition poisoned : Batch.BatchWriter InMemoryMessageStore :=
  Batch.mkBW {["t" := mkTopic "t" {[0 := []]}]} (Batch.mkBWConfig 10 1000 3)
    [note "t" [1]; note "absent" [2]; note "t" [3]] 3 0 true false.

(** Four attempts store the first message four times, the third never. *)
Lemma poisoned_flush_duplicates_witness :
  (exists e, snd (Batch.flushLocked poisoned) = Some e) /\
  Batch.buffer (fst (Batch.flushLocked poisoned)) = Batch.buffer poisoned /\
  (fun t => messages t 0) <$> (Batch.storage (fst (Batch.flushLocked poisoned)) !! "t")
  = Some [mkKMessage 0 [] [1]; mkKMessage 1 [] [1]; mkKMessage 2 [] [1]; mkKMessage 3 [] [1]].
Proof.
  destruct (poisoned_flush_duplicates poisoned [note "t" [1]] (note "absent" [2]) [note "t" [3]]) as [e E].
  - reflexivity.
  - vm_compute. discriminate.
  - repeat constructor. vm_compute. eexists. reflexivity.
  - vm_compute. reflexivity.
  - rewrite E. split; [by eexists|]. split; [reflexivity|]. vm_compute. reflexivity.
Defined.

(** ** Errors *)

Lemma error_classes_disjoint e : IsRetriable e = true -> IsFatal e = false.
Proof.
  unfold IsRetriable, IsFatal. intros H%bool_decide_eq_true. apply bool_decide_eq_false.
  rewrite !elem_of_cons in *. intros F. destruct_or!; simplify_eq; try lia; set_solver.
Qed.

Lemma GetErrorForCode_code code : Code (GetErrorForCode code) = code.
Proof. unfold GetErrorForCode. repeat (case_match; zb; [by subst|]). done. Qed.

(** ** The package-wide offsets *)

Lemma FetchOffset_CommitOffset group topic partition offset cgs group' topic' partition' :
  FetchOffset group' topic' partition' (CommitOffset group topic partition offset cgs)
  = if decide (group' = group /\ topic' = topic /\ partition' = partition) then offset
    else FetchOffset group' topic' partition' cgs.
Proof.
  unfold FetchOffset, CommitOffset, cg_of. cbv zeta.
  destruct (decide (group' = group)) as [->|Hg]; [|rewrite lookup_insert_ne by done; by rewrite decide_False by naive_solver].
  rewrite lookup_insert_eq. cbn [cg_Offsets].
  destruct (decide (topic' = topic)) as [->|Ht].
  - rewrite lookup_insert_eq. cbn [from_option id]. destruct (decide (partition' = partition)) as [->|Hp].
    + by rewrite lookup_insert_eq, decide_True.
    + rewrite lookup_insert_ne, decide_False by naive_solver.
      destruct (cgs !! group); cbn; [done|by rewrite !lookup_empty].
  - rewrite lookup_insert_ne, decide_False by naive_solver.
    destruct (cgs !! group); cbn; [done|by rewrite !lookup_empty].
Qed.

End KafkaStoreSpec.
