(* ===== verification/Kafka.v ===== *)
(** * The Kafka wire protocol server ([src/pkg/kafka/protocol.go],
      [handlers.go], [handlers_extended.go], [protocol_helpers.go],
      [translator.go], [processor_bridge.go])

    A request handler reads the request body, writes the response and changes
    the server: the monad [H], with panics.  [bytes.Reader] and [binary.Read]
    are used without looking at the errors, so a short body gives zero values:
    [read_int] and [read_into] say what is read then.

    The server is the batch writer over the message store (the bridge, the
    adapter and the handler share one store), the group coordinator of [Groups],
    the offset manager of [Offsets], the generator of message identifiers of
    [Ids] and the topic interner.  The processor is that of [Processor]; whether
    one of its calls stalls, and the clock, are inputs ([env]), by the number of
    the call.  Requests are served one at a time. *)
From stdpp Require Import base gmap strings list numbers fin_maps pretty.
From Stdlib Require Import ZArith Lia.
From S2P Require Import Prelude Types Wire Groups Offsets Ids Processor Batch KafkaStore.

Module Kafka.
Import Types KafkaStore.

(** ** Constants *)

Definition ProduceAPI : Z := 0.
Definition FetchAPI : Z := 1.
Definition ListOffsetsAPI : Z := 2.
Definition MetadataAPI : Z := 3.
Definition OffsetCommitAPI : Z := 8.
Definition OffsetFetchAPI : Z := 9.
Definition FindCoordinatorAPI : Z := 10.
Definition JoinGroupAPI : Z := 11.
Definition HeartbeatAPI : Z := 12.
Definition LeaveGroupAPI : Z := 13.
Definition SyncGroupAPI : Z := 14.
Definition DescribeGroupsAPI : Z := 15.
Definition ListGroupsAPI : Z := 16.
Definition SaslHandshakeAPI : Z := 17.
Definition ApiVersionsAPI : Z := 18.
Definition CreateTopicsAPI : Z := 19.
Definition DeleteTopicsAPI : Z := 20.
Definition InitProducerIdAPI : Z := 22.
Definition AddPartitionsToTxnAPI : Z := 24.
Definition EndTxnAPI : Z := 26.
Definition SaslAuthenticateAPI : Z := 36.

Definition NoError : Z := 0.
Definition UnknownTopicOrPartition : Z := 3.
Definition UnsupportedVersion : Z := 35.
Definition TopicAlreadyExists : Z := 36.

Record RequestHeader := mkRequestHeader {
  APIKey : Z; APIVersion : Z; CorrelationID : Z; ClientID : string
}.
Record KafkaRequest := mkRequest { Header : RequestHeader; Body : bytes }.
Record KafkaResponse := mkResponse { r_CorrelationID : Z; r_Body : bytes }.

(** ** What the runtime decides *)

(** Why a call of [ProcessMessage] ends without the worker's answer. *)
Inductive stall := Pressured | QueueFull | Cancelled | TimedOut.

Record env := mkEnv { clock : nat -> Z; stalls : nat -> option stall }.

(** The cache of topic names: the string that is returned is equal to the
    argument. *)
Definition InternTopic (topic : string) (cache : gmap string string) : gmap string string * string :=
  match cache !! topic with
  | Some cached => (cache, cached)
  | None => (<[topic := topic]> cache, topic)
  end.

(** A message of the pool of [PortaskMessage]s: nothing is ever put back, so it
    is always a new one, with empty maps and a nil payload. *)
Definition GetMessage : PortaskMessage :=
  mkMessage "" "" [] 0 (Some ∅) (Some ∅) 0 StatusPending 0 "" "" "" 0 0 0 0 0 "" "" zero_internal.

(** ** The translator *)

(** With the payload of a new message nil, an empty value leaves it nil: the
    flag of [Processor.input]. *)
Definition TranslateProduce (now id : Z) (topic : string) (partition : Z) (key value : bytes)
  (cache : gmap string string) : gmap string string * res string Processor.input :=
  if decide (topic = "") then (cache, Err "topic cannot be empty") else
  let m := GetMessage in
  let '(cache, name) := InternTopic topic cache in
  let meta := <["version" := "2.0"]> (<["protocol" := "kafka-wire"]> (<["source" := "kafka"]>
                (default ∅ (Metadata m)))) in
  (cache,
   Ok (mkMessage (pretty (Z.to_N id)) name value now (Headers m) (Some meta) (Priority m) (Status m)
         partition (if decide (key = []) then "" else Ids.string_of_bytes key) (PartitionKey m) (ReplyTo m)
         (ExpiresAt m) 0 (Offset m) (Attempts m) (MaxRetry m) (Types.CorrelationID m) (TraceID m) (_internal m),
       bool_decide (value = []))).

Record FetchRequest := mkFetchRequest { f_Topic : string; f_Partition : Z; f_Offset : Z; f_Limit : Z }.

(** [int(maxBytes / 1024)], division towards zero. *)
Definition TranslateFetch (topic : string) (partition offset maxBytes : Z) : res string FetchRequest :=
  if decide (topic = "") then Err "topic cannot be empty" else
  let estimatedLimit := maxBytes `quot` 1024 in
  Ok (mkFetchRequest topic partition offset (if estimatedLimit <=? 0 then 100 else estimatedLimit)).

Record KafkaProduceResponse := mkProduceResponse { pr_ErrorCode : Z; pr_Offset : Z; pr_Message : string }.
Definition TranslateProduceResponse (offset : Z) (err : option string) : KafkaProduceResponse :=
  match err with
  | Some e => mkProduceResponse (-1) (-1) e
  | None => mkProduceResponse NoError offset "success"
  end.

(** A Portask message as a Kafka message: the timestamp is the offset. *)
Definition to_kafka (m : PortaskMessage) : Message :=
  mkKMessage (Timestamp m) (Wire.bytes_of_string (Key m)) (Payload m).

Definition TranslateFetchResponse (ms : list PortaskMessage) (err : option string) : Z * list Message :=
  match err with
  | Some _ => (-1, [])
  | None => (NoError, to_kafka <$> ms)
  end.

(** A stored message as a Portask message: the offset is the timestamp. *)
Definition of_kafka (req : FetchRequest) (k : Message) : PortaskMessage :=
  mkMessage (pretty (k_Offset k)) (f_Topic req) (k_Value k) (k_Offset k) None None 0 StatusPending
    (f_Partition req) (Ids.string_of_bytes (k_Key k)) "" "" 0 0 0 0 0 "" "" zero_internal.

Section server.
Context {St : Type} `{!MessageStore St}.

(** ** State and monad *)

Record KafkaProtocolHandler := mkHandler {
  writer : Batch.BatchWriter St;
  groupCoordinator : option Groups.groups;
  offsetManager : option Offsets.OffsetManagerWithMetadata;
  idgen : Ids.IDGenerator;
  interner : gmap string string;
  calls : nat
}.

Definition messageStore (h : KafkaProtocolHandler) : St := Batch.storage (writer h).

(** [NewKafkaProtocolHandlerWithCoordinators]: the bridge starts its writer. *)
Definition NewKafkaProtocolHandlerWithCoordinators (st : St) (gc : option Groups.groups)
  (om : option Offsets.OffsetManagerWithMetadata) (ids : Ids.IDGenerator) : KafkaProtocolHandler :=
  mkHandler (fst (Batch.Start (Batch.NewBatchWriter st (Some Batch.DefaultBatchWriterConfig)))) gc om ids ∅ 0.

Definition set_writer (w : Batch.BatchWriter St) (h : KafkaProtocolHandler) : KafkaProtocolHandler :=
  mkHandler w (groupCoordinator h) (offsetManager h) (idgen h) (interner h) (calls h).
Definition set_store (st : St) (h : KafkaProtocolHandler) : KafkaProtocolHandler :=
  let w := writer h in
  set_writer (Batch.mkBW st (Batch.config w) (Batch.buffer w) (Batch.messageCount w) (Batch.batchCount w)
                (Batch.running w) (Batch.stopClosed w)) h.
Definition set_groups (g : Groups.groups) (h : KafkaProtocolHandler) : KafkaProtocolHandler :=
  mkHandler (writer h) (Some g) (offsetManager h) (idgen h) (interner h) (calls h).
Definition set_offsets (o : Offsets.OffsetManagerWithMetadata) (h : KafkaProtocolHandler)
  : KafkaProtocolHandler :=
  mkHandler (writer h) (groupCoordinator h) (Some o) (idgen h) (interner h) (calls h).

(** The unread request, the response so far, the server. *)
Record hstate := mkH { inp : bytes; out : bytes; srv : KafkaProtocolHandler }.

Definition H (A : Type) : Type := hstate -> exec (A * hstate).
#[export] Instance H_ret : MRet H := fun A a s => Ret (a, s).
#[export] Instance H_bind : MBind H := fun A B k m s => do! r := m s in k (fst r) (snd r).

Definition h_panic {A} : H A := fun s => Panic.
Definition get_srv : H KafkaProtocolHandler := fun s => Ret (srv s, s).
Definition put_srv (h : KafkaProtocolHandler) : H () := fun s => Ret ((), mkH (inp s) (out s) h).
Definition lift {A} (e : exec A) : H A := fun s => do! a := e in Ret (a, s).

(** [for i := 0; i < n; i++] *)
Fixpoint repeat_n (n : nat) (body : H ()) : H () :=
  match n with
  | O => mret ()
  | S n => body ;; repeat_n n body
  end.
Fixpoint collect_n {A} (n : nat) (body : H A) : H (list A) :=
  match n with
  | O => mret []
  | S n => a ← body; rest ← collect_n n body; mret (a :: rest)
  end.
Fixpoint for_each {A} (l : list A) (body : A -> H ()) : H () :=
  match l with
  | [] => mret ()
  | a :: l => body a ;; for_each l body
  end.

(** ** Reading and writing *)

(** [binary.Read] of an [n]-byte integer into a variable that holds [d]: with
    too few bytes left they are consumed and the variable is unchanged. *)
Definition read_int (n : nat) (d : Z) : H Z := fun s =>
  if (n <=? length (inp s))%nat
  then Ret (wraps (8 * Z.of_nat n) (be_get (take n (inp s))), mkH (drop n (inp s)) (out s) (srv s))
  else Ret (d, mkH [] (out s) (srv s)).

(** [Read] into a new slice of [n] bytes: [None] at the end of the body, and
    the rest of the slice stays zero when fewer bytes are left. *)
Definition read_into (n : nat) : H (option bytes) := fun s =>
  match inp s with
  | [] => Ret (None, s)
  | _ => let got := take n (inp s) in
         Ret (Some (got ++ replicate (n - length got) 0), mkH (drop n (inp s)) (out s) (srv s))
  end.

(** The callers drop the error, with which the string is empty. *)
Definition readString : H string := fun s =>
  if (length (inp s) <? 2)%nat then Ret ("", mkH [] (out s) (srv s)) else
  (length ← read_int 2 0;
   if length <? 0 then mret "" else
   str ← read_into (Z.to_nat length);
   mret (match str with Some b => Ids.string_of_bytes b | None => "" end)) s.

(** [None] is the nil slice, for an error and for a negative length. *)
Definition readBytes : H Groups.slice := fun s =>
  if (length (inp s) <? 4)%nat then Ret (None, mkH [] (out s) (srv s)) else
  (length ← read_int 4 0;
   if length <? 0 then mret None else read_into (Z.to_nat length)) s.

Definition write (b : bytes) : H () := fun s => Ret ((), mkH (inp s) (out s ++ b) (srv s)).
Definition write_int (n : nat) (z : Z) : H () := write (be_put n z).

(** [int16(len(s))] wraps. *)
Definition string_bytes (s : string) : bytes :=
  be_put 2 (s16 (Z.of_nat (String.length s))) ++ Wire.bytes_of_string s.
Definition writeString (s : string) : H () := write (string_bytes s).
Definition slice_bytes (b : Groups.slice) : bytes :=
  match b with
  | None => be_put 4 (-1)
  | Some b => be_put 4 (s32 (Z.of_nat (length b))) ++ b
  end.
Definition writeBytes (b : Groups.slice) : H () := write (slice_bytes b).

Section handlers.
Context (E : env).

(** A reading of the clock, or the start of a call, numbered. *)
Definition next_call : H nat :=
  h ← get_srv;
  put_srv (mkHandler (writer h) (groupCoordinator h) (offsetManager h) (idgen h) (interner h) (S (calls h))) ;;
  mret (calls h).
Definition now : H Z := k ← next_call; mret (clock E k).

(** [common.NextKafkaID] *)
Definition NextKafkaID : H Z :=
  h ← get_srv;
  let '(g, id) := Ids.Next (idgen h) in
  put_srv (mkHandler (writer h) (groupCoordinator h) (offsetManager h) g (interner h) (calls h)) ;;
  mret id.

(** ** The bridge *)

(** [ProcessMessage] of the processor: the task runs on a worker, which calls
    back, unless the call stalls. *)
Definition process_message (k : nat) (m : Processor.input) : res Processor.perr (option PortaskMessage) :=
  let cfg := Processor.DefaultProcessorConfig in
  match stalls E k with
  | Some Pressured => Processor.ProcessMessage cfg true Processor.QueueTimeout
  | Some QueueFull => Processor.ProcessMessage cfg false Processor.QueueTimeout
  | Some Cancelled => Processor.ProcessMessage cfg false Processor.WaitCancelled
  | Some TimedOut => Processor.ProcessMessage cfg false Processor.WaitTimeout
  | None =>
    let task := Processor.mkTask (Z.of_nat k) (Some m) [] Processor.ProcessTypeSingle true in
    let pooled := Processor.set_pooled false Processor.new_pooled in
    match snd (Processor.processTask cfg (fun _ => pooled) task (Processor.mkWM 0 0 0)) with
    | Processor.Callback r => Processor.ProcessMessage cfg false (Processor.Answered r)
    | Processor.ResultQueue _ => Processor.ProcessMessage cfg false Processor.WaitTimeout
    end
  end.

(** [ProcessorBridge.ProduceMessage]: the offset answered is the timestamp of
    the message.  A nil result would panic at its fields. *)
Definition bridge_ProduceMessage (m : Processor.input) : H (res string Z) :=
  k ← next_call;
  match process_message k m with
  | Err _ => mret (Err "processor failed")
  | Ok None => h_panic
  | Ok (Some processed) =>
    h ← get_srv;
    let '(w, err) := Batch.Write processed (writer h) in
    put_srv (set_writer w h) ;;
    mret (match err with
          | Some e => Err ("batch write failed: " +:+ e)
          | None => Ok (Timestamp processed)
          end)
  end.

(** [ProcessorBridge.FetchMessages] *)
Definition bridge_FetchMessages (req : FetchRequest) : H (res string (list PortaskMessage)) :=
  h ← get_srv;
  r ← lift (ConsumeMessages (f_Topic req) (f_Partition req) (f_Offset req) (s32 (f_Limit req * 1024))
              (messageStore h));
  mret (match r with
        | Err e => Err ("storage fetch failed: " +:+ e)
        | Ok ms => Ok (of_kafka req <$> ms)
        end).

(** ** Handlers of [handlers.go] *)

Definition supportedAPIs : list (Z * Z * Z) :=
  [(ApiVersionsAPI, 0, 3); (MetadataAPI, 0, 9); (ProduceAPI, 0, 8); (FetchAPI, 0, 11);
   (ListOffsetsAPI, 0, 5); (CreateTopicsAPI, 0, 5); (DeleteTopicsAPI, 0, 4); (SaslHandshakeAPI, 0, 1);
   (SaslAuthenticateAPI, 0, 2)].

Definition handleApiVersions : H () :=
  write_int 2 NoError ;;
  write_int 4 (Z.of_nat (length supportedAPIs)) ;;
  for_each supportedAPIs (fun '(k, lo, hi) => write_int 2 k ;; write_int 2 lo ;; write_int 2 hi) ;;
  write_int 4 0.

Definition write_ints (l : list Z) : H () :=
  write_int 4 (Z.of_nat (length l)) ;; for_each l (write_int 4).

Definition write_partition (p : PartitionMetadata) : H () :=
  write_int 2 (pm_Error p) ;; write_int 4 (pm_ID p) ;; write_int 4 (pm_Leader p) ;;
  write_ints (pm_Replicas p) ;; write_ints (pm_ISR p) ;; write_ints (pm_Offline p).

Definition handleMetadata : H () :=
  topicCount ← read_int 4 0;
  requestedTopics ← (if topicCount =? -1 then mret ["test-topic"]
                     else if topicCount >? 0 then collect_n (Z.to_nat topicCount) readString
                     else mret ["test-topic"]);
  h ← get_srv;
  let '(st, r) := GetTopicMetadata requestedTopics (messageStore h) in
  put_srv (set_store st h) ;;
  match r with
  | Err _ => write_int 4 0 ;; write_int 4 0 ;; write_int 4 (-1) ;; write_int 4 0 ;; write_int 4 0
  | Ok metadata =>
    write_int 4 0 ;;
    write_int 4 1 ;; write_int 4 0 ;; writeString "localhost" ;; write_int 4 9092 ;; writeString "" ;;
    writeString "" ;;
    write_int 4 0 ;;
    match metadata with
    | Some md =>
      write_int 4 1 ;;
      write_int 2 (tm_Error md) ;; writeString (tm_Name md) ;; write_int 1 0 ;;
      write_int 4 (Z.of_nat (length (tm_Partitions md))) ;;
      for_each (tm_Partitions md) write_partition
    | None => write_int 4 0
    end
  end.

(** One partition of a produce request. *)
Definition produce_partition (topic : string) : H () :=
  partition ← read_int 4 0;
  messageSetSize ← read_int 4 0;
  if messageSetSize <? 0 then h_panic else
  got ← read_into (Z.to_nat messageSetSize);
  let messageSet := default (replicate (Z.to_nat messageSetSize) 0) got in
  r ← (if decide (topic = "") then mret (Err "topic cannot be empty") else
       id ← NextKafkaID;
       t ← now;
       h ← get_srv;
       let '(cache, r) := TranslateProduce t id topic partition [] messageSet (interner h) in
       put_srv (mkHandler (writer h) (groupCoordinator h) (offsetManager h) (idgen h) cache (calls h)) ;;
       match r with
       | Err e => mret (Err e)
       | Ok m => bridge_ProduceMessage m
       end);
  write_int 4 partition ;;
  match r with
  | Err _ => write_int 2 UnknownTopicOrPartition ;; write_int 8 (-1)
  | Ok offset => write_int 2 NoError ;; write_int 8 offset
  end ;;
  write_int 8 (-1) ;; write_int 8 (-1).

Definition handleProduce : H () :=
  requiredAcks ← read_int 2 0;
  timeout ← read_int 4 0;
  topicCount ← read_int 4 0;
  write_int 4 0 ;; write_int 4 topicCount ;;
  repeat_n (Z.to_nat topicCount)
    (topic ← readString;
     writeString topic ;;
     partitionCount ← read_int 4 0;
     write_int 4 partitionCount ;;
     repeat_n (Z.to_nat partitionCount) (produce_partition topic)).

(** A message of the record set. *)
Definition record_bytes (m : Message) : bytes :=
  be_put 8 (k_Offset m) ++ slice_bytes (Some (k_Key m)) ++ slice_bytes (Some (k_Value m)).

Definition fetch_partition (topic : string) : H () :=
  partition ← read_int 4 0;
  fetchOffset ← read_int 8 0;
  partitionMaxBytes ← read_int 4 0;
  r ← (match TranslateFetch topic partition fetchOffset partitionMaxBytes with
       | Err e => mret (Err e)
       | Ok req =>
         r ← bridge_FetchMessages req;
         mret (match r with Err e => Err e | Ok ms => Ok (to_kafka <$> ms) end)
       end);
  write_int 4 partition ;;
  match r with
  | Err _ =>
    write_int 2 UnknownTopicOrPartition ;; write_int 8 (-1) ;; write_int 8 (-1) ;; write_int 8 (-1) ;;
    write_int 4 0 ;; write_int 4 0
  | Ok ms =>
    write_int 2 NoError ;; write_int 8 1000 ;; write_int 8 (-1) ;; write_int 8 0 ;; write_int 4 0 ;;
    let recordBuf := concat (record_bytes <$> ms) in
    write_int 4 (s32 (Z.of_nat (length recordBuf))) ;; write recordBuf
  end.

Definition handleFetch (apiVersion : Z) : H () :=
  replicaId ← read_int 4 0;
  maxWaitTime ← read_int 4 0;
  minBytes ← read_int 4 0;
  maxBytes ← (if apiVersion >=? 3 then read_int 4 (1024 * 1024) else mret (1024 * 1024));
  topicCount ← read_int 4 0;
  write_int 4 0 ;; write_int 4 topicCount ;;
  repeat_n (Z.to_nat topicCount)
    (topic ← readString;
     writeString topic ;;
     partitionCount ← read_int 4 0;
     write_int 4 partitionCount ;;
     repeat_n (Z.to_nat partitionCount) (fetch_partition topic)).

Definition handleListOffsets : H () := write_int 4 0 ;; write_int 4 0.

Definition handleCreateTopics : H () :=
  topicCount ← read_int 4 0;
  write_int 4 0 ;; write_int 4 topicCount ;;
  repeat_n (Z.to_nat topicCount)
    (topic ← readString;
     numPartitions ← read_int 4 0;
     replicationFactor ← read_int 2 0;
     assignmentCount ← read_int 4 0;
     configCount ← read_int 4 0;
     h ← get_srv;
     let '(st, err) := CreateTopic topic numPartitions replicationFactor (messageStore h) in
     put_srv (set_store st h) ;;
     writeString topic ;;
     write_int 2 (match err with Some _ => TopicAlreadyExists | None => NoError end) ;;
     writeString "").

Definition handleDeleteTopics : H () :=
  topicCount ← read_int 4 0;
  write_int 4 0 ;; write_int 4 topicCount ;;
  repeat_n (Z.to_nat topicCount)
    (topic ← readString;
     h ← get_srv;
     let '(st, err) := DeleteTopic topic (messageStore h) in
     put_srv (set_store st h) ;;
     writeString topic ;;
     write_int 2 (match err with Some _ => UnknownTopicOrPartition | None => NoError end)).

Definition handleSaslHandshake : H () :=
  let mechanisms := ["PLAIN"; "SCRAM-SHA-256"; "SCRAM-SHA-512"] in
  write_int 2 NoError ;; write_int 4 (Z.of_nat (length mechanisms)) ;; for_each mechanisms writeString.

Definition handleSaslAuthenticate : H () :=
  write_int 2 NoError ;; writeString "" ;; writeBytes (Some (Wire.bytes_of_string "auth-success")) ;;
  write_int 8 0.

(** ** Handlers of [handlers_extended.go] *)

Definition handleFindCoordinator : H () :=
  coordinatorKey ← readString;
  coordinatorType ← read_int 1 0;
  write_int 4 0 ;; write_int 2 0 ;; write_int 2 0 ;; write_int 4 0 ;; writeString "localhost" ;;
  write_int 4 9092.

Definition handleJoinGroup : H () :=
  groupID ← readString;
  sessionTimeout ← read_int 4 0;
  rebalanceTimeout ← read_int 4 0;
  memberID ← readString;
  protocolType ← readString;
  h ← get_srv;
  match groupCoordinator h with
  | Some _ =>
    t ← now;
    h ← get_srv;
    let '(gs, resp) :=
      Groups.JoinGroup t groupID memberID "client-1" "localhost" protocolType
        (sessionTimeout * Batch.millisecond) (rebalanceTimeout * Batch.millisecond) ["range"] (Some [])
        (default ∅ (groupCoordinator h)) in
    put_srv (set_groups gs h) ;;
    write_int 4 0 ;; write_int 2 0 ;; write_int 4 (Groups.GenerationID resp) ;;
    writeString (Groups.ProtocolName resp) ;; writeString (Groups.LeaderID resp) ;;
    writeString (Groups.MemberID resp) ;;
    write_int 4 (Z.of_nat (length (Groups.r_Members resp))) ;;
    for_each (Groups.r_Members resp) (fun m => writeString (fst m) ;; writeBytes (snd m))
  | None =>
    write_int 4 0 ;; write_int 2 15 ;; write_int 4 0 ;; writeString "" ;; writeString "" ;; writeString "" ;;
    write_int 4 0
  end.

Definition handleSyncGroup : H () :=
  groupID ← readString;
  generationID ← read_int 4 0;
  memberID ← readString;
  assignmentCount ← read_int 4 0;
  entries ← collect_n (Z.to_nat assignmentCount)
    (assignmentMemberID ← readString; assignmentBytes ← readBytes; mret (assignmentMemberID, assignmentBytes));
  let assignments := foldl (fun m p => <[fst p := snd p]> m) ∅ entries in
  h ← get_srv;
  match groupCoordinator h with
  | Some _ =>
    t ← now;
    h ← get_srv;
    let '(gs, r) := Groups.SyncGroup t groupID memberID generationID assignments
                      (default ∅ (groupCoordinator h)) in
    put_srv (set_groups gs h) ;;
    match r with
    | Err _ => write_int 4 0 ;; write_int 2 15 ;; writeBytes (Some [])
    | Ok assignment => write_int 4 0 ;; write_int 2 0 ;; writeBytes assignment
    end
  | None => write_int 4 0 ;; write_int 2 15 ;; writeBytes (Some [])
  end.

Definition handleHeartbeat : H () :=
  groupID ← readString;
  generationID ← read_int 4 0;
  memberID ← readString;
  h ← get_srv;
  match groupCoordinator h with
  | Some _ =>
    t ← now;
    h ← get_srv;
    let '(gs, err) := Groups.Heartbeat t groupID memberID generationID (default ∅ (groupCoordinator h)) in
    put_srv (set_groups gs h) ;;
    write_int 4 0 ;; write_int 2 (match err with Some _ => 27 | None => 0 end)
  | None => write_int 4 0 ;; write_int 2 15
  end.

(** Not reached from [handleRequest]. *)
Definition handleLeaveGroup (pick : gmap string Groups.GroupMember -> string) : H () :=
  groupID ← readString;
  memberID ← readString;
  h ← get_srv;
  match groupCoordinator h with
  | Some gs =>
    let '(gs, err) := Groups.LeaveGroup pick groupID memberID gs in
    put_srv (set_groups gs h) ;;
    write_int 4 0 ;; write_int 2 (match err with Some _ => 69 | None => 0 end)
  | None => write_int 4 0 ;; write_int 2 15
  end.

Definition commit_partition (groupID topicName : string) : H () :=
  partition ← read_int 4 0;
  offset ← read_int 8 0;
  metadata ← readString;
  t ← now;
  h ← get_srv;
  match offsetManager h with
  | Some om => put_srv (set_offsets (Offsets.CommitOffsetWithMetadata t groupID topicName partition offset
                                       metadata om) h)
  | None => mret ()
  end.

Definition handleOffsetCommit : H () :=
  groupID ← readString;
  generationID ← read_int 4 0;
  topicCount ← read_int 4 0;
  h ← get_srv;
  match offsetManager h with
  | Some _ =>
    repeat_n (Z.to_nat topicCount)
      (topicName ← readString;
       partitionCount ← read_int 4 0;
       repeat_n (Z.to_nat partitionCount) (commit_partition groupID topicName)) ;;
    write_int 4 0 ;; write_int 4 topicCount ;;
    repeat_n (Z.to_nat topicCount) (writeString "topic" ;; write_int 4 0)
  | None => write_int 4 0 ;; write_int 4 0
  end.

Definition fetch_offset_partition (groupID topicName : string) : H () :=
  partition ← read_int 4 0;
  h ← get_srv;
  let offset := match offsetManager h with
                | Some om => match Offsets.FetchOffsetMetadata groupID topicName partition om with
                             | Ok meta => Offsets.om_Offset meta
                             | Err _ => -1
                             end
                | None => -1
                end in
  write_int 4 partition ;; write_int 8 offset ;; writeString "" ;; write_int 2 0.

Definition handleOffsetFetch : H () :=
  groupID ← readString;
  topicCount ← read_int 4 0;
  write_int 4 0 ;;
  h ← get_srv;
  match offsetManager h with
  | Some _ =>
    write_int 4 topicCount ;;
    repeat_n (Z.to_nat topicCount)
      (topicName ← readString;
       partitionCount ← read_int 4 0;
       writeString topicName ;; write_int 4 partitionCount ;;
       repeat_n (Z.to_nat partitionCount) (fetch_offset_partition groupID topicName)) ;;
    write_int 2 0
  | None => write_int 4 0 ;; write_int 2 15
  end.

Definition write_description (d : Groups.GroupDescription) : H () :=
  write_int 2 0 ;; writeString (Groups.d_GroupID d) ;; writeString (Groups.d_State d) ;;
  writeString (Groups.d_ProtocolType d) ;; writeString (Groups.d_Protocol d) ;;
  write_int 4 (Z.of_nat (length (Groups.d_Members d))) ;;
  for_each (Groups.d_Members d) (fun m =>
    writeString (Groups.d_MemberID m) ;; writeString (Groups.d_ClientID m) ;;
    writeString (Groups.d_ClientHost m) ;; writeBytes (Groups.d_Metadata m) ;;
    writeBytes (Groups.d_Assignment m)).

(** [make([]string, groupCount)] and then [append]: the identifiers follow
    [groupCount] empty ones.  The descriptions are written in the order of a Go
    map iteration. *)
Definition handleDescribeGroups : H () :=
  groupCount ← read_int 4 0;
  if groupCount <? 0 then h_panic else
  read ← collect_n (Z.to_nat groupCount) readString;
  let groupIDs := replicate (Z.to_nat groupCount) "" ++ read in
  h ← get_srv;
  match groupCoordinator h with
  | Some gs =>
    let descriptions := (map_to_list (Groups.DescribeGroups groupIDs gs)).*2 in
    write_int 4 0 ;; write_int 4 (Z.of_nat (length descriptions)) ;; for_each descriptions write_description
  | None => write_int 4 0 ;; write_int 4 0
  end.

(** Not reached from [handleRequest]. *)
Definition handleListGroups : H () :=
  h ← get_srv;
  match groupCoordinator h with
  | Some gs =>
    let l := Groups.ListGroups gs in
    write_int 4 0 ;; write_int 2 0 ;; write_int 4 (Z.of_nat (length l)) ;;
    for_each l (fun '(id, protocolType, _) => writeString id ;; writeString protocolType)
  | None => write_int 4 0 ;; write_int 2 15 ;; write_int 4 0
  end.

Definition handleInitProducerId : H () :=
  transactionalID ← readString;
  transactionTimeoutMs ← read_int 4 0;
  producerID ← now;
  write_int 4 0 ;; write_int 2 0 ;; write_int 8 producerID ;; write_int 2 0.

Definition handleAddPartitionsToTxn : H () := write_int 4 0 ;; write_int 4 0.
Definition handleEndTxn : H () := write_int 4 0 ;; write_int 2 0.
Definition createErrorResponse (errorCode : Z) : H () := write_int 2 errorCode.

(** ** Dispatch and connections *)

Definition dispatch (hd : RequestHeader) : H () :=
  let k := APIKey hd in
  if k =? ApiVersionsAPI then handleApiVersions
  else if k =? MetadataAPI then handleMetadata
  else if k =? ProduceAPI then handleProduce
  else if k =? FetchAPI then handleFetch (APIVersion hd)
  else if k =? ListOffsetsAPI then handleListOffsets
  else if k =? CreateTopicsAPI then handleCreateTopics
  else if k =? DeleteTopicsAPI then handleDeleteTopics
  else if k =? SaslHandshakeAPI then handleSaslHandshake
  else if k =? SaslAuthenticateAPI then handleSaslAuthenticate
  else if k =? DescribeGroupsAPI then handleDescribeGroups
  else if k =? OffsetCommitAPI then handleOffsetCommit
  else if k =? OffsetFetchAPI then handleOffsetFetch
  else if k =? FindCoordinatorAPI then handleFindCoordinator
  else if k =? JoinGroupAPI then handleJoinGroup
  else if k =? SyncGroupAPI then handleSyncGroup
  else if k =? HeartbeatAPI then handleHeartbeat
  else if k =? InitProducerIdAPI then handleInitProducerId
  else if k =? AddPartitionsToTxnAPI then handleAddPartitionsToTxn
  else if k =? EndTxnAPI then handleEndTxn
  else createErrorResponse UnsupportedVersion.

Definition handleRequest (r : KafkaRequest) (h : KafkaProtocolHandler)
  : exec (KafkaResponse * KafkaProtocolHandler) :=
  do! p := dispatch (Header r) (mkH (Body r) [] h) in
  Ret (mkResponse (CorrelationID (Header r)) (out (snd p)), srv (snd p)).

(** The header of a request: a string that cannot be read is the empty client
    identifier.  [None] is the error of a body that is too short. *)
Definition parse_request (b : bytes) : option KafkaRequest :=
  if (length b <? 8)%nat then None else
  let key := wraps 16 (be_get (take 2 b)) in
  let version := wraps 16 (be_get (take 2 (drop 2 b))) in
  let correlation := wraps 32 (be_get (take 4 (drop 4 b))) in
  let rest := drop 8 b in
  if (length rest <? 2)%nat then Some (mkRequest (mkRequestHeader key version correlation "") rest)
  else
    let len := wraps 16 (be_get (take 2 rest)) in
    let rest := drop 2 rest in
    if len <? 0 then Some (mkRequest (mkRequestHeader key version correlation "") rest) else
    match rest with
    | [] => Some (mkRequest (mkRequestHeader key version correlation "") [])
    | _ =>
      let got := take (Z.to_nat len) rest in
      Some (mkRequest (mkRequestHeader key version correlation
              (Ids.string_of_bytes (got ++ replicate (Z.to_nat len - length got) 0)))
              (drop (Z.to_nat len) rest))
    end.

(** Why a connection ends. *)
Inductive conn_end := ReadFailed (e : Wire.goerr) | TooLarge (size : Z) | ShortHeader | WriteFailed.

Definition readRequest (conn : Wire.input) : res conn_end KafkaRequest * Wire.input :=
  match Wire.read_full 4 false conn with
  | (Err e, conn) => (Err (ReadFailed e), conn)
  | (Ok sizeBytes, conn) =>
    let size := be_get sizeBytes in
    if size >? 100 * 1024 * 1024 then (Err (TooLarge size), conn) else
    match Wire.read_full (Z.to_nat size) false conn with
    | (Err e, conn) => (Err (ReadFailed e), conn)
    | (Ok messageBytes, conn) =>
      match parse_request messageBytes with
      | None => (Err ShortHeader, conn)
      | Some r => (Ok r, conn)
      end
    end
  end.

Definition writeResponse (r : KafkaResponse) : bytes :=
  let responseBytes := be_put 4 (r_CorrelationID r) ++ r_Body r in
  be_put 4 (u32 (Z.of_nat (length responseBytes))) ++ responseBytes.

(** [HandleConnection]: the loop ends with the first request that cannot be
    read or response that cannot be written ([wfault], by number).  [conn_out]
    is what was sent; every request consumes input, so the length of the input
    bounds the rounds. *)
Fixpoint HandleConnection (wfault : nat -> bool) (fuel i : nat) (conn : Wire.input) (conn_out : bytes) (h : KafkaProtocolHandler)
  : exec (conn_end * bytes * KafkaProtocolHandler) :=
  match fuel with
  | O => OutOfFuel
  | S fuel =>
    match readRequest conn with
    | (Err e, _) => Ret (e, conn_out, h)
    | (Ok r, conn) =>
      do! p := handleRequest r h in
      if wfault i then Ret (WriteFailed, conn_out, snd p) else
      HandleConnection wfault fuel (S i) conn (conn_out ++ writeResponse (fst p)) (snd p)
    end
  end.

End handlers.

End server.
Arguments KafkaProtocolHandler : clear implicits.

End Kafka.
