(* ===== verification/KafkaSpec.v ===== *)
(** * Properties of the Kafka wire protocol server

    - [runs]: what a handler does on a request that starts with given bytes,
      with its rules for sequencing and loops, and the rules of the readers and
      writers (round trips);
    - requests: framing round trip, every response carries the correlation
      identifier of its request, in the order of the requests;
    - committed offsets are read back; produced messages are acknowledged with
      their timestamp and stored later, in partition 0;
    - which requests cannot crash the server, and three that do. *)
From stdpp Require Import base gmap strings list numbers fin_maps pretty.
From Stdlib Require Import ZArith Lia.
From S2P Require Import Prelude Types Wire WireSpec Groups Offsets OffsetsSpec.
From S2P Require Import Ids Processor ProcessorSpec Batch KafkaStore KafkaStoreSpec Kafka.

Module KafkaSpec.
Import Types KafkaStore Kafka.

Section logic.
Context {St : Type} `{!MessageStore St}.
Implicit Types h : KafkaProtocolHandler St.

(** [m] consumes [b], answers [a], writes [w] and takes the server from [h] to
    [h']. *)
Definition runs {A} (m : H (St := St) A) (b : bytes) (a : A) (w : bytes) (h h' : KafkaProtocolHandler St) : Prop :=
  forall rest o, m (mkH (b ++ rest) o h) = Ret (a, mkH rest (o ++ w) h').

Lemma runs_ret {A} (a : A) h : runs (mret a) [] a [] h h.
Proof. intros rest o. by rewrite app_nil_r. Qed.

Lemma runs_bind {A B} (m : H A) (k : A -> H B) b1 b2 a c w1 w2 h h1 h2 :
  runs m b1 a w1 h h1 -> runs (k a) b2 c w2 h1 h2 -> runs (m ≫= k) (b1 ++ b2) c (w1 ++ w2) h h2.
Proof.
  intros H1 H2 rest o. unfold mbind, H_bind. rewrite <- app_assoc, H1. cbn. rewrite H2.
  by rewrite app_assoc.
Qed.

Lemma runs_bind' {A B} (m : H A) (k : A -> H B) b b1 b2 a c w w1 w2 h h1 h2 :
  b = b1 ++ b2 -> w = w1 ++ w2 ->
  runs m b1 a w1 h h1 -> runs (k a) b2 c w2 h1 h2 -> runs (m ≫= k) b c w h h2.
Proof. intros -> ->. apply runs_bind. Qed.

Lemma runs_get h : runs get_srv [] h [] h h.
Proof. intros rest o. by rewrite app_nil_r. Qed.
Lemma runs_put h h' : runs (put_srv h') [] () [] h h'.
Proof. intros rest o. unfold put_srv. cbn. by rewrite app_nil_r. Qed.
Lemma runs_write b h : runs (write b) [] () b h h.
Proof. intros rest o. reflexivity. Qed.
Lemma runs_write_int n z h : runs (write_int n z) [] () (be_put n z) h h.
Proof. apply runs_write. Qed.
Lemma runs_writeString s h : runs (writeString s) [] () (string_bytes s) h h.
Proof. apply runs_write. Qed.

Definition tick_call h : KafkaProtocolHandler St :=
  mkHandler (writer h) (groupCoordinator h) (offsetManager h) (idgen h) (interner h) (S (calls h)).
Lemma runs_next_call h : runs next_call [] (calls h) [] h (tick_call h).
Proof. intros rest o. unfold next_call, mbind, H_bind, mret, H_ret. cbn. by rewrite app_nil_r. Qed.
Lemma runs_now E h : runs (now E) [] (clock E (calls h)) [] h (tick_call h).
Proof. intros rest o. unfold now, next_call, mbind, H_bind, mret, H_ret. cbn. by rewrite app_nil_r. Qed.

(** A loop over an encoded list: the server and what is written. *)
Section loop.
Context {X : Type} (enc : X -> bytes) (resp : X -> KafkaProtocolHandler St -> bytes)
  (step : X -> KafkaProtocolHandler St -> KafkaProtocolHandler St).

Fixpoint loop_out (l : list X) (h : KafkaProtocolHandler St) : bytes :=
  match l with
  | [] => []
  | x :: l => resp x h ++ loop_out l (step x h)
  end.

Lemma runs_repeat (body : H ()) (P : KafkaProtocolHandler St -> Prop) l :
  (forall x h, x ∈ l -> P h -> runs body (enc x) () (resp x h) h (step x h) /\ P (step x h)) ->
  forall h, P h ->
    runs (repeat_n (length l) body) (concat (enc <$> l)) () (loop_out l h) h (foldl (flip step) h l)
    /\ P (foldl (flip step) h l).
Proof.
  induction l as [|x l IH]; intros Hb h Hh; [split; [apply runs_ret|done]|].
  destruct (Hb x h ltac:(left) Hh) as [Hx Hp].
  destruct (IH ltac:(intros; apply Hb; [by right|done]) _ Hp) as (Hw & Hq).
  split; [|exact Hq]. cbn [length repeat_n fmap list_fmap concat foldl loop_out].
  eapply runs_bind; [exact Hx|exact Hw].
Qed.
End loop.

Lemma loop_out_const {X} (resp : X -> KafkaProtocolHandler St -> bytes) l h :
  loop_out resp (fun _ h => h) l h = concat ((fun x => resp x h) <$> l).
Proof. induction l as [|x l IH]; [done|]. cbn. by rewrite IH. Qed.
Lemma foldl_const {X} (l : list X) h : foldl (flip (fun (_ : X) (h : KafkaProtocolHandler St) => h)) h l = h.
Proof. by induction l. Qed.

(** ** Readers *)

Lemma runs_read_int n d z h :
  (0 < n)%nat -> - 2 ^ (8 * Z.of_nat n - 1) <= z < 2 ^ (8 * Z.of_nat n - 1) ->
  runs (read_int n d) (be_put n z) z [] h h.
Proof.
  intros Hn Hz rest o. unfold read_int. cbn [inp out srv].
  rewrite length_app, be_put_length.
  destruct (Nat.leb_spec n (n + length rest)); [|lia].
  rewrite take_app_length', drop_app_length' by (by rewrite be_put_length).
  rewrite be_get_put, app_nil_r. do 2 f_equal.
  rewrite <- (wraps_small (8 * Z.of_nat n) z) at 2 by (lia || exact Hz).
  apply wraps_congr; [lia|]. apply Zmod_mod.
Qed.

Lemma runs_read_into n b h : (0 < n)%nat -> length b = n -> runs (read_into n) b (Some b) [] h h.
Proof.
  intros Hn Hb rest o. unfold read_into. cbn [inp out srv].
  destruct (b ++ rest) as [|x l] eqn:E; [apply app_nil in E as [-> _]; cbn in Hb; lia|]. rewrite <- E.
  rewrite take_app_length', drop_app_length' by done. rewrite Hb, Nat.sub_diag. cbn.
  by rewrite !app_nil_r.
Qed.

(** A string a Kafka string can carry. *)
Definition short (s : string) : Prop := Z.of_nat (String.length s) < 2 ^ 15.

Lemma bytes_of_string_length s : length (Wire.bytes_of_string s) = String.length s.
Proof. unfold Wire.bytes_of_string. rewrite length_fmap. induction s; cbn; auto. Qed.

Lemma bytes_of_string_ok s : bytes_ok (Wire.bytes_of_string s).
Proof. unfold Wire.bytes_of_string. apply Forall_fmap, Forall_true. intros x. unfold byte_ok, compose. pose proof (Ascii.nat_ascii_bounded x). lia. Qed.

Lemma be_put_wraps n w z : w = 8 * Z.of_nat n -> (0 < n)%nat -> be_put n (wraps w z) = be_put n z.
Proof.
  intros -> Hn. rewrite <- (be_put_get (be_put n (wraps _ z))) by apply be_put_ok.
  rewrite <- (be_put_get (be_put n z)) by apply be_put_ok. rewrite !be_put_length, !be_get_put.
  f_equal. apply wraps_mod. lia.
Qed.

Lemma be_put_wrapu n w z : w = 8 * Z.of_nat n -> (0 < n)%nat -> be_put n (wrapu w z) = be_put n z.
Proof.
  intros -> Hn. rewrite <- (be_put_get (be_put n (wrapu _ z))) by apply be_put_ok.
  rewrite <- (be_put_get (be_put n z)) by apply be_put_ok. rewrite !be_put_length, !be_get_put.
  f_equal. unfold wrapu. apply Z.mod_mod. lia.
Qed.

(** What [writeString] writes, [readString] reads, for every string of
    fewer than 2^15 bytes, whatever follows. *)
Lemma runs_readString s h : short s -> runs readString (string_bytes s) s [] h h.
Proof.
  intros Hs rest o. unfold readString, string_bytes, short in *. cbn [inp].
  rewrite <- app_assoc, length_app, be_put_length.
  destruct (Nat.ltb_spec (2 + length (Wire.bytes_of_string s ++ rest)) 2); [lia|].
  rewrite be_put_wraps by (done || lia).
  unfold mbind, H_bind. rewrite (runs_read_int 2 0 (Z.of_nat (String.length s)) h) by lia.
  cbn [fst snd]. destruct (Z.ltb_spec (Z.of_nat (String.length s)) 0); [lia|].
  rewrite Nat2Z.id, app_nil_r.
  destruct (decide (String.length s = 0%nat)) as [E|E].
  - destruct s; [|done]. cbn. by destruct rest.
  - rewrite (runs_read_into (String.length s) (Wire.bytes_of_string s) h)
      by (rewrite ?bytes_of_string_length; lia).
    cbn. rewrite app_nil_r. by rewrite ProcessorSpec.string_of_bytes_of_string.
Qed.

Lemma runs_readBytes b h :
  b <> [] -> Z.of_nat (length b) < 2 ^ 31 -> runs readBytes (slice_bytes (Some b)) (Some b) [] h h.
Proof.
  intros Hne Hs rest o. unfold readBytes, slice_bytes. cbn [inp].
  rewrite <- app_assoc, length_app, be_put_length.
  destruct (Nat.ltb_spec (4 + length (b ++ rest)) 4); [lia|].
  rewrite be_put_wraps by (done || lia).
  unfold mbind, H_bind. rewrite (runs_read_int 4 0 (Z.of_nat (length b)) h) by lia.
  cbn [fst snd]. destruct (Z.ltb_spec (Z.of_nat (length b)) 0); [lia|].
  rewrite Nat2Z.id, app_nil_r.
  rewrite (runs_read_into (length b) b h) by (destruct b; cbn in *; [done|lia] || done).
  by rewrite app_nil_r.
Qed.


(** ** Requests *)

Definition request_bytes (r : KafkaRequest) : bytes :=
  be_put 2 (APIKey (Header r)) ++ be_put 2 (APIVersion (Header r)) ++ be_put 4 (CorrelationID (Header r))
  ++ string_bytes (ClientID (Header r)) ++ Body r.
Definition frame (r : KafkaRequest) : bytes :=
  be_put 4 (Z.of_nat (length (request_bytes r))) ++ request_bytes r.

Definition request_ok (r : KafkaRequest) : Prop :=
  - 2 ^ 15 <= APIKey (Header r) < 2 ^ 15 /\ - 2 ^ 15 <= APIVersion (Header r) < 2 ^ 15 /\
  - 2 ^ 31 <= CorrelationID (Header r) < 2 ^ 31 /\ short (ClientID (Header r)) /\
  Z.of_nat (length (request_bytes r)) <= 100 * 1024 * 1024.

Lemma signed_get n w z :
  w = 8 * Z.of_nat n -> (0 < n)%nat -> - 2 ^ (w - 1) <= z < 2 ^ (w - 1) -> wraps w (be_get (be_put n z)) = z.
Proof.
  intros -> Hn Hz. rewrite be_get_put. rewrite <- (wraps_small (8 * Z.of_nat n) z) at 2 by (lia || exact Hz).
  apply wraps_congr; [lia|]. apply Zmod_mod.
Qed.

Lemma parse_request_bytes r : request_ok r -> parse_request (request_bytes r) = Some r.
Proof.
  destruct r as [[key version corr client] body]. intros (Hk & Hv & Hc & Hs & _).
  unfold parse_request, request_bytes, string_bytes, short in *. cbn [Header APIKey APIVersion CorrelationID ClientID Body] in *.
  rewrite !length_app, !be_put_length. destruct (Nat.ltb_spec (2 + (2 + (4 + (2 + length (Wire.bytes_of_string client) + length body)))) 8); [lia|].
  cbv zeta. rewrite take_app_length' by (by rewrite be_put_length).
  assert (forall (a b c d : bytes), length a = 2%nat -> length b = 2%nat -> length c = 4%nat ->
    drop 2 (a ++ b ++ c ++ d) = b ++ c ++ d /\ drop 4 (a ++ b ++ c ++ d) = c ++ d /\
    drop 8 (a ++ b ++ c ++ d) = d) as Hdrop.
  { intros a b c d Ha Hb Hd. split_and!.
    - by rewrite drop_app_length'.
    - rewrite app_assoc. rewrite drop_app_length'; [done|]. rewrite length_app; lia.
    - rewrite !app_assoc. rewrite drop_app_length'; [done|]. rewrite !length_app; lia. }
  destruct (Hdrop (be_put 2 key) (be_put 2 version) (be_put 4 corr)
    ((be_put 2 (s16 (Z.of_nat (String.length client))) ++ Wire.bytes_of_string client) ++ body))
    as (-> & -> & ->); [apply be_put_length..|].
  rewrite !take_app_length' by (by rewrite be_put_length). rewrite !signed_get by (done || lia).
  rewrite !length_app, be_put_length.
  destruct (Nat.ltb_spec (2 + length (Wire.bytes_of_string client) + length body) 2); [lia|].
  rewrite <- app_assoc, take_app_length', drop_app_length' by (by rewrite be_put_length).
  rewrite be_put_wraps, signed_get by (done || lia).
  destruct (Z.ltb_spec (Z.of_nat (String.length client)) 0); [lia|]. rewrite Nat2Z.id.
  destruct (Wire.bytes_of_string client ++ body) as [|x l] eqn:E.
  - apply app_nil in E as [E ->]. by destruct client.
  - rewrite <- E, take_app_length', drop_app_length' by (by rewrite bytes_of_string_length).
    rewrite bytes_of_string_length, Nat.sub_diag. cbn [replicate].
    by rewrite app_nil_r, ProcessorSpec.string_of_bytes_of_string.
Qed.

(** The framing round trip. *)
Lemma readRequest_frame r rest :
  request_ok r -> readRequest ((inl <$> frame r) ++ rest) = (Ok r, rest).
Proof.
  intros Hr. unfold readRequest, frame. rewrite fmap_app, <- app_assoc.
  pose proof (WireSpec.read_full_bytes (be_put 4 (Z.of_nat (length (request_bytes r)))) false
    ((inl <$> request_bytes r) ++ rest)) as E1. rewrite be_put_length in E1. rewrite E1.
  rewrite WireSpec.be_get_put_small by (destruct Hr as (_ & _ & _ & _ & ?); lia).
  destruct (Z.gtb_spec (Z.of_nat (length (request_bytes r))) (100 * 1024 * 1024));
    [destruct Hr as (_ & _ & _ & _ & ?); lia|].
  rewrite Nat2Z.id, WireSpec.read_full_bytes. by rewrite parse_request_bytes.
Qed.

(** Serving a list of requests. *)
Fixpoint serve (E : env) (rs : list KafkaRequest) (h : KafkaProtocolHandler St)
  : exec (list KafkaResponse * KafkaProtocolHandler St) :=
  match rs with
  | [] => Ret ([], h)
  | r :: rs =>
    do! p := handleRequest E r h in
    do! q := serve E rs (snd p) in
    Ret (fst p :: fst q, snd q)
  end.

Lemma HandleConnection_serve E rs : forall fuel i o h resps h',
  Forall request_ok rs -> serve E rs h = Ret (resps, h') -> (length rs < fuel)%nat ->
  HandleConnection E (fun _ => false) fuel i (inl <$> concat (frame <$> rs)) o h
  = Ret (ReadFailed Wire.EOF, o ++ concat (writeResponse <$> resps), h').
Proof.
  induction rs as [|r rs IH]; intros fuel i o h resps h' Hok Hs Hf; (destruct fuel as [|fuel]; [cbn in Hf; lia|]).
  - cbn in Hs. simplify_eq. cbn. by rewrite app_nil_r.
  - apply Forall_cons in Hok as [Hr Hok]. cbn [serve] in Hs.
    destruct (handleRequest E r h) as [[resp h1]| |] eqn:E1; [|done..]. cbn [fst snd] in Hs.
    destruct (serve E rs h1) as [[resps' h2]| |] eqn:E2; [|done..]. simplify_eq.
    cbn [HandleConnection fmap list_fmap concat].
    change (list_fmap KafkaRequest bytes frame rs) with (frame <$> rs).
    rewrite fmap_app, readRequest_frame by done. rewrite E1. cbn [fst snd].
    rewrite (IH fuel (S i) _ _ _ _ Hok E2) by (cbn in Hf; lia). by rewrite app_assoc.
Qed.

Lemma serve_correlation E rs : forall h resps h',
  serve E rs h = Ret (resps, h') ->
  r_CorrelationID <$> resps = (fun r => CorrelationID (Header r)) <$> rs.
Proof.
  induction rs as [|r rs IH]; intros h resps h' Hs; cbn [serve] in Hs; [by simplify_eq|].
  unfold handleRequest in Hs. destruct (dispatch E (Header r) _) as [p| |]; [|done..]. cbn [fst snd] in Hs.
  destruct (serve E rs _) as [[resps' h2]| |] eqn:E2; [|done..]. simplify_eq/=. f_equal. by eapply IH.
Qed.

(** A response as a Kafka client expects it: the size of what follows, the
    correlation identifier, the body. *)
Definition response_frame (r : KafkaResponse) : bytes :=
  be_put 4 (4 + Z.of_nat (length (r_Body r))) ++ be_put 4 (r_CorrelationID r) ++ r_Body r.

(** The size is kept modulo 2^32 on the wire, by the code and by [be_put] alike. *)
Lemma writeResponse_frame r : writeResponse r = response_frame r.
Proof.
  unfold writeResponse, response_frame. cbv zeta. rewrite length_app, be_put_length, be_put_wrapu by (done || lia).
  do 2 f_equal. lia.
Qed.

(** ** Committed offsets *)

(** The bytes that [handleOffsetCommit] takes for a commit: the group, a
    generation and the topics.  No version of the OffsetCommit request is laid out
    like this: version 0 has no generation ([enc_commit_v0]) and the later ones
    have a member identifier after it.  [offset_commit_fetch_roundtrip] is
    therefore about the two handlers agreeing with each other, and not about what
    a Kafka client sends; [offset_commit_v0_lost] is. *)
Definition commit_entry : Type := Z * Z * string.
Definition enc_commit_entry (c : commit_entry) : bytes :=
  let '(p, off, meta) := c in be_put 4 p ++ be_put 8 off ++ string_bytes meta.
Definition enc_commit_topic (t : string * list commit_entry) : bytes :=
  string_bytes (fst t) ++ be_put 4 (Z.of_nat (length (snd t))) ++ concat (enc_commit_entry <$> snd t).
Definition enc_commit (group : string) (generation : Z) (ts : list (string * list commit_entry)) : bytes :=
  string_bytes group ++ be_put 4 generation ++ be_put 4 (Z.of_nat (length ts)) ++ concat (enc_commit_topic <$> ts).

Definition int32 (z : Z) : Prop := - 2 ^ 31 <= z < 2 ^ 31.
Definition int64 (z : Z) : Prop := - 2 ^ 63 <= z < 2 ^ 63.
Definition entry_ok (c : commit_entry) : Prop := let '(p, off, meta) := c in int32 p /\ int64 off /\ short meta.
Definition topic_ok (t : string * list commit_entry) : Prop :=
  short (fst t) /\ int32 (Z.of_nat (length (snd t))) /\ Forall entry_ok (snd t).

Definition has_offsets (h : KafkaProtocolHandler St) : Prop := is_Some (offsetManager h).
Definition om_of (h : KafkaProtocolHandler St) : Offsets.OffsetManagerWithMetadata :=
  default Offsets.NewOffsetManagerWithMetadata (offsetManager h).

Section commits.
Context (E : env).

Definition commit_one (group topic : string) (c : commit_entry) (h : KafkaProtocolHandler St)
  : KafkaProtocolHandler St :=
  let '(p, off, meta) := c in
  mkHandler (writer h) (groupCoordinator h)
    (Some (Offsets.CommitOffsetWithMetadata (clock E (calls h)) group topic p off meta (om_of h)))
    (idgen h) (interner h) (S (calls h)).
Definition commit_topic (group : string) (t : string * list commit_entry) (h : KafkaProtocolHandler St) :=
  foldl (flip (commit_one group (fst t))) h (snd t).
Definition commit_all (group : string) (ts : list (string * list commit_entry)) (h : KafkaProtocolHandler St) :=
  foldl (flip (commit_topic group)) h ts.

Lemma runs_commit_partition group topic c h :
  entry_ok c -> has_offsets h ->
  runs (commit_partition E group topic) (enc_commit_entry c) () [] h (commit_one group topic c h)
  /\ has_offsets (commit_one group topic c h).
Proof.
  destruct c as [[p off] meta]. intros (Hp & Ho & Hm) [om Hom]. split; [|by eexists].
  unfold commit_partition, enc_commit_entry.
  eapply runs_bind'; [reflexivity| |apply runs_read_int; [lia|exact Hp]|]; [by rewrite app_nil_l|].
  eapply runs_bind'; [reflexivity| |apply runs_read_int; [lia|exact Ho]|]; [by rewrite app_nil_l|].
  eapply runs_bind'; [by rewrite app_nil_r| |by apply runs_readString|]; [by rewrite app_nil_l|].
  eapply (runs_bind' _ _ [] [] []); [done| |apply runs_now|]; [by rewrite app_nil_l|].
  eapply (runs_bind' _ _ [] [] []); [done| |apply runs_get|]; [by rewrite app_nil_l|].
  unfold commit_one, om_of, tick_call. cbn [offsetManager]. rewrite Hom. apply runs_put.
Qed.

Lemma loop_out_nil {X} (step : X -> KafkaProtocolHandler St -> KafkaProtocolHandler St) l h :
  loop_out (fun _ _ => []) step l h = [].
Proof. revert h. induction l as [|x l IH]; intros h; [done|]. cbn. apply IH. Qed.

Lemma runs_commit_topic group t h :
  topic_ok t -> has_offsets h ->
  runs (topicName ← readString; partitionCount ← read_int 4 0;
        repeat_n (Z.to_nat partitionCount) (commit_partition E group topicName))
    (enc_commit_topic t) () [] h (commit_topic group t h)
  /\ has_offsets (commit_topic group t h).
Proof.
  destruct t as [topic cs]. intros (Ht & Hn & Hc) Hh. cbn [fst snd] in *.
  destruct (runs_repeat enc_commit_entry (fun _ _ => []) (commit_one group topic) (commit_partition E group topic)
    has_offsets cs) with (h := h) as [Hr Hp]; [|done|].
  { intros c h' Hin Hh'. apply runs_commit_partition; [|done]. rewrite Forall_forall in Hc. by apply Hc. }
  split; [|exact Hp]. unfold enc_commit_topic. cbn [fst snd].
  eapply runs_bind'; [reflexivity| |by apply runs_readString|]; [by rewrite app_nil_l|].
  eapply runs_bind'; [reflexivity| |apply runs_read_int; [lia|exact Hn]|]; [by rewrite app_nil_l|].
  rewrite Nat2Z.id. rewrite loop_out_nil in Hr. exact Hr.
Qed.

(** The response names every topic [topic] and lists no partitions. *)
Definition commit_response (n : nat) : bytes :=
  be_put 4 0 ++ be_put 4 (Z.of_nat n) ++ concat (replicate n (string_bytes "topic" ++ be_put 4 0)).

Lemma runs_repeat_write n h :
  runs (repeat_n n (writeString "topic" ;; write_int 4 0)) [] ()
    (concat (replicate n (string_bytes "topic" ++ be_put 4 0))) h h.
Proof.
  induction n as [|n IH]; [apply runs_ret|]. cbn [repeat_n replicate concat].
  eapply (runs_bind _ _ [] [] () ()); [|exact IH].
  eapply (runs_bind _ _ [] [] () ()); [apply runs_writeString|apply runs_write_int].
Qed.

Lemma runs_handleOffsetCommit group generation ts h :
  short group -> int32 generation -> int32 (Z.of_nat (length ts)) -> Forall topic_ok ts -> has_offsets h ->
  runs (handleOffsetCommit E) (enc_commit group generation ts) () (commit_response (length ts)) h
    (commit_all group ts h)
  /\ has_offsets (commit_all group ts h).
Proof.
  intros Hg Hgen Hn Hts Hh.
  destruct (runs_repeat enc_commit_topic (fun _ _ => []) (commit_topic group)
    (topicName ← readString; partitionCount ← read_int 4 0;
     repeat_n (Z.to_nat partitionCount) (commit_partition E group topicName))
    has_offsets ts) with (h := h) as [Hr Hp]; [|done|].
  { intros t h' Hin Hh'. apply runs_commit_topic; [|done]. rewrite Forall_forall in Hts. by apply Hts. }
  rewrite loop_out_nil in Hr. split; [|exact Hp]. unfold handleOffsetCommit, enc_commit.
  eapply runs_bind'; [reflexivity| |by apply runs_readString|]; [by rewrite app_nil_l|].
  eapply runs_bind'; [reflexivity| |apply runs_read_int; [lia|exact Hgen]|]; [by rewrite app_nil_l|].
  eapply runs_bind'; [reflexivity| |apply runs_read_int; [lia|exact Hn]|]; [by rewrite app_nil_l|].
  eapply (runs_bind' _ _ _ []); [done| |apply runs_get|]; [by rewrite app_nil_l|].
  destruct Hh as [om ->]. rewrite Nat2Z.id.
  eapply (runs_bind' _ _ _ _ []); [by rewrite app_nil_r| |exact Hr|]; [by rewrite app_nil_l|].
  eapply (runs_bind' _ _ [] [] []); [done|reflexivity|apply runs_write_int|].
  eapply (runs_bind' _ _ [] [] []); [done|reflexivity|apply runs_write_int|].
  apply runs_repeat_write.
Qed.

(** The offset the server answers for a partition: -1 when there is none. *)
Definition offset_of (h : KafkaProtocolHandler St) (group topic : string) (p : Z) : Z :=
  match Offsets.FetchOffsetMetadata group topic p (om_of h) with
  | Ok m => Offsets.om_Offset m
  | Err _ => -1
  end.

(** The last commit of a list for a partition. *)
Definition flatten (ts : list (string * list commit_entry)) : list (string * Z * Z) :=
  ts ≫= (fun t => (fun c => (fst t, fst (fst c), snd (fst c))) <$> snd t).
Definition last_commit (l : list (string * Z * Z)) (topic : string) (p d : Z) : Z :=
  foldl (fun d c => if decide (fst c = (topic, p)) then snd c else d) d l.

Lemma get3_put3 {V} a b c (v : V) m a' b' c' :
  Offsets.get3 a' b' c' (Offsets.put3 a b c v m)
  = Ok v /\ (a', b', c') = (a, b, c) \/
  (a', b', c') <> (a, b, c) /\
  (forall w, Offsets.get3 a' b' c' (Offsets.put3 a b c v m) = Ok w <-> Offsets.get3 a' b' c' m = Ok w).
Proof.
  unfold Offsets.get3, Offsets.put3. cbv zeta.
  destruct (decide (a' = a)) as [->|Ha].
  2: { right. split; [naive_solver|]. intros w. by rewrite lookup_insert_ne. }
  rewrite lookup_insert_eq. destruct (decide (b' = b)) as [->|Hb].
  2: { right. split; [naive_solver|]. intros w. rewrite lookup_insert_ne by done.
       destruct (m !! a); cbn; [done|]. rewrite lookup_empty. naive_solver. }
  rewrite lookup_insert_eq. destruct (decide (c' = c)) as [->|Hc].
  { left. by rewrite lookup_insert_eq. }
  right. split; [naive_solver|]. intros w. rewrite lookup_insert_ne by done.
  destruct (m !! a) as [ts|]; cbn; [|by rewrite !lookup_empty].
  destruct (ts !! b); cbn; [done|]. by rewrite lookup_empty.
Qed.

Lemma offset_of_commit group topic c h topic' p' :
  offset_of (commit_one group topic c h) group topic' p'
  = if decide ((topic, fst (fst c)) = (topic', p')) then snd (fst c) else offset_of h group topic' p'.
Proof.
  destruct c as [[p off] meta]. unfold offset_of, commit_one, om_of at 1. cbn [offsetManager from_option id fst snd].
  unfold Offsets.FetchOffsetMetadata, Offsets.CommitOffsetWithMetadata. cbn [Offsets.metadata].
  destruct (get3_put3 group topic p (Offsets.mkOffsetMetadata off meta (clock E (calls h)))
    (Offsets.metadata (om_of h)) group topic' p') as [[-> [= -> ->]]|[Hne Hw]].
  - by rewrite decide_True.
  - rewrite decide_False by naive_solver.
    destruct (Offsets.get3 group topic' p' (Offsets.put3 _ _ _ _ _)) as [w|e] eqn:E1.
    + by rewrite (proj1 (Hw w) eq_refl).
    + destruct (Offsets.get3 group topic' p' (Offsets.metadata (om_of h))) as [w|e'] eqn:E2; [|done].
      by pose proof (proj2 (Hw w) eq_refl).
Qed.

Lemma offset_of_commit_topic group t topic p : forall h,
  offset_of (commit_topic group t h) group topic p
  = last_commit ((fun c : commit_entry => (fst t, fst (fst c), snd (fst c))) <$> snd t) topic p
      (offset_of h group topic p).
Proof.
  destruct t as [name cs]. unfold commit_topic. cbn [fst snd].
  induction cs as [|c cs IH]; intros h; [done|]. cbn [foldl fmap list_fmap last_commit flip].
  rewrite IH. unfold last_commit. cbn [foldl fmap list_fmap fst snd]. by rewrite offset_of_commit.
Qed.

Lemma offset_of_commit_all group ts topic p : forall h,
  offset_of (commit_all group ts h) group topic p = last_commit (flatten ts) topic p (offset_of h group topic p).
Proof.
  unfold commit_all, flatten. induction ts as [|t ts IH]; intros h; [done|]. cbn [foldl mbind list_bind flip].
  rewrite IH, offset_of_commit_topic. unfold last_commit. by rewrite foldl_app.
Qed.

(** The fetch request and its answer. *)
Definition enc_query (q : string * list Z) : bytes :=
  string_bytes (fst q) ++ be_put 4 (Z.of_nat (length (snd q))) ++ concat (be_put 4 <$> snd q).
Definition enc_fetch (group : string) (qs : list (string * list Z)) : bytes :=
  string_bytes group ++ be_put 4 (Z.of_nat (length qs)) ++ concat (enc_query <$> qs).
Definition query_ok (q : string * list Z) : Prop :=
  short (fst q) /\ int32 (Z.of_nat (length (snd q))) /\ Forall int32 (snd q).
Definition answer_partition (off p : Z) : bytes := be_put 4 p ++ be_put 8 off ++ string_bytes "" ++ be_put 2 0.
Definition answer_query (offs : string -> Z -> Z) (q : string * list Z) : bytes :=
  string_bytes (fst q) ++ be_put 4 (Z.of_nat (length (snd q)))
  ++ concat ((fun p => answer_partition (offs (fst q) p) p) <$> snd q).
Definition answer_fetch (offs : string -> Z -> Z) (qs : list (string * list Z)) : bytes :=
  be_put 4 0 ++ be_put 4 (Z.of_nat (length qs)) ++ concat (answer_query offs <$> qs) ++ be_put 2 0.

Lemma runs_fetch_partition group topic p h :
  int32 p -> has_offsets h ->
  runs (fetch_offset_partition group topic) (be_put 4 p) () (answer_partition (offset_of h group topic p) p) h h.
Proof.
  intros Hp [om Hom]. unfold fetch_offset_partition, answer_partition.
  eapply runs_bind'; [by rewrite app_nil_r| |apply runs_read_int; [lia|exact Hp]|]; [by rewrite app_nil_l|].
  eapply (runs_bind' _ _ _ []); [done| |apply runs_get|]; [by rewrite app_nil_l|]. cbv zeta.
  unfold offset_of, om_of. rewrite Hom. cbn [from_option id].
  eapply (runs_bind' _ _ [] [] []); [done|reflexivity|apply runs_write_int|].
  eapply (runs_bind' _ _ [] [] []); [done|reflexivity|apply runs_write_int|].
  eapply (runs_bind' _ _ [] [] []); [done|reflexivity|apply runs_writeString|apply runs_write_int].
Qed.

Lemma runs_fetch_query group q h :
  query_ok q -> has_offsets h ->
  runs (topicName ← readString; partitionCount ← read_int 4 0;
        writeString topicName ;; write_int 4 partitionCount ;;
        repeat_n (Z.to_nat partitionCount) (fetch_offset_partition group topicName))
    (enc_query q) () (answer_query (offset_of h group) q) h h.
Proof.
  destruct q as [topic ps]. intros (Ht & Hn & Hps) Hh. cbn [fst snd] in *.
  destruct (runs_repeat (be_put 4) (fun p h => answer_partition (offset_of h group topic p) p) (fun _ h => h)
    (fetch_offset_partition group topic) has_offsets ps) with (h := h) as [Hr _]; [|done|].
  { intros p h' Hin Hh'. split; [|done]. apply runs_fetch_partition; [|done].
    rewrite Forall_forall in Hps. by apply Hps. }
  rewrite loop_out_const, foldl_const in Hr.
  unfold enc_query, answer_query. cbn [fst snd].
  eapply runs_bind'; [reflexivity| |by apply runs_readString|]; [by rewrite app_nil_l|].
  eapply runs_bind'; [reflexivity| |apply runs_read_int; [lia|exact Hn]|]; [by rewrite app_nil_l|].
  rewrite Nat2Z.id.
  eapply (runs_bind' _ _ _ []); [done|reflexivity|apply runs_writeString|].
  eapply (runs_bind' _ _ _ []); [done|reflexivity|apply runs_write_int|exact Hr].
Qed.

Lemma runs_handleOffsetFetch group qs h :
  short group -> int32 (Z.of_nat (length qs)) -> Forall query_ok qs -> has_offsets h ->
  runs handleOffsetFetch (enc_fetch group qs) () (answer_fetch (offset_of h group) qs) h h.
Proof.
  intros Hg Hn Hqs Hh.
  destruct (runs_repeat enc_query (fun q h => answer_query (offset_of h group) q) (fun _ h => h)
    (topicName ← readString; partitionCount ← read_int 4 0;
        writeString topicName ;; write_int 4 partitionCount ;;
        repeat_n (Z.to_nat partitionCount) (fetch_offset_partition group topicName)) has_offsets qs)
    with (h := h) as [Hr _]; [|done|].
  { intros q h' Hin Hh'. split; [|done]. apply runs_fetch_query; [|done].
    rewrite Forall_forall in Hqs. by apply Hqs. }
  rewrite loop_out_const, foldl_const in Hr.
  unfold handleOffsetFetch, enc_fetch, answer_fetch.
  eapply runs_bind'; [reflexivity| |by apply runs_readString|]; [by rewrite app_nil_l|].
  eapply runs_bind'; [reflexivity| |apply runs_read_int; [lia|exact Hn]|]; [by rewrite app_nil_l|].
  eapply (runs_bind' _ _ _ []); [done|reflexivity|apply runs_write_int|].
  eapply (runs_bind' _ _ _ []); [done| |apply runs_get|]; [by rewrite app_nil_l|].
  destruct Hh as [om ->]. rewrite Nat2Z.id.
  eapply (runs_bind' _ _ _ []); [done|reflexivity|apply runs_write_int|].
  eapply runs_bind'; [by rewrite app_nil_r|reflexivity|exact Hr|apply runs_write_int].
Qed.

End commits.

(** The handlers agree: after a commit in the layout of [enc_commit], an
    OffsetFetch request of the same group is answered, for every partition it
    names, with the offset committed last for it, or, when the request did not
    commit one, with the offset known before (-1 if there was none). *)
Lemma offset_commit_fetch_roundtrip E group generation ts qs h :
  short group -> int32 generation -> int32 (Z.of_nat (length ts)) -> Forall topic_ok ts ->
  int32 (Z.of_nat (length qs)) -> Forall query_ok qs -> has_offsets h ->
  exists h', runs (handleOffsetCommit E) (enc_commit group generation ts) () (commit_response (length ts)) h h'
    /\ runs handleOffsetFetch (enc_fetch group qs) ()
         (answer_fetch (fun topic p => last_commit (flatten ts) topic p (offset_of h group topic p)) qs) h' h'.
Proof.
  intros Hg Hgen Hn Hts Hq Hqs Hh.
  destruct (runs_handleOffsetCommit E group generation ts h) as [Hc Hh']; [done..|].
  eexists. split; [exact Hc|].
  pose proof (runs_handleOffsetFetch group qs _ Hg Hq Hqs Hh') as Hf.
  assert (answer_fetch (offset_of (commit_all E group ts h) group) qs
    = answer_fetch (fun topic p => last_commit (flatten ts) topic p (offset_of h group topic p)) qs) as <-; [|done].
  unfold answer_fetch. do 4 f_equal. apply list_fmap_ext. intros _ q _. unfold answer_query. do 3 f_equal.
  apply list_fmap_ext. intros _ p _. by rewrite offset_of_commit_all.
Qed.

(** The request as Kafka lays out version 0: the group, then the topics. *)
Definition enc_commit_v0 (group : string) (ts : list (string * list commit_entry)) : bytes :=
  string_bytes group ++ be_put 4 (Z.of_nat (length ts)) ++ concat (enc_commit_topic <$> ts).

(** The length of a name and its first two bytes, taken for one 32-bit number. *)
Definition mistaken_count (topic : string) (c1 c2 : Z) : Z :=
  Z.of_nat (String.length topic) * 65536 + c1 * 256 + c2.

Lemma mistaken_count_bytes topic c1 c2 :
  short topic -> 0 <= c1 < 256 -> 0 <= c2 < 256 ->
  be_put 2 (s16 (Z.of_nat (String.length topic))) ++ [c1; c2] = be_put 4 (mistaken_count topic c1 c2)
  /\ int32 (mistaken_count topic c1 c2).
Proof.
  unfold short, mistaken_count, int32. intros Hs H1 H2. split; [|lia].
  rewrite be_put_wraps by (done || lia). rewrite <- (WireSpec.be_put_get_len 4 (be_put 2 _ ++ [c1; c2])).
  - f_equal. pose proof (WireSpec.be_get_put_small 2 (Z.of_nat (String.length topic))) as Hg.
    pose proof (be_put_length 2 (Z.of_nat (String.length topic))) as Hl.
    destruct (be_put 2 (Z.of_nat (String.length topic))) as [|x [|y [|]]]; [done..| |done].
    unfold be_get in *. cbn [rev app le_get] in *. lia.
  - apply Forall_app. split; [apply be_put_ok|]. repeat constructor; unfold byte_ok; lia.
  - by rewrite length_app, be_put_length.
Qed.

Lemma bind_ret {A B} (m : H (St := St) A) (k : A -> H B) s a s' : m s = Ret (a, s') -> (m ≫= k) s = k a s'.
Proof. unfold mbind, H_bind. by intros ->. Qed.

Lemma read_int_any n d z rest o h :
  read_int n d (mkH (be_put n z ++ rest) o h) = Ret (wraps (8 * Z.of_nat n) (be_get (be_put n z)), mkH rest o h).
Proof.
  unfold read_int. cbn [inp out srv]. rewrite length_app, be_put_length.
  destruct (Nat.leb_spec n (n + length rest)); [|lia].
  by rewrite take_app_length', drop_app_length' by (by rewrite be_put_length).
Qed.

(** A string announced longer than the body takes the rest of it. *)
Lemma readString_drains c3 c4 rest o h :
  0 <= c3 * 256 + c4 < 2 ^ 15 -> Z.of_nat (length rest) <= c3 * 256 + c4 ->
  exists str, readString (mkH (c3 :: c4 :: rest) o h) = Ret (str, mkH [] o h).
Proof.
  intros Hc Hr. unfold readString. cbn [inp length Nat.ltb Nat.leb].
  assert (be_get [c3; c4] = c3 * 256 + c4) as Hg by (unfold be_get; cbn [rev app le_get]; lia).
  rewrite (bind_ret _ _ _ (c3 * 256 + c4) (mkH rest o h)).
  2: { unfold read_int. cbn [inp length Nat.leb out srv]. change (take 2 (c3 :: c4 :: rest)) with [c3; c4]. rewrite Hg, wraps_small by lia. done. }
  destruct (Z.ltb_spec (c3 * 256 + c4) 0); [lia|].
  assert (exists str, read_into (Z.to_nat (c3 * 256 + c4)) (mkH rest o h) = Ret (str, mkH [] o h)) as [str Hs].
  { unfold read_into. cbn [inp out srv]. destruct rest as [|x l] eqn:E1; [by eexists|].
    rewrite drop_ge by lia. by eexists. }
  rewrite (bind_ret _ _ _ _ _ Hs). by eexists.
Qed.

(** So does a topic entry with such a name, and the entries after it are read at
    the end of the body. *)
Lemma drained_topics E group n c3 c4 rest o h :
  0 <= c3 * 256 + c4 < 2 ^ 15 -> Z.of_nat (length rest) <= c3 * 256 + c4 -> 0 < n ->
  repeat_n (Z.to_nat n)
    (topicName ← readString; partitionCount ← read_int 4 0;
     repeat_n (Z.to_nat partitionCount) (commit_partition E group topicName)) (mkH (c3 :: c4 :: rest) o h)
  = Ret ((), mkH [] o h).
Proof.
  intros Hc Hr Hn. destruct (Z.to_nat n) as [|k] eqn:En; [lia|]. clear n Hn En.
  destruct (readString_drains c3 c4 rest o h Hc Hr) as [str Hs]. cbn [repeat_n].
  rewrite (bind_ret _ _ _ () (mkH [] o h)) by (by rewrite (bind_ret _ _ _ _ _ Hs)).
  induction k as [|k IH]; [done|]. cbn [repeat_n]. exact IH.
Qed.

(** Where the handler sees the count, and the rest of the body. *)
Lemma v0_layout topic c1 c2 c3 c4 more cs ts :
  short topic -> Wire.bytes_of_string topic = c1 :: c2 :: c3 :: c4 :: more -> 32 <= c3 < 128 ->
  exists rest, concat (enc_commit_topic <$> (topic, cs) :: ts) = be_put 4 (mistaken_count topic c1 c2) ++ c3 :: c4 :: rest
    /\ 2 ^ 13 <= c3 * 256 + c4 < 2 ^ 15 /\ 0 < mistaken_count topic c1 c2 /\ int32 (mistaken_count topic c1 c2).
Proof.
  intros Ht Hb Hc3. pose proof (bytes_of_string_ok topic) as Hbs. pose proof (bytes_of_string_length topic) as Hl.
  rewrite Hb in Hbs, Hl. cbn [length] in Hl. unfold bytes_ok, byte_ok in Hbs.
  repeat match goal with H : Forall _ (_ :: _) |- _ => apply Forall_cons in H as [? H] end.
  destruct (mistaken_count_bytes topic c1 c2) as [Hm Hi]; [done..|].
  eexists. split_and!; [|lia..| |exact Hi].
  - cbn [fmap list_fmap concat]. unfold enc_commit_topic at 1. cbn [fst snd]. unfold string_bytes.
    rewrite Hb, <- Hm, <- !app_assoc. reflexivity.
  - unfold mistaken_count. lia.
Qed.

(** C20: a version 0 OffsetCommit request is lost: for a request as Kafka lays it
    out (and as the repository's own integration test sends it), whose first
    topic name has at least four bytes, the third one ASCII and not a control
    character, and whose topics take at most 8 KB, the handler takes the
    number of topics for a generation and the name's length and first two bytes
    for the number of topics; no offset is committed, the server is left as it
    was, and the answer is a success that lists that many topics. *)
Theorem offset_commit_v0_lost E hd group topic c1 c2 c3 c4 more cs ts h :
  APIKey hd = OffsetCommitAPI -> short group -> short topic ->
  Wire.bytes_of_string topic = c1 :: c2 :: c3 :: c4 :: more -> 32 <= c3 < 128 ->
  Z.of_nat (length (concat (enc_commit_topic <$> (topic, cs) :: ts))) <= 2 ^ 13 ->
  has_offsets h ->
  handleRequest E (mkRequest hd (enc_commit_v0 group ((topic, cs) :: ts))) h
  = Ret (mkResponse (CorrelationID hd) (commit_response (Z.to_nat (mistaken_count topic c1 c2))), h).
Proof.
  intros Hk Hg Ht Hb Hc3 Hlen [om Hom].
  destruct (v0_layout topic c1 c2 c3 c4 more cs ts Ht Hb Hc3) as (rest & Hrest & Hc & Hpos & Hi).
  set (m := mistaken_count topic c1 c2) in *.
  unfold handleRequest. cbn [Header Body]. replace (dispatch E hd) with (handleOffsetCommit E (St := St)) by (unfold dispatch; by rewrite Hk).
  unfold handleOffsetCommit, enc_commit_v0. rewrite Hrest.
  rewrite Hrest, length_app, be_put_length in Hlen. cbn [length] in Hlen.
  rewrite (bind_ret _ _ _ _ _ (runs_readString group h Hg _ _)).
  erewrite bind_ret by (apply read_int_any).
  erewrite bind_ret by (apply runs_read_int; [lia|exact Hi]).
  rewrite (bind_ret _ _ _ h (mkH (c3 :: c4 :: rest) [] h)) by done. rewrite Hom.
  erewrite bind_ret by (apply drained_topics; lia).
  pose proof (runs_repeat_write (Z.to_nat m) h [] (be_put 4 0 ++ be_put 4 m)) as Hw.
  rewrite (bind_ret _ _ _ () (mkH [] (be_put 4 0) h)) by done.
  rewrite (bind_ret _ _ _ () (mkH [] (be_put 4 0 ++ be_put 4 m) h)) by done.
  rewrite app_nil_l in Hw. rewrite Hw. cbn [out srv snd]. unfold commit_response. by rewrite Z2Nat.id, <- app_assoc by lia.
Qed.


(** ** Produced messages *)

Lemma process_message_answer E k m :
  stalls E k = None -> Topic m <> "" ->
  process_message E k (m, false) = Ok (Some (ProcessorSpec.kept m (Payload m))).
Proof.
  intros Hs Ht. unfold process_message. rewrite Hs. cbv zeta.
  unfold Processor.processTask. cbn [Processor.t_Type Processor.has_callback].
  change (Processor.set_pooled false Processor.new_pooled) with (ProcessorSpec.blank false).
  unfold Processor.processSingleMessage, Processor.validateMessage. cbn [Processor.t_Message].
  rewrite decide_False by done. by rewrite ProcessorSpec.pipeline_spec.
Qed.

Definition enc_produce (acks timeout : Z) (topic : string) (partition : Z) (value : bytes) : bytes :=
  be_put 2 acks ++ be_put 4 timeout ++ be_put 4 1 ++ string_bytes topic ++ be_put 4 1
  ++ be_put 4 partition ++ be_put 4 (Z.of_nat (length value)) ++ value.
Definition produce_response (topic : string) (partition offset : Z) : bytes :=
  be_put 4 0 ++ be_put 4 1 ++ string_bytes topic ++ be_put 4 1
  ++ be_put 4 partition ++ be_put 2 NoError ++ be_put 8 offset ++ be_put 8 (-1) ++ be_put 8 (-1).

(** What the processor keeps of a produced message. *)
Definition produced (now id : Z) (topic : string) (value : bytes) : PortaskMessage :=
  ProcessorSpec.kept
    (mkMessage (pretty (Z.to_N id)) topic value now (Some ∅) None 0 StatusPending 0 "" "" "" 0 0 0 0 0 "" ""
       zero_internal) value.

Definition interned (h : KafkaProtocolHandler St) : Prop := map_Forall (fun k v => v = k) (interner h).

Lemma runs_NextKafkaID h :
  runs NextKafkaID [] (snd (Ids.Next (idgen h))) [] h
    (mkHandler (writer h) (groupCoordinator h) (offsetManager h) (fst (Ids.Next (idgen h))) (interner h) (calls h)).
Proof.
  intros rest o. unfold NextKafkaID, mbind, H_bind. cbn. destruct (Ids.Next (idgen h)) as [g id]. cbn.
  by rewrite app_nil_r.
Qed.

Lemma InternTopic_id topic cache :
  map_Forall (fun k v => v = k) cache -> snd (InternTopic topic cache) = topic.
Proof. intros Hc. unfold InternTopic. destruct (cache !! topic) as [c|] eqn:E; [by apply Hc|done]. Qed.


(** One partition of a produce request on the way to the buffer. *)
Lemma runs_produce_partition E topic partition value h :
  topic <> "" -> int32 partition -> value <> [] -> int32 (Z.of_nat (length value)) -> interned h ->
  stalls E (S (calls h)) = None ->
  Z.of_nat (length (Batch.buffer (writer h))) + 1 < Batch.BatchSize (Batch.config (writer h)) ->
  exists h' id m,
    runs (produce_partition E topic) (be_put 4 partition ++ be_put 4 (Z.of_nat (length value)) ++ value) ()
      (be_put 4 partition ++ be_put 2 NoError ++ be_put 8 (clock E (calls h)) ++ be_put 8 (-1) ++ be_put 8 (-1)) h h'
    /\ m = produced (clock E (calls h)) id topic value
    /\ writer h' = fst (Batch.Write m (writer h)).
Proof.
  intros Ht Hp Hv Hlen Hi Hst Hbuf. set (now0 := clock E (calls h)) in *.
  set (id := snd (Ids.Next (idgen h))).
  destruct (InternTopic topic (interner h)) as [cache name] eqn:Hin.
  assert (name = topic) as -> by (by rewrite <- (InternTopic_id topic (interner h) Hi), Hin).
  do 3 eexists. split; [|split; [reflexivity|]].
  - unfold produce_partition.
    eapply runs_bind'; [reflexivity| |apply runs_read_int; [lia|exact Hp]|]; [by rewrite app_nil_l|].
    eapply runs_bind'; [reflexivity| |apply runs_read_int; [lia|exact Hlen]|]; [by rewrite app_nil_l|].
    destruct (Z.ltb_spec (Z.of_nat (length value)) 0); [lia|]. rewrite Nat2Z.id.
    eapply runs_bind'; [by rewrite app_nil_r| |apply runs_read_into; [|reflexivity]|]; [by rewrite app_nil_l|by destruct value; cbn in *; [|lia]|].
    cbv zeta. cbn [from_option id].
    eapply (runs_bind' _ _ [] [] []); [done|by rewrite app_nil_l| |].
    + rewrite decide_False by done.
      eapply (runs_bind' _ _ [] [] []); [done| |apply runs_NextKafkaID|]; [by rewrite app_nil_l|].
      eapply (runs_bind' _ _ [] [] []); [done| |apply runs_now|]; [by rewrite app_nil_l|].
      eapply (runs_bind' _ _ [] [] []); [done| |apply runs_get|]; [by rewrite app_nil_l|].
      unfold TranslateProduce. rewrite decide_False by done. cbn [tick_call interner]. rewrite Hin.
      eapply (runs_bind' _ _ [] [] []); [done| |apply runs_put|]; [by rewrite app_nil_l|].
      rewrite bool_decide_eq_false_2 by done. unfold bridge_ProduceMessage.
      eapply (runs_bind' _ _ [] [] []); [done| |apply runs_next_call|]; [by rewrite app_nil_l|].
      cbn [calls]. rewrite process_message_answer by done.
      eapply (runs_bind' _ _ [] [] []); [done| |apply runs_get|]; [by rewrite app_nil_l|].
      cbn [writer tick_call]. unfold Batch.Write. cbv zeta.
      cbn [Batch.buffer Batch.config Batch.storage].
      rewrite length_app. cbn [length].
      destruct (Z.geb_spec (Z.of_nat (length (Batch.buffer (writer h)) + 1)) (Batch.BatchSize (Batch.config (writer h))));
        [lia|].
      eapply (runs_bind' _ _ [] [] []); [done| |apply runs_put|]; [by rewrite app_nil_l|].
      apply runs_ret.
    + eapply (runs_bind' _ _ [] [] []); [done|reflexivity|apply runs_write_int|].
      rewrite app_assoc. eapply (runs_bind' _ _ [] [] []); [done|reflexivity| |].
      { eapply (runs_bind' _ _ [] [] []); [done|reflexivity|apply runs_write_int|apply runs_write_int]. }
      eapply (runs_bind' _ _ [] [] []); [done|reflexivity|apply runs_write_int|apply runs_write_int].
  - unfold Batch.Write. cbv zeta. cbn [Batch.buffer Batch.config Batch.storage writer set_writer].
    rewrite length_app. cbn [length].
    destruct (Z.geb_spec (Z.of_nat (length (Batch.buffer (writer h)) + 1)) (Batch.BatchSize (Batch.config (writer h))));
      [lia|]. reflexivity.
Qed.


Lemma runs_handleProduce E acks timeout topic partition value h :
  - 2 ^ 15 <= acks < 2 ^ 15 -> int32 timeout -> short topic ->
  topic <> "" -> int32 partition -> value <> [] -> int32 (Z.of_nat (length value)) -> interned h ->
  stalls E (S (calls h)) = None ->
  Z.of_nat (length (Batch.buffer (writer h))) + 1 < Batch.BatchSize (Batch.config (writer h)) ->
  exists h' id,
    runs (handleProduce E) (enc_produce acks timeout topic partition value) ()
      (produce_response topic partition (clock E (calls h))) h h'
    /\ writer h' = fst (Batch.Write (produced (clock E (calls h)) id topic value) (writer h)).
Proof.
  intros Ha Hto Hs Ht Hp Hv Hlen Hi Hst Hbuf.
  destruct (runs_produce_partition E topic partition value h) as (h' & id & m & Hr & -> & Hw); [done..|].
  exists h', id. split; [|done]. unfold handleProduce, enc_produce, produce_response.
  eapply runs_bind'; [reflexivity| |apply runs_read_int; [lia|exact Ha]|]; [by rewrite app_nil_l|].
  eapply runs_bind'; [reflexivity| |apply runs_read_int; [lia|exact Hto]|]; [by rewrite app_nil_l|].
  eapply runs_bind'; [reflexivity| |apply (runs_read_int 4 0 1); [lia|done]|]; [by rewrite app_nil_l|].
  eapply (runs_bind' _ _ _ []); [done|reflexivity|apply runs_write_int|].
  eapply (runs_bind' _ _ _ []); [done|reflexivity|apply runs_write_int|].
  change (Z.to_nat 1) with 1%nat. cbn [repeat_n].
  eapply (runs_bind' _ _ _ _ [] _ _ _ _ []); [by rewrite app_nil_r|by rewrite app_nil_r| |apply runs_ret].
  eapply (runs_bind' _ _ _ (string_bytes topic)); [reflexivity| |by apply runs_readString|]; [by rewrite app_nil_l|].
  eapply (runs_bind' _ _ _ []); [done|reflexivity|apply runs_writeString|].
  eapply (runs_bind' _ _ _ (be_put 4 1)); [reflexivity| |apply (runs_read_int 4 0 1); [lia|done]|]; [by rewrite app_nil_l|].
  eapply (runs_bind' _ _ _ []); [done|reflexivity|apply runs_write_int|].
  change (Z.to_nat 1) with 1%nat. cbn [repeat_n].
  eapply (runs_bind' _ _ _ _ [] _ _ _ _ []); [by rewrite app_nil_r|by rewrite app_nil_r| |apply runs_ret].
  exact Hr.
Qed.

End logic.

(** What a Produce request does.  With a topic and a value it is answered
    with no error and, as base offset, the clock, while nothing is stored yet;
    at the next flush the value is appended to partition 0 of the topic,
    without key, whatever partition the request named. *)
Theorem produce_goes_to_partition_zero E acks timeout topic t partition value
  (h : KafkaProtocolHandler InMemoryMessageStore) :
  - 2 ^ 15 <= acks < 2 ^ 15 -> int32 timeout -> short topic -> topic <> "" ->
  int32 partition -> value <> [] -> int32 (Z.of_nat (length value)) -> interned h ->
  stalls E (S (calls h)) = None -> Batch.buffer (writer h) = [] -> 1 < Batch.BatchSize (Batch.config (writer h)) ->
  0 <= Batch.MaxRetries (Batch.config (writer h)) -> messageStore h !! topic = Some t ->
  exists h',
    runs (handleProduce E) (enc_produce acks timeout topic partition value) ()
      (produce_response topic partition (clock E (calls h))) h h'
    /\ messageStore h' = messageStore h
    /\ Batch.storage (Batch.tick (writer h')) = fst (ProduceMessage topic 0 [] value (messageStore h)).
Proof.
  intros Ha Hto Hs Ht Hp Hv Hlen Hi Hst Hbuf Hbs Hmr Hstore.
  destruct (runs_handleProduce E acks timeout topic partition value h) as (h' & id & Hr & Hw); try done.
  { rewrite Hbuf. cbn. lia. }
  exists h'. split; [exact Hr|].
  assert (writer h' = Batch.mkBW (Batch.storage (writer h)) (Batch.config (writer h))
    [produced (clock E (calls h)) id topic value] (s64 (Batch.messageCount (writer h) + 1))
    (Batch.batchCount (writer h)) (Batch.running (writer h)) (Batch.stopClosed (writer h))) as Hw'.
  { rewrite Hw. unfold Batch.Write. cbv zeta. cbn [Batch.buffer Batch.config]. rewrite Hbuf. cbn [app length].
    destruct (Z.geb_spec (Z.of_nat 1) (Batch.BatchSize (Batch.config (writer h)))); [lia|]. done. }
  split; [unfold messageStore; by rewrite Hw'|].
  rewrite Hw'. unfold Batch.tick. cbn [Batch.buffer]. rewrite decide_False by done.
  unfold Batch.flushLocked. cbn [Batch.buffer Batch.config Batch.storage]. rewrite decide_False by done.
  destruct (Z.to_nat (Batch.MaxRetries (Batch.config (writer h)) + 1)) as [|n] eqn:En; [lia|].
  cbn [Batch.store_retry]. unfold Batch.StoreBatch, KafkaStorageAdapter. cbn [StoreBatch].
  unfold messageStore in Hstore. cbn [ProduceMessage InMemory_MessageStore].
  unfold mem_ProduceMessage, messageStore. cbn [Topic produced ProcessorSpec.kept]. by rewrite Hstore.
Qed.

Definition demo_handler : KafkaProtocolHandler InMemoryMessageStore :=
  NewKafkaProtocolHandlerWithCoordinators (fst (mem_CreateTopic "t" 4 1 NewInMemoryMessageStore)) (Some ∅)
    (Some Offsets.NewOffsetManagerWithMetadata) (Ids.NewIDGenerator 0 "kafka").
Definition demo_env : env := mkEnv (fun k => 1000 + Z.of_nat k) (fun _ => None).

Lemma produce_goes_to_partition_zero_witness : exists h',
  runs (handleProduce demo_env) (enc_produce 1 100 "t" 3 [7; 8]) () (produce_response "t" 3 1000) demo_handler h'
  /\ messageStore h' = messageStore demo_handler
  /\ (fun t => (messages t 0, messages t 3)) <$> (Batch.storage (Batch.tick (writer h')) !! "t")
     = Some ([mkKMessage 0 [] [7; 8]], []).
Proof.
  destruct (produce_goes_to_partition_zero demo_env 1 100 "t" (mkTopic "t" (fresh_partitions 4)) 3 [7; 8] demo_handler)
    as (h' & Hr & Hm & Hs).
  - vm_compute; split; [discriminate|reflexivity].
  - vm_compute; split; [discriminate|reflexivity].
  - vm_compute; reflexivity.
  - discriminate.
  - vm_compute; split; [discriminate|reflexivity].
  - discriminate.
  - vm_compute; split; [discriminate|reflexivity].
  - apply map_Forall_empty.
  - reflexivity.
  - reflexivity.
  - vm_compute; reflexivity.
  - vm_compute; discriminate.
  - vm_compute; reflexivity.
  - exists h'. split; [exact Hr|]. split; [exact Hm|]. rewrite Hs. vm_compute. reflexivity.
Defined.

(** A consumer that goes on from the offset it was answered finds nothing: the
    offsets of the store count messages. *)
Lemma acknowledged_offset_reads_nothing s topic t partition now maxBytes :
  s !! topic = Some t -> Z.of_nat (length (messages t partition)) <= now ->
  mem_ConsumeMessages topic partition now maxBytes s = Ret (Ok []).
Proof.
  intros Ht Hn. unfold mem_ConsumeMessages. rewrite Ht.
  by destruct (Z.geb_spec now (Z.of_nat (length (messages t partition)))); [|lia].
Qed.

(** The request of the integration test: one topic, one partition, offset 10. *)
Lemma offset_commit_v0_lost_witness :
  handleRequest demo_env (mkRequest (mkRequestHeader OffsetCommitAPI 0 1 "")
    (enc_commit_v0 "test-consumer-group" [("test-topic", [(0, 10, "")])])) demo_handler
  = Ret (mkResponse 1 (commit_response (Z.to_nat 685157)), demo_handler).
Proof.
  apply (offset_commit_v0_lost demo_env (mkRequestHeader OffsetCommitAPI 0 1 "") "test-consumer-group" "test-topic"
    116 101 115 116 [45; 116; 111; 112; 105; 99] [(0, 10, "")] []).
  - reflexivity.
  - vm_compute; reflexivity.
  - vm_compute; reflexivity.
  - vm_compute; reflexivity.
  - lia.
  - vm_compute; discriminate.
  - by eexists.
Defined.

(** The handlers on a private request: the last commit of each partition is
    answered, and -1 for the partition that has none. *)
Example offset_commit_fetch_example : exists h',
  runs (handleOffsetCommit demo_env) (enc_commit "g" 0 [("t", [(0, 5, "x"); (1, 6, ""); (0, 9, "")])]) ()
    (commit_response 1) demo_handler h'
  /\ runs handleOffsetFetch (enc_fetch "g" [("t", [0; 1; 2])]) ()
       (be_put 4 0 ++ be_put 4 1 ++ (string_bytes "t" ++ be_put 4 3
          ++ answer_partition 9 0 ++ answer_partition 6 1 ++ answer_partition (-1) 2) ++ be_put 2 0) h' h'.
Proof.
  destruct (offset_commit_fetch_roundtrip demo_env "g" 0 [("t", [(0, 5, "x"); (1, 6, ""); (0, 9, "")])]
    [("t", [0; 1; 2])] demo_handler) as (h' & Hc & Hf).
  - vm_compute; reflexivity.
  - vm_compute; split; [discriminate|reflexivity].
  - vm_compute; split; [discriminate|reflexivity].
  - repeat constructor; vm_compute; discriminate.
  - vm_compute; split; [discriminate|reflexivity].
  - repeat constructor; vm_compute; discriminate.
  - by eexists.
  - exists h'. split; [exact Hc|exact Hf].
Qed.

(** ** Requests that cannot crash the server *)

Section total.
Context {St : Type} `{!MessageStore St}.

Definition total {A} (m : H (St := St) A) : Prop := forall s, exists r, m s = Ret r.

Lemma total_ret {A} (a : A) : total (mret a).
Proof. intros s. by eexists. Qed.
Lemma total_bind {A B} (m : H A) (k : A -> H B) : total m -> (forall a, total (k a)) -> total (m ≫= k).
Proof. intros Hm Hk s. unfold mbind, H_bind. destruct (Hm s) as [[a s'] ->]. apply Hk. Qed.
Lemma total_get : total get_srv.
Proof. intros s. by eexists. Qed.
Lemma total_put h : total (put_srv h).
Proof. intros s. by eexists. Qed.
Lemma total_write b : total (write b).
Proof. intros s. by eexists. Qed.
Lemma total_read_int n d : total (read_int n d).
Proof. intros s. unfold read_int. case_match; by eexists. Qed.
Lemma total_read_into n : total (read_into n).
Proof. intros s. unfold read_into. case_match; by eexists. Qed.
Lemma total_repeat n body : total body -> total (repeat_n n body).
Proof. intros Hb. induction n; cbn; [apply total_ret|]. by apply total_bind. Qed.
Lemma total_collect {A} n (body : H A) : total body -> total (collect_n n body).
Proof.
  intros Hb. induction n; cbn; [apply total_ret|].
  apply total_bind; [done|]. intros a. apply total_bind; [done|]. intros. apply total_ret.
Qed.
Lemma total_for {A} (l : list A) body : (forall a, total (body a)) -> total (for_each l body).
Proof. intros Hb. induction l; cbn; [apply total_ret|]. by apply total_bind. Qed.

Lemma total_readString : total readString.
Proof.
  intros s. unfold readString. case_match; [by eexists|]. apply total_bind; [apply total_read_int|]. intros n.
  case_match; [apply total_ret|]. apply total_bind; [apply total_read_into|]. intros. apply total_ret.
Qed.
Lemma total_readBytes : total readBytes.
Proof.
  intros s. unfold readBytes. case_match; [by eexists|]. apply total_bind; [apply total_read_int|]. intros n.
  case_match; [apply total_ret|apply total_read_into].
Qed.
End total.

#[export] Hint Resolve total_ret total_get total_put total_write total_read_int total_read_into
  total_readString total_readBytes : portask.

(** Sequencing, loops and branches of a handler. *)
Ltac total_step :=
  intros;
  match goal with
  | |- total (let '(_, _) := ?x in _) => destruct x
  | |- total (match ?x with _ => _ end) => destruct x
  | |- total (mbind _ _) => apply total_bind
  | |- total (repeat_n _ _) => apply total_repeat
  | |- total (collect_n _ _) => apply total_collect
  | |- total (for_each _ _) => apply total_for
  | |- total (write_int _ _) => apply total_write
  | |- total (writeString _) => apply total_write
  | |- total (writeBytes _) => apply total_write
  end.
Ltac total_solve := repeat total_step; eauto with portask.

Section dispatch_total.
Context {St : Type} `{!MessageStore St} (E : env).

Lemma total_now : total (St := St) (now E).
Proof. unfold now, next_call. total_solve. Qed.
#[local] Hint Resolve total_now : core.

Lemma handlers_total :
  total (St := St) handleApiVersions /\ total (St := St) handleMetadata /\ total (St := St) handleCreateTopics /\ total (St := St) handleDeleteTopics /\
  total (St := St) handleSaslHandshake /\ total (St := St) handleSaslAuthenticate /\ total (St := St) handleFindCoordinator /\
  total (St := St) (handleJoinGroup E) /\ total (St := St) (handleSyncGroup E) /\ total (St := St) (handleHeartbeat E) /\
  total (St := St) (handleOffsetCommit E) /\ total (St := St) handleOffsetFetch /\ total (St := St) (handleInitProducerId E).
Proof.
  split_and!.
  - unfold handleApiVersions. total_solve.
  - unfold handleMetadata, write_partition, write_ints. total_solve.
  - unfold handleCreateTopics. total_solve.
  - unfold handleDeleteTopics. total_solve.
  - unfold handleSaslHandshake. total_solve.
  - unfold handleSaslAuthenticate. total_solve.
  - unfold handleFindCoordinator. total_solve.
  - unfold handleJoinGroup. total_solve.
  - unfold handleSyncGroup. total_solve.
  - unfold handleHeartbeat. total_solve.
  - unfold handleOffsetCommit, commit_partition. total_solve.
  - unfold handleOffsetFetch, fetch_offset_partition. total_solve.
  - unfold handleInitProducerId. total_solve.
Qed.

Lemma dispatch_total hd :
  APIKey hd ∉ [ProduceAPI; FetchAPI; DescribeGroupsAPI] -> total (St := St) (dispatch E hd).
Proof.
  intros Hk. unfold dispatch. cbv zeta.
  assert (forall k, k ∈ [ProduceAPI; FetchAPI; DescribeGroupsAPI] -> (APIKey hd =? k) = false) as Hne.
  { intros k Hin. apply Z.eqb_neq. intros <-. by apply Hk. }
  rewrite (Hne ProduceAPI), (Hne FetchAPI), (Hne DescribeGroupsAPI) by set_solver.
  pose proof handlers_total as (? & ? & ? & ? & ? & ? & ? & ? & ? & ? & ? & ? & ?).
  repeat (case_match; [try done; unfold handleListOffsets, handleAddPartitionsToTxn, handleEndTxn; total_solve|]).
  unfold createErrorResponse. total_solve.
Qed.
End dispatch_total.

(** C19: a request of any API other than Produce, Fetch and DescribeGroups,
    whatever its body, is answered: the handler neither panics nor loops, and the
    response carries the request's correlation identifier. *)
Theorem requests_never_crash {St : Type} `{!MessageStore St} E r (h : KafkaProtocolHandler St) :
  APIKey (Header r) ∉ [ProduceAPI; FetchAPI; DescribeGroupsAPI] ->
  exists resp h', handleRequest E r h = Ret (resp, h') /\ r_CorrelationID resp = CorrelationID (Header r).
Proof.
  intros Hk. unfold handleRequest. destruct (dispatch_total E (Header r) Hk (mkH (Body r) [] h)) as [p ->].
  by do 2 eexists.
Qed.

(** A truncated JoinGroup request. *)
Lemma requests_never_crash_witness : exists resp h',
  handleRequest demo_env (mkRequest (mkRequestHeader JoinGroupAPI 0 5 "") [0; 9; 103]) demo_handler = Ret (resp, h')
  /\ r_CorrelationID resp = 5.
Proof.
  apply (requests_never_crash demo_env (mkRequest (mkRequestHeader JoinGroupAPI 0 5 "") [0; 9; 103])).
  vm_compute. intros Hin. repeat (apply elem_of_cons in Hin as [?|Hin]; [discriminate|]). by apply elem_of_nil in Hin.
Defined.

(** Requests that are answered whatever their body ([negative_counts_panic] is
    about the other three). *)
Definition answered (r : KafkaRequest) : Prop := APIKey (Header r) ∉ [ProduceAPI; FetchAPI; DescribeGroupsAPI].
#[export] Instance answered_dec r : Decision (answered r).
Proof. unfold answered. apply _. Defined.

Lemma serve_total {St : Type} `{!MessageStore St} E rs : forall h : KafkaProtocolHandler St,
  Forall answered rs -> exists resps h', serve E rs h = Ret (resps, h').
Proof.
  induction rs as [|r rs IH]; intros h Hrs; cbn [serve]; [by do 2 eexists|].
  apply Forall_cons in Hrs as [Hr Hrs]. unfold handleRequest.
  destruct (dispatch_total E (Header r) Hr (mkH (Body r) [] h)) as [p ->]. cbn [fst snd].
  destruct (IH (srv (snd p)) Hrs) as (resps & h' & ->). by do 2 eexists.
Qed.

(** C11: requests are answered in order: on a working connection that carries
    the frames of any list of requests other than Produce, Fetch and
    DescribeGroups, whatever their bodies, and then ends, no handler panics, and
    the loop sends exactly one response frame per request, in the order of the
    requests, each with the correlation identifier of its request, its size
    (modulo 2^32) in front and the body that [handleRequest] answers in the state
    its predecessors left, and stops at the end of the stream. *)
Theorem connection_answers_in_order {St : Type} `{!MessageStore St} E rs (h : KafkaProtocolHandler St) :
  Forall request_ok rs -> Forall answered rs ->
  exists resps h', serve E rs h = Ret (resps, h')
    /\ HandleConnection E (fun _ => false) (S (length rs)) 0 (inl <$> concat (frame <$> rs)) [] h
       = Ret (ReadFailed Wire.EOF, concat (response_frame <$> resps), h')
    /\ r_CorrelationID <$> resps = (fun r => CorrelationID (Header r)) <$> rs.
Proof.
  intros Hok Hrs. destruct (serve_total E rs h Hrs) as (resps & h' & Hs).
  exists resps, h'. split; [done|]. split; [|by eapply serve_correlation].
  rewrite (HandleConnection_serve E rs _ _ _ _ _ _ Hok Hs) by lia. cbn [app].
  do 4 f_equal. apply list_fmap_ext. intros _ r _. apply writeResponse_frame.
Qed.

Definition demo_requests : list KafkaRequest :=
  [mkRequest (mkRequestHeader ApiVersionsAPI 0 7 "c") []; mkRequest (mkRequestHeader MetadataAPI 0 8 "") [0; 0; 0; 0];
   mkRequest (mkRequestHeader JoinGroupAPI 0 9 "") [0; 9; 103]].

Lemma connection_answers_in_order_witness : exists resps h',
  serve demo_env demo_requests demo_handler = Ret (resps, h')
  /\ HandleConnection demo_env (fun _ => false) 4 0 (inl <$> concat (frame <$> demo_requests)) [] demo_handler
     = Ret (ReadFailed Wire.EOF, concat (response_frame <$> resps), h')
  /\ r_CorrelationID <$> resps = [7; 8; 9].
Proof.
  apply (connection_answers_in_order demo_env demo_requests demo_handler).
  - repeat constructor; vm_compute; discriminate.
  - apply (bool_decide_unpack _). vm_compute. exact I.
Defined.

(** The other three crash on a negative count: a Produce request with a negative
    message set size, a Fetch request with a negative offset of a topic that
    exists, a DescribeGroups request with a negative number of groups. *)
Lemma negative_counts_panic :
  let req key body := mkRequest (mkRequestHeader key 0 1 "") body in
  handleRequest demo_env (req ProduceAPI (be_put 2 1 ++ be_put 4 0 ++ be_put 4 1 ++ string_bytes "t"
    ++ be_put 4 1 ++ be_put 4 0 ++ be_put 4 (-1))) demo_handler = Panic
  /\ handleRequest demo_env (req FetchAPI (be_put 4 0 ++ be_put 4 0 ++ be_put 4 0 ++ be_put 4 1 ++ string_bytes "t"
    ++ be_put 4 1 ++ be_put 4 0 ++ be_put 8 (-1) ++ be_put 4 0)) demo_handler = Panic
  /\ handleRequest demo_env (req DescribeGroupsAPI (be_put 4 (-1))) demo_handler = Panic.
Proof. split_and!; vm_compute; reflexivity. Qed.

(** LeaveGroup and ListGroups have handlers that are not dispatched: both
    requests are answered with an unsupported version, and the member stays. *)
Lemma leave_group_unsupported {St : Type} `{!MessageStore St} E key version corr client body (h : KafkaProtocolHandler St) :
  key = LeaveGroupAPI \/ key = ListGroupsAPI ->
  handleRequest E (mkRequest (mkRequestHeader key version corr client) body) h
  = Ret (mkResponse corr (be_put 2 UnsupportedVersion), h).
Proof. by intros [-> | ->]. Qed.

(** The advertised versions leave out every group, offset and transaction API
    that is served. *)
Lemma group_apis_not_advertised :
  Forall (fun k => k ∉ supportedAPIs.*1.*1)
    [OffsetCommitAPI; OffsetFetchAPI; FindCoordinatorAPI; JoinGroupAPI; HeartbeatAPI; SyncGroupAPI;
     DescribeGroupsAPI; InitProducerIdAPI; AddPartitionsToTxnAPI; EndTxnAPI].
Proof. repeat constructor; vm_compute; intros H; repeat (apply elem_of_cons in H as [?|H]; [discriminate|]); by apply elem_of_nil in H. Qed.

End KafkaSpec.
