(* ===== verification/Float64.v ===== *)
(** * [float64] arithmetic of values that are not negative

    A finite float is represented by the integer [x * 2^1074], which is exact,
    and every operation rounds to nearest, ties to even, at 53 significant bits.
    Overflow to infinity is out of reach of the values of the program.  Lemmas:
    rounding is exact on representable values and stays below a representable
    upper bound. *)
From stdpp Require Import base numbers.
From Stdlib Require Import ZArith Lia.
From S2P Require Import Prelude.

Module Float64.

Definition unit : Z := 2 ^ 1074.

(** The integer nearest to [n / d], ties to even. *)
Definition nearest (n d : Z) : Z :=
  let q := n / d in
  let r := n mod d in
  if (2 * r >? d) || ((2 * r =? d) && Z.odd q) then q + 1 else q.

(** [n / d] with at most 53 significant bits. *)
Definition round (n d : Z) : Z :=
  let k := Z.max 0 (Z.log2 (n / d) - 52) in
  nearest n (d * 2 ^ k) * 2 ^ k.

Definition of_int (z : Z) : Z := round (z * unit) 1.
Definition fadd (a b : Z) : Z := round (a + b) 1.
(** The result must not be negative. *)
Definition fsub (a b : Z) : Z := round (a - b) 1.
Definition fmul (a b : Z) : Z := round (a * b) unit.
Definition fdiv (a b : Z) : Z := round (a * unit) b.
(** [int(x)] *)
Definition trunc (a : Z) : Z := a / unit.

#[global] Arguments unit : simpl never.
#[global] Arguments round : simpl never.

(** ** Rounding *)

Lemma unit_pos : 0 < unit.
Proof. unfold unit. apply Z.pow_pos_nonneg; lia. Qed.

Lemma nearest_le n d y : 0 < d -> n <= d * y -> nearest n d <= y.
Proof.
  intros Hd Hn. unfold nearest. cbv zeta.
  pose proof (Z.div_mod n d ltac:(lia)) as E. pose proof (Z.mod_pos_bound n d Hd) as Hr.
  assert (n / d <= y) by (apply Z.div_le_upper_bound; lia).
  destruct ((2 * (n mod d) >? d) || _) eqn:Hc; [|done].
  assert (0 < n mod d) as Hpos.
  { apply orb_true_iff in Hc as [Hc|Hc]; zb; lia. }
  assert (n / d < y); [|lia]. nia.
Qed.

Lemma nearest_exact d y : 0 < d -> nearest (d * y) d = y.
Proof.
  intros Hd. unfold nearest. rewrite (Z.mul_comm d y), Z.div_mul, Z_mod_mult by lia.
  cbv zeta. rewrite Z.mul_0_r.
  destruct (Z.gtb_spec 0 d); [lia|]. destruct (Z.eqb_spec 0 d); [lia|]. done.
Qed.

Lemma nearest_nonneg n d : 0 < d -> 0 <= n -> 0 <= nearest n d.
Proof.
  intros Hd Hn. unfold nearest. cbv zeta. assert (0 <= n / d) by (apply Z.div_pos; lia). case_match; lia.
Qed.

(** The exponent never exceeds that of a representable upper bound. *)
Lemma round_shift n d m j :
  0 < d -> 0 <= n -> 0 <= m < 2 ^ 53 -> 0 <= j -> n <= d * (m * 2 ^ j) ->
  Z.max 0 (Z.log2 (n / d) - 52) <= j.
Proof.
  intros Hd Hn Hm Hj Hle.
  assert (n / d <= m * 2 ^ j) as Hq by (apply Z.div_le_upper_bound; lia).
  assert (n / d < 2 ^ (53 + j)) as Hlt.
  { eapply Z.le_lt_trans; [exact Hq|]. rewrite Z.pow_add_r by lia. apply Zmult_lt_compat_r; [|lia].
    apply Z.pow_pos_nonneg; lia. }
  destruct (Z.le_gt_cases (n / d) 0) as [Hz|Hp]; [rewrite Z.log2_nonpos by lia; lia|].
  apply Z.log2_lt_pow2 in Hlt; lia.
Qed.

Lemma round_le n d m j :
  0 < d -> 0 <= n -> 0 <= m < 2 ^ 53 -> 0 <= j -> n <= d * (m * 2 ^ j) -> round n d <= m * 2 ^ j.
Proof.
  intros Hd Hn Hm Hj Hle. unfold round. cbv zeta.
  pose proof (round_shift n d m j Hd Hn Hm Hj Hle) as Hk.
  set (k := Z.max 0 (Z.log2 (n / d) - 52)) in *.
  assert (0 < 2 ^ k) as Hp by (apply Z.pow_pos_nonneg; lia).
  assert (m * 2 ^ j = (m * 2 ^ (j - k)) * 2 ^ k) as E.
  { rewrite <- Z.mul_assoc, <- Z.pow_add_r by lia. do 2 f_equal. lia. }
  rewrite E. apply Z.mul_le_mono_nonneg_r; [lia|]. apply nearest_le; [nia|].
  rewrite E in Hle. nia.
Qed.

Lemma round_exact d m j : 0 < d -> 0 <= m < 2 ^ 53 -> 0 <= j -> round (d * (m * 2 ^ j)) d = m * 2 ^ j.
Proof.
  intros Hd Hm Hj. unfold round. cbv zeta.
  assert (0 <= m * 2 ^ j) by (apply Z.mul_nonneg_nonneg; [lia|]; apply Z.pow_nonneg; lia).
  pose proof (round_shift (d * (m * 2 ^ j)) d m j Hd ltac:(nia) Hm Hj ltac:(lia)) as Hk.
  set (k := Z.max 0 _) in *.
  assert (m * 2 ^ j = 2 ^ k * (m * 2 ^ (j - k))) as E.
  { rewrite Z.mul_comm, (Z.mul_comm (2 ^ k)), <- Z.mul_assoc, <- Z.pow_add_r by lia.
    rewrite Z.mul_comm. do 2 f_equal. lia. }
  assert (0 < 2 ^ k) as Hp by (apply Z.pow_pos_nonneg; lia).
  rewrite E at 1. rewrite Z.mul_assoc, nearest_exact by nia. lia.
Qed.

Lemma round_nonneg n d : 0 < d -> 0 <= n -> 0 <= round n d.
Proof.
  intros Hd Hn. unfold round. cbv zeta. apply Z.mul_nonneg_nonneg; [|apply Z.pow_nonneg; lia].
  apply nearest_nonneg; [|done]. apply Z.mul_pos_pos; [done|]. apply Z.pow_pos_nonneg; lia.
Qed.

Lemma of_int_exact z : 0 <= z < 2 ^ 53 -> of_int z = z * unit.
Proof. intros Hz. unfold of_int, unit. rewrite <- (Z.mul_1_l (z * _)) at 1. apply round_exact; lia. Qed.

End Float64.
