(* ===== verification/Limiter.v ===== *)
(** * Rate limiters ([src/pkg/auth/ratelimiter.go],
      [src/pkg/auth/ratelimiter_middleware.go])

    [RateLimiter] and [AdvancedRateLimiter] are token buckets per client.  A
    call reads the clock once (an argument, in nanoseconds); every bucket is
    used under its mutex, so a call is one step.

    The refill goes through [float64], as modelled in [Float64]. *)
From stdpp Require Import base gmap strings list numbers fin_maps.
From Stdlib Require Import ZArith Lia.
From S2P Require Import Prelude Float64.

Module Limiter.
Import Float64.

Definition second : Z := 1000000000.
Definition minute : Z := 60 * second.

(** [time.Duration.Seconds], for a duration that is not negative *)
Definition Seconds (d : Z) : Z := fadd (of_int (d / second)) (fdiv (of_int (d mod second)) (of_int second)).

(** ** [RateLimiter] *)

Record bucket := mkBucket { tokens : Z; lastRefill : Z }.
Record RateLimiter := mkLimiter { requestsPerSecond : Z; buckets : gmap string bucket }.

Definition NewRateLimiter (rps : Z) : RateLimiter := mkLimiter rps ∅.

Definition consumeToken (now refillRate : Z) (b : bucket) : bucket * bool :=
  let elapsed := now - lastRefill b in
  let tokensToAdd := s64 (trunc (Seconds elapsed) * refillRate) in
  let b := if tokensToAdd >? 0
           then let t := s64 (tokens b + tokensToAdd) in
                mkBucket (if t >? refillRate then refillRate else t) now
           else b in
  if tokens b >? 0 then (mkBucket (tokens b - 1) (lastRefill b), true) else (b, false).

Definition Allow (now : Z) (clientID : string) (rl : RateLimiter) : RateLimiter * bool :=
  let b := default (mkBucket (requestsPerSecond rl) now) (buckets rl !! clientID) in
  let '(b, ok) := consumeToken now (requestsPerSecond rl) b in
  (mkLimiter (requestsPerSecond rl) (<[clientID := b]> (buckets rl)), ok).

(** One tick of [cleanup]. *)
Definition cleanup (now : Z) (rl : RateLimiter) : RateLimiter :=
  let cutoff := now - 5 * minute in
  mkLimiter (requestsPerSecond rl)
    (map_fold (fun clientID b bs => if lastRefill b <? cutoff then delete clientID bs else bs)
       (buckets rl) (buckets rl)).

(** ** [AdvancedRateLimiter] *)

Record advancedTokenBucket := mkABucket { a_tokens : Z; lastCheck : Z }.
Record AdvancedRateLimiter := mkAdvanced {
  rate : Z; burst : Z; window : Z; a_buckets : gmap string advancedTokenBucket
}.
Definition newAdvancedRateLimiter (rate burst window : Z) : AdvancedRateLimiter :=
  mkAdvanced rate burst window ∅.

Definition getAdvancedBucket (now : Z) (key : string) (rl : AdvancedRateLimiter)
  : AdvancedRateLimiter * advancedTokenBucket :=
  match a_buckets rl !! key with
  | Some b => (rl, b)
  | None => let b := mkABucket (burst rl) now in
            (mkAdvanced (rate rl) (burst rl) (window rl) (<[key := b]> (a_buckets rl)), b)
  end.

(** [int(elapsed.Seconds() * float64(rl.rate))] *)
Definition tokensToAdd (rl : AdvancedRateLimiter) (elapsed : Z) : Z :=
  trunc (fmul (Seconds elapsed) (of_int (rate rl))).

Definition refilled (now : Z) (rl : AdvancedRateLimiter) (b : advancedTokenBucket) : Z :=
  let t := s64 (a_tokens b + tokensToAdd rl (now - lastCheck b)) in
  if t >? burst rl then burst rl else t.

Definition a_Allow (now : Z) (key : string) (rl : AdvancedRateLimiter) : AdvancedRateLimiter * bool :=
  let '(rl, b) := getAdvancedBucket now key rl in
  let t := refilled now rl b in
  let '(t, ok) := if t >? 0 then (t - 1, true) else (t, false) in
  (mkAdvanced (rate rl) (burst rl) (window rl) (<[key := mkABucket t now]> (a_buckets rl)), ok).

Definition Remaining (now : Z) (key : string) (rl : AdvancedRateLimiter) : AdvancedRateLimiter * Z :=
  let '(rl, b) := getAdvancedBucket now key rl in (rl, refilled now rl b).

Definition cleanupStaleBuckets (now : Z) (rl : AdvancedRateLimiter) : AdvancedRateLimiter :=
  let staleThreshold := now - 10 * minute in
  mkAdvanced (rate rl) (burst rl) (window rl)
    (map_fold (fun key b bs => if lastCheck b <? staleThreshold then delete key bs else bs)
       (a_buckets rl) (a_buckets rl)).

Definition Reset (key : string) (rl : AdvancedRateLimiter) : AdvancedRateLimiter :=
  mkAdvanced (rate rl) (burst rl) (window rl) (delete key (a_buckets rl)).

Definition RateLimitByUser (rps : Z) : AdvancedRateLimiter := newAdvancedRateLimiter rps (s64 (rps * 2)) minute.

(** The decision of the middleware: the status of a refusal, or the remaining
    count it reports before the next handler. *)
Definition Middleware (now now' : Z) (statusCode : Z) (key : string) (rl : AdvancedRateLimiter)
  : AdvancedRateLimiter * (Z + Z) :=
  let '(rl, allowed) := a_Allow now key rl in
  if allowed then let '(rl, remaining) := Remaining now' key rl in (rl, inr remaining)
  else (rl, inl statusCode).

End Limiter.
