(* ===== verification/LimiterSpec.v ===== *)
(** * What the rate limiters admit

    - [RateLimiter], in use or new, admits at most [rate] requests per started
      second of a window, and [rate] more;
    - [AdvancedRateLimiter] starves a client that keeps asking. *)
From stdpp Require Import base gmap strings list numbers fin_maps.
From Stdlib Require Import ZArith Lia.
From S2P Require Import Prelude Float64 Limiter.

Module LimiterSpec.
Import Float64 Limiter.

(** The largest float below 1, in units. *)
Definition below_one : Z := (2 ^ 53 - 1) * 2 ^ 1021.

Lemma unit_split : unit = 2 ^ 53 * 2 ^ 1021.
Proof. unfold unit. rewrite <- Z.pow_add_r by lia. reflexivity. Qed.

Lemma pow1021_pos : 0 < 2 ^ 1021.
Proof. apply Z.pow_pos_nonneg; lia. Qed.

Lemma seconds_below_one d : 0 <= d < second -> 0 <= Seconds d <= below_one.
Proof.
  intros Hd. unfold Seconds. rewrite Z.div_small, Z.mod_small by exact Hd.
  assert (of_int 0 = 0) as -> by (rewrite of_int_exact by lia; lia).
  rewrite !of_int_exact by (unfold second in *; lia). unfold fadd, fdiv.
  pose proof unit_pos as Hu. pose proof pow1021_pos as Hp.
  assert (0 < second * unit) as Hsu by (apply Z.mul_pos_pos; [unfold second; lia|done]).
  assert (0 <= d * unit * unit) as Hdu.
  { apply Z.mul_nonneg_nonneg; [|lia]. apply Z.mul_nonneg_nonneg; lia. }
  assert (round (d * unit * unit) (second * unit) <= below_one) as Hr.
  { apply round_le; [done|done|lia|lia|].
    replace (d * unit * unit) with (d * unit * unit) by done.
    transitivity (unit * (d * unit)); [lia|].
    replace (second * unit * ((2 ^ 53 - 1) * 2 ^ 1021)) with (unit * (second * ((2 ^ 53 - 1) * 2 ^ 1021))) by lia.
    apply Z.mul_le_mono_nonneg_l; [lia|]. rewrite unit_split.
    replace (d * (2 ^ 53 * 2 ^ 1021)) with (d * 2 ^ 53 * 2 ^ 1021) by lia.
    replace (second * ((2 ^ 53 - 1) * 2 ^ 1021)) with (second * (2 ^ 53 - 1) * 2 ^ 1021) by lia.
    apply Z.mul_le_mono_nonneg_r; [lia|]. unfold second in *. lia. }
  pose proof (round_nonneg (d * unit * unit) (second * unit) Hsu Hdu) as Hn.
  split; [apply round_nonneg; lia|]. apply round_le; [lia..|]. unfold below_one in Hr. lia.
Qed.

Lemma trunc_seconds_zero d : 0 <= d < second -> trunc (Seconds d) = 0.
Proof.
  intros Hd. pose proof (seconds_below_one d Hd) as Hs. unfold trunc. apply Z.div_small.
  split; [lia|]. eapply Z.le_lt_trans; [apply Hs|]. unfold below_one. rewrite unit_split.
  pose proof pow1021_pos. apply Zmult_lt_compat_r; lia.
Qed.

(** ** [RateLimiter] admits no more than the rate *)

Lemma consumeToken_bound now r b :
  lastRefill b <= now ->
  let '(b', ok) := consumeToken now r b in
  (lastRefill b <= lastRefill b' <= now /\ tokens b' <= Z.max (tokens b) r /\
   (lastRefill b' = lastRefill b \/ lastRefill b' = now)) /\
  ((lastRefill b' = lastRefill b /\ Z.b2z ok + Z.max 0 (tokens b') = Z.max 0 (tokens b)) \/
   (lastRefill b + second <= lastRefill b' /\ Z.b2z ok + Z.max 0 (tokens b') <= Z.max 0 r)).
Proof.
  intros Ht. unfold consumeToken. cbv zeta.
  destruct (Z.gtb_spec (s64 (trunc (Seconds (now - lastRefill b)) * r)) 0) as [Hadd|Hadd].
  - assert (second <= now - lastRefill b) as Hs.
    { destruct (Z.le_gt_cases second (now - lastRefill b)); [done|].
      rewrite trunc_seconds_zero in Hadd by lia. rewrite Z.mul_0_l in Hadd. by vm_compute in Hadd. }
    cbn [tokens lastRefill].
    set (t := if _ >? r then r else _).
    assert (t <= r) as Htr by (unfold t; destruct (Z.gtb_spec (s64 (tokens b + s64 (trunc (Seconds (now - lastRefill b)) * r))) r); lia).
    destruct (Z.gtb_spec t 0); cbn [lastRefill tokens Z.b2z]; (split; [unfold second in Hs; lia|right; lia]).
  - destruct (Z.gtb_spec (tokens b) 0); cbn [lastRefill tokens Z.b2z]; (split; [lia|left; lia]).
Qed.

Inductive lim_event := LAllow (client : string) | LCleanup.

(** One event; [n] counts the admitted requests of [c]. *)
Definition lim_step (c : string) (s : RateLimiter * Z) (ev : Z * lim_event) : RateLimiter * Z :=
  let '(rl, n) := s in
  match ev with
  | (t, LAllow client) =>
    let '(rl, ok) := Allow t client rl in (rl, if decide (client = c) then n + Z.b2z ok else n)
  | (t, LCleanup) => (cleanup t rl, n)
  end.

Fixpoint chronological (t : Z) (evs : list (Z * lim_event)) : Prop :=
  match evs with
  | [] => True
  | (t', _) :: evs => t <= t' /\ chronological t' evs
  end.

(** The budget of a client in the window from [t0], when its bucket was refilled
    at [l]: a full bucket at the start, and another for every refill since, which
    are a second apart. *)
Definition budget (r t0 l : Z) : Z := r * (1 + Z.max 0 (1 + (l - t0) / second)).

Lemma budget_mono r t0 l l' : 0 <= r -> l <= l' -> budget r t0 l <= budget r t0 l'.
Proof.
  intros Hr Hl. unfold budget. apply Z.mul_le_mono_nonneg_l; [done|].
  assert ((l - t0) / second <= (l' - t0) / second) by (apply Z.div_le_mono; unfold second; lia). lia.
Qed.
Lemma budget_refill r t0 l l' : 0 <= r -> l + second <= l' -> t0 <= l' -> budget r t0 l + r <= budget r t0 l'.
Proof.
  intros Hr Hl Ht. unfold budget.
  assert ((l - t0) / second + 1 <= (l' - t0) / second).
  { rewrite <- (Z.div_add _ 1) by (unfold second; lia). apply Z.div_le_mono; unfold second in *; lia. }
  assert (0 <= (l' - t0) / second) by (apply Z.div_pos; unfold second; lia). nia.
Qed.
Lemma budget_full r t0 l : 0 <= r -> r <= budget r t0 l.
Proof. intros Hr. unfold budget. nia. Qed.

(** At time [t]: every bucket was refilled by now and holds at most [r] tokens;
    [n] requests of [c] were admitted since [t0].  Without a bucket the client is
    new or was idle for long. *)
Definition lim_inv (r t0 : Z) (c : string) (t : Z) (s : RateLimiter * Z) : Prop :=
  let '(rl, n) := s in
  requestsPerSecond rl = r /\ map_Forall (fun _ b => lastRefill b <= t /\ tokens b <= r) (buckets rl) /\
  match buckets rl !! c with
  | Some b => n + Z.max 0 (tokens b) <= budget r t0 (lastRefill b)
  | None => n = 0 \/ exists l, l + second <= t /\ n <= budget r t0 l
  end.

Lemma cleanup_lookup t rl c :
  buckets (cleanup t rl) !! c
  = match buckets rl !! c with
    | Some b => if lastRefill b <? t - 5 * minute then None else Some b
    | None => None
    end.
Proof.
  unfold cleanup. cbn [buckets].
  by apply (lookup_map_fold_purge (fun _ b => lastRefill b <? t - 5 * minute)).
Qed.

Lemma lim_step_inv r t0 c t s t' ev :
  0 <= r -> t <= t' -> t0 <= t' -> lim_inv r t0 c t s -> lim_inv r t0 c t' (lim_step c s (t', ev)).
Proof.
  destruct s as [rl n]. intros Hr Ht Ht0 (Hrl & Hall & Hc).
  assert (map_Forall (fun _ b => lastRefill b <= t' /\ tokens b <= r) (buckets rl)) as Hall'
    by (eapply map_Forall_impl; [exact Hall|]; intros ?? [??]; cbn in *; lia).
  destruct ev as [client|]; cbn [lim_step].
  - unfold Allow. cbv zeta. rewrite Hrl.
    set (b := default (mkBucket r t') (buckets rl !! client)).
    assert (lastRefill b <= t' /\ tokens b <= r) as [Hb Htk].
    { unfold b. destruct (buckets rl !! client) as [b0|] eqn:E; cbn; [by apply (Hall' _ _ E)|lia]. }
    pose proof (consumeToken_bound t' r b Hb) as Hct.
    destruct (consumeToken t' r b) as [b' ok]. destruct Hct as [Hl Hcase].
    assert (0 <= Z.b2z ok) as Hok by (destruct ok; cbn; lia).
    split; [done|]. split; [apply map_Forall_insert_2; [cbn; lia|done]|].
    cbn [buckets]. destruct (decide (client = c)) as [->|Hne].
    2: { rewrite lookup_insert_ne by done. destruct (buckets rl !! c); [done|].
         destruct Hc as [->|(l & ? & ?)]; [by left|right]. exists l. split; [lia|done]. }
    rewrite lookup_insert_eq.
    assert (n + Z.max 0 (tokens b) <= budget r t0 (lastRefill b)) as Hbn.
    { unfold b. destruct (buckets rl !! c) as [b0|]; cbn; [done|].
      rewrite Z.max_r by done. destruct Hc as [->|(l & Hl1 & Hn)].
      - pose proof (budget_full r t0 t' Hr). lia.
      - pose proof (budget_refill r t0 l t' Hr ltac:(lia) Ht0). lia. }
    destruct Hcase as [[-> He]|[Hs He]]; [lia|].
    assert (lastRefill b' = t') as Hnow by (destruct Hl as (_ & _ & [?|?]); unfold second in *; lia).
    pose proof (budget_refill r t0 (lastRefill b) (lastRefill b') Hr Hs ltac:(lia)). lia.
  - split; [done|]. split.
    + intros k b Hk. rewrite cleanup_lookup in Hk. destruct (buckets rl !! k) as [b0|] eqn:E; [|done].
      destruct (_ <? _); simplify_eq. by apply (Hall' _ _ E).
    + rewrite cleanup_lookup. destruct (buckets rl !! c) as [b|] eqn:E.
      * destruct (Z.ltb_spec (lastRefill b) (t' - 5 * minute)) as [Hold|Hnew]; [|done].
        right. exists (lastRefill b). unfold minute, second in *. split; lia.
      * destruct Hc as [->|(l & ? & ?)]; [by left|right]. exists l. split; [lia|done].
Qed.

Lemma lim_run_inv r t0 t1 c evs : forall t s,
  0 <= r -> chronological t evs -> Forall (fun ev => t0 <= fst ev <= t1) evs -> t <= t1 -> lim_inv r t0 c t s ->
  exists t', t <= t' <= t1 /\ lim_inv r t0 c t' (foldl (lim_step c) s evs).
Proof.
  induction evs as [|[t2 ev] evs IH]; intros t s Hr Hch Hf Ht Hi; [by exists t|].
  destruct Hch as [Ht2 Hch]. apply Forall_cons in Hf as [Hw Hf]. cbn in Hw.
  destruct (IH t2 (lim_step c s (t2, ev)) Hr Hch Hf) as (t' & Hle & Hi'); [lia| |].
  - by apply (lim_step_inv r t0 c t); [| |lia|].
  - exists t'. split; [lia|done].
Qed.

(** Counting again from 0, at any later time, whatever came before. *)
Lemma lim_inv_restart r t0 t0' c t s :
  0 <= r -> lim_inv r t0 c t s -> lim_inv r t0' c t (fst s, 0).
Proof.
  destruct s as [rl n]. intros Hr (Hrl & Hall & _). split_and!; [done..|]. cbn [fst].
  destruct (buckets rl !! c) as [b|] eqn:E; [|by left].
  pose proof (Hall _ _ E) as [_ Hb]. cbn in Hb. pose proof (budget_full r t0' (lastRefill b) Hr). lia.
Qed.

(** C27: the token bucket keeps the rate: after any calls and clean-up ticks
    [before], in the order of the clock, in any later window of time from [t0] to
    [t1] a client has at most [rate * (2 + (t1 - t0) / 1s)] requests admitted:
    what its bucket holds at the start, and the rate for every second that starts
    in the window. *)
Theorem rate_limiter_bound r start before t0 t1 c evs :
  0 <= r -> chronological start before -> Forall (fun ev => fst ev <= t0) before ->
  t0 <= t1 -> chronological t0 evs -> Forall (fun ev => fst ev <= t1) evs ->
  let in_use := fst (foldl (lim_step c) (NewRateLimiter r, 0) before) in
  snd (foldl (lim_step c) (in_use, 0) evs) <= r * (2 + (t1 - t0) / second).
Proof.
  intros Hr Hcb Hfb Ht Hch Hf.
  assert (forall l t, chronological t l -> Forall (fun ev => t <= fst ev) l) as Hchf.
  { induction l as [|[t' ev] l IH]; intros t H; [constructor|]. destruct H as [H1 H2]. constructor; [done|].
    eapply Forall_impl; [by apply IH|]. cbn. lia. }
  assert (lim_inv r start c (Z.min start t0) (NewRateLimiter r, 0)) as H0.
  { split; [done|]. split; [apply map_Forall_empty|]. cbn. rewrite lookup_empty. by left. }
  destruct (lim_run_inv r start t0 c before (Z.min start t0) (NewRateLimiter r, 0)) as (tb & Htb & Hb); [done| | |lia|done|].
  { destruct before as [|[t' ev] l]; [done|]. destruct Hcb. split; [lia|done]. }
  { apply Forall_and. split; [by apply Hchf|done]. }
  destruct (lim_run_inv r t0 t1 c evs tb (fst (foldl (lim_step c) (NewRateLimiter r, 0) before), 0))
    as (t' & Ht' & Hi); [done| | |lia|by eapply lim_inv_restart|].
  { destruct evs as [|[t' ev] l]; [done|]. destruct Hch. split; [lia|done]. }
  { apply Forall_and. split; [by apply Hchf|done]. }
  cbv zeta. assert (r * (2 + (t1 - t0) / second) = budget r t0 t1) as ->.
  { unfold budget. assert (0 <= (t1 - t0) / second) by (apply Z.div_pos; unfold second; lia).
    rewrite Z.max_r by lia. f_equal. lia. }
  destruct (foldl (lim_step c) _ evs) as [rl n]. destruct Hi as (_ & Hall & Hc). cbn [snd].
  destruct (buckets rl !! c) as [b|] eqn:E.
  - pose proof (Hall _ _ E) as [Hb' _]. cbn in Hb'.
    pose proof (budget_mono r t0 (lastRefill b) t1 Hr ltac:(lia)). lia.
  - destruct Hc as [->|(l & Hl & Hn)].
    + pose proof (budget_full r t0 t1 Hr). lia.
    + pose proof (budget_mono r t0 l t1 Hr ltac:(unfold second in *; lia)). lia.
Qed.

(** Five a second: a limiter in use since 0 admits nine requests between 0.99 s
    and 1.00 s, where a window of less than a second may have ten. *)
Definition used_before : list (Z * lim_event) := [(0, LAllow "a"); (5, LCleanup)].
Definition nine_calls : list (Z * lim_event) :=
  replicate 4 (990000000, LAllow "a") ++ replicate 7 (second, LAllow "a").

Lemma rate_limiter_bound_witness :
  let in_use := fst (foldl (lim_step "a") (NewRateLimiter 5, 0) used_before) in
  snd (foldl (lim_step "a") (in_use, 0) nine_calls) = 9
  /\ snd (foldl (lim_step "a") (in_use, 0) nine_calls) <= 5 * (2 + (second - 990000000) / second)
  /\ 5 * (2 + (second - 990000000) / second) = 10.
Proof.
  cbv zeta. split; [vm_compute; reflexivity|]. split; [|reflexivity].
  apply (rate_limiter_bound 5 0 used_before 990000000 second "a" nine_calls).
  - vm_compute; discriminate.
  - repeat split; vm_compute; discriminate.
  - repeat constructor; vm_compute; discriminate.
  - vm_compute; discriminate.
  - repeat split; vm_compute; discriminate.
  - repeat constructor; vm_compute; discriminate.
Defined.

(** ** [AdvancedRateLimiter] starves a client that keeps asking *)

Lemma pow_split a b : 0 <= a -> 0 <= b -> 2 ^ (a + b) = 2 ^ a * 2 ^ b.
Proof. intros. by apply Z.pow_add_r. Qed.

Lemma seconds_small d j :
  0 <= d -> 0 <= j <= 1000 -> d * 2 ^ (j + 1) <= second -> 0 <= Seconds d <= 2 ^ (1073 - j).
Proof.
  intros Hd Hj Hs.
  assert (d < second) as Hlt.
  { rewrite pow_split in Hs by lia. assert (0 < 2 ^ j) by (apply Z.pow_pos_nonneg; lia). unfold second in *. nia. }
  split; [by apply seconds_below_one|]. unfold Seconds. rewrite Z.div_small, Z.mod_small by lia.
  assert (of_int 0 = 0) as -> by (rewrite of_int_exact by lia; lia).
  rewrite !of_int_exact by (unfold second in *; lia). unfold fadd, fdiv.
  pose proof unit_pos as Hu. set (p := 2 ^ (1073 - j)).
  assert (0 < p) as Hp by (apply Z.pow_pos_nonneg; lia).
  assert (unit = 2 ^ (j + 1) * p) as Hup.
  { unfold unit, p. rewrite <- pow_split by lia. f_equal. lia. }
  assert (0 <= d * unit * unit) as Hdu by (apply Z.mul_nonneg_nonneg; [apply Z.mul_nonneg_nonneg|]; lia).
  assert (0 < second * unit) as Hsu by (apply Z.mul_pos_pos; [unfold second; lia|done]).
  assert (round (d * unit * unit) (second * unit) <= 1 * p) as Hr.
  { apply round_le; [done|done|lia|lia|]. fold p.
    replace (second * unit * (1 * p)) with (unit * (second * p)) by lia.
    replace (d * unit * unit) with (unit * (d * unit)) by lia.
    apply Z.mul_le_mono_nonneg_l; [lia|]. rewrite Hup, Z.mul_assoc.
    apply Z.mul_le_mono_nonneg_r; lia. }
  pose proof (round_nonneg (d * unit * unit) (second * unit) Hsu Hdu) as Hn.
  rewrite <- (Z.mul_1_l p). apply round_le; [lia..|]. fold p. lia.
Qed.

Lemma tokensToAdd_zero rl d j :
  0 <= d -> 0 <= j <= 50 -> 0 <= rate rl <= 2 ^ j -> d * 2 ^ (j + 1) <= second -> tokensToAdd rl d = 0.
Proof.
  intros Hd Hj Hr Hs. pose proof (seconds_small d j Hd ltac:(lia) Hs) as Hsec.
  pose proof unit_pos as Hu.
  assert (2 ^ j < 2 ^ 53) as Hj' by (apply Z.pow_lt_mono_r; lia).
  unfold tokensToAdd, fmul. rewrite of_int_exact by lia.
  assert (2 ^ (1073 - j) * 2 ^ j = 2 ^ 1073) as Hpp by (rewrite <- pow_split by lia; f_equal; lia).
  assert (0 <= Seconds d * rate rl <= 2 ^ 1073) as Hsr.
  { split; [apply Z.mul_nonneg_nonneg; lia|]. rewrite <- Hpp. apply Z.mul_le_mono_nonneg; lia. }
  assert (0 <= round (Seconds d * (rate rl * unit)) unit <= 1 * 2 ^ 1073) as Hrd.
  { split; [apply round_nonneg; [done|]; rewrite Z.mul_assoc; apply Z.mul_nonneg_nonneg; lia|].
    apply round_le; [done| |lia|lia|].
    - rewrite Z.mul_assoc. apply Z.mul_nonneg_nonneg; lia.
    - rewrite Z.mul_assoc, Z.mul_comm. apply Z.mul_le_mono_nonneg_l; lia. }
  unfold trunc. apply Z.div_small. split; [lia|]. eapply Z.le_lt_trans; [apply Hrd|].
  rewrite Z.mul_1_l. unfold unit. apply Z.pow_lt_mono_r; lia.
Qed.

(** The answers to one client's calls at the given times. *)
Fixpoint ask (key : string) (ts : list Z) (rl : AdvancedRateLimiter) : list bool :=
  match ts with
  | [] => []
  | t :: ts => let '(rl, ok) := a_Allow t key rl in ok :: ask key ts rl
  end.

(** Calls no further than [gap] apart. *)
Fixpoint paced (gap t : Z) (ts : list Z) : Prop :=
  match ts with
  | [] => True
  | t' :: ts => t <= t' <= t + gap /\ paced gap t' ts
  end.

(** A client that keeps asking starves: once its bucket is empty, and as
    long as no two of its calls are further apart than half the time one token
    takes (for a rate of at most [2^j], [1s / 2^(j+1)]), every call is refused,
    for ever, because each refused call restarts the clock of the refill. *)
Theorem polling_starves j gap key ts : forall rl t,
  0 <= j <= 50 -> 0 <= rate rl <= 2 ^ j -> 0 <= burst rl -> gap * 2 ^ (j + 1) <= second ->
  a_buckets rl !! key = Some (mkABucket 0 t) -> paced gap t ts ->
  Forall (fun ok => ok = false) (ask key ts rl).
Proof.
  induction ts as [|t' ts IH]; intros rl t Hj Hr Hb Hg Hk Hp; [by constructor|].
  destruct Hp as [Ht Hp]. cbn [ask]. unfold a_Allow, getAdvancedBucket. rewrite Hk. unfold refilled.
  cbn [a_tokens lastCheck].
  assert ((t' - t) * 2 ^ (j + 1) <= second) as Hgap.
  { eapply Z.le_trans; [|exact Hg]. apply Z.mul_le_mono_nonneg_r; [apply Z.pow_nonneg; lia|lia]. }
  rewrite (tokensToAdd_zero rl (t' - t) j) by (done || lia). cbv zeta.
  change (s64 (0 + 0)) with 0. destruct (Z.gtb_spec 0 (burst rl)); [lia|].
  change (0 >? 0) with false. constructor; [done|].
  apply (IH _ t'); try done. cbn. by rewrite lookup_insert_eq.
Qed.

(** The default limiter, 100 requests per second with a burst of 200: a client
    that asks every three milliseconds is refused from its empty bucket on. *)
Lemma polling_starves_witness :
  Forall (fun ok => ok = false)
    (ask "k" [3000000; 6000000; 9000000; 12000000]
       (mkAdvanced 100 200 minute {["k" := mkABucket 0 0]})).
Proof.
  apply (polling_starves 7 3000000 "k" _ (mkAdvanced 100 200 minute {["k" := mkABucket 0 0]}) 0).
  - vm_compute; split; discriminate.
  - vm_compute; split; discriminate.
  - vm_compute; discriminate.
  - vm_compute; discriminate.
  - reflexivity.
  - repeat split; vm_compute; discriminate.
Defined.

End LimiterSpec.
