(* ===== verification/Auth.v ===== *)
(** * Authentication ([src/pkg/auth/authenticator.go], [helpers.go],
      [middleware.go], [audit.go])

    [Authenticator] with users, API keys and the audit log, the request
    authentication, the token helpers, the decisions of the middlewares and the
    login and refresh handlers.  The JWT package is the class [Jwt]: signing
    with a secret, and parsing with signature, expiry and not-before checks.
    Random strings and the clock are arguments.  A Go map loop that stops at the
    first match takes the first entry of the map's enumeration. *)
From stdpp Require Import base gmap strings list numbers fin_maps.
From Stdlib Require Import ZArith Lia.
From S2P Require Import Prelude.

Module Auth.

Record AuthConfig := mkAuthConfig {
  JWTSecret : string;
  JWTExpiration : Z;
  APIKeyLength : Z;
  EnableRateLimit : bool;
  RateLimitRPS : Z;
  EnableAuditLog : bool
}.
Definition hour : Z := 3600000000000.
Definition DefaultAuthConfig : AuthConfig :=
  mkAuthConfig "portask-default-secret-change-in-production" (24 * hour) 32 true 1000 true.

Record User := mkUser {
  u_ID : string; Username : string; Email : string; Roles : list string; Active : bool;
  u_CreatedAt : Z; u_UpdatedAt : Z
}.
Record APIKey := mkAPIKey {
  k_ID : string; k_Key : string; k_Name : string; k_Description : string; k_UserID : string;
  k_Permissions : list string; k_Active : bool; k_ExpiresAt : option Z; k_CreatedAt : Z;
  k_LastUsedAt : option Z
}.
Record JWTClaims := mkClaims {
  c_UserID : string; c_Username : string; c_Roles : list string; c_Permissions : list string;
  c_ExpiresAt : Z; c_IssuedAt : Z; c_NotBefore : Z; c_Subject : string; c_ID : string
}.
Record AuditEvent := mkAudit {
  ev_ID : string; ev_Timestamp : Z; ev_Type : string; ev_UserID : string; ev_APIKeyID : string;
  ev_Resource : string; ev_Action : string; ev_Result : string
}.

(** The two sides of the JWT package. *)
Class Jwt := {
  sign : string -> JWTClaims -> string;
  parse : string -> Z -> string -> option JWTClaims
}.

Definition PermissionMessageRead := "message:read".
Definition PermissionMessageWrite := "message:write".
Definition PermissionMessageDelete := "message:delete".
Definition PermissionTopicCreate := "topic:create".
Definition PermissionTopicDelete := "topic:delete".
Definition PermissionTopicList := "topic:list".
Definition PermissionAdminRead := "admin:read".
Definition PermissionAdminWrite := "admin:write".
Definition PermissionMetricsRead := "metrics:read".
Definition PermissionSystemManage := "system:manage".

Record Authenticator := mkAuth {
  config : AuthConfig;
  users : gmap string User;
  apiKeys : gmap string APIKey;
  auditLogger : option (list AuditEvent)
}.

(** [LogEvent] of the in-memory logger, when there is one and logging is on. *)
Definition audit (ev : AuditEvent) (a : Authenticator) : Authenticator :=
  match auditLogger a with
  | Some l => if EnableAuditLog (config a) then mkAuth (config a) (users a) (apiKeys a) (Some (l ++ [ev])) else a
  | None => a
  end.

(** The filters of [GetEvents] of the in-memory logger, those that are set. *)
Record Filters := mkFilters {
  f_user : option string; f_type : option string; f_resource : option string; f_action : option string;
  f_result : option string; f_after : option Z; f_before : option Z
}.
Definition passes (f : Filters) (e : AuditEvent) : bool :=
  let same (o : option string) (s : string) := match o with Some x => bool_decide (s = x) | None => true end in
  same (f_user f) (ev_UserID e) && same (f_type f) (ev_Type e) && same (f_resource f) (ev_Resource e)
  && same (f_action f) (ev_Action e) && same (f_result f) (ev_Result e)
  && match f_after f with Some t => t <=? ev_Timestamp e | None => true end
  && match f_before f with Some t => ev_Timestamp e <=? t | None => true end.
Fixpoint GetEvents_go (f : Filters) (limit : Z) (evs acc : list AuditEvent) : list AuditEvent :=
  match evs with
  | [] => acc
  | e :: evs =>
    if passes f e then
      let acc := acc ++ [e] in
      if (limit >? 0) && (Z.of_nat (length acc) >=? limit) then acc else GetEvents_go f limit evs acc
    else GetEvents_go f limit evs acc
  end.
Definition GetEvents (f : Filters) (limit : Z) (evs : list AuditEvent) : list AuditEvent :=
  GetEvents_go f limit evs [].

(** ** Users and keys *)

Definition CreateUser (now : Z) (userID evID username email : string) (roles : list string) (a : Authenticator)
  : Authenticator * User :=
  let user := mkUser userID username email roles true now now in
  (audit (mkAudit evID now "user_created" userID "" "user" "create" "success")
     (mkAuth (config a) (<[userID := user]> (users a)) (apiKeys a) (auditLogger a)), user).

Definition GenerateAPIKey (now : Z) (keyString keyID evID userID name description : string)
  (permissions : list string) (expiresAt : option Z) (a : Authenticator) : Authenticator * APIKey :=
  let k := mkAPIKey keyID keyString name description userID permissions true expiresAt now None in
  (audit (mkAudit evID now "api_key_created" userID keyID "api_key" "create" "success")
     (mkAuth (config a) (users a) (<[keyString := k]> (apiKeys a)) (auditLogger a)), k).

(** The default administrator with its key. *)
Definition NewAuthenticator (now : Z) (uid kstr kid e1 e2 : string) (cfg : option AuthConfig)
  (logger : option (list AuditEvent)) : Authenticator :=
  let a := mkAuth (default DefaultAuthConfig cfg) ∅ ∅ logger in
  let '(a, admin) := CreateUser now uid e1 "admin" "admin@portask.local" ["admin"] a in
  fst (GenerateAPIKey now kstr kid e2 (u_ID admin) "default-admin-key" "Default admin API key"
         [PermissionSystemManage] None a).

Definition GetUser (userID : string) (a : Authenticator) : res string User :=
  match users a !! userID with Some u => Ok u | None => Err "user not found" end.

(** The entries of the update map that have the right type. *)
Record Updates := mkUpdates {
  up_username : option string; up_email : option string; up_roles : option (list string); up_active : option bool
}.
Definition UpdateUser (now : Z) (userID : string) (up : Updates) (a : Authenticator)
  : Authenticator * res string User :=
  match users a !! userID with
  | None => (a, Err "user not found")
  | Some u =>
    let u := mkUser (u_ID u) (default (Username u) (up_username up)) (default (Email u) (up_email up))
               (default (Roles u) (up_roles up)) (default (Active u) (up_active up)) (u_CreatedAt u) now in
    (mkAuth (config a) (<[userID := u]> (users a)) (apiKeys a) (auditLogger a), Ok u)
  end.

(** The user and all its keys. *)
Definition DeleteUser (userID : string) (a : Authenticator) : Authenticator * option string :=
  match users a !! userID with
  | None => (a, Some "user not found")
  | Some _ =>
    (mkAuth (config a) (delete userID (users a))
       (map_fold (fun ks k keys => if decide (k_UserID k = userID) then delete ks keys else keys)
          (apiKeys a) (apiKeys a)) (auditLogger a), None)
  end.

Definition ValidateAPIKey (now : Z) (keyString : string) (a : Authenticator)
  : Authenticator * res string APIKey :=
  match apiKeys a !! keyString with
  | None => (a, Err "invalid API key")
  | Some k =>
    if negb (k_Active k) then (a, Err "API key is disabled") else
    if match k_ExpiresAt k with Some e => e <? now | None => false end then (a, Err "API key has expired") else
    let k := mkAPIKey (k_ID k) (k_Key k) (k_Name k) (k_Description k) (k_UserID k) (k_Permissions k)
               (k_Active k) (k_ExpiresAt k) (k_CreatedAt k) (Some now) in
    (mkAuth (config a) (users a) (<[keyString := k]> (apiKeys a)) (auditLogger a), Ok k)
  end.

Definition RevokeAPIKey (now : Z) (evID keyID : string) (a : Authenticator) : Authenticator * option string :=
  match List.find (fun p => bool_decide (k_ID (snd p) = keyID)) (map_to_list (apiKeys a)) with
  | None => (a, Some "API key not found")
  | Some (keyString, _) =>
    let a := audit (mkAudit evID now "api_key_revoked" "" keyID "api_key" "revoke" "success") a in
    (mkAuth (config a) (users a) (delete keyString (apiKeys a)) (auditLogger a), None)
  end.

(** ** Permissions *)

Definition all_permissions : gset string :=
  {[ PermissionMessageRead; PermissionMessageWrite; PermissionMessageDelete; PermissionTopicCreate;
     PermissionTopicDelete; PermissionTopicList; PermissionAdminRead; PermissionAdminWrite;
     PermissionMetricsRead; PermissionSystemManage ]}.

Definition role_permissions (role : string) : gset string :=
  if decide (role = "admin") then all_permissions
  else if decide (role = "producer") then {[ PermissionMessageWrite; PermissionTopicList ]}
  else if decide (role = "consumer") then {[ PermissionMessageRead; PermissionTopicList ]}
  else if decide (role = "readonly") then {[ PermissionMessageRead; PermissionTopicList; PermissionMetricsRead ]}
  else if decide (role = "service") then {[ PermissionMessageRead; PermissionMessageWrite; PermissionTopicList ]}
  else ∅.

(** The set, in the order of the map's enumeration. *)
Definition getRolePermissions (roles : list string) : list string :=
  elements (foldl (fun s role => s ∪ role_permissions role) ∅ roles).

Record AuthContext := mkAuthContext {
  x_User : option User; x_APIKey : option APIKey; x_Permissions : list string; x_AuthMethod : string
}.
Definition HasPermission (x : AuthContext) (permission : string) : bool :=
  existsb (fun p => bool_decide (p = permission)) (x_Permissions x).
Definition HasRole (x : AuthContext) (role : string) : bool :=
  match x_User x with
  | Some u => existsb (fun r => bool_decide (r = role)) (Roles u)
  | None => false
  end.

(** ** Tokens *)

Section jwt.
Context `{Jwt}.

Definition GenerateJWT (now : Z) (jti : string) (u : User) (a : Authenticator) : string :=
  sign (JWTSecret (config a))
    (mkClaims (u_ID u) (Username u) (Roles u) (getRolePermissions (Roles u)) (now + JWTExpiration (config a))
       now now (u_ID u) jti).

Definition ValidateJWT (now : Z) (token : string) (a : Authenticator) : res string JWTClaims :=
  match parse (JWTSecret (config a)) now token with
  | Some c => Ok c
  | None => Err "invalid token"
  end.

Definition ValidateToken (now : Z) (token : string) (a : Authenticator) : res string JWTClaims :=
  match parse (JWTSecret (config a)) now token with
  | None => Err "failed to parse token"
  | Some c => if c_ExpiresAt c <? now then Err "token expired" else Ok c
  end.

(** No user name, permissions or token identifier. *)
Definition GenerateToken (now : Z) (userID : string) (roles : list string) (a : Authenticator) : string * Z :=
  let expiresAt := now + JWTExpiration (config a) in
  (sign (JWTSecret (config a)) (mkClaims userID "" roles [] expiresAt now now "" ""), expiresAt).

Definition GenerateRefreshToken (now : Z) (userID : string) (roles : list string) (a : Authenticator) : string * Z :=
  let expiresAt := now + JWTExpiration (config a) * 7 in
  (sign (JWTSecret (config a)) (mkClaims userID "" roles [] expiresAt now now "refresh" ""), expiresAt).

(** The headers a request may carry; an absent header is empty. *)
Record Request := mkReq { Authorization : string; X_API_Key : string }.

Definition trim_prefix (p s : string) : string :=
  if String.prefix p s then String.substring (String.length p) (String.length s - String.length p) s else s.

(** The second half of [authenticateRequest]: the API key header. *)
Definition authenticate_key (now : Z) (r : Request) (a : Authenticator) : Authenticator * res string AuthContext :=
  if decide (X_API_Key r = "") then (a, Err "no authentication provided") else
  match ValidateAPIKey now (X_API_Key r) a with
  | (a, Err e) => (a, Err e)
  | (a, Ok k) =>
    (a, Ok (mkAuthContext (match GetUser (k_UserID k) a with Ok u => Some u | Err _ => None end) (Some k)
              (k_Permissions k) "api_key"))
  end.

Definition authenticateRequest (now : Z) (r : Request) (a : Authenticator)
  : Authenticator * res string AuthContext :=
  if decide (Authorization r = "") then authenticate_key now r a
  else if String.prefix "Bearer " (Authorization r) then
    match ValidateJWT now (trim_prefix "Bearer " (Authorization r)) a with
    | Err e => (a, Err e)
    | Ok c =>
      match GetUser (c_UserID c) a with
      | Err e => (a, Err e)
      | Ok u => (a, Ok (mkAuthContext (Some u) None (c_Permissions c) "jwt"))
      end
    end
  else authenticate_key now r a.

(** [ValidateCredentials]: the password is not looked at. *)
Definition ValidateCredentials (username password : string) (a : Authenticator) : res string string :=
  match List.find (fun p => bool_decide (Username (snd p) = username) && Active (snd p)) (map_to_list (users a)) with
  | Some (id, _) => Ok id
  | None => Err "invalid credentials"
  end.

Definition ValidateAPIKeySimple (now : Z) (keyString : string) (a : Authenticator)
  : Authenticator * (bool * string) :=
  match ValidateAPIKey now keyString a with
  | (a, Err _) => (a, (false, ""))
  | (a, Ok k) => (a, (true, k_UserID k))
  end.

(** ** Middlewares *)

Definition skipPaths : list string :=
  ["/health"; "/status"; "/metrics"; "/api/v1/auth/login"; "/api/v1/auth/register"].
Definition shouldSkipAuth (path : string) : bool := existsb (fun p => String.prefix p path) skipPaths.

(** [extractToken]: header, second header, query parameter. *)
Definition extractToken (authHeader xAuthToken query : string) : string :=
  let t := if decide (authHeader = "") then "" else trim_prefix "Bearer " authHeader in
  if decide (t <> "") then t else if decide (xAuthToken <> "") then xAuthToken else query.

(** [FiberAuth]: the claims that are stored before the next handler, if any, or
    a status. *)
Definition FiberAuth (now : Z) (path authHeader xAuthToken query : string) (a : Authenticator)
  : Z + option JWTClaims :=
  if shouldSkipAuth path then inr None else
  let token := extractToken authHeader xAuthToken query in
  if decide (token = "") then inl 401 else
  match ValidateToken now token a with
  | Err _ => inl 401
  | Ok c => inr (Some c)
  end.

(** [HTTPAuth] looks at one header only. *)
Definition HTTPAuth (now : Z) (path authHeader : string) (a : Authenticator) : Z + option JWTClaims :=
  if shouldSkipAuth path then inr None else
  let token := trim_prefix "Bearer " authHeader in
  if decide (token = "") then inl 401 else
  match ValidateToken now token a with
  | Err _ => inl 401
  | Ok c => inr (Some c)
  end.

(** [APIKeyAuth]: the user identifier that is stored. *)
Definition APIKeyAuth (now : Z) (path header query : string) (a : Authenticator)
  : Authenticator * (Z + option string) :=
  if shouldSkipAuth path then (a, inr None) else
  let apiKey := if decide (header = "") then query else header in
  if decide (apiKey = "") then (a, inl 401) else
  match ValidateAPIKey now apiKey a with
  | (a, Err _) => (a, inl 401)
  | (a, Ok k) => (a, inr (Some (k_UserID k)))
  end.

(** [RequireRole]: [None] when no roles are stored. *)
Definition RequireRole (required : list string) (stored : option (list string)) : option Z :=
  match stored with
  | None => Some 403
  | Some userRoles =>
    if existsb (fun r => existsb (fun u => bool_decide (u = r)) userRoles) required then None else Some 403
  end.

Definition OptionalAuth (now : Z) (authHeader xAuthToken query : string) (a : Authenticator) : option JWTClaims :=
  let token := extractToken authHeader xAuthToken query in
  if decide (token = "") then None else
  match ValidateToken now token a with Ok c => Some c | Err _ => None end.

(** ** Login *)

Record LoginResponse := mkLogin { l_Token : string; l_ExpiresAt : Z; l_User : option User }.
Definition user_of (userID : string) (a : Authenticator) : option User :=
  match GetUser userID a with Ok u => Some u | Err _ => None end.

Definition HandleLogin (now : Z) (username password : string) (a : Authenticator) : Z + LoginResponse :=
  match ValidateCredentials username password a with
  | Err _ => inl 401
  | Ok userID =>
    let '(token, expiresAt) := GenerateToken now userID ["user"] a in
    inr (mkLogin token expiresAt (user_of userID a))
  end.

(** Any valid token is accepted as a refresh token. *)
Definition HandleRefreshToken (now : Z) (refreshToken : string) (a : Authenticator) : Z + LoginResponse :=
  match ValidateToken now refreshToken a with
  | Err _ => inl 401
  | Ok c =>
    let '(token, expiresAt) := GenerateToken now (c_UserID c) (c_Roles c) a in
    inr (mkLogin token expiresAt (user_of (c_UserID c) a))
  end.

End jwt.
End Auth.
