(* ===== verification/AuthSpec.v ===== *)
(** * What authentication guarantees

    - the invariant of the user and key tables over every operation, and that a
      deleted user is locked out of [authenticateRequest];
    - exactly when an API key is accepted; a revoked key is gone;
    - permissions of roles;
    - tokens: a token renews itself for ever through the refresh handler, also
      for users that no longer exist. *)
From stdpp Require Import base gmap strings list numbers fin_maps fin_map_dom.
From Stdlib Require Import ZArith Lia Ascii.
From S2P Require Import Prelude Auth.

Module AuthSpec.
Import Auth.

(** The documented behaviour of the JWT package: a token parses, with the secret
    it was signed with, between its not-before and expiry times. *)
Class JwtLaws `{Jwt} := {
  parse_sign secret now c :
    c_NotBefore c <= now <= c_ExpiresAt c -> parse secret now (sign secret c) = Some c
}.

(** ** Tables *)

Definition tables_ok (a : Authenticator) : Prop :=
  map_Forall (fun id u => u_ID u = id) (users a) /\ map_Forall (fun ks k => k_Key k = ks) (apiKeys a).

Lemma audit_users ev a : users (audit ev a) = users a /\ apiKeys (audit ev a) = apiKeys a
  /\ config (audit ev a) = config a.
Proof. unfold audit. repeat case_match; done. Qed.

Lemma delete_keys_lookup userID (keys : gmap string APIKey) ks :
  map_fold (fun ks k keys => if decide (k_UserID k = userID) then delete ks keys else keys) keys keys !! ks
  = match keys !! ks with
    | Some k => if decide (k_UserID k = userID) then None else Some k
    | None => None
    end.
Proof.
  rewrite (lookup_map_fold_purge (fun _ k => bool_decide (k_UserID k = userID))).
  - destruct (keys !! ks) as [k|]; [|done]. by repeat case_decide || case_bool_decide.
  - intros k v acc. case_bool_decide; by case_decide.
Qed.

Inductive auth_op :=
| OpCreateUser (now : Z) (uid evID name email : string) (roles : list string)
| OpUpdateUser (now : Z) (uid : string) (up : Updates)
| OpDeleteUser (uid : string)
| OpGenerateKey (now : Z) (ks kid evID uid name descr : string) (perms : list string) (exp : option Z)
| OpValidateKey (now : Z) (ks : string)
| OpRevokeKey (now : Z) (evID kid : string).

Definition run_auth (a : Authenticator) (op : auth_op) : Authenticator :=
  match op with
  | OpCreateUser now uid evID name email roles => fst (CreateUser now uid evID name email roles a)
  | OpUpdateUser now uid up => fst (UpdateUser now uid up a)
  | OpDeleteUser uid => fst (DeleteUser uid a)
  | OpGenerateKey now ks kid evID uid name descr perms exp =>
    fst (GenerateAPIKey now ks kid evID uid name descr perms exp a)
  | OpValidateKey now ks => fst (ValidateAPIKey now ks a)
  | OpRevokeKey now evID kid => fst (RevokeAPIKey now evID kid a)
  end.

Lemma run_auth_ok a op : tables_ok a -> tables_ok (run_auth a op).
Proof.
  intros [Hu Hk]. destruct op as [now uid evID name email roles|now uid up|uid|now ks kid evID uid name descr perms exp|now ks|now evID kid];
    cbn [run_auth].
  - unfold CreateUser. cbn [fst]. unfold tables_ok.
    destruct (audit_users (mkAudit evID now "user_created" uid "" "user" "create" "success")
      (mkAuth (config a) (<[uid := mkUser uid name email roles true now now]> (users a)) (apiKeys a) (auditLogger a)))
      as (-> & -> & _). split; [by apply map_Forall_insert_2|done].
  - unfold UpdateUser. destruct (users a !! uid) as [u|] eqn:E; [|done]. cbn. split; [|done].
    apply map_Forall_insert_2; [|done]. by apply (Hu _ _ E).
  - unfold DeleteUser. destruct (users a !! uid); [|done]. cbn. split; [by apply map_Forall_delete|].
    intros ks k. cbn. rewrite delete_keys_lookup. destruct (apiKeys a !! ks) as [k0|] eqn:E; [|done].
    case_decide; [done|]. intros [= <-]. by apply (Hk _ _ E).
  - unfold GenerateAPIKey. cbn [fst]. unfold tables_ok.
    destruct (audit_users (mkAudit evID now "api_key_created" uid kid "api_key" "create" "success")
      (mkAuth (config a) (users a) (<[ks := mkAPIKey kid ks name descr uid perms true exp now None]> (apiKeys a))
         (auditLogger a))) as (-> & -> & _). split; [done|by apply map_Forall_insert_2].
  - unfold ValidateAPIKey. destruct (apiKeys a !! ks) as [k|] eqn:E; [|done].
    destruct (negb (k_Active k)); [done|].
    destruct (match k_ExpiresAt k with Some e => e <? now | None => false end); [done|].
    cbn. split; [done|]. apply map_Forall_insert_2; [|done]. by apply (Hk _ _ E).
  - unfold RevokeAPIKey. destruct (List.find _ _) as [[ks k]|]; [|done]. cbn.
    destruct (audit_users (mkAudit evID now "api_key_revoked" "" kid "api_key" "revoke" "success") a) as (E1 & E2 & _).
    split; cbn; [by rewrite E1|]. rewrite E2. by apply map_Forall_delete.
Qed.

Lemma run_auths_ok a ops : tables_ok a -> tables_ok (foldl run_auth a ops).
Proof. revert a. induction ops as [|op ops IH]; intros a Ha; [done|]. cbn. by apply IH, run_auth_ok. Qed.

Lemma NewAuthenticator_ok now uid kstr kid e1 e2 cfg logger :
  tables_ok (NewAuthenticator now uid kstr kid e1 e2 cfg logger).
Proof.
  unfold NewAuthenticator. set (a0 := mkAuth _ ∅ ∅ logger).
  assert (tables_ok a0) as H0 by (split; apply map_Forall_empty).
  pose proof (run_auth_ok a0 (OpCreateUser now uid e1 "admin" "admin@portask.local" ["admin"]) H0) as H1.
  cbn [run_auth] in H1.
  destruct (CreateUser now uid e1 "admin" "admin@portask.local" ["admin"] a0) as [a1 admin]. cbn [fst] in H1.
  exact (run_auth_ok a1 (OpGenerateKey now kstr kid e2 (u_ID admin) "default-admin-key" "Default admin API key"
    [PermissionSystemManage] None) H1).
Qed.

(** ** A deleted user is locked out *)

Section jwt.
Context `{Jwt}.

(** C28: a deleted user is locked out: whatever happened before, once a user is
    deleted, every request that [authenticateRequest] accepts is made as another
    user, with a key of another user, whatever token or key it carries. *)
Theorem deleted_user_locked_out now0 uid0 kstr kid e1 e2 cfg logger ops uid a' now r a'' ctx :
  DeleteUser uid (foldl run_auth (NewAuthenticator now0 uid0 kstr kid e1 e2 cfg logger) ops) = (a', None) ->
  authenticateRequest now r a' = (a'', Ok ctx) ->
  (forall u, x_User ctx = Some u -> u_ID u <> uid) /\ (forall k, x_APIKey ctx = Some k -> k_UserID k <> uid).
Proof.
  set (a := foldl _ _ ops). intros Hdel Hauth.
  assert (tables_ok a) as Ha by (apply run_auths_ok, NewAuthenticator_ok).
  assert (tables_ok a') as [Hu Hk].
  { pose proof (run_auth_ok a (OpDeleteUser uid) Ha) as Hok. cbn [run_auth] in Hok. by rewrite Hdel in Hok. }
  unfold DeleteUser in Hdel. destruct (users a !! uid) as [u0|]; [|done]. simplify_eq.
  set (a' := mkAuth _ _ _ _) in *.
  assert (forall id u, users a' !! id = Some u -> u_ID u <> uid) as Hno.
  { intros id u Hid. rewrite (Hu _ _ Hid). cbn in Hid. by apply lookup_delete_Some in Hid as [? _]. }
  assert (forall ks k, apiKeys a' !! ks = Some k -> k_UserID k <> uid) as Hnk.
  { intros ks k. cbn. rewrite delete_keys_lookup. destruct (apiKeys a !! ks); [|done]. case_decide; [done|].
    by intros [= <-]. }
  assert (forall a1 x, authenticate_key now r a' = (a1, Ok x) ->
    (forall u, x_User x = Some u -> u_ID u <> uid) /\ (forall k, x_APIKey x = Some k -> k_UserID k <> uid)) as Hkey.
  { intros a1 x. unfold authenticate_key, ValidateAPIKey. case_decide; [done|].
    destruct (apiKeys a' !! X_API_Key r) as [k|] eqn:Ek; [|done]. destruct (negb (k_Active k)); [done|].
    destruct (match k_ExpiresAt k with Some e => e <? now | None => false end); [done|].
    intros [= <- <-]. cbn. split; [|by intros k' [= <-]; apply (Hnk _ _ Ek)].
    unfold GetUser. cbn [users]. intros u. destruct (delete uid (users a) !! k_UserID k) as [u1|] eqn:Eu; [|done].
    intros [= <-]. by apply (Hno (k_UserID k)). }
  unfold authenticateRequest in Hauth. case_decide; [by eapply Hkey|].
  destruct (String.prefix _ _); [|by eapply Hkey].
  destruct (ValidateJWT _ _ _) as [c|]; [|done]. unfold GetUser in Hauth.
  destruct (users a' !! c_UserID c) as [u|] eqn:Eu; [|done]. simplify_eq. cbn.
  split; [|done]. intros u' [= <-]. by apply (Hno _ _ Eu).
Qed.

End jwt.

(** ** API keys *)

(** A key is accepted exactly if it is registered, active and not past its
    expiry. *)
Lemma api_key_accepted_iff now ks a :
  (exists a' k, ValidateAPIKey now ks a = (a', Ok k))
  <-> exists k, apiKeys a !! ks = Some k /\ k_Active k = true /\ (forall e, k_ExpiresAt k = Some e -> now <= e).
Proof.
  unfold ValidateAPIKey. destruct (apiKeys a !! ks) as [k|]; [|by split; [intros (? & ? & ?)|intros (? & ? & _)]].
  destruct (k_Active k) eqn:Ha; cbn [negb];
    [|split; [by intros (? & ? & ?)|intros (? & [= <-] & ? & _); congruence]].
  destruct (k_ExpiresAt k) as [e|] eqn:He.
  - destruct (Z.ltb_spec e now) as [Hlt|Hge].
    + split; [intros (? & ? & ?); done|]. intros (k' & [= <-] & _ & Hexp). specialize (Hexp e He). lia.
    + split; [|intros _; by do 2 eexists]. intros _. exists k. split_and!; [done..|]. intros e' He'. congruence.
  - split; [|intros _; by do 2 eexists]. intros _. exists k. split_and!; [done..|]. intros e' He'. congruence.
Qed.

(** What stays of a key while it is in use. *)
Definition issued (kid uid : string) (perms : list string) (exp : option Z) (k : APIKey) : Prop :=
  k_ID k = kid /\ k_UserID k = uid /\ k_Permissions k = perms /\ k_Active k = true /\ k_ExpiresAt k = exp.

(** The operation neither revokes the key, nor deletes its user, nor draws the
    same random key again. *)
Definition spares (ks kid uid : string) (op : auth_op) : Prop :=
  match op with
  | OpDeleteUser uid' => uid' <> uid
  | OpGenerateKey _ ks' _ _ _ _ _ _ _ => ks' <> ks
  | OpRevokeKey _ _ kid' => kid' <> kid
  | _ => True
  end.

Lemma run_auth_keeps ks kid uid perms exp a op :
  spares ks kid uid op ->
  (exists k, apiKeys a !! ks = Some k /\ issued kid uid perms exp k) ->
  exists k, apiKeys (run_auth a op) !! ks = Some k /\ issued kid uid perms exp k.
Proof.
  intros Hs (k & Hk & Hi). destruct op as [? ? ? ? ? ?|? u ?|u|? ks' ? ? ? ? ? ? ?|now ks'|? ? kid']; cbn [run_auth spares] in *.
  - exists k. unfold CreateUser. cbn [fst]. split; [|done].
    by rewrite (proj1 (proj2 (audit_users _ _))).
  - exists k. unfold UpdateUser. by destruct (users a !! u).
  - exists k. unfold DeleteUser. destruct (users a !! u); [|done]. cbn. rewrite delete_keys_lookup, Hk.
    destruct Hi as (? & Hu & ?). by rewrite Hu, decide_False.
  - exists k. unfold GenerateAPIKey. cbn [fst]. rewrite (proj1 (proj2 (audit_users _ _))). cbn.
    split; [by rewrite lookup_insert_ne|done].
  - unfold ValidateAPIKey. destruct (apiKeys a !! ks') as [k'|] eqn:E; [|by exists k].
    destruct (negb (k_Active k')); [by exists k|].
    destruct (match k_ExpiresAt k' with Some e => e <? now | None => false end); [by exists k|].
    cbn. destruct (decide (ks' = ks)) as [->|Hne]; [|exists k; split; [by rewrite lookup_insert_ne|done]].
    rewrite lookup_insert_eq. eexists. split; [done|]. rewrite Hk in E. by injection E as <-.
  - unfold RevokeAPIKey. destruct (List.find _ _) as [[ks' k']|] eqn:Hf; [|by exists k].
    apply List.find_some in Hf as [Hin Hb]. apply bool_decide_eq_true in Hb. cbn in Hb. cbn [fst apiKeys].
    rewrite (proj1 (proj2 (audit_users _ _))). exists k. split; [|done].
    apply list_elem_of_In, elem_of_map_to_list in Hin. rewrite lookup_delete_ne; [done|].
    intros ->. rewrite Hk in Hin. injection Hin as <-. by destruct Hi as [Hid _]; congruence.
Qed.

(** C29: the life of an API key: from the moment it is generated, through any
    operations on other users and keys, its own uses included, a key is accepted
    at exactly the times up to its expiry, and stands for its user with the
    permissions it was generated with. *)
Theorem api_key_lifecycle t ks kid ev uid name descr perms exp a ops now :
  Forall (spares ks kid uid) ops ->
  let a1 := foldl run_auth (fst (GenerateAPIKey t ks kid ev uid name descr perms exp a)) ops in
  ((exists a2 k, ValidateAPIKey now ks a1 = (a2, Ok k)) <-> forall e, exp = Some e -> now <= e) /\
  (forall a2 k, ValidateAPIKey now ks a1 = (a2, Ok k) -> k_UserID k = uid /\ k_Permissions k = perms).
Proof.
  intros Hs a1.
  assert (exists k, apiKeys a1 !! ks = Some k /\ issued kid uid perms exp k) as (k & Hk & Hi).
  { unfold a1. clear a1.
    assert (exists k, apiKeys (fst (GenerateAPIKey t ks kid ev uid name descr perms exp a)) !! ks = Some k
      /\ issued kid uid perms exp k) as H0.
    { unfold GenerateAPIKey. cbn [fst]. rewrite (proj1 (proj2 (audit_users _ _))). cbn.
      rewrite lookup_insert_eq. by eexists. }
    revert H0. generalize (fst (GenerateAPIKey t ks kid ev uid name descr perms exp a)).
    induction Hs as [|op ops Hop _ IH]; intros a0 H0; [done|]. cbn. by apply IH, run_auth_keeps. }
  split.
  - rewrite api_key_accepted_iff. destruct Hi as (_ & _ & _ & Ha & He). split.
    + intros (k' & Hk' & _ & Hexp) e Hee. rewrite Hk in Hk'. injection Hk' as <-. apply Hexp. congruence.
    + intros Hexp. exists k. split_and!; [done..|]. intros e Hee. apply Hexp. congruence.
  - intros a2 k2. unfold ValidateAPIKey. rewrite Hk. destruct (negb (k_Active k)); [done|].
    destruct (match k_ExpiresAt k with Some e => e <? now | None => false end); [done|].
    intros [= <- <-]. by destruct Hi as (_ & ? & ? & _).
Qed.

Lemma api_key_lifecycle_witness :
  exists a2 k, ValidateAPIKey 9 "key" (foldl run_auth (fst (GenerateAPIKey 1 "key" "k1" "e" "u1" "n" "d" [] (Some 10)
    (mkAuth DefaultAuthConfig ∅ ∅ None))) [OpValidateKey 5 "key"; OpRevokeKey 6 "e2" "k2"; OpDeleteUser "u2"]) = (a2, Ok k).
Proof.
  refine (proj2 (proj1 (api_key_lifecycle 1 "key" "k1" "e" "u1" "n" "d" [] (Some 10)
    (mkAuth DefaultAuthConfig ∅ ∅ None) [OpValidateKey 5 "key"; OpRevokeKey 6 "e2" "k2"; OpDeleteUser "u2"] 9 _)) _).
  - repeat constructor; cbn; discriminate.
  - intros e He. injection He as <-. lia.
Defined.

(** With distinct key identifiers, a revoked key is gone. *)
Lemma revoked_key_gone now evID kid a a' :
  (forall ks ks' k k', apiKeys a !! ks = Some k -> apiKeys a !! ks' = Some k' -> k_ID k = k_ID k' -> ks = ks') ->
  RevokeAPIKey now evID kid a = (a', None) ->
  forall ks k, apiKeys a' !! ks = Some k -> k_ID k <> kid.
Proof.
  intros Huniq Hr ks k Hk Hid. unfold RevokeAPIKey in Hr.
  destruct (List.find _ _) as [[ks0 k0]|] eqn:Hf; [|done]. simplify_eq. cbn in Hk.
  apply List.find_some in Hf as [Hin Hb]. apply bool_decide_eq_true in Hb. cbn in Hb.
  apply list_elem_of_In, elem_of_map_to_list in Hin.
  destruct (audit_users (mkAudit evID now "api_key_revoked" "" (k_ID k) "api_key" "revoke" "success") a) as (_ & E & _).
  rewrite E in Hk. apply lookup_delete_Some in Hk as [Hne Hk].
  apply Hne. by apply (Huniq _ _ k0 k).
Qed.

(** ** Permissions *)

Lemma role_permissions_sub role : role_permissions role ⊆ all_permissions.
Proof. unfold role_permissions. repeat case_decide; subst; unfold all_permissions; set_solver. Qed.

Lemma elem_of_role_permissions perm roles :
  perm ∈ getRolePermissions roles <-> exists r, r ∈ roles /\ perm ∈ role_permissions r.
Proof.
  unfold getRolePermissions. rewrite elem_of_elements.
  assert (forall s : gset string, perm ∈ foldl (fun s role => s ∪ role_permissions role) s roles
    <-> perm ∈ s \/ exists r, r ∈ roles /\ perm ∈ role_permissions r) as Hgen.
  { induction roles as [|r roles IH]; intros s; cbn [foldl]; [set_solver|]. rewrite IH. set_solver. }
  rewrite Hgen. set_solver.
Qed.

(** ** Tokens *)

Section refresh.
Context `{JwtLaws}.

(** A token renews itself: any valid token, an access token as well, is
    exchanged for a new one that is valid for a full lifetime more, whether or
    not its user still exists, so that the holder never has to log in again. *)
Theorem refresh_never_ends now token a c :
  ValidateToken now token a = Ok c -> 0 <= JWTExpiration (config a) ->
  exists resp, HandleRefreshToken now token a = inr resp
    /\ l_ExpiresAt resp = now + JWTExpiration (config a)
    /\ forall now', now <= now' <= now + JWTExpiration (config a) ->
         exists c', ValidateToken now' (l_Token resp) a = Ok c' /\ c_UserID c' = c_UserID c /\ c_Roles c' = c_Roles c.
Proof.
  intros Hv He. unfold HandleRefreshToken. rewrite Hv. cbn.
  eexists. split; [reflexivity|]. split; [done|]. intros now' Hn. cbn [l_Token]. unfold ValidateToken.
  rewrite parse_sign by (cbn; lia). cbn. destruct (Z.ltb_spec (now + JWTExpiration (config a)) now'); [lia|].
  by eexists.
Qed.

End refresh.

(** ** A concrete JWT package *)

(** Positive numbers as text, so that a token can carry encoded claims. *)
Fixpoint bits (p : positive) : string :=
  match p with
  | xH => ""
  | xO p => String "0"%char (bits p)
  | xI p => String "1"%char (bits p)
  end.
Fixpoint unbits (s : string) : positive :=
  match s with
  | String c s => if decide (c = "0"%char) then xO (unbits s) else xI (unbits s)
  | EmptyString => xH
  end.
Lemma unbits_bits p : unbits (bits p) = p.
Proof. induction p as [p IH|p IH|]; cbn; rewrite ?IH; done. Qed.

#[local] Instance claims_eq_dec : EqDecision JWTClaims.
Proof. solve_decision. Defined.
#[local] Instance claims_countable : Countable JWTClaims.
Proof.
  refine (inj_countable'
    (fun c => (c_UserID c, c_Username c, c_Roles c, c_Permissions c,
               (c_ExpiresAt c, c_IssuedAt c, c_NotBefore c, c_Subject c, c_ID c)))
    (fun '(u, n, r, p, (e, i, nb, s, j)) => mkClaims u n r p e i nb s j) _).
  by intros [].
Defined.

(** A token is the encoded pair of secret and claims. *)
#[local] Instance plain_jwt : Jwt := {|
  sign secret c := bits (encode (secret, c));
  parse secret now t :=
    match decode (A := string * JWTClaims) (unbits t) with
    | Some (s, c) => if bool_decide (s = secret) && (c_NotBefore c <=? now) && (now <=? c_ExpiresAt c)
                     then Some c else None
    | None => None
    end
|}.

#[local] Instance plain_jwt_laws : JwtLaws.
Proof.
  constructor. intros secret now c Hc. cbn. rewrite unbits_bits, decode_encode, bool_decide_eq_true_2 by done.
  destruct (Z.leb_spec (c_NotBefore c) now); [|lia]. by destruct (Z.leb_spec now (c_ExpiresAt c)); [|lia].
Qed.

Definition start : Authenticator := NewAuthenticator 0 "u0" "k0" "i0" "e0" "e1" None (Some []).
Definition with_bob : Authenticator :=
  foldl run_auth start [OpCreateUser 0 "u1" "e2" "bob" "b@x" ["consumer"];
    OpGenerateKey 0 "k1" "i1" "e3" "u1" "n" "d" [PermissionMessageRead] None;
    OpGenerateKey 0 "k2" "i2" "e4" "u0" "n" "d" [PermissionMessageRead] (Some 50)].
Definition without_bob : Authenticator := fst (DeleteUser "u1" with_bob).

Lemma deleted_user_locked_out_witness : exists a'' ctx,
  authenticateRequest 10 (mkReq "" "k2") without_bob = (a'', Ok ctx) /\
  (forall u, x_User ctx = Some u -> u_ID u <> "u1") /\ snd (authenticateRequest 10 (mkReq "" "k1") without_bob) = Err "invalid API key".
Proof.
  do 2 eexists. split; [vm_compute; reflexivity|]. split; [|vm_compute; reflexivity].
  apply (proj1 (deleted_user_locked_out 0 "u0" "k0" "i0" "e0" "e1" None (Some [])
    [OpCreateUser 0 "u1" "e2" "bob" "b@x" ["consumer"];
     OpGenerateKey 0 "k1" "i1" "e3" "u1" "n" "d" [PermissionMessageRead] None;
     OpGenerateKey 0 "k2" "i2" "e4" "u0" "n" "d" [PermissionMessageRead] (Some 50)]
    "u1" without_bob 10 (mkReq "" "k2") _ _ ltac:(vm_compute; reflexivity) ltac:(vm_compute; reflexivity))).
Defined.

(** The token of the deleted user still passes the middleware and is renewed. *)
Definition bob_token : string := fst (GenerateToken 0 "u1" ["user"] with_bob).

Lemma refresh_never_ends_witness : exists resp,
  HandleRefreshToken hour bob_token without_bob = inr resp /\ l_ExpiresAt resp = 25 * hour /\ l_User resp = None.
Proof.
  assert (ValidateToken hour bob_token without_bob = Ok (mkClaims "u1" "" ["user"] [] (24 * hour) 0 0 "" "")) as Hv
    by (vm_compute; reflexivity).
  destruct (refresh_never_ends hour bob_token without_bob _ Hv) as (resp & Hr & He & _).
  - vm_compute. discriminate.
  - exists resp. split; [exact Hr|]. split; [rewrite He; vm_compute; reflexivity|].
    unfold HandleRefreshToken in Hr. rewrite Hv in Hr. injection Hr as <-. vm_compute. reflexivity.
Defined.

(** ** What is not checked *)

(** Deactivating a user changes nothing for its keys and tokens. *)
Lemma inactive_user_accepted :
  let a := fst (UpdateUser 5 "u1" (mkUpdates None None None (Some false)) with_bob) in
  (Active <$> users a !! "u1") = Some false /\
  exists a' ctx, authenticateRequest 10 (mkReq "" "k1") a = (a', Ok ctx) /\ (u_ID <$> x_User ctx) = Some "u1".
Proof. split; [vm_compute; reflexivity|]. do 2 eexists. split; vm_compute; reflexivity. Qed.

(** Any password is accepted for an active user. *)
Lemma password_ignored username p p' a : ValidateCredentials username p a = ValidateCredentials username p' a.
Proof. reflexivity. Qed.

(** The paths without authentication are prefixes. *)
Lemma skip_is_prefix :
  shouldSkipAuth "/metrics-admin/users" = true /\ shouldSkipAuth "/healthcheck/../secret" = true /\
  shouldSkipAuth "/api/v1/messages" = false.
Proof. vm_compute. done. Qed.

(** A login answers a token with the role [user] only: an administrator who logs
    in fails [RequireRole] for its own role. *)
Lemma login_loses_roles :
  match HandleLogin 0 "admin" "" start with
  | inr l => match FiberAuth 0 "/api" (l_Token l) "" "" start with
             | inr (Some c) => RequireRole ["admin"] (Some (c_Roles c)) = Some 403
             | _ => False
             end
  | inl _ => False
  end.
Proof. vm_compute. reflexivity. Qed.

End AuthSpec.
