(* ===== verification/Rq.v ===== *)
(** * RQ-compatible job queues ([src/pkg/rq/*.go])

    [RQAdapter] with its queues, statistics and events, the [JobScheduler] and
    the [Worker]: enqueueing through the message bus, scheduling, the processing
    of one job with its retry policy.  Every method holds the mutex of what it
    changes and is one step.  The bus is the class [PriorityBus], with
    [Bus.MessageBus] as instance; the registered functions are values of the
    state; identifiers and the clock are arguments.  A job is a shared object in
    the source; nothing reads it between the assignments of one method, so it is
    passed as a value. *)
From stdpp Require Import base gmap strings list numbers fin_maps pretty.
From Stdlib Require Import ZArith Lia.
From S2P Require Import Prelude Types Bus.

Module Rq.

(** ** Jobs *)

Inductive Priority := PriorityLow | PriorityNormal | PriorityHigh.
#[export] Instance Priority_eq_dec : EqDecision Priority.
Proof. solve_decision. Defined.
Definition Priority_String (p : Priority) : string :=
  match p with PriorityLow => "low" | PriorityNormal => "normal" | PriorityHigh => "high" end.

Inductive JobStatus :=
| StatusNone | StatusQueued | StatusStarted | StatusFinished | StatusFailed | StatusCanceled
| StatusScheduled | StatusDeferred.
#[export] Instance JobStatus_eq_dec : EqDecision JobStatus.
Proof. solve_decision. Defined.

Inductive BackoffStrategy := BackoffLinear | BackoffExponential | BackoffFixed | BackoffCustom | BackoffOther.

Record RetryPolicy := mkRetry {
  MaxRetries : Z; RetryIntervals : list Z; Backoff : BackoffStrategy; RetryOnFailure : bool
}.

(** Values of [Meta]: a retry count, a text, a time. *)
Inductive meta := MInt (n : Z) | MText (s : string) | MTime (t : Z).

Record Job := mkJob {
  j_ID : string;
  Function : string;
  Args : list Types.GoValue;
  Kwargs : gmap string Types.GoValue;
  j_Queue : string;
  j_Priority : Priority;
  j_Retry : option RetryPolicy;
  ScheduledAt : option Z;
  CreatedAt : Z;
  StartedAt : option Z;
  FinishedAt : option Z;
  Status : JobStatus;
  Result : option Types.GoValue;
  j_Error : string;
  Meta : option (gmap string meta)
}.

Definition set_status (s : JobStatus) (j : Job) : Job :=
  mkJob (j_ID j) (Function j) (Args j) (Kwargs j) (j_Queue j) (j_Priority j) (j_Retry j) (ScheduledAt j)
    (CreatedAt j) (StartedAt j) (FinishedAt j) s (Result j) (j_Error j) (Meta j).
Definition set_scheduled (at_ : option Z) (j : Job) : Job :=
  mkJob (j_ID j) (Function j) (Args j) (Kwargs j) (j_Queue j) (j_Priority j) (j_Retry j) at_
    (CreatedAt j) (StartedAt j) (FinishedAt j) (Status j) (Result j) (j_Error j) (Meta j).
Definition set_meta (m : gmap string meta) (j : Job) : Job :=
  mkJob (j_ID j) (Function j) (Args j) (Kwargs j) (j_Queue j) (j_Priority j) (j_Retry j) (ScheduledAt j)
    (CreatedAt j) (StartedAt j) (FinishedAt j) (Status j) (Result j) (j_Error j) (Some m).

Record QueueConfig := mkQueueConfig { q_Name : string; MaxSize : Z; q_Priority : Priority; Persistent : bool }.
Record RQQueue := mkQueue { Name : string; QPriority : Priority; Config : QueueConfig; JobCount : Z }.

Record JobStats := mkJobStats {
  Total : Z; Queued : Z; Started : Z; Finished : Z; Failed : Z
}.
Definition zero_stats : JobStats := mkJobStats 0 0 0 0 0.
Definition add_stats (queued started finished failed : Z) (s : JobStats) : JobStats :=
  mkJobStats (s64 (Total s + s64 (queued + started + finished + failed))) (s64 (Queued s + queued))
    (s64 (Started s + started)) (s64 (Finished s + finished)) (s64 (Failed s + failed)).

(** [RQStats]: the global counters, workers, queues and the per-queue table. *)
Record RQStats := mkStats {
  all : JobStats; n_Workers : Z; n_Queues : Z; QueueStats : gmap string JobStats
}.

Record JobEvent := mkEvent {
  e_JobID : string; OldStatus : JobStatus; NewStatus : JobStatus; Timestamp : Z; e_Worker : string; e_Error : string
}.

Inductive WorkerStatus := WorkerIdle | WorkerBusy | WorkerStopped | WorkerFailed.
Record WorkerConfig := mkWorkerConfig {
  w_Name : string; w_Queues : list string; Concurrency : Z; PollInterval : Z; MaxJobs : Z
}.
Record Worker := mkWorker {
  w_config : WorkerConfig; w_status : WorkerStatus; currentJob : option Job; jobsProcessed : Z;
  w_startedAt : Z; lastSeen : Z; cancelled : bool
}.

Record ScheduledJob := mkScheduled { s_Job : Job; s_At : Z }.

Definition JobFunction : Type := list Types.GoValue -> gmap string Types.GoValue -> res string Types.GoValue.

(** What the adapter uses of the bus. *)
Class PriorityBus (B : Type) := PublishToPriority : Types.PortaskMessage -> Z -> B -> exec (B * option string).

#[export] Instance MessageBus_PriorityBus : PriorityBus Bus.MessageBus := fun m p b =>
  do! r := Bus.PublishToPriority m p b in
  Ret (fst r, Types.Error <$> snd r).

Section adapter.
Context {B : Type} `{!PriorityBus B}.

Record RQAdapter := mkAdapter {
  messageBus : B;
  functions : gmap string JobFunction;
  workers : gmap string Worker;
  queues : gmap string RQQueue;
  scheduledJobs : gmap string ScheduledJob;
  stats : RQStats;
  eventChan : list JobEvent
}.

Definition set_bus (b : B) (r : RQAdapter) : RQAdapter :=
  mkAdapter b (functions r) (workers r) (queues r) (scheduledJobs r) (stats r) (eventChan r).
Definition set_stats (s : RQStats) (r : RQAdapter) : RQAdapter :=
  mkAdapter (messageBus r) (functions r) (workers r) (queues r) (scheduledJobs r) s (eventChan r).
Definition set_schedule (s : gmap string ScheduledJob) (r : RQAdapter) : RQAdapter :=
  mkAdapter (messageBus r) (functions r) (workers r) (queues r) s (stats r) (eventChan r).
Definition set_workers (w : gmap string Worker) (r : RQAdapter) : RQAdapter :=
  mkAdapter (messageBus r) (functions r) w (queues r) (scheduledJobs r) (stats r) (eventChan r).

(** A full channel drops the event. *)
Definition sendEvent (e : JobEvent) (r : RQAdapter) : RQAdapter :=
  if Z.of_nat (length (eventChan r)) <? 1000
  then mkAdapter (messageBus r) (functions r) (workers r) (queues r) (scheduledJobs r) (stats r) (eventChan r ++ [e])
  else r.

Definition updateQueueStats (queueName : string) (queued started finished failed : Z) (r : RQAdapter) : RQAdapter :=
  let s := stats r in
  let q := default zero_stats (QueueStats s !! queueName) in
  set_stats (mkStats (add_stats queued started finished failed (all s)) (n_Workers s) (n_Queues s)
               (<[queueName := add_stats queued started finished failed q]> (QueueStats s))) r.

(** ** Queues *)

Definition CreateQueue (cfg : QueueConfig) (r : RQAdapter) : RQAdapter * option string :=
  match queues r !! q_Name cfg with
  | Some _ => (r, Some ("queue already exists: " +:+ q_Name cfg))
  | None =>
    let s := stats r in
    (mkAdapter (messageBus r) (functions r) (workers r)
       (<[q_Name cfg := mkQueue (q_Name cfg) (q_Priority cfg) cfg 0]> (queues r)) (scheduledJobs r)
       (mkStats (all s) (n_Workers s) (n_Queues s + 1) (<[q_Name cfg := zero_stats]> (QueueStats s))) (eventChan r),
     None)
  end.

Definition DeleteQueue (name : string) (r : RQAdapter) : RQAdapter * option string :=
  match queues r !! name with
  | None => (r, Some ("queue not found: " +:+ name))
  | Some _ =>
    let s := stats r in
    (mkAdapter (messageBus r) (functions r) (workers r) (delete name (queues r)) (scheduledJobs r)
       (mkStats (all s) (n_Workers s) (n_Queues s - 1) (delete name (QueueStats s))) (eventChan r), None)
  end.

Definition PurgeQueue (name : string) (r : RQAdapter) : RQAdapter * option string :=
  match queues r !! name with
  | None => (r, Some ("queue not found: " +:+ name))
  | Some q =>
    (mkAdapter (messageBus r) (functions r) (workers r)
       (<[name := mkQueue (Name q) (QPriority q) (Config q) 0]> (queues r)) (scheduledJobs r) (stats r)
       (eventChan r), None)
  end.

Definition GetQueueLength (name : string) (r : RQAdapter) : res string Z :=
  match queues r !! name with
  | None => Err ("queue not found: " +:+ name)
  | Some q => Ok (JobCount q)
  end.

Definition GetJobStats (queueName : string) (r : RQAdapter) : res string JobStats :=
  match QueueStats (stats r) !! queueName with
  | None => Err ("queue not found: " +:+ queueName)
  | Some s => Ok s
  end.

Definition defaultQueues : list QueueConfig :=
  [mkQueueConfig "high" 10000 PriorityHigh true; mkQueueConfig "default" 50000 PriorityNormal true;
   mkQueueConfig "low" 100000 PriorityLow true; mkQueueConfig "failed" 10000 PriorityNormal true;
   mkQueueConfig "scheduled" 50000 PriorityNormal true].

Definition NewRQAdapter (b : B) : RQAdapter :=
  foldl (fun r cfg => fst (CreateQueue cfg r)) (mkAdapter b ∅ ∅ ∅ ∅ (mkStats zero_stats 0 0 ∅) []) defaultQueues.

Definition RegisterFunction (name : string) (fn : JobFunction) (r : RQAdapter) : RQAdapter :=
  mkAdapter (messageBus r) (<[name := fn]> (functions r)) (workers r) (queues r) (scheduledJobs r) (stats r)
    (eventChan r).
Definition UnregisterFunction (name : string) (r : RQAdapter) : RQAdapter :=
  mkAdapter (messageBus r) (delete name (functions r)) (workers r) (queues r) (scheduledJobs r) (stats r)
    (eventChan r).

(** ** Enqueueing *)

Definition mapPriority (p : Priority) : Z :=
  match p with
  | PriorityHigh => Types.PriorityHigh
  | PriorityLow => Types.PriorityLow
  | PriorityNormal => Types.PriorityNormal
  end.

(** [serializeJob] returns the empty slice. *)
Definition serializeJob (j : Job) : bytes := [].

Definition message_of (now : Z) (j : Job) : Types.PortaskMessage :=
  Types.mkMessage (j_ID j) (j_Queue j) (serializeJob j) (now / 1000000000)
    (Some (<["job_type" := Types.VString "rq"]> (<["function" := Types.VString (Function j)]>
       (<["status" := Types.VString "queued"]> (<["retry_count" := Types.VString "0"]> ∅)))))
    None (mapPriority (j_Priority j)) Types.StatusPending 0 "" "" "" 0 0 0 0 0 "" "" Types.zero_internal.

(** The job as the caller sees it afterwards, and the error. *)
Definition Enqueue (now : Z) (uuid : string) (j : Job) (r : RQAdapter) : exec (RQAdapter * Job * option string) :=
  let id := if decide (j_ID j = "") then uuid else j_ID j in
  let j := mkJob id (Function j) (Args j) (Kwargs j) (j_Queue j) (j_Priority j) (j_Retry j) (ScheduledAt j) now
             (StartedAt j) (FinishedAt j) StatusQueued (Result j) (j_Error j) (Meta j) in
  do! p := PublishToPriority (message_of now j) (mapPriority (j_Priority j)) (messageBus r) in
  let '(b, err) := p in
  let r := set_bus b r in
  match err with
  | Some e => Ret (r, j, Some ("failed to enqueue job: " +:+ e))
  | None =>
    let r := updateQueueStats (j_Queue j) 1 0 0 0 r in
    Ret (sendEvent (mkEvent id StatusNone StatusQueued now "" "") r, j, None)
  end.

(** ** The scheduler *)

Definition Schedule (j : Job) (at_ : Z) (r : RQAdapter) : RQAdapter :=
  set_schedule (<[j_ID j := mkScheduled j at_]> (scheduledJobs r)) r.
Definition Cancel (jobID : string) (r : RQAdapter) : RQAdapter :=
  set_schedule (delete jobID (scheduledJobs r)) r.

Definition EnqueueAt (j : Job) (at_ : Z) (r : RQAdapter) : RQAdapter * Job :=
  let j := set_status StatusScheduled (set_scheduled (Some at_) j) in (Schedule j at_ r, j).
Definition EnqueueIn (now : Z) (j : Job) (delay : Z) (r : RQAdapter) : RQAdapter * Job :=
  EnqueueAt j (now + delay) r.

(** [processScheduledJobs]: the jobs that are due leave the schedule; nothing
    else happens to them. *)
Definition processScheduledJobs (now : Z) (r : RQAdapter) : RQAdapter * list Job :=
  let due := filter (fun p => s_At (snd p) <= now) (map_to_list (scheduledJobs r)) in
  (set_schedule (foldl (fun m p => delete (fst p) m) (scheduledJobs r) due) r,
   (fun p => set_scheduled None (set_status StatusQueued (s_Job (snd p)))) <$> due).

Definition GetScheduledJobs (r : RQAdapter) : list ScheduledJob := (map_to_list (scheduledJobs r)).*2.

(** Placeholders of the source. *)
Definition GetJob (jobID : string) (r : RQAdapter) : res string Job := Err ("job not found: " +:+ jobID).
Definition CancelJob (now : Z) (jobID : string) (r : RQAdapter) : RQAdapter :=
  sendEvent (mkEvent jobID StatusNone StatusCanceled now "" "") r.
Definition RequeueJob (jobID : string) (r : RQAdapter) : RQAdapter := r.

(** ** Workers *)

Definition StartWorker (now : Z) (cfg : WorkerConfig) (r : RQAdapter) : RQAdapter * option string :=
  match workers r !! w_Name cfg with
  | Some _ => (r, Some ("worker already exists: " +:+ w_Name cfg))
  | None =>
    let s := stats r in
    (set_stats (mkStats (all s) (n_Workers s + 1) (n_Queues s) (QueueStats s))
       (set_workers (<[w_Name cfg := mkWorker cfg WorkerIdle None 0 now now false]> (workers r)) r), None)
  end.

Definition StopWorker (name : string) (r : RQAdapter) : RQAdapter * option string :=
  match workers r !! name with
  | None => (r, Some ("worker not found: " +:+ name))
  | Some _ =>
    let s := stats r in
    (set_stats (mkStats (all s) (n_Workers s - 1) (n_Queues s) (QueueStats s))
       (set_workers (delete name (workers r)) r), None)
  end.

(** [getNextJob] looks at no queue. *)
Definition getNextJob (w : Worker) : option Job := foldl (fun acc _ => acc) None (w_Queues (w_config w)).

Definition executeJob (j : Job) (r : RQAdapter) : res string Types.GoValue :=
  match functions r !! Function j with
  | None => Err ("function not registered: " +:+ Function j)
  | Some fn => fn (Args j) (Kwargs j)
  end.

Definition second : Z := 1000000000.

(** [1 << retryCount] is an int; a negative count panics. *)
Definition calculateRetryDelay (p : RetryPolicy) (retryCount : Z) : exec Z :=
  let base := match RetryIntervals p with d :: _ => d | [] => 30 * second end in
  match Backoff p with
  | BackoffFixed => Ret base
  | BackoffLinear => Ret (s64 (s64 (retryCount + 1) * base))
  | BackoffExponential =>
    if retryCount <? 0 then Panic else
    let multiplier := if retryCount >=? 64 then 0 else s64 (Z.shiftl 1 retryCount) in
    Ret (s64 (multiplier * base))
  | BackoffCustom =>
    if Z.of_nat (length (RetryIntervals p)) >? retryCount then
      if retryCount <? 0 then Panic
      else Ret (nth (Z.to_nat retryCount) (RetryIntervals p) 0)
    else match last (RetryIntervals p) with Some d => Ret d | None => Ret (30 * second) end
  | BackoffOther => Ret (30 * second)
  end.

(** A failed [Enqueue] is only logged. *)
Definition moveToFailedQueue (now : Z) (uuid : string) (j : Job) (r : RQAdapter) : exec (RQAdapter * Job) :=
  let m := <["failed_at" := MTime now]> (<["original_queue" := MText (j_Queue j)]> (default ∅ (Meta j))) in
  let j := mkJob (j_ID j) (Function j) (Args j) (Kwargs j) "failed" (j_Priority j) (j_Retry j) (ScheduledAt j)
             (CreatedAt j) (StartedAt j) (FinishedAt j) StatusFailed (Result j) (j_Error j) (Some m) in
  do! p := Enqueue now uuid j r in
  let '(r, j, _) := p in Ret (r, j).

Definition retry_count (j : Job) : Z :=
  match Meta j with
  | Some m => match m !! "retry_count" with Some (MInt n) => n | _ => 0 end
  | None => 0
  end.

Definition handleJobFailure (now : Z) (uuid err : string) (j : Job) (r : RQAdapter) : exec (RQAdapter * Job) :=
  match j_Retry j with
  | None => moveToFailedQueue now uuid j r
  | Some p =>
    if negb (RetryOnFailure p) then moveToFailedQueue now uuid j r else
    if retry_count j >=? MaxRetries p then moveToFailedQueue now uuid j r else
    do! delay := calculateRetryDelay p (retry_count j) in
    let m := <["retry_reason" := MText err]> (<["retry_count" := MInt (s64 (retry_count j + 1))]> (default ∅ (Meta j))) in
    Ret (EnqueueAt (set_status StatusQueued (set_meta m j)) (now + delay) r)
  end.

Definition set_worker (w : Worker) (r : RQAdapter) : RQAdapter :=
  set_workers (<[w_Name (w_config w) := w]> (workers r)) r.

(** [processJob]: [t0] is when it starts, [t1] when the function returns. *)
Definition processJob (t0 t1 : Z) (uuid : string) (w : Worker) (j : Job) (r : RQAdapter)
  : exec (RQAdapter * Worker * Job) :=
  let j := mkJob (j_ID j) (Function j) (Args j) (Kwargs j) (j_Queue j) (j_Priority j) (j_Retry j) (ScheduledAt j)
             (CreatedAt j) (Some t0) (FinishedAt j) StatusStarted (Result j) (j_Error j) (Meta j) in
  let r := sendEvent (mkEvent (j_ID j) StatusQueued StatusStarted t0 (w_Name (w_config w)) "") r in
  let outcome := executeJob j r in
  do! p := match outcome with
           | Err e =>
             let j := mkJob (j_ID j) (Function j) (Args j) (Kwargs j) (j_Queue j) (j_Priority j) (j_Retry j)
                        (ScheduledAt j) (CreatedAt j) (StartedAt j) (Some t1) StatusFailed (Result j) e (Meta j) in
             do! q := handleJobFailure t1 uuid e j r in
             let '(r, j) := q in Ret (updateQueueStats (j_Queue j) 0 (-1) 0 1 r, j)
           | Ok v =>
             let j := mkJob (j_ID j) (Function j) (Args j) (Kwargs j) (j_Queue j) (j_Priority j) (j_Retry j)
                        (ScheduledAt j) (CreatedAt j) (StartedAt j) (Some t1) StatusFinished (Some v) (j_Error j)
                        (Meta j) in
             Ret (updateQueueStats (j_Queue j) 0 (-1) 1 0 r, j)
           end in
  let '(r, j) := p in
  let r := sendEvent (mkEvent (j_ID j) StatusStarted (Status j) t1 (w_Name (w_config w)) (j_Error j)) r in
  let w := mkWorker (w_config w) WorkerIdle None (s64 (jobsProcessed w + 1)) (w_startedAt w) t1 (cancelled w) in
  Ret (r, w, j).

(** One round of [workerLoop]: stop at the limit, poll, or process. *)
Definition workerLoop_step (t0 t1 : Z) (uuid : string) (w : Worker) (r : RQAdapter)
  : exec (RQAdapter * Worker * bool) :=
  if cancelled w then Ret (r, w, false) else
  if (MaxJobs (w_config w) >? 0) && (jobsProcessed w >=? MaxJobs (w_config w)) then
    Ret (r, mkWorker (w_config w) (w_status w) (currentJob w) (jobsProcessed w) (w_startedAt w) (lastSeen w) true, false)
  else
  match getNextJob w with
  | None => Ret (r, w, true)
  | Some j => do! p := processJob t0 t1 uuid w j r in let '(r, w, _) := p in Ret (r, w, true)
  end.

End adapter.
Arguments RQAdapter : clear implicits.

End Rq.
