(* ===== verification/RqSpec.v ===== *)
(** * Properties of the job queues

    - the counters: per queue and overall, the total is the sum of the parts,
      over every sequence of operations, and what the parts mean;
    - failures: retried up to the limit, then moved to the failed queue;
    - back-off delays and their overflow;
    - scheduled jobs, and so all retries, are dropped when they are due, and
      workers find no jobs. *)
From stdpp Require Import base gmap strings list numbers fin_maps.
From Stdlib Require Import ZArith Lia.
From S2P Require Import Prelude Types Bus Rq.

Module RqSpec.
Import Rq.

(** ** Counters *)

Lemma wraps_multiple w z : 0 < w -> exists k, wraps w z = z + 2 ^ w * k.
Proof.
  intros Hw. unfold wraps. exists (- ((z + 2 ^ (w - 1)) / 2 ^ w)).
  pose proof (Z.div_mod (z + 2 ^ (w - 1)) (2 ^ w) ltac:(lia)). lia.
Qed.

Lemma wraps_shift w a b k : 0 < w -> a = b + 2 ^ w * k -> wraps w a = wraps w b.
Proof.
  intros Hw ->. apply wraps_congr; [done|]. rewrite Z.add_comm, Z.mul_comm. by rewrite Z.add_comm, Z_mod_plus_full.
Qed.

Definition stats_sum (s : JobStats) : Prop := Total s = s64 (Queued s + Started s + Finished s + Failed s).

Lemma add_stats_sum q s f x st : stats_sum st -> stats_sum (add_stats q s f x st).
Proof.
  unfold stats_sum, add_stats. cbn [Total Queued Started Finished Failed]. intros ->.
  destruct (wraps_multiple 64 (Queued st + Started st + Finished st + Failed st)) as [k1 E1]; [lia|].
  destruct (wraps_multiple 64 (q + s + f + x)) as [k2 E2]; [lia|].
  destruct (wraps_multiple 64 (Queued st + q)) as [k3 E3]; [lia|].
  destruct (wraps_multiple 64 (Started st + s)) as [k4 E4]; [lia|].
  destruct (wraps_multiple 64 (Finished st + f)) as [k5 E5]; [lia|].
  destruct (wraps_multiple 64 (Failed st + x)) as [k6 E6]; [lia|].
  apply (wraps_shift 64 _ _ (k1 + k2 - k3 - k4 - k5 - k6)); lia.
Qed.

Section adapter.
Context {B : Type} `{!PriorityBus B}.
Implicit Types r : RQAdapter B.

Definition stats_ok r : Prop :=
  stats_sum (all (stats r)) /\ map_Forall (fun _ s => stats_sum s) (QueueStats (stats r)).

Lemma stats_ok_ext r r' :
  all (stats r') = all (stats r) -> QueueStats (stats r') = QueueStats (stats r) -> stats_ok r -> stats_ok r'.
Proof. unfold stats_ok. by intros -> ->. Qed.

Lemma sendEvent_stats e r : stats (sendEvent e r) = stats r.
Proof. unfold sendEvent. by case_match. Qed.

Lemma sendEvent_schedule e r : scheduledJobs (sendEvent e r) = scheduledJobs r.
Proof. unfold sendEvent. by case_match. Qed.

Lemma update_ok name q s f x r : stats_ok r -> stats_ok (updateQueueStats name q s f x r).
Proof.
  intros [Ha Hq]. split; cbn; [by apply add_stats_sum|]. apply map_Forall_insert_2; [|done].
  apply add_stats_sum. destruct (QueueStats (stats r) !! name) as [st|] eqn:E; cbn; [by apply (Hq _ _ E)|].
  reflexivity.
Qed.

Lemma Enqueue_ok now uuid j r r' j' err : Enqueue now uuid j r = Ret (r', j', err) -> stats_ok r -> stats_ok r'.
Proof.
  unfold Enqueue. cbv zeta. destruct (PublishToPriority _ _ _) as [[b [e|]]| |]; [| |done|done]; intros [= <- _ _] Hr.
  - by eapply stats_ok_ext; [..|exact Hr].
  - eapply stats_ok_ext; [by rewrite sendEvent_stats..|]. by apply update_ok.
Qed.

Lemma moveToFailedQueue_ok now uuid j r r' j' :
  moveToFailedQueue now uuid j r = Ret (r', j') -> stats_ok r -> stats_ok r'.
Proof.
  unfold moveToFailedQueue. cbv zeta. destruct (Enqueue _ _ _ _) as [[[r1 j1] err]| |] eqn:E; [|done..].
  intros [= <- _]. by eapply Enqueue_ok.
Qed.

Lemma handleJobFailure_ok now uuid err j r r' j' :
  handleJobFailure now uuid err j r = Ret (r', j') -> stats_ok r -> stats_ok r'.
Proof.
  unfold handleJobFailure. destruct (j_Retry j) as [p|]; [|apply moveToFailedQueue_ok].
  destruct (negb _); [apply moveToFailedQueue_ok|]. destruct (_ >=? _); [apply moveToFailedQueue_ok|].
  destruct (calculateRetryDelay _ _); [|done..]. by intros [= <- _].
Qed.

Lemma processJob_ok t0 t1 uuid w j r r' w' j' :
  processJob t0 t1 uuid w j r = Ret (r', w', j') -> stats_ok r -> stats_ok r'.
Proof.
  unfold processJob. cbv zeta. intros Hp Hr.
  set (r1 := sendEvent _ r) in *.
  assert (stats_ok r1) as Hr1 by (eapply stats_ok_ext; [..|exact Hr]; unfold r1; by rewrite sendEvent_stats).
  destruct (executeJob _ r1) as [v|e].
  - injection Hp as <- _ _. eapply stats_ok_ext; [by rewrite sendEvent_stats..|]. by apply update_ok.
  - destruct (handleJobFailure _ _ _ _ r1) as [[r2 j2]| |] eqn:E; [|done..]. injection Hp as <- _ _.
    eapply stats_ok_ext; [by rewrite sendEvent_stats..|]. apply update_ok. by eapply handleJobFailure_ok.
Qed.

(** The operations that change the adapter. *)
Inductive rq_step : RQAdapter B -> RQAdapter B -> Prop :=
| rq_create cfg r : rq_step r (fst (CreateQueue cfg r))
| rq_delete name r : rq_step r (fst (DeleteQueue name r))
| rq_purge name r : rq_step r (fst (PurgeQueue name r))
| rq_register name fn r : rq_step r (RegisterFunction name fn r)
| rq_unregister name r : rq_step r (UnregisterFunction name r)
| rq_enqueue now uuid j r r' j' err : Enqueue now uuid j r = Ret (r', j', err) -> rq_step r r'
| rq_enqueue_at j at_ r : rq_step r (fst (EnqueueAt j at_ r))
| rq_cancel id r : rq_step r (Cancel id r)
| rq_cancel_job now id r : rq_step r (CancelJob now id r)
| rq_tick now r : rq_step r (fst (processScheduledJobs now r))
| rq_start_worker now cfg r : rq_step r (fst (StartWorker now cfg r))
| rq_stop_worker name r : rq_step r (fst (StopWorker name r))
| rq_process t0 t1 uuid w j r r' w' j' : processJob t0 t1 uuid w j r = Ret (r', w', j') -> rq_step r r'.

Lemma rq_step_ok r r' : rq_step r r' -> stats_ok r -> stats_ok r'.
Proof.
  intros Hs Hr.
  destruct Hs; try exact Hr; try first [by eapply Enqueue_ok|by eapply processJob_ok].
  - unfold CreateQueue. case_match; [done|]. destruct Hr as [Ha Hq]. split; [done|]. cbn.
    by apply map_Forall_insert_2.
  - unfold DeleteQueue. case_match; [|done]. destruct Hr as [Ha Hq]. split; [done|]. cbn.
    by apply map_Forall_delete.
  - unfold PurgeQueue. by case_match.
  - eapply stats_ok_ext; [..|exact Hr]; unfold CancelJob; by rewrite sendEvent_stats.
  - unfold StartWorker. by case_match.
  - unfold StopWorker. by case_match.
Qed.

Lemma NewRQAdapter_ok b : stats_ok (NewRQAdapter b).
Proof.
  unfold NewRQAdapter. set (r0 := mkAdapter _ _ _ _ _ _ _).
  assert (stats_ok r0) as H0 by (split; [reflexivity|apply map_Forall_empty]).
  revert H0. generalize r0. clear r0. generalize defaultQueues as l. induction l as [|cfg l IH]; intros r Hr; [done|].
  cbn [foldl]. apply IH. exact (rq_step_ok _ _ (rq_create cfg r) Hr).
Qed.

(** The counters add up: in every state the adapter reaches, the overall
    total and the total of every queue are the sums of their queued, started,
    finished and failed counts (as 64-bit integers). *)
Lemma counters_add_up b r :
  rtc rq_step (NewRQAdapter b) r ->
  stats_sum (all (stats r)) /\ (forall name s, GetJobStats name r = Ok s -> stats_sum s).
Proof.
  intros Hsteps. assert (stats_ok r) as [Ha Hq].
  { assert (stats_ok (NewRQAdapter b)) as H0 by apply NewRQAdapter_ok. revert H0.
    induction Hsteps as [|x y z Hxy _ IH]; [done|]. intros Hx. apply IH. by apply (rq_step_ok x). }
  split; [done|]. intros name s. unfold GetJobStats.
  destruct (QueueStats (stats r) !! name) as [st|] eqn:E; [|done]. intros [= <-]. by apply (Hq _ _ E).
Qed.

(** ** Failures *)

(** Where a failed job goes. *)
Lemma failure_retried now uuid err j p r d :
  j_Retry j = Some p -> RetryOnFailure p = true -> retry_count j < MaxRetries p ->
  calculateRetryDelay p (retry_count j) = Ret d -> - 2 ^ 63 <= retry_count j + 1 < 2 ^ 63 ->
  exists j', handleJobFailure now uuid err j r = Ret (Schedule j' (now + d) r, j')
    /\ retry_count j' = retry_count j + 1 /\ j_Retry j' = Some p /\ j_Queue j' = j_Queue j
    /\ Status j' = StatusScheduled /\ j_ID j' = j_ID j.
Proof.
  intros Hp Hon Hlt Hd Hb. unfold handleJobFailure. rewrite Hp, Hon. cbn [negb].
  destruct (Z.geb_spec (retry_count j) (MaxRetries p)); [lia|]. rewrite Hd.
  eexists. split; [reflexivity|]. split_and!; try done.
  unfold retry_count at 1. cbn. rewrite lookup_insert_ne, lookup_insert_eq by done.
  by apply wraps_small; lia.
Qed.

Lemma failure_final now uuid err j r r' j' :
  (forall p, j_Retry j = Some p -> RetryOnFailure p = true -> MaxRetries p <= retry_count j) ->
  handleJobFailure now uuid err j r = Ret (r', j') ->
  j_Queue j' = "failed" /\ scheduledJobs r' = scheduledJobs r
  /\ (m ← Meta j'; m !! "original_queue") = Some (MText (j_Queue j)).
Proof.
  intros Hmax Hh.
  assert (moveToFailedQueue now uuid j r = Ret (r', j')) as Hm.
  { unfold handleJobFailure in Hh. destruct (j_Retry j) as [p|]; [|done].
    destruct (RetryOnFailure p) eqn:Hon; [|done]. cbn [negb] in Hh.
    destruct (Z.geb_spec (retry_count j) (MaxRetries p)); [done|]. specialize (Hmax p eq_refl Hon). lia. }
  unfold moveToFailedQueue, Enqueue in Hm. cbv zeta in Hm.
  destruct (PublishToPriority _ _ _) as [[b [e|]]| |]; [| |done|done]; cbn in Hm; injection Hm as <- <-; cbn;
    rewrite ?lookup_insert_ne, ?lookup_insert_eq by done; (split; [done|]); (split; [|done]).
  - done.
  - by rewrite sendEvent_schedule.
Qed.

(** A job that keeps failing, handed back after each retry. *)
Inductive failing : nat -> RQAdapter B -> Job -> RQAdapter B -> Job -> Prop :=
| failing_0 r j : failing 0 r j r j
| failing_S n r j r1 j1 r2 j2 now uuid err :
    failing n r j r1 j1 -> handleJobFailure now uuid err j1 r1 = Ret (r2, j2) -> failing (S n) r j r2 j2.

Lemma fixed_delay p k : Backoff p = BackoffFixed -> exists d, calculateRetryDelay p k = Ret d.
Proof. unfold calculateRetryDelay. intros ->. by eexists. Qed.

Lemma failing_counts n p r j r' j' :
  j_Retry j = Some p -> RetryOnFailure p = true -> Backoff p = BackoffFixed -> retry_count j = 0 ->
  0 <= MaxRetries p < 2 ^ 62 -> Z.of_nat n <= MaxRetries p -> failing n r j r' j' ->
  retry_count j' = Z.of_nat n /\ j_Retry j' = Some p /\ j_Queue j' = j_Queue j.
Proof.
  intros Hp Hon Hback H0 Hmax Hn Hf. induction Hf as [|n r j r1 j1 r2 j2 now uuid err Hf IH Hh]; [done|].
  destruct IH as (Hc & Hp1 & Hq); [done..|lia|].
  destruct (fixed_delay p (retry_count j1) Hback) as [d Hd].
  destruct (failure_retried now uuid err j1 p r1 d) as (j' & E & Hc' & Hp' & Hq' & _); [done..|lia|done|lia|].
  rewrite Hh in E. simplify_eq. split_and!; [lia|done|congruence].
Qed.

(** Retries are bounded: a job that keeps failing is scheduled again exactly
    [MaxRetries] times, and its next failure moves it to the failed queue,
    keeping the name of its queue. *)
Theorem retries_bounded p r j r1 j1 now uuid err r2 j2 :
  j_Retry j = Some p -> RetryOnFailure p = true -> Backoff p = BackoffFixed -> retry_count j = 0 ->
  0 <= MaxRetries p < 2 ^ 62 ->
  failing (Z.to_nat (MaxRetries p)) r j r1 j1 -> handleJobFailure now uuid err j1 r1 = Ret (r2, j2) ->
  j_Queue j1 = j_Queue j /\ retry_count j1 = MaxRetries p /\ j_Queue j2 = "failed"
  /\ (m ← Meta j2; m !! "original_queue") = Some (MText (j_Queue j)).
Proof.
  intros Hp Hon Hback H0 Hmax Hf Hh.
  destruct (failing_counts (Z.to_nat (MaxRetries p)) p r j r1 j1) as (Hc & Hp1 & Hq); [done..|lia|done|].
  rewrite Z2Nat.id in Hc by lia.
  destruct (failure_final now uuid err j1 r1 r2 j2) as (Hq2 & _ & Hm); [|done|].
  { intros p' Hp' _. rewrite Hp1 in Hp'. simplify_eq. lia. }
  rewrite Hq in Hm. done.
Qed.

(** ** Scheduled jobs *)

Lemma foldl_delete_lookup {V} (l : list (string * V)) (m : gmap string V) k :
  foldl (fun m p => delete (fst p) m) m l !! k = if decide (k ∈ l.*1) then None else m !! k.
Proof.
  revert m. induction l as [|[k' v] l IH]; intros m; cbn [foldl].
  - by rewrite decide_False by (by intros ?%elem_of_nil).
  - rewrite IH. cbn [fmap list_fmap fst]. destruct (decide (k ∈ l.*1)) as [Hin|Hout].
    + by rewrite decide_True by (by right).
    + destruct (decide (k = k')) as [->|Hne].
      * rewrite lookup_delete_eq, decide_True by (by left). done.
      * rewrite lookup_delete_ne by done. rewrite decide_False; [done|]. by intros [?|?]%elem_of_cons.
Qed.

(** A scheduled job is lost when it is due: the tick takes exactly the jobs
    that are due out of the schedule and leaves the bus, the counters and the
    queues as they are, so that the job is nowhere any more. *)
Lemma scheduled_job_vanishes now j at_ r :
  at_ <= now ->
  let r' := fst (processScheduledJobs now (Schedule j at_ r)) in
  scheduledJobs r' !! j_ID j = None /\ messageBus r' = messageBus r /\ stats r' = stats r
  /\ queues r' = queues r /\ eventChan r' = eventChan r
  /\ (forall id s, scheduledJobs r' !! id = Some s <-> scheduledJobs r !! id = Some s /\ now < s_At s /\ id <> j_ID j).
Proof.
  intros Ht. cbv zeta.
  assert (forall id, scheduledJobs (fst (processScheduledJobs now (Schedule j at_ r))) !! id
    = match scheduledJobs (Schedule j at_ r) !! id with
      | Some s => if decide (s_At s <= now) then None else Some s
      | None => None
      end) as Hl.
  { intros id. unfold processScheduledJobs. cbn [fst scheduledJobs set_schedule]. rewrite foldl_delete_lookup.
    set (m := scheduledJobs _). destruct (m !! id) as [s|] eqn:E.
    - case_decide as Hin; case_decide as Hd; try done.
      + apply list_elem_of_fmap in Hin as ([id' s'] & -> & Hin). apply list_elem_of_filter in Hin as [Hs Hin].
        apply elem_of_map_to_list in Hin. cbn [fst snd] in *. rewrite E in Hin. by simplify_eq.
      + contradict Hin. apply list_elem_of_fmap. exists (id, s). split; [done|]. apply list_elem_of_filter.
        split; [done|]. by apply elem_of_map_to_list.
    - by case_decide. }
  split_and!; try done.
  - rewrite Hl. cbn. rewrite lookup_insert_eq. by rewrite decide_True.
  - intros id s. rewrite Hl. cbn. destruct (decide (id = j_ID j)) as [->|Hne].
    + rewrite lookup_insert_eq. cbn. rewrite decide_True by done. naive_solver.
    + rewrite lookup_insert_ne by done. destruct (scheduledJobs r !! id) as [s'|]; [|naive_solver].
      case_decide; split; intros; destruct_and?; simplify_eq; try lia; split_and?; try done; lia.
Qed.

Lemma calculateRetryDelay_total p k : 0 <= k -> exists d, calculateRetryDelay p k = Ret d.
Proof.
  intros Hk. unfold calculateRetryDelay. destruct (Z.ltb_spec k 0); [lia|].
  destruct (Backoff p); repeat case_match; by eexists.
Qed.

(** C30: a retry never happens.  When a job fails whose policy has retries left,
    [handleJobFailure] counts the retry and schedules the job under its
    identifier for the failure's time and the back-off delay; the first tick of
    the scheduler at or after that time takes it out of the schedule, with the
    other jobs that are due and no others, and changes nothing else: the job is
    not given to the bus, and no counter, queue or event tells of it. *)
Theorem retried_job_lost now uuid err j p r :
  j_Retry j = Some p -> RetryOnFailure p = true -> 0 <= retry_count j < MaxRetries p -> MaxRetries p < 2 ^ 63 ->
  exists d r' j', calculateRetryDelay p (retry_count j) = Ret d
    /\ handleJobFailure now uuid err j r = Ret (r', j')
    /\ scheduledJobs r' !! j_ID j = Some (mkScheduled j' (now + d))
    /\ retry_count j' = retry_count j + 1
    /\ forall t, now + d <= t ->
       let r'' := fst (processScheduledJobs t r') in
       scheduledJobs r'' !! j_ID j = None /\ messageBus r'' = messageBus r /\ stats r'' = stats r
       /\ queues r'' = queues r /\ eventChan r'' = eventChan r
       /\ forall id s, scheduledJobs r'' !! id = Some s
            <-> scheduledJobs r !! id = Some s /\ t < s_At s /\ id <> j_ID j.
Proof.
  intros Hp Hon Hc Hmax. destruct (calculateRetryDelay_total p (retry_count j)) as [d Hd]; [lia|].
  destruct (failure_retried now uuid err j p r d) as (j' & E & Hc' & _ & _ & _ & Hid); [done|done|lia|done|lia|].
  exists d, (Schedule j' (now + d) r), j'. split_and!; [done..| |done|].
  - unfold Schedule. cbn. by rewrite Hid, lookup_insert_eq.
  - intros t Ht. rewrite <- Hid.
    by apply scheduled_job_vanishes.
Qed.

(** No worker ever finds a job, so no round processes one. *)
Lemma getNextJob_None w : getNextJob w = None.
Proof. unfold getNextJob. by induction (w_Queues (w_config w)). Qed.

Lemma workers_idle t0 t1 uuid w r r' w' b :
  workerLoop_step t0 t1 uuid w r = Ret (r', w', b) -> r' = r /\ jobsProcessed w' = jobsProcessed w.
Proof.
  unfold workerLoop_step. destruct (cancelled w); [by intros [= <- <- _]|].
  destruct (_ && _); [by intros [= <- <- _]|]. rewrite getNextJob_None. by intros [= <- <- _].
Qed.

End adapter.

(** ** Delays *)

(** Exponential back-off doubles, until the product leaves 64 bits. *)
Lemma exponential_delay p k :
  Backoff p = BackoffExponential -> 0 <= k < 63 ->
  0 <= match RetryIntervals p with d :: _ => d | [] => 30 * second end * 2 ^ k < 2 ^ 63 ->
  calculateRetryDelay p k = Ret (2 ^ k * match RetryIntervals p with d :: _ => d | [] => 30 * second end).
Proof.
  intros Hb Hk Hd. unfold calculateRetryDelay. rewrite Hb. cbv zeta.
  set (base := match RetryIntervals p with d :: _ => d | [] => 30 * second end) in *.
  destruct (Z.ltb_spec k 0); [lia|]. destruct (Z.geb_spec k 64); [lia|].
  rewrite Z.shiftl_1_l. assert (0 < 2 ^ k) by (apply Z.pow_pos_nonneg; lia).
  assert (2 ^ k < 2 ^ 63) by (apply Z.pow_lt_mono_r; lia).
  rewrite (wraps_small 64 (2 ^ k)) by lia. by rewrite wraps_small by lia.
Qed.

(** With the default base of 30 s the delay is negative at the 29th retry, and
    0 from the 64th on: the retry is due at once. *)
Lemma exponential_overflows :
  let p := mkRetry 100 [] BackoffExponential true in
  calculateRetryDelay p 28 = Ret (2 ^ 28 * (30 * second)) /\
  (exists d, calculateRetryDelay p 29 = Ret d /\ d < 0) /\ calculateRetryDelay p 64 = Ret 0.
Proof. split_and!; [reflexivity|eexists; split; [vm_compute; reflexivity|lia]|reflexivity]. Qed.

(** ** Concrete checks *)

#[local] Instance list_bus : PriorityBus (list Types.PortaskMessage) := fun m p b => Ret (b ++ [m], None).

Definition plain_job (p : option RetryPolicy) : Job :=
  mkJob "j1" "f" [] ∅ "default" PriorityNormal p None 0 None None StatusQueued None "" None.
Definition twice : RetryPolicy := mkRetry 2 [5] BackoffFixed true.
Definition fresh : RQAdapter (list Types.PortaskMessage) := NewRQAdapter [].
Definition step_of (x : exec (RQAdapter (list Types.PortaskMessage) * Job)) :=
  match x with Ret p => p | _ => (fresh, plain_job None) end.
Definition fail1 := step_of (handleJobFailure 10 "" "e1" (plain_job (Some twice)) fresh).
Definition fail2 := step_of (handleJobFailure 20 "" "e2" (snd fail1) (fst fail1)).
Definition fail3 := step_of (handleJobFailure 30 "" "e3" (snd fail2) (fst fail2)).

Lemma retries_bounded_witness :
  j_Queue (snd fail2) = "default" /\ retry_count (snd fail2) = 2 /\ j_Queue (snd fail3) = "failed"
  /\ (m ← Meta (snd fail3); m !! "original_queue") = Some (MText "default").
Proof.
  apply (retries_bounded twice fresh (plain_job (Some twice)) (fst fail2) (snd fail2) 30 "" "e3" (fst fail3) (snd fail3)).
  - reflexivity.
  - reflexivity.
  - reflexivity.
  - reflexivity.
  - vm_compute. split; [discriminate|reflexivity].
  - apply (failing_S 1 _ _ (fst fail1) (snd fail1) _ _ 20 "" "e2"); [|vm_compute; reflexivity].
    apply (failing_S 0 _ _ fresh (plain_job (Some twice)) _ _ 10 "" "e1"); [apply failing_0|vm_compute; reflexivity].
  - vm_compute. reflexivity.
Defined.

(** A job that fails at 10 with a retry after 5 is gone at the tick of 15, and
    another job that is scheduled for 20 stays. *)
Definition other_job : Job :=
  mkJob "j2" "g" [] ∅ "default" PriorityNormal None None 0 None None StatusQueued None "" None.

Lemma retried_job_lost_witness : exists r' j',
  handleJobFailure 10 "" "e1" (plain_job (Some twice)) (fst (EnqueueAt other_job 20 fresh)) = Ret (r', j')
  /\ scheduledJobs r' !! "j1" = Some (mkScheduled j' 15)
  /\ scheduledJobs (fst (processScheduledJobs 15 r')) !! "j1" = None
  /\ messageBus (fst (processScheduledJobs 15 r')) = []
  /\ is_Some (scheduledJobs (fst (processScheduledJobs 15 r')) !! "j2").
Proof.
  destruct (retried_job_lost 10 "" "e1" (plain_job (Some twice)) twice (fst (EnqueueAt other_job 20 fresh)))
    as (d & r' & j' & Hd & E & Hs & _ & Hlost).
  - reflexivity.
  - reflexivity.
  - vm_compute. split; [discriminate|reflexivity].
  - vm_compute. reflexivity.
  - vm_compute in Hd. injection Hd as <-. exists r', j'. split; [exact E|]. split; [exact Hs|].
    destruct (Hlost 15) as (H1 & H2 & _ & _ & _ & H3); [vm_compute; discriminate|].
    split; [exact H1|]. split; [exact H2|].
    eexists. apply H3. split; [vm_compute; reflexivity|]. split; [vm_compute; reflexivity|discriminate].
Defined.

(** The started count only goes down, and a job that fails for good is counted
    in the failed queue, as queued, and not in its own. *)
Lemma failure_counted_elsewhere :
  let w := mkWorker (mkWorkerConfig "w" ["default"] 1 1 0) WorkerIdle None 0 0 0 false in
  match processJob 0 1 "" w (plain_job None) fresh with
  | Ret (r, _, j) =>
    Started (all (stats r)) = -1 /\ GetJobStats "default" r = Ok zero_stats
    /\ GetJobStats "failed" r = Ok (mkJobStats 1 1 (-1) 0 1) /\ Status j = StatusQueued
  | _ => False
  end.
Proof. vm_compute. done. Qed.

End RqSpec.
