(* ===== verification/Pool.v ===== *)
(** * Memory pools and buffers ([src/pkg/memory/pool.go])

    [Pool] for byte slices with its monitor, the global pools behind
    [GetBuffer] and [PutBuffer], [BufferPool] and [FastBuffer].  (The pool of
    messages is in [Processor], the topic interner in [Kafka].)

    A pool is a buffered channel of slices, which may be nil, and a [sync.Pool],
    from which [Get] may take any idle object or a new one ([choice]).  Slices in
    [Pool] have length and capacity equal; in [BufferPool] a slice is empty and
    its capacity is what matters.  Ratios are [float64].  [make] panics for a
    negative length and above the largest allocation ([maxAlloc]); memory that
    runs out below it is not modelled. *)
From stdpp Require Import base gmap strings list numbers fin_maps pretty.
From Stdlib Require Import ZArith Lia.
From S2P Require Import Prelude Float64.

Module Pool.
Import Float64.

(** ** [Pool] *)

Record PoolStats := mkPoolStats {
  s_MaxObjects : Z; CurrentObjects : Z; AllocCount : Z; HitCount : Z; MissCount : Z; HitRatio : Z;
  MemoryUsage : Z
}.
Record PoolEvent := mkPoolEvent { e_Type : string; OldSize : Z; NewSize : Z; e_Stats : PoolStats }.

(** [objects]: the channel with its capacity.  [statsMax] is the copy of
    [MaxObjects] in the statistics. *)
Record Pool := mkPool {
  name : string;
  objectSize : Z;
  maxObjects : Z;
  allocCount : Z;
  hitCount : Z;
  missCount : Z;
  idle : list bytes;
  objects : option (list bytes * Z);
  statsMax : Z;
  enableAutoResize : bool;
  resizeThreshold : Z;
  maxGrowthRate : Z;
  diagnostics : list PoolEvent
}.

Definition fractions (n d : Z) : Z := fdiv (of_int n) (of_int d).

(** [make([]byte, size)] *)
Definition make (size : Z) : exec bytes :=
  if (size <? 0) || (size >? maxAlloc) then Panic else Ret (replicate (Z.to_nat size) 0).
(** [make(chan interface{}, n)]: 16 bytes an element and a header of 96. *)
Definition make_chan (n : Z) : exec () :=
  if (n <? 0) || (16 * n >? maxAlloc - 96) then Panic else Ret ().
(** [n] new slices; none is made when [n] is 0. *)
Definition make_all (n : nat) (size : Z) : exec (list bytes) :=
  match n with
  | O => Ret []
  | _ => do! obj := make size in Ret (replicate n obj)
  end.

Record PoolConfig := mkPoolConfig {
  c_Name : string; c_ObjectSize : Z; InitialObjects : Z; c_MaxObjects : Z; EnableAutoResize : bool;
  ResizeThreshold : Z; MaxGrowthRate : Z
}.

(** A pool without a factory of its own; a zero threshold or growth rate means
    the default. *)
Definition NewPool (c : PoolConfig) : exec Pool :=
  let threshold := if ResizeThreshold c =? 0 then fractions 8 10 else ResizeThreshold c in
  let growth := if MaxGrowthRate c =? 0 then fractions 1 2 else MaxGrowthRate c in
  do! objs := (if InitialObjects c >? 0 then
                 do! _ := make_chan (InitialObjects c) in
                 do! objs := make_all (Z.to_nat (InitialObjects c)) (c_ObjectSize c) in
                 Ret (Some (objs, InitialObjects c))
               else Ret None) in
  Ret (mkPool (c_Name c) (c_ObjectSize c) (c_MaxObjects c) 0 0 0 [] objs
         (c_MaxObjects c) (EnableAutoResize c) threshold growth []).

Definition set_counts (a h m : Z) (idle : list bytes) (objs : option (list bytes * Z)) (p : Pool) : Pool :=
  mkPool (name p) (objectSize p) (maxObjects p) a h m idle objs (statsMax p) (enableAutoResize p)
    (resizeThreshold p) (maxGrowthRate p) (diagnostics p).

(** [p.pool.Get()]: an idle object, or a new one, counted. *)
Definition sync_new (p : Pool) : exec (Pool * bytes) :=
  do! obj := make (objectSize p) in
  Ret (set_counts (s64 (allocCount p + 1)) (hitCount p) (s64 (missCount p + 1)) (idle p) (objects p) p, obj).
Definition sync_get (choice : option nat) (p : Pool) : exec (Pool * bytes) :=
  match choice with
  | Some i =>
    match idle p !! i with
    | Some b => Ret (set_counts (allocCount p) (hitCount p) (missCount p)
                       (take i (idle p) ++ drop (S i) (idle p)) (objects p) p, b)
    | None => sync_new p
    end
  | None => sync_new p
  end.

(** The object, and its bytes set to zero. *)
Definition Get (choice : option nat) (p : Pool) : exec (Pool * bytes) :=
  do! got := match objects p with
             | Some (obj :: rest, cap) =>
               Ret (set_counts (allocCount p) (s64 (hitCount p + 1)) (missCount p) (idle p) (Some (rest, cap)) p, obj)
             | _ => sync_get choice p
             end in
  let '(p, obj) := got in
  if objectSize p >? 0 then
    if Z.of_nat (length obj) =? objectSize p then Ret (p, (fun _ => 0) <$> obj)
    else do! obj := make (objectSize p) in
         Ret (set_counts (s64 (allocCount p + 1)) (hitCount p) (missCount p) (idle p) (objects p) p, obj)
  else Ret (p, obj).

Definition Put (obj : bytes) (p : Pool) : Pool :=
  if (objectSize p >? 0) && negb (Z.of_nat (length obj) =? objectSize p) then p else
  match objects p with
  | Some (objs, cap) =>
    if Z.of_nat (length objs) <? cap
    then set_counts (allocCount p) (hitCount p) (missCount p) (idle p) (Some (objs ++ [obj], cap)) p
    else set_counts (allocCount p) (hitCount p) (missCount p) (obj :: idle p) (objects p) p
  | None => set_counts (allocCount p) (hitCount p) (missCount p) (obj :: idle p) (objects p) p
  end.

Definition GetStats (p : Pool) : PoolStats :=
  let total := s64 (hitCount p + missCount p) in
  let current := match objects p with Some (objs, _) => Z.of_nat (length objs) | None => 0 end in
  mkPoolStats (statsMax p) current (allocCount p) (hitCount p) (missCount p)
    (if total >? 0 then fractions (hitCount p) total else 0) (s64 (current * objectSize p)).

Definition AddEvent (e : PoolEvent) (p : Pool) : Pool :=
  let d := if Z.of_nat (length (diagnostics p)) >? 100 then drop 1 (diagnostics p) else diagnostics p in
  mkPool (name p) (objectSize p) (maxObjects p) (allocCount p) (hitCount p) (missCount p) (idle p) (objects p)
    (statsMax p) (enableAutoResize p) (resizeThreshold p) (maxGrowthRate p) (d ++ [e]).

Definition Clear (p : Pool) : Pool :=
  match objects p with
  | Some (_, cap) => set_counts (allocCount p) (hitCount p) (missCount p) (idle p) (Some ([], cap)) p
  | None => p
  end.

Definition ResetAndDrain (p : Pool) : exec Pool :=
  let p := Clear p in
  do! p := match objects p with
           | Some (_, cap) =>
             do! objs := make_all (Z.to_nat cap) (objectSize p) in
             Ret (set_counts (allocCount p) (hitCount p) (missCount p) (idle p) (Some (objs, cap)) p)
           | None => Ret p
           end in
  Ret (AddEvent (mkPoolEvent "reset" 0 0 (GetStats p)) p).

(** The objects move to the new channel and the rest is filled up; a smaller
    size does nothing. *)
Definition Resize (newSize : Z) (p : Pool) : exec Pool :=
  if negb (enableAutoResize p) || (newSize <=? 0) then Ret p else
  if match objects p with None => true | Some (_, cap) => newSize >? cap end then
    do! _ := make_chan newSize in
    let old := match objects p with Some (objs, _) => objs | None => [] end in
    let kept := take (Z.to_nat newSize) old in
    do! fresh := make_all (Z.to_nat newSize - length kept) (objectSize p) in
    Ret (mkPool (name p) (objectSize p) newSize (allocCount p) 0 0 (reverse (drop (Z.to_nat newSize) old) ++ idle p)
      (Some (kept ++ fresh, newSize)) (statsMax p) (enableAutoResize p) (resizeThreshold p) (maxGrowthRate p)
      (diagnostics p))
  else Ret p.

(** One check of the monitor. *)
Definition checkAndResize (p : Pool) : exec Pool :=
  let stats := GetStats p in
  if AllocCount stats <? 100 then Ret p else
  let currentSize := s_MaxObjects stats in
  let missRate := fractions (MissCount stats) (AllocCount stats) in
  let growthFactor := fadd unit (fmul missRate (maxGrowthRate p)) in
  let shrinkFactor := fsub unit (fmul (HitRatio stats) (maxGrowthRate p)) in
  if HitRatio stats <? resizeThreshold p then
    let newSize := trunc (fmul (of_int currentSize) growthFactor) in
    let maxSize := currentSize * 2 in
    let newSize := if newSize >? maxSize then maxSize else newSize in
    if newSize >? currentSize
    then do! p := Resize newSize p in Ret (AddEvent (mkPoolEvent "grow" currentSize newSize stats) p) else Ret p
  else if (HitRatio stats >? fractions 98 100) && (currentSize >? 32) then
    let newSize := trunc (fmul (of_int currentSize) shrinkFactor) in
    let newSize := if newSize <? 32 then 32 else newSize in
    if newSize <? currentSize
    then do! p := Resize newSize p in Ret (AddEvent (mkPoolEvent "shrink" currentSize newSize stats) p) else Ret p
  else Ret p.

(** ** The global pools *)

(** The loop [for p < n { p <<= 1 }] on a 64-bit int. *)
Fixpoint double_until (fuel : nat) (n p : Z) : exec Z :=
  match fuel with
  | O => OutOfFuel
  | S fuel => if p <? n then double_until fuel n (s64 (Z.shiftl p 1)) else Ret p
  end.

Definition nextPowerOf2 (fuel : nat) (n : Z) : exec Z :=
  if n <=? 0 then Ret 1 else
  if Z.land n (n - 1) =? 0 then Ret n else double_until fuel n 1.

Abbreviation PoolManager := (gmap Z Pool).

Definition GetGlobalPool (size : Z) (pm : PoolManager) : exec (PoolManager * Pool) :=
  match pm !! size with
  | Some p => Ret (pm, p)
  | None => do! p := NewPool (mkPoolConfig ("global-" +:+ pretty size) size 50 1000 true 0 0) in Ret (<[size := p]> pm, p)
  end.

(** [buf[:size]] of a slice of [poolSize] bytes. *)
Definition GetBuffer (fuel : nat) (choice : option nat) (size : Z) (pm : PoolManager) : exec (PoolManager * bytes) :=
  do! poolSize := nextPowerOf2 fuel size in
  do! g := GetGlobalPool poolSize pm in
  let '(pm, pool) := g in
  do! got := Get choice pool in
  let '(pool, buf) := got in
  let pm := <[poolSize := pool]> pm in
  if (size <? 0) || (size >? Z.of_nat (length buf)) then Panic else Ret (pm, take (Z.to_nat size) buf).

(** A slice given back is its capacity's worth of bytes. *)
Definition PutBuffer (full : bytes) (pm : PoolManager) : exec PoolManager :=
  if decide (full = []) then Ret pm else
  let poolSize := Z.of_nat (length full) in
  do! g := GetGlobalPool poolSize pm in
  let '(pm, pool) := g in Ret (<[poolSize := Put full pool]> pm).

(** ** [BufferPool] *)

Definition sizes : list Z := [32; 64; 128; 256; 512; 1024; 2048; 4096; 8192; 16384; 32768; 65536].
Definition findPoolSize (size : Z) : Z :=
  match List.find (fun s => size <=? s) sizes with Some s => s | None => 0 end.

(** The capacities of the idle slices of each pool, and the usage counts. *)
Record BufferPool := mkBufferPool { pools : gmap Z (list Z); b_stats : gmap Z Z }.
Definition NewBufferPool : BufferPool :=
  mkBufferPool (foldl (fun m s => <[s := []]> m) ∅ sizes) (foldl (fun m s => <[s := 0]> m) ∅ sizes).

(** The capacity of the slice that is returned, whose length is 0. *)
Definition bp_Get (choice : option nat) (size : Z) (bp : BufferPool) : BufferPool * Z :=
  let poolSize := findPoolSize size in
  if poolSize =? 0 then (bp, size) else
  let st := <[poolSize := s64 (default 0 (b_stats bp !! poolSize) + 1)]> (b_stats bp) in
  let q := default [] (pools bp !! poolSize) in
  match choice with
  | Some i =>
    match q !! i with
    | Some cap => (mkBufferPool (<[poolSize := take i q ++ drop (S i) q]> (pools bp)) st, cap)
    | None => (mkBufferPool (pools bp) st, poolSize)
    end
  | None => (mkBufferPool (pools bp) st, poolSize)
  end.

Definition bp_Put (len cap : Z) (bp : BufferPool) : BufferPool :=
  if len =? 0 then bp else
  let poolSize := findPoolSize cap in
  if poolSize =? 0 then bp else
  mkBufferPool (<[poolSize := cap :: default [] (pools bp !! poolSize)]> (pools bp))
    (<[poolSize := s64 (default 0 (b_stats bp !! poolSize) - 1)]> (b_stats bp)).

(** ** [FastBuffer]

    The contents of a buffer are a list that is in memory; the sizes of its
    allocations are not bounded by [maxAlloc] here. *)

Record FastBuffer := mkFast { data : bytes; pos : nat }.
Definition NewFastBuffer (size : nat) : FastBuffer := mkFast (replicate size 0) 0.

(** [copy(dst[at:], src)] *)
Definition copy_at (at_ : nat) (src dst : bytes) : bytes :=
  take at_ dst ++ take (length dst - at_) src ++ drop (at_ + length src) dst.

Definition growTo (size : nat) (fb : FastBuffer) : FastBuffer :=
  mkFast (copy_at 0 (take (pos fb) (data fb)) (replicate size 0)) (pos fb).
Definition grow (fb : FastBuffer) : FastBuffer := growTo (length (data fb) * 2) fb.

Definition Write (p : bytes) (fb : FastBuffer) : FastBuffer :=
  let fb := if (length (data fb) <? pos fb + length p)%nat
            then let newSize := (length (data fb) * 2)%nat in
                 growTo (if (newSize <? pos fb + length p)%nat then pos fb + length p else newSize)%nat fb
            else fb in
  mkFast (copy_at (pos fb) p (data fb)) (pos fb + length p).

(** The store panics when there is no room after [grow]. *)
Definition WriteByte (b : Z) (fb : FastBuffer) : exec FastBuffer :=
  let fb := if (length (data fb) <=? pos fb)%nat then grow fb else fb in
  if (pos fb <? length (data fb))%nat then Ret (mkFast (<[pos fb := b]> (data fb)) (S (pos fb))) else Panic.

Definition WriteString (s : bytes) (fb : FastBuffer) : FastBuffer :=
  let fb := if (length (data fb) <? pos fb + length s)%nat then growTo (pos fb + length s) fb else fb in
  mkFast (copy_at (pos fb) s (data fb)) (pos fb + length s).

Definition Bytes (fb : FastBuffer) : bytes := take (pos fb) (data fb).
Definition Reset (fb : FastBuffer) : FastBuffer := mkFast (data fb) 0.
Definition Len (fb : FastBuffer) : nat := pos fb.
Definition Cap (fb : FastBuffer) : nat := length (data fb).

End Pool.
