(* ===== verification/PoolSpec.v ===== *)
(** * Properties of the pools and buffers

    - [FastBuffer] refines a list of bytes;
    - the next power of two: the least one, when it fits, and the loop that
      never ends otherwise;
    - buffers from the global pools have the size asked for and are zero,
      whatever was put back;
    - what resizing does not do, and the capacities of [BufferPool]. *)
From stdpp Require Import base gmap strings list numbers fin_maps.
From Stdlib Require Import ZArith Lia.
From S2P Require Import Prelude Float64 Pool.

Module PoolSpec.
Import Float64 Pool.

(** ** [FastBuffer] refines a list *)

Lemma copy_at_length at_ src dst :
  (at_ + length src <= length dst)%nat -> length (copy_at at_ src dst) = length dst.
Proof.
  intros Hl. unfold copy_at. rewrite !length_app, !length_take, length_drop. lia.
Qed.

Lemma take_copy_at at_ src dst :
  (at_ + length src <= length dst)%nat -> take (at_ + length src) (copy_at at_ src dst) = take at_ dst ++ src.
Proof.
  intros Hl. unfold copy_at. rewrite (take_ge src) by lia. rewrite app_assoc.
  rewrite take_app_length'; [done|]. rewrite length_app, length_take. lia.
Qed.

Definition fast_ok (fb : FastBuffer) : Prop := (pos fb <= length (data fb))%nat /\ (0 < length (data fb))%nat.

Lemma Bytes_length fb : fast_ok fb -> length (Bytes fb) = pos fb.
Proof. intros [Hp _]. unfold Bytes. rewrite length_take. lia. Qed.

Lemma growTo_spec size fb :
  fast_ok fb -> (pos fb <= size)%nat -> (0 < size)%nat ->
  fast_ok (growTo size fb) /\ Bytes (growTo size fb) = Bytes fb /\ length (data (growTo size fb)) = size
  /\ pos (growTo size fb) = pos fb.
Proof.
  intros Hok Hs H0. pose proof (Bytes_length fb Hok) as Hb. unfold growTo, fast_ok, Bytes in *. cbn [data pos].
  assert (length (copy_at 0 (take (pos fb) (data fb)) (replicate size 0)) = size) as Hlen
    by (rewrite copy_at_length; rewrite ?length_replicate; lia).
  rewrite Hlen. split_and!; [lia..| |done|done].
  pose proof (take_copy_at 0 (take (pos fb) (data fb)) (replicate size 0)) as E.
  rewrite length_replicate, Hb in E. cbn [Nat.add] in E. rewrite E by lia. by rewrite take_0.
Qed.

Lemma append_spec p fb :
  fast_ok fb -> (pos fb + length p <= length (data fb))%nat ->
  fast_ok (mkFast (copy_at (pos fb) p (data fb)) (pos fb + length p))
  /\ Bytes (mkFast (copy_at (pos fb) p (data fb)) (pos fb + length p)) = Bytes fb ++ p.
Proof.
  intros Hok Hl. unfold fast_ok, Bytes in *. cbn [data pos]. rewrite copy_at_length by done.
  split; [lia|]. by rewrite take_copy_at.
Qed.

Lemma Write_spec p fb : fast_ok fb -> fast_ok (Write p fb) /\ Bytes (Write p fb) = Bytes fb ++ p.
Proof.
  intros Hok. unfold Write. cbv zeta.
  destruct (Nat.ltb_spec (length (data fb)) (pos fb + length p)) as [Hfull|Hroom]; [|by apply append_spec].
  set (size := if (_ <? _)%nat then _ else _).
  assert (pos fb + length p <= size)%nat as Hs
    by (unfold size; destruct (Nat.ltb_spec (length (data fb) * 2) (pos fb + length p)); lia).
  destruct (growTo_spec size fb Hok) as (Hok' & Hb & Hl & Hp); [lia|destruct Hok; lia|].
  rewrite <- Hb. apply append_spec; [done|]. rewrite Hl, Hp. lia.
Qed.

Lemma WriteString_spec s fb : fast_ok fb -> fast_ok (WriteString s fb) /\ Bytes (WriteString s fb) = Bytes fb ++ s.
Proof.
  intros Hok. unfold WriteString. cbv zeta.
  destruct (Nat.ltb_spec (length (data fb)) (pos fb + length s)) as [Hfull|Hroom]; [|by apply append_spec].
  destruct (growTo_spec (pos fb + length s) fb Hok) as (Hok' & Hb & Hl & Hp); [lia|destruct Hok; lia|].
  rewrite <- Hb. apply append_spec; [done|]. rewrite Hl, Hp. lia.
Qed.

Lemma WriteByte_spec b fb :
  fast_ok fb -> exists fb', WriteByte b fb = Ret fb' /\ fast_ok fb' /\ Bytes fb' = Bytes fb ++ [b].
Proof.
  intros Hok. unfold WriteByte. cbv zeta.
  assert (forall fb1, fast_ok fb1 -> (pos fb1 < length (data fb1))%nat ->
    exists fb', (if (pos fb1 <? length (data fb1))%nat then Ret (mkFast (<[pos fb1 := b]> (data fb1)) (S (pos fb1)))
                 else Panic) = Ret fb' /\ fast_ok fb' /\ Bytes fb' = Bytes fb1 ++ [b]) as Hput.
  { intros fb1 Hok1 Hlt. destruct (Nat.ltb_spec (pos fb1) (length (data fb1))); [|lia].
    eexists. split; [reflexivity|]. unfold fast_ok, Bytes in *. cbn [data pos]. rewrite length_insert.
    split; [lia|]. rewrite (take_S_r _ _ b) by (by apply list_lookup_insert_eq).
    by rewrite take_insert_ge by lia. }
  destruct (Nat.leb_spec (length (data fb)) (pos fb)) as [Hfull|Hroom]; [|by apply Hput].
  destruct Hok as [Hp H0]. unfold grow.
  destruct (growTo_spec (length (data fb) * 2) fb) as (Hok' & Hb & Hl & Hp'); [done|lia|lia|].
  rewrite <- Hb. apply Hput; [done|]. rewrite Hl, Hp'. lia.
Qed.

Inductive fast_op := FWrite (p : bytes) | FByte (b : Z) | FString (s : bytes) | FReset.
Definition run_fast (fb : FastBuffer) (op : fast_op) : exec FastBuffer :=
  match op with
  | FWrite p => Ret (Write p fb)
  | FByte b => WriteByte b fb
  | FString s => Ret (WriteString s fb)
  | FReset => Ret (Reset fb)
  end.
Fixpoint run_fasts (fb : FastBuffer) (ops : list fast_op) : exec FastBuffer :=
  match ops with
  | [] => Ret fb
  | op :: ops => do! fb := run_fast fb op in run_fasts fb ops
  end.
(** The specification: a list that grows at its end. *)
Definition spec_fast (bs : bytes) (op : fast_op) : bytes :=
  match op with
  | FWrite p => bs ++ p
  | FByte b => bs ++ [b]
  | FString s => bs ++ s
  | FReset => []
  end.

Lemma run_fast_refines fb op :
  fast_ok fb -> exists fb', run_fast fb op = Ret fb' /\ fast_ok fb' /\ Bytes fb' = spec_fast (Bytes fb) op.
Proof.
  intros Hok. destruct op as [p|b|s|]; cbn [run_fast spec_fast].
  - eexists. split; [reflexivity|]. by apply Write_spec.
  - by apply WriteByte_spec.
  - eexists. split; [reflexivity|]. by apply WriteString_spec.
  - eexists. split; [reflexivity|]. split; [|by unfold Bytes; cbn]. destruct Hok. split; cbn; lia.
Qed.

(** C22: the fast buffer is a growing list: from a buffer made with a positive
    size, every sequence of writes and resets runs without a panic, and the
    contents are what the same sequence makes of a list of bytes. *)
Theorem fast_buffer_refines_list size ops :
  (0 < size)%nat ->
  exists fb, run_fasts (NewFastBuffer size) ops = Ret fb /\ Bytes fb = foldl spec_fast [] ops
    /\ Len fb = length (foldl spec_fast [] ops).
Proof.
  intros Hs. assert (fast_ok (NewFastBuffer size)) as H0.
  { split; cbn; rewrite length_replicate; lia. }
  assert (Bytes (NewFastBuffer size) = []) as Hb by reflexivity. rewrite <- Hb. clear Hb.
  revert H0. generalize (NewFastBuffer size). induction ops as [|op ops IH]; intros fb Hok.
  - exists fb. split_and!; [done..|]. by rewrite <- Bytes_length.
  - destruct (run_fast_refines fb op Hok) as (fb1 & E & Hok1 & Hb1). cbn [run_fasts foldl]. rewrite E, <- Hb1.
    by apply IH.
Qed.

Lemma fast_buffer_refines_list_witness :
  exists fb, run_fasts (NewFastBuffer 1) [FByte 1; FByte 2; FWrite [3; 4; 5]; FString [6]] = Ret fb
    /\ Bytes fb = [1; 2; 3; 4; 5; 6].
Proof.
  destruct (fast_buffer_refines_list 1 [FByte 1; FByte 2; FWrite [3; 4; 5]; FString [6]]) as (fb & E & Hb & _).
  - lia.
  - exists fb. split; [exact E|exact Hb].
Defined.

(** A buffer of size 0 doubles to 0: its first byte panics. *)
Lemma empty_buffer_panics b : WriteByte b (NewFastBuffer 0) = Panic.
Proof. reflexivity. Qed.

(** ** Powers of two *)

Lemma double_until_spec fuel : forall n p k,
  p = 2 ^ k -> 0 <= k -> p < 2 * n -> 0 < n <= 2 ^ 62 -> k + Z.of_nat fuel >= 64 -> k <= 62 ->
  exists k', double_until fuel n p = Ret (2 ^ k') /\ n <= 2 ^ k' < 2 * n /\ 0 <= k' <= 62.
Proof.
  induction fuel as [|fuel IH]; intros n p k -> Hk Hp Hn Hf Hk2; [lia|]. cbn [double_until].
  destruct (Z.ltb_spec (2 ^ k) n) as [Hlt|Hge]; [|exists k; split; [done|lia]].
  assert (k < 62) as Hk3.
  { destruct (Z.le_gt_cases 62 k); [|done]. assert (2 ^ 62 <= 2 ^ k) by (apply Z.pow_le_mono_r; lia). lia. }
  assert (Z.shiftl (2 ^ k) 1 = 2 ^ (k + 1)) as ->.
  { rewrite Z.shiftl_mul_pow2 by lia. by rewrite <- Z.pow_add_r by lia. }
  assert (2 ^ (k + 1) = 2 * 2 ^ k) as E by (rewrite Z.pow_add_r by lia; lia).
  assert (2 ^ (k + 1) <= 2 ^ 62) by (apply Z.pow_le_mono_r; lia).
  rewrite wraps_small by lia. apply (IH n (2 ^ (k + 1)) (k + 1)); lia.
Qed.

Lemma pool_land_pred_pow2 n : 0 < n -> Z.land n (n - 1) = 0 -> n = 2 ^ Z.log2 n.
Proof.
  intros Hn Hl. destruct (Z.log2_spec n Hn) as [Hlo Hhi]. set (k := Z.log2 n) in *.
  assert (0 <= k) as Hk by apply Z.log2_nonneg.
  destruct (Z.eq_dec n (2 ^ k)) as [|Hne]; [done|]. exfalso.
  assert (Z.testbit n k = true) as H1 by (apply Z.bit_log2; lia).
  assert (Z.log2 (n - 1) = k) as Hk'.
  { apply Z.log2_unique; [done|]. rewrite Z.pow_succ_r in * by done. lia. }
  assert (Z.testbit (n - 1) k = true) as H2.
  { rewrite <- Hk'. apply Z.bit_log2. assert (0 < 2 ^ k) by (apply Z.pow_pos_nonneg; lia). lia. }
  assert (Z.testbit (Z.land n (n - 1)) k = true) as H3 by (by rewrite Z.land_spec, H1, H2).
  rewrite Hl, Z.bits_0 in H3. done.
Qed.

(** The next power of two: for [0 < n <= 2^62] the loop ends within 64
    rounds with the least power of two that is not below [n]; for every larger
    64-bit [n] that is not a power of two it never ends, since the shift loses
    its only bit. *)
Theorem nextPowerOf2_exact n :
  (0 < n <= 2 ^ 62 -> exists k, nextPowerOf2 64 n = Ret (2 ^ k) /\ 0 <= k <= 62 /\ n <= 2 ^ k < 2 * n) /\
  (2 ^ 62 < n < 2 ^ 63 -> forall fuel, nextPowerOf2 fuel n = OutOfFuel).
Proof.
  unfold nextPowerOf2. split.
  - intros Hn. destruct (Z.leb_spec n 0); [lia|]. destruct (Z.eqb_spec (Z.land n (n - 1)) 0) as [Hl|_].
    + pose proof (pool_land_pred_pow2 n ltac:(lia) Hl) as E. exists (Z.log2 n). rewrite <- E. split; [done|].
      split; [|lia]. split; [apply Z.log2_nonneg|].
      apply (Z.pow_le_mono_r_iff 2); [lia|lia|]. rewrite <- E. lia.
    + destruct (double_until_spec 64 n 1 0) as (k & E & Hb & Hk); [done|lia..|]. exists k. done.
  - intros Hn fuel. destruct (Z.leb_spec n 0); [lia|].
    destruct (Z.eqb_spec (Z.land n (n - 1)) 0) as [Hl|_].
    + pose proof (pool_land_pred_pow2 n ltac:(lia) Hl) as E. exfalso.
      assert (62 < Z.log2 n < 63); [|lia].
      split; apply (Z.pow_lt_mono_r_iff 2); rewrite <- ?E; try lia; apply Z.log2_nonneg || lia.
    + assert (forall fuel, double_until fuel n 0 = OutOfFuel) as Hz.
      { clear fuel. induction fuel as [|fuel IH]; [done|]. cbn [double_until].
        destruct (Z.ltb_spec 0 n); [|lia]. exact IH. }
      assert (forall m fuel k, (Z.of_nat m = 63 - k) -> 0 <= k <= 62 -> double_until fuel n (2 ^ k) = OutOfFuel) as Hgen.
      { clear fuel. induction m as [|m IH]; intros fuel k Hm Hk; [lia|]. destruct fuel as [|fuel]; [done|].
        cbn [double_until]. assert (2 ^ k <= 2 ^ 62) by (apply Z.pow_le_mono_r; lia).
        destruct (Z.ltb_spec (2 ^ k) n); [|lia].
        assert (Z.shiftl (2 ^ k) 1 = 2 ^ (k + 1)) as ->.
        { rewrite Z.shiftl_mul_pow2 by lia. by rewrite <- Z.pow_add_r by lia. }
        destruct (Z.eq_dec k 62) as [->|Hk62].
        - change (s64 (2 ^ (62 + 1))) with (- 2 ^ 63). destruct fuel as [|fuel]; [done|]. cbn [double_until].
          destruct (Z.ltb_spec (- 2 ^ 63) n); [|lia]. change (s64 (Z.shiftl (- 2 ^ 63) 1)) with 0. apply Hz.
        - assert (2 ^ (k + 1) <= 2 ^ 62) by (apply Z.pow_le_mono_r; lia).
          assert (0 < 2 ^ (k + 1)) by (apply Z.pow_pos_nonneg; lia).
          rewrite wraps_small by lia. apply IH; lia. }
      apply (Hgen 63%nat fuel 0); lia.
Qed.

(** ** Buffers of the global pools *)

Lemma fmap_zero (b : bytes) : (fun _ : Z => 0) <$> b = replicate (length b) 0.
Proof. induction b as [|x b IH]; [done|]. cbn. f_equal. exact IH. Qed.

Lemma make_ok size : 0 <= size <= maxAlloc -> make size = Ret (replicate (Z.to_nat size) 0).
Proof. intros Hs. unfold make. destruct (Z.ltb_spec size 0), (Z.gtb_spec size maxAlloc); lia || done. Qed.
Lemma make_large size : maxAlloc < size -> make size = Panic.
Proof. intros Hs. unfold make. destruct (Z.gtb_spec size maxAlloc); [by rewrite orb_true_r|lia]. Qed.

Lemma sync_get_size choice p p' b : sync_get choice p = Ret (p', b) -> objectSize p' = objectSize p.
Proof. unfold sync_get, sync_new, make. intros H. repeat case_match; by simplify_eq. Qed.
Lemma Get_size choice p p' b : Get choice p = Ret (p', b) -> objectSize p' = objectSize p.
Proof.
  unfold Get. intros H.
  destruct (match objects p with Some (obj :: rest, cap) => _ | _ => _ end) as [[p1 obj]| |] eqn:E; [|done..].
  assert (objectSize p1 = objectSize p) as <-.
  { repeat case_match; simplify_eq; try done; by eapply sync_get_size. }
  repeat case_match; by simplify_eq.
Qed.

Lemma Get_clean choice p :
  0 < objectSize p <= maxAlloc ->
  exists p', Get choice p = Ret (p', replicate (Z.to_nat (objectSize p)) 0) /\ objectSize p' = objectSize p.
Proof.
  intros Hs. unfold Get.
  assert (exists p1 obj, match objects p with
    | Some (obj :: rest, cap) =>
      Ret (set_counts (allocCount p) (s64 (hitCount p + 1)) (missCount p) (idle p) (Some (rest, cap)) p, obj)
    | _ => sync_get choice p end = Ret (p1, obj) /\ objectSize p1 = objectSize p) as (p1 & obj & -> & Hp).
  { unfold sync_get, sync_new. rewrite make_ok by lia. repeat case_match; by do 2 eexists. }
  rewrite Hp. destruct (Z.gtb_spec (objectSize p) 0); [|lia].
  destruct (Z.eqb_spec (Z.of_nat (length obj)) (objectSize p)) as [E|_].
  - rewrite fmap_zero. eexists. split; [|done]. do 3 f_equal. lia.
  - rewrite make_ok by lia. by eexists.
Qed.

Definition manager_ok (pm : PoolManager) : Prop := map_Forall (fun size p => objectSize p = size) pm.

Lemma NewPool_size c p : NewPool c = Ret p -> objectSize p = c_ObjectSize c.
Proof.
  unfold NewPool. cbv zeta.
  destruct (if InitialObjects c >? 0 then _ else _) as [objs| |]; [|done..].
  intros H. injection H as H. by rewrite <- H.
Qed.
Lemma NewPool_total c :
  0 <= c_ObjectSize c <= maxAlloc -> 16 * InitialObjects c <= maxAlloc - 96 -> exists p, NewPool c = Ret p.
Proof.
  intros Hs Hn. unfold NewPool. cbv zeta. destruct (Z.gtb_spec (InitialObjects c) 0); [|by eexists].
  unfold make_chan. destruct (Z.ltb_spec (InitialObjects c) 0); [lia|].
  destruct (Z.gtb_spec (16 * InitialObjects c) (maxAlloc - 96)); [lia|]. cbn [orb].
  unfold make_all. rewrite make_ok by done. destruct (Z.to_nat (InitialObjects c)); by eexists.
Qed.

Lemma GetGlobalPool_some size pm pm' p :
  manager_ok pm -> GetGlobalPool size pm = Ret (pm', p) -> manager_ok pm' /\ objectSize p = size.
Proof.
  intros Hpm. unfold GetGlobalPool. destruct (pm !! size) as [p0|] eqn:E.
  - intros [= <- <-]. split; [done|]. by apply (Hpm _ _ E).
  - destruct (NewPool _) as [q| |] eqn:Eq; [|done..]. apply NewPool_size in Eq.
    intros [= <- <-]. split; [by apply map_Forall_insert_2|done].
Qed.

Lemma GetGlobalPool_ok size pm :
  0 < size <= maxAlloc -> manager_ok pm ->
  exists pm' p, GetGlobalPool size pm = Ret (pm', p) /\ manager_ok pm' /\ objectSize p = size.
Proof.
  intros Hs Hpm. assert (exists q, GetGlobalPool size pm = Ret q) as [[pm' p] E].
  { unfold GetGlobalPool. destruct (pm !! size); [by eexists|].
    edestruct NewPool_total as [q ->]; [| |by eexists]; cbn [c_ObjectSize InitialObjects]; unfold maxAlloc in *; lia. }
  do 2 eexists. split; [done|]. by eapply GetGlobalPool_some.
Qed.

Lemma Resize_size n p p' : Resize n p = Ret p' -> objectSize p' = objectSize p.
Proof. unfold Resize. intros H. repeat case_match; by simplify_eq. Qed.
Lemma check_cases p :
  checkAndResize p = Ret p \/ exists n e, checkAndResize p = do! q := Resize n p in Ret (AddEvent e q).
Proof.
  unfold checkAndResize. cbv zeta.
  repeat match goal with |- context [if ?b then _ else _] => destruct b end;
    first [left; reflexivity|right; do 2 eexists; reflexivity].
Qed.
Lemma check_size p p' : checkAndResize p = Ret p' -> objectSize p' = objectSize p.
Proof.
  destruct (check_cases p) as [->|(n & e & ->)]; [by intros [= ->]|].
  destruct (Resize n p) as [q| |] eqn:E; [|done..]. intros H. injection H as <-. by apply Resize_size in E.
Qed.

(** The histories of the global pools: buffers taken and given back, and checks
    of the pools' monitors. *)
Inductive pools_run : PoolManager -> Prop :=
| pools_init : pools_run ∅
| pools_get choice size pm pm' b : pools_run pm ->
    GetBuffer 64 choice size pm = Ret (pm', b) -> pools_run pm'
| pools_put full pm pm' : pools_run pm -> PutBuffer full pm = Ret pm' -> pools_run pm'
| pools_monitor size pm p p' : pools_run pm -> pm !! size = Some p -> checkAndResize p = Ret p' ->
    pools_run (<[size := p']> pm).

Lemma pow2_of size : 0 <= size <= maxAlloc ->
  exists q, nextPowerOf2 64 size = Ret q /\ 0 < q <= maxAlloc /\ size <= q.
Proof.
  intros Hs. unfold maxAlloc in *. destruct (Z.eq_dec size 0) as [->|Hne]; [by exists 1|].
  unfold nextPowerOf2. destruct (Z.leb_spec size 0); [lia|].
  destruct (Z.eqb_spec (Z.land size (size - 1)) 0); [exists size; split_and!; [done|lia..]|].
  destruct (double_until_spec 64 size 1 0) as (k & E & Hb & Hk); [done|lia..|].
  exists (2 ^ k). split_and!; [done|lia| |lia].
  destruct (Z.le_gt_cases k 48); [by apply Z.pow_le_mono_r|].
  assert (2 ^ 49 <= 2 ^ k) by (apply Z.pow_le_mono_r; lia). lia.
Qed.

Lemma GetBuffer_ok choice size pm :
  0 <= size <= maxAlloc -> manager_ok pm ->
  exists pm', GetBuffer 64 choice size pm = Ret (pm', replicate (Z.to_nat size) 0).
Proof.
  intros Hs Hpm. unfold GetBuffer. destruct (pow2_of size Hs) as (q & -> & Hq & Hle).
  destruct (GetGlobalPool_ok q pm Hq Hpm) as (pm1 & p & -> & _ & Hp).
  destruct (Get_clean choice p) as (p1 & -> & Ho); [lia|].
  destruct (Z.ltb_spec size 0); [lia|]. rewrite length_replicate.
  destruct (Z.gtb_spec size (Z.of_nat (Z.to_nat (objectSize p)))); [lia|]. cbn.
  eexists. do 2 f_equal. rewrite take_replicate. f_equal. lia.
Qed.

Lemma pools_run_ok pm : pools_run pm -> manager_ok pm.
Proof.
  induction 1 as [|choice size pm pm' b _ IH Hg|full pm pm' _ IH Hp|size pm p p' _ IH Hp Hc].
  - apply map_Forall_empty.
  - unfold GetBuffer in Hg. destruct (nextPowerOf2 64 size) as [q| |]; [|done..].
    destruct (GetGlobalPool q pm) as [[pm1 p]| |] eqn:E; [|done..].
    destruct (GetGlobalPool_some _ _ _ _ IH E) as [Hok Ho].
    destruct (Get choice p) as [[p1 buf]| |] eqn:E1; [|done..]. cbv zeta in Hg. case_match; [done|]. simplify_eq.
    apply map_Forall_insert_2; [by eapply Get_size|done].
  - unfold PutBuffer in Hp. case_decide as Hf; [by simplify_eq|]. cbv zeta in Hp.
    destruct (GetGlobalPool _ pm) as [[pm1 p]| |] eqn:E; [|done..].
    destruct (GetGlobalPool_some _ _ _ _ IH E) as [Hok Ho].
    simplify_eq. apply map_Forall_insert_2; [|done]. unfold Put. repeat case_match; done.
  - apply map_Forall_insert_2; [|done]. rewrite (check_size _ _ Hc). by apply (IH _ _ Hp).
Qed.

(** C23: buffers are clean: whatever buffers were taken and given back and
    whatever the pools' monitors resized before, [GetBuffer] returns, for every
    size up to the largest allocation (2^48), exactly that many bytes, all zero:
    nothing of an earlier user shows.  (That memory may run out before is not
    modelled: a new pool pre-allocates 50 buffers.) *)
Theorem get_buffer_zeroed pm choice size :
  pools_run pm -> 0 <= size <= maxAlloc ->
  exists pm', GetBuffer 64 choice size pm = Ret (pm', replicate (Z.to_nat size) 0).
Proof. intros Hr Hs. apply GetBuffer_ok; [done|]. by apply pools_run_ok. Qed.

(** Above it the pre-allocation of a new pool panics. *)
Lemma get_buffer_too_large choice k pm :
  48 < k <= 62 -> pm !! (2 ^ k) = None -> GetBuffer 64 choice (2 ^ k) pm = Panic.
Proof.
  intros Hk Hpm. assert (maxAlloc < 2 ^ k) as Hl by (apply Z.pow_lt_mono_r; lia).
  assert (Z.land (2 ^ k) (2 ^ k - 1) = 0) as Hp2.
  { rewrite Z.sub_1_r, <- Z.ones_equiv, Z.land_ones by lia. by apply Z.mod_same, Z.pow_nonzero; lia. }
  unfold GetBuffer, nextPowerOf2. destruct (Z.leb_spec (2 ^ k) 0); [unfold maxAlloc in Hl; lia|].
  rewrite Hp2. cbn [Z.eqb]. unfold GetGlobalPool. rewrite Hpm. unfold NewPool. cbn [InitialObjects c_ObjectSize].
  change (50 >? 0) with true. change (make_chan 50) with (Ret ()). cbv iota zeta.
  unfold make_all. change (Z.to_nat 50) with (S 49). cbv iota. by rewrite make_large.
Qed.

Definition secret_pool : PoolManager := match PutBuffer [9; 9] ∅ with Ret pm => pm | _ => ∅ end.

Lemma get_buffer_zeroed_witness : exists pm', GetBuffer 64 (Some 0%nat) 2 secret_pool = Ret (pm', [0; 0]).
Proof.
  apply (get_buffer_zeroed secret_pool (Some 0%nat) 2).
  - apply (pools_put [9; 9] ∅); [apply pools_init|]. vm_compute. reflexivity.
  - vm_compute. split; discriminate.
Defined.

(** ** Resizing *)

(** Shrinking does nothing, and the size the monitor reads never changes. *)
Lemma shrink_is_noop newSize p objs cap :
  objects p = Some (objs, cap) -> newSize <= cap -> Resize newSize p = Ret p.
Proof.
  intros Ho Hn. unfold Resize. case_match; [done|]. rewrite Ho. destruct (Z.gtb_spec newSize cap); [lia|done].
Qed.
Lemma resize_keeps_stats newSize p p' : Resize newSize p = Ret p' -> statsMax p' = statsMax p.
Proof. unfold Resize. intros H. repeat case_match; by simplify_eq. Qed.

(** A pool at a hit ratio of 1 is reported as shrunk and is not. *)
Lemma shrink_reported :
  let p := mkPool "g" 1 64 100 200 0 [] (Some (replicate 64 [0], 64)) 64 true (fractions 8 10) (fractions 1 2) [] in
  exists p', checkAndResize p = Ret p' /\ objects p' = objects p /\ maxObjects p' = 64 /\
  ((fun e => (e_Type e, OldSize e, NewSize e)) <$> diagnostics p') = [("shrink", 64, 32)].
Proof. eexists. split; [vm_compute; reflexivity|]. done. Qed.

(** ** [BufferPool] *)

(** A slice of capacity 48 that is put back lands in the pool of 64-byte slices
    and is handed out to a request for 60. *)
Lemma buffer_too_small : snd (bp_Get (Some 0%nat) 60 (bp_Put 48 48 NewBufferPool)) = 48.
Proof. vm_compute. reflexivity. Qed.

(** A slice that was taken and not written to is not put back. *)
Lemma unused_buffer_dropped cap bp : bp_Put 0 cap bp = bp.
Proof. reflexivity. Qed.

End PoolSpec.
