(* ===== verification/Stores.v ===== *)
(** * In-memory stores ([src/pkg/storage/in_memory.go], [memory_store.go],
    [interface.go], [src/cmd/server/inmemory_store.go])

    - [InMemoryStorage], whose map holds pointers to the messages its callers
      keep using: the messages live in a [heap] and the store maps identifiers
      to addresses;
    - the counting store of [memory_store.go], which keeps nothing;
    - the store of the server command, with topics and consumer offsets;
    - [CompositeStore], which hands the same pointer to a primary store and, in
      goroutines of their own, to secondary stores.

    Go iterates over a map in an order of its choice: [iter] is that order, an
    argument.  Methods that hold the mutex are one step; the store of the server
    command has no mutex, and is modelled for callers that take turns. *)
From stdpp Require Import base gmap strings list numbers fin_maps pretty.
From Stdlib Require Import ZArith Lia.
From S2P Require Import Prelude Types Wire Ids.

Module Stores.
Import Types.

(** ** Data *)

Record TopicInfo := mkTopicInfo {
  ti_Name : TopicName; ti_Partitions : Z; ReplicationFactor : Z; ti_Config : option (gmap string string);
  ti_CreatedAt : Z
}.
Record PartitionInfo := mkPartitionInfo {
  pi_Topic : TopicName; pi_Partition : Z; Leader : string; Replicas : list string; ISR : list string
}.
Record ConsumerOffset := mkConsumerOffset {
  co_ConsumerID : string; co_Topic : TopicName; co_Partition : Z; co_Offset : Z; co_Timestamp : Z;
  co_Metadata : string
}.

Definition set_Offset (o : Z) (m : PortaskMessage) : PortaskMessage :=
  mkMessage (ID m) (Topic m) (Payload m) (Timestamp m) (Headers m) (Metadata m) (Priority m) (Status m)
    (Partition m) (Key m) (PartitionKey m) (ReplyTo m) (ExpiresAt m) (TTL m) o (Attempts m) (MaxRetry m)
    (CorrelationID m) (TraceID m) (_internal m).

(** The loop of the [Fetch] methods: matching messages are appended until there
    are [limit]; the limit is compared after the append. *)
Fixpoint collect (keep : PortaskMessage -> bool) (limit : Z) (result msgs : list PortaskMessage)
  : list PortaskMessage :=
  match msgs with
  | [] => result
  | msg :: msgs =>
    if keep msg then
      let result := result ++ [msg] in
      if Z.of_nat (length result) >=? limit then result else collect keep limit result msgs
    else collect keep limit result msgs
  end.

(** ** [InMemoryStorage] *)

Abbreviation heap := (gmap nat PortaskMessage).

Record InMemoryStorage := mkStorage { messages : gmap string nat; nextOffset : Z }.

Definition NewInMemoryStorage : InMemoryStorage := mkStorage ∅ 0.

(** Assignment through a pointer. *)
Definition assign (p : nat) (f : PortaskMessage -> PortaskMessage) (h : heap) : heap := alter f p h.

Definition Store (p : nat) (h : heap) (s : InMemoryStorage) : heap * InMemoryStorage :=
  let h := assign p (set_Offset (nextOffset s)) h in
  match h !! p with
  | Some message => (h, mkStorage (<[ID message := p]> (messages s)) (s64 (nextOffset s + 1)))
  | None => (h, s)
  end.

Definition StoreBatch (batch : list nat) (h : heap) (s : InMemoryStorage) : InMemoryStorage :=
  foldl (fun s p => match h !! p with
                    | Some msg => mkStorage (<[ID msg := p]> (messages s)) (nextOffset s)
                    | None => s
                    end) s batch.

(** The messages the map refers to, in the order of the iteration. *)
Definition deref (iter : gmap string nat -> list nat) (h : heap) (s : InMemoryStorage) : list PortaskMessage :=
  omap (fun p => h !! p) (iter (messages s)).

Definition wanted (topic : TopicName) (partition offset : Z) (msg : PortaskMessage) : bool :=
  bool_decide (Topic msg = topic) && ((partition <? 0) || (Partition msg =? partition)) && (Offset msg >=? offset).

Definition Fetch (iter : gmap string nat -> list nat) (topic : TopicName) (partition offset limit : Z) (h : heap)
  (s : InMemoryStorage) : list PortaskMessage :=
  collect (wanted topic partition offset) limit [] (deref iter h s).

Definition FetchByID (messageID : MessageID) (h : heap) (s : InMemoryStorage) : option PortaskMessage :=
  p ← messages s !! messageID; h !! p.

Definition Delete (messageID : MessageID) (s : InMemoryStorage) : InMemoryStorage :=
  mkStorage (delete messageID (messages s)) (nextOffset s).
Definition DeleteBatch (messageIDs : list MessageID) (s : InMemoryStorage) : InMemoryStorage :=
  foldl (fun s id => Delete id s) s messageIDs.

(** The legacy methods.  [string(rune(n))] is the UTF-8 encoding of [n], and of
    U+FFFD when [n] is no code point. *)
Definition utf8 (r : Z) : bytes :=
  let r := if (0 <=? r) && (r <=? 0x10FFFF) && negb ((0xD800 <=? r) && (r <=? 0xDFFF)) then r else 0xFFFD in
  if r <? 0x80 then [r]
  else if r <? 0x800 then [0xC0 + r / 64; 0x80 + r mod 64]
  else if r <? 0x10000 then [0xE0 + r / 4096; 0x80 + (r / 64) mod 64; 0x80 + r mod 64]
  else [0xF0 + r / 262144; 0x80 + (r / 4096) mod 64; 0x80 + (r / 64) mod 64; 0x80 + r mod 64].

Definition legacy_id (topic : string) (n : nat) : string :=
  topic +:+ "_" +:+ Ids.string_of_bytes (utf8 (s32 (Z.of_nat n))).

Definition StoreMessage (p : nat) (topic : string) (message : bytes) (h : heap) (s : InMemoryStorage)
  : heap * InMemoryStorage :=
  let id := legacy_id topic (size (messages s)) in
  let msg := mkMessage id topic message 0 None None 0 StatusPending 0 "" "" "" 0 0 0 0 0 "" "" zero_internal in
  (<[p := msg]> h, mkStorage (<[id := p]> (messages s)) (nextOffset s)).

Definition GetMessages (iter : gmap string nat -> list nat) (topic : string) (offset : Z) (h : heap)
  (s : InMemoryStorage) : list bytes :=
  Payload <$> filter (fun msg => Topic msg = topic) (deref iter h s).

(** [GetTopics] collects the keys of the map of messages. *)
Definition GetTopics (s : InMemoryStorage) : gset string := dom (messages s).

(** ** The counting store of [memory_store.go] *)

Record CountingStore := mkCounting { counter : Z; writeOps : Z; readOps : Z; bytesIn : Z; bytesOut : Z }.

Definition NewInMemoryStore : CountingStore := mkCounting 0 0 0 0 0.
Definition ms_Store (msg : PortaskMessage) (s : CountingStore) : CountingStore :=
  mkCounting (s64 (counter s + 1)) (s64 (writeOps s + 1)) (readOps s)
    (s64 (bytesIn s + Z.of_nat (length (Payload msg)))) (bytesOut s).
(** A nil batch is [None]. *)
Definition ms_StoreBatch (batch : option (list PortaskMessage)) (s : CountingStore) : CountingStore :=
  match batch with
  | None | Some [] => s
  | Some msgs =>
    let s := mkCounting (s64 (counter s + Z.of_nat (length msgs))) (s64 (writeOps s + 1)) (readOps s) (bytesIn s)
               (bytesOut s) in
    foldl (fun s msg => mkCounting (counter s) (writeOps s) (readOps s)
                          (s64 (bytesIn s + Z.of_nat (length (Payload msg)))) (bytesOut s)) s msgs
  end.
Definition ms_Fetch (s : CountingStore) : CountingStore * list PortaskMessage :=
  (mkCounting (counter s) (writeOps s) (s64 (readOps s + 1)) (bytesIn s) (bytesOut s), []).
(** Message count and bytes used. *)
Definition ms_Stats (s : CountingStore) : Z * Z := (counter s, bytesIn s).
Definition ms_Reset (s : CountingStore) : CountingStore := mkCounting 0 0 0 0 0.

(** ** The store of the server command *)

Record ServerStore := mkServerStore {
  sv_messages : gmap string PortaskMessage;
  sv_topics : gmap string TopicInfo;
  sv_offsets : gmap string ConsumerOffset
}.

Definition sv_New : ServerStore := mkServerStore ∅ ∅ ∅.

Definition sv_Store (message : PortaskMessage) (s : ServerStore) : ServerStore :=
  mkServerStore (<[ID message := message]> (sv_messages s)) (sv_topics s) (sv_offsets s).
Definition sv_StoreBatch (batch : list PortaskMessage) (s : ServerStore) : ServerStore :=
  foldl (fun s msg => sv_Store msg s) s batch.

Definition sv_Fetch (iter : gmap string PortaskMessage -> list PortaskMessage) (topic : TopicName)
  (partition offset limit : Z) (s : ServerStore) : list PortaskMessage :=
  collect (fun msg => bool_decide (Topic msg = topic)) limit [] (iter (sv_messages s)).

Definition sv_FetchByID (messageID : MessageID) (s : ServerStore) : res string PortaskMessage :=
  match sv_messages s !! messageID with
  | Some msg => Ok msg
  | None => Err ("message not found: " +:+ messageID)
  end.
Definition sv_Delete (messageID : MessageID) (s : ServerStore) : ServerStore :=
  mkServerStore (delete messageID (sv_messages s)) (sv_topics s) (sv_offsets s).
Definition sv_DeleteBatch (messageIDs : list MessageID) (s : ServerStore) : ServerStore :=
  foldl (fun s id => sv_Delete id s) s messageIDs.

Definition sv_CreateTopic (topicInfo : TopicInfo) (s : ServerStore) : ServerStore :=
  mkServerStore (sv_messages s) (<[ti_Name topicInfo := topicInfo]> (sv_topics s)) (sv_offsets s).
Definition sv_DeleteTopic (topic : TopicName) (s : ServerStore) : ServerStore :=
  mkServerStore (sv_messages s) (delete topic (sv_topics s)) (sv_offsets s).
Definition sv_GetTopicInfo (topic : TopicName) (s : ServerStore) : res string TopicInfo :=
  match sv_topics s !! topic with
  | Some info => Ok info
  | None => Err ("topic not found: " +:+ topic)
  end.
Definition sv_ListTopics (iter : gmap string TopicInfo -> list TopicInfo) (s : ServerStore) : list TopicInfo :=
  iter (sv_topics s).
Definition sv_TopicExists (topic : TopicName) (s : ServerStore) : bool := bool_decide (is_Some (sv_topics s !! topic)).

Definition sv_GetPartitionInfo (topic : TopicName) (partition : Z) : PartitionInfo :=
  mkPartitionInfo topic partition "node-0" ["node-0"] ["node-0"].
Definition sv_GetPartitionCount (topic : TopicName) : Z := 1.
Definition sv_GetLatestOffset (topic : TopicName) (partition : Z) (s : ServerStore) : Z :=
  map_fold (fun _ msg count => if decide (Topic msg = topic) then count + 1 else count) 0 (sv_messages s).
Definition sv_GetEarliestOffset (topic : TopicName) (partition : Z) : Z := 0.

(** [fmt.Sprintf("%s_%s_%d", …)] *)
Definition offset_key (consumerID topic : string) (partition : Z) : string :=
  consumerID +:+ "_" +:+ topic +:+ "_" +:+ pretty partition.

Definition sv_CommitOffset (offset : ConsumerOffset) (s : ServerStore) : ServerStore :=
  mkServerStore (sv_messages s) (sv_topics s)
    (<[offset_key (co_ConsumerID offset) (co_Topic offset) (co_Partition offset) := offset]> (sv_offsets s)).
Definition sv_CommitOffsetBatch (offsets : list ConsumerOffset) (s : ServerStore) : ServerStore :=
  foldl (fun s o => sv_CommitOffset o s) s offsets.
Definition sv_GetOffset (consumerID topic : string) (partition : Z) (s : ServerStore) : ConsumerOffset :=
  match sv_offsets s !! offset_key consumerID topic partition with
  | Some o => o
  | None => mkConsumerOffset consumerID topic partition 0 0 ""
  end.
Definition sv_GetConsumerOffsets (iter : gmap string ConsumerOffset -> list ConsumerOffset) (consumerID : string)
  (s : ServerStore) : list ConsumerOffset :=
  filter (fun o => co_ConsumerID o = consumerID) (iter (sv_offsets s)).
Definition sv_ListConsumers (topic : TopicName) (s : ServerStore) : gset string :=
  map_fold (fun _ o acc => if decide (co_Topic o = topic) then {[co_ConsumerID o]} ∪ acc else acc) ∅ (sv_offsets s).

(** Message and topic counts of [Stats]. *)
Definition sv_Stats (s : ServerStore) : Z * Z :=
  (Z.of_nat (size (sv_messages s)), Z.of_nat (size (sv_topics s))).

(** ** [CompositeStore] *)

(** A store as [CompositeStore] uses it: it is given the pointer and may write
    through it. *)
Class HeapStore (S : Type) := {
  h_Store : nat -> heap -> S -> heap * S * option Wire.goerr;
  h_Fetch : TopicName -> Z -> Z -> Z -> heap -> S -> res Wire.goerr (list PortaskMessage)
}.

Definition InMemory_HeapStore (iter : gmap string nat -> list nat) : HeapStore InMemoryStorage := {|
  h_Store p h s := (Store p h s, None);
  h_Fetch topic partition offset limit h s := Ok (Fetch iter topic partition offset limit h s)
|}.

Section composite.
Context {P S : Type} `{!HeapStore P, !HeapStore S}.

(** [replicating] are the goroutines that were started and have not run: the
    index of a secondary store and the pointer. *)
Record CompositeStore := mkComposite { primary : P; secondary : list S; replicating : list (nat * nat) }.

Definition NewCompositeStore (p : P) (ss : list S) : CompositeStore := mkComposite p ss [].

Definition cs_Store (message : nat) (h : heap) (cs : CompositeStore) : heap * CompositeStore * option Wire.goerr :=
  match h_Store message h (primary cs) with
  | (h, p, Some err) => (h, mkComposite p (secondary cs) (replicating cs), Some err)
  | (h, p, None) =>
    (h, mkComposite p (secondary cs)
          (replicating cs ++ ((fun i => (i, message)) <$> seq 0 (length (secondary cs)))), None)
  end.

(** The goroutine at position [k] runs; its error is dropped.  Stores lock
    themselves and not the message, so that two goroutines may write its offset at
    once: here one of them comes last. *)
Definition replicate_step (k : nat) (h : heap) (cs : CompositeStore) : option (heap * CompositeStore) :=
  match replicating cs !! k with
  | None => None
  | Some (i, message) =>
    match secondary cs !! i with
    | None => None
    | Some s =>
      let '(h, s, _) := h_Store message h s in
      Some (h, mkComposite (primary cs) (<[i := s]> (secondary cs)) (delete k (replicating cs)))
    end
  end.

Fixpoint fetch_secondary (topic : TopicName) (partition offset limit : Z) (h : heap) (ss : list S) (err : Wire.goerr)
  : res Wire.goerr (list PortaskMessage) :=
  match ss with
  | [] => Err err
  | s :: ss =>
    match h_Fetch topic partition offset limit h s with
    | Ok ms => Ok ms
    | Err _ => fetch_secondary topic partition offset limit h ss err
    end
  end.

Definition cs_Fetch (topic : TopicName) (partition offset limit : Z) (h : heap) (cs : CompositeStore)
  : res Wire.goerr (list PortaskMessage) :=
  match h_Fetch topic partition offset limit h (primary cs) with
  | Ok ms => Ok ms
  | Err err => fetch_secondary topic partition offset limit h (secondary cs) err
  end.
End composite.
Arguments CompositeStore : clear implicits.

End Stores.
