(* ===== verification/StoresSpec.v ===== *)
(** * What the in-memory stores guarantee

    - [collect], the loop of the fetches, in closed form;
    - [InMemoryStorage], used with fresh messages, refines a map from
      identifiers to messages numbered in the order of storing; shared with a
      second store, its offsets change under it;
    - the legacy identifiers collide from a certain size on;
    - the consumer offsets of the server's store refine a map keyed by
      consumer, topic and partition as long as names have no underscore;
    - replication of [CompositeStore]. *)
From stdpp Require Import base gmap strings list numbers fin_maps fin_map_dom pretty.
From Stdlib Require Import ZArith Lia.
From S2P Require Import Prelude Types Wire Ids Stores.

Module StoresSpec.
Import Types Stores.

(** ** Fetching *)

Lemma collect_spec keep limit result msgs :
  (length result < Z.to_nat (1 `max` limit))%nat ->
  collect keep limit result msgs
  = result ++ take (Z.to_nat (1 `max` limit) - length result) (filter (fun m => keep m = true) msgs).
Proof.
  revert result. induction msgs as [|m msgs IH]; intros result Hl; cbn [collect].
  - by rewrite filter_nil, take_nil, app_nil_r.
  - rewrite filter_cons. destruct (keep m) eqn:E; [|rewrite decide_False by done; by apply IH].
    rewrite decide_True by done. destruct (Z.geb_spec (Z.of_nat (length (result ++ [m]))) limit) as [Hge|Hlt].
    + rewrite length_app in Hge. cbn in Hge.
      replace (Z.to_nat (1 `max` limit) - length result)%nat with 1%nat by lia. done.
    + rewrite length_app in Hlt. cbn in Hlt. rewrite IH by (rewrite length_app; cbn; lia).
      rewrite length_app, <- app_assoc. cbn [length app].
      replace (Z.to_nat (1 `max` limit) - length result)%nat
        with (S (Z.to_nat (1 `max` limit) - (length result + 1))) by lia. done.
Qed.

(** From nothing: the first [max 1 limit] matching messages of the iteration. *)
Lemma collect_take keep limit msgs :
  collect keep limit [] msgs = take (Z.to_nat (1 `max` limit)) (filter (fun m => keep m = true) msgs).
Proof. rewrite collect_spec by (cbn; lia). cbn. by rewrite Nat.sub_0_r. Qed.

(** ** [InMemoryStorage] refines a map *)

Inductive store_op := OStore (m : PortaskMessage) | OBatch (ms : list PortaskMessage) | ODelete (ids : list MessageID).

(** The callers decode a message into a new object. *)
Definition alloc (m : PortaskMessage) (h : heap) : heap * nat :=
  let p := fresh (dom h) in (<[p := m]> h, p).

Definition allocs (ms : list PortaskMessage) (h : heap) : heap * list nat :=
  foldl (fun '(h, ps) m => let '(h, p) := alloc m h in (h, ps ++ [p])) (h, []) ms.

Definition run_store (st : heap * InMemoryStorage) (op : store_op) : heap * InMemoryStorage :=
  let '(h, s) := st in
  match op with
  | OStore m => let '(h, p) := alloc m h in Store p h s
  | OBatch ms => let '(h, ps) := allocs ms h in (h, StoreBatch ps h s)
  | ODelete ids => (h, DeleteBatch ids s)
  end.

(** The specification: a map from identifiers to messages, and the next number.
    The message of a [Store] is numbered; every other field is the caller's. *)
Definition numbered (n : Z) (m : PortaskMessage) : PortaskMessage :=
  mkMessage (ID m) (Topic m) (Payload m) (Timestamp m) (Headers m) (Metadata m) (Priority m) (Status m)
    (Partition m) (Key m) (PartitionKey m) (ReplyTo m) (ExpiresAt m) (TTL m) n (Attempts m) (MaxRetry m)
    (CorrelationID m) (TraceID m) (_internal m).
Definition spec_store (st : gmap string PortaskMessage * Z) (op : store_op) : gmap string PortaskMessage * Z :=
  let '(a, n) := st in
  match op with
  | OStore m => (<[ID m := numbered n m]> a, s64 (n + 1))
  | OBatch ms => (foldl (fun a m => <[ID m := m]> a) a ms, n)
  | ODelete ids => (foldl (fun a id => delete id a) a ids, n)
  end.

Definition abs (h : heap) (s : InMemoryStorage) : gmap string PortaskMessage :=
  omap (fun p => h !! p) (messages s).
Definition allocated (h : heap) (s : InMemoryStorage) : Prop :=
  map_Forall (fun _ p => p ∈ dom h) (messages s).

Lemma abs_grow p m h s : allocated h s -> p ∉ dom h -> abs (<[p := m]> h) s = abs h s /\ allocated (<[p := m]> h) s.
Proof.
  intros Ha Hp. split.
  - apply map_eq. intros id. unfold abs. rewrite !lookup_omap. destruct (messages s !! id) as [q|] eqn:E; [|done]. cbn.
    rewrite lookup_insert_ne; [done|]. intros ->. by apply (Ha _ _) in E.
  - intros id q Hq. rewrite dom_insert. apply elem_of_union_r. by apply (Ha _ _ Hq).
Qed.

Lemma fresh_not_in (h : heap) : fresh (dom h) ∉ dom h.
Proof. apply is_fresh. Qed.

Lemma abs_point p m id h s n :
  h !! p = Some m ->
  abs h (mkStorage (<[id := p]> (messages s)) n) = <[id := m]> (abs h s).
Proof.
  intros Hp. apply map_eq. intros id'. unfold abs. cbn. rewrite lookup_omap.
  destruct (decide (id = id')) as [->|Hne].
  - rewrite !lookup_insert_eq. cbn. done.
  - rewrite !lookup_insert_ne by done. by rewrite lookup_omap.
Qed.

Lemma allocated_point p id h s n :
  p ∈ dom h -> allocated h s -> allocated h (mkStorage (<[id := p]> (messages s)) n).
Proof. intros Hp Ha. by apply map_Forall_insert_2. Qed.

Lemma Store_refines m h s :
  allocated h s ->
  let '(h0, p) := alloc m h in
  let '(h1, s1) := Store p h0 s in
  abs h1 s1 = <[ID m := set_Offset (nextOffset s) m]> (abs h s) /\ allocated h1 s1
  /\ nextOffset s1 = s64 (nextOffset s + 1).
Proof.
  intros Ha. unfold alloc. cbv zeta. unfold Store, assign.
  rewrite alter_insert_eq, lookup_insert_eq.
  destruct (abs_grow (fresh (dom h)) (set_Offset (nextOffset s) m) h s Ha (fresh_not_in h)) as [E Ha'].
  cbn [ID set_Offset]. split_and!; [|apply allocated_point; [set_solver|done]|done].
  rewrite (abs_point _ (set_Offset (nextOffset s) m)) by apply lookup_insert_eq. by rewrite E.
Qed.

Lemma allocs_spec ms h s :
  allocated h s ->
  let '(h1, ps) := allocs ms h in
  Forall2 (fun p m => h1 !! p = Some m) ps ms /\ abs h1 s = abs h s /\ allocated h1 s.
Proof.
  intros Ha. induction ms as [|m ms IH] using rev_ind; [done|]. unfold allocs in *. rewrite foldl_snoc.
  destruct (foldl _ (h, []) ms) as [h1 ps]. destruct IH as (Hps & E & Ha1). unfold alloc. cbv zeta.
  destruct (abs_grow (fresh (dom h1)) m h1 s Ha1 (fresh_not_in h1)) as [E2 Ha2].
  split_and!; [|by rewrite E2|done]. apply Forall2_app.
  - eapply Forall2_impl; [exact Hps|]. intros p m' Hp. rewrite lookup_insert_ne; [done|].
    intros <-. apply (fresh_not_in h1). by apply elem_of_dom_2 in Hp.
  - constructor; [apply lookup_insert_eq|constructor].
Qed.

Lemma StoreBatch_refines h ps ms : Forall2 (fun p m => h !! p = Some m) ps ms -> forall s,
  allocated h s ->
  abs h (StoreBatch ps h s) = foldl (fun a m => <[ID m := m]> a) (abs h s) ms
  /\ allocated h (StoreBatch ps h s) /\ nextOffset (StoreBatch ps h s) = nextOffset s.
Proof.
  unfold StoreBatch. induction 1 as [|p m ps ms Hp _ IH]; intros s Ha; [done|]. cbn [foldl]. rewrite Hp.
  destruct (IH (mkStorage (<[ID m := p]> (messages s)) (nextOffset s))) as (E & Ha' & En).
  - apply allocated_point; [by apply elem_of_dom_2 in Hp|done].
  - rewrite E. by rewrite (abs_point _ m).
Qed.

Lemma DeleteBatch_refines ids h s :
  allocated h s ->
  abs h (DeleteBatch ids s) = foldl (fun a id => delete id a) (abs h s) ids
  /\ allocated h (DeleteBatch ids s) /\ nextOffset (DeleteBatch ids s) = nextOffset s.
Proof.
  unfold DeleteBatch. revert s. induction ids as [|id ids IH]; intros s Ha; [done|]. cbn [foldl].
  destruct (IH (Delete id s)) as (E & Ha' & En); [by apply map_Forall_delete|]. rewrite E.
  split_and!; [|done..]. do 2 f_equal. unfold abs, Delete. cbn. apply omap_delete.
Qed.

Lemma run_store_refines op h s :
  allocated h s ->
  let '(h1, s1) := run_store (h, s) op in
  (abs h1 s1, nextOffset s1) = spec_store (abs h s, nextOffset s) op /\ allocated h1 s1.
Proof.
  intros Ha. destruct op as [m|ms|ids]; cbn [run_store spec_store].
  - pose proof (Store_refines m h s Ha) as Hs. destruct (alloc m h) as [h0 p]. destruct (Store p h0 s) as [h1 s1].
    destruct Hs as (-> & ? & ->). done.
  - pose proof (allocs_spec ms h s Ha) as Hs. destruct (allocs ms h) as [h1 ps]. destruct Hs as (Hps & E & Ha1).
    destruct (StoreBatch_refines h1 ps ms Hps s Ha1) as (-> & ? & ->). by rewrite E.
  - destruct (DeleteBatch_refines ids h s Ha) as (-> & ? & ->). done.
Qed.

Lemma run_stores_refine ops h s :
  allocated h s ->
  let '(h1, s1) := foldl run_store (h, s) ops in
  (abs h1 s1, nextOffset s1) = foldl spec_store (abs h s, nextOffset s) ops /\ allocated h1 s1.
Proof.
  revert h s. induction ops as [|op ops IH]; intros h s Ha; [done|]. cbn [foldl].
  pose proof (run_store_refines op h s Ha) as Hs. destruct (run_store (h, s) op) as [h1 s1].
  destruct Hs as [<- Ha1]. by apply IH.
Qed.

Lemma values_omap {A B} (f : A -> option B) (m : gmap string A) :
  omap f (map_to_list m).*2 ≡ₚ (map_to_list (omap f m)).*2.
Proof.
  induction m as [|i x m Hi IH] using map_ind; [by rewrite omap_empty, map_to_list_empty|].
  rewrite map_to_list_insert by done. cbn.
  assert (omap f m !! i = None) as Hn by (by rewrite lookup_omap, Hi).
  destruct (f x) as [y|] eqn:E.
  - rewrite (omap_insert_Some _ _ _ _ y) by done. rewrite map_to_list_insert by done. cbn. by rewrite IH.
  - rewrite omap_insert_None by done. rewrite IH. by rewrite delete_id.
Qed.

(** What a fetch asks for: the topic, the partition unless it is negative, and
    offsets from the given one on. *)
Definition matches (topic : TopicName) (partition offset : Z) (m : PortaskMessage) : Prop :=
  Topic m = topic /\ (partition < 0 \/ Partition m = partition) /\ offset <= Offset m.
#[export] Instance matches_dec topic partition offset m : Decision (matches topic partition offset m).
Proof. unfold matches. apply _. Defined.

Lemma wanted_matches topic partition offset m :
  wanted topic partition offset m = true <-> matches topic partition offset m.
Proof.
  unfold wanted, matches. rewrite !andb_true_iff, bool_decide_eq_true, orb_true_iff, Z.ltb_lt, Z.eqb_eq, Z.geb_le. tauto.
Qed.

(** C31: the in-memory storage is a map from identifiers to messages, numbered in
    the order of [Store]: after any sequence of stores, batches and deletions of
    new message objects, [FetchByID] reads the map of the specification, and
    [Fetch] returns, in some order, the messages of the topic, of the partition
    unless it is negative, with an offset from the given one on, the first
    [max 1 limit] of them. *)
Theorem memory_storage_refines_map iter ops :
  (forall m, iter m ≡ₚ (map_to_list m).*2) ->
  let '(h, s) := foldl run_store (∅, NewInMemoryStorage) ops in
  let a := fst (foldl spec_store (∅, 0) ops) in
  (forall id, FetchByID id h s = a !! id)
  /\ (forall topic partition offset limit, exists live,
       live ≡ₚ filter (matches topic partition offset) (map_to_list a).*2
       /\ Fetch iter topic partition offset limit h s = take (Z.to_nat (1 `max` limit)) live).
Proof.
  intros Hiter. pose proof (run_stores_refine ops ∅ NewInMemoryStorage) as Hr.
  destruct (foldl run_store (∅, NewInMemoryStorage) ops) as [h s].
  destruct Hr as [E _]; [apply map_Forall_empty|]. unfold abs in E at 2. cbn [NewInMemoryStorage messages nextOffset] in E.
  rewrite omap_empty in E. rewrite <- E. cbn [fst]. split.
  - intros id. unfold FetchByID, abs. by rewrite lookup_omap.
  - intros topic partition offset limit.
    exists (filter (matches topic partition offset) (deref iter h s)). split.
    + apply filter_Permutation. unfold deref. rewrite (Hiter (messages s)). apply values_omap.
    + unfold Fetch. rewrite collect_take. f_equal. apply list_filter_iff. intros m. apply wanted_matches.
Qed.

Definition msg (id topic : string) : PortaskMessage := NewMessage id 0 topic [7].

Lemma memory_storage_refines_map_witness :
  let '(h, s) := foldl run_store (∅, NewInMemoryStorage) [OStore (msg "a" "t"); OBatch [msg "b" "t"]; OStore (msg "c" "u"); ODelete ["b"]] in
  FetchByID "c" h s = Some (set_Offset 1 (msg "c" "u")) /\ FetchByID "b" h s = None
  /\ ID <$> Fetch (fun m => (map_to_list m).*2) "u" (-1) 1 5 h s = ["c"]
  /\ Fetch (fun m => (map_to_list m).*2) "u" (-1) 2 5 h s = [].
Proof.
  pose proof (memory_storage_refines_map (fun m => (map_to_list m).*2)
    [OStore (msg "a" "t"); OBatch [msg "b" "t"]; OStore (msg "c" "u"); ODelete ["b"]] (fun m => reflexivity _)) as H.
  destruct (foldl run_store _ _) as [h s]. destruct H as [H HF].
  split; [rewrite H; vm_compute; reflexivity|]. split; [rewrite H; vm_compute; reflexivity|]. split.
  - destruct (HF "u" (-1) 1 5) as (live & Hl & ->). vm_compute in Hl. apply Permutation_singleton_r in Hl as ->. reflexivity.
  - destruct (HF "u" (-1) 2 5) as (live & Hl & ->). vm_compute in Hl. apply Permutation_nil_r in Hl as ->. reflexivity.
Defined.

(** A batch is stored with the offsets its messages came with: a fetch from a
    later offset does not see it. *)
Lemma batch_has_no_offsets :
  let '(h, s) := foldl run_store (∅, NewInMemoryStorage) [OStore (msg "a" "t"); OBatch [msg "b" "t"]] in
  ID <$> Fetch (fun m => (map_to_list m).*2) "t" 0 1 10 h s = [].
Proof. vm_compute. done. Qed.

(** The same message object stored in two storages, as [CompositeStore] does:
    when the second stores them in the other order, the offsets of the first
    change with it. *)
Lemma shared_offsets_swap :
  let h := <[0%nat := msg "a" "t"]> (<[1%nat := msg "b" "t"]> ∅) in
  let '(h, s) := Store 0 h NewInMemoryStorage in
  let '(h, s) := Store 1 h s in
  let '(h1, s1) := Store 1 h NewInMemoryStorage in
  let '(h1, s1) := Store 0 h1 s1 in
  (Offset <$> FetchByID "a" h s, Offset <$> FetchByID "b" h s) = (Some 0, Some 1)
  /\ (Offset <$> FetchByID "a" h1 s, Offset <$> FetchByID "b" h1 s) = (Some 1, Some 0).
Proof. vm_compute. done. Qed.

(** ** Legacy identifiers *)

Lemma string_of_bytes_inj a b : bytes_ok a -> bytes_ok b -> Ids.string_of_bytes a = Ids.string_of_bytes b -> a = b.
Proof.
  revert b. induction a as [|x a IH]; intros [|y b] Ha Hb E; [done|discriminate..|].
  apply Forall_cons in Ha as [Hx Ha]. apply Forall_cons in Hb as [Hy Hb]. unfold byte_ok in *.
  injection E as E1 E2. apply (f_equal Ascii.nat_of_ascii) in E1.
  rewrite !Ascii.nat_ascii_embedding in E1 by lia. f_equal; [lia|]. by apply IH.
Qed.

Lemma utf8_ok r : bytes_ok (utf8 r).
Proof.
  unfold utf8. set (c := (0 <=? r) && _ && _). destruct c eqn:E; subst c.
  - apply andb_true_iff in E as [E _]. apply andb_true_iff in E as [E1 E2]. zb.
    repeat case_match; zb; repeat constructor; unfold byte_ok; nia || (Z.div_mod_to_equations; lia).
  - vm_compute. repeat constructor; discriminate.
Qed.

(** Below the surrogates, and for the replacement, the encodings differ. *)
Lemma utf8_inj i j : 0 <= i < 0xD800 -> 0 <= j <= 0xD800 -> utf8 i = utf8 j -> i = j.
Proof.
  intros Hi Hj. unfold utf8.
  destruct (Z.leb_spec 0 i); [|lia]. destruct (Z.leb_spec i 0x10FFFF); [|lia]. destruct (Z.leb_spec 0xD800 i); [lia|].
  destruct (Z.leb_spec 0 j); [|lia]. destruct (Z.leb_spec j 0x10FFFF); [|lia].
  destruct (Z.leb_spec 0xD800 j); cbn [andb negb].
  - assert (j = 0xD800) as -> by lia. cbn [Z.leb]. change (0xD800 <=? 0xDFFF) with true. cbn [andb negb].
    repeat case_match; zb; intros E; simplify_eq; try (vm_compute in E; discriminate); Z.div_mod_to_equations; lia.
  - repeat case_match; zb; intros E; simplify_eq; Z.div_mod_to_equations; lia.
Qed.

Lemma string_app_inj (a b c : string) : a +:+ b = a +:+ c -> b = c.
Proof. induction a as [|x a IH]; [done|]. intros E. injection E as E. by apply IH. Qed.

Lemma legacy_id_inj topic i j :
  Z.of_nat i < 0xD800 -> Z.of_nat j <= 0xD800 -> legacy_id topic i = legacy_id topic j -> i = j.
Proof.
  intros Hi Hj E. unfold legacy_id in E. apply string_app_inj, (string_app_inj "_") in E.
  apply string_of_bytes_inj in E; [|apply utf8_ok..]. rewrite !(wraps_small 32) in E by lia.
  apply utf8_inj in E; lia.
Qed.

Lemma legacy_id_replacement topic n : 0xD800 <= Z.of_nat n <= 0xDFFF -> legacy_id topic n = topic +:+ "_" +:+ Ids.string_of_bytes (utf8 0xD800).
Proof.
  intros Hn. unfold legacy_id. do 2 f_equal. rewrite (wraps_small 32) by lia. unfold utf8.
  destruct (Z.leb_spec 0xD800 (Z.of_nat n)); [|lia]. destruct (Z.leb_spec (Z.of_nat n) 0xDFFF); [|lia].
  by rewrite andb_false_r.
Qed.

Definition legacy_step (topic : string) (st : heap * InMemoryStorage) (m : bytes) : heap * InMemoryStorage :=
  let '(h, s) := st in StoreMessage (fresh (dom h)) topic m h s.

(** The identifiers in use are the first ones, without gap. *)
Definition legacy_ok (topic : string) (n : nat) (s : InMemoryStorage) : Prop :=
  Z.of_nat (size (messages s)) = Z.of_nat n `min` 0xD801
  /\ (forall id, id ∈ dom (messages s) <-> exists i, (i < size (messages s))%nat /\ id = legacy_id topic i).

Lemma legacy_step_ok topic n h s m :
  legacy_ok topic n s -> legacy_ok topic (S n) (snd (legacy_step topic (h, s) m)).
Proof.
  intros [Hsz Hdom]. unfold legacy_step, StoreMessage, legacy_ok. cbn [snd messages].
  set (k := size (messages s)) in *.
  destruct (decide (Z.of_nat k <= 0xD800)) as [Hk|Hk].
  - assert (messages s !! legacy_id topic k = None) as Hnone.
    { apply not_elem_of_dom. rewrite Hdom. intros (i & Hi & E). symmetry in E.
      apply legacy_id_inj in E; lia. }
    rewrite map_size_insert_None by done. fold k. split; [lia|]. intros id.
    rewrite dom_insert, elem_of_union, elem_of_singleton, Hdom. split.
    + intros [->|(i & Hi & ->)]; [exists k|exists i]; (split; [lia|done]).
    + intros (i & Hi & ->). destruct (decide (i = k)) as [->|]; [by left|right; exists i; split; [lia|done]].
  - assert (legacy_id topic k = legacy_id topic (k - 1)) as E by (rewrite !legacy_id_replacement by lia; done).
    assert (is_Some (messages s !! legacy_id topic k)) as Hsome.
    { apply elem_of_dom. rewrite Hdom. exists (k - 1)%nat. split; [lia|done]. }
    rewrite map_size_insert_Some by done. fold k. split; [lia|]. intros id.
    rewrite dom_insert, elem_of_union, elem_of_singleton, Hdom. split; [|by right].
    intros [->|?]; [|done]. exists (k - 1)%nat. split; [lia|done].
Qed.

(** A legacy topic holds at most 55297 messages: the identifier of a message
    is made from the number of messages with [string(rune(n))], which is the
    same for all numbers in the surrogate range, so that from then on every
    [StoreMessage] replaces the last message. *)
Theorem legacy_store_saturates topic ms :
  Z.of_nat (size (messages (snd (foldl (legacy_step topic) (∅, NewInMemoryStorage) ms))))
  = Z.of_nat (length ms) `min` 0xD801.
Proof.
  assert (legacy_ok topic (length ms) (snd (foldl (legacy_step topic) (∅, NewInMemoryStorage) ms))) as [? _]; [|done].
  induction ms as [|m ms IH] using rev_ind.
  - split; [done|]. intros id. cbn. rewrite dom_empty. split; [set_solver|]. intros (i & Hi & _). rewrite map_size_empty in Hi. lia.
  - rewrite foldl_snoc, length_app, Nat.add_1_r.
    destruct (foldl (legacy_step topic) _ ms) as [h s]. by apply legacy_step_ok.
Qed.

(** ** Messages of the server's store *)

(** A batch with new and distinct identifiers is added to the messages. *)
Lemma stored_values ms : forall s,
  NoDup (ID <$> ms) -> (forall m, m ∈ ms -> sv_messages s !! ID m = None) ->
  (map_to_list (sv_messages (sv_StoreBatch ms s))).*2 ≡ₚ (map_to_list (sv_messages s)).*2 ++ ms.
Proof.
  unfold sv_StoreBatch. induction ms as [|m ms IH]; intros s Hnd Hnew; [by rewrite app_nil_r|].
  apply NoDup_cons in Hnd as [Hm Hnd]. cbn [foldl]. rewrite IH; [|done|].
  - cbn [sv_Store sv_messages]. rewrite map_to_list_insert by (apply Hnew; by left). cbn.
    by rewrite Permutation_middle.
  - intros m' Hm'. cbn [sv_Store sv_messages]. rewrite lookup_insert_ne; [apply Hnew; by right|].
    intros E. apply Hm. rewrite E. by apply list_elem_of_fmap_2.
Qed.

(** ** Consumer offsets of the server's store *)

(** No underscore (code 95). *)
Fixpoint plain (s : string) : Prop :=
  match s with
  | EmptyString => True
  | String c s => c <> Ascii.Ascii true true true true true false true false /\ plain s
  end.

Lemma plain_split a b x y : plain a -> plain b -> a +:+ "_" +:+ x = b +:+ "_" +:+ y -> a = b /\ x = y.
Proof.
  revert b. induction a as [|c a IH]; intros [|d b] Ha Hb E; cbn in *.
  - by injection E.
  - injection E as E _. by destruct Hb as [[] _].
  - injection E as E _. by destruct Ha as [[] _].
  - injection E as -> E. destruct Ha as [_ Ha], Hb as [_ Hb]. destruct (IH b Ha Hb E) as [-> ->]. done.
Qed.

Lemma offset_key_inj c t p c' t' p' :
  plain c -> plain t -> plain c' -> plain t' -> offset_key c t p = offset_key c' t' p' -> (c, t, p) = (c', t', p').
Proof.
  intros Hc Ht Hc' Ht' E. unfold offset_key in E. apply plain_split in E as [-> E]; [|done..].
  apply plain_split in E as [-> E]; [|done..]. by apply (inj pretty) in E as ->.
Qed.

Definition plain_offset (o : ConsumerOffset) : Prop := plain (co_ConsumerID o) /\ plain (co_Topic o).

(** Committed offsets: as long as consumers and topics have no underscore in
    their names, [GetOffset] answers the last offset committed for exactly that
    consumer, topic and partition, and a zero offset when there is none. *)
Theorem server_offsets_last (commits : list ConsumerOffset) (s : ServerStore) c t p :
  Forall plain_offset commits -> plain c -> plain t -> sv_offsets s = ∅ ->
  sv_GetOffset c t p (sv_CommitOffsetBatch commits s)
  = default (mkConsumerOffset c t p 0 0 "")
      (last (filter (fun o => (co_ConsumerID o, co_Topic o, co_Partition o) = (c, t, p)) commits)).
Proof.
  intros Hcs Hc Ht Hs. unfold sv_GetOffset.
  assert (sv_offsets (sv_CommitOffsetBatch commits s) !! offset_key c t p
    = last (filter (fun o => (co_ConsumerID o, co_Topic o, co_Partition o) = (c, t, p)) commits)) as ->;
    [|by destruct (last _)].
  induction commits as [|o commits IH] using rev_ind; [cbn; by rewrite Hs, lookup_empty|].
  apply Forall_app in Hcs as [Hcs Ho]. apply Forall_singleton in Ho as [Ho1 Ho2].
  unfold sv_CommitOffsetBatch in *. rewrite foldl_snoc, filter_app, filter_cons, filter_nil.
  unfold sv_CommitOffset at 1. cbn [sv_offsets]. case_decide as E.
  - rewrite last_snoc. injection E as -> -> ->. by rewrite lookup_insert_eq.
  - rewrite app_nil_r, <- IH by done. apply lookup_insert_ne. intros E'. apply E. by apply offset_key_inj.
Qed.

Lemma server_offsets_last_witness :
  let o n := mkConsumerOffset "c" "t" 3 n 0 "" in
  sv_GetOffset "c" "t" 3 (sv_CommitOffsetBatch [o 5; mkConsumerOffset "c" "t" 4 8 0 ""; o 6] sv_New) = o 6.
Proof.
  refine (server_offsets_last [mkConsumerOffset "c" "t" 3 5 0 ""; mkConsumerOffset "c" "t" 4 8 0 "";
    mkConsumerOffset "c" "t" 3 6 0 ""] sv_New "c" "t" 3 _ _ _ _).
  - repeat constructor; discriminate.
  - repeat constructor; discriminate.
  - repeat constructor; discriminate.
  - reflexivity.
Defined.

(** With underscores two consumers can read each other's offset. *)
Lemma offset_keys_collide :
  co_Offset (sv_GetOffset "a" "b_c" 0 (sv_CommitOffset (mkConsumerOffset "a_b" "c" 0 42 0 "") sv_New)) = 42.
Proof. vm_compute. done. Qed.

(** The offset of a fetch is not looked at. *)
Lemma server_fetch_ignores_offset iter topic p p' o o' limit s :
  sv_Fetch iter topic p o limit s = sv_Fetch iter topic p' o' limit s.
Proof. done. Qed.

(** ** Replication *)

(** The same messages, whose offsets may differ. *)
Definition same_but_offsets (h h' : heap) : Prop := forall q, set_Offset 0 <$> h !! q = set_Offset 0 <$> h' !! q.

#[export] Instance same_but_offsets_equiv : Equivalence same_but_offsets.
Proof. split; [done|by intros h h' H q|]. intros h1 h2 h3 H12 H23 q. by rewrite H12. Qed.

Lemma same_lookup h h' p m : same_but_offsets h h' -> h !! p = Some m -> exists m', h' !! p = Some m' /\ ID m' = ID m.
Proof.
  intros H Hp. specialize (H p). rewrite Hp in H. destruct (h' !! p) as [m'|]; [|done].
  exists m'. split; [done|]. injection H. by intros.
Qed.
Lemma same_none h h' p : same_but_offsets h h' -> h !! p = None -> h' !! p = None.
Proof. intros H Hp. specialize (H p). rewrite Hp in H. by destruct (h' !! p). Qed.

Lemma Store_same p h s : same_but_offsets h (fst (Store p h s)).
Proof.
  intros q. unfold Store, assign. case_match; cbn [fst]; (destruct (decide (p = q)) as [->|Hne];
    [rewrite lookup_alter_eq; by destruct (h !! q)|by rewrite lookup_alter_ne]).
Qed.

(** The identifiers of messages with their pointers, and the map that points
    every identifier to the message stored last under it. *)
Definition keys (h : heap) (l : list nat) : list (string * nat) := omap (fun p => (fun m => (ID m, p)) <$> h !! p) l.
Definition index (h : heap) (l : list nat) : gmap string nat := list_to_map (reverse (keys h l)).

Lemma keys_snoc h l p m : h !! p = Some m -> keys h (l ++ [p]) = keys h l ++ [(ID m, p)].
Proof. intros Hp. unfold keys. rewrite omap_app. cbn. by rewrite Hp. Qed.
Lemma index_snoc h l p m : h !! p = Some m -> index h (l ++ [p]) = <[ID m := p]> (index h l).
Proof. intros Hp. unfold index. by rewrite (keys_snoc _ _ _ m), reverse_snoc by done. Qed.

Lemma Store_index h0 h l p s :
  same_but_offsets h0 h -> is_Some (h0 !! p) -> messages s = index h0 l ->
  messages (snd (Store p h s)) = index h0 (l ++ [p]).
Proof.
  intros Hh [m0 Hp0] Hs. destruct (same_lookup _ _ _ _ Hh Hp0) as (m & Hp & Hid).
  unfold Store, assign. rewrite lookup_alter_eq, Hp. cbn. by rewrite Hs, (index_snoc _ _ _ m0), Hid.
Qed.

(** A primary store of any kind, which may refuse messages and writes at most
    their offsets; the secondary stores are [InMemoryStorage]s. *)
Class WritesOffsets (P : Type) `{HeapStore P} : Prop :=
  writes_offsets p h (s : P) h' s' err : h_Store p h s = (h', s', err) -> same_but_offsets h h'.

Section composite.
Context {P : Type} `{WritesOffsets P} (iter : gmap string nat -> list nat).
#[local] Instance replica : HeapStore InMemoryStorage := InMemory_HeapStore iter.

(** The pointers the primary accepted, the messages and the store.  The messages
    are those of the callers, which exist when they are stored. *)
Definition cs_state : Type := list nat * heap * CompositeStore P InMemoryStorage.
Inductive cs_step : cs_state -> cs_state -> Prop :=
| step_store acc m h cs h' cs' err : is_Some (h !! m) ->
    cs_Store m h cs = (h', cs', err) -> cs_step (acc, h, cs) (if err then acc else acc ++ [m], h', cs')
| step_replicated acc k h cs h' cs' : replicate_step k h cs = Some (h', cs') -> cs_step (acc, h, cs) (acc, h', cs').

Definition pending (i : nat) (cs : CompositeStore P InMemoryStorage) : list nat :=
  (filter (fun r => r.1 = i) (replicating cs)).*2.

Definition replicas_ok (h0 : heap) (n : nat) (st : cs_state) : Prop :=
  let '(acc, h, cs) := st in
  same_but_offsets h0 h /\ length (secondary cs) = n /\ Forall (fun r => is_Some (h0 !! r.2)) (replicating cs) /\
  forall i, (i < n)%nat -> exists s l, secondary cs !! i = Some s /\ messages s = index h0 l /\ l ++ pending i cs ≡ₚ acc.

Lemma pending_start (i n m : nat) :
  (i < n)%nat -> (filter (fun r : nat * nat => r.1 = i) ((fun j => (j, m)) <$> seq 0 n)).*2 = [m].
Proof.
  intros Hi. replace n with (i + Datatypes.S (n - i - 1))%nat by lia. rewrite seq_app, fmap_app, filter_app. cbn [seq].
  rewrite fmap_cons, filter_cons, decide_True by done.
  assert (forall a k, (forall j, (a <= j < a + k)%nat -> j <> i) ->
    filter (fun r : nat * nat => r.1 = i) ((fun j => (j, m)) <$> seq a k) = []) as Hno.
  { intros a k Hj. induction k as [|k IH] in a, Hj |- *; [done|]. cbn [seq].
    rewrite fmap_cons, filter_cons, decide_False by (apply (Hj a); lia).
    apply IH. intros j Hj'. apply Hj. lia. }
  rewrite (Hno 0%nat i) by lia. rewrite (Hno (Datatypes.S (0 + i)) (n - i - 1)%nat) by lia. done.
Qed.

Lemma cs_Store_ok h0 n acc m h cs h' cs' err :
  replicas_ok h0 n (acc, h, cs) -> is_Some (h !! m) -> cs_Store m h cs = (h', cs', err) ->
  replicas_ok h0 n (if err then acc else acc ++ [m], h', cs').
Proof.
  intros (Hh & Hlen & Hall & Hr) [msg Hm] E. unfold cs_Store in E.
  destruct (h_Store m h (primary cs)) as [[h1 p] [e|]] eqn:E1; simplify_eq.
  - split_and!; [|done..]. etrans; [exact Hh|]. by eapply writes_offsets.
  - split_and!; [etrans; [exact Hh|]; by eapply writes_offsets|done| |].
    + cbn [replicating]. apply Forall_app. split; [done|]. apply Forall_fmap, Forall_true. intros j. cbn.
      destruct (same_lookup h h0 m msg) as (m' & -> & _); [by symmetry|done|by eexists].
    + intros i Hi. destruct (Hr i Hi) as (s & l & Hs & Hl & Hp). exists s, l. split_and!; [done..|].
      unfold pending in *. cbn [replicating]. rewrite filter_app, fmap_app, pending_start by lia.
      by rewrite app_assoc, Hp.
Qed.

Lemma replicate_ok h0 n acc k h cs h' cs' :
  replicas_ok h0 n (acc, h, cs) -> replicate_step k h cs = Some (h', cs') -> replicas_ok h0 n (acc, h', cs').
Proof.
  intros (Hh & Hlen & Hall & Hr) E. unfold replicate_step in E.
  destruct (replicating cs !! k) as [[j m]|] eqn:Ek; [|done].
  destruct (secondary cs !! j) as [sj|] eqn:Ej; [|done].
  cbn [h_Store replica InMemory_HeapStore] in E. destruct (Store m h sj) as [h1 s1] eqn:Es. simplify_eq.
  pose proof (Forall_lookup_1 _ _ _ _ Hall Ek) as Hm. cbn in Hm.
  pose proof (Store_same m h sj) as Hsame. rewrite Es in Hsame. cbn [fst] in Hsame.
  split_and!; [by etrans|cbn; by rewrite length_insert|by apply Forall_delete|].
  apply delete_Permutation in Ek. intros i Hi. destruct (Hr i Hi) as (s & l & Hs & Hl & Hp). cbn [secondary].
  assert (filter (fun r : nat * nat => r.1 = i) (replicating cs)
    ≡ₚ filter (fun r => r.1 = i) ((j, m) :: delete k (replicating cs))) as Hf by by apply filter_Permutation.
  rewrite filter_cons in Hf. unfold pending in *. cbn [replicating]. rewrite Hf in Hp. cbn [fst] in *.
  destruct (decide (j = i)) as [->|Hne].
  - simplify_eq. exists s1, (l ++ [m]). split_and!.
    + apply list_lookup_insert_eq. by apply lookup_lt_Some in Ej.
    + pose proof (Store_index h0 h l m sj Hh Hm Hl) as Hi'. by rewrite Es in Hi'.
    + rewrite <- Hp. by rewrite <- app_assoc.
  - exists s, l. split_and!; [by rewrite list_lookup_insert_ne|done..].
Qed.

(** With distinct identifiers the order does not matter. *)
Lemma index_fetch h0 h acc l s p m :
  same_but_offsets h0 h -> messages s = index h0 l -> l ≡ₚ acc -> NoDup (keys h0 acc).*1 ->
  p ∈ acc -> h !! p = Some m -> FetchByID (ID m) h s = Some m.
Proof.
  intros Hh Hs Hl Hnd Hin Hp. unfold FetchByID. rewrite Hs. unfold index.
  destruct (same_lookup h h0 p m) as (m0 & Hp0 & Hid); [by symmetry|done|].
  assert (keys h0 l ≡ₚ keys h0 acc) as Hk by (by apply omap_Permutation).
  assert ((list_to_map (reverse (keys h0 l)) : gmap string nat) !! ID m = Some p) as ->; [|by cbn].
  apply elem_of_list_to_map_1.
  - rewrite reverse_Permutation, Hk. exact Hnd.
  - rewrite reverse_Permutation, Hk. unfold keys. apply list_elem_of_omap. exists p. split; [done|].
    rewrite Hp0. cbn. by rewrite Hid.
Qed.

(** C32: replication.  In every run of a composite store over secondary stores
    that are [InMemoryStorage]s, with any primary that refuses what it wants and
    writes only offsets through the pointers, and whatever the order in which the
    goroutines run, each secondary store has received exactly the pointers the
    primary accepted that are not still on their way to it, each once, and maps
    their identifiers to the shared messages, of which nothing but the offsets has
    changed; once nothing is on the way and if the identifiers are distinct,
    it answers every accepted message by its identifier, with whatever offset the
    store that ran last has written into it. *)
Theorem composite_replicates h0 p n acc h cs i :
  rtc cs_step ([], h0, NewCompositeStore p (replicate n NewInMemoryStorage)) (acc, h, cs) -> (i < n)%nat ->
  same_but_offsets h0 h /\
  exists s l, secondary cs !! i = Some s /\ messages s = index h0 l /\ l ++ pending i cs ≡ₚ acc /\
    (pending i cs = [] -> NoDup (keys h0 acc).*1 ->
     forall q m, q ∈ acc -> h !! q = Some m -> FetchByID (ID m) h s = Some m).
Proof.
  intros Hrun Hi.
  assert (forall x y, rtc cs_step x y -> replicas_ok h0 n x -> replicas_ok h0 n y) as Hinv.
  { induction 1 as [|x y z Hxy _ IH]; [done|]. intros Hx. apply IH.
    destruct Hxy; [by eapply cs_Store_ok|by eapply replicate_ok]. }
  apply Hinv in Hrun as (Hh & _ & _ & Hr).
  - split; [done|]. destruct (Hr i Hi) as (s & l & Hs & Hl & Hp). exists s, l. split_and!; [done..|].
    intros Hnone Hnd q m Hq Hm. rewrite Hnone, app_nil_r in Hp. by eapply index_fetch.
  - split_and!; [done|cbn; apply length_replicate|constructor|].
    intros j Hj. exists NewInMemoryStorage, []. split_and!; [|done..]. by apply lookup_replicate.
Qed.
End composite.

(** A primary that refuses by a script. *)
#[local] Instance scripted_primary : HeapStore (InMemoryStorage * list bool) := {
  h_Store p h s := match s with
                   | (s, true :: script) => (h, (s, script), Some Wire.EOF)
                   | (s, script) => let '(h, s) := Store p h s in (h, (s, tail script), None)
                   end;
  h_Fetch _ _ _ _ _ _ := Err Wire.EOF
}.
#[local] Instance scripted_offsets : WritesOffsets (InMemoryStorage * list bool).
Proof.
  intros p h [s [|[] script]] h' s' err E; cbn in E.
  - destruct (Store p h s) as [h1 s1] eqn:Es. simplify_eq. pose proof (Store_same p h s) as Hs. by rewrite Es in Hs.
  - by simplify_eq.
  - destruct (Store p h s) as [h1 s1] eqn:Es. simplify_eq. pose proof (Store_same p h s) as Hs. by rewrite Es in Hs.
Qed.

Definition three_messages : heap := <[0%nat := msg "a" "t"]> (<[1%nat := msg "b" "t"]> (<[2%nat := msg "c" "t"]> ∅)).
Definition values : gmap string nat -> list nat := fun m => (map_to_list m).*2.
#[local] Instance values_store : HeapStore InMemoryStorage := InMemory_HeapStore values.
Definition scripted_start : CompositeStore (InMemoryStorage * list bool) InMemoryStorage :=
  NewCompositeStore (NewInMemoryStorage, [false; true; false]) (replicate 1 NewInMemoryStorage).
Definition cs_run (l : list (nat + nat)) :=
  foldl (fun st ev => match ev with
                      | inl m => (cs_Store m st.1 st.2).1
                      | inr k => default st (replicate_step k st.1 st.2)
                      end) (three_messages, scripted_start) l.

(** The second message is refused, and the goroutine of the third runs before
    that of the first: both are found, with the offsets of the secondary. *)
Definition scripted_end := cs_run [inl 0; inl 1; inl 2; inr 1; inr 0]%nat.
Lemma composite_replicates_witness : exists s,
  secondary scripted_end.2 !! 0%nat = Some s
  /\ FetchByID "a" scripted_end.1 s = Some (set_Offset 1 (msg "a" "t"))
  /\ FetchByID "c" scripted_end.1 s = Some (set_Offset 0 (msg "c" "t")).
Proof.
  destruct (composite_replicates values three_messages (NewInMemoryStorage, [false; true; false]) 1 [0%nat; 2%nat]
    scripted_end.1 scripted_end.2 0) as (_ & s & l & Hs & _ & _ & Hf).
  - eapply rtc_l; [apply (step_store values [] 0%nat three_messages scripted_start
      (cs_run [inl 0]%nat).1 (cs_run [inl 0]%nat).2 None); [by eexists|vm_compute; reflexivity]|].
    eapply rtc_l; [apply (step_store values _ 1%nat _ _ (cs_run [inl 0; inl 1]%nat).1 (cs_run [inl 0; inl 1]%nat).2
      (Some Wire.EOF)); [vm_compute; by eexists|vm_compute; reflexivity]|].
    eapply rtc_l; [apply (step_store values _ 2%nat _ _ (cs_run [inl 0; inl 1; inl 2]%nat).1
      (cs_run [inl 0; inl 1; inl 2]%nat).2 None); [vm_compute; by eexists|vm_compute; reflexivity]|].
    eapply rtc_l; [apply (step_replicated values _ 1%nat _ _ (cs_run [inl 0; inl 1; inl 2; inr 1]%nat).1
      (cs_run [inl 0; inl 1; inl 2; inr 1]%nat).2); vm_compute; reflexivity|].
    eapply rtc_l; [apply (step_replicated values _ 0%nat _ _ scripted_end.1 scripted_end.2); vm_compute; reflexivity|].
    apply rtc_refl.
  - lia.
  - exists s. split; [exact Hs|].
    assert (pending 0 scripted_end.2 = []) as H1 by reflexivity.
    assert (NoDup (keys three_messages [0%nat; 2%nat]).*1) as H2
      by (apply (bool_decide_unpack _); vm_compute; exact I).
    split; [apply (Hf H1 H2 0%nat (set_Offset 1 (msg "a" "t")))|apply (Hf H1 H2 2%nat (set_Offset 0 (msg "c" "t")))];
      [by left|vm_compute; reflexivity|by right; left|vm_compute; reflexivity].
Defined.

End StoresSpec.
