(* ===== verification/Adapters.v ===== *)
(** * Adapters between protocols and stores

    - the AMQP translator and processor bridge ([src/pkg/amqp/translator.go],
      [processor_bridge.go]);
    - the adapters of the server command that put the Kafka and AMQP servers on
      one store and one message bus ([src/cmd/server/kafka_adapter.go],
      [amqp_adapter.go]).

    Readings of the clock are arguments, in nanoseconds.  The store of the
    adapters is [Stores.ServerStore], the one the command falls back on; the bus
    is the class [Publisher], with [Bus.MessageBus] as instance. *)
From stdpp Require Import base gmap strings list numbers fin_maps pretty.
From Stdlib Require Import ZArith Lia Ascii.
From S2P Require Import Prelude Types Bus Wire Ids Processor Batch KafkaStore Kafka Stores.

Module Adapters.
Import Types.

(** ** The AMQP translator *)

Record MessageProperties := mkProperties {
  ContentType : string; ContentEncoding : string; p_Headers : option (gmap string GoValue);
  DeliveryMode : Z; p_Priority : Z; p_CorrelationID : string; p_ReplyTo : string; Expiration : string;
  p_MessageID : string; p_Timestamp : Z; p_Type : string; UserID : string; AppID : string; ClusterID : string
}.
Record AMQPPublishResponse := mkPublishResponse { Success : bool; r_Offset : Z; r_Error : string }.
Record AMQPDeliver := mkDeliver {
  ConsumerTag : string; DeliveryTag : Z; Redelivered : bool; d_Exchange : string; RoutingKey : string;
  d_Body : bytes; Properties : MessageProperties
}.

(** [if v != "" { metadata[k] = v }] *)
Definition put_text (k v : string) (m : gmap string string) : gmap string string :=
  if decide (v = "") then m else <[k := v]> m.
Definition put_number (k : string) (v : Z) (m : gmap string string) : gmap string string :=
  if v >? 0 then <[k := pretty v]> m else m.

Definition put_properties (p : MessageProperties) (m : gmap string string) : gmap string string :=
  let m := put_text "content_type" (ContentType p) m in
  let m := put_text "content_encoding" (ContentEncoding p) m in
  let m := put_text "correlation_id" (p_CorrelationID p) m in
  let m := put_text "reply_to" (p_ReplyTo p) m in
  let m := put_text "message_id" (p_MessageID p) m in
  let m := put_text "app_id" (AppID p) m in
  let m := put_text "user_id" (UserID p) m in
  let m := put_number "priority" (p_Priority p) m in
  put_number "delivery_mode" (DeliveryMode p) m.

Definition amqp_topic (exchange routingKey : string) : string :=
  if decide (exchange = "") then routingKey else exchange +:+ "." +:+ routingKey.

(** As for Kafka, the payload of a new message is nil when the body is empty. *)
Definition TranslatePublish (now id : Z) (exchange routingKey : string) (body : bytes)
  (properties : option MessageProperties) (cache : gmap string string)
  : gmap string string * res string Processor.input :=
  if decide (routingKey = "") then (cache, Err "routing key cannot be empty") else
  let m := Kafka.GetMessage in
  let '(cache, name) := Kafka.InternTopic (amqp_topic exchange routingKey) cache in
  let md := <["routing_key" := routingKey]> (<["exchange" := exchange]>
              (<["protocol" := "amqp-0.9.1"]> (<["source" := "amqp"]> (default ∅ (Metadata m))))) in
  let md := match properties with Some p => put_properties p md | None => md end in
  (cache,
   Ok (mkMessage (pretty (Z.to_N id)) name body now (Headers m) (Some md) (Priority m) (Status m) 0 (Key m)
         (PartitionKey m) (ReplyTo m) (ExpiresAt m) 0 (Offset m) (Attempts m) (MaxRetry m) (CorrelationID m)
         (TraceID m) (_internal m),
       bool_decide (body = []))).

Definition TranslateConsume (queue : string) : res string Kafka.FetchRequest :=
  if decide (queue = "") then Err "queue name cannot be empty" else Ok (Kafka.mkFetchRequest queue 0 0 100).

Definition TranslatePublishResponse (offset : Z) (err : option string) : AMQPPublishResponse :=
  match err with
  | Some e => mkPublishResponse false 0 e
  | None => mkPublishResponse true offset ""
  end.

(** [fmt.Sscanf(s, "%d", &v)] for a [uint8], on a text without leading blanks:
    the digits at its start, if there are any and their value fits; otherwise
    the variable keeps its zero. *)
Definition digit_of (c : ascii) : option Z :=
  let z := Z.of_nat (nat_of_ascii c) - 48 in if (0 <=? z) && (z <=? 9) then Some z else None.
Fixpoint scan_digits (s : string) (acc : option Z) : option Z :=
  match s with
  | EmptyString => acc
  | String c s =>
    match digit_of c with
    | Some d => scan_digits s (Some (default 0 acc * 10 + d))
    | None => acc
    end
  end.
Definition scan_uint8 (s : string) : Z :=
  match scan_digits s None with
  | Some n => if n <? 256 then n else 0
  | None => 0
  end.

Definition text_at (k : string) (m : gmap string string) : string := default "" (m !! k).

Definition extractProperties (m : PortaskMessage) : MessageProperties :=
  match Metadata m with
  | None => mkProperties "" "" None 0 0 "" "" "" "" 0 "" "" "" ""
  | Some md =>
    mkProperties (text_at "content_type" md) (text_at "content_encoding" md) None
      (match md !! "delivery_mode" with Some s => scan_uint8 s | None => 0 end)
      (match md !! "priority" with Some s => scan_uint8 s | None => 0 end)
      (text_at "correlation_id" md) (text_at "reply_to" md) "" (text_at "message_id" md) 0 ""
      (text_at "user_id" md) (text_at "app_id" md) ""
  end.

Definition deliver_of (consumerTag : string) (i : nat) (m : PortaskMessage) : AMQPDeliver :=
  mkDeliver consumerTag (u64 (Z.of_nat i + 1)) false (text_at "exchange" (default ∅ (Metadata m)))
    (text_at "routing_key" (default ∅ (Metadata m))) (Payload m) (extractProperties m).
Definition TranslateConsumeResponse (ms : list PortaskMessage) (consumerTag : string) (err : option string)
  : res string (list AMQPDeliver) :=
  match err with
  | Some e => Err e
  | None => Ok (imap (deliver_of consumerTag) ms)
  end.

(** ** The AMQP bridge *)

(** [amqp.MessageStore] *)
Class AmqpStore (St : Type) := {
  StoreMessage : string -> bytes -> St -> St * option string;
  GetMessages : string -> Z -> St -> res string (list bytes)
}.

Section bridge.
Context {St : Type} `{!AmqpStore St}.

(** [StoreBatch] of the AMQP storage adapter. *)
Fixpoint amqp_StoreBatch (ms : list PortaskMessage) (st : St) : St * option string :=
  match ms with
  | [] => (st, None)
  | m :: ms =>
    match StoreMessage (Topic m) (Payload m) st with
    | (st, Some e) => (st, Some ("failed to store message " +:+ ID m +:+ ": " +:+ e))
    | (st, None) => amqp_StoreBatch ms st
    end
  end.
#[export] Instance AMQP_StorageBackend : Batch.StorageBackend St := amqp_StoreBatch.

(** [NewProcessorBridge]: the writer is started. *)
Definition NewProcessorBridge (st : St) : Batch.BatchWriter St :=
  fst (Batch.Start (Batch.NewBatchWriter st (Some Batch.DefaultBatchWriterConfig))).

(** The bridge is its writer; [E] and [k] say how the call of the processor
    ends. *)
Definition bridge_PublishMessage (E : Kafka.env) (k : nat) (m : Processor.input) (w : Batch.BatchWriter St)
  : exec (Batch.BatchWriter St * res string Z) :=
  match Kafka.process_message E k m with
  | Err _ => Ret (w, Err "processor failed")
  | Ok None => Panic
  | Ok (Some processed) =>
    let '(w, err) := Batch.Write processed w in
    Ret (w, match err with
            | Some e => Err ("batch write failed: " +:+ e)
            | None => Ok (Timestamp processed)
            end)
  end.

Definition consumed (req : Kafka.FetchRequest) (i : nat) (b : bytes) : PortaskMessage :=
  let o := s64 (Kafka.f_Offset req + Z.of_nat i) in
  mkMessage (pretty o) (Kafka.f_Topic req) b o None None 0 StatusPending 0 "" "" "" 0 0 0 0 0 "" "" zero_internal.
Definition bridge_ConsumeMessages (req : Kafka.FetchRequest) (w : Batch.BatchWriter St)
  : res string (list PortaskMessage) :=
  match GetMessages (Kafka.f_Topic req) (Kafka.f_Offset req) (Batch.storage w) with
  | Err e => Err ("storage fetch failed: " +:+ e)
  | Ok bs => Ok (imap (consumed req) bs)
  end.
End bridge.

(** ** The adapters of the server command *)

Class Publisher (B : Type) := Publish : PortaskMessage -> B -> exec (B * option string).
#[export] Instance MessageBus_Publisher : Publisher Bus.MessageBus := fun m b =>
  do! r := Bus.Publish m b in Ret (fst r, Types.Error <$> snd r).

Section server.
Context {B : Type} `{!Publisher B}.
Context (iter : gmap string PortaskMessage -> list PortaskMessage).

Record adapter := mkAdapter { storage : Stores.ServerStore; messageBus : B }.

Definition second : Z := 1000000000.

Definition bare (id topic : string) (timestamp : Z) (payload : bytes) : PortaskMessage :=
  mkMessage id topic payload timestamp None None 0 StatusPending 0 "" "" "" 0 0 0 0 0 "" "" zero_internal.

(** The three readings of the clock of [ProduceMessage]; a message the bus
    refuses is logged. *)
Definition kafka_ProduceMessage (t1 t2 t3 : Z) (topic : string) (partition : Z) (key value : bytes) (a : adapter)
  : exec (adapter * res string Z) :=
  let message := bare ("kafka-" +:+ pretty t1) topic (t2 / second) value in
  let st := Stores.sv_Store message (storage a) in
  do! r := Publish message (messageBus a) in
  Ret (mkAdapter st (fst r), Ok t3).

Definition kafka_ConsumeMessages (topic : string) (partition offset maxBytes : Z) (a : adapter)
  : list KafkaStore.Message :=
  imap (fun i msg => KafkaStore.mkKMessage (s64 (Z.of_nat i + offset)) (Wire.bytes_of_string (ID msg)) (Payload msg))
    (Stores.sv_Fetch iter topic partition offset 100 (storage a)).

Definition default_partition : KafkaStore.PartitionMetadata := KafkaStore.mkPartition 0 0 [] [] [] 0.
Definition kafka_GetTopicMetadata (topics : list string) : KafkaStore.TopicMetadata :=
  KafkaStore.mkTopicMetadata (default "default-topic" (head topics)) [default_partition] 0.

Definition kafka_CreateTopic (now : Z) (topic : string) (partitions replication : Z) (a : adapter) : adapter :=
  mkAdapter (Stores.sv_CreateTopic (Stores.mkTopicInfo topic partitions replication None (now / second)) (storage a))
    (messageBus a).
Definition kafka_DeleteTopic (topic : string) (a : adapter) : adapter :=
  mkAdapter (Stores.sv_DeleteTopic topic (storage a)) (messageBus a).

Definition amqp_DeclareQueue (now : Z) (name : string) (a : adapter) : adapter :=
  mkAdapter (Stores.sv_CreateTopic (Stores.mkTopicInfo name 1 1 None (now / second)) (storage a)) (messageBus a).
Definition amqp_DeleteQueue (name : string) (a : adapter) : adapter :=
  mkAdapter (Stores.sv_DeleteTopic name (storage a)) (messageBus a).

(** Topic ["exchange.routingKey"], also for the default exchange. *)
Definition amqp_PublishMessage (t1 t2 : Z) (exchange routingKey : string) (body : bytes) (a : adapter)
  : exec (adapter * option string) :=
  let message := bare ("amqp-" +:+ pretty t1) (exchange +:+ "." +:+ routingKey) (t2 / second) body in
  let st := Stores.sv_Store message (storage a) in
  do! r := Publish message (messageBus a) in
  Ret (mkAdapter st (fst r), snd r).
Definition amqp_ConsumeMessages (queueName : string) (a : adapter) : list bytes :=
  Payload <$> Stores.sv_Fetch iter queueName 0 0 10 (storage a).

Definition amqp_StoreMessage (t1 t2 : Z) (topic : string) (message : bytes) (a : adapter) : adapter :=
  mkAdapter (Stores.sv_Store (bare ("amqp_" +:+ pretty t1) topic (t2 / second) message) (storage a)) (messageBus a).
Definition amqp_GetMessages (topic : string) (offset : Z) (a : adapter) : list bytes :=
  Payload <$> Stores.sv_Fetch iter topic 0 offset 100 (storage a).
End server.
Arguments adapter : clear implicits.

End Adapters.
