(* ===== verification/AdaptersSpec.v ===== *)
(** * What the adapters guarantee

    - AMQP properties survive the translation to message metadata and back, the
      nine the translator knows;
    - messages published through the Kafka and the AMQP adapter into the shared
      store are read back by both, as long as their clock readings differ;
    - defects: fetches of the adapter ignore offsets, the default exchange, the
      bridge's deliveries without properties. *)
From stdpp Require Import base gmap strings list numbers fin_maps pretty.
From Stdlib Require Import ZArith Lia Ascii.
From S2P Require Import Prelude Types Bus Wire Batch KafkaStore Kafka Stores StoresSpec Adapters.

Module AdaptersSpec.
Import Types Adapters.

(** ** Properties *)

Lemma put_text_ne k k' v (m : gmap string string) : k <> k' -> put_text k v m !! k' = m !! k'.
Proof. intros. unfold put_text. case_decide; [done|]. by apply lookup_insert_ne. Qed.
Lemma put_number_ne k k' v (m : gmap string string) : k <> k' -> put_number k v m !! k' = m !! k'.
Proof. intros. unfold put_number. case_match; [|done]. by apply lookup_insert_ne. Qed.
Lemma put_text_eq k v (m : gmap string string) : m !! k = None -> default "" (put_text k v m !! k) = v.
Proof. intros E. unfold put_text. case_decide as D; [by rewrite E, D|by rewrite lookup_insert_eq]. Qed.

Lemma scan_pretty v : 0 < v < 256 -> scan_uint8 (pretty v) = v.
Proof.
  intros Hv. assert (forallb (fun v => scan_uint8 (pretty v) =? v) (seqZ 1 255) = true) as H by (vm_compute; done).
  rewrite forallb_forall in H. apply Z.eqb_eq, H, list_elem_of_In, elem_of_seqZ. lia.
Qed.
Lemma put_number_eq k v (m : gmap string string) :
  0 <= v < 256 -> m !! k = None -> match put_number k v m !! k with Some s => scan_uint8 s | None => 0 end = v.
Proof.
  intros Hv E. unfold put_number. destruct (Z.gtb_spec v 0).
  - rewrite lookup_insert_eq. apply scan_pretty. lia.
  - rewrite E. lia.
Qed.

(** What the translation keeps. *)
Definition known (p : MessageProperties) : MessageProperties :=
  mkProperties (ContentType p) (ContentEncoding p) None (DeliveryMode p) (p_Priority p) (p_CorrelationID p)
    (p_ReplyTo p) "" (p_MessageID p) 0 "" (UserID p) (AppID p) "".

(** The keys of the properties are not among those the translator writes itself. *)
Definition translator_keys : list string := ["source"; "protocol"; "exchange"; "routing_key"].

Lemma properties_at p md :
  (forall k, md !! k <> None -> k ∈ translator_keys) -> 0 <= p_Priority p < 256 -> 0 <= DeliveryMode p < 256 ->
  forall m, Metadata m = Some (put_properties p md) -> extractProperties m = known p.
Proof.
  intros Hmd Hp Hd m Hm. unfold extractProperties, known, text_at, put_properties in *. rewrite Hm.
  assert (forall k, k ∉ translator_keys -> md !! k = None) as Hk.
  { intros k Hk. destruct (md !! k) eqn:E; [|done]. destruct Hk. apply Hmd. by rewrite E. }
  f_equal; repeat (rewrite put_number_ne by done); repeat (rewrite put_text_ne by done).
  all: (apply put_text_eq || (apply put_number_eq; [done|])).
  all: repeat (rewrite put_number_ne by done); repeat (rewrite put_text_ne by done).
  all: apply Hk; by rewrite <- (bool_decide_eq_false (_ ∈ _)).
Qed.

(** AMQP properties round-trip: for every message the translator makes from a
    publish with properties, the properties extracted from it are the nine the
    translator knows, unchanged, and the rest empty. *)
Theorem properties_roundtrip now id exchange routingKey body p cache cache' m :
  0 <= p_Priority p < 256 -> 0 <= DeliveryMode p < 256 ->
  TranslatePublish now id exchange routingKey body (Some p) cache = (cache', Ok m) ->
  extractProperties (fst m) = known p
  /\ deliver_of "tag" 0 (fst m) = mkDeliver "tag" 1 false exchange routingKey body (known p).
Proof.
  intros Hp Hd Ht. unfold TranslatePublish in Ht. case_decide; [done|].
  destruct (Kafka.InternTopic _ _) as [c name]. injection Ht as <- <-. cbn [fst].
  set (md := <["routing_key" := _]> _). set (msg := mkMessage _ _ _ _ _ _ _ _ _ _ _ _ _ _ _ _ _ _ _ _).
  assert (extractProperties msg = known p) as E.
  { apply (properties_at p md); [|done..|done]. intros k Hk.
    destruct (decide (k ∈ translator_keys)) as [|Hn]; [done|]. destruct Hk. unfold md.
    rewrite !lookup_insert_ne by (intros <-; apply Hn; by rewrite <- (bool_decide_eq_true (_ ∈ _))). apply lookup_empty. }
  split; [done|]. unfold deliver_of. rewrite E. cbn [Metadata Payload msg default]. f_equal.
  - unfold text_at, put_properties, Datatypes.id. repeat (rewrite put_number_ne by done). repeat (rewrite put_text_ne by done).
    subst md. rewrite lookup_insert_ne by done. by rewrite lookup_insert_eq.
  - unfold text_at, put_properties, Datatypes.id. repeat (rewrite put_number_ne by done). repeat (rewrite put_text_ne by done).
    subst md. by rewrite lookup_insert_eq.
Qed.

Definition sample : MessageProperties :=
  mkProperties "text/plain" "" None 2 9 "c1" "" "60000" "m1" 5 "t" "guest" "" "x".

Lemma properties_roundtrip_witness :
  match snd (TranslatePublish 1 7 "ex" "key" [1; 2] (Some sample) ∅) with
  | Ok m => extractProperties (fst m) = known sample
  | Err _ => False
  end.
Proof.
  destruct (TranslatePublish 1 7 "ex" "key" [1; 2] (Some sample) ∅) as [c [m|e]] eqn:E.
  - apply (properties_roundtrip 1 7 "ex" "key" [1; 2] sample ∅ c m).
    + vm_compute. split; [discriminate|reflexivity].
    + vm_compute. split; [discriminate|reflexivity].
    + exact E.
  - vm_compute in E. discriminate.
Defined.

(** ** The shared store *)

Section shared.
Context {B : Type} `{!Publisher B}.
Context (iter : gmap string PortaskMessage -> list PortaskMessage).
Hypothesis iter_values : forall m, iter m ≡ₚ (map_to_list m).*2.

Inductive publication :=
| ViaKafka (t1 t2 t3 : Z) (topic : string) (partition : Z) (key value : bytes)
| ViaAmqp (t1 t2 : Z) (exchange routingKey : string) (body : bytes)
| ViaAmqpStore (t1 t2 : Z) (topic : string) (body : bytes).

Definition run_publication (p : publication) (a : adapter B) : exec (adapter B) :=
  match p with
  | ViaKafka t1 t2 t3 topic partition key value =>
    do! r := kafka_ProduceMessage t1 t2 t3 topic partition key value a in Ret (fst r)
  | ViaAmqp t1 t2 exchange routingKey body =>
    do! r := amqp_PublishMessage t1 t2 exchange routingKey body a in Ret (fst r)
  | ViaAmqpStore t1 t2 topic body => Ret (amqp_StoreMessage t1 t2 topic body a)
  end.
Fixpoint run_publications (ps : list publication) (a : adapter B) : exec (adapter B) :=
  match ps with
  | [] => Ret a
  | p :: ps => do! a := run_publication p a in run_publications ps a
  end.

(** Protocol and nanosecond of a publication. *)
Definition stamp (p : publication) : nat * Z :=
  match p with
  | ViaKafka t1 _ _ _ _ _ _ => (0%nat, t1)
  | ViaAmqp t1 _ _ _ _ => (1%nat, t1)
  | ViaAmqpStore t1 _ _ _ => (2%nat, t1)
  end.
Definition message_of (p : publication) : PortaskMessage :=
  match p with
  | ViaKafka t1 t2 _ topic _ _ value => bare ("kafka-" +:+ pretty t1) topic (t2 / second) value
  | ViaAmqp t1 t2 exchange routingKey body =>
    bare ("amqp-" +:+ pretty t1) (exchange +:+ "." +:+ routingKey) (t2 / second) body
  | ViaAmqpStore t1 t2 topic body => bare ("amqp_" +:+ pretty t1) topic (t2 / second) body
  end.

Lemma message_of_inj p q : ID (message_of p) = ID (message_of q) -> stamp p = stamp q.
Proof.
  destruct p as [t1 ? ? ? ? ? ?|t1 ? ? ? ?|t1 ? ? ?], q as [t1' ? ? ? ? ? ?|t1' ? ? ? ?|t1' ? ? ?];
    cbn [ID message_of bare stamp]; intros E; try discriminate;
    apply StoresSpec.string_app_inj in E; by rewrite (inj pretty _ _ E).
Qed.

Lemma run_publication_stores p a a' :
  run_publication p a = Ret a' -> storage a' = Stores.sv_Store (message_of p) (storage a).
Proof.
  destruct p; cbn [run_publication]; unfold kafka_ProduceMessage, amqp_PublishMessage; cbv zeta.
  - destruct (Publish _ _) as [r| |]; [|done..]. by intros [= <-].
  - destruct (Publish _ _) as [r| |]; [|done..]. by intros [= <-].
  - by intros [= <-].
Qed.

Lemma run_publications_stores ps : forall a a',
  run_publications ps a = Ret a' -> storage a' = Stores.sv_StoreBatch (message_of <$> ps) (storage a).
Proof.
  induction ps as [|p ps IH]; intros a a' Hr; cbn in Hr; [by simplify_eq|].
  destruct (run_publication p a) as [a1| |] eqn:E; [|done..]. rewrite (IH a1 a' Hr). cbn.
  by rewrite (run_publication_stores p a a1 E).
Qed.

(** One store behind two protocols: when no two publications of the same kind
    read the same nanosecond, everything published through the Kafka and the
    AMQP adapter is in the store, and both read the same messages of a topic, in
    the same order, at most a hundred of them. *)
Theorem shared_store_reads_all ps a a' topic partition offset maxBytes :
  NoDup (stamp <$> ps) -> Stores.sv_messages (storage a) = ∅ -> run_publications ps a = Ret a' ->
  exists live, live ≡ₚ filter (fun m => Topic m = topic) (message_of <$> ps)
    /\ amqp_GetMessages iter topic offset a' = Payload <$> take 100 live
    /\ KafkaStore.k_Value <$> kafka_ConsumeMessages iter topic partition offset maxBytes a' = Payload <$> take 100 live.
Proof.
  intros Hnd Hempty Hrun. apply run_publications_stores in Hrun.
  exists (filter (fun m => bool_decide (Topic m = topic) = true) (iter (Stores.sv_messages (storage a')))). split_and!.
  - rewrite iter_values, Hrun, StoresSpec.stored_values.
    + rewrite Hempty, map_to_list_empty. cbn [fmap list_fmap app].
      erewrite list_filter_iff; [done|]. intros m. apply bool_decide_eq_true.
    + rewrite <- list_fmap_compose. clear -Hnd.
      induction ps as [|p ps IH]; [constructor|]. apply NoDup_cons in Hnd as [Hp Hnd]. cbn. constructor; [|by apply IH].
      intros Hin. apply Hp. apply list_elem_of_fmap in Hin as (q & E & Hq). apply list_elem_of_fmap. exists q.
      split; [by apply message_of_inj|done].
    + intros m _. by rewrite Hempty, lookup_empty.
  - unfold amqp_GetMessages, Stores.sv_Fetch. by rewrite StoresSpec.collect_take.
  - unfold kafka_ConsumeMessages, Stores.sv_Fetch. rewrite StoresSpec.collect_take.
    change (Z.to_nat (1 `max` 100)) with 100%nat. rewrite fmap_imap. apply imap_const.
Qed.
End shared.

#[local] Instance silent_bus : Publisher unit := fun _ b => Ret (b, None).

Lemma shared_store_reads_all_witness :
  let ps := [ViaKafka 1 1 1 "t" 0 [] [7]; ViaAmqpStore 1 1 "t" [8]; ViaAmqp 1 1 "" "t" [9]] in
  exists live, live ≡ₚ [bare "kafka-1" "t" 0 [7]; bare "amqp_1" "t" 0 [8]]
    /\ match run_publications ps (mkAdapter Stores.sv_New ()) with
       | Ret a => amqp_GetMessages (fun m => (map_to_list m).*2) "t" 0 a = Payload <$> take 100 live
       | _ => False
       end.
Proof.
  destruct (shared_store_reads_all (fun m => (map_to_list m).*2) (fun m => reflexivity _)
    [ViaKafka 1 1 1 "t" 0 [] [7]; ViaAmqpStore 1 1 "t" [8]; ViaAmqp 1 1 "" "t" [9]] (mkAdapter Stores.sv_New ())
    (mkAdapter (Stores.sv_StoreBatch [bare "kafka-1" "t" 0 [7]; bare "amqp_1" "t" 0 [8]; bare "amqp-1" ".t" 0 [9]] Stores.sv_New) ())
    "t" 0 0 0) as (live & Hl & Ha & _).
  - by rewrite <- (bool_decide_eq_true (NoDup _)).
  - reflexivity.
  - reflexivity.
  - exists live. split; [exact Hl|exact Ha].
Defined.

(** ** Defects *)

(** A consumer that advances its offset reads the same values again. *)
Lemma adapter_ignores_offset {B} iter topic p p' o o' mb mb' (a : adapter B) :
  KafkaStore.k_Value <$> kafka_ConsumeMessages iter topic p o mb a
  = KafkaStore.k_Value <$> kafka_ConsumeMessages iter topic p' o' mb' a.
Proof. unfold kafka_ConsumeMessages. rewrite !fmap_imap. by rewrite !(imap_const Payload). Qed.

(** Two messages produced in the same nanosecond: the first is gone. *)
Lemma same_nanosecond_lost :
  run_publications [ViaKafka 5 5 5 "t" 0 [] [1]; ViaKafka 5 5 5 "u" 0 [] [2]] (mkAdapter Stores.sv_New ())
  = Ret (mkAdapter (Stores.sv_Store (bare "kafka-5" "u" 0 [2]) Stores.sv_New) ()).
Proof. vm_compute. done. Qed.

(** A message published to the default exchange does not reach the queue named
    by its routing key. *)
Lemma default_exchange_invisible :
  match run_publications [ViaAmqp 1 1 "" "q" [9]] (mkAdapter Stores.sv_New ()) with
  | Ret a => amqp_ConsumeMessages (fun m => (map_to_list m).*2) "q" a = []
  | _ => False
  end.
Proof. vm_compute. done. Qed.

(** Messages that come back through the bridge have no exchange, routing key or
    properties: the store keeps the bodies only. *)
Lemma bridge_loses_properties {St} `{!AmqpStore St} req (w : Batch.BatchWriter St) ms tag ds :
  bridge_ConsumeMessages req w = Ok ms -> TranslateConsumeResponse ms tag None = Ok ds ->
  Forall (fun d => d_Exchange d = "" /\ RoutingKey d = "" /\ Properties d = known (mkProperties "" "" None 0 0 "" "" "" "" 0 "" "" "" "")) ds.
Proof.
  unfold bridge_ConsumeMessages. destruct (GetMessages _ _ _) as [bs|]; [|done]. intros [= <-] [= <-].
  apply Forall_lookup_2. intros i d Hd. apply list_lookup_imap_Some in Hd as (m & Hm & ->).
  apply list_lookup_imap_Some in Hm as (b & _ & ->). done.
Qed.
End AdaptersSpec.
