(* ===== verification/Api.v ===== *)
(** * The HTTP API: server state, consumer groups and offsets
    ([src/pkg/api/fiber.go], [consumer_groups_native.go])

    A handler is a function of the parsed request (or the parser's error), the
    path parameters and the clock to the new server state and the reply.  A
    reply is a status code with either the error text of
    [{"success": false, "error": …}] or the fields of the answer.  Times are
    the formatted strings the handlers store.

    The map [consumerGroups] holds pointers to groups: the groups live in
    [group_objects] and the map gives positions, since a handler keeps using
    its pointer after it has released the mutex.  The store behind the API is
    the class [MessageStore]; the store of the server command implements it. *)
From stdpp Require Import base gmap strings list numbers fin_maps pretty.
From Stdlib Require Import ZArith Lia.
From S2P Require Import Prelude Types Stores.

Module Api.
Import Types Stores.

(** ** Replies and the storage interface *)

Record reply (A : Type) := mkReply { status : Z; body : string + A }.
Arguments mkReply {A} status body.
Arguments status {A} r.
Arguments body {A} r.
Definition fail {A} (code : Z) (e : string) : reply A := mkReply code (inl e).
Definition json {A} (a : A) : reply A := mkReply 200 (inr a).
Definition created {A} (a : A) : reply A := mkReply 201 (inr a).
Definition invalid_body {A} (e : string) : reply A := fail 400 ("Invalid request body: " +:+ e).

(** The methods of [storage.MessageStore] the API calls.  [FetchByID] can
    return neither a message nor an error. *)
Class MessageStore (S : Type) := {
  st_Store : PortaskMessage -> S -> S * option string;
  st_StoreBatch : list PortaskMessage -> S -> S * option string;
  st_Fetch : TopicName -> Z -> Z -> Z -> S -> res string (list PortaskMessage);
  st_FetchByID : MessageID -> S -> res string (option PortaskMessage);
  st_DeleteBatch : list MessageID -> S -> S * option string;
  st_CreateTopic : TopicInfo -> S -> S * option string;
  st_DeleteTopic : TopicName -> S -> S * option string;
  st_GetTopicInfo : TopicName -> S -> res string TopicInfo;
  st_ListTopics : S -> res string (list TopicInfo);
  st_GetPartitionCount : TopicName -> S -> res string Z;
  st_GetLatestOffset : TopicName -> Z -> S -> res string Z;
  st_GetEarliestOffset : TopicName -> Z -> S -> res string Z;
  st_CommitOffset : ConsumerOffset -> S -> S * option string;
  st_CommitOffsetBatch : list ConsumerOffset -> S -> S * option string;
  st_GetConsumerOffsets : string -> S -> res string (list ConsumerOffset);
  st_Cleanup : S -> S * option string
}.

(** The orders in which the server's store iterates over its maps. *)
Record orders := mkOrders {
  message_order : gmap string PortaskMessage -> list PortaskMessage;
  topic_order : gmap string TopicInfo -> list TopicInfo;
  offset_order : gmap string ConsumerOffset -> list ConsumerOffset
}.

#[export] Instance ServerStore_MessageStore (O : orders) : MessageStore ServerStore := {
  st_Store m s := (sv_Store m s, None);
  st_StoreBatch ms s := (sv_StoreBatch ms s, None);
  st_Fetch t p o l s := Ok (sv_Fetch (message_order O) t p o l s);
  st_FetchByID id s := match sv_FetchByID id s with Ok m => Ok (Some m) | Err e => Err e end;
  st_DeleteBatch ids s := (sv_DeleteBatch ids s, None);
  st_CreateTopic i s := (sv_CreateTopic i s, None);
  st_DeleteTopic t s := (sv_DeleteTopic t s, None);
  st_GetTopicInfo t s := sv_GetTopicInfo t s;
  st_ListTopics s := Ok (sv_ListTopics (topic_order O) s);
  st_GetPartitionCount t s := Ok (sv_GetPartitionCount t);
  st_GetLatestOffset t p s := Ok (sv_GetLatestOffset t p s);
  st_GetEarliestOffset t p s := Ok (sv_GetEarliestOffset t p);
  st_CommitOffset o s := (sv_CommitOffset o s, None);
  st_CommitOffsetBatch os s := (sv_CommitOffsetBatch os s, None);
  st_GetConsumerOffsets c s := Ok (sv_GetConsumerOffsets (offset_order O) c s);
  st_Cleanup s := (s, None)
}.

(** ** Data *)

Record ConsumerGroupMember := mkMember {
  m_ID : string; m_ClientID : string; m_ClientHost : string; m_Host : string; m_SessionTimeout : Z;
  m_Topics : list string; m_AssignedAt : string; m_JoinedAt : string; m_LastHeartbeat : string
}.
Record ConsumerGroup := mkGroup {
  g_ID : string; g_Name : string; g_State : string; g_Protocol : string; g_ProtocolType : string;
  g_Leader : string; g_Generation : Z; g_Members : list ConsumerGroupMember; g_Subscriptions : list string;
  g_Offsets : option (gmap string Z); g_Metadata : option (gmap string GoValue);
  g_CreatedAt : string; g_UpdatedAt : string
}.

Record TopicConfig := mkTopicConfig {
  RetentionMs : Z; CompressionType : string; MaxMessageBytes : Z; MinInSyncReplicas : Z
}.
Record Topic := mkTopic {
  t_Name : string; t_Partitions : Z; t_ReplicationFactor : Z; t_Config : TopicConfig;
  t_CreatedAt : string; t_UpdatedAt : string; t_MessageCount : Z; t_TotalBytes : Z
}.

Record CreateGroupRequest := mkCreateGroup {
  cg_Name : string; cg_Protocol : string; cg_ProtocolType : string; cg_Topics : list string
}.
Record JoinGroupRequest := mkJoin {
  j_MemberID : string; j_ClientID : string; j_ClientHost : string; j_SessionTimeout : Z
}.
Record NativePartitionAssignment := mkNativeAssignment { a_Topic : string; a_Partitions : list Z }.
Record JoinGroupResponse := mkJoinResponse {
  r_MemberID : string; r_Generation : Z; r_Leader : bool; r_Members : list ConsumerGroupMember;
  r_Assignment : list NativePartitionAssignment
}.
Record CommitOffsetRequest := mkCommit { c_Topic : string; c_Partition : Z; c_Offset : Z; c_Metadata : string }.
Record OffsetMetadata := mkOffsetMetadata { om_Offset : Z; om_Metadata : string }.
Record ResetOffsetsRequest := mkReset { rs_Topics : list string; rs_Position : string }.
Record GroupLagInfo := mkLag { l_Topic : string; l_Partition : Z; CurrentOffset : Z; LogEndOffset : Z; l_Lag : Z }.
Record GroupLagResponse := mkGroupLag { gl_GroupID : string; TotalLag : Z; Lags : list GroupLagInfo }.

(** ** The server *)

Record FiberServer (S : Type) := mkServer {
  storage : S;
  topics : gmap string Topic;
  consumerGroups : gmap string nat;
  group_objects : list ConsumerGroup;
  broadcast : list PortaskMessage
}.
Arguments mkServer {S}.
Arguments storage {S}. Arguments topics {S}. Arguments consumerGroups {S}. Arguments group_objects {S}.
Arguments broadcast {S}.

Section server.
Context {S : Type}.
Implicit Types s : FiberServer S.

Definition NewFiberServer (st : S) : FiberServer S := mkServer st ∅ ∅ [] [].
Definition set_storage (st : S) s : FiberServer S :=
  mkServer st (topics s) (consumerGroups s) (group_objects s) (broadcast s).
Definition set_topics (ts : gmap string Topic) s : FiberServer S :=
  mkServer (storage s) ts (consumerGroups s) (group_objects s) (broadcast s).
Definition set_groups (gs : gmap string nat) (objs : list ConsumerGroup) s : FiberServer S :=
  mkServer (storage s) (topics s) gs objs (broadcast s).
Definition set_broadcast (q : list PortaskMessage) s : FiberServer S :=
  mkServer (storage s) (topics s) (consumerGroups s) (group_objects s) q.

(** The group a name stands for, and an update of it through its pointer. *)
Definition group_at (groupID : string) s : option ConsumerGroup :=
  consumerGroups s !! groupID ≫= fun p => group_objects s !! p.
Definition update_group (groupID : string) (f : ConsumerGroup -> ConsumerGroup) s : FiberServer S :=
  match consumerGroups s !! groupID with
  | Some p => set_groups (consumerGroups s) (alter f p (group_objects s)) s
  | None => s
  end.
Definition not_found {A} (groupID : string) : reply A :=
  fail 404 ("Consumer group '" +:+ groupID +:+ "' not found").

(** ** Consumer groups *)

Definition handleCreateConsumerGroup (req : res string CreateGroupRequest) (now now' : string) s
  : FiberServer S * reply ConsumerGroup :=
  match req with
  | Err e => (s, invalid_body e)
  | Ok req =>
    if decide (cg_Name req = "") then (s, fail 400 "Group name is required")
    else if decide (cg_Topics req = []) then (s, fail 400 "At least one topic is required")
    else
      let protocol := if decide (cg_Protocol req = "") then "range" else cg_Protocol req in
      let protocolType := if decide (cg_ProtocolType req = "") then "consumer" else cg_ProtocolType req in
      let group := mkGroup (cg_Name req) (cg_Name req) "Empty" protocol protocolType "" 0 [] (cg_Topics req)
                     None None now now' in
      (set_groups (<[cg_Name req := length (group_objects s)]> (consumerGroups s)) (group_objects s ++ [group]) s,
       created group)
  end.

Definition handleListConsumerGroups (iter : gmap string nat -> list nat) s
  : reply (list ConsumerGroup * Z) :=
  let groups := omap (fun p => group_objects s !! p) (iter (consumerGroups s)) in
  json (groups, Z.of_nat (length groups)).

Definition handleGetConsumerGroup (groupID : string) s : reply ConsumerGroup :=
  if decide (groupID = "") then fail 400 "Group ID is required"
  else match group_at groupID s with
  | None => not_found groupID
  | Some group => json group
  end.

Definition handleDeleteConsumerGroup (groupID : string) s : FiberServer S * reply string :=
  if decide (groupID = "") then (s, fail 400 "Group ID is required")
  else (set_groups (delete groupID (consumerGroups s)) (group_objects s) s,
        json ("Consumer group '" +:+ groupID +:+ "' deleted")).

Definition set_subscriptions (ts : list string) (now : string) (g : ConsumerGroup) : ConsumerGroup :=
  mkGroup (g_ID g) (g_Name g) (g_State g) (g_Protocol g) (g_ProtocolType g) (g_Leader g) (g_Generation g)
    (g_Members g) ts (g_Offsets g) (g_Metadata g) (g_CreatedAt g) now.
Definition handleUpdateConsumerGroup (groupID : string) (req : res string (list string)) (now : string) s
  : FiberServer S * reply (string * list string) :=
  match req with
  | Err e => (s, invalid_body e)
  | Ok ts => (update_group groupID (set_subscriptions ts now) s,
              json ("Consumer group '" +:+ groupID +:+ "' updated", ts))
  end.

Definition set_members (st : string) (ms : list ConsumerGroupMember) (gen : Z) (now : string) (g : ConsumerGroup)
  : ConsumerGroup :=
  mkGroup (g_ID g) (g_Name g) st (g_Protocol g) (g_ProtocolType g) (g_Leader g) gen ms (g_Subscriptions g)
    (g_Offsets g) (g_Metadata g) (g_CreatedAt g) now.
Definition add_member (m : ConsumerGroupMember) (now : string) (g : ConsumerGroup) : ConsumerGroup :=
  set_members "Stable" (g_Members g ++ [m]) (s64 (g_Generation g + 1)) now g.

(** What a join does under the mutex: the error reply, or the new state with
    the pointer and the member identifier the reply is made of. *)
Definition join_locked (groupID : string) (req : res string JoinGroupRequest) (ip : string) (nanos : Z)
  (joined beat now : string) s : (reply JoinGroupResponse) + (FiberServer S * nat * string) :=
  match req with
  | Err e => inl (invalid_body e)
  | Ok req =>
    if decide (j_ClientID req = "") then inl (fail 400 "Client ID is required")
    else
      let sessionTimeout := if j_SessionTimeout req =? 0 then 10000 else j_SessionTimeout req in
      let clientHost := if decide (j_ClientHost req = "") then ip else j_ClientHost req in
      let memberID := if decide (j_MemberID req = "") then j_ClientID req +:+ "-" +:+ pretty nanos
                      else j_MemberID req in
      match consumerGroups s !! groupID with
      | None => inl (not_found groupID)
      | Some p =>
        let member := mkMember memberID (j_ClientID req) clientHost "" sessionTimeout [] "" joined beat in
        inr (set_groups (consumerGroups s) (alter (add_member member now) p (group_objects s)) s, p, memberID)
      end
  end.

(** The reply is built after the mutex is released, from the group as it is
    then; objects are never freed, so the pointer is good. *)
Definition join_reply (p : nat) (memberID : string) s : reply JoinGroupResponse :=
  match group_objects s !! p with
  | Some group =>
    json (mkJoinResponse memberID (s32 (g_Generation group)) (bool_decide (length (g_Members group) = 1%nat)) [] [])
  | None => fail 500 ""
  end.

Definition handleJoinConsumerGroup (groupID : string) (req : res string JoinGroupRequest) (ip : string) (nanos : Z)
  (joined beat now : string) s : FiberServer S * reply JoinGroupResponse :=
  match join_locked groupID req ip nanos joined beat now s with
  | inl r => (s, r)
  | inr (s', p, memberID) => (s', join_reply p memberID s')
  end.

(** The loops that stop at the first member with the identifier. *)
Fixpoint remove_member (memberID : string) (ms : list ConsumerGroupMember) : list ConsumerGroupMember :=
  match ms with
  | [] => []
  | m :: ms => if decide (m_ID m = memberID) then ms else m :: remove_member memberID ms
  end.
Definition set_heartbeat (now : string) (m : ConsumerGroupMember) : ConsumerGroupMember :=
  mkMember (m_ID m) (m_ClientID m) (m_ClientHost m) (m_Host m) (m_SessionTimeout m) (m_Topics m) (m_AssignedAt m)
    (m_JoinedAt m) now.
Fixpoint beat_member (memberID now : string) (ms : list ConsumerGroupMember) : list ConsumerGroupMember :=
  match ms with
  | [] => []
  | m :: ms => if decide (m_ID m = memberID) then set_heartbeat now m :: ms else m :: beat_member memberID now ms
  end.

Definition leave_group (memberID now : string) (g : ConsumerGroup) : ConsumerGroup :=
  let ms := remove_member memberID (g_Members g) in
  set_members (if decide (ms = []) then "Empty" else g_State g) ms (g_Generation g) now g.
Definition handleLeaveConsumerGroup (groupID : string) (req : res string string) (now : string) s
  : FiberServer S * reply string :=
  match req with
  | Err e => (s, invalid_body e)
  | Ok memberID =>
    if decide (memberID = "") then (s, fail 400 "Member ID is required")
    else (update_group groupID (leave_group memberID now) s,
          json ("Member '" +:+ memberID +:+ "' left group '" +:+ groupID +:+ "'"))
  end.

Definition handleHeartbeat (groupID : string) (req : res string (string * Z)) (now : string) s
  : FiberServer S * reply string :=
  match req with
  | Err e => (s, invalid_body e)
  | Ok (memberID, generation) =>
    if decide (memberID = "") then (s, fail 400 "Member ID is required")
    else (update_group groupID
            (fun g => set_members (g_State g) (beat_member memberID now (g_Members g)) (g_Generation g)
                        (g_UpdatedAt g) g) s,
          json "Heartbeat received")
  end.

Definition handleListGroupMembers (groupID : string) s : reply (list ConsumerGroupMember * Z) :=
  match group_at groupID s with
  | None => not_found groupID
  | Some group => json (g_Members group, Z.of_nat (length (g_Members group)))
  end.

(** State, generation, leader, number of members, protocol and times. *)
Record GroupState := mkGroupState {
  gs_id : string; gs_state : string; gs_generation : Z; gs_leader : string; gs_members : Z; gs_protocol : string;
  gs_created : string; gs_updated : string
}.
Definition handleGetGroupState (groupID : string) s : reply GroupState :=
  match group_at groupID s with
  | None => not_found groupID
  | Some group =>
    let leader := match g_Members group with m :: _ => m_ID m | [] => "" end in
    json (mkGroupState groupID (g_State group) (g_Generation group) leader (Z.of_nat (length (g_Members group)))
            (g_Protocol group) (g_CreatedAt group) (g_UpdatedAt group))
  end.
End server.

(** ** Offsets *)

Section offsets.
Context {S : Type} `{!MessageStore S}.
Implicit Types s : FiberServer S.

Definition consumer_offset (groupID : string) (clock : nat -> Z) (i : nat) (o : CommitOffsetRequest) : ConsumerOffset :=
  mkConsumerOffset groupID (c_Topic o) (c_Partition o) (c_Offset o) (clock i) (c_Metadata o).

Definition handleCommitOffsets (groupID : string) (req : res string (list CommitOffsetRequest)) (clock : nat -> Z) s
  : FiberServer S * reply (Z * string) :=
  match req with
  | Err e => (s, invalid_body e)
  | Ok offsets =>
    if decide (offsets = []) then (s, fail 400 "At least one offset is required")
    else
      let consumerOffsets := imap (consumer_offset groupID clock) offsets in
      match st_CommitOffsetBatch consumerOffsets (storage s) with
      | (st, Some e) => (set_storage st s, fail 500 ("Failed to commit offsets: " +:+ e))
      | (st, None) => (set_storage st s, json (Z.of_nat (length consumerOffsets), groupID))
      end
  end.

(** [offsets[topic][partition] = …] with the inner map made when it is nil. *)
Definition put_offset (offsets : gmap string (gmap Z OffsetMetadata)) (o : ConsumerOffset)
  : gmap string (gmap Z OffsetMetadata) :=
  <[co_Topic o := <[co_Partition o := mkOffsetMetadata (co_Offset o) (co_Metadata o)]>
                    (default ∅ (offsets !! co_Topic o))]> offsets.
Definition handleFetchOffsets (groupID : string) s : reply (gmap string (gmap Z OffsetMetadata)) :=
  match st_GetConsumerOffsets groupID (storage s) with
  | Err e => fail 500 ("Failed to fetch offsets: " +:+ e)
  | Ok consumerOffsets => json (foldl put_offset ∅ consumerOffsets)
  end.

(** One partition of the reset loop; errors leave the count alone. *)
Definition reset_partition (groupID position topic : string) (clock : Z -> Z) (acc : S * Z) (partition : Z) : S * Z :=
  let '(st, count) := acc in
  match (if decide (position = "earliest") then st_GetEarliestOffset topic partition st
         else st_GetLatestOffset topic partition st) with
  | Err _ => (st, count)
  | Ok newOffset =>
    match st_CommitOffset (mkConsumerOffset groupID topic partition newOffset (clock partition)
                             ("reset to " +:+ position)) st with
    | (st, Some _) => (st, count)
    | (st, None) => (st, count + 1)
    end
  end.
Definition reset_topic (groupID position : string) (clock : Z -> Z) (acc : S * Z) (topic : string) : S * Z :=
  match st_GetPartitionCount topic (fst acc) with
  | Err _ => acc
  | Ok partitionCount => foldl (reset_partition groupID position topic clock) acc (seqZ 0 partitionCount)
  end.
(** The topics of a reset that names none: those the group has offsets for. *)
Definition group_topics (iter : gset string -> list string) (groupID : string) (st : S) : list string :=
  match st_GetConsumerOffsets groupID st with
  | Err _ => []
  | Ok os => iter (list_to_set (co_Topic <$> os))
  end.
Definition handleResetOffsets (iter : gset string -> list string) (groupID : string)
  (req : res string ResetOffsetsRequest) (clock : nat -> Z -> Z) s
  : FiberServer S * reply (string * string * Z * list string) :=
  match req with
  | Err e => (s, invalid_body e)
  | Ok req =>
    let position := rs_Position req in
    if decide (position <> "earliest" /\ position <> "latest")
    then (s, fail 400 "Position must be 'earliest' or 'latest'")
    else
      let ts := if decide (rs_Topics req = []) then group_topics iter groupID (storage s) else rs_Topics req in
      let '(st, resetCount) :=
        foldl (fun acc '(i, t) => reset_topic groupID position (clock i) acc t) (storage s, 0) (imap pair ts) in
      (set_storage st s,
       json ("Reset " +:+ pretty resetCount +:+ " offsets to " +:+ position, groupID, resetCount, ts))
  end.

Definition lag_of (st : S) (o : ConsumerOffset) : option GroupLagInfo :=
  match st_GetLatestOffset (co_Topic o) (co_Partition o) st with
  | Err _ => None
  | Ok latestOffset =>
    let lag := s64 (latestOffset - co_Offset o) in
    Some (mkLag (co_Topic o) (co_Partition o) (co_Offset o) latestOffset (if lag <? 0 then 0 else lag))
  end.
Definition handleGetGroupLag (groupID : string) s : reply GroupLagResponse :=
  let consumerOffsets := match st_GetConsumerOffsets groupID (storage s) with Ok os => os | Err _ => [] end in
  let lags := omap (lag_of (storage s)) consumerOffsets in
  json (mkGroupLag groupID (foldl (fun t l => s64 (t + l_Lag l)) 0 lags) lags).
End offsets.
End Api.
