(* ===== verification/ApiSpec.v ===== *)
(** * Theorems about the API's consumer groups and offsets

    The groups refine a map of plain values: no request for one group touches
    another, and state and generation follow from the joins and leaves
    ([native_groups_refine]).  The offset handlers are proved against the
    interface [OffsetStore], a store that keeps committed offsets by group,
    topic and partition, which the server's store implements for names without
    underscores. *)
From stdpp Require Import base gmap strings list numbers fin_maps pretty.
From Stdlib Require Import ZArith Lia.
From S2P Require Import Prelude Types Stores StoresSpec Api.

Module ApiSpec.
Import Types Stores StoresSpec Api.

(** Narrowing twice is narrowing once. *)
Lemma wraps_wraps w v z : 0 < w <= v -> wraps w (wraps v z) = wraps w z.
Proof.
  intros H. assert (0 < 2 ^ w /\ 0 < 2 ^ v) as [Hw Hv] by (split; apply Z.pow_pos_nonneg; lia).
  assert (Z.divide (2 ^ w) (2 ^ v)) as Hd.
  { exists (2 ^ (v - w)). rewrite <- Z.pow_add_r by lia. f_equal. lia. }
  apply wraps_congr; [lia|].
  rewrite (Znumtheory.Zmod_div_mod _ (2 ^ v) (wraps v z)), wraps_mod by (done || lia).
  by rewrite <- Znumtheory.Zmod_div_mod.
Qed.

(** ** Consumer groups *)

(** The requests that change groups, with the times the handlers read. *)
Inductive group_op :=
| GCreate (req : res string CreateGroupRequest) (now now' : string)
| GDelete (groupID : string)
| GUpdate (groupID : string) (req : res string (list string)) (now : string)
| GJoin (groupID : string) (req : res string JoinGroupRequest) (ip : string) (nanos : Z) (joined beat now : string)
| GLeave (groupID : string) (req : res string string) (now : string)
| GBeat (groupID : string) (req : res string (string * Z)) (now : string).

Definition run_group {S} (s : FiberServer S) (op : group_op) : FiberServer S :=
  match op with
  | GCreate req now now' => fst (handleCreateConsumerGroup req now now' s)
  | GDelete g => fst (handleDeleteConsumerGroup g s)
  | GUpdate g req now => fst (handleUpdateConsumerGroup g req now s)
  | GJoin g req ip nanos joined beat now => fst (handleJoinConsumerGroup g req ip nanos joined beat now s)
  | GLeave g req now => fst (handleLeaveConsumerGroup g req now s)
  | GBeat g req now => fst (handleHeartbeat g req now s)
  end.

(** The abstract group: what was asked for, who is in it, how often it was joined. *)
Record agroup := mkA {
  ag_protocol : string; ag_type : string; ag_topics : list string; ag_members : list ConsumerGroupMember;
  ag_joins : nat; ag_created : string; ag_updated : string
}.

Definition orelse (x d : string) : string := if decide (x = "") then d else x.

(** Leaving takes the first member with the identifier out of the list; a
    heartbeat renews the time of the first one and changes nothing else. *)
Definition without (id : string) (ms : list ConsumerGroupMember) : list ConsumerGroupMember :=
  match list_find (fun m => m_ID m = id) ms with Some (i, _) => delete i ms | None => ms end.
Definition renewed (id now : string) (ms : list ConsumerGroupMember) : list ConsumerGroupMember :=
  match list_find (fun m => m_ID m = id) ms with
  | Some (i, m) => <[i := mkMember id (m_ClientID m) (m_ClientHost m) (m_Host m) (m_SessionTimeout m) (m_Topics m)
                            (m_AssignedAt m) (m_JoinedAt m) now]> ms
  | None => ms
  end.

Definition spec_group (m : gmap string agroup) (op : group_op) : gmap string agroup :=
  match op with
  | GCreate (Ok req) now now' =>
    if decide (cg_Name req = "" \/ cg_Topics req = []) then m
    else <[cg_Name req := mkA (orelse (cg_Protocol req) "range") (orelse (cg_ProtocolType req) "consumer")
                            (cg_Topics req) [] 0 now now']> m
  | GDelete g => if decide (g = "") then m else delete g m
  | GUpdate g (Ok ts) now =>
    alter (fun a => mkA (ag_protocol a) (ag_type a) ts (ag_members a) (ag_joins a) (ag_created a) now) g m
  | GJoin g (Ok req) ip nanos joined beat now =>
    if decide (j_ClientID req = "") then m
    else
      let member := mkMember (orelse (j_MemberID req) (j_ClientID req +:+ "-" +:+ pretty nanos)) (j_ClientID req)
                      (orelse (j_ClientHost req) ip) ""
                      (if j_SessionTimeout req =? 0 then 10000 else j_SessionTimeout req) [] "" joined beat in
      alter (fun a => mkA (ag_protocol a) (ag_type a) (ag_topics a) (ag_members a ++ [member])
                        (Datatypes.S (ag_joins a)) (ag_created a) now) g m
  | GLeave g (Ok id) now =>
    if decide (id = "") then m
    else alter (fun a => mkA (ag_protocol a) (ag_type a) (ag_topics a) (without id (ag_members a))
                           (ag_joins a) (ag_created a) now) g m
  | GBeat g (Ok (id, _)) now =>
    if decide (id = "") then m
    else alter (fun a => mkA (ag_protocol a) (ag_type a) (ag_topics a) (renewed id now (ag_members a))
                           (ag_joins a) (ag_created a) (ag_updated a)) g m
  | _ => m
  end.

(** The group an abstract group shows: its state and generation are derived,
    and the leader field is never set. *)
Definition view (g : string) (a : agroup) : ConsumerGroup :=
  mkGroup g g (if decide (ag_members a = []) then "Empty" else "Stable") (ag_protocol a) (ag_type a) ""
    (s64 (Z.of_nat (ag_joins a))) (ag_members a) (ag_topics a) None None (ag_created a) (ag_updated a).

Section groups.
Context {S : Type}.
Implicit Types s : FiberServer S.

(** Names stand for different objects, which show the abstract groups. *)
Record groups_ok s (m : gmap string agroup) : Prop := {
  ok_view g : group_at g s = view g <$> m !! g;
  ok_inj g g' p : consumerGroups s !! g = Some p -> consumerGroups s !! g' = Some p -> g = g';
  ok_bound g p : consumerGroups s !! g = Some p -> (p < length (group_objects s))%nat
}.

Lemma group_at_update g g' f s :
  (forall g1 g2 p, consumerGroups s !! g1 = Some p -> consumerGroups s !! g2 = Some p -> g1 = g2) ->
  group_at g' (update_group g f s) = if decide (g' = g) then f <$> group_at g s else group_at g' s.
Proof.
  intros Hinj. unfold group_at, update_group.
  destruct (consumerGroups s !! g) as [p|] eqn:Hg; cbn.
  - case_decide as E; [subst; rewrite Hg; cbn; apply list_lookup_alter_eq|].
    destruct (consumerGroups s !! g') as [p'|] eqn:Hg'; cbn; [|done].
    apply list_lookup_alter_ne. intros ->. apply E. by apply (Hinj g' g p').
  - case_decide as E; [by subst; rewrite Hg|done].
Qed.

(** An update through the pointer is an update of the abstract group. *)
Lemma groups_ok_update s m g (f : ConsumerGroup -> ConsumerGroup) (h : agroup -> agroup) :
  groups_ok s m -> (forall a, f (view g a) = view g (h a)) -> groups_ok (update_group g f s) (alter h g m).
Proof.
  intros [Hv Hi Hb] Hf.
  assert (consumerGroups (update_group g f s) = consumerGroups s) as Ec.
  { unfold update_group. by destruct (consumerGroups s !! g). }
  assert (length (group_objects (update_group g f s)) = length (group_objects s)) as El.
  { unfold update_group. destruct (consumerGroups s !! g); [cbn; by rewrite length_alter|done]. }
  constructor.
  - intros g'. rewrite group_at_update by done. case_decide as E.
    + subst. rewrite lookup_alter_eq, Hv. destruct (m !! g); cbn; [by rewrite Hf|done].
    + by rewrite lookup_alter_ne, Hv.
  - rewrite Ec. apply Hi.
  - rewrite Ec, El. apply Hb.
Qed.

Lemma groups_ok_create s m g a :
  groups_ok s m ->
  groups_ok (set_groups (<[g := length (group_objects s)]> (consumerGroups s)) (group_objects s ++ [view g a]) s)
    (<[g := a]> m).
Proof.
  intros [Hv Hi Hb].
  assert (forall g', consumerGroups s !! g' <> Some (length (group_objects s))) as Hn.
  { intros g' E. apply Hb in E. lia. }
  constructor; unfold group_at; cbn.
  - intros g'. destruct (decide (g' = g)) as [->|Hne].
    + rewrite !lookup_insert_eq. cbn. by rewrite lookup_app_r, Nat.sub_diag.
    + rewrite !lookup_insert_ne by done. rewrite <- Hv. unfold group_at.
      destruct (consumerGroups s !! g') as [p|] eqn:Hp; [|done]. cbn. apply lookup_app_l. by eapply Hb.
  - intros g1 g2 p E1 E2. apply lookup_insert_Some in E1 as [[<- <-]|[? E1]], E2 as [[<- E]|[? E2]]; try done.
    + by apply Hn in E2.
    + subst. by apply Hn in E1.
    + by eapply Hi.
  - intros g' p E. rewrite length_app. cbn. apply lookup_insert_Some in E as [[_ <-]|[_ E]]; [lia|].
    apply Hb in E. lia.
Qed.

Lemma groups_ok_delete s m g :
  groups_ok s m -> groups_ok (set_groups (delete g (consumerGroups s)) (group_objects s) s) (delete g m).
Proof.
  intros [Hv Hi Hb]. constructor; unfold group_at; cbn.
  - intros g'. destruct (decide (g' = g)) as [->|Hne]; [by rewrite !lookup_delete_eq|].
    rewrite !lookup_delete_ne by done. apply Hv.
  - intros g1 g2 p E1 E2. apply lookup_delete_Some in E1 as [_ E1], E2 as [_ E2]. by eapply Hi.
  - intros g' p E. apply lookup_delete_Some in E as [_ E]. by eapply Hb.
Qed.

Lemma joined_update g req ip nanos joined beat now s s' p id :
  join_locked g (Ok req) ip nanos joined beat now s = inr (s', p, id) ->
  s' = update_group g (add_member (mkMember id (j_ClientID req) (orelse (j_ClientHost req) ip) ""
         (if j_SessionTimeout req =? 0 then 10000 else j_SessionTimeout req) [] "" joined beat) now) s
  /\ id = orelse (j_MemberID req) (j_ClientID req +:+ "-" +:+ pretty nanos) /\ j_ClientID req <> ""
  /\ consumerGroups s !! g = Some p.
Proof.
  unfold join_locked, update_group. case_decide; [done|]. destruct (consumerGroups s !! g); [|done].
  intros [= <- <- <-]. done.
Qed.

Lemma view_join g a m now :
  add_member m now (view g a)
  = view g (mkA (ag_protocol a) (ag_type a) (ag_topics a) (ag_members a ++ [m]) (Datatypes.S (ag_joins a))
              (ag_created a) now).
Proof.
  unfold add_member, set_members, view. cbn. rewrite decide_False by (by destruct (ag_members a)).
  f_equal. apply wraps_congr; [done|]. rewrite <- Zplus_mod_idemp_l, wraps_mod, Zplus_mod_idemp_l by done.
  f_equal. lia.
Qed.

(** The loops of the handlers are these. *)
Lemma remove_member_without id ms : remove_member id ms = without id ms.
Proof.
  unfold without. induction ms as [|m ms IH]; [done|]. cbn [remove_member list_find]. case_decide; [done|].
  rewrite IH. by destruct (list_find _ ms) as [[i m']|].
Qed.
Lemma beat_member_renewed id now ms : beat_member id now ms = renewed id now ms.
Proof.
  unfold renewed. induction ms as [|m ms IH]; [done|]. cbn [beat_member list_find]. case_decide as E; [by subst|].
  rewrite IH. by destruct (list_find _ ms) as [[i m']|].
Qed.

Lemma view_leave g a id now :
  leave_group id now (view g a)
  = view g (mkA (ag_protocol a) (ag_type a) (ag_topics a) (without id (ag_members a)) (ag_joins a)
              (ag_created a) now).
Proof.
  rewrite <- remove_member_without. unfold leave_group, set_members, view. cbn. f_equal. case_decide; [done|].
  by rewrite decide_False by (intros E; rewrite E in *; done).
Qed.

Lemma beat_member_nil id now ms : beat_member id now ms = [] <-> ms = [].
Proof. destruct ms as [|m ms]; cbn; [done|]. by case_decide. Qed.

Lemma alter_missing (f : agroup -> agroup) g (m : gmap string agroup) : m !! g = None -> alter f g m = m.
Proof. intros E. apply map_eq. intros g'. destruct (decide (g' = g)) as [->|]; [by rewrite lookup_alter_eq, E|by rewrite lookup_alter_ne]. Qed.

Lemma join_ok s m g req ip nanos joined beat now :
  groups_ok s m ->
  groups_ok (fst (handleJoinConsumerGroup g req ip nanos joined beat now s))
    (spec_group m (GJoin g req ip nanos joined beat now)).
Proof.
  intros H. unfold handleJoinConsumerGroup. destruct req as [req|e]; [|done].
  destruct (join_locked g (Ok req) ip nanos joined beat now s) as [r|[[s' p] id]] eqn:E; cbn.
  - case_decide; [done|]. unfold join_locked in E. rewrite decide_False in E by done.
    destruct (consumerGroups s !! g) eqn:Eg; [done|]. rewrite alter_missing; [done|].
    pose proof (ok_view _ _ H g) as Hv. unfold group_at in Hv. rewrite Eg in Hv. by destruct (m !! g).
  - apply joined_update in E as (-> & -> & Hc & _). rewrite decide_False by done.
    apply groups_ok_update; [done|]. intros a. apply view_join.
Qed.

Lemma run_group_ok s m op : groups_ok s m -> groups_ok (run_group s op) (spec_group m op).
Proof.
  intros H. destruct op as [req now now'|g|g req now|g req ip nanos joined beat now|g req now|g req now].
  - destruct req as [req|e]; [|done]. cbn. unfold handleCreateConsumerGroup.
    destruct (decide (cg_Name req = "")) as [E1|E1]; [by rewrite decide_True by auto|].
    destruct (decide (cg_Topics req = [])) as [E2|E2]; [by rewrite decide_True by auto|].
    destruct (decide (cg_Name req = "" \/ cg_Topics req = [])) as [[]|_]; [done..|].
    exact (groups_ok_create s m (cg_Name req) (mkA (orelse (cg_Protocol req) "range")
      (orelse (cg_ProtocolType req) "consumer") (cg_Topics req) [] 0 now now') H).
  - cbn. unfold handleDeleteConsumerGroup. case_decide; [done|]. by apply groups_ok_delete.
  - destruct req as [ts|e]; [|done]. cbn. by apply groups_ok_update.
  - by apply join_ok.
  - destruct req as [id|e]; [|done]. cbn. case_decide; [done|].
    apply groups_ok_update; [done|]. intros a. apply view_leave.
  - destruct req as [[id gen]|e]; [|done]. cbn. case_decide; [done|].
    apply groups_ok_update; [done|]. intros a. rewrite <- beat_member_renewed.
    unfold set_members, view. cbn. f_equal.
    destruct (decide (ag_members a = [])) as [E|E], (decide (beat_member id now (ag_members a) = [])) as [E'|E'];
      rewrite beat_member_nil in E'; done.
Qed.

Lemma run_groups_ok ops s m : groups_ok s m -> groups_ok (foldl run_group s ops) (foldl spec_group m ops).
Proof. revert s m. induction ops as [|op ops IH]; [done|]. intros s m H. by apply IH, run_group_ok. Qed.

Lemma new_groups_ok (st : S) : groups_ok (NewFiberServer st) ∅.
Proof. by constructor. Qed.

(** C33: consumer groups of the HTTP API.  After any sequence of create, delete,
    update, join, leave and heartbeat requests, valid or not, what the API
    shows of a group is what a map of abstract groups shows: it depends only on
    the requests for that group since it was last created, its members are
    those who joined, in order, a leave taking out the first one with its
    identifier and a heartbeat renewing only its time, it is Stable exactly if it
    has members, its generation counts the joins (and not the leaves), the
    leader is the oldest member, and one who joins is told that he leads
    exactly if the group was empty. *)
Theorem native_groups_refine (st : S) ops g :
  let s := foldl run_group (NewFiberServer st) ops in
  match foldl spec_group ∅ ops !! g with
  | None => group_at g s = None
    /\ handleListGroupMembers g s = not_found g /\ handleGetGroupState g s = not_found g
  | Some a =>
    handleGetConsumerGroup g s = (if decide (g = "") then fail 400 "Group ID is required" else json (view g a))
    /\ handleListGroupMembers g s = json (ag_members a, Z.of_nat (length (ag_members a)))
    /\ handleGetGroupState g s
       = json (mkGroupState g (if decide (ag_members a = []) then "Empty" else "Stable")
                 (s64 (Z.of_nat (ag_joins a))) (from_option m_ID "" (head (ag_members a)))
                 (Z.of_nat (length (ag_members a))) (ag_protocol a) (ag_created a) (ag_updated a))
    /\ forall req ip nanos joined beat now, j_ClientID req <> "" ->
       snd (handleJoinConsumerGroup g (Ok req) ip nanos joined beat now s)
       = json (mkJoinResponse (orelse (j_MemberID req) (j_ClientID req +:+ "-" +:+ pretty nanos))
                 (s32 (Z.of_nat (ag_joins a) + 1)) (bool_decide (ag_members a = [])) [] [])
  end.
Proof.
  intros s. pose proof (run_groups_ok ops _ _ (new_groups_ok st)) as Hok. fold s in Hok.
  set (m := foldl spec_group ∅ ops) in *. pose proof (ok_view _ _ Hok g) as Hg.
  unfold handleListGroupMembers, handleGetGroupState, handleGetConsumerGroup.
  destruct (m !! g) as [a|] eqn:Em; rewrite Hg; [|done]. cbn [fmap option_fmap option_map view].
  split; [done|]. split; [done|]. split; [by destruct a as [? ? ? [|? ?] ? ? ?]|].
  intros req ip nanos joined beat now Hc. unfold handleJoinConsumerGroup.
  destruct (join_locked g (Ok req) ip nanos joined beat now s) as [r|[[s' p] id]] eqn:E.
  - exfalso. unfold join_locked in E. rewrite decide_False in E by done. unfold group_at in Hg.
    by destruct (consumerGroups s !! g).
  - apply joined_update in E as (-> & -> & _ & Hp). cbn [snd]. unfold join_reply, update_group. rewrite Hp.
    cbn [group_objects set_groups]. rewrite list_lookup_alter_eq. unfold group_at in Hg. rewrite Hp in Hg. cbn in Hg.
    rewrite Hg. cbn [fmap option_fmap option_map]. rewrite view_join. cbn. f_equal. f_equal.
    + rewrite wraps_wraps by done. f_equal. lia.
    + apply bool_decide_ext. rewrite length_app. cbn. destruct (ag_members a); cbn; split; intros; done || lia.
Qed.

(** The reply of a join is built after the mutex is released: of two members
    that join an empty group at the same time, neither is told to lead. *)
Lemma leaderless_race (st : S) :
  let req c := Ok (mkJoin "" c "" 0) in
  let s := fst (handleCreateConsumerGroup (Ok (mkCreateGroup "g" "" "" ["t"])) "" "" (NewFiberServer st)) in
  exists s1 p1 id1 s2 p2 id2,
    join_locked "g" (req "a") "" 1 "" "" "" s = inr (s1, p1, id1)
    /\ join_locked "g" (req "b") "" 2 "" "" "" s1 = inr (s2, p2, id2)
    /\ join_reply p1 id1 s2 = json (mkJoinResponse id1 2 false [] [])
    /\ join_reply p2 id2 s2 = json (mkJoinResponse id2 2 false [] []).
Proof. repeat eexists. Qed.

(** A member that joins again under its identifier is listed twice. *)
Lemma rejoin_duplicates (st : S) :
  let s := foldl run_group (NewFiberServer st)
    [GCreate (Ok (mkCreateGroup "g" "" "" ["t"])) "" ""; GJoin "g" (Ok (mkJoin "m" "c" "" 0)) "" 1 "" "" "";
     GJoin "g" (Ok (mkJoin "m" "c" "" 0)) "" 2 "" "" ""] in
  option_map (fun g => m_ID <$> g_Members g) (group_at "g" s) = Some ["m"; "m"].
Proof. done. Qed.

(** Creating a group that exists throws its members out and resets its generation. *)
Lemma create_overwrites (st : S) :
  let s := foldl run_group (NewFiberServer st)
    [GCreate (Ok (mkCreateGroup "g" "" "" ["t"])) "" ""; GJoin "g" (Ok (mkJoin "m" "c" "" 0)) "" 1 "" "" "";
     GCreate (Ok (mkCreateGroup "g" "" "" ["t"])) "" ""] in
  option_map (fun g => (g_Members g, g_Generation g)) (group_at "g" s) = Some ([], 0).
Proof. done. Qed.
End groups.

(** ** Committed offsets *)

Definition okey (o : ConsumerOffset) : string * string * Z := (co_ConsumerID o, co_Topic o, co_Partition o).
Definition put_all (m : gmap (string * string * Z) ConsumerOffset) (os : list ConsumerOffset)
  : gmap (string * string * Z) ConsumerOffset := foldl (fun m o => <[okey o := o]> m) m os.

(** What the offset handlers need of a store: it keeps the offset committed
    last for each consumer, topic and partition with valid names, and a commit
    changes neither the logs nor the number of partitions. *)
Class OffsetStore (S : Type) `{!MessageStore S} := {
  valid_name : string -> Prop;
  offsets_repr : S -> gmap (string * string * Z) ConsumerOffset -> Prop;
  repr_keyed st m k o : offsets_repr st m -> m !! k = Some o -> k = okey o;
  commit_repr st m o : offsets_repr st m -> valid_name (co_ConsumerID o) -> valid_name (co_Topic o) ->
    exists st', st_CommitOffset o st = (st', None) /\ offsets_repr st' (<[okey o := o]> m)
      /\ (forall t p, st_GetLatestOffset t p st' = st_GetLatestOffset t p st)
      /\ (forall t, st_GetPartitionCount t st' = st_GetPartitionCount t st);
  commit_batch_repr st m os : offsets_repr st m ->
    Forall (fun o => valid_name (co_ConsumerID o) /\ valid_name (co_Topic o)) os ->
    exists st', st_CommitOffsetBatch os st = (st', None) /\ offsets_repr st' (put_all m os);
  get_repr st m c : offsets_repr st m ->
    exists l, st_GetConsumerOffsets c st = Ok l /\ l ≡ₚ filter (fun o => co_ConsumerID o = c) (map_to_list m).*2
}.

(** The server's store implements it for names without underscores. *)
Record server_repr (st : ServerStore) (m : gmap (string * string * Z) ConsumerOffset) : Prop := {
  sr_keyed k o : m !! k = Some o -> k = okey o /\ plain_offset o;
  sr_stored k o : sv_offsets st !! k = Some o ->
    k = offset_key (co_ConsumerID o) (co_Topic o) (co_Partition o) /\ m !! okey o = Some o;
  sr_all c t p o : m !! (c, t, p) = Some o -> sv_offsets st !! offset_key c t p = Some o
}.

Lemma server_repr_commit st m o :
  server_repr st m -> plain_offset o -> server_repr (sv_CommitOffset o st) (<[okey o := o]> m).
Proof.
  intros [Hk Hs Ha] Ho. constructor; cbn.
  - intros k o' E. apply lookup_insert_Some in E as [[<- <-]|[_ E]]; auto.
  - intros k o' E. apply lookup_insert_Some in E as [[<- <-]|[Hne E]]; [by rewrite lookup_insert_eq|].
    destruct (Hs _ _ E) as [-> E']. split; [done|]. rewrite lookup_insert_ne; [done|].
    intros Eo. apply Hne. injection Eo as -> -> ->. done.
  - intros c t p o' E. apply lookup_insert_Some in E as [[[= <- <- <-] <-]|[Hne E]]; [by rewrite lookup_insert_eq|].
    rewrite lookup_insert_ne; [by apply Ha|]. intros Ek. apply Hne.
    destruct (Hk _ _ E) as [[= -> -> ->] [Hc Ht]]. destruct Ho. by apply offset_key_inj in Ek.
Qed.

(** A map whose values know their keys lists every value once. *)
Lemma keyed_values_NoDup {K} `{Countable K} {V} (f : V -> K) (m : gmap K V) :
  (forall k v, m !! k = Some v -> k = f v) -> NoDup (map_to_list m).*2.
Proof.
  intros Hf. apply NoDup_fmap_2_strong; [|apply NoDup_map_to_list].
  intros [k v] [k' v'] E E' ?. cbn in *. subst. apply elem_of_map_to_list in E, E'.
  by rewrite (Hf _ _ E), (Hf _ _ E').
Qed.

Lemma elem_of_values {K} `{Countable K} {V} (m : gmap K V) v : v ∈ (map_to_list m).*2 <-> exists k, m !! k = Some v.
Proof.
  rewrite list_elem_of_fmap. split.
  - intros ([k v'] & -> & E). exists k. by apply elem_of_map_to_list in E.
  - intros [k E]. exists (k, v). split; [done|]. by apply elem_of_map_to_list.
Qed.

Lemma server_repr_values st m : server_repr st m -> (map_to_list (sv_offsets st)).*2 ≡ₚ (map_to_list m).*2.
Proof.
  intros [Hk Hs Ha]. apply NoDup_Permutation.
  - apply (keyed_values_NoDup (fun o => offset_key (co_ConsumerID o) (co_Topic o) (co_Partition o))).
    intros k o E. by apply Hs.
  - apply (keyed_values_NoDup okey). intros k o E. by apply Hk.
  - intros o. rewrite !elem_of_values. split.
    + intros [k E]. exists (okey o). by eapply Hs.
    + intros [[[c t] p] E]. eexists. by apply Ha.
Qed.

#[refine, export] Instance ServerStore_OffsetStore (O : orders)
  (HO : forall m, offset_order O m ≡ₚ (map_to_list m).*2) :
  @OffsetStore ServerStore (ServerStore_MessageStore O) := {
  valid_name := plain; offsets_repr := server_repr
}.
Proof.
  - intros st m k o H E. by apply H in E as [].
  - intros st m o H Hc Ht. eexists. split; [reflexivity|]. split; [by apply server_repr_commit|]. done.
  - intros st m os H Hos. eexists. split; [reflexivity|]. revert st m H.
    induction Hos as [|o os Ho _ IH]; [done|]. intros st m H. by apply IH, server_repr_commit.
  - intros st m c H. eexists. split; [reflexivity|]. cbn. unfold sv_GetConsumerOffsets.
    by rewrite HO, (server_repr_values _ _ H).
Defined.

Section offset_theorems.
Context {S : Type} `{!MessageStore S, !OffsetStore S}.
Implicit Types s : FiberServer S.






(** A commit request: group, offsets, and the times of its entries. *)
Definition commit_request : Type := string * list CommitOffsetRequest * (nat -> Z).
Definition run_commit s (r : commit_request) : FiberServer S :=
  let '(g, os, clock) := r in fst (handleCommitOffsets g (Ok os) clock s).


Definition entry_for (g t : string) (p : Z) (e : string * CommitOffsetRequest) : Prop :=
  e.1 = g /\ c_Topic e.2 = t /\ c_Partition e.2 = p.
#[export] Instance entry_for_dec g t p e : Decision (entry_for g t p e).
Proof. unfold entry_for. apply _. Defined.





(** *** Resetting *)

(** Every offset of the group is at the end of its log, or still the old one
    and not among the partitions done. *)
Definition reset_inv (g : string) (st0 : S) (m0 : gmap (string * string * Z) ConsumerOffset)
  (done : string -> Z -> Prop) (st : S) : Prop :=
  (forall t p, st_GetLatestOffset t p st = st_GetLatestOffset t p st0)
  /\ (forall t, st_GetPartitionCount t st = st_GetPartitionCount t st0)
  /\ exists m, offsets_repr st m /\
     forall t p o, m !! (g, t, p) = Some o ->
       (forall n, st_GetLatestOffset t p st0 = Ok n -> co_Offset o = n) \/ (~ done t p /\ m0 !! (g, t, p) = Some o).

Lemma reset_partition_inv g st0 m0 done t p clock acc :
  valid_name g -> valid_name t -> reset_inv g st0 m0 done (fst acc) ->
  reset_inv g st0 m0 (fun t' p' => done t' p' \/ (t', p') = (t, p)) (fst (reset_partition g "latest" t clock acc p)).
Proof.
  intros Hg Ht (Hl & Hc & m & Hm & Hd). destruct acc as [st n]. cbn in *. unfold reset_partition.
  rewrite decide_False by done. destruct (st_GetLatestOffset t p st) as [off|e] eqn:E.
  - destruct (commit_repr st m (mkConsumerOffset g t p off (clock p) ("reset to " +:+ "latest")) Hm Hg Ht)
      as (st' & -> & Hm' & Hl' & Hc'). cbn. split; [intros; by rewrite Hl'|]. split; [intros; by rewrite Hc'|].
    eexists. split; [exact Hm'|]. intros t' p' o Eo. apply lookup_insert_Some in Eo as [[[= <- <-] <-]|[Hne Eo]].
    + left. intros k Ek. rewrite Hl in E. cbn. congruence.
    + destruct (Hd _ _ _ Eo) as [?|[? ?]]; [by left|right]. split; [|done]. intros [?|[= -> ->]]; done.
  - split; [done|]. split; [done|]. exists m. split; [done|]. intros t' p' o Eo.
    destruct (Hd _ _ _ Eo) as [?|[Hnd ?]]; [by left|].
    destruct (decide ((t', p') = (t, p))) as [[= -> ->]|Hne].
    + left. intros k Ek. rewrite Hl in E. congruence.
    + right. split; [|done]. by intros [?|?].
Qed.

Lemma reset_partitions_inv g st0 m0 t clock ps : forall done acc,
  valid_name g -> valid_name t -> reset_inv g st0 m0 done (fst acc) ->
  reset_inv g st0 m0 (fun t' p' => done t' p' \/ (t' = t /\ p' ∈ ps))
    (fst (foldl (reset_partition g "latest" t clock) acc ps)).
Proof.
  induction ps as [|p ps IH]; intros done acc Hg Ht H.
  - destruct H as (Hl & Hc & m & Hm & Hd). split; [done|]. split; [done|]. exists m. split; [done|].
    intros t' p' o Eo. destruct (Hd _ _ _ Eo) as [?|[? ?]]; [by left|right]. split; [|done].
    intros [?|[_ E]]; [done|]. by apply elem_of_nil in E.
  - cbn. pose proof (IH _ _ Hg Ht (reset_partition_inv _ _ _ _ t p clock _ Hg Ht H)) as (Hl & Hc & m & Hm & Hd).
    split; [done|]. split; [done|]. exists m. split; [done|]. intros t' p' o Eo.
    destruct (Hd _ _ _ Eo) as [?|[Hn ?]]; [by left|right]. split; [|done]. intros [?|[-> E]]; apply Hn; [by auto|].
    apply elem_of_cons in E as [->|E]; auto.
Qed.

Lemma reset_topics_inv g st0 m0 (clock : nat -> Z -> Z) ts : forall done acc k,
  valid_name g -> Forall valid_name ts -> reset_inv g st0 m0 done (fst acc) ->
  reset_inv g st0 m0
    (fun t p => done t p \/ (t ∈ ts /\ exists n, st_GetPartitionCount t st0 = Ok n /\ 0 <= p < n))
    (fst (foldl (fun acc '(i, t) => reset_topic g "latest" (clock i) acc t) acc (imap (fun i t => (k + i, t)%nat) ts))).
Proof.
  induction ts as [|t ts IH]; intros done acc k Hg Hts H.
  - destruct H as (Hl & Hc & m & Hm & Hd). split; [done|]. split; [done|]. exists m. split; [done|].
    intros t' p' o Eo. destruct (Hd _ _ _ Eo) as [?|[? ?]]; [by left|right]. split; [|done].
    intros [?|[E _]]; [done|]. by apply elem_of_nil in E.
  - apply Forall_cons in Hts as [Ht Hts]. cbn [imap foldl].
    assert (reset_inv g st0 m0
      (fun t' p' => done t' p' \/ (t' = t /\ exists n, st_GetPartitionCount t st0 = Ok n /\ 0 <= p' < n))
      (fst (reset_topic g "latest" (clock (k + 0)%nat) acc t))) as Hstep.
    { unfold reset_topic. pose proof H as (Hl & Hc & _). rewrite Hc. destruct (st_GetPartitionCount t st0) as [n|e].
      - destruct (reset_partitions_inv g st0 m0 t (clock (k + 0)%nat) (seqZ 0 n) done acc Hg Ht H)
          as (? & ? & m & Hm & Hd). split; [done|]. split; [done|]. exists m. split; [done|]. intros t' p' o Eo.
        destruct (Hd _ _ _ Eo) as [?|[Hn ?]]; [by left|right]. split; [|done].
        intros [?|(-> & n' & [= <-] & ?)]; apply Hn; [by left|right]. split; [done|]. apply elem_of_seqZ. lia.
      - destruct H as (? & ? & m & Hm & Hd). split; [done|]. split; [done|]. exists m. split; [done|].
        intros t' p' o Eo. destruct (Hd _ _ _ Eo) as [?|[Hn ?]]; [by left|right]. split; [|done].
        intros [?|(_ & n' & [=] & _)]; done. }
    pose proof (IH _ _ (Datatypes.S k) Hg Hts Hstep) as (Hl & Hc & m & Hm & Hd).
    rewrite (imap_ext _ (fun i t => (Datatypes.S k + i, t)%nat)) by (intros; cbn; f_equal; lia).
    split; [done|]. split; [done|]. exists m. split; [done|]. intros t' p' o Eo.
    destruct (Hd _ _ _ Eo) as [?|[Hn ?]]; [by left|right]. split; [|done].
    intros [?|[E Hp]]; apply Hn; [by auto|]. apply elem_of_cons in E as [->|E]; auto.
Qed.

Lemma lags_zero (lags : list GroupLagInfo) :
  Forall (fun l => l_Lag l = 0) lags -> foldl (fun t l => s64 (t + l_Lag l)) 0 lags = 0.
Proof. induction 1 as [|l lags Hl _ IH]; [done|]. cbn. rewrite Hl. apply IH. Qed.

Lemma group_topics_spec (iter : gset string -> list string) g st m :
  offsets_repr st m -> (forall X, iter X ≡ₚ elements X) ->
  forall t, t ∈ group_topics iter g st <-> exists p o, m !! (g, t, p) = Some o.
Proof.
  intros Hm Hiter t. unfold group_topics. destruct (get_repr _ _ g Hm) as (l & -> & Hl).
  rewrite Hiter, elem_of_elements, elem_of_list_to_set, list_elem_of_fmap. split.
  - intros (o & -> & E). rewrite Hl in E. apply list_elem_of_filter in E as [<- E].
    apply elem_of_values in E as [k E]. pose proof (repr_keyed _ _ _ _ Hm E) as ->. by exists (co_Partition o), o.
  - intros (p & o & E). pose proof (repr_keyed _ _ _ _ Hm E) as [= -> -> ->]. exists o. split; [done|].
    rewrite Hl. apply list_elem_of_filter. split; [done|]. apply elem_of_values. by eexists.
Qed.

(** A reset to the latest offsets catches up.  If every partition a group
    has an offset for is one of its topic, then after a reset to "latest" that
    names no topics the group has no lag, in total and in every partition,
    whichever of the calls for an end of log fail. *)
Theorem reset_clears_lag s m g iter clock :
  offsets_repr (storage s) m -> valid_name g -> (forall X : gset string, iter X ≡ₚ elements X) ->
  (forall t p o, m !! (g, t, p) = Some o ->
     valid_name t /\ exists n, st_GetPartitionCount t (storage s) = Ok n /\ 0 <= p < n) ->
  exists r, handleGetGroupLag g (fst (handleResetOffsets iter g (Ok (mkReset [] "latest")) clock s)) = json r
    /\ TotalLag r = 0 /\ Forall (fun l => l_Lag l = 0) (Lags r).
Proof.
  intros Hm Hg Hiter Hp. unfold handleResetOffsets. cbn [rs_Position rs_Topics].
  rewrite decide_False by (intros [_ []]; done). rewrite decide_True by done.
  set (ts := group_topics iter g (storage s)).
  pose proof (group_topics_spec iter g (storage s) m Hm Hiter) as Hts. fold ts in Hts.
  assert (reset_inv g (storage s) m (fun _ _ => False) (storage s)) as H0.
  { split; [done|]. split; [done|]. exists m. split; [done|]. intros t p o E. right. tauto. }
  pose proof (reset_topics_inv g (storage s) m clock ts (fun _ _ => False) (storage s, 0) 0 Hg) as Hinv.
  change (imap (fun i t => (0 + i, t)%nat) ts) with (imap pair ts) in Hinv.
  destruct (foldl _ (storage s, 0) (imap pair ts)) as [st n] eqn:E.
  destruct Hinv as (Hl & _ & m' & Hm' & Hd); [|done|].
  { apply Forall_forall. intros t Ht. apply Hts in Ht as (p & o & Eo). by apply Hp in Eo as []. }
  cbn [fst storage set_storage] in *. unfold handleGetGroupLag. cbn [storage set_storage].
  destruct (get_repr _ _ g Hm') as (l & -> & Hlp).
  eexists. split; [done|]. cbn [TotalLag Lags].
  assert (Forall (fun l => l_Lag l = 0) (omap (lag_of st) l)) as Hz; [|split; [by apply lags_zero|done]].
  apply Forall_forall. intros x Hx. apply list_elem_of_omap in Hx as (o & Ho & Hx).
  rewrite Hlp in Ho. apply list_elem_of_filter in Ho as [<- Ho]. apply elem_of_values in Ho as [k Ho].
  pose proof (repr_keyed _ _ _ _ Hm' Ho) as ->. unfold lag_of in Hx. rewrite Hl in Hx.
  destruct (st_GetLatestOffset (co_Topic o) (co_Partition o) (storage s)) as [off|] eqn:El; [|done].
  injection Hx as <-. cbn. destruct (Hd _ _ _ Ho) as [Hoff|[Hn Hmo]].
  - by rewrite (Hoff _ El), Z.sub_diag.
  - exfalso. apply Hn. right. split; [apply Hts; eauto|]. by destruct (Hp _ _ _ Hmo).
Qed.
End offset_theorems.

(** The offset theorems on the server's store. *)
Definition listed : orders :=
  mkOrders (fun m => (map_to_list m).*2) (fun m => (map_to_list m).*2) (fun m => (map_to_list m).*2).
#[local] Instance listed_store : MessageStore ServerStore := ServerStore_MessageStore listed.
#[local] Instance listed_offsets : OffsetStore ServerStore := ServerStore_OffsetStore listed (fun _ => reflexivity _).

Definition empty_server : FiberServer ServerStore := NewFiberServer sv_New.



(** A group behind by one message, in the only partition the store counts. *)
Definition behind : FiberServer ServerStore :=
  foldl run_commit (set_storage (sv_Store (NewMessage "m" 0 "t" [1]) sv_New) empty_server)
    [("g", [mkCommit "t" 0 0 ""], fun _ => 0)].
Definition behind_offset : ConsumerOffset := mkConsumerOffset "g" "t" 0 0 0 "".

Lemma reset_clears_lag_witness :
  (exists r, handleGetGroupLag "g" behind = json r /\ TotalLag r = 1)
  /\ exists r, handleGetGroupLag "g" (fst (handleResetOffsets elements "g" (Ok (mkReset [] "latest"))
                  (fun _ _ => 9) behind)) = json r
     /\ TotalLag r = 0 /\ Forall (fun l => l_Lag l = 0) (Lags r).
Proof.
  split; [eexists; split; vm_compute; reflexivity|].
  apply (reset_clears_lag behind {[okey behind_offset := behind_offset]} "g" elements (fun _ _ => 9)).
  - apply (server_repr_commit (sv_Store (NewMessage "m" 0 "t" [1]) sv_New) ∅ behind_offset).
    + constructor; intros *; cbn; rewrite lookup_empty; done.
    + repeat constructor; discriminate.
  - repeat constructor; discriminate.
  - reflexivity.
  - intros t p o E. apply lookup_singleton_Some in E as [[= <- <-] _]. split; [repeat constructor; discriminate|].
    exists 1. split; [reflexivity|lia].
Defined.

(** The server's store counts one partition for every topic, so the offsets of
    the other partitions are not reset. *)
Lemma reset_misses_partitions :
  let s := foldl run_commit (set_storage (sv_Store (NewMessage "m" 0 "t" [1]) sv_New) empty_server)
    [("g", [mkCommit "t" 1 0 ""], fun _ => 0)] in
  exists r, handleGetGroupLag "g" (fst (handleResetOffsets elements "g" (Ok (mkReset [] "latest")) (fun _ _ => 9) s))
              = json r /\ TotalLag r = 1.
Proof. eexists. split; vm_compute; reflexivity. Qed.
End ApiSpec.
