(* ===== verification/ApiTopics.v ===== *)
(** * The HTTP API: topics ([src/pkg/api/topics_management.go])

    Topics are kept in the store as [TopicInfo]s, whose configuration is a map
    of decimal strings, and in a cache of the server as [Topic]s.  Formatting
    and parsing of times depends on the time zone data of the system: they are
    arguments, [format_time] from Unix seconds and [parse_time] to the Unix
    seconds [toTopicInfo] stores.  The text of debugging output is left out. *)
From stdpp Require Import base gmap strings list numbers fin_maps pretty.
From Stdlib Require Import ZArith Lia Ascii.
From S2P Require Import Prelude Types Stores Api.

Module ApiTopics.
Import Types Stores Api.

(** ** [strconv]

    [strconv.FormatInt(z, 10)] is [pretty z].  [ParseInt(s, 10, 64)] and [Atoi]
    with their error dropped: a text that is not a number is 0, a number out
    of range the nearest int64. *)

Definition digit_value (c : ascii) : option Z :=
  let z := Z.of_nat (nat_of_ascii c) - 48 in if (0 <=? z) && (z <=? 9) then Some z else None.
Fixpoint parse_digits (s : string) (acc : Z) : option Z :=
  match s with
  | EmptyString => Some acc
  | String c s =>
    match digit_value c with
    | Some d => parse_digits s (acc * 10 + d)
    | None => None
    end
  end.
Definition parse_unsigned (s : string) : option Z :=
  match s with EmptyString => None | _ => parse_digits s 0 end.
Definition clamp64 (z : Z) : Z := Z.max (- 2 ^ 63) (Z.min (2 ^ 63 - 1) z).
Definition ParseInt (s : string) : Z :=
  match parse_unsigned s with
  | Some n => clamp64 n
  | None =>
    match s with
    | String "-" s => match parse_unsigned s with Some n => clamp64 (- n) | None => 0 end
    | String "+" s => match parse_unsigned s with Some n => clamp64 n | None => 0 end
    | _ => 0
    end
  end.

(** ** Requests and answers *)

Record CreateTopicRequest := mkCreateTopic {
  ct_Name : string; ct_Partitions : Z; ct_ReplicationFactor : Z; ct_Config : option TopicConfig
}.
Record UpdateTopicRequest := mkUpdateTopic { ut_Partitions : option Z; ut_Config : option TopicConfig }.
Record TopicStats := mkTopicStats {
  ts_Name : string; ts_Partitions : Z; ts_MessageCount : Z; ts_TotalBytes : Z; FirstOffset : Z; LastOffset : Z;
  ts_Replicas : Z; ts_ISR : Z
}.
Record PartitionEntry := mkPartitionEntry {
  pe_partition : Z; pe_leader : Z; pe_replicas : list Z; pe_isr : list Z; pe_first : Z; pe_last : Z; pe_count : Z
}.

Definition topic_not_found {A} (name : string) : reply A := fail 404 ("Topic '" +:+ name +:+ "' not found").
Definition set_ti_Config (c : gmap string string) (i : TopicInfo) : TopicInfo :=
  mkTopicInfo (ti_Name i) (ti_Partitions i) (ReplicationFactor i) (Some c) (ti_CreatedAt i).
Definition set_t_Config (c : TopicConfig) (t : Topic) : Topic :=
  mkTopic (t_Name t) (t_Partitions t) (t_ReplicationFactor t) c (t_CreatedAt t) (t_UpdatedAt t) (t_MessageCount t)
    (t_TotalBytes t).
Definition set_counts (n b : Z) (t : Topic) : Topic :=
  mkTopic (t_Name t) (t_Partitions t) (t_ReplicationFactor t) (t_Config t) (t_CreatedAt t) (t_UpdatedAt t) n b.

(** The four assignments to the configuration map. *)
Definition put_config (c : TopicConfig) (m : gmap string string) : gmap string string :=
  <["min_insync_replicas" := pretty (MinInSyncReplicas c)]>
  (<["max_message_bytes" := pretty (MaxMessageBytes c)]>
  (<["compression_type" := CompressionType c]>
  (<["retention_ms" := pretty (RetentionMs c)]> m))).

Section topics.
Context (format_time : Z -> string) (parse_time : string -> Z).

Definition toTopicInfo (topic : Topic) : TopicInfo :=
  mkTopicInfo (t_Name topic) (s32 (t_Partitions topic)) (s16 (t_ReplicationFactor topic))
    (Some (put_config (t_Config topic) ∅)) (parse_time (t_CreatedAt topic)).

(** Reading a nil map gives the empty string. *)
Definition config_at (k : string) (info : TopicInfo) : string := default "" (default ∅ (ti_Config info) !! k).
Definition fromTopicInfo (info : TopicInfo) : Topic :=
  mkTopic (ti_Name info) (ti_Partitions info) (ReplicationFactor info)
    (mkTopicConfig (ParseInt (config_at "retention_ms" info)) (config_at "compression_type" info)
       (ParseInt (config_at "max_message_bytes" info)) (ParseInt (config_at "min_insync_replicas" info)))
    (format_time (ti_CreatedAt info)) (format_time (ti_CreatedAt info)) 0 0.

Context {S : Type} `{!MessageStore S}.
Implicit Types s : FiberServer S.

(** An offset whose error is dropped is 0. *)
Definition value_or_zero (r : res string Z) : Z := match r with Ok z => z | Err _ => 0 end.
Definition first_offset (st : S) (name : string) (p : Z) : Z := value_or_zero (st_GetEarliestOffset name p st).
Definition last_offset (st : S) (name : string) (p : Z) : Z := value_or_zero (st_GetLatestOffset name p st).

(** The loops over the partitions that count messages and estimate bytes. *)
Definition partition_counts (st : S) (info : TopicInfo) : Z * Z :=
  foldl (fun '(n, b) p =>
    let d := s64 (last_offset st (ti_Name info) p - first_offset st (ti_Name info) p) in
    (s64 (n + d), s64 (b + s64 (d * 1024)))) (0, 0) (seqZ 0 (ti_Partitions info)).
Definition topic_of (st : S) (info : TopicInfo) : Topic :=
  let '(n, b) := partition_counts st info in set_counts n b (fromTopicInfo info).

Definition default_config : TopicConfig := mkTopicConfig 86400000 "none" 1048576 1.

(** [now], [now'] are the times of creation and update; [req] is the result of
    unmarshalling the body. *)
Definition handleCreateTopic (raw : bytes) (req : res string CreateTopicRequest) (now now' : Z) s
  : FiberServer S * reply Topic :=
  if decide (raw = []) then (s, fail 400 "Empty request body")
  else match req with
  | Err e => (s, fail 400 ("Invalid JSON: " +:+ e))
  | Ok req =>
    if decide (ct_Name req = "") then (s, fail 400 "Topic name is required")
    else
      let partitions := if ct_Partitions req =? 0 then 1 else ct_Partitions req in
      let replicationFactor := if ct_ReplicationFactor req =? 0 then 1 else ct_ReplicationFactor req in
      let config := default default_config (ct_Config req) in
      let topic := mkTopic (ct_Name req) partitions replicationFactor config (format_time now) (format_time now') 0 0 in
      match st_CreateTopic (toTopicInfo topic) (storage s) with
      | (st, Some e) => (set_storage st s, fail 500 ("Failed to create topic: " +:+ e))
      | (st, None) => (set_topics (<[ct_Name req := topic]> (topics s)) (set_storage st s), created topic)
      end
  end.

Definition list_topic (st : S) (acc : list Topic * gmap string Topic) (info : TopicInfo)
  : list Topic * gmap string Topic :=
  let topic := topic_of st info in (fst acc ++ [topic], <[t_Name topic := topic]> (snd acc)).
Definition handleListTopics s : FiberServer S * reply (list Topic * Z) :=
  match st_ListTopics (storage s) with
  | Err e => (s, fail 500 ("Failed to list topics: " +:+ e))
  | Ok infos =>
    let '(ts, cache) := foldl (list_topic (storage s)) ([], topics s) infos in
    (set_topics cache s, json (ts, Z.of_nat (length ts)))
  end.

Definition handleGetTopic (topicName : string) s : FiberServer S * reply Topic :=
  if decide (topicName = "") then (s, fail 400 "Topic name is required")
  else match topics s !! topicName with
  | Some cachedTopic => (s, json cachedTopic)
  | None =>
    match st_GetTopicInfo topicName (storage s) with
    | Err _ => (s, topic_not_found topicName)
    | Ok topicInfo =>
      let topic := topic_of (storage s) topicInfo in
      (set_topics (<[topicName := topic]> (topics s)) s, json topic)
    end
  end.

(** Assigning to a nil configuration map panics. *)
Definition update_info (config : option TopicConfig) (info : TopicInfo) : exec TopicInfo :=
  match config with
  | None => Ret info
  | Some c =>
    match ti_Config info with
    | None => Panic
    | Some m => Ret (set_ti_Config (put_config c m) info)
    end
  end.
Definition handleUpdateTopic (topicName : string) (req : res string UpdateTopicRequest) s
  : exec (FiberServer S * reply string) :=
  match req with
  | Err e => Ret (s, invalid_body e)
  | Ok req =>
    match st_GetTopicInfo topicName (storage s) with
    | Err _ => Ret (s, topic_not_found topicName)
    | Ok topicInfo =>
      do! topicInfo := update_info (ut_Config req) topicInfo in
      let st := fst (st_DeleteTopic topicName (storage s)) in
      match st_CreateTopic topicInfo st with
      | (st, Some e) => Ret (set_storage st s, fail 500 ("Failed to update topic: " +:+ e))
      | (st, None) =>
        let cache := match ut_Config req with
                     | Some c => alter (set_t_Config c) topicName (topics s)
                     | None => topics s
                     end in
        Ret (set_topics cache (set_storage st s), json ("Topic '" +:+ topicName +:+ "' updated"))
      end
    end
  end.

Definition handleDeleteTopic (topicName : string) (force : bool) s : FiberServer S * reply string :=
  match st_DeleteTopic topicName (storage s) with
  | (st, Some e) => (set_storage st s, fail 500 ("Failed to delete topic: " +:+ e))
  | (st, None) =>
    (set_topics (delete topicName (topics s)) (set_storage st s), json ("Topic '" +:+ topicName +:+ "' deleted"))
  end.

Definition handleGetTopicStats (topicName : string) s : reply TopicStats :=
  match st_GetTopicInfo topicName (storage s) with
  | Err _ => topic_not_found topicName
  | Ok topicInfo =>
    let '(first, last) := if ti_Partitions topicInfo >? 0
                          then (first_offset (storage s) topicName 0, last_offset (storage s) topicName 0)
                          else (0, 0) in
    let messages := if ti_Partitions topicInfo >? 0 then s64 (last - first) else 0 in
    json (mkTopicStats topicName (ti_Partitions topicInfo) messages (s64 (messages * 1024)) first last
            (ReplicationFactor topicInfo) (ReplicationFactor topicInfo))
  end.

(** [make] of a negative length panics. *)
Definition handleGetTopicPartitions (topicName : string) s : exec (reply (string * list PartitionEntry)) :=
  match st_GetPartitionCount topicName (storage s) with
  | Err _ => Ret (topic_not_found topicName)
  | Ok partitionCount =>
    if partitionCount <? 0 then Panic
    else Ret (json (topicName,
      (fun i => mkPartitionEntry i 1 [1] [1] (first_offset (storage s) topicName i)
                  (last_offset (storage s) topicName i)
                  (s64 (last_offset (storage s) topicName i - first_offset (storage s) topicName i)))
      <$> seqZ 0 partitionCount))
  end.

(** The reply of a compaction; the goroutine it starts runs [compaction]. *)
Definition handleCompactTopic (topicName : string) : reply string :=
  json ("Compaction triggered for topic '" +:+ topicName +:+ "'").
Definition compaction s : FiberServer S := set_storage (fst (st_Cleanup (storage s))) s.

Definition handlePurgeTopic (topicName : string) s : FiberServer S * reply string :=
  match st_GetTopicInfo topicName (storage s) with
  | Err _ => (s, topic_not_found topicName)
  | Ok topicInfo =>
    match st_DeleteTopic topicName (storage s) with
    | (st, Some e) => (set_storage st s, fail 500 ("Failed to purge topic: " +:+ e))
    | (st, None) =>
      match st_CreateTopic topicInfo st with
      | (st, Some e) => (set_storage st s, fail 500 ("Failed to recreate topic after purge: " +:+ e))
      | (st, None) => (set_storage st s, json ("All messages purged from topic '" +:+ topicName +:+ "'"))
      end
    end
  end.
End topics.
End ApiTopics.
