(* ===== verification/ApiTopicsSpec.v ===== *)
(** * Theorems about the API's topics

    The configuration survives its way through decimal strings
    ([config_roundtrip]); the cache and the store always show the same topics
    ([api_topics_refine]), as long as all topics are made through the API. *)
From stdpp Require Import base gmap strings list numbers fin_maps pretty.
From Stdlib Require Import ZArith Lia Ascii.
From S2P Require Import Prelude Types Stores StoresSpec Api ApiSpec ApiTopics.

Module ApiTopicsSpec.
Import Types Stores Api ApiSpec ApiTopics.

(** ** Numbers *)

Lemma digit_value_char d : 0 <= d < 10 -> digit_value (pretty_N_char (Z.to_N d)) = Some d.
Proof.
  intros H. assert (d = 0 \/ d = 1 \/ d = 2 \/ d = 3 \/ d = 4 \/ d = 5 \/ d = 6 \/ d = 7 \/ d = 8 \/ d = 9) as E by lia.
  repeat destruct E as [->|E]; try done. by subst.
Qed.

(** Reading what the printer pushes in front of a text continues with the number. *)
Lemma parse_pretty_go (x : N) : forall s, parse_digits (pretty_N_go x s) 0 = parse_digits s (Z.of_N x).
Proof.
  induction (N.lt_wf_0 x) as [x _ IH]. intros s. destruct (decide (x = 0%N)) as [->|Hx]; [done|].
  rewrite pretty_N_go_step by lia.
  rewrite IH by (apply N.div_lt; lia). cbn [parse_digits].
  pose proof (N.mod_lt x 10 ltac:(done)). pose proof (N.div_mod x 10 ltac:(done)).
  assert (digit_value (pretty_N_char (x mod 10)) = Some (Z.of_N (x mod 10))) as ->.
  { rewrite <- (N2Z.id (x mod 10)) at 1. apply digit_value_char. split; [apply N2Z.is_nonneg|].
    change 10 with (Z.of_N 10). by apply N2Z.inj_lt. }
  f_equal. lia.
Qed.

Lemma pretty_go_cons (x : N) c s : exists c' s', pretty_N_go x (String c s) = String c' s'.
Proof.
  revert c s. induction (N.lt_wf_0 x) as [x _ IH]. intros c s.
  destruct (decide (x = 0%N)) as [->|Hx]; [by eexists _, _|].
  rewrite pretty_N_go_step by lia. apply IH. apply N.div_lt; lia.
Qed.

Lemma parse_unsigned_pretty (x : positive) : parse_unsigned (pretty (N.pos x)) = Some (Z.pos x).
Proof.
  unfold pretty, pretty_N. rewrite decide_False by done. unfold parse_unsigned.
  destruct (pretty_N_go (N.pos x) "") as [|c s] eqn:E.
  - exfalso. rewrite pretty_N_go_step in E by done.
    destruct (pretty_go_cons (N.pos x / 10) (pretty_N_char (N.pos x mod 10)) "") as (c & s & E'). congruence.
  - rewrite <- E, parse_pretty_go. done.
Qed.

Definition int64 (z : Z) : Prop := - 2 ^ 63 <= z < 2 ^ 63.

Lemma ParseInt_pretty z : int64 z -> ParseInt (pretty z) = z.
Proof.
  intros H. unfold int64 in H. unfold ParseInt. destruct z as [|x|x].
  - done.
  - change (pretty (Z.pos x)) with (pretty (N.pos x)). rewrite parse_unsigned_pretty. unfold clamp64. lia.
  - change (pretty (Z.neg x)) with (String "-" (pretty (N.pos x))). cbn [parse_unsigned parse_digits].
    change (digit_value "-") with (@None Z). cbn. rewrite parse_unsigned_pretty. unfold clamp64. lia.
Qed.

(** ** Configurations *)

Definition config_ok (c : TopicConfig) : Prop :=
  int64 (RetentionMs c) /\ int64 (MaxMessageBytes c) /\ int64 (MinInSyncReplicas c).

Lemma put_config_twice c c' m : put_config c (put_config c' m) = put_config c m.
Proof.
  apply map_eq. intros k. unfold put_config.
  destruct (decide (k = "min_insync_replicas")) as [->|?]; [by rewrite !lookup_insert_eq|].
  rewrite !(lookup_insert_ne _ "min_insync_replicas") by done.
  destruct (decide (k = "max_message_bytes")) as [->|?]; [by rewrite !lookup_insert_eq|].
  rewrite !(lookup_insert_ne _ "max_message_bytes") by done.
  destruct (decide (k = "compression_type")) as [->|?]; [by rewrite !lookup_insert_eq|].
  rewrite !(lookup_insert_ne _ "compression_type") by done.
  destruct (decide (k = "retention_ms")) as [->|?]; [by rewrite !lookup_insert_eq|].
  by rewrite !lookup_insert_ne by done.
Qed.

Section refinement.
Context (format_time : Z -> string) (parse_time : string -> Z).

(** A topic as the API should show it. *)
Record atopic := mkAT { at_partitions : Z; at_replication : Z; at_config : TopicConfig; at_created : Z }.
Definition info_of (n : string) (a : atopic) : TopicInfo :=
  mkTopicInfo n (at_partitions a) (at_replication a) (Some (put_config (at_config a) ∅)) (at_created a).
Definition same_topic (n : string) (a : atopic) (t : Topic) : Prop :=
  t_Name t = n /\ t_Partitions t = at_partitions a /\ t_ReplicationFactor t = at_replication a
  /\ t_Config t = at_config a /\ t_CreatedAt t = format_time (at_created a).

Lemma config_roundtrip n a : config_ok (at_config a) -> t_Config (fromTopicInfo format_time (info_of n a)) = at_config a.
Proof.
  intros (H1 & H2 & H3). unfold fromTopicInfo, config_at, info_of. cbn [ti_Config t_Config default]. unfold put_config.
  cbn [from_option id].
  rewrite !lookup_insert_eq. repeat (rewrite lookup_insert_ne by done; try rewrite lookup_insert_eq).
  cbn [default from_option id]. rewrite !ParseInt_pretty by done. by destruct (at_config a).
Qed.

(** ** Topic requests over the server's store *)

Context (O : orders) (HO : forall m, topic_order O m ≡ₚ (map_to_list m).*2).
#[local] Instance topic_store : MessageStore ServerStore := ServerStore_MessageStore O.
Abbreviation server := (FiberServer ServerStore).

Inductive topic_op :=
| TCreate (raw : bytes) (req : res string CreateTopicRequest) (now now' : Z)
| TList
| TGet (name : string)
| TUpdate (name : string) (req : res string UpdateTopicRequest)
| TDelete (name : string) (force : bool)
| TPurge (name : string)
| TCompact.

Definition run_topic (s : server) (op : topic_op) : exec server :=
  match op with
  | TCreate raw req now now' => Ret (fst (handleCreateTopic format_time parse_time raw req now now' s))
  | TList => Ret (fst (handleListTopics format_time s))
  | TGet n => Ret (fst (handleGetTopic format_time n s))
  | TUpdate n req => do! r := handleUpdateTopic n req s in Ret (fst r)
  | TDelete n force => Ret (fst (handleDeleteTopic n force s))
  | TPurge n => Ret (fst (handlePurgeTopic n s))
  | TCompact => Ret (compaction s)
  end.
Fixpoint run_topics (ops : list topic_op) (s : server) : exec server :=
  match ops with
  | [] => Ret s
  | op :: ops => do! s := run_topic s op in run_topics ops s
  end.

(** Seconds from 1970 to 9999, where printed times can be read back. *)
Definition time_ok (t : Z) : Prop := 0 <= t < 253402214400.
Definition op_ok (op : topic_op) : Prop :=
  match op with
  | TCreate _ (Ok req) now _ =>
    - 2 ^ 31 <= ct_Partitions req < 2 ^ 31 /\ - 2 ^ 15 <= ct_ReplicationFactor req < 2 ^ 15
    /\ (forall c, ct_Config req = Some c -> config_ok c) /\ time_ok now
  | TUpdate _ (Ok req) => forall c, ut_Config req = Some c -> config_ok c
  | _ => True
  end.

Definition spec_topic (m : gmap string atopic) (op : topic_op) : gmap string atopic :=
  match op with
  | TCreate raw (Ok req) now _ =>
    if decide (raw = [] \/ ct_Name req = "") then m
    else <[ct_Name req := mkAT (if ct_Partitions req =? 0 then 1 else ct_Partitions req)
                            (if ct_ReplicationFactor req =? 0 then 1 else ct_ReplicationFactor req)
                            (default default_config (ct_Config req)) now]> m
  | TUpdate n (Ok req) =>
    match ut_Config req with
    | Some c => alter (fun a => mkAT (at_partitions a) (at_replication a) c (at_created a)) n m
    | None => m
    end
  | TDelete n _ => delete n m
  | _ => m
  end.

(** The store holds exactly the abstract topics; the cache holds some of them. *)
Record topics_ok (s : server) (m : gmap string atopic) : Prop := {
  ok_stored n : sv_topics (storage s) !! n = info_of n <$> m !! n;
  ok_cached n t : topics s !! n = Some t -> exists a, m !! n = Some a /\ same_topic n a t;
  ok_config n a : m !! n = Some a -> config_ok (at_config a)
}.

Lemma topic_of_same (st : ServerStore) n a :
  config_ok (at_config a) -> same_topic n a (topic_of format_time st (info_of n a)).
Proof.
  intros H. unfold topic_of. destruct (partition_counts _ _). repeat split. by apply config_roundtrip.
Qed.

Lemma topics_ok_cache s m n t a :
  topics_ok s m -> m !! n = Some a -> same_topic n a t -> topics_ok (set_topics (<[n := t]> (topics s)) s) m.
Proof.
  intros [H1 H2 H3] Hn Ht. constructor; cbn; [done| |done].
  intros n' t' E. apply lookup_insert_Some in E as [[<- <-]|[_ E]]; eauto.
Qed.

Lemma topics_ok_stores s m n a t :
  topics_ok s m -> config_ok (at_config a) -> same_topic n a t ->
  topics_ok (set_topics (<[n := t]> (topics s)) (set_storage (sv_CreateTopic (info_of n a) (storage s)) s)) (<[n := a]> m).
Proof.
  intros [H1 H2 H3] Hc Ht. constructor; cbn.
  - intros n'. destruct (decide (n' = n)) as [->|]; [by rewrite !lookup_insert_eq|].
    by rewrite !lookup_insert_ne.
  - intros n' t' E. apply lookup_insert_Some in E as [[<- <-]|[? E]]; [rewrite lookup_insert_eq; eauto|].
    rewrite lookup_insert_ne by done. eauto.
  - intros n' a' E. apply lookup_insert_Some in E as [[<- <-]|[_ E]]; eauto.
Qed.

Lemma topic_create_ok raw req now now' s m :
  (forall t, time_ok t -> parse_time (format_time t) = t) ->
  topics_ok s m -> op_ok (TCreate raw req now now') ->
  topics_ok (fst (handleCreateTopic format_time parse_time raw req now now' s)) (spec_topic m (TCreate raw req now now')).
Proof.
  intros Hp H Hop. unfold handleCreateTopic, spec_topic. destruct req as [req|e]; [|by case_decide].
  destruct (decide (raw = [])) as [E1|E1]; [by rewrite decide_True by auto|].
  destruct (decide (ct_Name req = "")) as [E2|E2]; [by rewrite decide_True by auto|].
  destruct (decide (raw = [] \/ ct_Name req = "")) as [[]|_]; [done..|].
  destruct Hop as (Hpt & Hrf & Hc & Ht). cbn [st_CreateTopic topic_store ServerStore_MessageStore fst].
  set (a := mkAT _ _ _ now).
  match goal with |- context [toTopicInfo parse_time ?t] =>
    replace (toTopicInfo parse_time t) with (info_of (ct_Name req) a) end.
  2:{ unfold toTopicInfo, info_of. cbn. rewrite Hp by done.
    rewrite !wraps_small; [done|..]; try done.
    - change (16 - 1) with 15. destruct (ct_ReplicationFactor req =? 0); lia.
    - change (32 - 1) with 31. destruct (ct_Partitions req =? 0); lia. }
  apply topics_ok_stores; [done| |done]. cbn. destruct (ct_Config req) as [c|]; [by apply Hc|].
  by repeat split.
Qed.

Lemma stored_info s m n :
  topics_ok s m -> sv_GetTopicInfo n (storage s)
  = match m !! n with Some a => Ok (info_of n a) | None => Err ("topic not found: " +:+ n) end.
Proof. intros H. unfold sv_GetTopicInfo. rewrite (ok_stored _ _ H). by destruct (m !! n). Qed.

(** The delete and create of an update or a purge. *)
Lemma topics_ok_recreate s m n a a' cache :
  topics_ok s m -> m !! n = Some a -> config_ok (at_config a') ->
  (forall n' t, cache !! n' = Some t -> exists b, <[n := a']> m !! n' = Some b /\ same_topic n' b t) ->
  topics_ok (set_topics cache (set_storage (sv_CreateTopic (info_of n a') (sv_DeleteTopic n (storage s))) s)) (<[n := a']> m).
Proof.
  intros [H1 H2 H3] Hn Hc Hcache. constructor; cbn; [|done|].
  - intros n'. destruct (decide (n' = n)) as [->|]; [by rewrite !lookup_insert_eq|].
    rewrite !lookup_insert_ne, lookup_delete_ne by done. apply H1.
  - intros n' b E. apply lookup_insert_Some in E as [[<- <-]|[_ E]]; eauto.
Qed.

Lemma topic_update_ok n req s m :
  topics_ok s m -> op_ok (TUpdate n req) ->
  exists s', run_topic s (TUpdate n req) = Ret s' /\ topics_ok s' (spec_topic m (TUpdate n req)).
Proof.
  intros H Hop. cbn. unfold handleUpdateTopic. destruct req as [req|e]; [|by eexists].
  cbn. rewrite (stored_info s m) by done. destruct (m !! n) as [a|] eqn:Hn.
  2:{ cbn. eexists. split; [done|]. destruct (ut_Config req) as [c|]; [|done].
      replace (alter _ n m) with m; [done|]. apply map_eq. intros n'. destruct (decide (n' = n)) as [->|].
      - by rewrite lookup_alter_eq, Hn.
      - by rewrite lookup_alter_ne. }
  destruct (ut_Config req) as [c|] eqn:Hcfg; cbn.
  - eexists. split; [done|]. cbn. unfold set_ti_Config. cbn. rewrite put_config_twice.
    set (a' := mkAT (at_partitions a) (at_replication a) c (at_created a)).
    replace (alter _ n m) with (<[n := a']> m).
    2:{ apply map_eq. intros n'. destruct (decide (n' = n)) as [->|].
        - by rewrite lookup_alter_eq, lookup_insert_eq, Hn.
        - by rewrite lookup_alter_ne, lookup_insert_ne. }
    apply (topics_ok_recreate s m n a a'); [done|done|by apply Hop|].
    intros n' t E. destruct (decide (n' = n)) as [->|Hne].
    + rewrite lookup_insert_eq. rewrite lookup_alter_eq in E. destruct (topics s !! n) as [t0|] eqn:Et; [|done].
      injection E as <-. eexists. split; [done|]. destruct (ok_cached _ _ H _ _ Et) as (b & Hb & Hsame).
      rewrite Hn in Hb. injection Hb as <-. destruct Hsame as (? & ? & ? & ? & ?). by repeat split.
    + rewrite lookup_alter_ne in E by done. rewrite lookup_insert_ne by done. by eapply ok_cached.
  - eexists. split; [done|]. cbn. rewrite <- (insert_id m n a Hn) at 1.
    apply (topics_ok_recreate s m n a a); [done|done|by eapply ok_config|].
    intros n' t E. rewrite insert_id by done. by eapply ok_cached.
Qed.

Lemma topic_list_ok s m infos ts :
  topics_ok s m -> Forall (fun i => exists n a, m !! n = Some a /\ i = info_of n a) infos ->
  let '(ts', cache) := foldl (list_topic format_time (storage s)) (ts, topics s) infos in
  topics_ok (set_topics cache s) m /\ ts' = ts ++ (topic_of format_time (storage s) <$> infos).
Proof.
  intros H Hi. revert s ts H. induction Hi as [|i infos (n & a & Hn & ->) _ IH]; intros s ts H; cbn.
  - rewrite app_nil_r. split; [|done]. destruct H. by constructor.
  - assert (same_topic n a (topic_of format_time (storage s) (info_of n a))) as Hsame
      by (apply topic_of_same; by eapply ok_config).
    unfold list_topic at 2. cbn [fst snd]. set (t := topic_of format_time (storage s) (info_of n a)) in *.
    assert (t_Name t = n) as -> by apply Hsame.
    specialize (IH (set_topics (<[n := t]> (topics s)) s) (ts ++ [t])). cbn [storage set_topics topics] in IH.
    destruct (foldl _ _ infos) as [ts' cache]. destruct IH as [IH ->]; [by eapply topics_ok_cache|].
    split; [done|]. by rewrite <- app_assoc.
Qed.

Lemma infos_ok s m :
  topics_ok s m -> Forall (fun i => exists n a, m !! n = Some a /\ i = info_of n a) (topic_order O (sv_topics (storage s))).
Proof.
  intros H. apply Forall_forall. intros i Hi. rewrite HO in Hi. apply elem_of_values in Hi as [n E].
  rewrite (ok_stored _ _ H) in E. destruct (m !! n) as [a|] eqn:Hn; [|done]. injection E as <-. eauto.
Qed.

Lemma topic_get_ok n s m :
  topics_ok s m -> topics_ok (fst (handleGetTopic format_time n s)) m
  /\ (n <> "" -> match m !! n with
                 | None => snd (handleGetTopic format_time n s) = topic_not_found n
                 | Some a => exists t, snd (handleGetTopic format_time n s) = json t /\ same_topic n a t
                 end).
Proof.
  intros H. unfold handleGetTopic. case_decide; [done|]. destruct (topics s !! n) as [t|] eqn:Et.
  - destruct (ok_cached _ _ H _ _ Et) as (a & -> & Hs). split; [done|]. eauto.
  - cbn. rewrite (stored_info s m) by done. destruct (m !! n) as [a|] eqn:Hn; [|done].
    pose proof (topic_of_same (storage s) n a (ok_config _ _ H _ _ Hn)). split; [by eapply topics_ok_cache|]. eauto.
Qed.

Lemma run_topic_ok op s m :
  (forall t, time_ok t -> parse_time (format_time t) = t) -> topics_ok s m -> op_ok op ->
  exists s', run_topic s op = Ret s' /\ topics_ok s' (spec_topic m op).
Proof.
  intros Hp H Hop. destruct op as [raw req now now'| |n|n req|n force|n|].
  - eexists. split; [done|]. by apply topic_create_ok.
  - eexists. split; [done|]. unfold handleListTopics. cbn [st_ListTopics topic_store ServerStore_MessageStore].
    unfold sv_ListTopics. pose proof (topic_list_ok s m _ [] H (infos_ok s m H)) as Hl.
    destruct (foldl _ _ _) as [ts cache]. apply Hl.
  - eexists. split; [done|]. by apply topic_get_ok.
  - by apply topic_update_ok.
  - eexists. split; [done|]. destruct H as [H1 H2 H3]. constructor; cbn.
    + intros n'. destruct (decide (n' = n)) as [->|]; [by rewrite !lookup_delete_eq|].
      by rewrite !lookup_delete_ne.
    + intros n' t E. apply lookup_delete_Some in E as [? E]. rewrite lookup_delete_ne by done. eauto.
    + intros n' a E. apply lookup_delete_Some in E as [_ E]. eauto.
  - eexists. split; [done|]. unfold handlePurgeTopic. cbn. rewrite (stored_info s m) by done.
    destruct (m !! n) as [a|] eqn:Hn; [|done]. cbn. rewrite <- (insert_id m n a Hn).
    apply (topics_ok_recreate s m n a a (topics s)); [done|done|by eapply ok_config|].
    intros n' t E. rewrite insert_id by done. by eapply ok_cached.
  - eexists. split; [done|]. destruct H. by constructor.
Qed.

Lemma run_topics_ok ops : forall s m,
  (forall t, time_ok t -> parse_time (format_time t) = t) -> topics_ok s m -> Forall op_ok ops ->
  exists s', run_topics ops s = Ret s' /\ topics_ok s' (foldl spec_topic m ops).
Proof.
  induction ops as [|op ops IH]; intros s m Hp H Hops; [by eexists|]. apply Forall_cons in Hops as [Hop Hops].
  destruct (run_topic_ok op s m Hp H Hop) as (s' & Hs & H'). cbn. rewrite Hs. by apply IH.
Qed.

Lemma names_of_infos (m : gmap string atopic) :
  ti_Name <$> (map_to_list (map_imap (fun n a => Some (info_of n a)) m)).*2 ≡ₚ (map_to_list m).*1.
Proof.
  assert (forall n i, map_imap (fun n a => Some (info_of n a)) m !! n = Some i -> n = ti_Name i) as Hn.
  { intros n i E. rewrite map_lookup_imap in E. destruct (m !! n); [|done]. by injection E as <-. }
  apply NoDup_Permutation; [|apply NoDup_fst_map_to_list|].
  - apply NoDup_fmap_2_strong; [|by apply (keyed_values_NoDup ti_Name)].
    intros i j Hi Hj E. apply elem_of_values in Hi as [n Hi], Hj as [n' Hj].
    pose proof (Hn _ _ Hi). pose proof (Hn _ _ Hj). congruence.
  - intros n. rewrite !list_elem_of_fmap. split.
    + intros (i & -> & Hi). apply elem_of_values in Hi as [n Hi]. rewrite <- (Hn _ _ Hi).
      rewrite map_lookup_imap in Hi. destruct (m !! n) as [a|] eqn:E; [|done].
      exists (n, a). split; [done|]. by apply elem_of_map_to_list.
    + intros ([n' a] & -> & E). apply elem_of_map_to_list in E. exists (info_of n' a). split; [done|].
      apply elem_of_values. exists n'. by rewrite map_lookup_imap, E.
Qed.

(** C34: topics over HTTP.  After any sequence of create, list, get, update,
    delete, purge and compaction requests within the ranges of the stored
    integers, none of which panics, the API shows exactly the topics created
    and not deleted, each with its partitions, replication factor, creation
    time and last configuration, whether the answer comes from the cache or
    from the decimal strings in the store. *)
Theorem api_topics_refine (st : ServerStore) ops :
  (forall t, time_ok t -> parse_time (format_time t) = t) -> sv_topics st = ∅ -> Forall op_ok ops ->
  exists s, run_topics ops (NewFiberServer st) = Ret s
    /\ (forall n, n <> "" ->
         match foldl spec_topic ∅ ops !! n with
         | None => snd (handleGetTopic format_time n s) = topic_not_found n
         | Some a => exists t, snd (handleGetTopic format_time n s) = json t /\ same_topic n a t
         end)
    /\ exists ts, snd (handleListTopics format_time s) = json (ts, Z.of_nat (length ts))
       /\ t_Name <$> ts ≡ₚ (map_to_list (foldl spec_topic ∅ ops)).*1
       /\ Forall (fun t => exists a, foldl spec_topic ∅ ops !! t_Name t = Some a /\ same_topic (t_Name t) a t) ts.
Proof.
  intros Hp Hst Hops. assert (topics_ok (NewFiberServer st) ∅) as H0.
  { constructor; cbn; intros *; rewrite ?Hst, ?lookup_empty; done. }
  destruct (run_topics_ok ops _ _ Hp H0 Hops) as (s & Hs & H). set (m := foldl spec_topic ∅ ops) in *.
  exists s. split; [done|]. split; [intros n; by apply (topic_get_ok n s m H)|].
  unfold handleListTopics. cbn [st_ListTopics topic_store ServerStore_MessageStore]. unfold sv_ListTopics.
  pose proof (topic_list_ok s m _ [] H (infos_ok s m H)) as Hl. destruct (foldl (list_topic format_time (storage s)) _ _) as [ts cache].
  destruct Hl as [_ ->]. eexists. split; [done|]. rewrite app_nil_l. split.
  - transitivity (ti_Name <$> topic_order O (sv_topics (storage s))).
    + rewrite <- list_fmap_compose. apply reflexive_eq, list_fmap_ext. intros _ i _. cbn.
      unfold topic_of. by destruct (partition_counts _ _).
    + rewrite HO. replace (sv_topics (storage s)) with (map_imap (fun n a => Some (info_of n a)) m).
      2:{ apply map_eq. intros n. rewrite map_lookup_imap, (ok_stored _ _ H). by destruct (m !! n). }
      apply names_of_infos.
  - apply Forall_fmap. eapply Forall_impl; [apply infos_ok, H|]. intros i (n & a & Hn & ->). cbn.
    pose proof (topic_of_same (storage s) n a (ok_config _ _ H _ _ Hn)) as Hsame.
    assert (t_Name (topic_of format_time (storage s) (info_of n a)) = n) as -> by apply Hsame. eauto.
Qed.
End refinement.

(** ** On the server's store *)

Definition sample_ops : list topic_op :=
  [TCreate [1] (Ok (mkCreateTopic "a" 3 0 None)) 100 100;
   TCreate [1] (Ok (mkCreateTopic "b" 0 2 (Some (mkTopicConfig (-1) "gzip" 5 2)))) 101 101;
   TList; TUpdate "a" (Ok (mkUpdateTopic None (Some (mkTopicConfig 7 "lz4" 8 1)))); TGet "a"; TDelete "b" true].

Lemma api_topics_refine_witness :
  exists s, run_topics pretty ParseInt listed sample_ops (NewFiberServer sv_New) = Ret s
    /\ (exists t, snd (@handleGetTopic pretty _ (ServerStore_MessageStore listed) "a" s) = json t
         /\ same_topic pretty "a" (mkAT 3 1 (mkTopicConfig 7 "lz4" 8 1) 100) t)
    /\ snd (@handleGetTopic pretty _ (ServerStore_MessageStore listed) "b" s) = topic_not_found "b".
Proof.
  destruct (api_topics_refine pretty ParseInt listed (fun _ => reflexivity _) sv_New sample_ops) as (s & Hs & Hg & _).
  - intros t Ht. apply ParseInt_pretty. unfold time_ok in Ht. unfold int64. lia.
  - reflexivity.
  - unfold sample_ops. repeat (apply Forall_cons_2; [|]); try exact I; [..|apply Forall_nil_2]; cbn; unfold time_ok.
    + repeat split; try lia; discriminate.
    + repeat split; try lia; injection H as <-; cbn; lia.
    + intros c [= <-]. repeat split; cbn; lia.
  - exists s. split; [exact Hs|]. split; [exact (Hg "a" ltac:(discriminate))|exact (Hg "b" ltac:(discriminate))].
Defined.

(** A topic made by the Kafka or AMQP adapter has no configuration map: an
    update of its configuration panics. *)
Lemma update_without_config_panics :
  let s := NewFiberServer (sv_CreateTopic (mkTopicInfo "t" 1 1 None 0) sv_New) in
  @handleUpdateTopic _ (ServerStore_MessageStore listed) "t"
    (Ok (mkUpdateTopic None (Some default_config))) s = Panic.
Proof. done. Qed.

(** A cached topic keeps the message count of the time it was cached. *)
Lemma message_count_stale :
  let s := fst (@handleCreateTopic pretty ParseInt _ (ServerStore_MessageStore listed) [1]
                  (Ok (mkCreateTopic "t" 1 1 None)) 0 0 (NewFiberServer sv_New)) in
  let s' := set_storage (sv_Store (NewMessage "m" 0 "t" [1]) (storage s)) s in
  exists t r, snd (@handleGetTopic pretty _ (ServerStore_MessageStore listed) "t" s') = json t
    /\ @handleGetTopicStats _ (ServerStore_MessageStore listed) "t" s' = json r
    /\ t_MessageCount t = 0 /\ ts_MessageCount r = 1.
Proof. do 2 eexists. repeat split; vm_compute; reflexivity. Qed.

(** Purging a topic of the server's store keeps its messages. *)
Lemma purge_keeps_messages :
  let s := NewFiberServer (sv_Store (NewMessage "m" 0 "t" [1]) (sv_CreateTopic (mkTopicInfo "t" 1 1 None 0) sv_New)) in
  let '(s', r) := @handlePurgeTopic _ (ServerStore_MessageStore listed) "t" s in
  status r = 200 /\ sv_messages (storage s') = sv_messages (storage s).
Proof. done. Qed.

(** A number of partitions beyond 32 bits is cut to them, without an error. *)
Lemma partitions_truncated :
  let '(s, r) := @handleCreateTopic pretty ParseInt _ (ServerStore_MessageStore listed) [1]
                  (Ok (mkCreateTopic "t" (2 ^ 31) 1 None)) 0 0 (NewFiberServer sv_New) in
  status r = 201 /\ ti_Partitions <$> sv_topics (storage s) !! "t" = Some (- 2 ^ 31).
Proof. vm_compute. done. Qed.
End ApiTopicsSpec.
