(* ===== verification/ApiMessages.v ===== *)
(** * The HTTP API: messages ([src/pkg/api/fiber.go], [batch_operations.go],
    [transactions.go])

    Publishing and fetching single messages and batches, acknowledgements, and
    the transaction handlers, which keep no state.  A value of a request is raw
    bytes or a JSON value; [encoding/json] is the pair [marshal] and
    [unmarshal] on a type of JSON values, [sprint] is [%v] on a header value
    and [format_nanos] prints a time.  The clock readings and the printed
    durations are arguments. *)
From stdpp Require Import base gmap strings list numbers fin_maps pretty.
From Stdlib Require Import ZArith Lia.
From S2P Require Import Prelude Types Stores Api.

Module ApiMessages.
Import Types Stores Api.

(** ** Requests and answers *)

Inductive value (V : Type) := Raw (b : bytes) | Json (v : V).
Arguments Raw {V} b.
Arguments Json {V} v.

Record PublishMessage (V : Type) := mkPublish {
  pm_Topic : string; pm_Partition : Z; pm_Key : string; pm_Value : value V;
  pm_Headers : option (gmap string GoValue); pm_TTL : option Z
}.
Arguments mkPublish {V}. Arguments pm_Topic {V}. Arguments pm_Partition {V}. Arguments pm_Key {V}.
Arguments pm_Value {V}. Arguments pm_Headers {V}. Arguments pm_TTL {V}.
Record BatchPublishRequest (V : Type) := mkBatchPublish { bp_Messages : list (PublishMessage V); bp_TransactionID : string }.
Arguments mkBatchPublish {V}. Arguments bp_Messages {V}. Arguments bp_TransactionID {V}.
Record PublishResult := mkResult {
  pr_Index : Z; pr_MessageID : string; pr_Topic : string; pr_Partition : Z; pr_Offset : Z; pr_Error : string;
  pr_Success : bool
}.
Record BatchPublishResponse := mkPublishResponse {
  Published : Z; Failed : Z; Results : list PublishResult; bp_Duration : string
}.

Record PartitionFetchRequest := mkPartitionFetch { pf_Partition : Z; FetchOffset : Z; pf_MaxBytes : Z }.
Record TopicFetchRequest := mkTopicFetch { tf_Topic : string; tf_Partitions : list PartitionFetchRequest }.
Record BatchFetchRequest := mkBatchFetch {
  bf_Topics : list TopicFetchRequest; MaxMessages : Z; MaxWaitMs : Z; MinBytes : Z; IsolationLevel : string
}.
Record FetchedMessage (V : Type) := mkFetched {
  fm_MessageID : string; fm_Offset : Z; fm_Key : string; fm_Value : V + bytes; fm_Headers : gmap string string;
  fm_Timestamp : string; fm_Size : Z
}.
Arguments mkFetched {V}. Arguments fm_MessageID {V}. Arguments fm_Value {V}. Arguments fm_Headers {V}.
Record PartitionFetchResponse (V : Type) := mkPartitionResponse {
  pfr_Partition : Z; HighWaterMark : Z; pfr_Messages : list (FetchedMessage V); pfr_Error : string
}.
Arguments mkPartitionResponse {V}. Arguments pfr_Messages {V}.
Record TopicFetchResponse (V : Type) := mkTopicResponse {
  tfr_Topic : string; tfr_Partitions : list (PartitionFetchResponse V)
}.
Arguments mkTopicResponse {V}. Arguments tfr_Partitions {V}.
Record BatchFetchResponse (V : Type) := mkFetchResponse {
  bf_Responses : list (TopicFetchResponse V); Total : Z; bf_Duration : string
}.
Arguments mkFetchResponse {V}. Arguments bf_Responses {V}. Arguments Total {V}.

Record MessageRequest (V : Type) := mkMessageRequest {
  mr_Topic : string; mr_Partition : Z; mr_Key : string; mr_Value : option (value V);
  mr_Headers : option (gmap string GoValue); mr_TTL : option Z
}.
Arguments mkMessageRequest {V}. Arguments mr_Topic {V}. Arguments mr_Partition {V}. Arguments mr_Key {V}.
Arguments mr_Value {V}. Arguments mr_Headers {V}. Arguments mr_TTL {V}.
Record FetchRequest := mkFetchRequest { fr_Topic : string; fr_Partition : Z; fr_Offset : Z; fr_Limit : Z }.
Record BatchNackRequest := mkNack { n_MessageIDs : list string; n_Reason : string; n_Requeue : bool; n_GroupID : string }.

(** A message literal with the fields the handlers set. *)
Definition message (id topic : string) (partition : Z) (key : string) (payload : bytes)
  (headers : option (gmap string GoValue)) (metadata : option (gmap string string)) (timestamp priority ttl : Z)
  : PortaskMessage :=
  mkMessage id topic payload timestamp headers metadata priority StatusPending partition key "" "" 0 ttl 0 0 0 "" ""
    zero_internal.

Section messages.
Context {V : Type} (marshal : value V -> res string bytes) (unmarshal : bytes -> res string V).
Context (sprint : GoValue -> string) (format_nanos : Z -> string).
Context {S : Type} `{!MessageStore S}.
Implicit Types s : FiberServer S.

Definition serialize (v : value V) : res string bytes :=
  match v with Raw b => Ok b | Json _ => marshal v end.

(** ** Batch publish *)

(** [fmt.Sprintf("msg_%d_%s_%d", nanos, topic, i)] *)
Definition batch_id (nanos : Z) (topic : string) (i : nat) : string :=
  "msg_" +:+ pretty nanos +:+ "_" +:+ topic +:+ "_" +:+ pretty (Z.of_nat i).

(** One iteration of the loop: the result, and the message if it is accepted;
    [clock i] are its two readings of the clock. *)
Definition publish_one (transactionID : string) (clock : nat -> Z * Z) (i : nat) (msg : PublishMessage V)
  : PublishResult * option PortaskMessage :=
  if decide (pm_Topic msg = "") then (mkResult (Z.of_nat i) "" "" 0 0 "Topic is required" false, None)
  else match serialize (pm_Value msg) with
  | Err e =>
    (mkResult (Z.of_nat i) "" (pm_Topic msg) 0 0 ("Failed to serialize value: " +:+ e) false, None)
  | Ok payload =>
    let messageID := batch_id (fst (clock i)) (pm_Topic msg) i in
    let headers := default ∅ (pm_Headers msg) in
    let metadata := if decide (transactionID = "") then ∅ else {["transaction_id" := transactionID]} in
    let portaskMsg := message messageID (pm_Topic msg) (pm_Partition msg) (pm_Key msg) payload (Some headers)
                        (Some metadata) (snd (clock i)) 0 (default 0 (pm_TTL msg)) in
    (mkResult (Z.of_nat i) messageID (pm_Topic msg) (pm_Partition msg) (Offset portaskMsg) "" true, Some portaskMsg)
  end.

Definition handleBatchPublish (req : res string (BatchPublishRequest V)) (clock : nat -> Z * Z) (duration : string) s
  : FiberServer S * reply BatchPublishResponse :=
  match req with
  | Err e => (s, invalid_body e)
  | Ok req =>
    if decide (bp_Messages req = []) then (s, fail 400 "At least one message is required")
    else if Z.of_nat (length (bp_Messages req)) >? 1000 then (s, fail 400 "Max 1000 messages per batch")
    else
      let out := imap (publish_one (bp_TransactionID req) clock) (bp_Messages req) in
      let batch := omap snd out in
      let failed := Z.of_nat (length (filter (fun r => pr_Success r = false) out.*1)) in
      if decide (batch = []) then (s, created (mkPublishResponse 0 failed out.*1 duration))
      else match st_StoreBatch batch (storage s) with
      | (st, Some e) => (set_storage st s, fail 500 ("Failed to store batch: " +:+ e))
      | (st, None) =>
        (set_storage st s, created (mkPublishResponse (Z.of_nat (length batch)) failed out.*1 duration))
      end
  end.

(** The asynchronous variant replies at once; its goroutine runs [async_publish]
    later.  [clock i] are the readings for the identifier (nanoseconds since
    1970 and within the second) and the time stamp. *)
Definition async_message (clock : nat -> Z * Z * Z) (i : nat) (msg : PublishMessage V) : PortaskMessage :=
  let '(nanos, nanosecond, timestamp) := clock i in
  let payload := match marshal (pm_Value msg) with Ok b => b | Err _ => [] end in
  message ("msg-" +:+ pretty nanos +:+ "-" +:+ pretty nanosecond) (pm_Topic msg) (pm_Partition msg) (pm_Key msg)
    payload None (Some (sprint <$> default ∅ (pm_Headers msg))) timestamp PriorityNormal 0.
Definition async_publish (msgs : list (PublishMessage V)) (clock : nat -> Z * Z * Z) s : FiberServer S :=
  let batch := imap (async_message clock) msgs in
  if decide (batch = []) then s else set_storage (fst (st_StoreBatch batch (storage s))) s.
Definition handleBatchPublishAsync (req : res string (BatchPublishRequest V)) : reply (Z * string) :=
  match req with
  | Err e => invalid_body e
  | Ok req =>
    if decide (bp_Messages req = []) then fail 400 "At least one message is required"
    else mkReply 202 (inr (Z.of_nat (length (bp_Messages req)), "Batch accepted for async processing"))
  end.

(** ** Batch fetch *)

Definition fetched (msg : PortaskMessage) : FetchedMessage V :=
  mkFetched (ID msg) (Offset msg) (Key msg)
    (match unmarshal (Payload msg) with Ok v => inl v | Err _ => inr (Payload msg) end)
    (default ∅ (Metadata msg)) (format_nanos (Timestamp msg)) (Z.of_nat (length (Payload msg))).

(** The inner loop; a partition whose fetch fails is left out. *)
Fixpoint fetch_partitions (max : Z) (topic : string) (st : S) (ps : list PartitionFetchRequest) (total : Z)
  : list (PartitionFetchResponse V) * Z :=
  match ps with
  | [] => ([], total)
  | p :: ps =>
    let limit := if max - total >? 100 then 100 else max - total in
    match st_Fetch topic (pf_Partition p) (FetchOffset p) limit st with
    | Err _ => fetch_partitions max topic st ps total
    | Ok stored =>
      let messages := fetched <$> stored in
      let n := Z.of_nat (length messages) in
      let '(rs, total) := fetch_partitions max topic st ps (total + n) in
      (mkPartitionResponse (pf_Partition p) (s64 (FetchOffset p + n)) messages "" :: rs, total)
    end
  end.
Fixpoint fetch_topics (max : Z) (st : S) (ts : list TopicFetchRequest) (total : Z)
  : list (TopicFetchResponse V) * Z :=
  match ts with
  | [] => ([], total)
  | t :: ts =>
    let '(ps, total) := fetch_partitions max (tf_Topic t) st (tf_Partitions t) total in
    let '(rs, total) := fetch_topics max st ts total in
    (mkTopicResponse (tf_Topic t) ps :: rs, total)
  end.
(** The default and the cap of [max_messages]. *)
Definition max_messages (m : Z) : Z := let m := if m =? 0 then 100 else m in if m >? 1000 then 1000 else m.
Definition handleBatchFetch (req : res string BatchFetchRequest) (duration : string) s : reply (BatchFetchResponse V) :=
  match req with
  | Err e => invalid_body e
  | Ok req =>
    let '(rs, total) := fetch_topics (max_messages (MaxMessages req)) (storage s) (bf_Topics req) 0 in
    json (mkFetchResponse rs total duration)
  end.

(** Long polling.  Each round reads the clock, looks for a message, and either
    fetches, is cancelled, or waits; [rounds] are the rounds the server gets to:
    the clock, the server then, and whether the client has gone. *)
Definition has_messages (req : BatchFetchRequest) (st : S) : bool :=
  existsb (fun t => existsb (fun p =>
    match st_Fetch (tf_Topic t) (pf_Partition p) (FetchOffset p) 1 st with Ok (_ :: _) => true | _ => false end)
    (tf_Partitions t)) (bf_Topics req).
Inductive poll_result := PollFetched (r : reply (BatchFetchResponse V)) | PollCancelled | PollTimeout (ms : Z).
Definition second : Z := 1000000000.
Fixpoint poll (req : BatchFetchRequest) (deadline timeout : Z) (duration : string)
  (rounds : list (Z * FiberServer S * bool)) : option poll_result :=
  match rounds with
  | [] => None
  | (now, s, gone) :: rounds =>
    if now >=? deadline then Some (PollTimeout (timeout / 1000000))
    else if has_messages req (storage s) then Some (PollFetched (handleBatchFetch (Ok req) duration s))
    else if gone then Some PollCancelled
    else poll req deadline timeout duration rounds
  end.
Definition handleBatchFetchPoll (req : res string BatchFetchRequest) (timeoutSecs start : Z) (duration : string)
  (rounds : list (Z * FiberServer S * bool)) : reply unit + option poll_result :=
  match req with
  | Err e => inl (invalid_body e)
  | Ok req =>
    let timeout := if timeoutSecs >? 0 then s64 (timeoutSecs * second) else 30 * second in
    inr (poll req (s64 (start + timeout)) timeout duration rounds)
  end.

(** ** Acknowledgements *)

Definition handleBatchAck (req : res string (list string)) s : FiberServer S * reply (Z * Z * list string) :=
  match req with
  | Err e => (s, invalid_body e)
  | Ok ids =>
    if decide (ids = []) then (s, fail 400 "At least one message ID is required")
    else if Z.of_nat (length ids) >? 1000 then (s, fail 400 "Max 1000 message IDs per batch")
    else (set_storage (fst (st_DeleteBatch ids (storage s))) s, json (Z.of_nat (length ids), 0, []))
  end.

Definition requeued (reason : string) (msg : PortaskMessage) : PortaskMessage :=
  mkMessage (ID msg) (Types.Topic msg) (Payload msg) (Timestamp msg) (Headers msg)
    (Some (<["nack_reason" := reason]> (default ∅ (Metadata msg)))) (Priority msg) (Status msg) (Partition msg)
    (Key msg) (PartitionKey msg) (ReplyTo msg) (ExpiresAt msg) (TTL msg) (Offset msg) (u8 (Attempts msg + 1))
    (MaxRetry msg) (CorrelationID msg) (TraceID msg) (_internal msg).
(** A store may return neither a message nor an error: the nil message panics. *)
Fixpoint requeue (reason : string) (ids : list string) (st : S) (nacked : Z) : exec (S * Z) :=
  match ids with
  | [] => Ret (st, nacked)
  | id :: ids =>
    match st_FetchByID id st with
    | Err _ => requeue reason ids st nacked
    | Ok None => Panic
    | Ok (Some msg) =>
      match st_Store (requeued reason msg) st with
      | (st, Some _) => requeue reason ids st nacked
      | (st, None) => requeue reason ids st (nacked + 1)
      end
    end
  end.
Definition handleBatchNack (req : res string BatchNackRequest) s : exec (FiberServer S * reply (Z * bool * string)) :=
  match req with
  | Err e => Ret (s, invalid_body e)
  | Ok req =>
    if decide (n_MessageIDs req = []) then Ret (s, fail 400 "At least one message ID is required")
    else if n_Requeue req then
      do! r := requeue (n_Reason req) (n_MessageIDs req) (storage s) 0 in
      Ret (set_storage (fst r) s, json (snd r, true, n_GroupID req))
    else Ret (s, json (Z.of_nat (length (n_MessageIDs req)), false, n_GroupID req))
  end.

(** ** Single messages *)

(** The channel to the WebSocket hub holds 256 messages; a full one is skipped. *)
Definition try_broadcast (msg : PortaskMessage) s : FiberServer S :=
  if Z.of_nat (length (broadcast s)) <? 256 then set_broadcast (broadcast s ++ [msg]) s else s.

Definition handlePublishFiber (req : res string (MessageRequest V)) (nanos timestamp : Z) s
  : FiberServer S * reply (string * string * Z * Z) :=
  match req with
  | Err e => (s, invalid_body e)
  | Ok req =>
    if decide (mr_Topic req = "") then (s, fail 400 "Topic is required")
    else match mr_Value req with
    | None => (s, fail 400 "Value is required")
    | Some v =>
      match serialize v with
      | Err e => (s, fail 400 ("Failed to serialize value: " +:+ e))
      | Ok payload =>
        let messageID := "msg_" +:+ pretty nanos +:+ "_" +:+ mr_Topic req in
        let headers := match mr_TTL req with
                       | Some ttl => <["ttl" := VInt (Z.quot ttl 1000000)]> (default ∅ (mr_Headers req))
                       | None => default ∅ (mr_Headers req)
                       end in
        let msg := message messageID (mr_Topic req) (s32 (mr_Partition req)) (mr_Key req) payload (Some headers) None
                     timestamp 0 0 in
        match st_Store msg (storage s) with
        | (st, Some e) => (set_storage st s, fail 500 ("Failed to store message: " +:+ e))
        | (st, None) =>
          (try_broadcast msg (set_storage st s), json (messageID, mr_Topic req, mr_Partition req, timestamp))
        end
      end
    end
  end.

Record FiberMessage := mkFiberMessage {
  f_id : string; f_topic : string; f_partition : Z; f_key : string; f_value : bytes;
  f_headers : option (gmap string GoValue); f_timestamp : Z
}.
Definition fiber_message (msg : PortaskMessage) : FiberMessage :=
  mkFiberMessage (ID msg) (Types.Topic msg) (Partition msg) (Key msg) (Payload msg) (Headers msg) (Timestamp msg).
Definition handleFetchFiber (req : res string FetchRequest) s : reply (list FiberMessage * Z * FetchRequest) :=
  match req with
  | Err e => invalid_body e
  | Ok req =>
    if decide (fr_Topic req = "") then fail 400 "Topic is required"
    else
      let limit := if (fr_Limit req <=? 0) || (fr_Limit req >? 1000) then 100 else fr_Limit req in
      match st_Fetch (fr_Topic req) (s32 (fr_Partition req)) (fr_Offset req) limit (storage s) with
      | Err e => fail 500 ("Failed to fetch messages: " +:+ e)
      | Ok messages =>
        json (fiber_message <$> messages, Z.of_nat (length messages),
              mkFetchRequest (fr_Topic req) (fr_Partition req) (fr_Offset req) limit)
      end
  end.
End messages.

(** ** Transactions: the handlers answer and keep nothing *)

Inductive TransactionState := TxStateActive | TxStatePreparing | TxStateCommitted | TxStateAborted | TxStateExpired.
Record Transaction := mkTransaction {
  tx_ID : string; tx_State : TransactionState; tx_Topics : list string; tx_Messages : Z; tx_CreatedAt : string;
  tx_UpdatedAt : string; tx_ExpiresAt : string; tx_TimeoutMs : Z
}.

Section transactions.
Context (format_nanos : Z -> string).

Definition handleBeginTransaction (req : res string (Z * list string)) (nanos now : Z)
  : reply (string * TransactionState * string) :=
  match req with
  | Err e => invalid_body e
  | Ok (timeoutMs, _) =>
    let timeoutMs := if timeoutMs =? 0 then 60000 else timeoutMs in
    created ("tx-" +:+ pretty nanos, TxStateActive, format_nanos (now + s64 (timeoutMs * 1000000)))
  end.
Definition handleCommitTransaction (req : res string string) (now : Z) : reply (string * TransactionState * string) :=
  match req with
  | Err e => invalid_body e
  | Ok id =>
    if decide (id = "") then fail 400 "Transaction ID is required"
    else json (id, TxStateCommitted, format_nanos now)
  end.
Definition handleAbortTransaction (req : res string (string * string)) (now : Z)
  : reply (string * TransactionState * string * string) :=
  match req with
  | Err e => invalid_body e
  | Ok (id, reason) =>
    if decide (id = "") then fail 400 "Transaction ID is required"
    else json (id, TxStateAborted, format_nanos now, reason)
  end.
(** The transaction, whether it is healthy, and whether it can commit. *)
Definition handleGetTransactionStatus (txID : string) (now : Z) : reply (Transaction * bool * bool) :=
  if decide (txID = "") then fail 400 "Transaction ID is required"
  else json (mkTransaction txID TxStateActive ["orders"; "payments"] 10 (format_nanos (now - 300 * second))
               (format_nanos now) (format_nanos (now + 55 * second)) 60000, true, true).
Definition handleListTransactions (now : Z) : reply (list Transaction * Z) :=
  json ([mkTransaction "tx-123" TxStateActive ["orders"] 5 (format_nanos (now - 600 * second)) (format_nanos now)
           (format_nanos (now + 50 * second)) 60000], 1).
Definition handleDeleteTransaction (txID : string) : reply string :=
  if decide (txID = "") then fail 400 "Transaction ID is required"
  else json ("Transaction '" +:+ txID +:+ "' deleted").
End transactions.
End ApiMessages.
