(* ===== verification/ApiMessagesSpec.v ===== *)
(** * Theorems about the API's messages

    A batch publish accounts for every message of the request
    ([batch_publish_accounted]), and a batch fetch reads the published values
    back ([batch_publish_fetch]); acknowledgements; defects of limits and
    transactions. *)
From stdpp Require Import base gmap strings list numbers fin_maps pretty.
From Stdlib Require Import ZArith Lia Ascii.
From S2P Require Import Prelude Types IdsSpec Stores StoresSpec Api ApiSpec ApiMessages.

Module ApiMessagesSpec.
Import Types Stores StoresSpec Api ApiSpec ApiMessages.

(** ** Identifiers of a batch *)

Lemma plain_digit d : (d < 10)%N -> pretty_N_char d <> Ascii true true true true true false true false.
Proof.
  intros H. assert (d = 0 \/ d = 1 \/ d = 2 \/ d = 3 \/ d = 4 \/ d = 5 \/ d = 6 \/ d = 7 \/ d = 8 \/ d = 9)%N as E by lia.
  repeat destruct E as [->|E]; try discriminate. by subst.
Qed.
Lemma plain_pretty_go (x : N) : forall s, plain s -> plain (pretty_N_go x s).
Proof.
  induction (N.lt_wf_0 x) as [x _ IH]. intros s Hs. destruct (decide (x = 0%N)) as [->|Hx]; [done|].
  rewrite pretty_N_go_step by lia. apply IH; [apply N.div_lt; lia|]. split; [|done].
  apply plain_digit. by apply N.mod_lt.
Qed.
Lemma plain_pretty (i : nat) : plain (pretty (Z.of_nat i)).
Proof.
  destruct (Z.of_nat i) as [|x|x] eqn:E; [repeat constructor; discriminate| |lia].
  change (pretty (Z.pos x)) with (pretty_N_go (N.pos x) ""). by apply plain_pretty_go.
Qed.

Lemma plain_app a b : plain (a +:+ b) -> plain a /\ plain b.
Proof. induction a as [|c a IH]; cbn; [done|]. intros [? H]. apply IH in H as []. done. Qed.

(** The last underscore separates. *)
Lemma plain_suffix a b x y : plain x -> plain y -> a +:+ "_" +:+ x = b +:+ "_" +:+ y -> x = y.
Proof.
  intros Hx Hy. revert b. induction a as [|c a IH]; intros [|d b] E; cbn in E.
  - by injection E.
  - injection E as _ E. change ("" +:+ x) with x in E. rewrite E in Hx. apply plain_app in Hx as [_ Hx]. destruct Hx as [[] _]. done.
  - injection E as _ E. change ("" +:+ y) with y in E. rewrite <- E in Hy. apply plain_app in Hy as [_ Hy]. destruct Hy as [[] _]. done.
  - injection E as -> E. by apply (IH b).
Qed.

Lemma batch_id_inj n t i n' t' i' : batch_id n t i = batch_id n' t' i' -> i = i'.
Proof.
  unfold batch_id. intros E.
  assert (forall (n : Z) (t : string) (i : nat), "msg_" +:+ pretty n +:+ "_" +:+ t +:+ "_" +:+ pretty (Z.of_nat i)
    = ("msg_" +:+ pretty n +:+ "_" +:+ t) +:+ "_" +:+ pretty (Z.of_nat i)) as Hassoc.
  { intros. by rewrite !IdsSpec.string_app_assoc. }
  rewrite !Hassoc in E. apply plain_suffix in E; [|apply plain_pretty..].
  apply (inj pretty) in E. lia.
Qed.

(** ** Batch publish *)

Section publish.
Context {V : Type} (marshal : value V -> res string bytes) (unmarshal : bytes -> res string V).
Context (format_nanos : Z -> string).
Implicit Types (msg : PublishMessage V) (msgs : list (PublishMessage V)).

Definition acceptable msg : bool :=
  bool_decide (pm_Topic msg <> "") && is_ok (serialize marshal (pm_Value msg)).

(** What the loop makes of one message. *)
Lemma publish_one_spec tid clock i msg :
  let '(x, m) := publish_one marshal tid clock i msg in
  pr_Index x = Z.of_nat i /\ pr_Success x = acceptable msg /\
  match m with
  | None => acceptable msg = false
  | Some m => acceptable msg = true /\ ID m = pr_MessageID x /\ Types.Topic m = pm_Topic msg
      /\ serialize marshal (pm_Value msg) = Ok (Payload m)
      /\ exists n, ID m = batch_id n (pm_Topic msg) i
  end.
Proof.
  unfold publish_one, acceptable. case_decide as E.
  - by rewrite bool_decide_false by auto.
  - rewrite bool_decide_true by done. destruct (serialize marshal (pm_Value msg)); cbn; eauto 10.
Qed.

Definition outs (tid : string) (clock : nat -> Z * Z) (k : nat) msgs : list (PublishResult * option PortaskMessage) :=
  imap (fun i => publish_one marshal tid clock (k + i)) msgs.
#[local] Arguments outs : simpl never.

Lemma outs_cons tid clock k msg msgs :
  outs tid clock k (msg :: msgs) = publish_one marshal tid clock k msg :: outs tid clock (Datatypes.S k) msgs.
Proof. unfold outs. rewrite imap_cons, Nat.add_0_r. f_equal. apply imap_ext. intros. cbn. by rewrite Nat.add_succ_r. Qed.

Lemma outs_ids tid clock k msgs m :
  m ∈ omap snd (outs tid clock k msgs) -> exists n t i, (k <= i)%nat /\ ID m = batch_id n t i.
Proof.
  revert k. induction msgs as [|msg msgs IH]; intros k H; [by apply elem_of_nil in H|].
  rewrite outs_cons in H. cbn in H. pose proof (publish_one_spec tid clock k msg) as Hs.
  destruct (publish_one marshal tid clock k msg) as [x [m'|]]; cbn in H.
  - destruct Hs as (_ & _ & _ & _ & _ & _ & n & Hn).
    apply elem_of_cons in H as [->|H]; [by exists n, (pm_Topic msg), k|].
    destruct (IH (Datatypes.S k) H) as (n' & t & i & ? & ?). exists n', t, i. split; [lia|done].
  - destruct (IH (Datatypes.S k) H) as (n' & t & i & ? & ?). exists n', t, i. split; [lia|done].
Qed.

Lemma outs_NoDup tid clock msgs : forall k, NoDup (ID <$> omap snd (outs tid clock k msgs)).
Proof.
  induction msgs as [|msg msgs IH]; intros k; [constructor|]. rewrite outs_cons. cbn.
  pose proof (publish_one_spec tid clock k msg) as Hs.
  destruct (publish_one marshal tid clock k msg) as [x [m|]]; cbn; [|apply IH].
  constructor; [|apply IH]. intros H. apply list_elem_of_fmap in H as (m' & E & H).
  apply outs_ids in H as (n & t & i & Hi & Hm'). destruct Hs as (_ & _ & _ & _ & _ & _ & n' & Hm).
  rewrite Hm, Hm' in E. apply batch_id_inj in E. lia.
Qed.

Lemma outs_counts tid clock msgs : forall k,
  (length (omap snd (outs tid clock k msgs))
   + length (filter (fun r => pr_Success r = false) (outs tid clock k msgs).*1) = length msgs)%nat
  /\ ID <$> omap snd (outs tid clock k msgs)
     = pr_MessageID <$> filter (fun r => pr_Success r = true) (outs tid clock k msgs).*1.
Proof.
  induction msgs as [|msg msgs IH]; intros k; [done|]. rewrite outs_cons. cbn.
  pose proof (publish_one_spec tid clock k msg) as Hs. destruct (IH (Datatypes.S k)) as [IH1 IH2].
  destruct (publish_one marshal tid clock k msg) as [x m]. destruct Hs as (_ & Hx & Hm). cbn.
  destruct m as [m|]; cbn.
  - destruct Hm as (Ha & Hid & _). rewrite Ha in Hx. rewrite !Hx. cbn. rewrite Hid, IH2. split; [|done].
    rewrite <- IH1. done.
  - rewrite Hm in Hx. rewrite !Hx. cbn. rewrite IH2. split; [|done]. rewrite <- IH1, decide_True by done. cbn. apply Nat.add_succ_r.
Qed.

Lemma outs_lookup tid clock msgs i msg :
  msgs !! i = Some msg -> (outs tid clock 0 msgs).*1 !! i = Some (fst (publish_one marshal tid clock i msg)).
Proof. intros H. unfold outs. by rewrite list_lookup_fmap, list_lookup_imap, H. Qed.

Lemma handle_publish_unfold {S} `{!MessageStore S} req clock d (s : FiberServer S) :
  (1 <= length (bp_Messages req) <= 1000)%nat ->
  let out := outs (bp_TransactionID req) clock 0 (bp_Messages req) in
  let failed := Z.of_nat (length (filter (fun r => pr_Success r = false) out.*1)) in
  handleBatchPublish marshal (Ok req) clock d s
  = if decide (omap snd out = []) then (s, created (mkPublishResponse 0 failed out.*1 d))
    else match st_StoreBatch (omap snd out) (storage s) with
         | (st, Some e) => (set_storage st s, fail 500 ("Failed to store batch: " +:+ e))
         | (st, None) =>
           (set_storage st s, created (mkPublishResponse (Z.of_nat (length (omap snd out))) failed out.*1 d))
         end.
Proof.
  intros Hn. unfold handleBatchPublish. destruct (decide (bp_Messages req = [])) as [E|_]; [rewrite E in Hn; cbn in Hn; lia|].
  destruct (Z.gtb_spec (Z.of_nat (length (bp_Messages req))) 1000) as [|_]; [lia|]. done.
Qed.

(** A batch publish accounts for every message.  For a request with 1 to
    1000 messages, whatever the store does, either the reply is the store's
    error, or there is one result per message, in order and with its index,
    which is a success exactly if the topic is not empty and the value can be
    serialized; what was stored are the successes, in order, under the
    identifiers reported, which are all different, and the counts of published
    and failed add up to the size of the request. *)
Theorem batch_publish_accounted {S} `{!MessageStore S} req clock d (s : FiberServer S) :
  (1 <= length (bp_Messages req) <= 1000)%nat ->
  (exists st e, handleBatchPublish marshal (Ok req) clock d s
     = (set_storage st s, fail 500 ("Failed to store batch: " +:+ e)))
  \/ exists st r batch, handleBatchPublish marshal (Ok req) clock d s = (set_storage st s, created r)
     /\ (batch = [] /\ st = storage s \/ st_StoreBatch batch (storage s) = (st, None))
     /\ Published r = Z.of_nat (length batch) /\ Published r + Failed r = Z.of_nat (length (bp_Messages req))
     /\ length (Results r) = length (bp_Messages req)
     /\ (forall i msg, bp_Messages req !! i = Some msg -> exists x, Results r !! i = Some x
          /\ pr_Index x = Z.of_nat i /\ pr_Success x = acceptable msg)
     /\ ID <$> batch = pr_MessageID <$> filter (fun x => pr_Success x = true) (Results r)
     /\ NoDup (ID <$> batch).
Proof.
  intros Hn. rewrite handle_publish_unfold by done. set (out := outs _ clock 0 _).
  destruct (outs_counts (bp_TransactionID req) clock (bp_Messages req) 0) as [Hc Hids]. fold out in Hc, Hids.
  assert (forall i msg, bp_Messages req !! i = Some msg -> exists x, out.*1 !! i = Some x
    /\ pr_Index x = Z.of_nat i /\ pr_Success x = acceptable msg) as Hres.
  { intros i msg Hi. eexists. split; [by apply outs_lookup|].
    pose proof (publish_one_spec (bp_TransactionID req) clock i msg) as Hs.
    destruct (publish_one marshal _ clock i msg) as [x m]. cbn. by destruct Hs as (? & ? & _). }
  assert (length out.*1 = length (bp_Messages req)) as Hl by (unfold out, outs; by rewrite length_fmap, length_imap).
  destruct (decide (omap snd out = [])) as [E|E].
  - right. exists (storage s), (mkPublishResponse 0 (Z.of_nat (length (filter (fun r => pr_Success r = false) out.*1))) out.*1 d), [].
    rewrite E in Hc, Hids. cbn in Hc. split; [by destruct s|]. cbn [Published Failed Results].
    repeat split; [auto|lia|done|done|by rewrite <- Hids|constructor].
  - destruct (st_StoreBatch (omap snd out) (storage s)) as [st [e|]] eqn:Es; [left; eauto|].
    right. eexists st, _, (omap snd out). split; [done|]. cbn [Published Failed Results].
    repeat split; [auto|lia|done|done|done|apply outs_NoDup].
Qed.

(** ** Publish, then fetch *)

(** The values of a topic among the accepted messages, with their identifiers. *)
Definition published (t : string) (rs : list PublishResult) msgs : list (string * (V + bytes)) :=
  omap (fun '(x, msg) =>
    if pr_Success x && bool_decide (pm_Topic msg = t)
    then match pm_Value msg with Json v => Some (pr_MessageID x, inl v) | Raw b => None end
    else None) (zip rs msgs).

Definition shown (m : FetchedMessage V) : string * (V + bytes) := (fm_MessageID m, fm_Value m).

Lemma outs_published t tid clock msgs :
  (forall v b, marshal (Json v) = Ok b -> unmarshal b = Ok v) ->
  Forall (fun msg => exists v, pm_Value msg = Json v) msgs -> forall k,
  shown ∘ fetched unmarshal format_nanos
    <$> filter (fun m => Types.Topic m = t) (omap snd (outs tid clock k msgs))
  = published t (outs tid clock k msgs).*1 msgs.
Proof.
  intros Hj. induction 1 as [|msg msgs [v Hv] _ IH]; intros k; [done|]. rewrite outs_cons. unfold published. cbn.
  pose proof (publish_one_spec tid clock k msg) as Hs.
  destruct (publish_one marshal tid clock k msg) as [x m]. destruct Hs as (_ & Hx & Hm). cbn. rewrite Hx.
  fold (published t (outs tid clock (Datatypes.S k) msgs).*1 msgs). rewrite <- (IH (Datatypes.S k)).
  destruct m as [m|]; cbn; [|by rewrite Hm].
  destruct Hm as (Ha & Hid & Ht & Hp & _). rewrite Ha, Ht, Hv. cbn.
  destruct (decide (pm_Topic msg = t)) as [E|E]; [rewrite bool_decide_true by done|by rewrite bool_decide_false].
  cbn. f_equal. rewrite Hv in Hp. cbn in Hp. unfold shown, fetched. cbn. by rewrite (Hj _ _ Hp), Hid.
Qed.

Lemma published_length t rs msgs :
  (length (published t rs msgs) <= length (filter (fun msg => pm_Topic msg = t) msgs))%nat.
Proof.
  unfold published. revert rs. induction msgs as [|msg msgs IH]; intros [|x rs]; try (cbn; lia).
  specialize (IH rs). cbn [zip zip_with omap list_omap]. rewrite filter_cons.
  destruct (decide (pm_Topic msg = t)) as [E|E].
  - destruct (pr_Success x && _); [destruct (pm_Value msg)|]; cbn [length]; lia.
  - rewrite bool_decide_false by done. rewrite andb_false_r. done.
Qed.

Section server_store.
Context (O : orders) (HO : forall m, message_order O m ≡ₚ (map_to_list m).*2).
#[local] Instance message_store : MessageStore ServerStore := ServerStore_MessageStore O.

(** One partition of the server's store, fetched with the default limit. *)
Lemma fetch_one_partition t p o b mb iso w d (s : FiberServer ServerStore) :
  exists live, live ≡ₚ filter (fun m => Types.Topic m = t) (map_to_list (sv_messages (storage s))).*2
    /\ handleBatchFetch unmarshal format_nanos (Ok (mkBatchFetch [mkTopicFetch t [mkPartitionFetch p o b]] 0 w mb iso)) d s
       = json (mkFetchResponse [mkTopicResponse t [mkPartitionResponse p
                 (s64 (o + Z.of_nat (length (take 100 live)))) (fetched unmarshal format_nanos <$> take 100 live) ""]]
               (Z.of_nat (length (take 100 live))) d).
Proof.
  exists (filter (fun m => bool_decide (Types.Topic m = t) = true) (message_order O (sv_messages (storage s)))). split.
  - rewrite HO. apply reflexive_eq, list_filter_iff. intros m. apply bool_decide_eq_true.
  - unfold handleBatchFetch. cbn [bf_Topics MaxMessages fetch_topics fetch_partitions tf_Partitions tf_Topic pf_Partition
      FetchOffset st_Fetch message_store ServerStore_MessageStore].
    unfold sv_Fetch. rewrite collect_take. change (Z.to_nat _) with 100%nat. cbv zeta.
    rewrite length_fmap, Z.add_0_l. done.
Qed.

(** C36: what is published over HTTP is read over HTTP.  On a server whose store
    is empty, after a batch publish of at most a thousand JSON values (which
    decode to what was encoded), a batch fetch of one partition of one topic with
    the default number of messages (0, which means 100), for a topic that got at
    most a hundred of the values, answers, in some order, exactly the values
    published to that topic that were reported as successes, each under the
    identifier reported for it. *)
Theorem batch_publish_fetch req clock d (s : FiberServer ServerStore) t p o b mb iso w d' :
  (forall v b, marshal (Json v) = Ok b -> unmarshal b = Ok v) ->
  sv_messages (storage s) = ∅ -> (1 <= length (bp_Messages req) <= 1000)%nat ->
  Forall (fun msg => exists v, pm_Value msg = Json v) (bp_Messages req) ->
  (length (filter (fun msg => pm_Topic msg = t) (bp_Messages req)) <= 100)%nat ->
  exists r ms h, snd (handleBatchPublish marshal (Ok req) clock d s) = created r
    /\ handleBatchFetch unmarshal format_nanos
         (Ok (mkBatchFetch [mkTopicFetch t [mkPartitionFetch p o b]] 0 w mb iso)) d'
         (fst (handleBatchPublish marshal (Ok req) clock d s))
       = json (mkFetchResponse [mkTopicResponse t [mkPartitionResponse p h ms ""]] (Z.of_nat (length ms)) d')
    /\ shown <$> ms ≡ₚ published t (Results r) (bp_Messages req).
Proof.
  intros Hj Hempty Hn Hjson Ht. rewrite handle_publish_unfold by done.
  set (out := outs (bp_TransactionID req) clock 0 (bp_Messages req)).
  set (st := sv_StoreBatch (omap snd out) (storage s)).
  assert (exists r, (if decide (omap snd out = []) then _ else _) = (set_storage st s, created r) /\ Results r = out.*1)
    as (r & -> & Hr).
  { destruct (decide (omap snd out = [])) as [E|E].
    - eexists (mkPublishResponse _ _ out.*1 _). split; [|done]. unfold st. rewrite E. by destruct s.
    - by eexists (mkPublishResponse _ _ out.*1 _). }
  destruct (fetch_one_partition t p o b mb iso w d' (set_storage st s)) as (live & Hlive & Hfetch).
  assert (live ≡ₚ filter (fun m => Types.Topic m = t) (omap snd out)) as Hl.
  { rewrite Hlive. cbn [storage set_storage]. unfold st. rewrite stored_values; [|apply outs_NoDup|].
    - by rewrite Hempty, map_to_list_empty.
    - intros m _. by rewrite Hempty, lookup_empty. }
  assert (shown ∘ fetched unmarshal format_nanos <$> live ≡ₚ published t (Results r) (bp_Messages req)) as Hp.
  { rewrite Hl, Hr. apply reflexive_eq. by apply outs_published. }
  assert (length live <= 100)%nat as Hlen.
  { rewrite <- (length_fmap (shown ∘ fetched unmarshal format_nanos) live), Hp. etransitivity; [|exact Ht].
    apply published_length. }
  rewrite take_ge in Hfetch by lia.
  exists r, (fetched unmarshal format_nanos <$> live), (s64 (o + Z.of_nat (length live))).
  split; [done|]. split; [by rewrite length_fmap|].
  by rewrite <- list_fmap_compose.
Qed.
End server_store.
End publish.

(** ** Negative acknowledgements *)

Definition occurrences (id : string) (ids : list string) : nat := length (filter (fun x => x = id) ids).

(** A requeue never panics on the server's store: each message named is counted
    once per occurrence with one more attempt and the reason, and unknown
    identifiers are passed over. *)
Theorem requeue_exact O reason ids : forall (st : ServerStore) n,
  (forall id m, sv_messages st !! id = Some m -> ID m = id) ->
  exists st', @requeue _ (ServerStore_MessageStore O) reason ids st n
      = Ret (st', n + Z.of_nat (length (filter (fun id => is_Some (sv_messages st !! id)) ids)))
    /\ forall id, sv_messages st' !! id = Nat.iter (occurrences id ids) (requeued reason) <$> sv_messages st !! id.
Proof.
  induction ids as [|id ids IH]; intros st n Hst.
  - exists st. cbn. rewrite Z.add_0_r. split; [done|]. intros id. by destruct (sv_messages st !! id).
  - cbn [requeue st_FetchByID st_Store ServerStore_MessageStore]. unfold sv_FetchByID. rewrite filter_cons.
    unfold occurrences. destruct (sv_messages st !! id) as [m|] eqn:E.
    + destruct (IH (sv_Store (requeued reason m) st) (n + 1)) as (st' & -> & Hl).
      { intros id' m' E'. cbn in E'. apply lookup_insert_Some in E' as [[<- <-]|[_ E']]; [done|by apply Hst]. }
      assert (forall id', is_Some (sv_messages (sv_Store (requeued reason m) st) !! id')
        <-> is_Some (sv_messages st !! id')) as Hsome.
      { intros id'. cbn. rewrite (Hst _ _ E). destruct (decide (id' = id)) as [->|];
          [by rewrite lookup_insert_eq, E|by rewrite lookup_insert_ne]. }
      exists st'. split.
      * f_equal. f_equal. rewrite (list_filter_iff _ (fun id' => is_Some (sv_messages st !! id')) ids Hsome).
        rewrite decide_True by done. cbn [length]. lia.
      * intros id'. rewrite Hl, filter_cons. cbn [sv_Store sv_messages]. change (ID (requeued reason m)) with (ID m).
        rewrite (Hst _ _ E). unfold occurrences. destruct (decide (id = id')) as [->|Hne].
        -- rewrite lookup_insert_eq, E. cbn [fmap option_fmap option_map length]. by rewrite Nat.iter_succ_r.
        -- by rewrite lookup_insert_ne.
    + destruct (IH st n Hst) as (st' & -> & Hl). exists st'. split.
      * by rewrite decide_False by (intros [? ?]; congruence).
      * intros id'. rewrite Hl, filter_cons. destruct (decide (id = id')) as [->|]; [by rewrite E|done].
Qed.

(** A store that answers an unknown identifier with neither a message nor an
    error, as [InMemoryStorage] does, makes a requeue panic. *)
Lemma missing_message_panics {S} `{!MessageStore S} id ids reason g (s : FiberServer S) :
  st_FetchByID id (storage s) = Ok None -> handleBatchNack (Ok (mkNack (id :: ids) reason true g)) s = Panic.
Proof. intros E. cbn. by rewrite E. Qed.

(** A nack without requeue reports its messages and does nothing. *)
Lemma nack_does_nothing O (s : FiberServer ServerStore) id ids reason g :
  @handleBatchNack _ (ServerStore_MessageStore O) (Ok (mkNack (id :: ids) reason false g)) s
  = Ret (s, json (Z.of_nat (length (id :: ids)), false, g)).
Proof. done. Qed.

(** ** Examples and defects, on numbers as JSON values *)

Definition number_marshal (v : value Z) : res string bytes := match v with Json z => Ok [z] | Raw b => Ok b end.
Definition number_unmarshal (b : bytes) : res string Z := match b with [z] => Ok z | _ => Err "" end.
Definition three : BatchPublishRequest Z :=
  mkBatchPublish [mkPublish "t" 0 "" (Json 7) None None; mkPublish "" 0 "" (Json 8) None None;
                  mkPublish "t" 1 "" (Json 9) None None] "".
Definition ticks (i : nat) : Z * Z := (5, 6).

Lemma batch_publish_accounted_witness :
  exists st r batch, @handleBatchPublish Z number_marshal _ (ServerStore_MessageStore listed) (Ok three) ticks "" empty_server
      = (set_storage st empty_server, created r)
    /\ Published r = Z.of_nat (length batch) /\ Published r + Failed r = 3 /\ NoDup (ID <$> batch).
Proof.
  destruct (@batch_publish_accounted Z number_marshal _ (ServerStore_MessageStore listed) three ticks "" empty_server)
    as [(st & e & E)|(st & r & batch & E & _ & Hp & Hf & _ & _ & _ & Hd)].
  - cbn. lia.
  - vm_compute in E. discriminate.
  - exists st, r, batch. split; [exact E|]. split; [exact Hp|]. split; [exact Hf|exact Hd].
Defined.

Lemma batch_publish_fetch_witness :
  exists ms h, @handleBatchFetch Z number_unmarshal pretty _ (ServerStore_MessageStore listed)
      (Ok (mkBatchFetch [mkTopicFetch "t" [mkPartitionFetch 0 0 0]] 0 0 0 "")) ""
      (fst (@handleBatchPublish Z number_marshal _ (ServerStore_MessageStore listed) (Ok three) ticks "" empty_server))
    = json (mkFetchResponse [mkTopicResponse "t" [mkPartitionResponse 0 h ms ""]] (Z.of_nat (length ms)) "")
    /\ shown <$> ms ≡ₚ [("msg_5_t_0", inl 7); ("msg_5_t_2", inl 9)].
Proof.
  destruct (batch_publish_fetch number_marshal number_unmarshal pretty listed (fun _ => reflexivity _)
    three ticks "" empty_server "t" 0 0 0 0 "" 0 "") as (r & ms & h & Hr & Hf & Hp).
  - intros v b [= <-]. reflexivity.
  - reflexivity.
  - cbn. lia.
  - repeat (apply Forall_cons_2; [eexists; reflexivity|]). apply Forall_nil_2.
  - vm_compute. lia.
  - exists ms, h. split; [exact Hf|]. vm_compute in Hr. injection Hr as <-. exact Hp.
Defined.

(** The limit left may be 0, for which the store still returns one message: the
    total exceeds the maximum asked for. *)
Lemma fetch_overshoots :
  let s := fst (@handleBatchPublish Z number_marshal _ (ServerStore_MessageStore listed) (Ok three) ticks "" empty_server) in
  exists rs, @handleBatchFetch Z number_unmarshal pretty _ (ServerStore_MessageStore listed)
    (Ok (mkBatchFetch [mkTopicFetch "t" [mkPartitionFetch 0 0 0; mkPartitionFetch 1 0 0]] 1 0 0 "")) "" s
    = json (mkFetchResponse rs 2 "").
Proof. eexists. vm_compute. reflexivity. Qed.

(** Messages of a transaction can be read before it is committed, and after it
    is aborted. *)
Lemma aborted_messages_visible :
  let req := mkBatchPublish [mkPublish "t" 0 "" (Json 7) None None] "tx" in
  let s := fst (@handleBatchPublish Z number_marshal _ (ServerStore_MessageStore listed) (Ok req) ticks "" empty_server) in
  status (handleAbortTransaction pretty (Ok ("tx", "")) 0) = 200
  /\ exists ms h, @handleBatchFetch Z number_unmarshal pretty _ (ServerStore_MessageStore listed)
       (Ok (mkBatchFetch [mkTopicFetch "t" [mkPartitionFetch 0 0 0]] 0 0 0 "read_committed")) "" s
     = json (mkFetchResponse [mkTopicResponse "t" [mkPartitionResponse 0 h ms ""]] 1 "")
     /\ shown <$> ms = [("msg_5_t_0", inl 7)].
Proof. split; [done|]. do 2 eexists. split; vm_compute; reflexivity. Qed.

(** The time to live of a single publish becomes a header; the message itself
    has none. *)
Lemma publish_ttl_ignored :
  let s := fst (@handlePublishFiber Z number_marshal _ (ServerStore_MessageStore listed)
    (Ok (mkMessageRequest "t" 0 "" (Some (Json 7)) None (Some 5000000))) 1 1 empty_server) in
  option_map (fun m => (TTL m, Headers m)) (sv_messages (storage s) !! "msg_1_t") = Some (0, Some {["ttl" := VInt 5]}).
Proof. vm_compute. reflexivity. Qed.
End ApiMessagesSpec.
