(* ===== verification/Hub.v ===== *)
(** * WebSocket delivery ([src/pkg/api/websocket.go], the WebSocket handler of
    [fiber.go])

    [WebSocketServer] is a hub goroutine with a goroutine per client that reads
    its connection; they meet in channels.  The model takes one event at a time:
    a client connects, a reader handles a message or ends, the hub receives from
    one of its channels, a writer drains its queue.  Unbuffered channels are
    rendezvous: a goroutine that sends waits in its state until the hub
    receives.  A goroutine that sends on the channel only it receives from waits
    for ever ([Stuck]), and a send on a closed channel is a panic, which ends
    the process.  Frames are kept as data; whether one can be marshalled is an
    argument, and so are the clock and the order in which maps are iterated. *)
From stdpp Require Import base gmap strings list numbers fin_maps sets pretty.
From Stdlib Require Import ZArith Lia.
From S2P Require Import Prelude Types Stores Api ApiMessages.

Module Hub.
Import Types.

(** ** Frames and requests *)

Inductive frame :=
| FResponse (type : string) (success : bool) (data : list (string * string)) (error : string) (now : Z)
| FMessage (topic : string) (data : bytes) (id : string) (timestamp : Z) (headers : option (gmap string GoValue))
| FPing (now : Z).

Record WebSocketMessage (V : Type) := mkWS {
  w_Type : string; w_Topic : string; w_Data : ApiMessages.value V; w_Headers : option (gmap string GoValue)
}.
Arguments mkWS {V}. Arguments w_Type {V}. Arguments w_Topic {V}. Arguments w_Data {V}. Arguments w_Headers {V}.

Definition queue_cap : Z := 256.

(** Where a client's reader is: reading; waiting to hand a message to the full
    broadcast channel; waiting for the hub to take it from the unregister
    channel, after which it goes on reading or ends. *)
Inductive reader := Reading | PublishWait (m : PortaskMessage) | UnregisterWait (goes_on : bool) | Finished.

Record WebSocketClient := mkClient {
  c_id : string; c_send : list frame; c_closed : bool; c_topics : gset string; c_reader : reader
}.
Inductive hub_mode := Running | Stuck | Stopped.
#[export] Instance hub_mode_eq_dec : EqDecision hub_mode.
Proof. solve_decision. Defined.

Record WebSocketServer (S : Type) := mkHub {
  h_storage : S;
  h_objects : gmap nat WebSocketClient;
  clients : gset nat;
  broadcast : list PortaskMessage;
  subscriptions : gmap string (gset nat);
  totalConnections : Z; activeConnections : Z; messagesReceived : Z; messagesSent : Z;
  mode : hub_mode
}.
Arguments mkHub {S}. Arguments h_storage {S}. Arguments h_objects {S}. Arguments clients {S}. Arguments broadcast {S}.
Arguments subscriptions {S}. Arguments totalConnections {S}. Arguments activeConnections {S}.
Arguments messagesReceived {S}. Arguments messagesSent {S}. Arguments mode {S}.

Section hub.
Context {V : Type} (marshal : ApiMessages.value V -> res string bytes) (marshals : frame -> bool).
Context {S : Type} {store : Api.MessageStore S}.
Implicit Types h : WebSocketServer S.

Definition NewWebSocketServer (st : S) : WebSocketServer S := mkHub st ∅ ∅ [] ∅ 0 0 0 0 Running.

(** Field assignments. *)
Definition set_objects (o : gmap nat WebSocketClient) h : WebSocketServer S :=
  mkHub (h_storage h) o (clients h) (broadcast h) (subscriptions h) (totalConnections h) (activeConnections h)
    (messagesReceived h) (messagesSent h) (mode h).
Definition set_subscriptions (ss : gmap string (gset nat)) h : WebSocketServer S :=
  mkHub (h_storage h) (h_objects h) (clients h) (broadcast h) ss (totalConnections h) (activeConnections h)
    (messagesReceived h) (messagesSent h) (mode h).
Definition set_clients (cs : gset nat) (total active : Z) h : WebSocketServer S :=
  mkHub (h_storage h) (h_objects h) cs (broadcast h) (subscriptions h) total active
    (messagesReceived h) (messagesSent h) (mode h).
Definition set_broadcast (q : list PortaskMessage) h : WebSocketServer S :=
  mkHub (h_storage h) (h_objects h) (clients h) q (subscriptions h) (totalConnections h) (activeConnections h)
    (messagesReceived h) (messagesSent h) (mode h).
Definition set_h_storage (st : S) h : WebSocketServer S :=
  mkHub st (h_objects h) (clients h) (broadcast h) (subscriptions h) (totalConnections h) (activeConnections h)
    (messagesReceived h) (messagesSent h) (mode h).
Definition set_counts (received sent : Z) h : WebSocketServer S :=
  mkHub (h_storage h) (h_objects h) (clients h) (broadcast h) (subscriptions h) (totalConnections h)
    (activeConnections h) received sent (mode h).
Definition set_mode (md : hub_mode) h : WebSocketServer S :=
  mkHub (h_storage h) (h_objects h) (clients h) (broadcast h) (subscriptions h) (totalConnections h)
    (activeConnections h) (messagesReceived h) (messagesSent h) md.
Definition set_send (q : list frame) (c : WebSocketClient) : WebSocketClient :=
  mkClient (c_id c) q (c_closed c) (c_topics c) (c_reader c).
Definition set_ctopics (ts : gset string) (c : WebSocketClient) : WebSocketClient :=
  mkClient (c_id c) (c_send c) (c_closed c) ts (c_reader c).
Definition set_reader (r : reader) (c : WebSocketClient) : WebSocketClient :=
  mkClient (c_id c) (c_send c) (c_closed c) (c_topics c) r.
Definition close_send (c : WebSocketClient) : WebSocketClient :=
  mkClient (c_id c) (c_send c) true (c_topics c) (c_reader c).
Definition update_client (p : nat) (f : WebSocketClient -> WebSocketClient) h : WebSocketServer S :=
  set_objects (alter f p (h_objects h)) h.

(** ** Sending *)

(** [select { case c.send <- f: … default: … }]: [Some true] when it was sent,
    [Some false] when the queue was full. *)
Definition try_send (p : nat) (f : frame) h : exec (WebSocketServer S * bool) :=
  match h_objects h !! p with
  | None => Ret (h, false)
  | Some c =>
    if c_closed c then Panic
    else if Z.of_nat (length (c_send c)) <? queue_cap
    then Ret (update_client p (set_send (c_send c ++ [f])) h, true)
    else Ret (h, false)
  end.

(** [sendResponse] in the reader of the client: with a full queue it waits for
    the hub to unregister the client. *)
Definition sendResponse (p : nat) (f : frame) h : exec (WebSocketServer S) :=
  if marshals f then
    do! r := try_send p f h in
    Ret (if snd r : bool then fst r else update_client p (set_reader (UnregisterWait true)) h)
  else Ret h.
Definition sendError (p : nat) (message details : string) (now : Z) h : exec (WebSocketServer S) :=
  sendResponse p (FResponse "error" false [("", details)] message now) h.

(** ** Subscriptions *)

Definition subscribe (p : nat) (topic : string) h : WebSocketServer S :=
  update_client p (fun c => set_ctopics ({[topic]} ∪ c_topics c) c)
    (set_subscriptions (<[topic := {[p]} ∪ default ∅ (subscriptions h !! topic)]> (subscriptions h)) h).

Definition drop_subscription (p : nat) (topic : string) (ss : gmap string (gset nat)) : gmap string (gset nat) :=
  match ss !! topic with
  | None => ss
  | Some cs => if decide (cs ∖ {[p]} = ∅) then delete topic ss else <[topic := cs ∖ {[p]}]> ss
  end.
Definition unsubscribe (p : nat) (topic : string) h : WebSocketServer S :=
  update_client p (fun c => set_ctopics (c_topics c ∖ {[topic]}) c)
    (set_subscriptions (drop_subscription p topic (subscriptions h)) h).
Definition unsubscribeAll (p : nat) h : WebSocketServer S :=
  match h_objects h !! p with
  | None => h
  | Some c => foldl (fun h t => unsubscribe p t h) h (elements (c_topics c))
  end.

(** ** The reader of a client *)

Definition published_frame (m : PortaskMessage) (now : Z) : frame :=
  FResponse "response" true [("action", "published"); ("topic", Topic m); ("message_id", ID m)] "" now.

(** Stores the message and hands it to the hub; with a full broadcast channel
    the reader waits. *)
Definition handlePublish (p : nat) (w : WebSocketMessage V) (nanos timestamp now : Z) h : exec (WebSocketServer S) :=
  if decide (w_Topic w = "") then sendError p "Publish requires topic" "" now h
  else match ApiMessages.serialize marshal (w_Data w) with
  | Err e => sendError p "Failed to serialize data" e now h
  | Ok payload =>
    let m := ApiMessages.message ("ws_" +:+ pretty nanos) (w_Topic w) 0 "" payload (w_Headers w) None timestamp 0 0 in
    match Api.st_Store m (h_storage h) with
    | (st, Some e) => sendError p "Failed to store message" e now (set_h_storage st h)
    | (st, None) =>
      let h := set_h_storage st h in
      if Z.of_nat (length (broadcast h)) <? queue_cap
      then sendResponse p (published_frame m now) (set_broadcast (broadcast h ++ [m]) h)
      else Ret (update_client p (set_reader (PublishWait m)) h)
    end
  end.

Definition handleMessage (p : nat) (w : res string (WebSocketMessage V)) (nanos timestamp now : Z) h
  : exec (WebSocketServer S) :=
  match w with
  | Err e => sendError p "Invalid JSON format" e now h
  | Ok w =>
    if decide (w_Type w = "subscribe") then
      if decide (w_Topic w = "") then sendError p "Subscribe requires topic" "" now h
      else sendResponse p (FResponse "response" true [("action", "subscribed"); ("topic", w_Topic w)] "" now)
             (subscribe p (w_Topic w) h)
    else if decide (w_Type w = "unsubscribe") then
      if decide (w_Topic w = "") then sendError p "Unsubscribe requires topic" "" now h
      else sendResponse p (FResponse "response" true [("action", "unsubscribed"); ("topic", w_Topic w)] "" now)
             (unsubscribe p (w_Topic w) h)
    else if decide (w_Type w = "publish") then handlePublish p w nanos timestamp now h
    else if decide (w_Type w = "ping") then sendResponse p (FResponse "pong" true [] "" now) h
    else sendError p "Unknown message type" (w_Type w) now h
  end.

(** ** The hub *)

(** The loops over clients: a client whose queue is full is sent to the
    unregister channel, from the goroutine that receives from it. *)
Fixpoint send_all (f : frame) (counted : bool) (ps : list nat) h : exec (WebSocketServer S) :=
  match ps with
  | [] => Ret h
  | p :: ps =>
    do! r := try_send p f h in
    if snd r : bool
    then send_all f counted ps
           (if counted then set_counts (messagesReceived (fst r)) (s64 (messagesSent (fst r) + 1)) (fst r) else fst r)
    else Ret (set_mode Stuck h)
  end.

(** The clients are those of the subscription when the loop starts.  The code
    iterates over the live map after it has released the lock: a subscription that
    changes it meanwhile is a concurrent map iteration and write, which ends the
    process; that interleaving is not modelled. *)
Definition broadcastMessage (iter : gset nat -> list nat) (m : PortaskMessage) h : exec (WebSocketServer S) :=
  match subscriptions h !! Topic m with
  | None => Ret h
  | Some cs =>
    let f := FMessage (Topic m) (Payload m) (ID m) (Timestamp m) (Headers m) in
    if marshals f then send_all f true (iter cs) h else Ret h
  end.
Definition pingClients (iter : gset nat -> list nat) (now : Z) h : exec (WebSocketServer S) :=
  send_all (FPing now) false (iter (clients h)) h.

(** The hub takes a client from the unregister channel.  One step: the code
    closes the queue, copies the client's topics and unsubscribes them one by one,
    each under the lock; a frame of the client that is handled in between answers
    on the closed queue, and panics. *)
Definition unregister (p : nat) h : WebSocketServer S :=
  if decide (p ∈ clients h) then
    let h := update_client p close_send h in
    unsubscribeAll p (set_clients (clients h ∖ {[p]}) (totalConnections h) (s64 (activeConnections h - 1)) h)
  else h.

(** [HandleWebSocket] and the hub's answer to it, for a new client. *)
Definition register (p : nat) (id : string) (now : Z) h : exec (WebSocketServer S) :=
  let h := set_objects (<[p := mkClient id [] false ∅ Reading]> (h_objects h)) h in
  let h := set_clients ({[p]} ∪ clients h) (s64 (totalConnections h + 1)) (s64 (activeConnections h + 1)) h in
  sendResponse p (FResponse "connect" true [("status", "connected"); ("client_id", id)] "" now) h.

(** ** Events *)

Inductive event :=
| EConnect (p : nat) (nanos now : Z)
| ERead (p : nat) (w : res string (WebSocketMessage V)) (nanos timestamp now : Z)
| EReadError (p : nat)
| EResume (p : nat) (now : Z)
| EUnregister (p : nat)
| EBroadcast (iter : gset nat -> list nat)
| EPing (iter : gset nat -> list nat) (now : Z)
| EWrite (p : nat)
| EOffer (m : PortaskMessage)
| EStop.

(** Whether the event can happen, and its outcome. *)
Definition hub_step (e : event) h : option (exec (WebSocketServer S)) :=
  match e with
  | EConnect p nanos now =>
    if decide (mode h = Running) then
      if decide (p ∈ dom (h_objects h)) then None
      else Some (register p ("client_" +:+ pretty nanos) now h)
    else None
  | ERead p w nanos timestamp now =>
    match c_reader <$> h_objects h !! p with
    | Some Reading =>
      Some (handleMessage p w nanos timestamp now (set_counts (s64 (messagesReceived h + 1)) (messagesSent h) h))
    | _ => None
    end
  | EReadError p =>
    match c_reader <$> h_objects h !! p with
    | Some Reading => Some (Ret (update_client p (set_reader (UnregisterWait false)) h))
    | _ => None
    end
  | EResume p now =>
    match c_reader <$> h_objects h !! p with
    | Some (PublishWait m) =>
      if Z.of_nat (length (broadcast h)) <? queue_cap
      then Some (sendResponse p (published_frame m now)
                   (update_client p (set_reader Reading) (set_broadcast (broadcast h ++ [m]) h)))
      else None
    | _ => None
    end
  | EUnregister p =>
    match mode h, c_reader <$> h_objects h !! p with
    | Running, Some (UnregisterWait goes_on) =>
      Some (Ret (unregister p (update_client p (set_reader (if goes_on then Reading else Finished)) h)))
    | _, _ => None
    end
  | EBroadcast iter =>
    match mode h, broadcast h with
    | Running, m :: q => Some (broadcastMessage iter m (set_broadcast q h))
    | _, _ => None
    end
  | EPing iter now => if decide (mode h = Running) then Some (pingClients iter now h) else None
  | EWrite p =>
    match h_objects h !! p with
    | Some c => if decide (c_send c = []) then None else Some (Ret (update_client p (set_send []) h))
    | None => None
    end
  | EOffer m => Some (Ret (if Z.of_nat (length (broadcast h)) <? queue_cap then set_broadcast (broadcast h ++ [m]) h else h))
  | EStop => if decide (mode h = Running) then Some (Ret (set_mode Stopped h)) else None
  end.

Definition GetStats h : Z * Z * Z * Z * Z * Z :=
  (totalConnections h, activeConnections h, messagesReceived h, messagesSent h,
   Z.of_nat (size (subscriptions h)), Z.of_nat (size (clients h))).
End hub.

(** ** The WebSocket handler of the Fiber server

    Each connection starts a goroutine that takes messages from the one
    broadcast channel and puts them into the connection's own channel of 100
    messages, skipping them when it is full.  The goroutine never ends; the
    connection's channel is closed when its reader fails. *)

Record connection := mkConnection { msgChan : list PortaskMessage; chan_closed : bool; written : list PortaskMessage }.
Record fiber_hub := mkFiberHub { queue : list PortaskMessage; connections : list connection }.

Inductive fiber_event :=
| FConnect
| FPublish (m : PortaskMessage)
| FForward (k : nat)
| FWriteOne (k : nat)
| FDisconnect (k : nat).

Definition forward (m : PortaskMessage) (c : connection) : exec connection :=
  if chan_closed c then Panic
  else if Z.of_nat (length (msgChan c)) <? 100 then Ret (mkConnection (msgChan c ++ [m]) false (written c))
  else Ret c.
Definition write_one (c : connection) : connection :=
  match msgChan c with
  | [] => c
  | m :: q => mkConnection q (chan_closed c) (written c ++ [m])
  end.
Definition fiber_step (e : fiber_event) (f : fiber_hub) : exec fiber_hub :=
  match e with
  | FConnect => Ret (mkFiberHub (queue f) (connections f ++ [mkConnection [] false []]))
  | FPublish m =>
    Ret (if Z.of_nat (length (queue f)) <? queue_cap then mkFiberHub (queue f ++ [m]) (connections f) else f)
  | FForward k =>
    match queue f, connections f !! k with
    | m :: q, Some c => do! c := forward m c in Ret (mkFiberHub q (<[k := c]> (connections f)))
    | _, _ => Ret f
    end
  | FWriteOne k => Ret (mkFiberHub (queue f) (alter write_one k (connections f)))
  | FDisconnect k =>
    Ret (mkFiberHub (queue f) (alter (fun c => mkConnection (msgChan c) true (written c)) k (connections f)))
  end.
End Hub.
