(* ===== verification/HubSpec.v ===== *)
(** * Theorems about WebSocket delivery

    In every reachable state the two subscription tables of the hub agree, and
    exactly the registered clients can be sent to ([hub_tables_agree]); a
    broadcast reaches exactly the subscribers ([broadcast_reaches_subscribers]);
    but one client that does not read stops the hub for good
    ([slow_client_stops_hub]).  The Fiber handler gives each message to one
    connection and crashes after a disconnect. *)
From stdpp Require Import base gmap strings list numbers fin_maps sets pretty.
From Stdlib Require Import ZArith Lia.
From S2P Require Import Prelude Types Stores Api ApiMessages Hub.

Module HubSpec.
Import Types Hub.

Section hub.
Context {V : Type} (marshal : ApiMessages.value V -> res string bytes) (marshals : frame -> bool).
Context {S : Type} {store : Api.MessageStore S}.
Implicit Types h : WebSocketServer S.

(** ** The invariant *)

Definition subscribed h (t : string) (p : nat) : Prop := exists cs, subscriptions h !! t = Some cs /\ p ∈ cs.

Record hub_ok h : Prop := {
  hk_tables t p : subscribed h t p <-> exists c, h_objects h !! p = Some c /\ t ∈ c_topics c;
  hk_nonempty t : subscriptions h !! t <> Some ∅;
  hk_open p : p ∈ clients h <-> exists c, h_objects h !! p = Some c /\ c_closed c = false;
  hk_active : activeConnections h = s64 (Z.of_nat (size (clients h)));
  hk_queues p c : h_objects h !! p = Some c -> Z.of_nat (length (c_send c)) <= queue_cap;
  hk_broadcast : Z.of_nat (length (broadcast h)) <= queue_cap
}.

(** Changes that concern neither the tables nor the registration. *)
Lemma ok_update h p f :
  hub_ok h ->
  (forall c, h_objects h !! p = Some c -> c_topics (f c) = c_topics c /\ c_closed (f c) = c_closed c
     /\ Z.of_nat (length (c_send (f c))) <= queue_cap) ->
  hub_ok (update_client p f h).
Proof.
  intros [H1 H2 H3 H4 H5 H6] Hf.
  assert (forall p' c', h_objects (update_client p f h) !! p' = Some c' ->
    exists c, h_objects h !! p' = Some c /\ c_topics c' = c_topics c /\ c_closed c' = c_closed c
      /\ (Z.of_nat (length (c_send c')) <= queue_cap)) as Hback.
  { intros p' c' E. cbn in E. destruct (decide (p = p')) as [<-|].
    - rewrite lookup_alter_eq in E. destruct (h_objects h !! p) as [c|] eqn:Ep; [|done]. injection E as <-.
      exists c. by destruct (Hf c eq_refl) as (? & ? & ?).
    - rewrite lookup_alter_ne in E by done. exists c'. eauto. }
  assert (forall p' c, h_objects h !! p' = Some c -> exists c', h_objects (update_client p f h) !! p' = Some c'
    /\ c_topics c' = c_topics c /\ c_closed c' = c_closed c) as Hforth.
  { intros p' c E. cbn. destruct (decide (p = p')) as [<-|].
    - rewrite lookup_alter_eq, E. exists (f c). destruct (Hf c E) as (? & ? & ?). done.
    - rewrite lookup_alter_ne, E by done. eauto. }
  constructor; try done.
  - intros t p'. rewrite (H1 t p' : subscribed (update_client p f h) t p' <-> _). split.
    + intros (c & E & Ht). destruct (Hforth _ _ E) as (c' & ? & Etc & ?). exists c'. by rewrite Etc.
    + intros (c' & E & Ht). destruct (Hback _ _ E) as (c & ? & Etc & ?). exists c. by rewrite <- Etc.
  - intros p'. rewrite (H3 p' : p' ∈ clients (update_client p f h) <-> _). split.
    + intros (c & E & Ht). destruct (Hforth _ _ E) as (c' & ? & ? & Ec). exists c'. by rewrite Ec.
    + intros (c' & E & Ht). destruct (Hback _ _ E) as (c & ? & ? & Ec & ?). exists c. by rewrite <- Ec.
  - intros p' c' E. by destruct (Hback _ _ E) as (c & ? & ? & ? & ?).
Qed.

Lemma ok_storage h st : hub_ok h -> hub_ok (set_h_storage st h).
Proof. intros []. by constructor. Qed.
Lemma ok_counts h a b : hub_ok h -> hub_ok (set_counts a b h).
Proof. intros []. by constructor. Qed.
Lemma ok_mode h md : hub_ok h -> hub_ok (set_mode md h).
Proof. intros []. by constructor. Qed.
Lemma ok_broadcast h q : hub_ok h -> Z.of_nat (length q) <= queue_cap -> hub_ok (set_broadcast q h).
Proof. intros [] ?. by constructor. Qed.

Lemma ok_try_send h p f h' b : hub_ok h -> try_send p f h = Ret (h', b) -> hub_ok h'.
Proof.
  intros H. unfold try_send. destruct (h_objects h !! p) as [c|] eqn:E; [|by intros [= <- <-]].
  destruct (c_closed c) eqn:Ec; [done|]. destruct (Z.ltb_spec (Z.of_nat (length (c_send c))) queue_cap) as [Hl|];
    intros [= <- <-]; [|done].
  apply ok_update; [done|]. intros c' E'. rewrite E in E'. injection E' as <-. split_and!; [done..|].
  cbn. rewrite length_app. cbn. unfold queue_cap in *. lia.
Qed.

Lemma ok_reader h p r : hub_ok h -> hub_ok (update_client p (set_reader r) h).
Proof. intros H. apply ok_update; [done|]. intros c E. split_and!; [done..|]. exact (hk_queues _ H p c E). Qed.

Lemma ok_sendResponse h p f h' : hub_ok h -> sendResponse marshals p f h = Ret h' -> hub_ok h'.
Proof.
  intros H. unfold sendResponse. destruct (marshals f); [|by intros [= <-]].
  destruct (try_send p f h) as [[h1 b]| |] eqn:E; [|done..]. cbn. destruct b; intros [= <-].
  - by eapply ok_try_send.
  - by apply ok_reader.
Qed.

(** ** Subscribing *)

Lemma ok_subscribe h p t :
  hub_ok h -> is_Some (h_objects h !! p) -> hub_ok (subscribe p t h).
Proof.
  intros [H1 H2 H3 H4 H5 H6] [c Hc]. unfold subscribe, update_client, set_objects, Hub.set_subscriptions.
  constructor; cbn; [..|done].
  - intros t' p'. unfold subscribed in *. cbn. split.
    + intros (cs & E & Hp). apply lookup_insert_Some in E as [[<- <-]|[Hne E]].
      * apply elem_of_union in Hp as [Hp|Hp].
        -- apply elem_of_singleton in Hp as ->. rewrite lookup_alter_eq, Hc. eexists. split; [done|]. cbn. set_solver.
        -- assert (exists cs, subscriptions h !! t = Some cs /\ p' ∈ cs) as Hs
             by (destruct (subscriptions h !! t) as [cs|]; [by exists cs|set_solver]).
           apply H1 in Hs as (c' & E & Ht). destruct (decide (p' = p)) as [->|].
           ++ rewrite lookup_alter_eq, E. eexists. split; [done|]. cbn. set_solver.
           ++ rewrite lookup_alter_ne by done. eauto.
      * assert (exists cs, subscriptions h !! t' = Some cs /\ p' ∈ cs) as Hs by eauto.
        apply H1 in Hs as (c' & E' & Ht). destruct (decide (p' = p)) as [->|].
        -- rewrite lookup_alter_eq, E'. eexists. split; [done|]. cbn. set_solver.
        -- rewrite lookup_alter_ne by done. eauto.
    + intros (c' & E & Ht). destruct (decide (t' = t)) as [->|Hne].
      * rewrite lookup_insert_eq. eexists. split; [done|]. destruct (decide (p' = p)) as [->|]; [set_solver|].
        rewrite lookup_alter_ne in E by done. assert (exists c, h_objects h !! p' = Some c /\ t ∈ c_topics c) as Hs by eauto.
        apply H1 in Hs as (cs & -> & ?). set_solver.
      * rewrite lookup_insert_ne by done. apply H1. destruct (decide (p' = p)) as [->|].
        -- rewrite lookup_alter_eq, Hc in E. injection E as <-. cbn in Ht. exists c. split; [done|]. set_solver.
        -- rewrite lookup_alter_ne in E by done. eauto.
  - intros t' E. apply lookup_insert_Some in E as [[_ E]|[_ E]]; [set_solver|by eapply H2].
  - intros p'. rewrite H3. destruct (decide (p' = p)) as [->|].
    + rewrite lookup_alter_eq, Hc. cbn. split; intros (c' & [= <-] & ?); eauto.
    + by rewrite lookup_alter_ne.
  - done.
  - intros p' c' E. destruct (decide (p' = p)) as [->|].
    + rewrite lookup_alter_eq, Hc in E. injection E as <-. cbn. by eapply H5.
    + rewrite lookup_alter_ne in E by done. by eapply H5.
Qed.

Lemma drop_subscription_spec p t (ss : gmap string (gset nat)) t' p' :
  (exists cs, drop_subscription p t ss !! t' = Some cs /\ p' ∈ cs)
  <-> (exists cs, ss !! t' = Some cs /\ p' ∈ cs) /\ ~ (t' = t /\ p' = p).
Proof.
  unfold drop_subscription. destruct (ss !! t) as [cs|] eqn:E.
  2:{ split; [|by intros []]. intros (cs & E' & Hp). split; [eauto|]. intros [-> ->]. congruence. }
  destruct (decide (t' = t)) as [->|Hne].
  - destruct (decide (cs ∖ {[p]} = ∅)) as [He|He].
    + rewrite lookup_delete_eq. split; [by intros (? & ? & _)|]. intros [(cs' & E' & Hp) Hn].
      assert (cs' = cs) as -> by congruence. set_solver.
    + rewrite lookup_insert_eq. split.
      * intros (cs' & [= <-] & Hp). split; [exists cs; set_solver|set_solver].
      * intros [(cs' & E' & Hp) Hn]. assert (cs' = cs) as -> by congruence. eexists. split; [done|]. set_solver.
  - assert ((if decide (cs ∖ {[p]} = ∅) then delete t ss else <[t := cs ∖ {[p]}]> ss) !! t' = ss !! t') as ->.
    { case_decide; [by rewrite lookup_delete_ne|by rewrite lookup_insert_ne]. }
    split; [intros (cs' & ? & ?); split; [eauto|tauto]|by intros []].
Qed.

Lemma drop_subscription_nonempty p t (ss : gmap string (gset nat)) t' :
  ss !! t' <> Some ∅ -> drop_subscription p t ss !! t' <> Some ∅.
Proof.
  intros Hn. unfold drop_subscription. destruct (ss !! t) as [cs|] eqn:E; [|done].
  destruct (decide (t' = t)) as [->|Hne]; case_decide.
  - by rewrite lookup_delete_eq.
  - rewrite lookup_insert_eq. by intros [= ?].
  - by rewrite lookup_delete_ne.
  - by rewrite lookup_insert_ne.
Qed.

Lemma ok_unsubscribe h p t : hub_ok h -> is_Some (h_objects h !! p) -> hub_ok (unsubscribe p t h).
Proof.
  intros [H1 H2 H3 H4 H5 H6] [c Hc]. unfold unsubscribe, update_client, set_objects, Hub.set_subscriptions.
  constructor; cbn; [..|done].
  - intros t' p'. unfold subscribed in *. cbn. rewrite drop_subscription_spec, H1.
    destruct (decide (p' = p)) as [->|Hne].
    + rewrite lookup_alter_eq, Hc. cbn. split.
      * intros [(c' & [= <-] & ?) ?]. eexists. split; [done|]. cbn. set_solver.
      * intros (c' & [= <-] & Ht). cbn in Ht. split; [exists c; set_solver|set_solver].
    + rewrite lookup_alter_ne by done. split; [by intros []|]. intros ?. split; [done|]. tauto.
  - intros t'. apply drop_subscription_nonempty, H2.
  - intros p'. rewrite H3. destruct (decide (p' = p)) as [->|].
    + rewrite lookup_alter_eq, Hc. cbn. split; intros (c' & [= <-] & ?); eauto.
    + by rewrite lookup_alter_ne.
  - done.
  - intros p' c' E. destruct (decide (p' = p)) as [->|].
    + rewrite lookup_alter_eq, Hc in E. injection E as <-. cbn. by eapply H5.
    + rewrite lookup_alter_ne in E by done. by eapply H5.
Qed.

Lemma unsubscribe_object h p t c :
  h_objects h !! p = Some c -> h_objects (unsubscribe p t h) !! p = Some (set_ctopics (c_topics c ∖ {[t]}) c).
Proof. intros E. cbn. by rewrite lookup_alter_eq, E. Qed.

Lemma unsubscribe_many_ok p ts : forall h c,
  hub_ok h -> h_objects h !! p = Some c ->
  hub_ok (foldl (fun h t => unsubscribe p t h) h ts)
  /\ exists c', h_objects (foldl (fun h t => unsubscribe p t h) h ts) !! p = Some c'
     /\ c_topics c' = c_topics c ∖ list_to_set ts /\ c_closed c' = c_closed c.
Proof.
  induction ts as [|t ts IH]; intros h c H Hc; cbn.
  - split; [done|]. exists c. split; [done|]. split; [set_solver|done].
  - destruct (IH _ _ (ok_unsubscribe h p t H (ex_intro _ c Hc)) (unsubscribe_object h p t c Hc)) as (Hok & c' & E & Ht & Hcl).
    split; [done|]. exists c'. split; [done|]. split; [rewrite Ht; cbn; set_solver|done].
Qed.

Lemma unsubscribeAll_ok h p :
  hub_ok h -> hub_ok (unsubscribeAll p h) /\ forall t, ~ subscribed (unsubscribeAll p h) t p.
Proof.
  intros H. unfold unsubscribeAll. destruct (h_objects h !! p) as [c|] eqn:Hc.
  - destruct (unsubscribe_many_ok p (elements (c_topics c)) h c H Hc) as (Hok & c' & E & Ht & _).
    split; [done|]. intros t. rewrite (hk_tables _ Hok). intros (c'' & E' & Hin).
    assert (c'' = c') as -> by congruence. rewrite Ht in Hin. set_solver.
  - split; [done|]. intros t. rewrite (hk_tables _ H). intros (c & ? & _). congruence.
Qed.

(** ** Registration *)

Lemma unsubscribeAll_clients h p : clients (unsubscribeAll p h) = clients h.
Proof.
  unfold unsubscribeAll. destruct (h_objects h !! p) as [c|]; [|done]. generalize (elements (c_topics c)) as ts.
  intros ts. revert h. induction ts as [|t ts IH]; intros h; [done|]. cbn. by rewrite IH.
Qed.

Lemma ok_unregister h p :
  hub_ok h -> hub_ok (unregister p h)
  /\ (p ∈ clients h -> p ∉ clients (unregister p h) /\ forall t, ~ subscribed (unregister p h) t p).
Proof.
  intros H. unfold unregister. case_decide as Hp; [|done]. pose proof H as [H1 H2 H3 H4 H5 H6].
  pose proof (proj1 (H3 p) Hp) as (c & Hc & _).
  assert (hub_ok (set_clients (clients (update_client p close_send h) ∖ {[p]})
    (totalConnections (update_client p close_send h)) (s64 (activeConnections (update_client p close_send h) - 1))
    (update_client p close_send h))) as Hok.
  { constructor; cbn; [|done| | | |done].
    - intros t p'. unfold subscribed in *. cbn. rewrite H1. destruct (decide (p' = p)) as [->|].
      + rewrite lookup_alter_eq, Hc. cbn. split; intros (c' & [= <-] & ?); eauto.
      + by rewrite lookup_alter_ne.
    - intros p'. destruct (decide (p' = p)) as [->|].
      + rewrite lookup_alter_eq, Hc. cbn. split; [set_solver|by intros (c' & [= <-] & ?)].
      + rewrite lookup_alter_ne, elem_of_difference, H3 by done. set_solver.
    - rewrite H4, size_difference, size_singleton by set_solver.
      assert (size (clients h) <> 0)%nat by (apply size_non_empty_iff; set_solver).
      apply wraps_congr; [done|]. rewrite <- Zminus_mod_idemp_l, wraps_mod, Zminus_mod_idemp_l by done. f_equal. lia.
    - intros p' c' E. destruct (decide (p' = p)) as [->|].
      + rewrite lookup_alter_eq, Hc in E. injection E as <-. cbn. by eapply H5.
      + rewrite lookup_alter_ne in E by done. by eapply H5. }
  destruct (unsubscribeAll_ok _ p Hok) as [Hall Hnone]. split; [done|]. intros _. split; [|done].
  rewrite unsubscribeAll_clients. cbn. set_solver.
Qed.

Lemma ok_register h p id now h' :
  hub_ok h -> p ∉ dom (h_objects h) -> register marshals p id now h = Ret h' -> hub_ok h'.
Proof.
  intros [H1 H2 H3 H4 H5 H6] Hp. apply not_elem_of_dom in Hp. intros E. eapply ok_sendResponse; [|exact E].
  assert (p ∉ clients h) as Hpc.
  { intros Hin. apply H3 in Hin as (c & ? & _). congruence. }
  constructor; cbn; [|done| | | |done].
  - intros t p'. unfold subscribed in *. cbn. rewrite H1. destruct (decide (p' = p)) as [->|].
    + rewrite lookup_insert_eq, Hp. split; [by intros (? & ? & _)|]. intros (c & [= <-] & Ht). cbn in Ht. set_solver.
    + by rewrite lookup_insert_ne.
  - intros p'. destruct (decide (p' = p)) as [->|].
    + rewrite lookup_insert_eq. split; [eauto|set_solver].
    + rewrite lookup_insert_ne, elem_of_union, H3 by done. set_solver.
  - rewrite H4, size_union, size_singleton by set_solver.
    apply wraps_congr; [done|]. rewrite <- Zplus_mod_idemp_l, wraps_mod, Zplus_mod_idemp_l by done. f_equal. lia.
  - intros p' c' E'. apply lookup_insert_Some in E' as [[_ <-]|[_ E']]; [done|by eapply H5].
Qed.

(** ** The hub's loops and the readers *)

Lemma ok_send_all f counted ps : forall h h', hub_ok h -> send_all f counted ps h = Ret h' -> hub_ok h'.
Proof.
  induction ps as [|p ps IH]; intros h h' H; cbn; [by intros [= <-]|].
  destruct (try_send p f h) as [[h1 b]| |] eqn:E; [|done..]. cbn. pose proof (ok_try_send _ _ _ _ _ H E).
  destruct b; [apply IH|intros [= <-]; by apply ok_mode]. destruct counted; [by apply ok_counts|done].
Qed.

Lemma ok_handlePublish h p w nanos ts now h' :
  hub_ok h -> handlePublish marshal marshals p w nanos ts now h = Ret h' -> hub_ok h'.
Proof.
  intros H. unfold handlePublish, sendError. case_decide; [by apply ok_sendResponse|].
  destruct (ApiMessages.serialize marshal (w_Data w)) as [b|e]; [|by apply ok_sendResponse].
  destruct (Api.st_Store _ (h_storage h)) as [st [e|]]; [by apply ok_sendResponse, ok_storage|].
  destruct (Z.ltb_spec (Z.of_nat (length (broadcast (set_h_storage st h)))) queue_cap) as [Hl|].
  - apply ok_sendResponse, ok_broadcast; [by apply ok_storage|]. rewrite length_app. cbn in *. lia.
  - intros [= <-]. by apply ok_reader, ok_storage.
Qed.

Lemma ok_handleMessage h p w nanos ts now h' :
  hub_ok h -> is_Some (h_objects h !! p) ->
  handleMessage marshal marshals p w nanos ts now h = Ret h' -> hub_ok h'.
Proof.
  intros H Hp. unfold handleMessage, sendError. destruct w as [w|e]; [|by apply ok_sendResponse].
  case_decide; [case_decide; apply ok_sendResponse; [done|by apply ok_subscribe]|].
  case_decide; [case_decide; apply ok_sendResponse; [done|by apply ok_unsubscribe]|].
  case_decide; [by apply ok_handlePublish|]. case_decide; by apply ok_sendResponse.
Qed.

Lemma hub_step_ok e h h' : hub_ok h -> hub_step marshal marshals e h = Some (Ret h') -> hub_ok h'.
Proof.
  intros H. destruct e as [p nanos now|p w nanos ts now|p|p now|p|iter|iter now|p|m|]; cbn.
  - case_decide; [|done]. case_decide; [done|]. intros [= E]. by eapply ok_register.
  - destruct (h_objects h !! p) as [c|] eqn:Hc; [|done]. cbn. destruct (c_reader c); [|done..]. intros [= E].
    eapply ok_handleMessage; [by apply ok_counts| |exact E]. by exists c.
  - destruct (c_reader <$> h_objects h !! p) as [[]|]; [|done..]. intros [= <-]. by apply ok_reader.
  - destruct (c_reader <$> h_objects h !! p) as [[|m| |]|]; [done| |done..].
    destruct (Z.ltb_spec (Z.of_nat (length (broadcast h))) queue_cap) as [Hl|]; [|done]. intros [= E].
    eapply ok_sendResponse; [|exact E]. apply ok_reader, ok_broadcast; [done|]. rewrite length_app. cbn. lia.
  - destruct (mode h); [|done..]. destruct (c_reader <$> h_objects h !! p) as [[| |g|]|]; [done|done| |done..].
    intros [= <-]. by apply ok_unregister, ok_reader.
  - destruct (mode h); [|done..]. destruct (broadcast h) as [|m q] eqn:Eb; [done|]. intros [= E].
    assert (hub_ok (set_broadcast q h)) as Hq.
    { apply ok_broadcast; [done|]. pose proof (hk_broadcast _ H) as Hl. rewrite Eb in Hl. cbn in Hl. lia. }
    unfold broadcastMessage in E. destruct (subscriptions _ !! _) as [cs|]; [|by injection E as <-].
    destruct (marshals _); [|by injection E as <-]. by eapply ok_send_all.
  - case_decide; [|done]. intros [= E]. by eapply ok_send_all.
  - destruct (h_objects h !! p) as [c|] eqn:Hc; [|done]. case_decide; [done|]. intros [= <-].
    apply ok_update; [done|]. intros c' E. split_and!; [done..|]. cbn. by unfold queue_cap.
  - intros [= <-]. destruct (Z.ltb_spec (Z.of_nat (length (broadcast h))) queue_cap); [|done].
    apply ok_broadcast; [done|]. rewrite length_app. cbn. lia.
  - case_decide; [|done]. intros [= <-]. by apply ok_mode.
Qed.

(** ** Runs *)

Inductive hub_run : WebSocketServer S -> WebSocketServer S -> Prop :=
| run_refl h : hub_run h h
| run_step h1 h2 h3 e : hub_run h1 h2 -> hub_step marshal marshals e h2 = Some (Ret h3) -> hub_run h1 h3.

Lemma hub_run_ok h h' : hub_ok h -> hub_run h h' -> hub_ok h'.
Proof. intros H. induction 1 as [|h1 h2 h3 e _ IH E]; [done|]. exact (hub_step_ok _ _ _ (IH H) E). Qed.

Lemma new_hub_ok (st : S) : hub_ok (NewWebSocketServer st).
Proof.
  constructor; cbn; try done.
  - intros t p. split; [by intros (cs & E & _)|by intros (c & E & _)].
  - intros p. split; [set_solver|by intros (c & E & _)].
Qed.

(** C37: the hub's tables.  In every state a hub can reach, whatever clients do
    and however its goroutines interleave: a client is in the subscribers of a
    topic exactly if the topic is in the client's own set, no topic is kept
    without subscribers, a client's queue is open exactly while it is
    registered, the count of active connections is right, and no queue exceeds
    its 256 places; and a registered client that is unregistered has no
    subscription left. *)
Theorem hub_tables_agree (st : S) h :
  hub_run (NewWebSocketServer st) h ->
  (forall t p, subscribed h t p <-> exists c, h_objects h !! p = Some c /\ t ∈ c_topics c)
  /\ (forall t, subscriptions h !! t <> Some ∅)
  /\ (forall p, p ∈ clients h <-> exists c, h_objects h !! p = Some c /\ c_closed c = false)
  /\ activeConnections h = s64 (Z.of_nat (size (clients h)))
  /\ (forall p c, h_objects h !! p = Some c -> Z.of_nat (length (c_send c)) <= 256)
  /\ Z.of_nat (length (broadcast h)) <= 256
  /\ forall p h', p ∈ clients h -> hub_step marshal marshals (EUnregister p) h = Some (Ret h') ->
     p ∉ clients h' /\ forall t, ~ subscribed h' t p.
Proof.
  intros Hr. pose proof (hub_run_ok _ _ (new_hub_ok st) Hr) as Hok. pose proof Hok as [H1 H2 H3 H4 H5 H6].
  repeat (split; [done|]). intros p h' Hp E. cbn in E.
  destruct (mode h); [|done..]. destruct (c_reader <$> h_objects h !! p) as [[| |g|]|]; [done|done| |done..].
  injection E as <-. by apply ok_unregister; [apply ok_reader|].
Qed.

(** ** A broadcast *)

Definition message_frame (m : PortaskMessage) : frame := FMessage (Topic m) (Payload m) (ID m) (Timestamp m) (Headers m).

(** A client that is sent a message: open, with a place in its queue. *)
Definition has_room h (p : nat) : Prop :=
  exists c, h_objects h !! p = Some c /\ c_closed c = false /\ Z.of_nat (length (c_send c)) < queue_cap.

Lemma try_send_room h p f :
  has_room h p -> exists c, h_objects h !! p = Some c
    /\ try_send p f h = Ret (update_client p (set_send (c_send c ++ [f])) h, true).
Proof.
  intros (c & E & Ho & Hl). exists c. split; [done|]. unfold try_send. rewrite E, Ho.
  by destruct (Z.ltb_spec (Z.of_nat (length (c_send c))) queue_cap); [|lia].
Qed.

(** What the loop of a broadcast does when everyone has room. *)
Lemma send_all_room f ps : forall h,
  NoDup ps -> (forall p, p ∈ ps -> has_room h p) ->
  exists h', send_all f true ps h = Ret h' /\ mode h' = mode h /\ broadcast h' = broadcast h
    /\ messagesSent h' mod 2 ^ 64 = (messagesSent h + Z.of_nat (length ps)) mod 2 ^ 64
    /\ forall p, h_objects h' !! p
         = (fun c => if decide (p ∈ ps) then set_send (c_send c ++ [f]) c else c) <$> h_objects h !! p.
Proof.
  induction ps as [|p ps IH]; intros h Hnd Hroom.
  - exists h. cbn. split; [done|]. do 2 (split; [done|]). split; [f_equal; lia|].
    intros p. destruct (h_objects h !! p); [|done]. cbn. by rewrite decide_False by set_solver.
  - apply NoDup_cons in Hnd as [Hp Hnd]. destruct (try_send_room h p f) as (c & Hc & Ht); [apply Hroom; set_solver|].
    cbn [send_all]. rewrite Ht. cbn [fst snd]. set (h1 := update_client p _ h).
    destruct (IH (set_counts (messagesReceived h1) (s64 (messagesSent h1 + 1)) h1) Hnd) as (h' & -> & Hm & Hb & Hs & Ho).
    { intros p' Hp'. destruct (Hroom p') as (c' & E & Hcl); [set_solver|]. exists c'. split; [|done]. cbn.
      rewrite lookup_alter_ne by (intros ->; done). done. }
    exists h'. split; [done|]. split; [by rewrite Hm|]. split; [by rewrite Hb|]. split.
    + rewrite Hs. cbn. rewrite <- Zplus_mod_idemp_l, wraps_mod, Zplus_mod_idemp_l by done. f_equal. lia.
    + intros p'. rewrite Ho. cbn. destruct (decide (p' = p)) as [->|Hne].
      * rewrite lookup_alter_eq, Hc. cbn. rewrite decide_False, decide_True by set_solver. done.
      * rewrite lookup_alter_ne by done. destruct (h_objects h !! p') as [c'|]; [|done]. cbn. f_equal.
        destruct (decide (p' ∈ ps)); [rewrite decide_True by set_solver|rewrite decide_False by set_solver]; done.
Qed.

(** A broadcast reaches exactly the subscribers.  In every reachable state of
    a running hub in which the subscribers of the next message's topic are
    registered and have room, the hub takes the message and appends it to the
    queue of each of them, in whatever order it visits them, and to no other
    queue, and counts one message sent per subscriber. *)
Theorem broadcast_reaches_subscribers (st : S) h m q (iter : gset nat -> list nat) :
  hub_run (NewWebSocketServer st) h -> mode h = Running -> broadcast h = m :: q ->
  (forall X, iter X ≡ₚ elements X) -> marshals (message_frame m) = true ->
  (forall p, subscribed h (Topic m) p -> has_room h p) ->
  exists h', hub_step marshal marshals (EBroadcast iter) h = Some (Ret h') /\ mode h' = Running /\ broadcast h' = q
    /\ messagesSent h' mod 2 ^ 64
       = (messagesSent h + Z.of_nat (size (default ∅ (subscriptions h !! Topic m)))) mod 2 ^ 64
    /\ forall p c, h_objects h !! p = Some c ->
       exists c', h_objects h' !! p = Some c'
         /\ (Topic m ∈ c_topics c -> c' = set_send (c_send c ++ [message_frame m]) c)
         /\ (Topic m ∉ c_topics c -> c' = c).
Proof.
  intros Hr Hm Hb Hiter Hmar Hroom. pose proof (hub_run_ok _ _ (new_hub_ok st) Hr) as Hok.
  cbn. rewrite Hm, Hb. unfold broadcastMessage. cbn [subscriptions set_broadcast].
  destruct (subscriptions h !! Topic m) as [cs|] eqn:Es.
  - fold (message_frame m). rewrite Hmar.
    destruct (send_all_room (message_frame m) (iter cs) (set_broadcast q h)) as (h' & -> & Hm' & Hb' & Hs & Ho).
    { rewrite Hiter. apply NoDup_elements. }
    { intros p Hp. rewrite Hiter, elem_of_elements in Hp. apply Hroom. by exists cs. }
    exists h'. split; [done|]. split; [by rewrite Hm'|]. split; [done|]. split.
    + rewrite Hs. cbn. by rewrite Hiter.
    + intros p c Hc. rewrite Ho. cbn [h_objects set_broadcast]. rewrite Hc. eexists. split; [done|].
      assert (p ∈ iter cs <-> Topic m ∈ c_topics c) as Hin.
      { rewrite Hiter, elem_of_elements. transitivity (subscribed h (Topic m) p).
        - unfold subscribed. rewrite Es. split; [by exists cs|by intros (cs' & [= <-] & ?)].
        - rewrite (hk_tables _ Hok). split; [intros (c' & E & ?); congruence|eauto]. }
      rewrite <- Hin. case_decide; split; intros; done.
  - exists (set_broadcast q h). split; [done|]. split; [done|]. split; [done|]. split.
    + cbn. rewrite size_empty. f_equal. lia.
    + intros p c Hc. exists c. split; [done|]. split; [|done]. intros Ht. exfalso.
      assert (subscribed h (Topic m) p) as (cs & E & _) by (apply (hk_tables _ Hok); eauto). congruence.
Qed.

(** ** A client that does not read *)

(** What the hub alone changes. *)
Definition same_hub h h' : Prop := mode h' = mode h /\ clients h' = clients h /\ messagesSent h' = messagesSent h.

Lemma same_try_send h p f h' b : try_send p f h = Ret (h', b) -> same_hub h h'.
Proof.
  unfold try_send. destruct (h_objects h !! p) as [c|]; [|by intros [= <- _]]. destruct (c_closed c); [done|].
  by destruct (_ <? _); intros [= <- _].
Qed.
Lemma same_sendResponse h p f h' : sendResponse marshals p f h = Ret h' -> same_hub h h'.
Proof.
  unfold sendResponse. destruct (marshals f); [|by intros [= <-]].
  destruct (try_send p f h) as [[h1 b]| |] eqn:E; [|done..]. apply same_try_send in E. by destruct b; intros [= <-].
Qed.
Lemma same_handleMessage h p w nanos ts now h' :
  handleMessage marshal marshals p w nanos ts now h = Ret h' -> same_hub h h'.
Proof.
  unfold handleMessage, handlePublish, sendError. destruct w as [w|e]; [|apply same_sendResponse].
  repeat case_decide; try (intros E; apply same_sendResponse in E as (? & ? & ?); done).
  destruct (ApiMessages.serialize marshal (w_Data w)) as [b|e]; [|apply same_sendResponse].
  destruct (Api.st_Store _ (h_storage h)) as [st [e|]].
  - intros E. apply same_sendResponse in E as (? & ? & ?). done.
  - destruct (_ <? _); [|by intros [= <-]]. intros E. apply same_sendResponse in E as (? & ? & ?). done.
Qed.

Lemma hub_stuck_step e h h' : mode h = Stuck -> hub_step marshal marshals e h = Some (Ret h') -> same_hub h h'.
Proof.
  intros Hm. destruct e as [p nanos now|p w nanos ts now|p|p now|p|iter|iter now|p|m|]; cbn; rewrite ?Hm; try done.
  - destruct (c_reader <$> h_objects h !! p) as [[]|]; [|done..]. intros [= E].
    apply same_handleMessage in E as (? & ? & ?). done.
  - destruct (c_reader <$> h_objects h !! p) as [[]|]; [|done..]. by intros [= <-].
  - destruct (c_reader <$> h_objects h !! p) as [[|m| |]|]; [done| |done..]. destruct (_ <? _); [|done]. intros [= E].
    apply same_sendResponse in E as (? & ? & ?). done.
  - destruct (h_objects h !! p) as [c|]; [|done]. case_decide; [done|]. by intros [= <-].
  - intros [= <-]. by destruct (_ <? _).
Qed.

Lemma hub_stuck_run h h' : mode h = Stuck -> hub_run h h' -> same_hub h h'.
Proof.
  intros Hm. induction 1 as [|h1 h2 h3 e _ IH E]; [done|]. destruct (IH Hm) as (Hm2 & Hc2 & Hs2).
  rewrite Hm in Hm2. destruct (hub_stuck_step _ _ _ Hm2 E) as (? & ? & ?). repeat split; congruence.
Qed.

(** The loop stops at the first client without room, if those before it are open. *)
Lemma send_all_full f counted ps p : forall h,
  hub_ok h -> (forall p, p ∈ ps -> p ∈ clients h) -> p ∈ ps -> NoDup ps -> ~ has_room h p ->
  exists h', send_all f counted ps h = Ret h' /\ mode h' = Stuck.
Proof.
  induction ps as [|p0 ps IH]; intros h Hok Hcl Hp Hnd Hfull; [by apply elem_of_nil in Hp|].
  apply NoDup_cons in Hnd as [Hn Hnd]. cbn. destruct (try_send p0 f h) as [[h1 b]| |] eqn:E.
  - cbn. destruct b; [|by eexists]. assert (p <> p0) as Hne.
    { intros ->. apply Hfull. unfold try_send in E. destruct (h_objects h !! p0) as [c|] eqn:Ec; [|done].
      exists c. destruct (c_closed c); [done|]. destruct (Z.ltb_spec (Z.of_nat (length (c_send c))) queue_cap); [done|done]. }
    pose proof (ok_try_send _ _ _ _ _ Hok E) as Hok1. pose proof (same_try_send _ _ _ _ _ E) as (_ & Hc1 & _).
    apply IH; [destruct counted; [by apply ok_counts|done]| | |done|].
    + intros p' Hp'. assert (p' ∈ clients h1) by (rewrite Hc1; apply Hcl; set_solver). by destruct counted.
    + apply elem_of_cons in Hp as [|]; done.
    + intros (c & Ec & Hr). apply Hfull. exists c. split; [|done]. unfold try_send in E.
      destruct (h_objects h !! p0) as [c0|]; [|by simplify_eq; destruct counted].
      destruct (c_closed c0); [done|]. destruct (_ <? _); simplify_eq.
      destruct counted; cbn in Ec; by rewrite lookup_alter_ne in Ec.
  - exfalso. unfold try_send in E. destruct (h_objects h !! p0) as [c|] eqn:Ec; [|done].
    assert (p0 ∈ clients h) as Hin by (apply Hcl; set_solver). apply (hk_open _ Hok) in Hin as (c' & Ec' & Ho).
    assert (c' = c) as -> by congruence. rewrite Ho in E. by destruct (_ <? _).
  - exfalso. unfold try_send in E. destruct (h_objects h !! p0) as [c|]; [|done].
    destruct (c_closed c); [done|]. by destruct (_ <? _).
Qed.

(** C38: one slow client stops the hub.  In every reachable state of a running hub
    whose next message goes to registered subscribers one of which has a full
    queue, the broadcast leaves the hub waiting on its own unregister channel;
    from then on, whatever else happens, no client is registered or
    unregistered and no message is sent to anyone. *)
Theorem slow_client_stops_hub (st : S) h m q (iter : gset nat -> list nat) p :
  hub_run (NewWebSocketServer st) h -> mode h = Running -> broadcast h = m :: q ->
  (forall X, iter X ≡ₚ elements X) -> marshals (message_frame m) = true ->
  (forall p, subscribed h (Topic m) p -> p ∈ clients h) -> subscribed h (Topic m) p -> ~ has_room h p ->
  exists h', hub_step marshal marshals (EBroadcast iter) h = Some (Ret h') /\ mode h' = Stuck
    /\ forall h'', hub_run h' h'' -> mode h'' = Stuck /\ clients h'' = clients h' /\ messagesSent h'' = messagesSent h'.
Proof.
  intros Hr Hm Hb Hiter Hmar Hreg (cs & Es & Hp) Hfull. pose proof (hub_run_ok _ _ (new_hub_ok st) Hr) as Hok.
  cbn. rewrite Hm, Hb. unfold broadcastMessage. cbn [subscriptions set_broadcast]. rewrite Es.
  fold (message_frame m). rewrite Hmar.
  destruct (send_all_full (message_frame m) true (iter cs) p (set_broadcast q h)) as (h' & -> & Hs).
  - apply ok_broadcast; [done|]. pose proof (hk_broadcast _ Hok) as Hl. rewrite Hb in Hl. cbn in Hl. lia.
  - intros p' Hp'. rewrite Hiter, elem_of_elements in Hp'. apply Hreg. by exists cs.
  - by rewrite Hiter, elem_of_elements.
  - rewrite Hiter. apply NoDup_elements.
  - done.
  - exists h'. split; [done|]. split; [done|]. intros h'' Hrun.
    destruct (hub_stuck_run _ _ Hs Hrun) as (? & ? & ?). by rewrite <- Hs.
Qed.

(** Runs computed from a list of events. *)
Fixpoint run_hub (es : list event) h : option (exec (WebSocketServer S)) :=
  match es with
  | [] => Some (Ret h)
  | e :: es =>
    match hub_step marshal marshals e h with
    | Some (Ret h) => run_hub es h
    | r => r
    end
  end.
Lemma run_hub_run es : forall h0 h h', hub_run h0 h -> run_hub es h = Some (Ret h') -> hub_run h0 h'.
Proof.
  induction es as [|e es IH]; intros h0 h h' Hr; cbn; [by intros [= <-]|].
  destruct (hub_step marshal marshals e h) as [[h1| |]|] eqn:E; [|done..]. apply IH. by eapply run_step.
Qed.
End hub.

(** ** Examples *)

Definition ws_orders : Api.orders :=
  Api.mkOrders (fun m => (map_to_list m).*2) (fun m => (map_to_list m).*2) (fun m => (map_to_list m).*2).
#[local] Instance ws_store : Api.MessageStore Stores.ServerStore := Api.ServerStore_MessageStore ws_orders.
Definition any_marshal (v : ApiMessages.value Z) : res string bytes := Ok [1].
Definition every (f : frame) : bool := true.
Definition request (type topic : string) : event (V := Z) :=
  ERead 0 (Ok (mkWS type topic (ApiMessages.Json 0) None)) 0 0 0.
Definition note : PortaskMessage := NewMessage "m" 0 "t" [7].

(** A client that subscribes to "t", and a message for it. *)
Definition ready_events : list (event (V := Z)) := [EConnect 0 0 0; request "subscribe" "t"; EOffer note].
Definition ready : WebSocketServer Stores.ServerStore :=
  match run_hub any_marshal every ready_events (NewWebSocketServer Stores.sv_New) with
  | Some (Ret h) => h
  | _ => NewWebSocketServer Stores.sv_New
  end.
Lemma ready_run : hub_run any_marshal every (NewWebSocketServer Stores.sv_New) ready.
Proof. apply (run_hub_run _ _ ready_events _ (NewWebSocketServer Stores.sv_New)); [constructor|vm_compute; reflexivity]. Defined.

Lemma hub_tables_agree_witness : activeConnections ready = 1 /\ subscribed ready "t" 0%nat.
Proof.
  destruct (hub_tables_agree any_marshal every Stores.sv_New ready ready_run) as (Ht & _ & _ & Ha & _).
  split; [rewrite Ha; vm_compute; reflexivity|]. apply Ht. eexists. split; [vm_compute; reflexivity|].
  apply (bool_decide_unpack _). vm_compute. exact I.
Defined.

Lemma ready_subscriber p : subscribed ready "t" p -> p = 0%nat.
Proof.
  intros (cs & E & Hp). assert (subscriptions ready !! "t" = Some {[0%nat]}) as E' by (vm_compute; reflexivity).
  rewrite E' in E. injection E as <-. by apply elem_of_singleton in Hp.
Defined.

Lemma broadcast_reaches_subscribers_witness :
  exists h', hub_step any_marshal every (EBroadcast elements) ready = Some (Ret h') /\ mode h' = Running
    /\ exists c', h_objects h' !! 0%nat = Some c'
       /\ (forall c, h_objects ready !! 0%nat = Some c -> c_send c' = c_send c ++ [message_frame note]).
Proof.
  destruct (broadcast_reaches_subscribers any_marshal every Stores.sv_New ready note [] elements)
    as (h' & Hs & Hm & _ & _ & Ho).
  - exact ready_run.
  - vm_compute. reflexivity.
  - vm_compute. reflexivity.
  - intros X. reflexivity.
  - reflexivity.
  - intros p Hp. rewrite (ready_subscriber p Hp). eexists. split; [vm_compute; reflexivity|].
    split; vm_compute; reflexivity.
  - exists h'. split; [exact Hs|]. split; [exact Hm|].
    assert (exists c, h_objects ready !! 0%nat = Some c /\ bool_decide ("t" ∈ c_topics c) = true) as (c & E & Ht)
      by (eexists; split; vm_compute; reflexivity).
    destruct (Ho 0%nat c E) as (c' & E' & Hin & _). exists c'. split; [exact E'|]. intros c0 E0.
    rewrite E in E0. injection E0 as <-. rewrite Hin; [reflexivity|]. exact (bool_decide_eq_true_1 _ Ht).
Defined.

(** The client of [ready] that sends 254 pings and reads nothing. *)
Definition slow_events : list (event (V := Z)) := ready_events ++ repeat (request "ping" "") 254.
Definition slow : WebSocketServer Stores.ServerStore :=
  match run_hub any_marshal every slow_events (NewWebSocketServer Stores.sv_New) with
  | Some (Ret h) => h
  | _ => NewWebSocketServer Stores.sv_New
  end.

Lemma slow_client_stops_hub_witness :
  exists h', hub_step any_marshal every (EBroadcast elements) slow = Some (Ret h') /\ mode h' = Stuck
    /\ forall h'', hub_run any_marshal every h' h'' -> mode h'' = Stuck.
Proof.
  destruct (slow_client_stops_hub any_marshal every Stores.sv_New slow note [] elements 0%nat) as (h' & Hs & Hm & Hr).
  - apply (run_hub_run _ _ slow_events _ (NewWebSocketServer Stores.sv_New)); [constructor|vm_compute; reflexivity].
  - vm_compute. reflexivity.
  - vm_compute. reflexivity.
  - intros X. reflexivity.
  - reflexivity.
  - intros p (cs & E & Hp).
    assert (subscriptions slow !! "t" = Some {[0%nat]}) as E' by (vm_compute; reflexivity).
    cbn [note NewMessage Topic] in E. rewrite E' in E. injection E as <-. apply elem_of_singleton in Hp as ->.
    apply (bool_decide_unpack _). vm_compute. exact I.
  - exists {[0%nat]}. split; [vm_compute; reflexivity|]. by apply elem_of_singleton.
  - intros (c & E & _ & Hl).
    assert (exists c, h_objects slow !! 0%nat = Some c /\ length (c_send c) = 256%nat) as (c' & E' & Hl')
      by (eexists; split; vm_compute; reflexivity).
    rewrite E' in E. injection E as <-. rewrite Hl' in Hl. unfold queue_cap in Hl. lia.
  - exists h'. split; [exact Hs|]. split; [exact Hm|]. intros h'' H. by destruct (Hr h'' H).
Defined.

(** A client whose queue overflows while it is answered is unregistered and its
    queue closed, but its reader goes on: the next answer is a send on a closed
    channel, which ends the process. *)
Lemma overflow_crashes :
  run_hub any_marshal every (slow_events ++ [request "ping" ""; EUnregister 0; request "ping" ""])
    (NewWebSocketServer Stores.sv_New) = Some Panic.
Proof. vm_compute. reflexivity. Qed.

(** ** The Fiber handler *)

Fixpoint run_fiber (es : list fiber_event) (f : fiber_hub) : exec fiber_hub :=
  match es with
  | [] => Ret f
  | e :: es => do! f := fiber_step e f in run_fiber es f
  end.
Definition published (es : list fiber_event) : list PortaskMessage :=
  omap (fun e => match e with FPublish m => Some m | _ => None end) es.
Definition held (f : fiber_hub) : list PortaskMessage :=
  queue f ++ (connections f ≫= fun c => written c ++ msgChan c).

Lemma bind_alter {A B} (g : A -> list B) (h : A -> A) (l : list A) k :
  (forall a, g (h a) ⊆+ g a) -> (alter h k l ≫= g) ⊆+ (l ≫= g).
Proof.
  intros H. revert k. induction l as [|a l IH]; intros [|k]; [done..| |]; cbn.
  - by apply submseteq_app.
  - by apply submseteq_app; [done|apply IH].
Qed.
Lemma bind_insert {A B} (g : A -> list B) (l : list A) k a a' x :
  l !! k = Some a -> g a' ⊆+ x ++ g a -> (<[k := a']> l ≫= g) ⊆+ x ++ (l ≫= g).
Proof.
  intros Hk H. revert k Hk. induction l as [|b l IH]; intros [|k] Hk; [done..| |]; cbn in *.
  - injection Hk as ->. rewrite app_assoc. by apply submseteq_app.
  - rewrite (Permutation_app_comm x), <- app_assoc. apply submseteq_app; [done|].
    rewrite (Permutation_app_comm _ x). by apply IH.
Qed.

Lemma fiber_step_held e f f' : fiber_step e f = Ret f' -> held f' ⊆+ held f ++ published [e].
Proof.
  unfold held. destruct e as [|m|k|k|k]; cbn.
  - intros [= <-]. cbn. rewrite bind_app. cbn. by rewrite !app_nil_r.
  - intros [= <-]. destruct (_ <? _); cbn.
    + rewrite <- !app_assoc. apply submseteq_app; [done|]. by rewrite Permutation_app_comm.
    + by apply submseteq_inserts_r.
  - destruct (queue f) as [|m q] eqn:Eq; [intros [= <-]; by rewrite Eq, app_nil_r|].
    destruct (connections f !! k) as [c|] eqn:Ec; [|intros [= <-]; by rewrite Eq, app_nil_r].
    unfold forward. destruct (chan_closed c); [done|].
    destruct (_ <? _); cbn; intros [= <-]; cbn; rewrite app_nil_r.
    + rewrite (Permutation_app_comm q). etransitivity; [apply submseteq_app; [|done]; eapply (bind_insert _ _ _ _ _ [m])|].
      * done.
      * cbn. rewrite app_assoc. by rewrite Permutation_app_comm.
      * cbn. by rewrite (Permutation_app_comm q).
    + rewrite list_insert_id by done. by apply submseteq_cons.
  - intros [= <-]. cbn. rewrite app_nil_r. apply submseteq_app; [done|]. apply bind_alter. intros c.
    unfold write_one. destruct (msgChan c) as [|m q] eqn:E; cbn; rewrite ?E; [done|]. by rewrite <- app_assoc.
  - intros [= <-]. cbn. rewrite app_nil_r. apply submseteq_app; [done|]. by apply bind_alter.
Qed.

(** A message of the Fiber server reaches at most one WebSocket connection.
    After any run of connects, publishes, forwards, writes and disconnects that
    does not crash, all that is in the broadcast channel, in the channels of
    the connections or written to them are published messages, each counted
    once over all connections together. *)
Theorem fiber_delivers_at_most_once es f :
  run_fiber es (mkFiberHub [] []) = Ret f -> held f ⊆+ published es.
Proof.
  assert (forall es f0, run_fiber es f0 = Ret f -> held f ⊆+ held f0 ++ published es) as H.
  { clear. induction es as [|e es IH]; intros f0; cbn [run_fiber]; [intros [= <-]; by rewrite app_nil_r|].
    destruct (fiber_step e f0) as [f1| |] eqn:E; [|done..]. intros Hr. etransitivity; [exact (IH _ Hr)|].
    etransitivity; [apply submseteq_app; [exact (fiber_step_held _ _ _ E)|reflexivity]|].
    rewrite <- app_assoc. apply submseteq_app; [done|]. by destruct e. }
  intros Hr. exact (H _ _ Hr).
Qed.

Lemma fiber_delivers_at_most_once_witness :
  exists f, run_fiber [FConnect; FConnect; FPublish note; FForward 0; FForward 1; FWriteOne 0] (mkFiberHub [] []) = Ret f
    /\ written <$> connections f = [[note]; []] /\ held f ⊆+ [note].
Proof.
  eexists. split; [reflexivity|]. split; [reflexivity|].
  apply (fiber_delivers_at_most_once [FConnect; FConnect; FPublish note; FForward 0; FForward 1; FWriteOne 0]). reflexivity.
Defined.

(** The forwarding goroutine of a connection that has gone takes the next
    message and sends it on the closed channel. *)
Lemma disconnect_crashes :
  run_fiber [FConnect; FDisconnect 0; FPublish note; FForward 0] (mkFiberHub [] []) = Panic.
Proof. reflexivity. Qed.
End HubSpec.
